(* ===== verification/_CoqProject ===== *)
-Q . S2P
Prelude.v
GoTime.v
Float64.v
Float64Facts.v
GoError.v
GoString.v
Utf8.v
EnvParse.v
TokenBucket.v
Limiter.v
MemoryLimiter.v
LuaBucket.v
RedisLimiter.v
Http.v
Writers.v
Routing.v
CircuitBreaker.v
Transport.v
Postgres.v
CachedStore.v
State.v
Metrics.v
Middleware.v
GatewayState.v
RateLimiting.v
RedisLimiting.v
Proxy.v
Gateway.v
ServedBound.v
ConcurrentGateway.v
ConcurrentBuckets.v
AppConfig.v
Server.v
Startup.v
