(* ===== verification/Prelude.v ===== *)
(** * The High-Throughput API Gateway and Rate Limiter, verified

    The program is an HTTP gateway in Go.  A multiplexer sends a request to a
    page of its own (health, readiness, metrics, debugging) or through a chain
    of middleware (metrics, recovery, logging, rate limiting) to a reverse
    proxy, whose transport retries and has a circuit breaker.  The rate
    limiter keeps a token bucket per client, in memory or in Redis; a client's
    own limit comes from PostgreSQL through an in-process cache.  This library
    is a shallow embedding of that program: data are records and inductive
    types with the names of the source, operations are functions that take
    the state and return the new one, and every definition evaluates.

    ** Files, and the code they model (paths under [src/])

    Foundations, which model what the source uses of Go itself.
    - [Prelude]: tactics, the hint database [gateway], [outcome] (a result or
      a panic), lemmas on powers of two and strings.
    - [GoTime]: 64-bit [int], [time.Duration] and [time.Time] with wall and
      monotonic readings.  Arithmetic wraps around as in Go.
    - [Float64], [Float64Facts]: binary64.  The operations are the executable
      specification of IEEE 754 of the Standard Library; the theory reads a
      float as an integer number of units of [2 ^ -1074], and bounds the error
      of each operation the limiters make.
    - [GoError], [GoString], [Utf8], [EnvParse]: [error] values with their
      chain of wrapped sentinels, [strings], [net.SplitHostPort], the decoding
      of UTF-8, [strconv] and [time.ParseDuration].
    - [Http]: requests, headers and the response writer of [net/http], with
      the commitment of status and headers by the first write.
    - [State]: the state behind the handlers as components reached through
      the class [Component]; the clock is a component, so each reading of
      the time is a step of the state.
    - [Routing]: the matching, cleaning and redirecting of [http.ServeMux],
      for the patterns [run] registers.

    Components.
    - [TokenBucket]: [internal/limiter/token_bucket.go].  The methods take a
      mutex, so each is one function on the record, given the reading of the
      clock it makes.
    - [Limiter]: [internal/ratelimit/ratelimit.go], the interface as a class.
    - [MemoryLimiter]: [internal/ratelimit/memory_limiter.go].  The buckets
      live in a heap and the map holds pointers; [ml_sys] is the system of
      concurrent calls, in which [AllowN] is two steps.
    - [CircuitBreaker], [Transport]: [internal/handler/circuit_breaker.go].
      The breaker is a state machine; [RoundTrip] runs it around an abstract
      base transport and logs every request, wait and closed body.
    - [Postgres], [CachedStore]: [internal/storage/].  [database/sql] is the
      class [SqlDriver]; the cache is over the class [ClientStore], and
      [cs_sys] is the system of concurrent lookups.
    - [Metrics]: [internal/metrics/metrics.go], path labels, the collectors and
      their registration, counting.
    - [Writers]: the wrappers of the response writer in
      [internal/metrics/metrics.go] and [internal/handler/middleware.go], the
      status they note and the optional interfaces they offer.
    - [Middleware]: [internal/handler/middleware.go], written against the
      classes [Limiter], [LimitStore] and [Component].
    - [Proxy]: [internal/handler/proxy.go] over [Transport].
    - [AppConfig]: [internal/config/config.go], from the environment to the
      validated configuration.

    Composition, [cmd/api-gateway/main.go].
    - [GatewayState]: the state of the gateway, for any limiter and store: the
      class [RateLimitState] and a record that is an instance.
    - [RateLimiting], [RedisLimiting]: the middleware over each limiter; they
      join [Middleware] with [MemoryLimiter] and [CachedStore], and with
      [RedisLimiter].
    - [Gateway]: the handler chain, for any limiter.
    - [ServedBound]: the chain over the in-memory limiter and an upstream that
      records what it receives, with the cleanup goroutine of the limiter
      waking up between requests.
    - [ConcurrentGateway]: any number of requests on goroutines of their own
      through [RateLimitMiddleware], whose pieces interleave with each other
      and with the cleanup over the in-memory limiter.
    - [ConcurrentBuckets]: how many buckets a client gets in that system, and
      how many of its requests are handed on.
    - [Server]: the handlers of the other routes and the multiplexer over all.
    - [Startup]: [run] from the environment to a listening server, the end of
      a run, and the health probe.

    ** What the theorems show

    - The rate limit: over any history a bucket grants at most its capacity
      plus the rate times the elapsed time plus one token, in binary64
      ([token_bucket_rate_bound]); the same for a client of the limiter under
      every interleaving of goroutines ([memory_limiter_rate_bound]), and for
      a client of any number of gateways that share a Redis server, whatever
      expires there ([redis_rate_bound]).  End to end, without a store of
      limits: the requests of a client that reach the upstream through the
      handler chain are as many at most, and one burst more for each time the
      client may have been idle for two cleanup intervals, after which the
      cleanup drops its bucket ([served_bound]).  With concurrent requests of
      clients whose limits do not change, a client with a limit of its own has
      as many buckets as it has requests under way at one time, and the
      default ones it gets after a cleanup ([concurrent_buckets],
      [concurrent_served_bound]); a race attains the first number
      ([sync_race]).  With these: the exact decision of a call, its invariant
      and progress.
    - Refinement: the limiter with pointers answers as a map from clients to
      buckets ([memory_limiter_refines]), clients do not affect each other,
      and cleanup drops exactly the entries idle for more than two intervals.  A request through the
      middleware charges one token to its client's bucket and is passed on
      exactly when the bucket grants it ([rate_limit_request]), and the pieces
      of a request that run alone do the same ([concurrent_alone]); over Redis
      the script decides, and a request without a decision is passed on
      ([redis_request]); a limit that is set holds for every gateway until it
      is reset ([redis_set_reset]).
    - Storage: what the cache returns was in the store, and not too long ago,
      under every interleaving; sweeps are unobservable; the limit derived
      from the cache is one the store gave in this call or put there less
      than one time to live before ([cached_effective_limit]).
    - The breaker and the transport: the single probe, when it trips, which
      attempts a round trip makes, after which waits and with which result
      ([round_trip_attempts]), what it records, the closing and rewinding of
      bodies.
    - The server: which request takes which route, and what it changes; the
      chain ends without a panic and counts the request once, whatever
      happens behind it, under the status the client sees unless the copy of
      an upstream's response fails ([serve_routes]); redirects end after one
      step; error responses, forwarding headers, labels; and
      that no protocol upgrade succeeds ([upgrade_refused]).
    - Startup and the end: [Load] returns valid configurations only and takes
      database URLs apart, whichever parts they have; the gateway starts on every valid
      configuration, in the state the theorems on requests assume
      ([start_gateway]); [run] releases what it holds ([run_ends]).
    - Some theorems state behaviour the code does not intend: limits lost
      after cleanup, a limit set once per concurrent request, an override that
      another client's name makes expire or that outlives the limit
      ([redis_stale_override]), a lost probe that blocks an upstream, the
      invalidation race, the recovered [http.ErrAbortHandler], wrappers that
      cannot be hijacked, a debug page that looks at the wrong bucket, a
      backend name that is validated in one way and compared in another.

    ** Bounds and fuel

    The rate bounds are for at most [2 ^ 28] calls on a bucket and for rates
    and capacities up to [2 ^ 20], over any length of time: within these the
    rounding errors of all the refills stay below one token.  The Redis bound
    further needs clocks before the year 278,000.  [RoundTrip]
    makes at most three attempts, the fuel of its loop, and
    [Transport] shows it never runs out; the parser of durations consumes a
    byte or more in each round, so the length of its input is enough fuel.

    ** Assumptions

    What is not under [src/] is a parameter: the database driver
    ([SqlDriver], with the hypotheses [ClientsTable] on the three statements
    and a finite map that satisfies them), the Redis client and server
    ([Redis], with the laws [RedisSpec] of the commands the scripts call and
    the server in finite maps [mem_redis] that satisfies them), the base
    transport, by its settings, the registry and the page of the metrics
    library, the readings of the clock, the tables of Unicode for case
    mapping and folding, the parsing of the upstream's URL, and of
    [httputil.ReverseProxy] the cleaning of queries, the quoting of text and
    the joining of two connections ([ProxyLib]).

    ** Not modelled

    [CONNECT] requests and requests for the target ["*"], trailers and
    informational responses, what the server does with a response whose body
    does not have its declared length, the encoding of the metrics page, the starting of goroutines and tickers, the delivery of signals and the listener (which are events of
    [Startup]), and the filtering of log lines by the level: they are input
    and output or delegate to libraries.  Concurrent requests are modelled
    in the components that synchronize (the limiters, the breaker, the
    cache) and in the rate limiting over the in-memory limiter
    ([ConcurrentGateway]); in the theorems on the whole chain requests come
    one after the other. *)
From stdpp Require Export base tactics option list strings gmap.
From Stdlib Require Export ZArith Lia.

(** ** Notations *)
Declare Scope go_scope.
Delimit Scope go_scope with go.
Open Scope Z_scope.

(** ** Tactics *)

(** Case analysis on the scrutinee of a [match] or [if] of the goal,
    keeping the equation. *)
Ltac case_on_match :=
  match goal with
  | |- context [match ?x with _ => _ end] => destruct x eqn:?
  end.

(** Case analysis on the scrutinee of a [match] or [if] of a hypothesis. *)
Ltac case_on_match_in H :=
  match type of H with
  | context [match ?x with _ => _ end] => destruct x eqn:?
  end.

(** Turn the boolean comparisons of the context into propositions. *)
Ltac bool_to_prop :=
  repeat match goal with
    | H : (_ <=? _) = true |- _ => apply Z.leb_le in H
    | H : (_ <=? _) = false |- _ => apply Z.leb_gt in H
    | H : (_ <? _) = true |- _ => apply Z.ltb_lt in H
    | H : (_ <? _) = false |- _ => apply Z.ltb_ge in H
    | H : (_ =? _) = true |- _ => apply Z.eqb_eq in H
    | H : (_ =? _) = false |- _ => apply Z.eqb_neq in H
    | H : (_ && _)%bool = true |- _ => apply andb_true_iff in H as [? ?]
    | H : (_ && _)%bool = false |- _ => apply andb_false_iff in H
    | H : (_ || _)%bool = true |- _ => apply orb_true_iff in H
    | H : (_ || _)%bool = false |- _ => apply orb_false_iff in H as [? ?]
    | H : negb _ = true |- _ => apply negb_true_iff in H
    | H : negb _ = false |- _ => apply negb_false_iff in H
    end.

(** The library's hint database: positivity of powers of two, range facts
    and preservation lemmas of the components' invariants. *)
Create HintDb gateway.

(** ** Outcomes of Go functions that may panic *)
Inductive outcome (A : Type) : Type :=
  | Return (a : A)
  | Panic (msg : string).
Arguments Return {A} a.
Arguments Panic {A} msg.

(** ** Powers of two *)

Lemma pow2_pos (n : Z) : 0 <= n -> 0 < 2 ^ n.
Proof. intros; apply Z.pow_pos_nonneg; lia. Qed.
#[export] Hint Resolve pow2_pos : gateway.

Lemma pow2_add (a b : Z) : 0 <= a -> 0 <= b -> 2 ^ (a + b) = 2 ^ a * 2 ^ b.
Proof. intros; apply Z.pow_add_r; lia. Qed.

Lemma pow2_le (a b : Z) : a <= b -> 2 ^ a <= 2 ^ b.
Proof. intros; apply Z.pow_le_mono_r; lia. Qed.

Lemma pow2_lt_inv (a b : Z) : 0 <= b -> 2 ^ a < 2 ^ b -> a < b.
Proof. intros Hb H. apply (Z.pow_lt_mono_r_iff 2); lia. Qed.

Lemma pow2_split (a b : Z) : 0 <= a <= b -> 2 ^ b = 2 ^ (b - a) * 2 ^ a.
Proof. intros. rewrite <- pow2_add by lia. f_equal. lia. Qed.

(** ** Strings *)

(** One step of [+:+], which the libraries keep folded. *)
Lemma string_app_cons (x : Ascii.ascii) (a b : string) :
  String x a +:+ b = String x (a +:+ b).
Proof. done. Qed.

Lemma string_app_assoc (a b c : string) : (a +:+ b) +:+ c = a +:+ (b +:+ c).
Proof. induction a as [|x a IH]; [done|]. by rewrite !string_app_cons, IH. Qed.

Lemma string_app_nil_r (a : string) : a +:+ "" = a.
Proof. induction a as [|x a IH]; [done|]. by rewrite string_app_cons, IH. Qed.

(** ** Lists *)

Lemma filter_none {A} (P : A -> Prop) `{!forall x, Decision (P x)} (l : list A) :
  Forall (fun x => ~ P x) l -> filter P l = [].
Proof. induction 1 as [|x l Hx _ IH]; [done|]. by rewrite filter_cons_False. Qed.

Lemma filter_all {A} (P : A -> Prop) `{!forall x, Decision (P x)} (l : list A) :
  Forall P l -> filter P l = l.
Proof. induction 1 as [|x l Hx _ IH]; [done|]. by rewrite filter_cons_True, IH. Qed.

Lemma Forall_filter_keep {A} (P Q : A -> Prop) `{!forall x, Decision (Q x)} (l : list A) :
  Forall P l -> Forall P (filter Q l).
Proof.
  induction 1 as [|x l Hx _ IH]; [done|]. rewrite filter_cons.
  destruct (decide _); [by constructor|done].
Qed.
