(* ===== verification/GoTime.v ===== *)
(** * Go's fixed-width integers and the [time] package

    [int] and [int64] values are integers of [Z] in the range of a signed
    64-bit word, with the wrap-around of Go's arithmetic written out by
    [wrap64]; [time.Duration] is such a value, counting nanoseconds.  A
    [time.Time] carries its wall-clock reading and, when it was obtained by
    [time.Now], a monotonic reading; [Sub], [Add] and [Before] follow the
    standard library: they use the monotonic readings when both operands
    have one. *)
From S2P Require Import Prelude.

(** ** Integers *)

Definition min_int64 : Z := - 2 ^ 63.
Definition max_int64 : Z := 2 ^ 63 - 1.

Definition in_int64 (z : Z) : bool := (min_int64 <=? z) && (z <=? max_int64).

(** Two's-complement wrap-around of a 64-bit signed operation. *)
Definition wrap64 (z : Z) : Z := (z + 2 ^ 63) mod 2 ^ 64 - 2 ^ 63.

(** Saturation, as [time.Time.Sub] does it. *)
Definition sat64 (z : Z) : Z := Z.max min_int64 (Z.min max_int64 z).

(** ** Durations *)

Definition Nanosecond : Z := 1.
Definition Millisecond : Z := 1000000.
Definition Second : Z := 1000000000.
Definition Minute : Z := 60 * Second.

(** [time.Duration(n) * unit]: a wrapping product. *)
Definition dur_mul (a b : Z) : Z := wrap64 (a * b).

(** ** Times *)

Record Time := mkTime { wall : Z; mono : option Z }.

(** The zero [time.Time] (January 1 of year 1): no monotonic reading. *)
Definition zero_time : Time :=
  {| wall := - 62135596800 * Second; mono := None |}.

(** A reading of the clock by [time.Now]: wall clock and monotonic clock. *)
Definition clock (w m : Z) : Time := {| wall := w; mono := Some m |}.

Definition time_sub (t u : Time) : Z :=
  match mono t, mono u with
  | Some a, Some b => sat64 (a - b)
  | _, _ => sat64 (wall t - wall u)
  end.

Definition time_add (t : Time) (d : Z) : Time :=
  {| wall := wall t + d;
     mono := match mono t with
             | Some a => let te := a + d in
                         if in_int64 te then Some te else None
             | None => None
             end |}.

Definition time_before (t u : Time) : bool :=
  match mono t, mono u with
  | Some a, Some b => a <? b
  | _, _ => wall t <? wall u
  end.

Definition time_after (t u : Time) : bool :=
  match mono t, mono u with
  | Some a, Some b => b <? a
  | _, _ => wall u <? wall t
  end.

(** ** Lemmas *)

Lemma in_int64_iff (z : Z) :
  in_int64 z = true <-> min_int64 <= z <= max_int64.
Proof. unfold in_int64. rewrite andb_true_iff, !Z.leb_le. done. Qed.

Lemma wrap64_range (z : Z) : min_int64 <= wrap64 z <= max_int64.
Proof.
  unfold wrap64, min_int64, max_int64.
  pose proof (Z.mod_pos_bound (z + 2 ^ 63) (2 ^ 64)). lia.
Qed.

Lemma wrap64_id (z : Z) : min_int64 <= z <= max_int64 -> wrap64 z = z.
Proof.
  unfold wrap64, min_int64, max_int64. intros.
  rewrite Z.mod_small; lia.
Qed.

Lemma sat64_range (z : Z) : min_int64 <= sat64 z <= max_int64.
Proof. unfold sat64, min_int64, max_int64. lia. Qed.

Lemma sat64_id (z : Z) : min_int64 <= z <= max_int64 -> sat64 z = z.
Proof. unfold sat64. lia. Qed.

Lemma sat64_le (z : Z) : 0 <= z -> sat64 z <= z.
Proof. unfold sat64, min_int64, max_int64. lia. Qed.
#[export] Hint Resolve sat64_range wrap64_range : gateway.

Lemma time_sub_clock (w m w' m' : Z) :
  time_sub (clock w m) (clock w' m') = sat64 (m - m').
Proof. done. Qed.

(** Readings of the clock in the order they are made: the monotonic clock
    never goes back, and neither does the wall clock (it is compared only
    with times that lost their monotonic reading). *)
Definition later (t u : Time) : Prop :=
  wall t <= wall u /\ exists a b, mono t = Some a /\ mono u = Some b /\ a <= b.

Lemma later_trans (t u v : Time) : later t u -> later u v -> later t v.
Proof.
  intros (Hw & a & b & Ha & Hb & Hab) (Hw' & b' & c & Hb' & Hc & Hbc).
  split; [lia|]. exists a, c. rewrite Hb in Hb'. injection Hb' as <-.
  split; [done|]. split; [done|lia].
Qed.

(** An instant that has passed has passed for every later reading. *)
Lemma after_not_before (now now' u : Time) :
  later now now' -> time_after now u = true -> time_before now' u = false.
Proof.
  intros (Hw & a & b & Ha & Hb & Hab). unfold time_after, time_before.
  rewrite Ha, Hb. destruct (mono u); intros H; bool_to_prop; apply Z.ltb_ge; lia.
Qed.
