(* ===== verification/Float64.v ===== *)
(** * IEEE 754 binary64, Go's [float64] and Lua's [number]

    The arithmetic is that of the Standard Library's [SpecFloat], the
    executable specification of IEEE 754 operations with rounding to
    nearest even, instantiated at 53 bits of precision.

    The theory below interprets every float as an integer: [f64_val x] is
    the value of [x] in units of [2 ^ -1074], the smallest positive binary64
    number, so that a finite float has exactly one value and comparisons,
    sums and differences are statements of integer arithmetic.  The main
    results are the rounding lemmas ([rounded_bounds] and the bounds of the
    operations derived from it), exactness of the operations whose result is
    representable, and correctness of the comparisons. *)
From S2P Require Import Prelude GoTime.
From Stdlib Require Import SpecFloat.

Definition f64_prec : Z := 53.
Definition f64_emax : Z := 1024.

Abbreviation float64 := spec_float.
Abbreviation f64_fexp := (fexp 53 1024).

(** ** The operations of the language *)

Definition f64_add : float64 -> float64 -> float64 := SFadd 53 1024.
Definition f64_sub : float64 -> float64 -> float64 := SFsub 53 1024.
Definition f64_mul : float64 -> float64 -> float64 := SFmul 53 1024.
Definition f64_div : float64 -> float64 -> float64 := SFdiv 53 1024.
Definition f64_leb : float64 -> float64 -> bool := SFleb.
Definition f64_ltb : float64 -> float64 -> bool := SFltb.

(** [float64(i)] for an integer [i]. *)
Definition f64_of_Z (z : Z) : float64 := binary_normalize 53 1024 z 0 false.

(** The integral part of a finite float, rounded toward zero. *)
Definition f64_trunc (x : float64) : option Z :=
  match x with
  | S754_zero _ => Some 0
  | S754_finite s m e =>
      let q := if 0 <=? e then Z.pos m * 2 ^ e else Z.pos m / 2 ^ (- e) in
      Some (if s then - q else q)
  | _ => None
  end.

(** [int(x)]: truncation; Go leaves the result for a value outside the range
    of the type to the implementation, and amd64 returns the minimal
    integer. *)
Definition f64_to_int (x : float64) : Z :=
  match f64_trunc x with
  | Some z => if in_int64 z then z else min_int64
  | None => min_int64
  end.

(** [time.Duration.Seconds]. *)
Definition dur_seconds (d : Z) : float64 :=
  f64_add (f64_of_Z (Z.quot d Second))
          (f64_div (f64_of_Z (Z.rem d Second)) (f64_of_Z Second)).

#[global] Arguments f64_add : simpl never.
#[global] Arguments f64_sub : simpl never.
#[global] Arguments f64_mul : simpl never.
#[global] Arguments f64_div : simpl never.
#[global] Arguments f64_of_Z : simpl never.
#[global] Arguments f64_to_int : simpl never.
#[global] Arguments dur_seconds : simpl never.

(** ** Interpretation *)

(** The value of 1.0. *)
Definition f64_unit : Z := 2 ^ 1074.

Definition f64_val (x : float64) : Z :=
  match x with
  | S754_finite s m e => cond_Zopp s (Z.pos m * 2 ^ (e + 1074))
  | S754_infinity s => cond_Zopp s (2 ^ 2098)
  | _ => 0
  end.

Definition f64_valid (x : float64) : bool := valid_binary 53 1024 x.

#[global] Arguments f64_unit : simpl never.

(** Not a NaN and not negative: the floats the limiter computes with. *)
Definition f64_nonneg (x : float64) : bool :=
  match x with
  | S754_zero _ => true
  | S754_infinity s | S754_finite s _ _ => negb s
  | S754_nan => false
  end.

Definition f64_finite (x : float64) : bool :=
  match x with
  | S754_zero _ | S754_finite _ _ _ => true
  | _ => false
  end.

(** A valid float that is a number and not negative. *)
Definition f64_pos_ok (x : float64) : Prop :=
  f64_valid x = true /\ f64_nonneg x = true.

(** ** Digits and exponents *)

Lemma f64_fexp_eq (e : Z) : f64_fexp e = Z.max (e - 53) (- 1074).
Proof. unfold fexp, emin. f_equal. Qed.

Lemma digits2_pos_bounds (p : positive) :
  2 ^ (Z.pos (digits2_pos p) - 1) <= Z.pos p < 2 ^ Z.pos (digits2_pos p).
Proof.
  induction p as [p IH|p IH|]; simpl digits2_pos; [| |simpl; lia].
  all: rewrite Pos2Z.inj_succ.
  all: replace (Z.succ (Z.pos (digits2_pos p)) - 1)
         with (Z.succ (Z.pos (digits2_pos p) - 1)) by lia.
  all: rewrite !Z.pow_succ_r by lia; lia.
Qed.

(** The number of binary digits of a non-negative integer. *)
Lemma Zdigits2_bounds (m : Z) :
  0 < m -> 2 ^ (Zdigits2 m - 1) <= m < 2 ^ Zdigits2 m.
Proof. destruct m; simpl; try lia. intros _. apply digits2_pos_bounds. Qed.

Lemma Zdigits2_nonneg (m : Z) : 0 <= m -> 0 <= Zdigits2 m.
Proof. destruct m; simpl; lia. Qed.

Lemma Zdigits2_unique (m d : Z) :
  2 ^ (d - 1) <= m < 2 ^ d -> 0 < m -> Zdigits2 m = d.
Proof.
  intros [H1 H2] Hm. pose proof (Zdigits2_bounds m Hm) as [H3 H4].
  pose proof (Zdigits2_nonneg m ltac:(lia)).
  assert (0 <= d).
  { destruct (Z.lt_ge_cases d 0); [|done]. rewrite Z.pow_neg_r in H2; lia. }
  assert (d - 1 < Zdigits2 m) by (apply pow2_lt_inv; lia).
  assert (Zdigits2 m - 1 < d) by (apply pow2_lt_inv; lia). lia.
Qed.

Lemma Zdigits2_le (m d : Z) : 0 <= m < 2 ^ d -> 0 <= d -> Zdigits2 m <= d.
Proof.
  intros [H1 H2] Hd. destruct (Z.eq_dec m 0) as [->|]; [simpl; lia|].
  pose proof (Zdigits2_bounds m ltac:(lia)).
  assert (Zdigits2 m - 1 < d) by (apply pow2_lt_inv; lia). lia.
Qed.

Lemma Zdigits2_ge (m d : Z) : 0 <= d -> 2 ^ d <= m -> d < Zdigits2 m.
Proof.
  intros Hd H. pose proof (pow2_pos d Hd).
  pose proof (Zdigits2_bounds m ltac:(lia)).
  apply pow2_lt_inv; [|lia]. apply Zdigits2_nonneg; lia.
Qed.

(** ** Locations of an exact value between two mantissas *)

(** The exact value [N / D] lies at location [l] above the integer [m]. *)
Definition between (N D m : Z) (l : location) : Prop :=
  match l with
  | loc_Exact => N = m * D
  | loc_Inexact Lt => m * D < N /\ 2 * N < (2 * m + 1) * D
  | loc_Inexact Eq => 2 * N = (2 * m + 1) * D
  | loc_Inexact Gt => (2 * m + 1) * D < 2 * N /\ N < (m + 1) * D
  end.

Lemma between_floor (N D m : Z) l :
  0 < D -> between N D m l -> m * D <= N < (m + 1) * D.
Proof. destruct l as [|[]]; simpl; intros; nia. Qed.

Lemma shr_1_between (N D : Z) (mrs : shr_record) :
  0 < D -> 0 <= shr_m mrs ->
  between N D (shr_m mrs) (loc_of_shr_record mrs) ->
  0 <= shr_m (shr_1 mrs) /\
  between N (2 * D) (shr_m (shr_1 mrs)) (loc_of_shr_record (shr_1 mrs)).
Proof.
  destruct mrs as [m r s]; simpl; intros HD Hm H.
  destruct m as [|p|p]; [| |lia].
  - destruct r, s; simpl in *; nia.
  - destruct p, r, s; simpl in *; lia.
Qed.

Lemma iter_pos_nat {A} (f : A -> A) (p : positive) (x : A) :
  iter_pos f p x = Nat.iter (Pos.to_nat p) f x.
Proof.
  revert x. induction p as [p IH|p IH|]; intros x; simpl iter_pos.
  - rewrite !IH, Pos2Nat.inj_xI. simpl Nat.iter.
    rewrite <- Nat.iter_succ_r, <- Nat.iter_add.
    rewrite <- !Nat.iter_succ. f_equal. lia.
  - rewrite !IH, Pos2Nat.inj_xO, <- Nat.iter_add. f_equal. lia.
  - done.
Qed.

Lemma shr_iter_between (N D : Z) (n : nat) (mrs : shr_record) :
  0 < D -> 0 <= shr_m mrs ->
  between N D (shr_m mrs) (loc_of_shr_record mrs) ->
  0 <= shr_m (Nat.iter n shr_1 mrs) /\
  between N (2 ^ Z.of_nat n * D) (shr_m (Nat.iter n shr_1 mrs))
          (loc_of_shr_record (Nat.iter n shr_1 mrs)).
Proof.
  intros HD Hm H. induction n as [|n [IH1 IH2]].
  - rewrite Z.mul_1_l. done.
  - rewrite Nat2Z.inj_succ, Z.pow_succ_r, <- Z.mul_assoc by lia.
    simpl Nat.iter. apply shr_1_between; try done.
    pose proof (pow2_pos (Z.of_nat n)). nia.
Qed.

Lemma shr_fexp_between (m e : Z) l (N D : Z) :
  0 < D -> 0 <= m -> between N D m l ->
  let k := Z.max 0 (f64_fexp (Zdigits2 m + e) - e) in
  exists mrs, shr_fexp 53 1024 m e l = (mrs, e + k) /\
    0 <= shr_m mrs /\ between N (2 ^ k * D) (shr_m mrs) (loc_of_shr_record mrs).
Proof.
  intros HD Hm H k. unfold shr_fexp, shr.
  assert (shr_m (shr_record_of_loc m l) = m /\
          loc_of_shr_record (shr_record_of_loc m l) = l) as [Em El]
    by (destruct l as [|[]]; done).
  destruct (f64_fexp (Zdigits2 m + e) - e) as [|p|p] eqn:Ek; subst k.
  - exists (shr_record_of_loc m l). rewrite Em, El, Z.mul_1_l, Z.add_0_r. done.
  - rewrite iter_pos_nat. eexists. split; [do 2 f_equal; lia|].
    rewrite Z.max_r, <- (positive_nat_Z p) by lia.
    apply shr_iter_between; rewrite ?Em, ?El; done.
  - exists (shr_record_of_loc m l).
    rewrite Em, El, Z.max_l, Z.mul_1_l, Z.add_0_r by lia. done.
Qed.

Lemma round_nearest_even_between (N D m : Z) l :
  0 < D -> between N D m l ->
  let r := round_nearest_even m l in
  2 * r * D <= 2 * N + D /\ 2 * N <= 2 * r * D + D /\ m <= r <= m + 1.
Proof.
  intros HD H r; subst r.
  destruct l as [|[]]; simpl in *; try (destruct (Z.even m)); lia.
Qed.

(** ** Rounding to nearest

    [rounded X Y f]: the float [f] is the rounding of the exact value
    [X / Y] (in units of [2 ^ -1074]): [f] is a multiple of the ulp [2 ^ E]
    of the exact value that is at most half an ulp away from it, or the
    infinity when that multiple is out of range. *)
Definition rounded (X Y : Z) (f : float64) : Prop :=
  f64_pos_ok f /\ 0 <= X /\
  exists E r, 0 <= E /\ 0 <= r /\
    2 * r * (2 ^ E * Y) <= 2 * X + 2 ^ E * Y /\
    2 * X <= 2 * r * (2 ^ E * Y) + 2 ^ E * Y /\
    (E = 0 \/ 2 ^ 52 * (2 ^ E * Y) <= X) /\
    X < 2 ^ 53 * (2 ^ E * Y) /\
    (f64_finite f = true /\ f64_val f = r * 2 ^ E \/
     f = S754_infinity false /\ 2 ^ 2098 <= r * 2 ^ E).

(** The packing of a rounded mantissa: the second normalisation of
    [binary_round_aux] and its overflow test. *)
Definition pack_mantissa (r e : Z) : float64 :=
  let '(mrs'', e'') := shr_fexp 53 1024 r e loc_Exact in
  match shr_m mrs'' with
  | Z0 => S754_zero false
  | Z.pos m => if e'' <=? 1024 - 53 then S754_finite false m e''
               else S754_infinity false
  | _ => S754_nan
  end.

(** A rounded mantissa is shifted only when it is [2 ^ 53]. *)
Lemma pack_shift (r e : Z) :
  -1074 <= e -> 0 <= r <= 2 ^ 53 ->
  exists mrs k, shr_fexp 53 1024 r e loc_Exact = (mrs, e + k) /\
    r = shr_m mrs * 2 ^ k /\ (k = 0 /\ r < 2 ^ 53 \/ k = 1 /\ r = 2 ^ 53).
Proof.
  intros He Hr.
  destruct (shr_fexp_between r e loc_Exact r 1) as (mrs & -> & Hm & Hb);
    [lia|lia|simpl; lia|].
  set (k := Z.max 0 _) in *. exists mrs, k. split; [done|].
  destruct (Z.eq_dec r (2 ^ 53)) as [->|Hne].
  - assert (k = 1) as Ek by (subst k; rewrite f64_fexp_eq; simpl Zdigits2; lia).
    rewrite Ek in *. apply between_floor in Hb; lia.
  - assert (Zdigits2 r <= 53) by (apply Zdigits2_le; lia).
    assert (k = 0) as Ek by (subst k; rewrite f64_fexp_eq; lia).
    rewrite Ek in *. apply between_floor in Hb; lia.
Qed.

Lemma pack_canonical (r e m k : Z) :
  -1074 <= e -> (e = -1074 \/ 2 ^ 52 <= r) -> 0 < m -> r = m * 2 ^ k ->
  (k = 0 /\ r < 2 ^ 53 \/ k = 1 /\ r = 2 ^ 53) ->
  f64_fexp (Zdigits2 m + (e + k)) = e + k /\ (e + k = -1074 \/ 2 ^ 52 <= m).
Proof.
  intros He Hn Hm Hr [[-> Hlt]|[-> ->]]; rewrite f64_fexp_eq.
  - rewrite Z.mul_1_r in Hr. subst m.
    assert (Zdigits2 r <= 53) by (apply Zdigits2_le; lia).
    destruct Hn as [->|Hn]; [lia|].
    assert (52 < Zdigits2 r) by (apply Zdigits2_ge; lia). lia.
  - assert (m = 2 ^ 52) as -> by lia. simpl Zdigits2. lia.
Qed.

Lemma pack_mantissa_spec (r e : Z) :
  -1074 <= e -> 0 <= r <= 2 ^ 53 -> (e = -1074 \/ 2 ^ 52 <= r) ->
  f64_pos_ok (pack_mantissa r e) /\
  (f64_finite (pack_mantissa r e) = true /\
     f64_val (pack_mantissa r e) = r * 2 ^ (e + 1074) \/
   pack_mantissa r e = S754_infinity false /\ 2 ^ 2098 <= r * 2 ^ (e + 1074)).
Proof.
  intros He Hr Hn. unfold pack_mantissa.
  destruct (pack_shift r e He Hr) as (mrs & k & -> & Hrk & Hk).
  assert (Hk0 : 0 <= k) by lia.
  destruct (shr_m mrs) as [|m|m].
  - split; [done|]. left. simpl. lia.
  - destruct (pack_canonical r e (Z.pos m) k) as [Hc Hm]; try done.
    assert (Hv : r * 2 ^ (e + 1074) = Z.pos m * 2 ^ (e + k + 1074)).
    { rewrite Hrk, <- Z.mul_assoc, <- pow2_add by lia. do 2 f_equal. lia. }
    rewrite Hv. destruct (e + k <=? 1024 - 53) eqn:Eo; bool_to_prop.
    + split; [|by left]. split; [|done].
      unfold f64_valid, valid_binary, bounded, canonical_mantissa.
      change (Z.pos (digits2_pos m)) with (Zdigits2 (Z.pos m)).
      rewrite Hc, Z.eqb_refl. simpl. apply Z.leb_le. lia.
    + split; [done|]. right. split; [done|].
      replace 2098 with (52 + 2046) by done. rewrite (pow2_add 52) by lia.
      apply Z.mul_le_mono_nonneg; [|destruct Hm; lia| |apply pow2_le; lia];
        apply Z.lt_le_incl, pow2_pos; lia.
  - pose proof (pow2_pos k Hk0). nia.
Qed.

(** The mantissa left by the first normalisation of [binary_round_aux]. *)
Lemma normalised_mantissa (mx ex N D m' : Z) lx l' :
  let k := Z.max 0 (f64_fexp (Zdigits2 mx + ex) - ex) in
  0 < D -> 0 <= mx -> ex <= f64_fexp (Zdigits2 mx + ex) ->
  between N D mx lx -> between N (2 ^ k * D) m' l' ->
  m' < 2 ^ 53 /\ (ex + k = -1074 \/ 2 ^ 52 <= m').
Proof.
  intros k HD Hm Hex Hb Hb'.
  rewrite f64_fexp_eq in Hex.
  assert (Ek : k = Z.max 0 (Z.max (Zdigits2 mx + ex - 53) (-1074) - ex))
    by (subst k; by rewrite f64_fexp_eq).
  clearbody k. assert (Hk : 0 <= k) by lia. pose proof (pow2_pos k Hk) as Hpk.
  apply between_floor in Hb; [|lia]. apply between_floor in Hb'; [|nia].
  assert (Hlo : m' * 2 ^ k < mx + 1) by (apply (Z.mul_lt_mono_pos_r D); lia).
  assert (Hhi : mx < (m' + 1) * 2 ^ k) by (apply (Z.mul_lt_mono_pos_r D); lia).
  assert (mx < 2 ^ (53 + k)).
  { destruct (Z.eq_dec mx 0) as [->|]; [apply pow2_pos; lia|].
    eapply Z.lt_le_trans; [apply Zdigits2_bounds; lia|].
    apply pow2_le. lia. }
  rewrite pow2_add in * by lia. split; [nia|].
  destruct (Z.eq_dec (ex + k) (-1074)); [by left|right].
  destruct (Z.eq_dec mx 0) as [->|Hmx]; [simpl Zdigits2 in *; lia|].
  assert (2 ^ 52 * 2 ^ k <= mx).
  { rewrite <- pow2_add by lia.
    replace (52 + k) with (Zdigits2 mx - 1) by lia.
    apply Zdigits2_bounds. lia. }
  nia.
Qed.

(** [binary_round_aux] rounds the exact value [N / D * 2 ^ ex] described by
    its mantissa and location. *)
Lemma binary_round_aux_rounded (mx ex : Z) lx (N D : Z) :
  0 < D -> 0 <= mx -> between N D mx lx ->
  ex <= f64_fexp (Zdigits2 mx + ex) ->
  rounded (N * 2 ^ Z.max 0 (ex + 1074)) (D * 2 ^ Z.max 0 (- (ex + 1074)))
          (binary_round_aux 53 1024 false mx ex lx).
Proof.
  intros HD Hm Hb Hex. unfold binary_round_aux.
  destruct (shr_fexp_between mx ex lx N D HD Hm Hb) as (mrs & -> & Hm' & Hb').
  pose proof (normalised_mantissa _ _ _ _ _ _ _ HD Hm Hex Hb Hb') as [Hlt Hn].
  set (k := Z.max 0 _) in *.
  set (m' := shr_m mrs) in *. set (l' := loc_of_shr_record mrs) in *.
  fold (pack_mantissa (round_nearest_even m' l') (ex + k)).
  assert (HS : 0 < 2 ^ k * D) by (pose proof (pow2_pos k); nia).
  destruct (round_nearest_even_between _ _ _ _ HS Hb') as (H1 & H2 & H3).
  apply between_floor in Hb'; [|done].
  set (r := round_nearest_even m' l') in *.
  assert (Hge : -1074 <= ex + k) by (subst k; rewrite f64_fexp_eq; lia).
  assert (Hk : 0 <= k) by (subst k; lia). clearbody k m' l' r.
  destruct (pack_mantissa_spec r (ex + k)) as [Hok Hv]; [lia|lia| |].
  { destruct Hn; [by left|right; lia]. }
  assert (HA : 0 < 2 ^ Z.max 0 (ex + 1074)) by (apply pow2_pos; lia).
  split; [done|]. split.
  { apply Z.mul_nonneg_nonneg; [|lia]. clear -Hb' HS Hm'. nia. }
  exists (ex + k + 1074), r.
  assert (Heq : 2 ^ (ex + k + 1074) * (D * 2 ^ Z.max 0 (- (ex + 1074)))
                = 2 ^ k * D * 2 ^ Z.max 0 (ex + 1074)).
  { transitivity (D * 2 ^ (k + Z.max 0 (ex + 1074))).
    - replace (k + Z.max 0 (ex + 1074))
        with ((ex + k + 1074) + Z.max 0 (- (ex + 1074))) by lia.
      rewrite (pow2_add (ex + k + 1074)) by lia. ring.
    - rewrite pow2_add by lia. ring. }
  rewrite Heq. clear Heq.
  remember (2 ^ Z.max 0 (ex + 1074)) as A eqn:EA. clear EA.
  remember (2 ^ k * D) as S eqn:ES. clear ES.
  split; [lia|]. split; [lia|]. split; [|split; [|split; [|split; [|exact Hv]]]].
  - clear -H1 HA. nia.
  - clear -H2 HA. nia.
  - destruct Hn as [Hn|Hn]; [left; lia|right]. clear -Hn Hb' HA HS. nia.
  - clear -Hlt Hb' HA HS.
    assert (N < 2 ^ 53 * S) by nia. nia.
Qed.

(** ** Consequences of rounding *)

Lemma half_ulp_le (c r S X : Z) :
  0 < S -> c * S <= X -> 2 * X <= 2 * r * S + S -> c <= r.
Proof. intros. nia. Qed.

Lemma half_ulp_ge (c r S X : Z) :
  0 < S -> X <= c * S -> 2 * r * S <= 2 * X + S -> r <= c.
Proof. intros. nia. Qed.

Lemma mantissa_below (m e E : Z) :
  0 <= m < 2 ^ 53 -> 0 <= e < E -> m * 2 ^ e < 2 ^ 52 * 2 ^ E.
Proof.
  intros Hm He. rewrite (pow2_split e E) by lia.
  pose proof (pow2_pos e). pose proof (pow2_le 1 (E - e)). nia.
Qed.

Section Rounded.
Context (X Y : Z) (f : float64) (HY : 0 < Y) (Hr : rounded X Y f).

Lemma rounded_ok : f64_pos_ok f.
Proof. apply Hr. Qed.

(** The rounded value exceeds the exact one by at most one part in
    [2 ^ 53], or half a unit when the result is subnormal. *)
Lemma rounded_upper : 2 ^ 53 * (f64_val f * Y) <= (2 ^ 53 + 1) * X + 2 ^ 52 * Y.
Proof.
  destruct Hr as (_ & HX & E & r & HE & Hr0 & H1 & H2 & H3 & H4 & H5).
  assert (Hv : f64_val f <= r * 2 ^ E)
    by (destruct H5 as [[_ ->]|[-> ?]]; [lia|done]).
  pose proof (pow2_pos E HE) as HpE.
  assert (f64_val f * Y <= r * (2 ^ E * Y)) by nia.
  destruct H3 as [->|H3]; [|lia].
  change (2 ^ 0) with 1 in *. lia.
Qed.

Lemma rounded_lower :
  f64_finite f = true ->
  (2 ^ 53 - 1) * X <= 2 ^ 53 * (f64_val f * Y) + 2 ^ 52 * Y.
Proof.
  intros Hf. destruct Hr as (_ & HX & E & r & HE & Hr0 & H1 & H2 & H3 & H4 & H5).
  destruct H5 as [[_ ->]|[-> _]]; [|done].
  rewrite <- Z.mul_assoc.
  pose proof (pow2_pos E HE) as HpE.
  destruct H3 as [->|H3]; [|lia].
  change (2 ^ 0) with 1 in *. lia.
Qed.

(** Rounding to nearest respects the floats below and above the exact
    value; [m * 2 ^ e] is the value of a float. *)
Lemma rounded_ge (m e : Z) :
  0 <= m < 2 ^ 53 -> 0 <= e -> m * 2 ^ e * Y <= X ->
  m * 2 ^ e <= 2 ^ 2098 -> m * 2 ^ e <= f64_val f.
Proof.
  intros Hm He Hle Hmax.
  destruct Hr as (_ & HX & E & r & HE & Hr0 & H1 & H2 & H3 & H4 & H5).
  assert (m * 2 ^ e <= r * 2 ^ E);
    [|destruct H5 as [[_ ->]|[-> ?]]; simpl cond_Zopp; done].
  clear H5 Hmax. pose proof (pow2_pos E HE) as HpE.
  destruct (Z.le_gt_cases E e) as [HEe|HEe].
  - rewrite (pow2_split E e) in Hle |- * by lia.
    rewrite Z.mul_assoc. apply Z.mul_le_mono_nonneg_r; [lia|].
    apply (half_ulp_le _ _ (2 ^ E * Y) X); [nia|lia|done].
  - destruct H3 as [->|H3]; [lia|].
    pose proof (half_ulp_le (2 ^ 52) r (2 ^ E * Y) X ltac:(nia) H3 H2).
    pose proof (mantissa_below m e E Hm ltac:(lia)).
    assert (2 ^ 52 * 2 ^ E <= r * 2 ^ E) by (apply Z.mul_le_mono_nonneg_r; lia).
    lia.
Qed.

Lemma rounded_le (m e : Z) :
  0 <= m < 2 ^ 53 -> 0 <= e -> X <= m * 2 ^ e * Y -> f64_val f <= m * 2 ^ e.
Proof.
  intros Hm He Hle.
  destruct Hr as (_ & HX & E & r & HE & Hr0 & H1 & H2 & H3 & H4 & H5).
  assert (r * 2 ^ E <= m * 2 ^ e);
    [|destruct H5 as [[_ ->]|[-> ?]]; simpl f64_val; simpl cond_Zopp; lia].
  clear H5. pose proof (pow2_pos E HE) as HpE.
  destruct (Z.le_gt_cases E e) as [HEe|HEe].
  - rewrite (pow2_split E e) in Hle |- * by lia.
    rewrite Z.mul_assoc. apply Z.mul_le_mono_nonneg_r; [lia|].
    apply (half_ulp_ge _ _ (2 ^ E * Y) X); [nia|lia|done].
  - destruct H3 as [->|H3]; [lia|].
    pose proof (mantissa_below m e E Hm ltac:(lia)) as Hb.
    apply (Z.mul_lt_mono_pos_r Y) in Hb; lia.
Qed.

(** A representable exact value is not rounded. *)
Lemma rounded_exact (m e : Z) :
  0 <= m < 2 ^ 53 -> 0 <= e -> X = m * 2 ^ e * Y ->
  m * 2 ^ e < 2 ^ 2098 -> f64_val f = m * 2 ^ e /\ f64_finite f = true.
Proof.
  intros Hm He HX Hmax.
  pose proof (rounded_ge m e Hm He ltac:(lia) ltac:(lia)).
  pose proof (rounded_le m e Hm He ltac:(lia)).
  split; [lia|].
  destruct Hr as (_ & _ & E & r & _ & _ & _ & _ & _ & _ & [[Hf _]|[-> _]]); [done|].
  simpl in *. lia.
Qed.
End Rounded.

(** Scaling both sides of the fraction does not change its rounding. *)
Lemma rounded_scale (X Y c : Z) (f : float64) :
  0 < c -> rounded X Y f <-> rounded (X * c) (Y * c) f.
Proof.
  intros Hc. unfold rounded.
  split; (intros (Hok & HX & E & r & HE & Hr & H1 & H2 & H3 & H4 & H5);
    split; [done|]; split; [clear -Hc HX; nia|]; exists E, r;
    split; [done|]; split; [done|]; set (S := 2 ^ E) in *;
    rewrite !(Z.mul_assoc S Y c) in *; set (SY := S * Y) in *; clearbody SY;
    split; [clear -Hc H1; nia|]; split; [clear -Hc H2; nia|];
    split; [destruct H3 as [->|H3]; [by left|right; clear -Hc H3; nia]|];
    split; [clear -Hc H4; nia|done]).
Qed.

(** ** Valid finite floats *)

Lemma f64_valid_finite (s : bool) (m : positive) (e : Z) :
  f64_valid (S754_finite s m e) = true ->
  -1074 <= e <= 971 /\ Z.pos m < 2 ^ 53 /\ (e = -1074 \/ 2 ^ 52 <= Z.pos m).
Proof.
  unfold f64_valid, valid_binary, bounded, canonical_mantissa.
  change (Z.pos (digits2_pos m)) with (Zdigits2 (Z.pos m)).
  rewrite f64_fexp_eq. intros H. bool_to_prop.
  pose proof (Zdigits2_bounds (Z.pos m) ltac:(lia)) as [Hlo Hhi].
  pose proof (Zdigits2_nonneg (Z.pos m) ltac:(lia)).
  split; [lia|]. split.
  - eapply Z.lt_le_trans; [done|]. apply pow2_le. lia.
  - destruct (Z.eq_dec e (-1074)); [by left|right].
    replace (Zdigits2 (Z.pos m) - 1) with 52 in Hlo by lia. done.
Qed.

Lemma f64_val_nonneg (x : float64) : f64_nonneg x = true -> 0 <= f64_val x.
Proof.
  destruct x as [s|s| |s m e]; simpl; try done; destruct s; try done; intros _.
  simpl. pose proof (Z.pow_nonneg 2 (e + 1074) ltac:(lia)). nia.
Qed.

Lemma rounded_zero (Y : Z) (s : bool) : 0 < Y -> rounded 0 Y (S754_zero s).
Proof.
  intros HY. split; [done|]. split; [done|]. exists 0, 0.
  change (2 ^ 0) with 1. repeat split; try lia. by left.
Qed.

(** A float is its own rounding. *)
Lemma rounded_self (x : float64) :
  f64_pos_ok x -> f64_finite x = true -> rounded (f64_val x) 1 x.
Proof.
  intros Hok Hf. destruct x as [s|s| |s m e]; try done; [by apply rounded_zero|].
  destruct Hok as [Hv Hn]. destruct s; [done|].
  pose proof (f64_valid_finite _ _ _ Hv) as (He & Hm & Hc).
  pose proof (pow2_pos (e + 1074) ltac:(lia)).
  split; [done|]. split; [by apply f64_val_nonneg|].
  exists (e + 1074), (Z.pos m). unfold f64_val, cond_Zopp. rewrite Z.mul_1_r.
  split; [lia|]. split; [lia|]. split; [nia|]. split; [nia|].
  split; [destruct Hc; [left; lia|right; nia]|]. split; [nia|by left].
Qed.

Lemma pos_iter_xO (m d : positive) : Z.pos (Pos.iter xO m d) = Z.pos m * 2 ^ Z.pos d.
Proof.
  induction d as [|d IH] using Pos.peano_ind; [simpl; lia|].
  rewrite Pos.iter_succ, Pos2Z.inj_succ, Z.pow_succ_r by lia.
  rewrite Pos2Z.inj_xO, IH. lia.
Qed.

Lemma shl_align_val (m : positive) (e e' : Z) :
  e' <= e -> Z.pos (fst (shl_align m e e')) = Z.pos m * 2 ^ (e - e') /\
             snd (shl_align m e e') = e'.
Proof.
  intros H. unfold shl_align. destruct (e' - e) as [|p|p] eqn:Ed; [| lia |].
  - replace (e - e') with 0 by lia. simpl. lia.
  - simpl fst. rewrite pos_iter_xO. split; [do 2 f_equal; lia|done].
Qed.

Lemma Zdigits2_shift (m : Z) (d : Z) :
  0 < m -> 0 <= d -> Zdigits2 (m * 2 ^ d) = Zdigits2 m + d.
Proof.
  intros Hm Hd. pose proof (Zdigits2_bounds m Hm) as [H1 H2].
  pose proof (pow2_pos d Hd). pose proof (Zdigits2_ge m 0 ltac:(lia) ltac:(lia)).
  apply Zdigits2_unique; [|nia].
  replace (Zdigits2 m + d - 1) with (Zdigits2 m - 1 + d) by lia.
  rewrite !pow2_add by lia. split; nia.
Qed.

(** [binary_round] rounds the exact value [m * 2 ^ e]. *)
Lemma binary_round_rounded (m : positive) (e : Z) :
  -1074 <= e ->
  rounded (Z.pos m * 2 ^ (e + 1074)) 1 (binary_round 53 1024 false m e).
Proof.
  intros He. unfold binary_round.
  change (Z.pos (digits2_pos m)) with (Zdigits2 (Z.pos m)).
  set (e' := f64_fexp (Zdigits2 (Z.pos m) + e)).
  assert (He' : -1074 <= e') by (subst e'; rewrite f64_fexp_eq; lia).
  destruct (shl_align m e e') as [mz ez] eqn:Es.
  assert (-1074 <= ez /\ ez <= f64_fexp (Zdigits2 (Z.pos mz) + ez) /\
          Z.pos mz * 2 ^ (ez + 1074) = Z.pos m * 2 ^ (e + 1074)) as (Hz & Hf & Hv).
  { destruct (Z.le_gt_cases e' e) as [Hle|Hgt].
    - pose proof (shl_align_val m e e' Hle) as [Hm Hez]. rewrite Es in Hm, Hez.
      simpl in Hm, Hez. rewrite Hm, Hez, Zdigits2_shift by lia.
      split; [done|]. split.
      + replace (Zdigits2 (Z.pos m) + (e - e') + e') with (Zdigits2 (Z.pos m) + e)
          by lia. done.
      + rewrite <- Z.mul_assoc, <- pow2_add by lia. do 2 f_equal. lia.
    - revert Es. unfold shl_align. destruct (e' - e) eqn:Ed; [lia| |lia].
      intros [= <- <-]. split; [lia|]. split; [subst e'; lia|done]. }
  pose proof (binary_round_aux_rounded (Z.pos mz) ez loc_Exact (Z.pos mz) 1
                ltac:(lia) ltac:(lia) ltac:(simpl; lia) Hf) as Hr.
  rewrite (Z.max_r 0 (ez + 1074)), (Z.max_l 0 (- _)), Hv in Hr by lia. done.
Qed.

Lemma binary_normalize_rounded (m e : Z) (s : bool) :
  -1074 <= e -> 0 <= m ->
  rounded (m * 2 ^ (e + 1074)) 1 (binary_normalize 53 1024 m e s).
Proof.
  intros He Hm. destruct m as [|m|m]; [by apply rounded_zero| |lia].
  by apply binary_round_rounded.
Qed.

(** ** The operations round their exact results *)

Lemma f64_of_Z_rounded (z : Z) : 0 <= z -> rounded (z * f64_unit) 1 (f64_of_Z z).
Proof. apply binary_normalize_rounded. lia. Qed.

(** Decomposition of a finite non-negative float. *)
Lemma f64_pos_finite (x : float64) :
  f64_pos_ok x -> f64_finite x = true ->
  (exists s, x = S754_zero s) \/
  (exists m e, x = S754_finite false m e /\ -1074 <= e <= 971 /\
     Z.pos m < 2 ^ 53 /\ (e = -1074 \/ 2 ^ 52 <= Z.pos m)).
Proof.
  intros [Hv Hn] Hf. destruct x as [s|s| |s m e]; try done; [left; eauto|].
  destruct s; [done|]. right. exists m, e.
  split; [done|]. by apply (f64_valid_finite false).
Qed.

Lemma aligned_val (m : positive) (e ez : Z) :
  -1074 <= ez <= e ->
  Z.pos (fst (shl_align m e ez)) * 2 ^ (ez + 1074) = Z.pos m * 2 ^ (e + 1074).
Proof.
  intros H. destruct (shl_align_val m e ez) as [-> _]; [lia|].
  rewrite <- Z.mul_assoc, <- pow2_add by lia. do 2 f_equal. lia.
Qed.

Lemma f64_add_rounded (x y : float64) :
  f64_pos_ok x -> f64_finite x = true -> f64_pos_ok y -> f64_finite y = true ->
  rounded (f64_val x + f64_val y) 1 (f64_add x y).
Proof.
  intros Hx Hfx Hy Hfy.
  destruct (f64_pos_finite x Hx Hfx) as [[sx ->]|(mx & ex & -> & He & Hm & _)];
  destruct (f64_pos_finite y Hy Hfy) as [[sy ->]|(my & ey & -> & He' & Hm' & _)].
  - destruct sx, sy; by apply rounded_zero.
  - by apply rounded_self.
  - simpl f64_val. rewrite Z.add_0_r. by apply rounded_self.
  - unfold f64_add, SFadd, f64_val, cond_Zopp.
    rewrite <- (aligned_val mx ex (Z.min ex ey)),
            <- (aligned_val my ey (Z.min ex ey)) by lia.
    rewrite <- Z.mul_add_distr_r. apply binary_normalize_rounded; lia.
Qed.

Lemma f64_sub_rounded (x y : float64) :
  f64_pos_ok x -> f64_finite x = true -> f64_pos_ok y -> f64_finite y = true ->
  f64_val y <= f64_val x ->
  rounded (f64_val x - f64_val y) 1 (f64_sub x y).
Proof.
  intros Hx Hfx Hy Hfy Hle.
  destruct (f64_pos_finite x Hx Hfx) as [[sx ->]|(mx & ex & -> & He & Hm & _)];
  destruct (f64_pos_finite y Hy Hfy) as [[sy ->]|(my & ey & -> & He' & Hm' & _)].
  - destruct sx, sy; by apply rounded_zero.
  - simpl in Hle. pose proof (pow2_pos (ey + 1074)). nia.
  - simpl f64_val. rewrite Z.sub_0_r. by apply rounded_self.
  - unfold f64_sub, SFsub, f64_val, cond_Zopp in *.
    rewrite <- (aligned_val mx ex (Z.min ex ey)),
            <- (aligned_val my ey (Z.min ex ey)) in * by lia.
    rewrite <- Z.mul_sub_distr_r. apply binary_normalize_rounded; [lia|].
    pose proof (pow2_pos (Z.min ex ey + 1074)). nia.
Qed.

(** Equal fractions have the same rounding. *)
Lemma rounded_frac (X Y X' Y' : Z) (f : float64) :
  0 < Y -> 0 < Y' -> X * Y' = X' * Y -> rounded X Y f -> rounded X' Y' f.
Proof.
  intros HY HY' E H. apply (rounded_scale X' Y' Y f HY).
  rewrite <- E, (Z.mul_comm Y' Y). by apply (rounded_scale X Y Y' f HY').
Qed.

Lemma f64_unit_pos : 0 < f64_unit.
Proof. apply pow2_pos. lia. Qed.
#[export] Hint Resolve f64_unit_pos : gateway.

Lemma mantissa_product (m1 m2 e1 e2 : Z) :
  0 < m1 -> 0 < m2 ->
  (e1 = -1074 \/ 2 ^ 52 <= m1) -> (e2 = -1074 \/ 2 ^ 52 <= m2) ->
  e1 + e2 <= f64_fexp (Zdigits2 (m1 * m2) + (e1 + e2)).
Proof.
  intros H1 H2 C1 C2. rewrite f64_fexp_eq.
  destruct (Z.lt_ge_cases (m1 * m2) (2 ^ 52)).
  - destruct C1 as [->|]; [|nia]. destruct C2 as [->|]; [lia|nia].
  - pose proof (Zdigits2_ge (m1 * m2) 52). lia.
Qed.

Lemma f64_mul_rounded (x y : float64) :
  f64_pos_ok x -> f64_finite x = true -> f64_pos_ok y -> f64_finite y = true ->
  rounded (f64_val x * f64_val y) f64_unit (f64_mul x y).
Proof.
  intros Hx Hfx Hy Hfy. pose proof f64_unit_pos.
  destruct (f64_pos_finite x Hx Hfx) as [[sx ->]|(mx & ex & -> & He & Hm & Hc)];
  destruct (f64_pos_finite y Hy Hfy) as [[sy ->]|(my & ey & -> & He' & Hm' & Hc')];
  try (simpl f64_val; rewrite ?Z.mul_0_r; by apply rounded_zero).
  unfold f64_mul, SFmul, f64_val, cond_Zopp, xorb.
  eapply rounded_frac; [| |
    |apply (binary_round_aux_rounded _ _ loc_Exact (Z.pos mx * Z.pos my) 1)];
    [|done| |lia|lia|simpl; lia|].
  - rewrite Z.mul_1_l. apply pow2_pos. lia.
  - rewrite Z.mul_1_l. unfold f64_unit.
    transitivity (Z.pos mx * Z.pos my *
                  2 ^ (ex + 1074 + (ey + 1074) + Z.max 0 (- (ex + ey + 1074)))).
    + rewrite <- Z.mul_assoc, <- pow2_add by lia. do 2 f_equal. lia.
    + rewrite !pow2_add by lia. ring.
  - rewrite Pos2Z.inj_mul. apply mantissa_product; done.
Qed.

Lemma new_location_between (q r D : Z) :
  0 <= r < D -> 1 < D -> between (q * D + r) D q (new_location D r).
Proof.
  intros Hr HD. unfold new_location, new_location_even, new_location_odd.
  destruct (Z.even D) eqn:Ev; destruct (r =? 0) eqn:E0; bool_to_prop;
    simpl; try lia.
  - destruct (Z.compare_spec (2 * r) D); simpl; lia.
  - assert (Z.odd D = true) as [k Hk]%Z.odd_spec by (by rewrite <- Z.negb_even, Ev).
    destruct (Z.compare_spec (2 * r + 1) D); simpl; lia.
Qed.

(** Division by a mantissa that is not 1 (the only one the code divides by
    is the one of [1e9] and, in the Lua scripts, of the refill rate). *)
Lemma new_location_one (q : Z) : between (q * 1 + 0) 1 q (new_location 1 0).
Proof. simpl. lia. Qed.

Lemma quotient_digits (m1 m2 s q e' t : Z) :
  0 < m1 -> 0 < m2 -> 0 <= s -> 0 <= q -> m1 * 2 ^ s < (q + 1) * m2 ->
  t = Zdigits2 m1 + s - Zdigits2 m2 + e' ->
  e' <= f64_fexp t -> e' <= f64_fexp (Zdigits2 q + e').
Proof.
  intros H1 H2 Hs Hq Hlt -> He. rewrite f64_fexp_eq in *.
  pose proof (Zdigits2_bounds m1 H1) as [Hlo1 _].
  pose proof (Zdigits2_bounds m2 H2) as [_ Hhi2].
  pose proof (Zdigits2_ge m1 0 ltac:(lia) ltac:(lia)).
  pose proof (Zdigits2_ge m2 0 ltac:(lia) ltac:(lia)).
  assert (Zdigits2 m1 + s - Zdigits2 m2 <= Zdigits2 q); [|lia].
  destruct (Z.le_gt_cases (Zdigits2 m1 + s - Zdigits2 m2) 0) as [|Hpos].
  { pose proof (Zdigits2_nonneg q Hq). lia. }
  set (a := Zdigits2 m1 + s - Zdigits2 m2 - 1) in *.
  assert (2 ^ a <= q); [|pose proof (Zdigits2_ge q a ltac:(lia)); lia].
  assert (2 ^ a * 2 ^ Zdigits2 m2 <= m1 * 2 ^ s).
  { rewrite <- pow2_add by lia.
    replace (a + Zdigits2 m2) with (Zdigits2 m1 - 1 + s) by lia.
    rewrite pow2_add by lia. pose proof (pow2_pos s Hs). nia. }
  assert (2 ^ a * m2 < (q + 1) * m2); [|nia].
  pose proof (pow2_pos a ltac:(lia)). nia.
Qed.

Lemma f64_div_rounded (x y : float64) :
  f64_pos_ok x -> f64_finite x = true -> f64_pos_ok y -> f64_finite y = true ->
  0 < f64_val y ->
  rounded (f64_val x * f64_unit) (f64_val y) (f64_div x y).
Proof.
  intros Hx Hfx Hy Hfy Hpos. pose proof f64_unit_pos.
  destruct (f64_pos_finite y Hy Hfy) as [[sy ->]|(my & ey & -> & He' & Hm' & _)];
    [simpl in Hpos; lia|].
  destruct (f64_pos_finite x Hx Hfx) as [[sx ->]|(mx & ex & -> & He & Hm & _)];
    [by apply rounded_zero|].
  unfold f64_div, SFdiv, SFdiv_core_binary, xorb.
  set (t := Zdigits2 (Z.pos mx) + ex - (Zdigits2 (Z.pos my) + ey)).
  set (e' := Z.min (f64_fexp t) (ex - ey)). set (s := ex - ey - e').
  assert (Es : s = ex - ey - e') by done.
  assert (Hs : 0 <= s) by lia. assert (Ht : e' <= f64_fexp t) by lia.
  assert (Et : t = Zdigits2 (Z.pos mx) + s - Zdigits2 (Z.pos my) + e') by lia.
  clearbody s e' t.
  replace (match s with Z0 => Z.pos mx | Z.pos _ => Z.shiftl (Z.pos mx) s
           | Z.neg _ => 0 end) with (Z.pos mx * 2 ^ s)
    by (destruct s; [lia|by rewrite Z.shiftl_mul_pow2|lia]).
  pose proof (Z_div_mod (Z.pos mx * 2 ^ s) (Z.pos my) ltac:(lia)) as Hd.
  destruct (Z.div_eucl (Z.pos mx * 2 ^ s) (Z.pos my)) as [q r].
  destruct Hd as [Hd Hr]. pose proof (pow2_pos s Hs).
  assert (Hq : 0 <= q) by nia.
  eapply rounded_frac; [| |
    |apply (binary_round_aux_rounded q e' _ (Z.pos mx * 2 ^ s) (Z.pos my))];
    [|done| |lia|lia| |].
  - apply Z.mul_pos_pos; [lia|]. apply pow2_pos. lia.
  - unfold f64_val, cond_Zopp, f64_unit.
    transitivity (Z.pos mx * Z.pos my *
                  2 ^ (s + Z.max 0 (e' + 1074) + (ey + 1074))).
    + rewrite (pow2_add (s + _)), (pow2_add s) by lia. ring.
    + replace (s + Z.max 0 (e' + 1074) + (ey + 1074))
        with (ex + 1074 + 1074 + Z.max 0 (- (e' + 1074))) by lia.
      rewrite (pow2_add (ex + 1074 + 1074)), (pow2_add (ex + 1074)) by lia. ring.
  - rewrite Hd, (Z.mul_comm _ q).
    destruct (Z.eq_dec (Z.pos my) 1) as [E1|]; [|apply new_location_between; lia].
    rewrite E1 in *. replace r with 0 by lia. apply new_location_one.
  - apply (quotient_digits (Z.pos mx) (Z.pos my) s q e' t); lia.
Qed.
