(* ===== verification/Float64Facts.v ===== *)
(** * Facts about binary64 that the limiters rely on

    Comparisons agree with the order of the values, integers up to
    [2 ^ 53] convert exactly, subtracting an integer from a larger float is
    exact, truncation is the integral part, and every rounding step of the
    limiter's arithmetic ([dur_seconds], a product, a sum) is within a few
    parts in [2 ^ 53] of the exact result. *)
From S2P Require Import Prelude GoTime Float64.
From Stdlib Require Import SpecFloat.

(** ** Comparisons *)

Lemma finite_value_max (m e : Z) :
  0 <= m < 2 ^ 53 -> -1074 <= e <= 971 -> m * 2 ^ (e + 1074) < 2 ^ 2098.
Proof.
  intros Hm He. replace 2098 with (53 + 2045) by done.
  rewrite (pow2_add 53) by lia.
  pose proof (pow2_le (e + 1074) 2045 ltac:(lia)).
  pose proof (pow2_pos (e + 1074) ltac:(lia)) as Hp.
  apply Z.lt_le_trans with (2 ^ 53 * 2 ^ (e + 1074)).
  - apply Z.mul_lt_mono_pos_r; [done|lia].
  - apply Z.mul_le_mono_nonneg_l; [lia|done].
Qed.

Lemma f64_val_finite_lt (x : float64) :
  f64_pos_ok x -> f64_finite x = true -> f64_val x < 2 ^ 2098.
Proof.
  intros Hx Hf.
  destruct (f64_pos_finite x Hx Hf) as [[s ->]|(m & e & -> & He & Hm & _)];
    [done|]. apply finite_value_max; lia.
Qed.

Lemma finite_compare (m1 m2 e1 e2 : Z) :
  -1074 <= e1 -> 0 <= m1 < 2 ^ 53 -> e1 < e2 -> 2 ^ 52 <= m2 ->
  m1 * 2 ^ (e1 + 1074) < m2 * 2 ^ (e2 + 1074).
Proof.
  intros He Hm Hlt Hm2.
  pose proof (mantissa_below m1 (e1 + 1074) (e2 + 1074) Hm ltac:(lia)).
  pose proof (pow2_pos (e2 + 1074) ltac:(lia)).
  apply Z.lt_le_trans with (2 ^ 52 * 2 ^ (e2 + 1074)); [done|].
  by apply Z.mul_le_mono_nonneg_r; [lia|].
Qed.

Lemma f64_inf_or_finite (x : float64) :
  f64_pos_ok x -> x = S754_infinity false \/ f64_finite x = true.
Proof.
  intros [_ Hn]. destruct x as [s|s| |s m e];
    [by right| |discriminate|by right].
  destruct s; [discriminate|by left].
Qed.

(** The comparison of two floats that are not negative is the comparison of
    their values. *)
Lemma f64_compare_spec (x y : float64) :
  f64_pos_ok x -> f64_pos_ok y ->
  SFcompare x y = Some (f64_val x ?= f64_val y).
Proof.
  intros Hx Hy.
  assert (Hinf : f64_val (S754_infinity false) = 2 ^ 2098) by done.
  pose proof f64_inf_or_finite as Hcase.
  destruct (Hcase x Hx) as [->|Hfx]; destruct (Hcase y Hy) as [->|Hfy].
  - rewrite Z.compare_refl. done.
  - pose proof (f64_val_finite_lt y Hy Hfy) as Hlt. rewrite Hinf.
    rewrite (proj2 (Z.compare_gt_iff _ _) Hlt). by destruct y.
  - pose proof (f64_val_finite_lt x Hx Hfx) as Hlt. rewrite Hinf.
    rewrite (proj2 (Z.compare_lt_iff _ _) Hlt). by destruct x.
  - destruct (f64_pos_finite x Hx Hfx) as [[sx ->]|(mx & ex & -> & He & Hm & Hc)];
    destruct (f64_pos_finite y Hy Hfy) as [[sy ->]|(my & ey & -> & He' & Hm' & Hc')];
    unfold SFcompare, f64_val, cond_Zopp.
    + done.
    + pose proof (pow2_pos (ey + 1074) ltac:(lia)).
      by rewrite (proj2 (Z.compare_lt_iff _ _)) by lia.
    + pose proof (pow2_pos (ex + 1074) ltac:(lia)).
      by rewrite (proj2 (Z.compare_gt_iff _ _)) by lia.
    + destruct (Z.compare_spec ex ey) as [->|Hlt|Hlt].
      * pose proof (pow2_pos (ey + 1074) ltac:(lia)).
        by rewrite <- (Zmult_compare_compat_r _ _ (2 ^ (ey + 1074))) by lia.
      * rewrite (proj2 (Z.compare_lt_iff _ _)); [done|].
        apply finite_compare; try lia.
      * rewrite (proj2 (Z.compare_gt_iff _ _)); [done|].
        apply finite_compare; try lia.
Qed.

Lemma f64_leb_spec (x y : float64) :
  f64_pos_ok x -> f64_pos_ok y -> f64_leb x y = (f64_val x <=? f64_val y).
Proof.
  intros Hx Hy. unfold f64_leb, SFleb. rewrite f64_compare_spec by done.
  unfold Z.leb. by destruct (_ ?= _).
Qed.

Lemma f64_ltb_spec (x y : float64) :
  f64_pos_ok x -> f64_pos_ok y -> f64_ltb x y = (f64_val x <? f64_val y).
Proof.
  intros Hx Hy. unfold f64_ltb, SFltb. rewrite f64_compare_spec by done.
  unfold Z.ltb. by destruct (_ ?= _).
Qed.

(** ** Conversions *)

(** An integer below [2 ^ 53] is a mantissa; [2 ^ 53] itself is
    [2 ^ 52 * 2]. *)
Lemma integer_as_float (z : Z) :
  0 <= z <= 2 ^ 53 ->
  exists m e, 0 <= m < 2 ^ 53 /\ 0 <= e <= 1 /\ z = m * 2 ^ e.
Proof.
  intros Hz. destruct (Z.eq_dec z (2 ^ 53)) as [->|].
  - exists (2 ^ 52), 1. lia.
  - exists z, 0. lia.
Qed.

Lemma unit_scaled (m e : Z) : 0 <= e -> m * 2 ^ e * f64_unit = m * 2 ^ (e + 1074).
Proof. intros. unfold f64_unit. rewrite <- Z.mul_assoc, <- pow2_add by lia. done. Qed.

Lemma f64_of_Z_ok (z : Z) : 0 <= z -> f64_pos_ok (f64_of_Z z).
Proof. intros H. by apply (f64_of_Z_rounded z). Qed.

Lemma f64_of_Z_exact (z : Z) :
  0 <= z <= 2 ^ 53 ->
  f64_val (f64_of_Z z) = z * f64_unit /\ f64_finite (f64_of_Z z) = true.
Proof.
  intros Hz. destruct (integer_as_float z Hz) as (m & e & Hm & He & Ez).
  pose proof (f64_of_Z_rounded z ltac:(lia)) as Hr.
  rewrite Ez, unit_scaled, <- Ez in Hr |- * by lia.
  apply (rounded_exact _ 1 _ ltac:(lia) Hr m (e + 1074)); [lia..|].
  apply finite_value_max; lia.
Qed.

(** The integral part. *)
Lemma f64_trunc_spec (x : float64) :
  f64_pos_ok x -> f64_finite x = true ->
  f64_trunc x = Some (f64_val x / f64_unit).
Proof.
  intros Hx Hf. pose proof f64_unit_pos.
  destruct (f64_pos_finite x Hx Hf) as [[s ->]|(m & e & -> & He & _)];
    [done|].
  unfold f64_trunc, f64_val, cond_Zopp. f_equal.
  destruct (0 <=? e) eqn:Ee; bool_to_prop.
  - rewrite <- unit_scaled by done. rewrite Z.div_mul by lia. done.
  - assert (Hu : f64_unit = 2 ^ (- e) * 2 ^ (e + 1074))
      by (rewrite <- pow2_add by lia; unfold f64_unit; f_equal; lia).
    rewrite Hu. rewrite Z.div_mul_cancel_r; [done| |];
      apply Z.neq_sym, Z.lt_neq, pow2_pos; lia.
Qed.

(** ** Exact subtraction of an integer *)

(** The value of a finite float up to [2 ^ 53] is a multiple of a power of
    two not above 1. *)
Lemma small_float_granule (x : float64) :
  f64_pos_ok x -> f64_finite x = true -> f64_val x <= 2 ^ 53 * f64_unit ->
  exists m e, 0 <= e <= 1074 /\ 0 <= m <= 2 ^ 53 /\ f64_val x = m * 2 ^ e.
Proof.
  intros Hx Hf Hle.
  destruct (f64_pos_finite x Hx Hf) as [[s ->]|(m & e & -> & He & Hm & Hc)].
  { exists 0, 0. done. }
  unfold f64_val, cond_Zopp in *.
  destruct (Z.le_gt_cases e 0) as [Hle0|Hgt].
  { exists (Z.pos m), (e + 1074). lia. }
  destruct Hc as [->|Hc]; [lia|].
  exists (2 ^ 53), 1074. split; [lia|]. split; [lia|]. fold f64_unit.
  apply Z.le_antisymm; [done|].
  replace (e + 1074) with (e + 1074) by lia.
  rewrite (pow2_add e) by lia. fold f64_unit.
  pose proof (pow2_le 1 e ltac:(lia)). pose proof f64_unit_pos.
  rewrite Z.mul_assoc. apply Z.mul_le_mono_nonneg_r; [lia|].
  change (2 ^ 53) with (2 ^ 52 * 2). nia.
Qed.

Lemma f64_sub_int_exact (x : float64) (n : Z) :
  f64_pos_ok x -> f64_finite x = true -> f64_val x <= 2 ^ 53 * f64_unit ->
  1 <= n -> n * f64_unit <= f64_val x ->
  let y := f64_sub x (f64_of_Z n) in
  f64_val y = f64_val x - n * f64_unit /\ f64_finite y = true /\ f64_pos_ok y.
Proof.
  intros Hx Hf Hmax Hn Hle y. subst y. pose proof f64_unit_pos as Hu.
  assert (Hn53 : n <= 2 ^ 53) by (apply (Z.mul_le_mono_pos_r _ _ f64_unit); lia).
  destruct (f64_of_Z_exact n ltac:(lia)) as [Hv Hfin].
  pose proof (f64_sub_rounded x (f64_of_Z n) Hx Hf
    (f64_of_Z_ok n ltac:(lia)) Hfin ltac:(lia)) as Hr. rewrite Hv in Hr.
  destruct (small_float_granule x Hx Hf Hmax) as (m & e & He & Hm & Ex).
  assert (Eu : f64_unit = 2 ^ (1074 - e) * 2 ^ e) by (apply pow2_split; lia).
  assert (Ed : f64_val x - n * f64_unit = (m - n * 2 ^ (1074 - e)) * 2 ^ e)
    by (rewrite Ex, Eu; ring).
  pose proof (pow2_pos e ltac:(lia)) as Hpe.
  pose proof (pow2_pos (1074 - e) ltac:(lia)) as Hpd.
  assert (0 <= m - n * 2 ^ (1074 - e)).
  { apply (Z.mul_le_mono_pos_r _ _ (2 ^ e)); [done|]. rewrite <- Ed. lia. }
  destruct (rounded_exact _ 1 _ ltac:(lia) Hr
    (m - n * 2 ^ (1074 - e)) e) as [Hval Hfy]; [nia|lia|lia| |].
  - rewrite <- Ed. pose proof (f64_val_finite_lt x Hx Hf). lia.
  - rewrite <- Ed in Hval. split; [done|]. split; [done|]. apply Hr.
Qed.

(** ** Error of one operation *)

Lemma f64_finite_of_lt (x : float64) :
  f64_pos_ok x -> f64_val x < 2 ^ 2098 -> f64_finite x = true.
Proof.
  intros Hx Hlt. destruct (f64_inf_or_finite x Hx) as [->|]; [|done].
  simpl in Hlt. lia.
Qed.

(** Sums are multiples of the smallest float, so their error is purely
    relative: at most one part in [2 ^ 53]. *)
Lemma rounded_upper_int (X : Z) (f : float64) :
  rounded X 1 f -> 2 ^ 53 * f64_val f <= (2 ^ 53 + 1) * X.
Proof.
  intros (_ & HX & E & r & HE & Hr & H1 & H2 & H3 & H4 & H5).
  rewrite !Z.mul_1_r in *. pose proof (pow2_pos E HE).
  assert (Hv : f64_val f <= r * 2 ^ E)
    by (destruct H5 as [[_ ->]|[-> ?]]; [lia|done]).
  destruct H3 as [->|H3]; [change (2 ^ 0) with 1 in *; lia|lia].
Qed.

Lemma rounded_lower_int (X : Z) (f : float64) :
  rounded X 1 f -> f64_finite f = true ->
  (2 ^ 53 - 1) * X <= 2 ^ 53 * f64_val f.
Proof.
  intros (_ & HX & E & r & HE & Hr & H1 & H2 & H3 & H4 & H5) Hf.
  rewrite !Z.mul_1_r in *. pose proof (pow2_pos E HE).
  destruct H5 as [[_ ->]|[-> _]]; [|done].
  destruct H3 as [->|H3]; [change (2 ^ 0) with 1 in *; lia|lia].
Qed.

(** A sum that overflows exceeds every float, and adding an infinity gives
    it back. *)
Lemma f64_add_inf (x y : float64) :
  f64_pos_ok x -> f64_pos_ok y ->
  f64_finite x = false \/ f64_finite y = false ->
  f64_add x y = S754_infinity false.
Proof.
  intros Hx Hy H.
  destruct (f64_inf_or_finite x Hx) as [->|Hfx];
  destruct (f64_inf_or_finite y Hy) as [->|Hfy].
  - done.
  - destruct y; done.
  - destruct x; done.
  - destruct H; congruence.
Qed.

(** ** [Duration.Seconds] *)

Lemma f64_of_Z_Second :
  f64_val (f64_of_Z Second) = Second * f64_unit /\
  f64_finite (f64_of_Z Second) = true.
Proof. apply f64_of_Z_exact. unfold Second. lia. Qed.

Section Seconds.
Context (d : Z) (Hd : 0 <= d <= max_int64).

(** The fractional part of a second, [float64(nsec) / 1e9]. *)
Let h := f64_div (f64_of_Z (Z.rem d Second)) (f64_of_Z Second).

Lemma seconds_rem : Z.rem d Second = d mod Second /\ 0 <= d mod Second < Second.
Proof.
  split; [apply Z.rem_mod_nonneg; [lia|done]|]. by apply Z.mod_pos_bound.
Qed.

Lemma seconds_frac_rounded : rounded (d mod Second * f64_unit) Second h.
Proof.
  pose proof f64_unit_pos. destruct seconds_rem as [E Hr].
  destruct f64_of_Z_Second as [Hs Hsf].
  destruct (f64_of_Z_exact (d mod Second)) as [Hv Hf]; [unfold Second in *; lia|].
  unfold h. rewrite E.
  pose proof (f64_div_rounded (f64_of_Z (d mod Second)) (f64_of_Z Second)
    (f64_of_Z_ok (d mod Second) ltac:(lia)) Hf
    (f64_of_Z_ok Second ltac:(done)) Hsf
    ltac:(rewrite Hs; unfold Second; lia)) as H1.
  rewrite Hv, Hs in H1. revert H1.
  apply rounded_frac; [unfold Second; lia|done|ring].
Qed.

Lemma seconds_frac_bounds :
  f64_pos_ok h /\ f64_finite h = true /\ f64_val h <= f64_unit /\
  2 ^ 53 * (f64_val h * Second) <= (2 ^ 53 + 2) * (d mod Second * f64_unit) /\
  (2 ^ 53 - 2) * (d mod Second * f64_unit) <= 2 ^ 53 * (f64_val h * Second).
Proof.
  pose proof seconds_frac_rounded as Hr. destruct seconds_rem as [_ Hm].
  pose proof f64_unit_pos as Hu. assert (HS : 0 < Second) by done.
  assert (Hok : f64_pos_ok h) by apply Hr.
  pose proof (rounded_le _ _ _ HS Hr 1 1074 ltac:(lia) ltac:(lia)) as Hle.
  rewrite Z.mul_1_l in Hle. fold f64_unit in Hle.
  specialize (Hle ltac:(nia)).
  assert (Hlt : f64_unit < 2 ^ 2098) by (apply Z.pow_lt_mono_r; lia).
  assert (Hf : f64_finite h = true) by (apply f64_finite_of_lt; [done|lia]).
  split; [done|]. split; [done|]. split; [done|].
  destruct (Z.eq_dec (d mod Second) 0) as [E0|Hne].
  - rewrite E0 in *. pose proof (f64_val_nonneg h (proj2 Hok)).
    pose proof (rounded_le _ _ _ HS Hr 0 0 ltac:(lia) ltac:(lia) ltac:(lia)). lia.
  - pose proof (rounded_upper _ _ _ HS Hr). pose proof (rounded_lower _ _ _ HS Hr Hf).
    assert (2 ^ 52 * Second <= f64_unit).
    { transitivity (2 ^ 82); [unfold Second; lia|].
      unfold f64_unit. apply pow2_le. lia. }
    assert (f64_unit <= d mod Second * f64_unit) by nia. lia.
Qed.

Lemma dur_seconds_sum :
  rounded (d / Second * f64_unit + f64_val h) 1 (dur_seconds d).
Proof.
  destruct seconds_frac_bounds as (Hok & Hf & _).
  assert (Eq : Z.quot d Second = d / Second)
    by (apply Z.quot_div_nonneg; [lia|done]).
  assert (0 <= d / Second <= 2 ^ 53).
  { split; [apply Z.div_pos; [lia|done]|].
    transitivity (max_int64 / Second); [apply Z.div_le_mono; [done|lia]|].
    by vm_compute. }
  destruct (f64_of_Z_exact (d / Second)) as [Hv Hfq]; [done|].
  unfold dur_seconds. fold h. rewrite Eq, <- Hv.
  apply f64_add_rounded; try done. apply f64_of_Z_ok. lia.
Qed.

(** The seconds of a non-negative duration, within one part in [2 ^ 50]. *)
Lemma dur_seconds_bounds :
  f64_pos_ok (dur_seconds d) /\ f64_finite (dur_seconds d) = true /\
  2 ^ 50 * (f64_val (dur_seconds d) * Second) <= (2 ^ 50 + 1) * (d * f64_unit) /\
  (2 ^ 50 - 1) * (d * f64_unit) <= 2 ^ 50 * (f64_val (dur_seconds d) * Second).
Proof.
  pose proof dur_seconds_sum as Hr. assert (Hok := proj1 Hr).
  destruct seconds_frac_bounds as (_ & _ & Hh1 & Hup & Hlo).
  destruct seconds_rem as [_ Hm]. pose proof f64_unit_pos as Hu.
  pose proof (Z.div_mod d Second ltac:(done)) as Ed.
  set (q := d / Second) in *. set (m := d mod Second) in *.
  assert (Hq : 0 <= q < 2 ^ 40).
  { subst q. split; [apply Z.div_pos; [lia|done]|].
    apply Z.div_lt_upper_bound; [done|]. unfold max_int64, Second in *. lia. }
  assert (HdU : d * f64_unit = Second * (q * f64_unit) + m * f64_unit) by (rewrite Ed; ring).
  assert (Hf : f64_finite (dur_seconds d) = true).
  { apply f64_finite_of_lt; [done|].
    apply Z.le_lt_trans with (2 ^ 40 * 2 ^ 1074).
    - apply (rounded_le _ _ _ Z.lt_0_1 Hr); [lia..|]. fold f64_unit. nia.
    - apply (finite_value_max (2 ^ 40) 0); lia. }
  split; [done|]. split; [done|].
  pose proof (rounded_upper_int _ _ Hr). pose proof (rounded_lower_int _ _ Hr Hf).
  rewrite HdU. assert (0 <= q * f64_unit) by nia. assert (0 <= m * f64_unit) by nia.
  unfold Second in *. split; lia.
Qed.
End Seconds.

(** ** Rounding against a neighbouring float *)

Lemma f64_val_decompose (x : float64) :
  f64_pos_ok x -> f64_finite x = true ->
  exists m e, 0 <= m < 2 ^ 53 /\ 0 <= e /\ f64_val x = m * 2 ^ e.
Proof.
  intros Hx Hf.
  destruct (f64_pos_finite x Hx Hf) as [[s ->]|(m & e & -> & He & Hm & _)].
  - exists 0, 0. simpl. lia.
  - exists (Z.pos m), (e + 1074). split; [lia|]. split; [lia|done].
Qed.

Lemma rounded_le_float (X Y : Z) (f g : float64) :
  0 < Y -> rounded X Y f -> f64_pos_ok g -> f64_finite g = true ->
  X <= f64_val g * Y -> f64_val f <= f64_val g.
Proof.
  intros HY Hr Hg Hfg HX. destruct (f64_val_decompose g Hg Hfg) as (m & e & Hm & He & E).
  rewrite E in *. by apply (rounded_le X Y f HY Hr).
Qed.

Lemma rounded_ge_float (X Y : Z) (f g : float64) :
  0 < Y -> rounded X Y f -> f64_pos_ok g -> f64_finite g = true ->
  f64_val g * Y <= X -> f64_val g <= f64_val f.
Proof.
  intros HY Hr Hg Hfg HX. pose proof (f64_val_finite_lt g Hg Hfg).
  destruct (f64_val_decompose g Hg Hfg) as (m & e & Hm & He & E).
  rewrite E in *. apply (rounded_ge X Y f HY Hr); try done. lia.
Qed.

(** Every 64-bit integer converts to a finite float. *)
Lemma f64_of_Z_finite (z : Z) :
  0 <= z <= max_int64 ->
  f64_finite (f64_of_Z z) = true /\ f64_val (f64_of_Z z) <= 2 ^ 63 * f64_unit.
Proof.
  intros Hz. pose proof (f64_of_Z_rounded z ltac:(lia)) as Hr.
  pose proof f64_unit_pos. unfold max_int64 in Hz.
  assert (Hle : f64_val (f64_of_Z z) <= 1 * 2 ^ (63 + 1074)).
  { apply (rounded_le _ _ _ Z.lt_0_1 Hr); [lia..|].
    rewrite (pow2_add 63) by lia. fold f64_unit. nia. }
  split.
  - apply f64_finite_of_lt; [apply Hr|].
    eapply Z.le_lt_trans; [done|]. apply (finite_value_max 1 63); lia.
  - rewrite (pow2_add 63) in Hle by lia. fold f64_unit in Hle. lia.
Qed.

Lemma f64_of_Z_ge_1 (z : Z) :
  1 <= z -> f64_unit <= f64_val (f64_of_Z z).
Proof.
  intros Hz. pose proof (f64_of_Z_rounded z ltac:(lia)) as Hr.
  pose proof f64_unit_pos. replace f64_unit with (1 * 2 ^ 1074) by (unfold f64_unit; lia).
  apply (rounded_ge _ _ _ Z.lt_0_1 Hr); [lia..| |].
  - fold f64_unit. nia.
  - apply Z.lt_le_incl, (finite_value_max 1 0); lia.
Qed.

(** The comparison with an integer: below [2 ^ 53] it compares the values (at
    [2 ^ 53] it would not: [2 ^ 53 + 1] converts to [2 ^ 53]). *)
Lemma f64_leb_int (x : float64) (n : Z) :
  f64_pos_ok x -> f64_val x < 2 ^ 53 * f64_unit -> 0 <= n ->
  f64_leb (f64_of_Z n) x = (n * f64_unit <=? f64_val x).
Proof.
  intros Hx Hlt Hn. pose proof f64_unit_pos as Hu. pose proof (f64_of_Z_ok n Hn) as Hno.
  rewrite f64_leb_spec by done. destruct (Z.le_gt_cases n (2 ^ 53)) as [Hle|Hgt].
  { by rewrite (proj1 (f64_of_Z_exact n ltac:(lia))). }
  pose proof (f64_of_Z_exact (2 ^ 53) ltac:(lia)) as [H53 H53f].
  pose proof (rounded_ge_float _ _ _ (f64_of_Z (2 ^ 53)) Z.lt_0_1
    (f64_of_Z_rounded n Hn) (f64_of_Z_ok (2 ^ 53) ltac:(lia)) H53f) as Hge.
  rewrite H53 in Hge. specialize (Hge ltac:(nia)).
  rewrite (proj2 (Z.leb_gt _ _)), (proj2 (Z.leb_gt _ _)); [done|nia|lia].
Qed.
