(* ===== verification/GoError.v ===== *)
(** * Go's [error] values

    An error is its message together with the sentinel errors its chain of
    wrapped errors contains: [errors.Is] looks a sentinel up in the chain,
    and [fmt.Errorf] with the verb for wrapping keeps the chain.  A [nil]
    error is [None] of [option error]. *)
From S2P Require Import Prelude.

Inductive sentinel :=
  | DeadlineExceeded       (* context.DeadlineExceeded *)
  | Canceled               (* context.Canceled *)
  | ErrNoRows              (* sql.ErrNoRows *)
  | ErrServerClosed        (* http.ErrServerClosed *)
  | ErrNotFound            (* storage.ErrNotFound *)
  | ErrInvalidAPIKey.      (* storage.ErrInvalidAPIKey *)

#[export] Instance sentinel_eq_dec : EqDecision sentinel.
Proof. solve_decision. Defined.

Record error := mkError { Error : string; chain : list sentinel }.

Definition errors_New (msg : string) : error := mkError msg [].

Definition errors_Is (e : error) (s : sentinel) : bool :=
  bool_decide (s ∈ chain e).

(** [fmt.Errorf("prefix: %w", e)]. *)
Definition wrap_error (prefix : string) (e : error) : error :=
  mkError (prefix +:+ ": " +:+ Error e) (chain e).

(** The errors a context reports when it ends. *)
Definition context_deadline_exceeded : error :=
  mkError "context deadline exceeded" [DeadlineExceeded].
Definition context_canceled : error :=
  mkError "context canceled" [Canceled].

Lemma errors_Is_wrap (prefix : string) (e : error) (s : sentinel) :
  errors_Is (wrap_error prefix e) s = errors_Is e s.
Proof. done. Qed.
