(* ===== verification/GoString.v ===== *)
(** * Byte strings: what the program uses of [strings], [net] and [textproto]

    A Go string is a sequence of bytes, here a [string] of 8-bit characters. *)
From S2P Require Import Prelude GoError.
From Stdlib Require Import Ascii.
From stdpp Require Import pretty.
Open Scope Z_scope.

(** [strconv.Itoa], and the verb for integers of [fmt]. *)
Definition Itoa (z : Z) : string := pretty z.

(** ** Searching and slicing *)

Fixpoint index_byte (c : ascii) (s : string) : option nat :=
  match s with
  | EmptyString => None
  | String d s => if Ascii.eqb c d then Some 0%nat else S <$> index_byte c s
  end.

Fixpoint last_index_byte (c : ascii) (s : string) : option nat :=
  match s with
  | EmptyString => None
  | String d s =>
      match last_index_byte c s with
      | Some i => Some (S i)
      | None => if Ascii.eqb c d then Some 0%nat else None
      end
  end.

Fixpoint str_take (n : nat) (s : string) : string :=
  match n, s with
  | S n, String c s => String c (str_take n s)
  | _, _ => EmptyString
  end.

Fixpoint str_drop (n : nat) (s : string) : string :=
  match n, s with
  | O, _ => s
  | S n, String _ s => str_drop n s
  | S _, EmptyString => EmptyString
  end.

(** [s[i:j]], for [i <= j <= len s]. *)
Definition slice (i j : nat) (s : string) : string := str_take (j - i) (str_drop i s).

Definition contains_byte (c : ascii) (s : string) : bool :=
  match index_byte c s with Some _ => true | None => false end.

(** [strings.HasPrefix], the prefix first. *)
Fixpoint has_prefix (p s : string) : bool :=
  match p, s with
  | EmptyString, _ => true
  | String a p, String b s => Ascii.eqb a b && has_prefix p s
  | String _ _, EmptyString => false
  end.

(** [strings.HasPrefix] and [strings.HasSuffix] with a slash. *)
Definition has_prefix_slash (s : string) : bool :=
  match s with String c _ => Ascii.eqb c "/"%char | _ => false end.
Fixpoint has_suffix_slash (s : string) : bool :=
  match s with
  | EmptyString => false
  | String c EmptyString => Ascii.eqb c "/"%char
  | String _ s => has_suffix_slash s
  end.

(** ** ASCII letters *)

Definition byte_of (c : ascii) : Z := Z.of_N (N_of_ascii c).
Definition is_upper (c : ascii) : bool := (65 <=? byte_of c) && (byte_of c <=? 90).
Definition is_lower (c : ascii) : bool := (97 <=? byte_of c) && (byte_of c <=? 122).
Definition is_digit (c : ascii) : bool := (48 <=? byte_of c) && (byte_of c <=? 57).
Definition ascii_lower (c : ascii) : ascii :=
  if is_upper c then ascii_of_N (Z.to_N (byte_of c + 32)) else c.
Definition ascii_upper (c : ascii) : ascii :=
  if is_lower c then ascii_of_N (Z.to_N (byte_of c - 32)) else c.

Fixpoint str_forall (p : ascii -> bool) (s : string) : bool :=
  match s with EmptyString => true | String c s => p c && str_forall p s end.

(** ** [textproto.CanonicalMIMEHeaderKey] *)

(** The characters of a token: letters, digits and the listed signs. *)
Definition is_token_char (c : ascii) : bool :=
  is_upper c || is_lower c || is_digit c || contains_byte c "!#$%&'*+-.^_`|~".

Fixpoint canonical_from (upper : bool) (s : string) : string :=
  match s with
  | EmptyString => EmptyString
  | String c s => String (if upper then ascii_upper c else ascii_lower c)
                         (canonical_from (Ascii.eqb c "-") s)
  end.

Definition canonical_key (s : string) : string :=
  if str_forall is_token_char s then canonical_from true s else s.

(** ** [net.SplitHostPort] *)

Definition SplitHostPort (hostport : string) : (string * string) + error :=
  match last_index_byte ":" hostport with
  | None => inr (errors_New "missing port in address")
  | Some i =>
      let finish (host : string) (j k : nat) :=
        if contains_byte "[" (str_drop j hostport) then
          inr (errors_New "unexpected '[' in address")
        else if contains_byte "]" (str_drop k hostport) then
          inr (errors_New "unexpected ']' in address")
        else inl (host, str_drop (S i) hostport) in
      if (match hostport with String c _ => Ascii.eqb c "[" | _ => false end) then
        match index_byte "]" hostport with
        | None => inr (errors_New "missing ']' in address")
        | Some e =>
            if (S e =? String.length hostport)%nat then
              inr (errors_New "missing port in address")
            else if (S e =? i)%nat then finish (slice 1 e hostport) 1%nat (S e)
            else if contains_byte ":" (slice (S e) (S (S e)) hostport) then
              inr (errors_New "too many colons in address")
            else inr (errors_New "missing port in address")
        end
      else
        let host := str_take i hostport in
        if contains_byte ":" host then inr (errors_New "too many colons in address")
        else finish host 0%nat 0%nat
  end.

Example split_ipv4 : SplitHostPort "10.0.0.1:8080" = inl ("10.0.0.1", "8080").
Proof. reflexivity. Qed.
Example split_ipv6 : SplitHostPort "[::1]:8080" = inl ("::1", "8080").
Proof. reflexivity. Qed.
Example split_no_port : SplitHostPort "::1" = inr (errors_New "too many colons in address").
Proof. reflexivity. Qed.
Example canonical_api_key : canonical_key "X-API-Key" = "X-Api-Key".
Proof. reflexivity. Qed.

(** ** Lemmas *)

Lemma str_take_drop (n : nat) (s : string) : str_take n s +:+ str_drop n s = s.
Proof.
  revert s. induction n as [|n IH]; intros [|c s]; [done..|]. simpl.
  rewrite ?string_app_cons. by rewrite IH.
Qed.

Lemma str_take_length (n : nat) (s : string) :
  (n <= String.length s)%nat -> String.length (str_take n s) = n.
Proof.
  revert s. induction n as [|n IH]; intros [|c s]; simpl; try lia.
  intros H. by rewrite IH by lia.
Qed.

Lemma str_take_le (n : nat) (s : string) : (String.length (str_take n s) <= String.length s)%nat.
Proof. revert s. induction n as [|n IH]; intros [|c s]; simpl; try lia. specialize (IH s). lia. Qed.

Lemma last_index_lt (c : ascii) (s : string) (i : nat) :
  last_index_byte c s = Some i -> (i < String.length s)%nat.
Proof.
  revert i. induction s as [|d s IH]; [done|]. intros i. cbn [last_index_byte].
  destruct (last_index_byte c s) as [j|]; [intros [= <-]; specialize (IH j eq_refl); simpl; lia|].
  destruct (Ascii.eqb c d); [intros [= <-]; simpl; lia|done].
Qed.

Lemma str_drop_length (n : nat) (s : string) :
  String.length (str_drop n s) = (String.length s - n)%nat.
Proof. revert s. induction n as [|n IH]; intros [|c s]; simpl; try lia. apply IH. Qed.

Lemma string_length_app (a b : string) :
  String.length (a +:+ b) = (String.length a + String.length b)%nat.
Proof.
  induction a as [|c a IH]; [done|]. rewrite ?string_app_cons. simpl. by rewrite IH.
Qed.

Lemma last_index_app (c : ascii) (a b : string) :
  index_byte c b = None ->
  last_index_byte c (a +:+ String c b) = Some (String.length a).
Proof.
  intros Hb.
  assert (Hnone : last_index_byte c b = None).
  { induction b as [|d b IH]; [done|]. simpl in *.
    destruct (Ascii.eqb c d); [done|]. destruct (index_byte c b); [done|]. by rewrite IH. }
  induction a as [|d a IH]; simpl.
  - by rewrite Hnone, Ascii.eqb_refl.
  - rewrite ?string_app_cons. simpl. by rewrite IH.
Qed.

Lemma index_byte_none_app (c : ascii) (a b : string) :
  index_byte c (a +:+ b) = None <-> index_byte c a = None /\ index_byte c b = None.
Proof.
  induction a as [|d a IH]; [by split; [|intros []]|].
  rewrite ?string_app_cons. simpl. destruct (Ascii.eqb c d); [by split; [|intros []]|].
  destruct (index_byte c (a +:+ b)), (index_byte c a); simpl; naive_solver.
Qed.

Lemma str_take_app (a b : string) : str_take (String.length a) (a +:+ b) = a.
Proof.
  induction a as [|c a IH]; [by destruct b|]. rewrite ?string_app_cons. simpl. by rewrite IH.
Qed.

Lemma str_drop_app (a b : string) : str_drop (String.length a) (a +:+ b) = b.
Proof. induction a as [|c a IH]; [done|]. rewrite ?string_app_cons. simpl. done. Qed.
