(* ===== verification/Utf8.v ===== *)
(** * Runes: [for range] over a string and [string(rune)]

    Ranging over a Go string decodes it as UTF-8; a byte that does not start
    a well-formed sequence gives the rune U+FFFD and a step of one byte.
    Converting a rune to a string encodes it; an invalid rune is encoded as
    U+FFFD. *)
From S2P Require Import Prelude GoString.
From Stdlib Require Import Ascii.

Definition RuneError : Z := 65533.

Definition chr (z : Z) : ascii := ascii_of_N (Z.to_N z).

Definition byte_at (i : nat) (s : string) : option Z := byte_of <$> String.get i s.

(** A continuation byte in the range [lo, hi]. *)
Definition cont (lo hi : Z) (b : option Z) : option Z :=
  match b with
  | Some b => if (lo <=? b) && (b <=? hi) then Some (b - 128) else None
  | None => None
  end.

(** The range of the second byte after a given first byte. *)
Definition second_range (b0 : Z) : Z * Z :=
  (if b0 =? 224 then 160 else if b0 =? 240 then 144 else 128,
   if b0 =? 237 then 159 else if b0 =? 244 then 143 else 191).

(** The first rune of a string that is not empty, and its width. *)
Definition decode_rune (s : string) : Z * nat :=
  let bad := (RuneError, 1%nat) in
  match byte_at 0 s with
  | None => (RuneError, 0%nat)
  | Some b0 =>
      let '(lo, hi) := second_range b0 in
      if b0 <? 128 then (b0, 1%nat)
      else if (b0 <? 194) || (244 <? b0) then bad
      else
        match cont lo hi (byte_at 1 s) with
        | None => bad
        | Some c1 =>
            if b0 <? 224 then ((b0 - 192) * 64 + c1, 2%nat)
            else
              match cont 128 191 (byte_at 2 s) with
              | None => bad
              | Some c2 =>
                  if b0 <? 240 then ((b0 - 224) * 4096 + c1 * 64 + c2, 3%nat)
                  else
                    match cont 128 191 (byte_at 3 s) with
                    | None => bad
                    | Some c3 =>
                        ((b0 - 240) * 262144 + c1 * 4096 + c2 * 64 + c3, 4%nat)
                    end
              end
        end
  end.

(** [for i, c := range s]: byte index and rune of each iteration. *)
Fixpoint range_from (fuel i : nat) (s : string) : list (nat * Z) :=
  match fuel, s with
  | S fuel, String _ _ =>
      let '(r, n) := decode_rune s in (i, r) :: range_from fuel (i + n) (str_drop n s)
  | _, _ => []
  end.

Definition range (s : string) : list (nat * Z) := range_from (String.length s) 0 s.
Definition runes (s : string) : list Z := (range s).*2.

Definition valid_rune (r : Z) : bool :=
  (0 <=? r) && (r <? 55296) || (57344 <=? r) && (r <=? 1114111).

(** [string(c)]. *)
Definition encode_rune (r : Z) : string :=
  let r := if valid_rune r then r else RuneError in
  if r <? 128 then String (chr r) ""
  else if r <? 2048 then
    String (chr (192 + r / 64)) (String (chr (128 + r mod 64)) "")
  else if r <? 65536 then
    String (chr (224 + r / 4096)) (String (chr (128 + r / 64 mod 64))
      (String (chr (128 + r mod 64)) ""))
  else
    String (chr (240 + r / 262144)) (String (chr (128 + r / 4096 mod 64))
      (String (chr (128 + r / 64 mod 64)) (String (chr (128 + r mod 64)) ""))).

Definition encode (rs : list Z) : string := foldr (fun r s => encode_rune r +:+ s) "" rs.

(** ** Lemmas *)

Lemma byte_of_range (c : ascii) : 0 <= byte_of c < 256.
Proof. unfold byte_of. pose proof (N_ascii_bounded c). lia. Qed.

Lemma byte_of_chr (z : Z) : 0 <= z < 256 -> byte_of (chr z) = z.
Proof. intros H. unfold byte_of, chr. rewrite N_ascii_embedding; lia. Qed.

Lemma cont_range (lo hi : Z) (b : option Z) (v : Z) :
  cont lo hi b = Some v -> lo <= v + 128 <= hi.
Proof.
  unfold cont. destruct b as [b|]; [|done]. destruct (_ && _)%bool eqn:E; [|done].
  intros [= <-]. bool_to_prop. lia.
Qed.

Lemma cont_in (lo hi v : Z) : lo <= v + 128 <= hi -> cont lo hi (Some (128 + v)) = Some v.
Proof.
  intros H. unfold cont. rewrite (proj2 (Z.leb_le _ _)), (proj2 (Z.leb_le _ _)) by lia.
  simpl. f_equal. lia.
Qed.

Lemma valid_rune_iff (r : Z) :
  valid_rune r = true <-> 0 <= r < 55296 \/ 57344 <= r <= 1114111.
Proof. unfold valid_rune. rewrite orb_true_iff, !andb_true_iff, !Z.leb_le, !Z.ltb_lt. lia. Qed.

(** Decoding gives valid runes and makes progress. *)
Lemma decode_valid (s : string) :
  s <> "" -> valid_rune (fst (decode_rune s)) = true /\
  (1 <= snd (decode_rune s) <= 4)%nat.
Proof.
  intros Hs. unfold decode_rune. destruct s as [|c s]; [done|]. simpl byte_at.
  pose proof (byte_of_range c). set (b0 := byte_of c) in *. change (byte_at 0 (String c s)) with (Some b0).
  cbv iota beta. unfold second_range. cbv iota beta.
  assert (Hbad : valid_rune RuneError = true) by done.
  destruct (b0 <? 128) eqn:E0; bool_to_prop.
  { simpl. rewrite valid_rune_iff. split; lia. }
  destruct ((b0 <? 194) || (244 <? b0))%bool eqn:E1; bool_to_prop; [by simpl; split; [|lia]|].
  destruct (cont _ _ (byte_at 1 _)) as [c1|] eqn:C1; [|by simpl; split; [|lia]].
  apply cont_range in C1.
  destruct (b0 <? 224) eqn:E2; bool_to_prop.
  { simpl. rewrite valid_rune_iff. repeat case_match; bool_to_prop; lia. }
  destruct (cont _ _ (byte_at 2 _)) as [c2|] eqn:C2; [|by simpl; split; [|lia]].
  apply cont_range in C2.
  destruct (b0 <? 240) eqn:E3; bool_to_prop.
  { simpl. rewrite valid_rune_iff. repeat case_match; bool_to_prop; lia. }
  destruct (cont _ _ (byte_at 3 _)) as [c3|] eqn:C3; [|by simpl; split; [|lia]].
  apply cont_range in C3.
  simpl. rewrite valid_rune_iff. repeat case_match; bool_to_prop; lia.
Qed.

(** Digits of a rune in base 64. *)
Lemma rune_digits (r : Z) :
  0 <= r ->
  r = r / 64 * 64 + r mod 64 /\ r / 64 = r / 4096 * 64 + r / 64 mod 64 /\
  r / 4096 = r / 262144 * 64 + r / 4096 mod 64 /\
  0 <= r mod 64 < 64 /\ 0 <= r / 64 mod 64 < 64 /\ 0 <= r / 4096 mod 64 < 64.
Proof.
  intros H. pose proof (Z.div_mod r 64). pose proof (Z.div_mod (r / 64) 64).
  pose proof (Z.div_mod (r / 4096) 64). pose proof (Z.mod_pos_bound r 64).
  pose proof (Z.mod_pos_bound (r / 64) 64). pose proof (Z.mod_pos_bound (r / 4096) 64).
  rewrite !Z.div_div in * by lia. change (64 * 64) with 4096 in *.
  change (4096 * 64) with 262144 in *. lia.
Qed.

Ltac known_comparisons :=
  repeat first
    [ rewrite (proj2 (Z.ltb_lt _ _)) by lia | rewrite (proj2 (Z.ltb_ge _ _)) by lia
    | rewrite (proj2 (Z.eqb_eq _ _)) by lia | rewrite (proj2 (Z.eqb_neq _ _)) by lia ].

Lemma decode_encode (r : Z) (s : string) :
  valid_rune r = true ->
  decode_rune (encode_rune r +:+ s) = (r, String.length (encode_rune r)).
Proof.
  intros Hv. unfold encode_rune. rewrite Hv. apply valid_rune_iff in Hv.
  destruct (rune_digits r ltac:(lia)) as (D1 & D2 & D3 & B1 & B2 & B3).
  destruct (r <? 128) eqn:E1; [|destruct (r <? 2048) eqn:E2; [|destruct (r <? 65536) eqn:E3]];
    bool_to_prop; unfold decode_rune, byte_at; rewrite ?string_app_cons; simpl String.get;
    cbn [fmap option_fmap option_map]; rewrite !byte_of_chr by lia; unfold second_range;
    cbv beta iota.
  - known_comparisons. done.
  - known_comparisons. simpl orb. cbv iota.
    rewrite cont_in by lia. f_equal. lia.
  - rewrite (proj2 (Z.ltb_ge _ 128)), (proj2 (Z.ltb_ge _ 194)), (proj2 (Z.ltb_ge 244 _)),
      (proj2 (Z.ltb_ge _ 224)), (proj2 (Z.ltb_lt _ 240)) by lia. simpl orb. cbv iota.
    rewrite cont_in by (repeat case_match; bool_to_prop; lia). rewrite cont_in by lia.
    f_equal. lia.
  - rewrite (proj2 (Z.ltb_ge _ 128)), (proj2 (Z.ltb_ge _ 194)), (proj2 (Z.ltb_ge 244 _)),
      (proj2 (Z.ltb_ge _ 224)), (proj2 (Z.ltb_ge _ 240)) by lia. simpl orb. cbv iota.
    rewrite cont_in by (repeat case_match; bool_to_prop; lia). rewrite !cont_in by lia.
    f_equal. lia.
Qed.

(** *** Ranging *)

Definition range_at (i : nat) (s : string) : list (nat * Z) :=
  range_from (String.length s) i s.

Lemma range_from_fuel (f f' i : nat) (s : string) :
  (String.length s <= f)%nat -> (String.length s <= f')%nat ->
  range_from f i s = range_from f' i s.
Proof.
  revert f' i s. induction f as [|f IH]; intros f' i s H H'.
  { destruct s; [by destruct f'|simpl in H; lia]. }
  destruct s as [|c s]; [by destruct f'|]. destruct f' as [|f']; [simpl in H'; lia|].
  cbn [range_from]. destruct (decode_valid (String c s) ltac:(done)) as [_ Hn].
  destruct (decode_rune (String c s)) as [r n]. cbn [snd] in Hn. f_equal.
  pose proof (str_drop_length n (String c s)). cbn [String.length] in *. apply IH; lia.
Qed.

Lemma range_at_step (i : nat) (s : string) :
  s <> "" ->
  range_at i s = (i, fst (decode_rune s)) ::
                 range_at (i + snd (decode_rune s)) (str_drop (snd (decode_rune s)) s).
Proof.
  intros Hs. destruct s as [|c s]; [done|]. unfold range_at at 1. cbn [String.length range_from].
  destruct (decode_valid (String c s) Hs) as [_ Hn].
  destruct (decode_rune (String c s)) as [r n]. cbn [fst snd] in *. f_equal.
  pose proof (str_drop_length n (String c s)). cbn [String.length] in *.
  apply range_from_fuel; lia.
Qed.

Lemma encode_rune_nonempty (r : Z) : (1 <= String.length (encode_rune r))%nat.
Proof. unfold encode_rune. repeat case_match; simpl; lia. Qed.

Lemma encode_rune_not_nil (r : Z) (s : string) : encode_rune r +:+ s <> "".
Proof.
  intros E. pose proof (encode_rune_nonempty r).
  pose proof (f_equal String.length E) as El. rewrite string_length_app in El. simpl in El. lia.
Qed.

Lemma runes_at_encode (i : nat) (rs : list Z) :
  Forall (fun r => valid_rune r = true) rs -> (range_at i (encode rs)).*2 = rs.
Proof.
  intros H. revert i. induction H as [|r rs Hr _ IH]; intros i; [done|]. simpl encode.
  rewrite range_at_step by apply encode_rune_not_nil.
  rewrite decode_encode by done. cbn [fst snd]. rewrite str_drop_app. simpl. by rewrite IH.
Qed.

Lemma runes_encode (rs : list Z) :
  Forall (fun r => valid_rune r = true) rs -> runes (encode rs) = rs.
Proof. apply (runes_at_encode 0). Qed.

Lemma range_at_valid (s : string) (i : nat) :
  Forall (fun r => valid_rune r = true) ((range_at i s).*2).
Proof.
  remember (String.length s) as n eqn:En.
  assert (Hn : (String.length s <= n)%nat) by lia. clear En.
  revert i s Hn. induction n as [|n IH]; intros i s Hn.
  { destruct s; [constructor|simpl in Hn; lia]. }
  destruct (decide (s = "")) as [->|Hs]; [constructor|].
  rewrite range_at_step by done. destruct (decode_valid s Hs) as [Hv Hw].
  simpl. constructor; [done|]. apply IH. rewrite str_drop_length. lia.
Qed.

Lemma runes_valid (s : string) : Forall (fun r => valid_rune r = true) (runes s).
Proof. apply range_at_valid. Qed.

Lemma encode_app (a b : list Z) : encode (a ++ b) = encode a +:+ encode b.
Proof. induction a as [|r a IH]; [done|]. simpl. by rewrite IH, string_app_assoc. Qed.

Lemma encode_nil_iff (rs : list Z) : encode rs = "" <-> rs = [].
Proof.
  split; [|by intros ->]. destruct rs; [done|]. intros E. by apply encode_rune_not_nil in E.
Qed.

(** *** ASCII strings *)

Fixpoint bytes (s : string) : list Z :=
  match s with EmptyString => [] | String c s => byte_of c :: bytes s end.

Lemma runes_ascii (s : string) :
  str_forall (fun c => byte_of c <? 128) s = true -> runes s = bytes s.
Proof.
  intros H.
  assert (He : encode (bytes s) = s /\ Forall (fun r => valid_rune r = true) (bytes s)).
  { induction s as [|c s IH]; [done|]. cbn [str_forall] in H. apply andb_true_iff in H as [Hc Hs].
    destruct (IH Hs) as [He Hf]. pose proof (byte_of_range c) as Hr. apply Z.ltb_lt in Hc as Hc'.
    assert (Hv : valid_rune (byte_of c) = true) by (rewrite valid_rune_iff; lia).
    split; [|by constructor]. cbn [bytes encode foldr]. fold (encode (bytes s)). rewrite He.
    unfold encode_rune. rewrite Hv, Hc. unfold chr, byte_of. rewrite N2Z.id, ascii_N_embedding.
    done. }
  destruct He as [He Hf]. rewrite <- He at 1. by apply runes_encode.
Qed.
