(* ===== verification/EnvParse.v ===== *)
(** * Parsing of settings: [strconv.Atoi], [strconv.ParseBool],
    [time.ParseDuration] and the cutting functions of [strings]

    Errors carry no information the program uses, so the parsers return an
    [option]. *)
From S2P Require Import Prelude GoTime Float64 GoString.
From Stdlib Require Import Ascii.

(** ** [strings] *)

(** [strings.Cut] at a separator of one byte: before, after, found. *)
Definition cut (sep : ascii) (s : string) : string * string * bool :=
  match index_byte sep s with
  | Some i => (str_take i s, str_drop (S i) s, true)
  | None => (s, "", false)
  end.

Definition trim_prefix (p s : string) : string :=
  if has_prefix p s then str_drop (String.length p) s else s.

(** [strings.SplitSeq] with a separator of one byte. *)
Fixpoint split (sep : ascii) (s : string) : list string :=
  match s with
  | EmptyString => [""]
  | String c s =>
      let rest := split sep s in
      if Ascii.eqb c sep then "" :: rest
      else match rest with [] => [String c ""] | p :: ps => String c p :: ps end
  end.

(** ** [strconv.Atoi] *)

Definition digit_value (c : ascii) : Z := byte_of c - 48.

(** The value of a string of digits, not empty. *)
Fixpoint digits_value (acc : Z) (s : string) : option Z :=
  match s with
  | EmptyString => Some acc
  | String c s => if is_digit c then digits_value (acc * 10 + digit_value c) s else None
  end.

Definition Atoi (s : string) : option Z :=
  let '(neg, body) :=
    match s with
    | String "+" b => (false, b)
    | String "-" b => (true, b)
    | _ => (false, s)
    end in
  if bool_decide (body = "") then None
  else
    match digits_value 0 body with
    | None => None
    | Some v => let v := if (neg : bool) then - v else v in
                if in_int64 v then Some v else None
    end.

(** ** [strconv.ParseBool] *)

Definition ParseBool (s : string) : option bool :=
  if bool_decide (s ∈ ["1"; "t"; "T"; "true"; "TRUE"; "True"]) then Some true
  else if bool_decide (s ∈ ["0"; "f"; "F"; "false"; "FALSE"; "False"]) then Some false
  else None.

(** ** [time.ParseDuration] *)

(** [leadingInt]: the digits a string starts with, and the rest. *)
Fixpoint leadingInt (x : Z) (s : string) : option (Z * string) :=
  match s with
  | EmptyString => Some (x, s)
  | String c s' =>
      if is_digit c then
        if 2 ^ 63 / 10 <? x then None
        else let x := x * 10 + digit_value c in
             if 2 ^ 63 <? x then None else leadingInt x s'
      else Some (x, s)
  end.

(** [leadingFraction]: digits after the point, and their scale; digits that
    would overflow are skipped. *)
Fixpoint leadingFraction (x : Z) (scale : float64) (overflow : bool) (s : string)
  : Z * float64 * string :=
  match s with
  | EmptyString => (x, scale, s)
  | String c s' =>
      if is_digit c then
        if (overflow : bool) then leadingFraction x scale true s'
        else if (2 ^ 63 - 1) / 10 <? x then leadingFraction x scale true s'
        else let y := x * 10 + digit_value c in
             if 2 ^ 63 <? y then leadingFraction x scale true s'
             else leadingFraction y (f64_mul scale (f64_of_Z 10)) false s'
      else (x, scale, s)
  end.

(** The unit: up to the next digit or point. *)
Fixpoint unit_prefix (s : string) : string * string :=
  match s with
  | EmptyString => ("", "")
  | String c s' =>
      if is_digit c || Ascii.eqb c "." then ("", s)
      else let '(u, rest) := unit_prefix s' in (String c u, rest)
  end.

(** [unitMap]; the two spellings of the micro sign are their UTF-8 bytes. *)
Definition unit_value (u : string) : option Z :=
  if bool_decide (u = "ns") then Some 1
  else if bool_decide (u ∈ ["us"; String "194" (String "181" "s"); String "206" (String "188" "s")])
       then Some 1000
  else if bool_decide (u = "ms") then Some Millisecond
  else if bool_decide (u = "s") then Some Second
  else if bool_decide (u = "m") then Some Minute
  else if bool_decide (u = "h") then Some (60 * Minute)
  else None.

(** The loop, with the total so far. *)
Fixpoint parse_units (fuel : nat) (d : Z) (s : string) : option Z :=
  match fuel with
  | O => None
  | S fuel =>
      match s with
      | EmptyString => Some d
      | String c _ =>
          if negb (Ascii.eqb c "." || is_digit c) then None
          else
            match leadingInt 0 s with
            | None => None
            | Some (v, s1) =>
                let pre := negb (String.length s1 =? String.length s)%nat in
                let '(f, scale, s2, post) :=
                  match s1 with
                  | String "." s' =>
                      let '(f, scale, s2) := leadingFraction 0 (f64_of_Z 1) false s' in
                      (f, scale, s2, negb (String.length s2 =? String.length s')%nat)
                  | _ => (0, f64_of_Z 1, s1, false)
                  end in
                if negb pre && negb post then None
                else
                  let '(u, s3) := unit_prefix s2 in
                  if bool_decide (u = "") then None
                  else
                    match unit_value u with
                    | None => None
                    | Some unit =>
                        if 2 ^ 63 / unit <? v then None
                        else
                          let v := v * unit in
                          let v := if 0 <? f
                                   then v + f64_to_int (f64_mul (f64_of_Z f)
                                              (f64_div (f64_of_Z unit) scale))
                                   else v in
                          if 2 ^ 63 <? v then None
                          else
                            let d := (d + v) mod 2 ^ 64 in
                            if 2 ^ 63 <? d then None else parse_units fuel d s3
                    end
            end
      end
  end.

Definition ParseDuration (s : string) : option Z :=
  let '(neg, s) :=
    match s with
    | String "-" b => (true, b)
    | String "+" b => (false, b)
    | _ => (false, s)
    end in
  if bool_decide (s = "0") then Some 0
  else if bool_decide (s = "") then None
  else
    match parse_units (S (String.length s)) 0 s with
    | None => None
    | Some d => if (neg : bool) then Some (- d)
                else if 2 ^ 63 - 1 <? d then None else Some d
    end.

Example duration_5m : ParseDuration "5m" = Some (5 * Minute).
Proof. vm_compute. reflexivity. Qed.
Example duration_mixed : ParseDuration "-1h2.5s" = Some (- (3602500 * Millisecond)).
Proof. vm_compute. reflexivity. Qed.
Example duration_number : ParseDuration "300" = None.
Proof. vm_compute. reflexivity. Qed.
Example atoi_sign : Atoi "-042" = Some (-42).
Proof. vm_compute. reflexivity. Qed.

(** ** Lemmas *)

Lemma index_byte_app (c : ascii) (a b : string) :
  index_byte c a = None -> index_byte c (a +:+ String c b) = Some (String.length a).
Proof.
  induction a as [|d a IH]; intros H.
  - change ("" +:+ String c b) with (String c b). simpl. by rewrite Ascii.eqb_refl.
  - rewrite string_app_cons. simpl in *. destruct (Ascii.eqb c d); [done|].
    destruct (index_byte c a); [done|]. by rewrite IH.
Qed.

Lemma str_drop_app_S (a b : string) (c : ascii) :
  str_drop (S (String.length a)) (a +:+ String c b) = b.
Proof.
  induction a as [|d a IH]; [done|]. rewrite string_app_cons. simpl in *. exact IH.
Qed.

Lemma cut_app (sep : ascii) (a b : string) :
  index_byte sep a = None -> cut sep (a +:+ String sep "" +:+ b) = (a, b, true).
Proof.
  intros H. change (String sep "" +:+ b) with (String sep b). unfold cut. by rewrite index_byte_app, str_take_app, str_drop_app_S.
Qed.

Lemma cut_none (sep : ascii) (s : string) : index_byte sep s = None -> cut sep s = (s, "", false).
Proof. intros H. unfold cut. by rewrite H. Qed.

Lemma has_prefix_refl (a b : string) : has_prefix a (a +:+ b) = true.
Proof.
  induction a as [|c a IH]; [by destruct b|]. rewrite string_app_cons. simpl.
  by rewrite Ascii.eqb_refl.
Qed.

Lemma trim_prefix_app (p s : string) : trim_prefix p (p +:+ s) = s.
Proof. unfold trim_prefix. by rewrite has_prefix_refl, str_drop_app. Qed.

Lemma Atoi_range (s : string) (v : Z) : Atoi s = Some v -> min_int64 <= v <= max_int64.
Proof.
  unfold Atoi. destruct (match s with String "+" b => _ | _ => _ end) as [neg body].
  destruct (bool_decide _); [done|]. destruct (digits_value 0 body); [|done].
  destruct (in_int64 _) eqn:E; [|done]. intros [= <-]. by apply in_int64_iff.
Qed.

Lemma split_none (sep : ascii) (s : string) : index_byte sep s = None -> split sep s = [s].
Proof.
  induction s as [|c s IH]; intros H; [done|]. simpl in *.
  rewrite (Ascii.eqb_sym c sep). destruct (Ascii.eqb sep c); [done|].
  destruct (index_byte sep s); [done|]. by rewrite IH.
Qed.

Lemma split_app (sep : ascii) (a b : string) :
  index_byte sep a = None -> split sep (a +:+ String sep b) = a :: split sep b.
Proof.
  induction a as [|c a IH]; intros H.
  - change ("" +:+ String sep b) with (String sep b). simpl. by rewrite Ascii.eqb_refl.
  - rewrite string_app_cons. simpl in *. rewrite (Ascii.eqb_sym c sep).
    destruct (Ascii.eqb sep c); [done|]. destruct (index_byte sep a); [done|]. by rewrite IH.
Qed.
