(* ===== verification/TokenBucket.v ===== *)
(** * [internal/limiter/token_bucket.go]: the token bucket

    Every method of [TokenBucket] takes the mutex, so a call is one atomic
    step on the record below; each call is given the reading of the clock it
    makes.  The count of tokens and the refill rate are binary64 numbers,
    combined by the operations of [Float64]. *)
From S2P Require Import Prelude GoTime Float64 Float64Facts.
From Stdlib Require Import SpecFloat.

Record TokenBucket := mkTokenBucket {
  capacity : Z;            (* maximum number of tokens, an [int] *)
  refillRate : float64;    (* tokens added per second *)
  tokens : float64;        (* current token count *)
  lastRefill : Time;       (* time of the last refill calculation *)
}.

(** [NewTokenBucket]; [now] is the clock reading it makes. *)
Definition NewTokenBucket (cap : Z) (rate : float64) (now : Time)
  : outcome TokenBucket :=
  if cap <? 1 then Panic "limiter: capacity must be >= 1"
  else if f64_leb rate (f64_of_Z 0) then Panic "limiter: refillRate must be > 0"
  else Return {| capacity := cap; refillRate := rate;
                 tokens := f64_of_Z cap; lastRefill := now |}.

(** [refill], called with the mutex held. *)
Definition refill (tb : TokenBucket) (now : Time) : TokenBucket :=
  let elapsed := time_sub now (lastRefill tb) in
  if elapsed <=? 0 then tb
  else
    let added := f64_mul (refillRate tb) (dur_seconds elapsed) in
    let sum := f64_add (tokens tb) added in
    let clamped :=
      if f64_ltb (f64_of_Z (capacity tb)) sum then f64_of_Z (capacity tb)
      else sum in
    {| capacity := capacity tb; refillRate := refillRate tb;
       tokens := clamped; lastRefill := now |}.

Definition AllowN (tb : TokenBucket) (n : Z) (now : Time) : bool * TokenBucket :=
  if n <=? 0 then (true, tb)
  else
    let tb := refill tb now in
    if f64_leb (f64_of_Z n) (tokens tb) then
      (true, {| capacity := capacity tb; refillRate := refillRate tb;
                tokens := f64_sub (tokens tb) (f64_of_Z n);
                lastRefill := lastRefill tb |})
    else (false, tb).

Definition Allow (tb : TokenBucket) (now : Time) : bool * TokenBucket :=
  AllowN tb 1 now.

Definition Tokens (tb : TokenBucket) (now : Time) : Z * TokenBucket :=
  let tb := refill tb now in (f64_to_int (tokens tb), tb).

Definition Reset (tb : TokenBucket) (now : Time) : TokenBucket :=
  {| capacity := capacity tb; refillRate := refillRate tb;
     tokens := f64_of_Z (capacity tb); lastRefill := now |}.

(** ** Calls in sequence *)

Inductive tb_call := CallAllowN (n : Z) | CallTokens | CallReset.

(** One call: the tokens it hands out and the bucket after it. *)
Definition tb_step (tb : TokenBucket) (c : tb_call) (now : Time)
  : Z * TokenBucket :=
  match c with
  | CallAllowN n => let '(ok, tb') := AllowN tb n now in
                    ((if ok then Z.max 0 n else 0), tb')
  | CallTokens => (0, snd (Tokens tb now))
  | CallReset => (0, Reset tb now)
  end.

(** A history of calls, each with its clock reading: the total number of
    tokens handed out and the final bucket. *)
Fixpoint tb_run (tb : TokenBucket) (h : list (tb_call * Time))
  : Z * TokenBucket :=
  match h with
  | [] => (0, tb)
  | (c, now) :: h =>
      let '(k, tb') := tb_step tb c now in
      let '(k', tb'') := tb_run tb' h in (k + k', tb'')
  end.

(** ** Well-formed buckets *)

Definition has_mono (t : Time) : Prop := exists m, mono t = Some m.

Record tb_wf (tb : TokenBucket) : Prop := {
  wf_capacity : 1 <= capacity tb <= max_int64;
  wf_rate : f64_pos_ok (refillRate tb) /\ f64_finite (refillRate tb) = true /\
            0 < f64_val (refillRate tb);
  wf_tokens : f64_pos_ok (tokens tb) /\ f64_finite (tokens tb) = true;
  wf_clamped : f64_val (tokens tb) <= f64_val (f64_of_Z (capacity tb));
  wf_time : has_mono (lastRefill tb);
}.

(** ** Lemmas *)

Lemma cap_float (cap : Z) :
  1 <= cap <= max_int64 ->
  f64_pos_ok (f64_of_Z cap) /\ f64_finite (f64_of_Z cap) = true /\
  f64_unit <= f64_val (f64_of_Z cap).
Proof.
  intros H. split; [apply f64_of_Z_ok; lia|].
  split; [apply f64_of_Z_finite; lia|]. apply f64_of_Z_ge_1. lia.
Qed.

(** The tokens a refill computes before clamping: the sum of the current
    tokens and the rounded product of the rate and the elapsed seconds. *)
Definition refill_sum (tb : TokenBucket) (elapsed : Z) : float64 :=
  f64_add (tokens tb) (f64_mul (refillRate tb) (dur_seconds elapsed)).

Lemma refill_sum_cases (tb : TokenBucket) (d : Z) :
  tb_wf tb -> 0 < d <= max_int64 ->
  let a := f64_mul (refillRate tb) (dur_seconds d) in
  f64_pos_ok a /\
  rounded (f64_val (refillRate tb) * f64_val (dur_seconds d)) f64_unit a /\
  f64_pos_ok (refill_sum tb d) /\
  (rounded (f64_val (tokens tb) + f64_val a) 1 (refill_sum tb d) \/
   f64_finite a = false /\ refill_sum tb d = S754_infinity false).
Proof.
  intros Hwf Hd a. unfold refill_sum. fold a.
  destruct Hwf as [_ (Hr & Hrf & _) [Ht Htf] _ _].
  destruct (dur_seconds_bounds d) as (Hs & Hsf & _); [lia|].
  pose proof (f64_mul_rounded _ _ Hr Hrf Hs Hsf) as Ha. fold a in Ha.
  assert (Hok := proj1 Ha). split; [done|]. split; [done|].
  destruct (f64_inf_or_finite a Hok) as [E|Hf].
  - rewrite f64_add_inf by (try done; right; by rewrite E).
    split; [done|]. right. rewrite E. done.
  - pose proof (f64_add_rounded _ _ Ht Htf Hok Hf) as Hsum.
    split; [apply Hsum|by left].
Qed.

(** The clamped sum. *)
Lemma refill_tokens (tb : TokenBucket) (now : Time) (d : Z) :
  time_sub now (lastRefill tb) = d -> 0 < d ->
  refill tb now =
  {| capacity := capacity tb; refillRate := refillRate tb;
     tokens := if f64_ltb (f64_of_Z (capacity tb)) (refill_sum tb d)
               then f64_of_Z (capacity tb) else refill_sum tb d;
     lastRefill := now |}.
Proof.
  intros E Hd. unfold refill. rewrite E.
  destruct (d <=? 0) eqn:E0; bool_to_prop; [lia|done].
Qed.

Lemma refill_idle (tb : TokenBucket) (now : Time) :
  time_sub now (lastRefill tb) <= 0 -> refill tb now = tb.
Proof.
  intros H. unfold refill. by rewrite (proj2 (Z.leb_le _ _) H).
Qed.

(** The clamp keeps the smaller of the sum and the capacity. *)
Lemma clamp_spec (tb : TokenBucket) (s : float64) :
  1 <= capacity tb <= max_int64 -> f64_pos_ok s ->
  let c := f64_of_Z (capacity tb) in
  let t := if f64_ltb c s then c else s in
  f64_pos_ok t /\ f64_finite t = true /\
  f64_val t = Z.min (f64_val s) (f64_val c).
Proof.
  intros Hc Hs c t. destruct (cap_float _ Hc) as (Hok & Hf & _).
  fold c in Hok, Hf. subst t. rewrite f64_ltb_spec by done.
  destruct (_ <? _) eqn:E; bool_to_prop.
  - split; [done|]. split; [done|]. lia.
  - split; [done|]. split; [|lia].
    apply f64_finite_of_lt; [done|].
    pose proof (f64_val_finite_lt c Hok Hf). lia.
Qed.

Lemma elapsed_range (t u : Time) (d : Z) :
  time_sub t u = d -> min_int64 <= d <= max_int64.
Proof.
  intros <-. unfold time_sub.
  destruct (mono t); [destruct (mono u)|]; apply sat64_range.
Qed.

Lemma refill_wf (tb : TokenBucket) (now : Time) :
  tb_wf tb -> has_mono now -> tb_wf (refill tb now).
Proof.
  intros Hwf Hnow. destruct (Z.le_gt_cases (time_sub now (lastRefill tb)) 0).
  { by rewrite refill_idle. }
  pose proof (elapsed_range _ _ _ (eq_refl (time_sub now (lastRefill tb)))).
  erewrite refill_tokens by (done || lia).
  destruct (refill_sum_cases tb (time_sub now (lastRefill tb)) Hwf ltac:(lia))
    as (_ & _ & Hs & _).
  destruct Hwf as [Hc Hr Ht Hcl Htm].
  destruct (clamp_spec tb _ Hc Hs) as (Hok & Hf & Hv).
  split; simpl; try done. rewrite Hv. lia.
Qed.
#[export] Hint Resolve refill_wf : gateway.

Lemma sub_tokens_wf (tb : TokenBucket) (n : Z) :
  tb_wf tb -> 0 < n -> f64_leb (f64_of_Z n) (tokens tb) = true ->
  tb_wf {| capacity := capacity tb; refillRate := refillRate tb;
           tokens := f64_sub (tokens tb) (f64_of_Z n);
           lastRefill := lastRefill tb |}.
Proof.
  intros [Hc Hr [Ht Hf] Hcl Htm] Hn Hle.
  assert (Hno : f64_pos_ok (f64_of_Z n)) by (apply f64_of_Z_ok; lia).
  rewrite f64_leb_spec in Hle by done. bool_to_prop.
  assert (Hnf : f64_finite (f64_of_Z n) = true).
  { apply f64_finite_of_lt; [done|]. pose proof (f64_val_finite_lt _ Ht Hf). lia. }
  pose proof (f64_sub_rounded _ _ Ht Hf Hno Hnf Hle) as Hs.
  pose proof (f64_val_nonneg _ (proj2 Hno)).
  assert (f64_val (f64_sub (tokens tb) (f64_of_Z n)) <= f64_val (tokens tb)).
  { apply (rounded_le_float _ _ _ _ Z.lt_0_1 Hs); try done. lia. }
  split; simpl; try done; [|lia]. split; [apply Hs|].
  apply f64_finite_of_lt; [apply Hs|].
  pose proof (f64_val_finite_lt _ Ht Hf). lia.
Qed.

Lemma AllowN_wf (tb : TokenBucket) (n : Z) (now : Time) :
  tb_wf tb -> has_mono now -> tb_wf (snd (AllowN tb n now)).
Proof.
  intros Hwf Hnow. unfold AllowN. destruct (n <=? 0) eqn:En; [done|].
  bool_to_prop. pose proof (refill_wf tb now Hwf Hnow) as Hwf'.
  destruct (f64_leb _ _) eqn:El; [|done]. by apply sub_tokens_wf.
Qed.

Lemma Reset_wf (tb : TokenBucket) (now : Time) :
  tb_wf tb -> has_mono now -> tb_wf (Reset tb now).
Proof.
  intros [Hc Hr Ht Hcl Htm] Hnow. destruct (cap_float _ Hc) as (H1 & H2 & _).
  split; simpl; try done.
Qed.

Lemma tb_step_wf (tb : TokenBucket) (c : tb_call) (now : Time) :
  tb_wf tb -> has_mono now -> tb_wf (snd (tb_step tb c now)).
Proof.
  intros Hwf Hnow. destruct c as [n| |]; simpl.
  - pose proof (AllowN_wf tb n now Hwf Hnow). by destruct (AllowN tb n now).
  - by apply refill_wf.
  - by apply Reset_wf.
Qed.
#[export] Hint Resolve AllowN_wf Reset_wf tb_step_wf : gateway.

Lemma tb_step_static (tb : TokenBucket) (c : tb_call) (now : Time) :
  capacity (snd (tb_step tb c now)) = capacity tb /\
  refillRate (snd (tb_step tb c now)) = refillRate tb.
Proof.
  assert (Hr : capacity (refill tb now) = capacity tb /\
               refillRate (refill tb now) = refillRate tb)
    by (unfold refill; by destruct (_ <=? 0)).
  destruct c as [n| |]; simpl; try done.
  unfold AllowN. destruct (n <=? 0); [done|]. by destruct (f64_leb _ _).
Qed.

(** *** Upper bound on a refill

    One refill over [d] nanoseconds adds at most [rate * d / 1e9] tokens, up
    to three parts in [2 ^ 50] of the capacity: a refill of more than twice
    the capacity is clamped, and the rounding errors of a smaller one are
    relative to the capacity. *)

Lemma product_upper (ra se a d : Z) :
  0 <= ra -> 0 < f64_unit ->
  2 ^ 50 * (se * Second) <= (2 ^ 50 + 1) * (d * f64_unit) ->
  2 ^ 53 * (a * f64_unit) <= (2 ^ 53 + 1) * (ra * se) + 2 ^ 52 * f64_unit ->
  2 ^ 103 * (Second * a) <= (2 ^ 53 + 1) * (2 ^ 50 + 1) * (ra * d) + 2 ^ 102 * Second.
Proof.
  intros Hra Hu H1 H2.
  assert (H3 : 2 ^ 50 * (Second * (ra * se)) <= (2 ^ 50 + 1) * (ra * d * f64_unit)).
  { apply (Z.mul_le_mono_nonneg_l _ _ ra) in H1; [|done]. lia. }
  apply (Z.mul_le_mono_pos_r _ _ f64_unit); [done|].
  unfold Second in *. lia.
Qed.

Lemma product_lower (ra se a d : Z) :
  0 <= ra -> 0 < f64_unit ->
  (2 ^ 50 - 1) * (d * f64_unit) <= 2 ^ 50 * (se * Second) ->
  (2 ^ 53 - 1) * (ra * se) <= 2 ^ 53 * (a * f64_unit) + 2 ^ 52 * f64_unit ->
  (2 ^ 53 - 1) * (2 ^ 50 - 1) * (ra * d) <= 2 ^ 103 * (Second * a) + 2 ^ 102 * Second.
Proof.
  intros Hra Hu H1 H2.
  assert (H3 : (2 ^ 50 - 1) * (ra * d * f64_unit) <= 2 ^ 50 * (Second * (ra * se))).
  { apply (Z.mul_le_mono_nonneg_l _ _ ra) in H1; [|done]. lia. }
  apply (Z.mul_le_mono_pos_r _ _ f64_unit); [done|].
  unfold Second in *. lia.
Qed.

Lemma refill_growth (tb : TokenBucket) (now : Time) (d : Z) :
  tb_wf tb -> time_sub now (lastRefill tb) = d -> 0 < d ->
  2 ^ 50 * Second * f64_val (tokens (refill tb now)) <=
  2 ^ 50 * Second * f64_val (tokens tb) +
  2 ^ 50 * (f64_val (refillRate tb) * d) +
  3 * Second * f64_val (f64_of_Z (capacity tb)).
Proof.
  intros Hwf Ed Hd. pose proof (elapsed_range _ _ _ Ed) as Hmax.
  rewrite (refill_tokens tb now d Ed Hd). simpl.
  destruct (refill_sum_cases tb d Hwf ltac:(lia)) as (Ha & Hra & Hs & Hcase).
  destruct Hwf as [Hc (Hr & Hrf & Hrp) [Ht Htf] Hcl _].
  destruct (clamp_spec tb _ Hc Hs) as (_ & _ & ->).
  destruct (cap_float _ Hc) as (_ & _ & Hcu).
  destruct (dur_seconds_bounds d ltac:(lia)) as (_ & _ & Hup & _).
  pose proof f64_unit_pos as Hu.
  assert (2 ^ 60 <= f64_unit) by (apply pow2_le; lia).
  pose proof (rounded_upper _ _ _ Hu Hra) as Hau.
  pose proof (f64_val_nonneg _ (proj2 Ht)).
  set (a := f64_mul (refillRate tb) (dur_seconds d)) in *.
  set (C := f64_val (f64_of_Z (capacity tb))) in *.
  pose proof (product_upper _ _ _ _ (Z.lt_le_incl _ _ Hrp) Hu Hup Hau) as HA.
  assert (H70 : 2 ^ 70 <= C) by (transitivity f64_unit; [apply pow2_le; lia|lia]).
  assert (HV : 0 <= f64_val (refillRate tb) * d) by nia.
  set (V := f64_val (refillRate tb) * d) in *.
  destruct (Z.le_gt_cases (2 * Second * C) V) as [Hbig|Hsmall]; [unfold Second in *; lia|].
  destruct Hcase as [Hsum|[Hinf _]].
  - pose proof (rounded_upper_int _ _ Hsum) as Hsu. clearbody a C V.
    destruct (Z.le_gt_cases (f64_val (tokens tb)) C); unfold Second in *; lia.
  - exfalso. destruct (f64_inf_or_finite a Ha) as [Ea|]; [|congruence].
    destruct (f64_of_Z_finite (capacity tb)) as [_ HCmax]; [lia|]. fold C in HCmax.
    rewrite Ea in HA. simpl f64_val in HA. unfold cond_Zopp in HA.
    assert (2 ^ 1000 * f64_unit <= 2 ^ 2098) by (unfold f64_unit; rewrite <- pow2_add by lia; apply pow2_le; lia).
    clearbody V C. unfold Second in *. lia.
Qed.

(** *** A call of [AllowN] *)

Lemma cap_exact (tb : TokenBucket) :
  tb_wf tb -> capacity tb <= 2 ^ 53 ->
  f64_val (f64_of_Z (capacity tb)) = capacity tb * f64_unit.
Proof. intros [Hc _ _ _ _] H. apply f64_of_Z_exact. lia. Qed.

Lemma tokens_ge_spec (tb : TokenBucket) (n : Z) :
  tb_wf tb -> capacity tb < 2 ^ 53 -> 0 <= n ->
  f64_leb (f64_of_Z n) (tokens tb) = (n * f64_unit <=? f64_val (tokens tb)).
Proof.
  intros Hwf Hcap Hn. pose proof (cap_exact tb Hwf ltac:(lia)) as Hce.
  pose proof f64_unit_pos. destruct Hwf as [Hc _ [Ht Htf] Hcl _]. rewrite Hce in Hcl.
  apply f64_leb_int; [done|nia|done].
Qed.

(** [AllowN] on a well-formed bucket: it grants the request exactly when the
    refilled bucket holds [n] tokens, and then removes exactly [n]. *)
Lemma AllowN_exact (tb : TokenBucket) (n : Z) (now : Time) :
  tb_wf tb -> has_mono now -> capacity tb < 2 ^ 53 -> 0 < n ->
  let r := refill tb now in
  let '(ok, tb') := AllowN tb n now in
  ok = (n * f64_unit <=? f64_val (tokens r)) /\
  lastRefill tb' = lastRefill r /\
  f64_val (tokens tb') = f64_val (tokens r) - (if ok then n * f64_unit else 0).
Proof.
  intros Hwf Hnow Hcap Hn r. pose proof (refill_wf tb now Hwf Hnow) as Hwf'.
  fold r in Hwf'.
  assert (Hcr : capacity r = capacity tb)
    by (unfold r, refill; by destruct (_ <=? 0)).
  unfold AllowN. rewrite (proj2 (Z.leb_gt _ _) Hn). fold r.
  rewrite (tokens_ge_spec r n Hwf') by lia.
  pose proof (cap_exact r Hwf' ltac:(lia)) as Hce.
  destruct (_ <=? _) eqn:El; bool_to_prop; [|split; [done|]; split; [done|lia]].
  destruct Hwf' as [Hc _ [Ht Htf] Hcl _]. pose proof f64_unit_pos.
  split; [done|]. split; [done|]. simpl.
  apply f64_sub_int_exact; try done; [|lia]. rewrite Hce in Hcl. nia.
Qed.

(** *** Histories *)

Definition mono_ns (t : Time) : Z := default 0 (mono t).

(** Nanoseconds between the last refills of two states of a bucket. *)
Definition refill_span (tb tb' : TokenBucket) : Z :=
  mono_ns (lastRefill tb') - mono_ns (lastRefill tb).

(** The calls of a history without [Reset], at readings of the clock. *)
Definition admissible (cn : tb_call * Time) : Prop :=
  has_mono (snd cn) /\ fst cn <> CallReset.

Lemma refill_budget (tb : TokenBucket) (now : Time) :
  tb_wf tb -> has_mono now ->
  0 <= refill_span tb (refill tb now) /\
  2 ^ 50 * Second * f64_val (tokens (refill tb now)) <=
  2 ^ 50 * Second * f64_val (tokens tb) +
  2 ^ 50 * (f64_val (refillRate tb) * refill_span tb (refill tb now)) +
  3 * Second * f64_val (f64_of_Z (capacity tb)).
Proof.
  intros Hwf Hnow.
  assert (HC : 0 <= f64_val (f64_of_Z (capacity tb))).
  { apply f64_val_nonneg, cap_float, Hwf. }
  destruct (Z.le_gt_cases (time_sub now (lastRefill tb)) 0) as [Hi|Hp].
  - rewrite refill_idle by done. unfold refill_span, Second in *. lia.
  - pose proof (refill_growth tb now _ Hwf eq_refl ltac:(lia)) as Hg.
    assert (Hspan : 0 < time_sub now (lastRefill tb) <= refill_span tb (refill tb now)).
    { rewrite (refill_tokens tb now _ eq_refl) by lia.
      unfold refill_span, mono_ns. simpl.
      destruct Hnow as [m Em]. destruct (wf_time _ Hwf) as [l El].
      unfold time_sub in *. rewrite Em, El in *. simpl.
      unfold sat64, min_int64, max_int64 in *. lia. }
    destruct (wf_rate _ Hwf) as (_ & _ & Hr).
    assert (f64_val (refillRate tb) * time_sub now (lastRefill tb) <=
            f64_val (refillRate tb) * refill_span tb (refill tb now))
      by (apply Z.mul_le_mono_nonneg_l; lia).
    lia.
Qed.

Lemma tb_step_budget (tb : TokenBucket) (c : tb_call) (now : Time) :
  tb_wf tb -> capacity tb < 2 ^ 53 -> admissible (c, now) ->
  let '(k, tb') := tb_step tb c now in
  0 <= k /\ 0 <= refill_span tb tb' /\
  2 ^ 50 * Second * (k * f64_unit + f64_val (tokens tb')) <=
  2 ^ 50 * Second * f64_val (tokens tb) +
  2 ^ 50 * (f64_val (refillRate tb) * refill_span tb tb') +
  3 * Second * (capacity tb * f64_unit).
Proof.
  intros Hwf Hcap [Hnow Hc]. simpl in Hnow, Hc.
  pose proof (refill_budget tb now Hwf Hnow) as [Hsp Hb].
  rewrite (cap_exact tb Hwf ltac:(lia)) in Hb.
  destruct c as [n| |]; [|simpl; lia|done]. simpl tb_step.
  destruct (Z.le_gt_cases n 0) as [Hn|Hn].
  - unfold AllowN. rewrite (proj2 (Z.leb_le _ _) Hn), Z.max_l by done.
    pose proof f64_unit_pos. pose proof (wf_capacity _ Hwf).
    unfold refill_span, Second in *. nia.
  - pose proof (AllowN_exact tb n now Hwf Hnow Hcap Hn) as He. simpl in He.
    destruct (AllowN tb n now) as [ok tb'] eqn:EA.
    destruct He as (_ & Hl & Ht). unfold refill_span in *. rewrite Hl, Ht.
    split; [destruct ok; lia|]. split; [done|]. destruct ok; lia.
Qed.

Lemma tb_run_budget (tb : TokenBucket) (h : list (tb_call * Time)) :
  tb_wf tb -> capacity tb < 2 ^ 53 -> Forall admissible h ->
  let '(k, tb') := tb_run tb h in
  tb_wf tb' /\ 0 <= k /\ 0 <= refill_span tb tb' /\
  2 ^ 50 * Second * (k * f64_unit + f64_val (tokens tb')) <=
  2 ^ 50 * Second * f64_val (tokens tb) +
  2 ^ 50 * (f64_val (refillRate tb) * refill_span tb tb') +
  Z.of_nat (length h) * (3 * Second * (capacity tb * f64_unit)).
Proof.
  revert tb. induction h as [|[c now] h IH]; intros tb Hwf Hcap Hh; simpl tb_run.
  { unfold refill_span. simpl. split; [done|]. lia. }
  apply Forall_cons in Hh as [Hc Hh].
  pose proof (tb_step_budget tb c now Hwf Hcap Hc) as Hs.
  pose proof (tb_step_wf tb c now Hwf (proj1 Hc)) as Hwf1.
  pose proof (tb_step_static tb c now) as [Ecap Erate].
  destruct (tb_step tb c now) as [k tb1]. simpl in Hwf1, Ecap, Erate.
  specialize (IH tb1 Hwf1 ltac:(lia) Hh).
  destruct (tb_run tb1 h) as [k' tb2]. rewrite Ecap, Erate in IH.
  destruct Hs as (Hk & Hsp & Hs). destruct IH as (Hwf2 & Hk' & Hsp' & IH).
  split; [done|]. split; [lia|].
  assert (Esp : refill_span tb tb2 = refill_span tb tb1 + refill_span tb1 tb2)
    by (unfold refill_span; lia).
  split; [lia|]. rewrite Esp. simpl length. rewrite Nat2Z.inj_succ. lia.
Qed.

(** *** Truncation *)

Lemma tokens_to_int (tb : TokenBucket) :
  tb_wf tb -> capacity tb < 2 ^ 53 ->
  f64_to_int (tokens tb) = f64_val (tokens tb) / f64_unit /\
  0 <= f64_to_int (tokens tb) <= capacity tb.
Proof.
  intros Hwf Hcap. pose proof (cap_exact tb Hwf ltac:(lia)) as Hce.
  pose proof f64_unit_pos as Hu. destruct Hwf as [Hc _ [Ht Htf] Hcl _].
  rewrite Hce in Hcl. pose proof (f64_val_nonneg _ (proj2 Ht)).
  assert (Hq : 0 <= f64_val (tokens tb) / f64_unit <= capacity tb).
  { split; [apply Z.div_pos; lia|]. apply Z.div_le_upper_bound; lia. }
  assert (E : f64_to_int (tokens tb) = f64_val (tokens tb) / f64_unit).
  { unfold f64_to_int. rewrite f64_trunc_spec by done.
    rewrite (proj2 (in_int64_iff _)); [done|].
    unfold min_int64, max_int64 in *. lia. }
  rewrite E. done.
Qed.

(** *** Waiting *)

Lemma refill_reaches (tb : TokenBucket) (now : Time) (d n : Z) :
  tb_wf tb -> capacity tb < 2 ^ 53 -> 1 <= n <= capacity tb ->
  time_sub now (lastRefill tb) = d -> 0 < d ->
  2 ^ 49 * (Second * (n * f64_unit)) <=
    (2 ^ 49 - 1) * (f64_val (refillRate tb) * d) ->
  n * f64_unit <= f64_val (tokens (refill tb now)).
Proof.
  intros Hwf Hcap Hn Ed Hd Hwait. pose proof (elapsed_range _ _ _ Ed) as Hmax.
  pose proof (cap_exact tb Hwf ltac:(lia)) as Hce.
  rewrite (refill_tokens tb now d Ed Hd). simpl.
  destruct (refill_sum_cases tb d Hwf ltac:(lia)) as (Ha & Hra & Hs & Hcase).
  destruct Hwf as [Hc (Hr & Hrf & Hrp) [Ht Htf] Hcl _].
  destruct (clamp_spec tb _ Hc Hs) as (_ & _ & ->). rewrite Hce.
  destruct (dur_seconds_bounds d ltac:(lia)) as (_ & _ & _ & Hlo).
  pose proof f64_unit_pos as Hu.
  destruct (f64_of_Z_exact n ltac:(lia)) as [Hnv Hnf].
  apply Z.min_glb; [|nia].
  set (a := f64_mul (refillRate tb) (dur_seconds d)) in *.
  destruct Hcase as [Hsum|[_ ->]].
  - rewrite <- Hnv. apply (rounded_ge_float _ _ _ _ Z.lt_0_1 Hsum);
      [apply f64_of_Z_ok; lia|done|]. rewrite Hnv, Z.mul_1_r.
    pose proof (f64_val_nonneg _ (proj2 Ht)).
    destruct (f64_inf_or_finite a Ha) as [->|Haf].
    { pose proof (f64_val_finite_lt _ (f64_of_Z_ok n ltac:(lia)) Hnf) as Hlt.
      rewrite Hnv in Hlt. unfold f64_val at 2, cond_Zopp. lia. }
    pose proof (rounded_lower _ _ _ Hu Hra Haf) as Hal.
    pose proof (product_lower _ _ _ _ (Z.lt_le_incl _ _ Hrp) Hu Hlo Hal) as HA.
    assert (2 ^ 60 <= n * f64_unit).
    { assert (2 ^ 60 <= f64_unit) by (apply pow2_le; lia). nia. }
    unfold Second in *. lia.
  - pose proof (f64_val_finite_lt _ (f64_of_Z_ok n ltac:(lia)) Hnf) as Hlt.
    rewrite Hnv in Hlt. apply Z.lt_le_incl. done.
Qed.

(** *** A burst without refill *)

Fixpoint tb_allow_many (tb : TokenBucket) (nows : list Time) : list bool :=
  match nows with
  | [] => []
  | now :: nows => let '(ok, tb') := Allow tb now in
                   ok :: tb_allow_many tb' nows
  end.

Lemma burst_from (k : nat) (tb : TokenBucket) (nows : list Time) :
  tb_wf tb -> capacity tb < 2 ^ 53 ->
  Forall (fun now => has_mono now /\ time_sub now (lastRefill tb) <= 0) nows ->
  f64_val (tokens tb) = Z.of_nat k * f64_unit ->
  tb_allow_many tb nows =
  replicate (Nat.min k (length nows)) true ++
  replicate (length nows - k) false.
Proof.
  revert k tb. induction nows as [|now nows IH]; intros k tb Hwf Hcap Hall Hk.
  { by rewrite Nat.min_0_r. }
  apply Forall_cons in Hall as [[Hnow Hidle] Hall]. simpl tb_allow_many.
  pose proof (AllowN_exact tb 1 now Hwf Hnow Hcap ltac:(lia)) as He.
  pose proof (AllowN_wf tb 1 now Hwf Hnow) as Hwf'.
  pose proof (proj1 (tb_step_static tb (CallAllowN 1) now)) as Hc'. simpl in He, Hc'.
  rewrite refill_idle in He by done. unfold Allow.
  destruct (AllowN tb 1 now) as [ok tb']. simpl in Hwf', Hc'.
  destruct He as (Hok & Hl & Ht). pose proof f64_unit_pos. rewrite Hk in Hok, Ht.
  rewrite <- Hl in Hall. destruct k as [|k].
  - rewrite (proj2 (Z.leb_gt _ _)) in Hok by lia. subst ok.
    rewrite (IH 0%nat tb' Hwf' ltac:(lia) Hall) by lia. simpl.
    by rewrite Nat.sub_0_r.
  - rewrite (proj2 (Z.leb_le _ _)) in Hok by lia. subst ok.
    rewrite (IH k tb' Hwf' ltac:(lia) Hall); [done|]. lia.
Qed.

(** *** Fresh buckets *)

Lemma new_bucket_wf (cap : Z) (rate : float64) (now : Time) :
  1 <= cap <= max_int64 -> f64_pos_ok rate -> f64_finite rate = true ->
  0 < f64_val rate -> has_mono now ->
  tb_wf (mkTokenBucket cap rate (f64_of_Z cap) now).
Proof.
  intros Hc Hr Hf Hp Hnow. destruct (cap_float cap Hc) as (H1 & H2 & _).
  by split.
Qed.

Lemma integer_rate (rps : Z) :
  1 <= rps <= 2 ^ 53 ->
  f64_pos_ok (f64_of_Z rps) /\ f64_finite (f64_of_Z rps) = true /\
  f64_val (f64_of_Z rps) = rps * f64_unit /\ 0 < f64_val (f64_of_Z rps).
Proof.
  intros H. pose proof f64_unit_pos.
  destruct (f64_of_Z_exact rps) as [-> Hf]; [lia|].
  split; [apply f64_of_Z_ok; lia|]. split; [done|]. split; [done|]. nia.
Qed.

(** *** The rate of a history *)

Lemma rate_bound (tb : TokenBucket) (h : list (tb_call * Time)) :
  tb_wf tb -> capacity tb <= 2 ^ 20 -> f64_val (refillRate tb) <= 2 ^ 20 * f64_unit ->
  Forall admissible h -> Z.of_nat (length h) <= 2 ^ 28 ->
  fst (tb_run tb h) * Second * f64_unit <=
  (capacity tb + 1) * Second * f64_unit +
  f64_val (refillRate tb) * refill_span tb (snd (tb_run tb h)).
Proof.
  intros Hwf Hcap Hrate Hh Hlen.
  pose proof (tb_run_budget tb h Hwf ltac:(lia) Hh) as Hb.
  destruct (tb_run tb h) as [k tb']. simpl in *.
  destruct Hb as (Hwf' & Hk & Hsp & Hb).
  pose proof (wf_clamped _ Hwf) as Hcl. rewrite (cap_exact tb Hwf) in Hcl by lia.
  pose proof (f64_val_nonneg _ (proj2 (proj1 (wf_tokens _ Hwf')))).
  pose proof (wf_capacity _ Hwf) as Hc1. pose proof f64_unit_pos as Hu.
  destruct (wf_rate _ Hwf) as (_ & _ & Hr0).
  set (T := refill_span tb tb') in *. set (L := Z.of_nat (length h)) in *.
  set (R := f64_val (refillRate tb)) in *. assert (HL : 0 <= L) by lia.
  assert (L * (capacity tb * f64_unit) <= 2 ^ 28 * (2 ^ 20 * f64_unit))
    by (apply Z.mul_le_mono_nonneg; nia).
  unfold Second in *. lia.
Qed.

Lemma tb_run_snoc (tb : TokenBucket) (h : list (tb_call * Time)) (c : tb_call) (now : Time) :
  tb_run tb (h ++ [(c, now)]) =
  (fst (tb_run tb h) + fst (tb_step (snd (tb_run tb h)) c now),
   snd (tb_step (snd (tb_run tb h)) c now)).
Proof.
  revert tb. induction h as [|[c' now'] h IH]; intros tb; simpl.
  - destruct (tb_step tb c now) as [k tb']. cbn [fst snd]. by rewrite Z.add_0_r, Z.add_0_l.
  - destruct (tb_step tb c' now') as [k tb1]. rewrite IH.
    destruct (tb_run tb1 h) as [k' tb2]. cbn [fst snd]. by rewrite Z.add_assoc.
Qed.

(** The last refill of a bucket is one of the readings of its history. *)
Lemma tb_step_refill (tb : TokenBucket) (c : tb_call) (now : Time) :
  lastRefill (snd (tb_step tb c now)) = lastRefill tb \/
  lastRefill (snd (tb_step tb c now)) = now.
Proof.
  assert (Hr : lastRefill (refill tb now) = lastRefill tb \/ lastRefill (refill tb now) = now)
    by (unfold refill; destruct (_ <=? 0); auto).
  destruct c as [n| |]; cbn [tb_step].
  - unfold AllowN. destruct (n <=? 0); [by left|]. by destruct (f64_leb _ _).
  - unfold Tokens. exact Hr.
  - by right.
Qed.

Lemma tb_run_refill (tb : TokenBucket) (h : list (tb_call * Time)) :
  lastRefill (snd (tb_run tb h)) ∈ lastRefill tb :: h.*2.
Proof.
  revert tb. induction h as [|[c now] h IH]; intros tb; [simpl; left|].
  cbn [tb_run]. pose proof (tb_step_refill tb c now) as Hs.
  destruct (tb_step tb c now) as [k tb']. specialize (IH tb').
  destruct (tb_run tb' h) as [k' tb'']. cbn [fst snd] in *. rewrite fmap_cons. cbn [snd].
  apply elem_of_cons in IH as [->|IH]; [|by do 2 right].
  destruct Hs as [->| ->]; [by left|by right; left].
Qed.

(** ** Properties *)

(** C1: the rate limit.  Take a bucket whose refill rate is the integer [rps]
    (the gateway converts integer limits), with a capacity and a rate up to
    [2 ^ 20].  Over any history of up to [2 ^ 28] calls, at whatever readings
    of the clock, the number of tokens handed out is at most
    [capacity + rps * seconds + 1]: the binary64 roundings accumulate to less
    than one token, however long the history lasts. *)
Theorem token_bucket_rate_bound (tb : TokenBucket) (h : list (tb_call * Time)) (rps : Z) :
  tb_wf tb -> capacity tb <= 2 ^ 20 ->
  refillRate tb = f64_of_Z rps -> 1 <= rps <= 2 ^ 20 ->
  Forall admissible h -> Z.of_nat (length h) <= 2 ^ 28 ->
  fst (tb_run tb h) * Second <=
  capacity tb * Second + rps * refill_span tb (snd (tb_run tb h)) + Second.
Proof.
  intros Hwf Hcap Hrate Hrps Hh Hlen.
  destruct (integer_rate rps) as (_ & _ & Er & _); [lia|]. rewrite <- Hrate in Er.
  pose proof f64_unit_pos as Hu.
  pose proof (rate_bound tb h Hwf Hcap ltac:(rewrite Er; nia) Hh Hlen) as Hb.
  rewrite Er in Hb. apply (Z.mul_le_mono_pos_r _ _ f64_unit); [done|].
  unfold Second in *. lia.
Qed.

(** A history for the witnesses: five calls within three seconds. *)
Definition demo_bucket : TokenBucket :=
  mkTokenBucket 2 (f64_of_Z 1) (f64_of_Z 2) (clock 0 0).
Definition demo_history : list (tb_call * Time) :=
  [(CallAllowN 1, clock 0 5); (CallAllowN 2, clock 0 7); (CallTokens, clock 0 8);
   (CallAllowN 1, clock 0 (2 * Second)); (CallAllowN 1, clock 0 (3 * Second))].

Lemma demo_bucket_wf : tb_wf demo_bucket.
Proof.
  destruct (integer_rate 1) as (H1 & H2 & _ & H3); [lia|].
  apply new_bucket_wf; try done. by eexists.
Qed.

Lemma demo_history_admissible : Forall admissible demo_history.
Proof. repeat constructor; try (by eexists); done. Qed.

Lemma token_bucket_rate_bound_witness :
  fst (tb_run demo_bucket demo_history) * Second <=
  2 * Second + 1 * refill_span demo_bucket (snd (tb_run demo_bucket demo_history))
  + Second.
Proof.
  apply (token_bucket_rate_bound demo_bucket demo_history 1).
  - apply demo_bucket_wf.
  - simpl. lia.
  - reflexivity.
  - lia.
  - apply demo_history_admissible.
  - simpl. lia.
Defined.

(** C3: the bucket's invariant.  Every method keeps a bucket well formed: the
    capacity and the rate do not change, the tokens stay a finite number
    between 0 and the capacity (never negative, never above it, never a NaN),
    and the count [Tokens] reports is between 0 and the capacity. *)
Theorem token_bucket_invariant (tb : TokenBucket) (c : tb_call) (now : Time) :
  tb_wf tb -> capacity tb < 2 ^ 53 -> has_mono now ->
  let tb' := snd (tb_step tb c now) in
  tb_wf tb' /\ capacity tb' = capacity tb /\ refillRate tb' = refillRate tb /\
  0 <= f64_val (tokens tb') <= capacity tb * f64_unit /\
  0 <= fst (Tokens tb now) <= capacity tb.
Proof.
  intros Hwf Hcap Hnow tb'.
  assert (Hwf' : tb_wf tb') by (by apply tb_step_wf).
  destruct (tb_step_static tb c now) as [Ec Er]. fold tb' in Ec, Er.
  split; [done|]. split; [done|]. split; [done|]. split.
  - pose proof (wf_clamped _ Hwf') as Hcl.
    rewrite (cap_exact tb' Hwf'), Ec in Hcl by lia. split; [|done].
    apply f64_val_nonneg, (wf_tokens _ Hwf').
  - destruct (tb_step_static tb CallTokens now) as [Ec' _].
    pose proof (tokens_to_int (refill tb now) (refill_wf _ _ Hwf Hnow)) as Ht.
    simpl in Ec' |- *. rewrite Ec' in Ht. apply Ht. done.
Qed.

Lemma token_bucket_invariant_witness :
  0 <= fst (Tokens demo_bucket (clock 0 5)) <= 2.
Proof.
  apply (token_bucket_invariant demo_bucket CallTokens (clock 0 5)).
  - apply demo_bucket_wf.
  - simpl. lia.
  - by eexists.
Defined.

(** C2: the decision of [AllowN].  For [n >= 1] the call grants the request
    exactly when the refilled bucket holds at least [n] tokens, and then
    removes exactly [n] of them: the binary64 subtraction loses nothing.  The
    decision agrees with the count [Tokens] reports at the same reading of
    the clock. *)
Theorem token_bucket_decision (tb : TokenBucket) (n : Z) (now : Time) :
  tb_wf tb -> has_mono now -> capacity tb < 2 ^ 53 -> 1 <= n ->
  let r := refill tb now in
  let '(ok, tb') := AllowN tb n now in
  (ok = true <-> n * f64_unit <= f64_val (tokens r)) /\
  f64_val (tokens tb') = f64_val (tokens r) - (if ok then n * f64_unit else 0) /\
  (ok = true <-> n <= fst (Tokens tb now)).
Proof.
  intros Hwf Hnow Hcap Hn r.
  pose proof (AllowN_exact tb n now Hwf Hnow Hcap ltac:(lia)) as He. simpl in He.
  fold r in He. destruct (AllowN tb n now) as [ok tb']. destruct He as (-> & _ & Ht).
  rewrite Z.leb_le. split; [done|]. split; [done|].
  destruct (tb_step_static tb CallTokens now) as [Ec' _]. simpl in Ec'.
  destruct (tokens_to_int r (refill_wf _ _ Hwf Hnow)) as [E _]; [unfold r; lia|].
  unfold Tokens. fold r. simpl. rewrite E. pose proof f64_unit_pos.
  split; intros H1.
  - apply Z.div_le_lower_bound; lia.
  - pose proof (Z.mul_div_le (f64_val (tokens r)) f64_unit ltac:(lia)). nia.
Qed.

Lemma token_bucket_decision_witness :
  fst (AllowN demo_bucket 2 (clock 0 7)) = true <->
  2 <= fst (Tokens demo_bucket (clock 0 7)).
Proof.
  pose proof (token_bucket_decision demo_bucket 2 (clock 0 7) demo_bucket_wf
    ltac:(by eexists) ltac:(simpl; lia) ltac:(lia)) as H.
  cbv zeta in H. destruct (AllowN demo_bucket 2 (clock 0 7)). apply H.
Defined.

(** A burst.  While the clock does not advance past the last refill, a
    full bucket grants exactly its capacity of single requests and rejects
    all the following ones. *)
Theorem token_bucket_burst (tb : TokenBucket) (nows : list Time) :
  tb_wf tb -> capacity tb < 2 ^ 53 -> tokens tb = f64_of_Z (capacity tb) ->
  Forall (fun now => has_mono now /\ time_sub now (lastRefill tb) <= 0) nows ->
  let c := Z.to_nat (capacity tb) in
  tb_allow_many tb nows =
  replicate (Nat.min c (length nows)) true ++ replicate (length nows - c) false.
Proof.
  intros Hwf Hcap Hfull Hall c. apply burst_from; try done.
  pose proof (wf_capacity _ Hwf). unfold c.
  rewrite Hfull, (cap_exact tb Hwf), Z2Nat.id by lia. done.
Qed.

Lemma token_bucket_burst_witness :
  tb_allow_many demo_bucket [clock 0 0; clock 0 0; clock 0 0] = [true; true; false].
Proof.
  apply (token_bucket_burst demo_bucket [clock 0 0; clock 0 0; clock 0 0]).
  - apply demo_bucket_wf.
  - simpl. lia.
  - reflexivity.
  - repeat constructor; try (by eexists); done.
Defined.

(** C20: progress.  A client that waits long enough is served: once the time
    elapsed since the last refill is worth [n] tokens at the refill rate (up
    to one part in [2 ^ 49]), a request for [n] tokens, within the capacity,
    is granted whatever the state of the bucket. *)
Theorem token_bucket_progress (tb : TokenBucket) (now : Time) (n : Z) :
  tb_wf tb -> capacity tb < 2 ^ 53 -> has_mono now -> 1 <= n <= capacity tb ->
  let d := time_sub now (lastRefill tb) in
  2 ^ 49 * (Second * (n * f64_unit)) <=
    (2 ^ 49 - 1) * (f64_val (refillRate tb) * d) ->
  fst (AllowN tb n now) = true.
Proof.
  intros Hwf Hcap Hnow Hn d Hwait.
  destruct (wf_rate _ Hwf) as (_ & _ & Hr). pose proof f64_unit_pos.
  assert (Hd : 0 < d) by (unfold Second in Hwait; nia).
  pose proof (refill_reaches tb now d n Hwf Hcap Hn eq_refl Hd Hwait) as Hreach.
  pose proof (AllowN_exact tb n now Hwf Hnow Hcap ltac:(lia)) as He. simpl in He.
  destruct (AllowN tb n now) as [ok tb']. destruct He as (-> & _). simpl.
  by apply Z.leb_le.
Qed.

Lemma token_bucket_progress_witness :
  fst (AllowN (mkTokenBucket 2 (f64_of_Z 1) (S754_zero false) (clock 0 0)) 1
              (clock 0 (Second + 1))) = true.
Proof.
  apply (token_bucket_progress
    (mkTokenBucket 2 (f64_of_Z 1) (S754_zero false) (clock 0 0))).
  - destruct (integer_rate 1) as (H1 & H2 & _ & H3); [lia|].
    split; try done; by eexists.
  - simpl. lia.
  - by eexists.
  - simpl. lia.
  - vm_compute. discriminate.
Defined.

(** The constructor.  [NewTokenBucket] panics on a capacity below 1 and on
    a rate that is zero or negative; otherwise it returns a full, well-formed
    bucket when the rate is a positive finite number.  A NaN rate, which is
    not a positive number, passes the check [refillRate <= 0]. *)
Theorem new_token_bucket_spec (cap : Z) (rate : float64) (now : Time) :
  cap <= max_int64 -> has_mono now ->
  (cap < 1 -> NewTokenBucket cap rate now = Panic "limiter: capacity must be >= 1") /\
  (1 <= cap -> f64_leb rate (f64_of_Z 0) = true ->
     NewTokenBucket cap rate now = Panic "limiter: refillRate must be > 0") /\
  (1 <= cap -> f64_pos_ok rate -> f64_finite rate = true -> 0 < f64_val rate ->
     exists tb, NewTokenBucket cap rate now = Return tb /\ tb_wf tb /\
       capacity tb = cap /\ refillRate tb = rate /\ tokens tb = f64_of_Z cap) /\
  (1 <= cap -> exists tb, NewTokenBucket cap S754_nan now = Return tb).
Proof.
  intros Hmax Hnow. unfold NewTokenBucket. repeat split.
  - intros H. by rewrite (proj2 (Z.ltb_lt _ _) H).
  - intros H Hr. by rewrite (proj2 (Z.ltb_ge _ _) H), Hr.
  - intros H Hr Hf Hp. rewrite (proj2 (Z.ltb_ge _ _) H).
    rewrite f64_leb_spec, (proj2 (Z.leb_gt _ _)) by done.
    eexists. split; [done|]. split; [by apply new_bucket_wf|done].
  - intros H. rewrite (proj2 (Z.ltb_ge _ _) H). by eexists.
Qed.

Lemma new_token_bucket_spec_witness :
  NewTokenBucket 0 (f64_of_Z 1) (clock 0 0) = Panic "limiter: capacity must be >= 1".
Proof.
  apply (new_token_bucket_spec 0 (f64_of_Z 1) (clock 0 0)).
  - unfold max_int64. lia.
  - by eexists.
  - lia.
Defined.
