(* ===== verification/Limiter.v ===== *)
(** * [internal/ratelimit/ratelimit.go]: the interface of the rate limiters

    The class [Limiter] is the Go interface of that name.  A call takes the
    readings of the clock it makes, indexed by the place in the code that
    makes them, and returns its result, or a panic, together with the state
    of the limiter after it.  [MemoryLimiter] and [RedisLimiter] give
    the instances; [Middleware] is written against the class. *)
From S2P Require Import Prelude GoTime Float64 GoError.

(** [Config]. *)
Record Config := mkConfig {
  TokensPerSecond : float64;
  BurstSize : Z;
  CleanupInterval : Z;
}.

(** The readings of the clock made by one call. *)
Definition readings := nat -> Time.

Class Limiter (L : Type) := {
  limiter_Allow : L -> string -> readings -> outcome (bool * option error) * L;
  limiter_Tokens : L -> string -> readings -> outcome (Z * option error) * L;
  limiter_Reset : L -> string -> outcome (option error) * L;
  limiter_SetLimit : L -> string -> Z -> float64 -> readings -> outcome (option error) * L;
  limiter_Close : L -> option error * L;
}.
