(* ===== verification/MemoryLimiter.v ===== *)
(** * [internal/ratelimit/memory_limiter.go]: the in-memory limiter

    The map [buckets] holds pointers to token buckets.  A caller keeps the
    pointer it got from [getOrCreateBucket] after the mutex is released, and
    the entry can be replaced or dropped in between, so the buckets live in
    a store of their own, [heap], addressed by [nat]; a bucket is never
    freed.  The first part gives the methods run alone, with the panics of
    [NewTokenBucket]; [ml_sys] is the system of concurrent calls, where
    [AllowN] is two atomic steps. *)
From S2P Require Import Prelude GoTime Float64 Float64Facts GoError TokenBucket Limiter.

Record bucketEntry := mkBucketEntry { bucket : nat; lastUsed : Time }.

Record MemoryLimiter := mkMemoryLimiter {
  buckets : gmap string bucketEntry;
  config : Config;
  heap : gmap nat TokenBucket;
  next : nat;                 (* the address of the next bucket *)
  stopped : bool;             (* [stop] is closed *)
}.

Definition set_buckets (m : MemoryLimiter) (b : gmap string bucketEntry) : MemoryLimiter :=
  mkMemoryLimiter b (config m) (heap m) (next m) (stopped m).
Definition set_heap (m : MemoryLimiter) (l : nat) (tb : TokenBucket) : MemoryLimiter :=
  mkMemoryLimiter (buckets m) (config m) (<[l := tb]> (heap m)) (next m) (stopped m).

(** [NewMemoryLimiter]. *)
Definition NewMemoryLimiter (c : Config) : MemoryLimiter :=
  let interval := if CleanupInterval c <=? 0 then Second else CleanupInterval c in
  mkMemoryLimiter ∅ (mkConfig (TokensPerSecond c) (BurstSize c) interval) ∅ 0 false.

(** [&bucketEntry{bucket: limiter.NewTokenBucket(...), lastUsed: time.Now()}]
    stored for [id]: the constructor reads the clock first. *)
Definition put_new (m : MemoryLimiter) (id : string) (burst : Z) (rps : float64)
    (rd : readings) : outcome nat * MemoryLimiter :=
  match NewTokenBucket burst rps (rd 0%nat) with
  | Panic msg => (Panic msg, m)
  | Return tb =>
      let l := next m in
      (Return l,
       mkMemoryLimiter (<[id := mkBucketEntry l (rd 1%nat)]> (buckets m)) (config m)
         (<[l := tb]> (heap m)) (S l) (stopped m))
  end.

Definition getOrCreateBucket (m : MemoryLimiter) (id : string) (rd : readings)
  : outcome nat * MemoryLimiter :=
  match buckets m !! id with
  | None => put_new m id (BurstSize (config m)) (TokensPerSecond (config m)) rd
  | Some e =>
      (Return (bucket e),
       set_buckets m (<[id := mkBucketEntry (bucket e) (rd 1%nat)]> (buckets m)))
  end.

(** [bucket.AllowN(n)] through the pointer. *)
Definition heap_AllowN (m : MemoryLimiter) (l : nat) (n : Z) (now : Time)
  : outcome bool * MemoryLimiter :=
  match heap m !! l with
  | None => (Panic "nil pointer dereference", m)
  | Some tb => let '(ok, tb') := AllowN tb n now in (Return ok, set_heap m l tb')
  end.

(** [AllowN] run alone. *)
Definition ml_AllowN (m : MemoryLimiter) (id : string) (n : Z) (rd : readings)
  : outcome (bool * option error) * MemoryLimiter :=
  match getOrCreateBucket m id rd with
  | (Panic msg, m) => (Panic msg, m)
  | (Return l, m) =>
      match heap_AllowN m l n (rd 2%nat) with
      | (Panic msg, m) => (Panic msg, m)
      | (Return ok, m) => (Return (ok, None), m)
      end
  end.

Definition ml_Allow (m : MemoryLimiter) (id : string) (rd : readings)
  : outcome (bool * option error) * MemoryLimiter := ml_AllowN m id 1 rd.

Definition ml_Tokens (m : MemoryLimiter) (id : string) (rd : readings)
  : outcome (Z * option error) * MemoryLimiter :=
  match buckets m !! id with
  | None => (Return (BurstSize (config m), None), m)
  | Some e =>
      match heap m !! bucket e with
      | None => (Panic "nil pointer dereference", m)
      | Some tb => let '(k, tb') := Tokens tb (rd 0%nat) in
                   (Return (k, None), set_heap m (bucket e) tb')
      end
  end.

Definition ml_Reset (m : MemoryLimiter) (id : string)
  : outcome (option error) * MemoryLimiter :=
  (Return None, set_buckets m (delete id (buckets m))).

Definition ml_SetLimit (m : MemoryLimiter) (id : string) (burst : Z) (rps : float64)
    (rd : readings) : outcome (option error) * MemoryLimiter :=
  match put_new m id burst rps rd with
  | (Panic msg, m) => (Panic msg, m)
  | (Return _, m) => (Return None, m)
  end.

Definition ml_Close (m : MemoryLimiter) : option error * MemoryLimiter :=
  (None, mkMemoryLimiter (buckets m) (config m) (heap m) (next m) true).

(** [cleanup]: entries last used before [now - 2 * CleanupInterval] go. *)
Definition idle_threshold (m : MemoryLimiter) (now : Time) : Time :=
  time_add now (wrap64 (-2 * CleanupInterval (config m))).

Definition cleanup (m : MemoryLimiter) (now : Time) : MemoryLimiter :=
  set_buckets m (filter (fun ke => time_before (lastUsed ke.2) (idle_threshold m now) = false)
                        (buckets m)).

#[export] Instance memory_limiter : Limiter MemoryLimiter := {
  limiter_Allow := ml_Allow;
  limiter_Tokens := ml_Tokens;
  limiter_Reset := ml_Reset;
  limiter_SetLimit := ml_SetLimit;
  limiter_Close := ml_Close;
}.

(** ** The specification: one bucket per client, no pointers *)

Abbreviation ml_spec := (gmap string (TokenBucket * Time)).

Definition spec_AllowN (c : Config) (s : ml_spec) (id : string) (n : Z) (rd : readings)
  : outcome (bool * option error) * ml_spec :=
  match match s !! id with
        | Some (tb, _) => Return tb
        | None => NewTokenBucket (BurstSize c) (TokensPerSecond c) (rd 0%nat)
        end with
  | Panic msg => (Panic msg, s)
  | Return tb => let '(ok, tb') := AllowN tb n (rd 2%nat) in
                 (Return (ok, None), <[id := (tb', rd 1%nat)]> s)
  end.

Definition spec_Tokens (c : Config) (s : ml_spec) (id : string) (rd : readings)
  : outcome (Z * option error) * ml_spec :=
  match s !! id with
  | Some (tb, u) => let '(k, tb') := Tokens tb (rd 0%nat) in
                    (Return (k, None), <[id := (tb', u)]> s)
  | None => (Return (BurstSize c, None), s)
  end.

Definition spec_SetLimit (s : ml_spec) (id : string) (burst : Z) (rps : float64)
    (rd : readings) : outcome (option error) * ml_spec :=
  match NewTokenBucket burst rps (rd 0%nat) with
  | Panic msg => (Panic msg, s)
  | Return tb => (Return None, <[id := (tb, rd 1%nat)]> s)
  end.

Definition spec_cleanup (c : Config) (s : ml_spec) (now : Time) : ml_spec :=
  filter (fun kv => time_before kv.2.2 (time_add now (wrap64 (-2 * CleanupInterval c))) = false) s.

(** The operations and their results, for sequences of calls. *)
Inductive ml_op :=
  | OpAllowN (id : string) (n : Z) (rd : readings)
  | OpTokens (id : string) (rd : readings)
  | OpReset (id : string)
  | OpSetLimit (id : string) (burst : Z) (rps : float64) (rd : readings)
  | OpCleanup (now : Time).

Inductive ml_reply :=
  | RBool (r : outcome (bool * option error))
  | RInt (r : outcome (Z * option error))
  | RErr (r : outcome (option error))
  | RDone.

Definition ml_do (m : MemoryLimiter) (op : ml_op) : ml_reply * MemoryLimiter :=
  match op with
  | OpAllowN id n rd => let '(r, m') := ml_AllowN m id n rd in (RBool r, m')
  | OpTokens id rd => let '(r, m') := ml_Tokens m id rd in (RInt r, m')
  | OpReset id => let '(r, m') := ml_Reset m id in (RErr r, m')
  | OpSetLimit id b r rd => let '(r, m') := ml_SetLimit m id b r rd in (RErr r, m')
  | OpCleanup now => (RDone, cleanup m now)
  end.

Definition spec_do (c : Config) (s : ml_spec) (op : ml_op) : ml_reply * ml_spec :=
  match op with
  | OpAllowN id n rd => let '(r, s') := spec_AllowN c s id n rd in (RBool r, s')
  | OpTokens id rd => let '(r, s') := spec_Tokens c s id rd in (RInt r, s')
  | OpReset id => (RErr (Return None), delete id s)
  | OpSetLimit id b r rd => let '(r, s') := spec_SetLimit s id b r rd in (RErr r, s')
  | OpCleanup now => (RDone, spec_cleanup c s now)
  end.

Section run.
Context {M : Type} (step : M -> ml_op -> ml_reply * M).
(** The replies of a sequence of operations. *)
Fixpoint replies (m : M) (ops : list ml_op) : list ml_reply :=
  match ops with
  | [] => []
  | op :: ops => let '(r, m') := step m op in r :: replies m' ops
  end.
End run.

(** ** Well-formed limiters, and what they represent *)

Record ml_wf (m : MemoryLimiter) : Prop := {
  mlwf_entry id e : buckets m !! id = Some e -> is_Some (heap m !! bucket e);
  mlwf_inj id id' e e' : buckets m !! id = Some e -> buckets m !! id' = Some e' ->
    bucket e = bucket e' -> id = id';
  mlwf_next l tb : heap m !! l = Some tb -> (l < next m)%nat;
}.

(** The bucket behind an entry. *)
Definition deref (m : MemoryLimiter) (e : bucketEntry) : option (TokenBucket * Time) :=
  tb ← heap m !! bucket e; Some (tb, lastUsed e).

Definition represents (m : MemoryLimiter) (s : ml_spec) : Prop :=
  ml_wf m /\ forall id, s !! id = (e ← buckets m !! id; deref m e).

Lemma represents_some (m : MemoryLimiter) (s : ml_spec) (id : string) (e : bucketEntry) :
  represents m s -> buckets m !! id = Some e ->
  exists tb, heap m !! bucket e = Some tb /\ s !! id = Some (tb, lastUsed e).
Proof.
  intros [Hwf Hs] He. destruct (mlwf_entry _ Hwf _ _ He) as [tb Htb].
  exists tb. split; [done|]. rewrite Hs, He. simpl. unfold deref. by rewrite Htb.
Qed.

Lemma represents_none (m : MemoryLimiter) (s : ml_spec) (id : string) :
  represents m s -> buckets m !! id = None -> s !! id = None.
Proof. intros [_ Hs] He. by rewrite Hs, He. Qed.

Lemma represents_new (c : Config) : represents (NewMemoryLimiter c) ∅.
Proof. split; [split; simpl; intros *; by rewrite lookup_empty|]. done. Qed.

(** Storing a new bucket for [id]. *)
Lemma represents_alloc (m : MemoryLimiter) (s : ml_spec) (id : string) tb u :
  represents m s ->
  represents
    (mkMemoryLimiter (<[id := mkBucketEntry (next m) u]> (buckets m)) (config m)
       (<[next m := tb]> (heap m)) (S (next m)) (stopped m))
    (<[id := (tb, u)]> s).
Proof.
  intros [Hwf Hs].
  assert (Hold : forall i e, buckets m !! i = Some e -> bucket e <> next m).
  { intros i e He. destruct (mlwf_entry _ Hwf _ _ He) as [tb' Htb].
    pose proof (mlwf_next _ Hwf _ _ Htb). lia. }
  split; [split|]; simpl.
  - intros i e. rewrite lookup_insert. case_decide.
    + intros [= <-]. simpl. rewrite lookup_insert_eq. by eexists.
    + intros He. rewrite lookup_insert_ne by (symmetry; by eapply Hold).
      by eapply (mlwf_entry _ Hwf).
  - intros i i' e e'. rewrite !lookup_insert.
    repeat case_decide; try congruence.
    + intros [= <-] He' E. simpl in E. exfalso. by eapply Hold.
    + intros He [= <-] E. simpl in E. exfalso. by eapply Hold.
    + apply (mlwf_inj _ Hwf).
  - intros l tb'. rewrite lookup_insert. case_decide; [lia|].
    intros Hl. pose proof (mlwf_next _ Hwf _ _ Hl). lia.
  - intros i. destruct (decide (id = i)) as [<-|E].
    + rewrite !lookup_insert_eq. unfold deref. simpl.
      by rewrite lookup_insert_eq.
    + rewrite lookup_insert_ne, lookup_insert_ne, Hs by done. destruct (buckets m !! i) as [e|] eqn:He; [|done].
      simpl. unfold deref. simpl. rewrite lookup_insert_ne; [done|].
      symmetry. by eapply Hold.
Qed.

(** Writing the entry of [id], keeping its bucket's address. *)
Lemma represents_update (m : MemoryLimiter) (s : ml_spec) (id : string) e tb u :
  represents m s -> buckets m !! id = Some e ->
  represents (set_heap (set_buckets m (<[id := mkBucketEntry (bucket e) u]> (buckets m)))
                       (bucket e) tb)
             (<[id := (tb, u)]> s).
Proof.
  intros [Hwf Hs] He. split; [split|]; simpl.
  - intros i e' He'. rewrite lookup_insert. case_decide; [by eexists|].
    rewrite lookup_insert in He'. case_decide; [by simplify_eq|].
    by apply (mlwf_entry _ Hwf i).
  - intros i i' e1 e2. rewrite !lookup_insert.
    repeat case_decide; try congruence; intros.
    + simplify_eq. by eapply (mlwf_inj _ Hwf).
    + simplify_eq. by eapply (mlwf_inj _ Hwf).
    + by eapply (mlwf_inj _ Hwf).
  - intros l tb'. rewrite lookup_insert. case_decide as E.
    + intros _. subst l. destruct (mlwf_entry _ Hwf _ _ He) as [tb0 H0].
      by apply (mlwf_next _ Hwf) in H0.
    + apply (mlwf_next _ Hwf).
  - intros i. destruct (decide (id = i)) as [<-|E].
    + rewrite lookup_insert_eq, lookup_insert_eq. unfold deref. simpl.
      by rewrite lookup_insert_eq.
    + rewrite lookup_insert_ne, lookup_insert_ne, Hs by done. destruct (buckets m !! i) as [e'|] eqn:He'; [|done].
      simpl. unfold deref. simpl. rewrite lookup_insert_ne; [done|].
      intros Eb. by apply E, (mlwf_inj _ Hwf _ _ _ _ He He').
Qed.

(** Dropping entries. *)
Lemma represents_sub (m : MemoryLimiter) (s s' : ml_spec) (b : gmap string bucketEntry) :
  represents m s ->
  (forall id, b !! id = buckets m !! id /\ s' !! id = s !! id \/
              b !! id = None /\ s' !! id = None) ->
  represents (set_buckets m b) s'.
Proof.
  intros [Hwf Hs] Hsub.
  assert (Hb : forall id e, b !! id = Some e -> buckets m !! id = Some e).
  { intros id e He. destruct (Hsub id) as [[<- _]|[E _]]; congruence. }
  split; [split|]; simpl.
  - intros id e He. by apply (mlwf_entry _ Hwf id), Hb.
  - intros id id' e e' He He'. apply (mlwf_inj _ Hwf); by apply Hb.
  - apply (mlwf_next _ Hwf).
  - intros id. destruct (Hsub id) as [[E ->]|[-> ->]]; [|done].
    rewrite Hs, <- E. done.
Qed.

(** Running a bucket's method through the pointer. *)
Lemma heap_update_twice (m : MemoryLimiter) (id : string) (l : nat) u' tb tb' :
  set_heap (mkMemoryLimiter (<[id := mkBucketEntry l u']> (buckets m)) (config m)
              (<[l := tb]> (heap m)) (S (next m)) (stopped m)) l tb' =
  mkMemoryLimiter (<[id := mkBucketEntry l u']> (buckets m)) (config m)
              (<[l := tb']> (heap m)) (S (next m)) (stopped m).
Proof. unfold set_heap. simpl. by rewrite insert_insert_eq. Qed.

Lemma AllowN_refines (m : MemoryLimiter) (s : ml_spec) (id : string) (n : Z) (rd : readings) :
  represents m s ->
  fst (ml_AllowN m id n rd) = fst (spec_AllowN (config m) s id n rd) /\
  represents (snd (ml_AllowN m id n rd)) (snd (spec_AllowN (config m) s id n rd)).
Proof.
  intros Hr. unfold ml_AllowN, getOrCreateBucket, spec_AllowN, put_new.
  destruct (buckets m !! id) as [e|] eqn:He.
  - destruct (represents_some m s id e Hr He) as (tb & Htb & ->).
    unfold heap_AllowN. simpl. rewrite Htb.
    destruct (AllowN tb n (rd 2%nat)) as [ok tb']. split; [done|].
    by apply (represents_update m s id e tb').
  - rewrite (represents_none m s id Hr He).
    destruct (NewTokenBucket _ _ _) as [tb|msg]; [|done].
    unfold heap_AllowN. simpl. rewrite lookup_insert_eq.
    destruct (AllowN tb n (rd 2%nat)) as [ok tb']. split; [done|]. simpl.
    rewrite (heap_update_twice m id (next m) (rd 1%nat)). by apply represents_alloc.
Qed.

Lemma set_heap_entry (m : MemoryLimiter) (id : string) (e : bucketEntry) tb :
  buckets m !! id = Some e ->
  set_heap m (bucket e) tb =
  set_heap (set_buckets m (<[id := mkBucketEntry (bucket e) (lastUsed e)]> (buckets m)))
           (bucket e) tb.
Proof.
  intros He. unfold set_heap. simpl. f_equal. rewrite insert_id; [done|].
  rewrite He. by destruct e.
Qed.

Lemma Tokens_refines (m : MemoryLimiter) (s : ml_spec) (id : string) (rd : readings) :
  represents m s ->
  fst (ml_Tokens m id rd) = fst (spec_Tokens (config m) s id rd) /\
  represents (snd (ml_Tokens m id rd)) (snd (spec_Tokens (config m) s id rd)).
Proof.
  intros Hr. unfold ml_Tokens, spec_Tokens. destruct (buckets m !! id) as [e|] eqn:He.
  - destruct (represents_some m s id e Hr He) as (tb & -> & ->).
    destruct (Tokens tb (rd 0%nat)) as [k tb']. split; [done|]. simpl.
    rewrite (set_heap_entry m id) by done. by apply represents_update.
  - by rewrite (represents_none m s id Hr He).
Qed.

Lemma SetLimit_refines (m : MemoryLimiter) (s : ml_spec) (id : string) b r (rd : readings) :
  represents m s ->
  fst (ml_SetLimit m id b r rd) = fst (spec_SetLimit s id b r rd) /\
  represents (snd (ml_SetLimit m id b r rd)) (snd (spec_SetLimit s id b r rd)).
Proof.
  intros Hr. unfold ml_SetLimit, spec_SetLimit, put_new.
  destruct (NewTokenBucket b r (rd 0%nat)); [|done].
  split; [done|]. by apply represents_alloc.
Qed.

Lemma cleanup_refines (m : MemoryLimiter) (s : ml_spec) (now : Time) :
  represents m s -> represents (cleanup m now) (spec_cleanup (config m) s now).
Proof.
  intros Hr. apply (represents_sub m s); [done|]. intros id. unfold idle_threshold, spec_cleanup.
  rewrite !map_lookup_filter. destruct (buckets m !! id) as [e|] eqn:He.
  - destruct (represents_some m s id e Hr He) as (tb & _ & ->). simpl.
    case_guard; [by left|by right].
  - rewrite (represents_none m s id Hr He). by left.
Qed.

Lemma ml_do_refines (m : MemoryLimiter) (s : ml_spec) (op : ml_op) :
  represents m s ->
  fst (ml_do m op) = fst (spec_do (config m) s op) /\
  represents (snd (ml_do m op)) (snd (spec_do (config m) s op)).
Proof.
  intros Hr. destruct op as [id n rd|id rd|id|id b r rd|now]; simpl.
  - pose proof (AllowN_refines m s id n rd Hr) as [H1 H2].
    destruct (ml_AllowN m id n rd), (spec_AllowN (config m) s id n rd).
    simpl in *. by rewrite H1.
  - pose proof (Tokens_refines m s id rd Hr) as [H1 H2].
    destruct (ml_Tokens m id rd), (spec_Tokens (config m) s id rd).
    simpl in *. by rewrite H1.
  - split; [done|]. apply (represents_sub m s); [done|]. intros id'.
    destruct (decide (id = id')) as [<-|E].
    + right. by rewrite !lookup_delete_eq.
    + left. by rewrite !lookup_delete_ne.
  - pose proof (SetLimit_refines m s id b r rd Hr) as [H1 H2].
    destruct (ml_SetLimit m id b r rd), (spec_SetLimit s id b r rd).
    simpl in *. by rewrite H1.
  - split; [done|]. by apply cleanup_refines.
Qed.

Lemma put_new_config (m : MemoryLimiter) id b r rd : config (snd (put_new m id b r rd)) = config m.
Proof. unfold put_new. by destruct (NewTokenBucket _ _ _). Qed.

Lemma get_config (m : MemoryLimiter) id rd : config (snd (getOrCreateBucket m id rd)) = config m.
Proof.
  unfold getOrCreateBucket. destruct (buckets m !! id); [done|]. apply put_new_config.
Qed.

Lemma heap_AllowN_config (m : MemoryLimiter) l n now :
  config (snd (heap_AllowN m l n now)) = config m.
Proof.
  unfold heap_AllowN. destruct (heap m !! l) as [tb|]; [|done]. by destruct (AllowN tb n now).
Qed.

Lemma ml_do_config (m : MemoryLimiter) (op : ml_op) : config (snd (ml_do m op)) = config m.
Proof.
  destruct op as [id n rd|id rd|id|id b r rd|now]; simpl; try done.
  - unfold ml_AllowN. rewrite <- (get_config m id rd).
    destruct (getOrCreateBucket m id rd) as [[l|] m']; [|done]. simpl.
    rewrite <- (heap_AllowN_config m' l n (rd 2%nat)).
    by destruct (heap_AllowN m' l n _) as [[ok|] m''].
  - unfold ml_Tokens. destruct (buckets m !! id) as [e|]; [|done].
    destruct (heap m !! bucket e) as [tb|]; [|done]. by destruct (Tokens tb _).
  - unfold ml_SetLimit. rewrite <- (put_new_config m id b r rd).
    by destruct (put_new m id b r rd) as [[l|] m'].
Qed.

Lemma replies_refine (m : MemoryLimiter) (s : ml_spec) (ops : list ml_op) :
  represents m s -> replies ml_do m ops = replies (spec_do (config m)) s ops.
Proof.
  revert m s. induction ops as [|op ops IH]; intros m s Hr; [done|]. simpl.
  pose proof (ml_do_refines m s op Hr) as [H1 H2].
  pose proof (ml_do_config m op) as Hc.
  destruct (ml_do m op) as [r m'], (spec_do (config m) s op) as [r' s']. simpl in *.
  rewrite H1, <- Hc. f_equal. by apply IH.
Qed.

(** ** Clients are independent *)

Definition concerns (id : string) (op : ml_op) : bool :=
  match op with
  | OpAllowN i _ _ | OpTokens i _ | OpReset i | OpSetLimit i _ _ _ => bool_decide (i = id)
  | OpCleanup _ => true
  end.

(** The replies to the operations of one client (and the cleanups). *)
Section replies_of.
Context {M : Type} (step : M -> ml_op -> ml_reply * M) (id : string).
Fixpoint replies_of (m : M) (ops : list ml_op) : list ml_reply :=
  match ops with
  | [] => []
  | op :: ops => let '(r, m') := step m op in
                 if concerns id op then r :: replies_of m' ops else replies_of m' ops
  end.
End replies_of.

Lemma replies_of_refine (m : MemoryLimiter) (s : ml_spec) (id : string) (ops : list ml_op) :
  represents m s -> replies_of ml_do id m ops = replies_of (spec_do (config m)) id s ops.
Proof.
  revert m s. induction ops as [|op ops IH]; intros m s Hr; [done|]. simpl.
  pose proof (ml_do_refines m s op Hr) as [H1 H2].
  pose proof (ml_do_config m op) as Hc.
  destruct (ml_do m op) as [r m'], (spec_do (config m) s op) as [r' s']. simpl in *.
  rewrite H1, <- Hc. by rewrite (IH _ s' H2).
Qed.

(** An operation of another client leaves this client's bucket alone; an
    operation of this client depends on its own bucket only. *)
Lemma spec_do_other (c : Config) (s : ml_spec) (id : string) (op : ml_op) :
  concerns id op = false -> snd (spec_do c s op) !! id = s !! id.
Proof.
  destruct op as [i n rd|i rd|i|i b r rd|now]; simpl; try done;
    intros Hi; apply bool_decide_eq_false in Hi.
  - unfold spec_AllowN. destruct (s !! i) as [[tb u]|] eqn:E.
    + destruct (AllowN tb n _). simpl. by rewrite lookup_insert_ne.
    + destruct (NewTokenBucket _ _ _) as [tb|]; [|done].
      destruct (AllowN tb n _). simpl. by rewrite lookup_insert_ne.
  - unfold spec_Tokens. destruct (s !! i) as [[tb u]|] eqn:E; [|done].
    destruct (Tokens tb _). simpl. by rewrite lookup_insert_ne.
  - by rewrite lookup_delete_ne.
  - unfold spec_SetLimit. destruct (NewTokenBucket _ _ _); [|done].
    simpl. by rewrite lookup_insert_ne.
Qed.

Lemma spec_do_local (c : Config) (s s' : ml_spec) (id : string) (op : ml_op) :
  concerns id op = true -> s !! id = s' !! id ->
  fst (spec_do c s op) = fst (spec_do c s' op) /\
  snd (spec_do c s op) !! id = snd (spec_do c s' op) !! id.
Proof.
  destruct op as [i n rd|i rd|i|i b r rd|now]; simpl; intros Hi Es;
    try (apply bool_decide_eq_true in Hi; subst i).
  - unfold spec_AllowN. rewrite Es. set (o := match s' !! id with Some _ => _ | None => _ end).
    destruct o; [|done]. destruct (AllowN _ n _). simpl. by rewrite !lookup_insert_eq.
  - unfold spec_Tokens. rewrite Es. destruct (s' !! id) as [[tb u]|] eqn:E'; [|by split; simpl; congruence].
    destruct (Tokens tb _). simpl. by rewrite !lookup_insert_eq.
  - by rewrite !lookup_delete_eq.
  - unfold spec_SetLimit. destruct (NewTokenBucket _ _ _); [|done].
    simpl. by rewrite !lookup_insert_eq.
  - split; [done|]. unfold spec_cleanup. rewrite !map_lookup_filter. by rewrite Es.
Qed.

Lemma replies_of_filter (c : Config) (s s' : ml_spec) (id : string) (ops : list ml_op) :
  s !! id = s' !! id ->
  replies_of (spec_do c) id s ops =
  replies (spec_do c) s' (filter (fun op => concerns id op = true) ops).
Proof.
  revert s s'. induction ops as [|op ops IH]; intros s s' Es; [done|]. simpl.
  destruct (concerns id op) eqn:Ec.
  - rewrite filter_cons_True by done. simpl.
    pose proof (spec_do_local c s s' id op Ec Es) as [H1 H2].
    destruct (spec_do c s op) as [r s1], (spec_do c s' op) as [r' s1']. simpl in *.
    rewrite H1. f_equal. by apply IH.
  - rewrite filter_cons_False by (by rewrite Ec).
    pose proof (spec_do_other c s id op Ec) as H.
    destruct (spec_do c s op) as [r s1]. apply IH. simpl in H. congruence.
Qed.

(** ** Concurrent calls

    [AllowN] takes the pointer under the limiter's mutex and uses it under
    the bucket's; between the two the entry may be replaced, dropped or used
    by other goroutines. *)

(** A call made on a bucket for a client, with the tokens it handed out. *)
Record mcall := mkCall {
  c_client : string; c_bucket : nat; c_call : tb_call; c_now : Time; c_granted : Z;
}.

Record ml_sys := mkMlSys {
  ml : MemoryLimiter;
  threads : gmap nat (string * nat * Z);     (* holding a pointer, in [AllowN] *)
  made : gmap nat (string * TokenBucket);    (* owner and first state of each bucket *)
  log : list mcall;                          (* the calls, oldest first *)
}.

Inductive ml_action :=
  | AGet (t : nat) (id : string) (n : Z) (rd : readings)
  | ATake (t : nat) (now : Time)
  | ATokens (id : string) (now : Time)
  | AReset (id : string)
  | ASetLimit (id : string) (burst : Z) (rps : float64) (rd : readings)
  | ACleanup (now : Time).

(** Record the bucket a step has made, if it has made one. *)
Definition note_made (y : ml_sys) (m' : MemoryLimiter) (id : string)
  : gmap nat (string * TokenBucket) :=
  if decide (next m' = next (ml y)) then made y
  else match heap m' !! next (ml y) with
       | Some tb => <[next (ml y) := (id, tb)]> (made y)
       | None => made y
       end.

Definition ml_step (y : ml_sys) (a : ml_action) : ml_sys :=
  match a with
  | AGet t id n rd =>
      match threads y !! t with
      | Some _ => y
      | None =>
          match getOrCreateBucket (ml y) id rd with
          | (Return l, m') =>
              mkMlSys m' (<[t := (id, l, n)]> (threads y)) (note_made y m' id) (log y)
          | (Panic _, m') => mkMlSys m' (threads y) (made y) (log y)
          end
      end
  | ATake t now =>
      match threads y !! t with
      | None => y
      | Some (id, l, n) =>
          match heap_AllowN (ml y) l n now with
          | (Return ok, m') =>
              mkMlSys m' (delete t (threads y)) (made y)
                (log y ++ [mkCall id l (CallAllowN n) now (if ok then Z.max 0 n else 0)])
          | (Panic _, m') => mkMlSys m' (delete t (threads y)) (made y) (log y)
          end
      end
  | ATokens id now =>
      let m' := snd (ml_Tokens (ml y) id (fun _ => now)) in
      match buckets (ml y) !! id with
      | None => mkMlSys m' (threads y) (made y) (log y)
      | Some e => mkMlSys m' (threads y) (made y)
                    (log y ++ [mkCall id (bucket e) CallTokens now 0])
      end
  | AReset id => mkMlSys (snd (ml_Reset (ml y) id)) (threads y) (made y) (log y)
  | ASetLimit id b r rd =>
      let m' := snd (ml_SetLimit (ml y) id b r rd) in
      mkMlSys m' (threads y) (note_made y m' id) (log y)
  | ACleanup now => mkMlSys (cleanup (ml y) now) (threads y) (made y) (log y)
  end.

Definition ml_run (y : ml_sys) (acts : list ml_action) : ml_sys := fold_left ml_step acts y.

Definition ml_init (c : Config) : ml_sys := mkMlSys (NewMemoryLimiter c) ∅ ∅ [].

(** The calls made on one bucket, as a history of that bucket. *)
Definition calls_on (l : nat) (cs : list mcall) : list (tb_call * Time) :=
  (fun c => (c_call c, c_now c)) <$> filter (fun c => c_bucket c = l) cs.

Definition total (cs : list mcall) : Z := foldr (fun c k => c_granted c + k) 0 cs.

(** The tokens handed out from one bucket, and to one client. *)
Definition granted_on (l : nat) (cs : list mcall) : Z := total (filter (fun c => c_bucket c = l) cs).
Definition granted_to (id : string) (cs : list mcall) : Z :=
  total (filter (fun c => c_client c = id) cs).

(** ** The invariant of the concurrent limiter *)

Definition owned (y : ml_sys) (l : nat) (id : string) : Prop :=
  exists tb, made y !! l = Some (id, tb).

Record sys_inv (y : ml_sys) : Prop := {
  si_next l o : made y !! l = Some o -> (l < next (ml y))%nat;
  si_run l id tb : made y !! l = Some (id, tb) ->
    heap (ml y) !! l = Some (snd (tb_run tb (calls_on l (log y)))) /\
    granted_on l (log y) = fst (tb_run tb (calls_on l (log y)));
  si_entry id e : buckets (ml y) !! id = Some e -> owned y (bucket e) id;
  si_thread t id l n : threads y !! t = Some (id, l, n) -> owned y l id;
  si_log : Forall (fun c => owned y (c_bucket c) (c_client c)) (log y);
}.

Lemma sys_inv_init (c : Config) : sys_inv (ml_init c).
Proof. split; simpl; try done; intros *; by rewrite lookup_empty. Qed.

Lemma calls_on_snoc (l : nat) (cs : list mcall) (c : mcall) :
  calls_on l (cs ++ [c]) =
  if decide (c_bucket c = l) then calls_on l cs ++ [(c_call c, c_now c)] else calls_on l cs.
Proof.
  unfold calls_on. rewrite filter_app, fmap_app, filter_cons.
  destruct (decide _); [done|]. by rewrite app_nil_r.
Qed.

Lemma total_app (cs cs' : list mcall) : total (cs ++ cs') = total cs + total cs'.
Proof. induction cs as [|c cs IH]; simpl; [done|]. rewrite IH. lia. Qed.

Lemma granted_on_snoc (l : nat) (cs : list mcall) (c : mcall) :
  granted_on l (cs ++ [c]) =
  granted_on l cs + if decide (c_bucket c = l) then c_granted c else 0.
Proof.
  unfold granted_on. rewrite filter_app, total_app, filter_cons.
  destruct (decide _); simpl; lia.
Qed.

Lemma calls_on_none (y : ml_sys) (l : nat) :
  sys_inv y -> made y !! l = None -> calls_on l (log y) = [] /\ granted_on l (log y) = 0.
Proof.
  intros Hinv Hl. unfold calls_on, granted_on.
  assert (E : filter (fun c => c_bucket c = l) (log y) = []).
  { apply filter_none. eapply Forall_impl; [apply (si_log _ Hinv)|].
    intros c [tb Htb] <-. congruence. }
  by rewrite E.
Qed.

(** A step that only moves entries and goroutines among the buckets made. *)
Lemma inv_entries (y : ml_sys) (b : gmap string bucketEntry) ths :
  sys_inv y ->
  (forall id e, b !! id = Some e -> owned y (bucket e) id) ->
  (forall t id l n, ths !! t = Some (id, l, n) -> owned y l id) ->
  sys_inv (mkMlSys (set_buckets (ml y) b) ths (made y) (log y)).
Proof. intros [Hn Hr He Ht Hl] Hb Hths. by split. Qed.

(** A step that makes a bucket for [id]. *)
Lemma inv_make (y : ml_sys) (id : string) (tb : TokenBucket) (u : Time) ths :
  sys_inv y ->
  (forall t i l n, ths !! t = Some (i, l, n) ->
     threads y !! t = Some (i, l, n) \/ (l = next (ml y) /\ i = id)) ->
  sys_inv (mkMlSys
    (mkMemoryLimiter (<[id := mkBucketEntry (next (ml y)) u]> (buckets (ml y)))
       (config (ml y)) (<[next (ml y) := tb]> (heap (ml y))) (S (next (ml y)))
       (stopped (ml y)))
    ths (<[next (ml y) := (id, tb)]> (made y)) (log y)).
Proof.
  intros Hinv Hths. set (l0 := next (ml y)).
  assert (H0 : made y !! l0 = None).
  { destruct (made y !! l0) as [o|] eqn:E; [|done].
    pose proof (si_next _ Hinv _ _ E). unfold l0 in *. lia. }
  assert (Hown : forall l i, owned y l i -> exists tb', <[l0 := (id, tb)]> (made y) !! l = Some (i, tb')).
  { intros l i [tb' Htb]. exists tb'. rewrite lookup_insert_ne; [done|congruence]. }
  split; simpl.
  - intros l o. rewrite lookup_insert. case_decide; [intros _; lia|].
    intros Ho. pose proof (si_next _ Hinv _ _ Ho). lia.
  - intros l i tb'. destruct (decide (l0 = l)) as [<-|E].
    + rewrite !lookup_insert_eq. intros [= <- <-].
      by destruct (calls_on_none y l0 Hinv H0) as [-> ->].
    + rewrite !lookup_insert_ne by done. by apply (si_run _ Hinv l i).
  - intros i e. rewrite lookup_insert. case_decide as E.
    + intros [= <-]. exists tb. subst i. simpl. by rewrite lookup_insert_eq.
    + intros He. apply Hown. by apply (si_entry _ Hinv).
  - intros t i l n Ht. destruct (Hths _ _ _ _ Ht) as [Ht'|[-> ->]].
    + apply Hown. by eapply (si_thread _ Hinv).
    + exists tb. simpl. by rewrite lookup_insert_eq.
  - eapply Forall_impl; [apply (si_log _ Hinv)|]. intros c Hc. by apply Hown.
Qed.

(** A step that calls a method of a bucket. *)
Lemma inv_call (y : ml_sys) (id : string) (l : nat) (c : tb_call) (now : Time) tb ths :
  sys_inv y -> owned y l id -> heap (ml y) !! l = Some tb ->
  (forall t i l n, ths !! t = Some (i, l, n) -> threads y !! t = Some (i, l, n)) ->
  sys_inv (mkMlSys (set_heap (ml y) l (snd (tb_step tb c now))) ths (made y)
             (log y ++ [mkCall id l c now (fst (tb_step tb c now))])).
Proof.
  intros Hinv Hown Htb Hths. split; simpl.
  - apply (si_next _ Hinv).
  - intros l' i tb' Ho. destruct (si_run _ Hinv _ _ _ Ho) as [Hh Hg].
    rewrite calls_on_snoc, granted_on_snoc. simpl. destruct (decide (l = l')) as [<-|E].
    + rewrite Htb in Hh. injection Hh as Hh. rewrite lookup_insert_eq, tb_run_snoc, <- Hh, Hg.
      done.
    + rewrite lookup_insert_ne, Z.add_0_r by done. done.
  - apply (si_entry _ Hinv).
  - intros t i l' n Ht. by eapply (si_thread _ Hinv), Hths.
  - apply Forall_app. split; [apply (si_log _ Hinv)|]. by repeat constructor.
Qed.

Lemma heap_of_owned (y : ml_sys) (l : nat) (id : string) :
  sys_inv y -> owned y l id -> exists tb, heap (ml y) !! l = Some tb.
Proof. intros Hinv [tb Htb]. destruct (si_run _ Hinv _ _ _ Htb) as [-> _]. by eexists. Qed.

Lemma note_made_new (y : ml_sys) (id : string) (tb : TokenBucket) b c st :
  note_made y (mkMemoryLimiter b c (<[next (ml y) := tb]> (heap (ml y)))
                 (S (next (ml y))) st) id = <[next (ml y) := (id, tb)]> (made y).
Proof.
  unfold note_made. simpl. destruct (decide _) as [E|E]; [lia|].
  by rewrite lookup_insert_eq.
Qed.

Lemma note_made_same (y : ml_sys) (m' : MemoryLimiter) (id : string) :
  next m' = next (ml y) -> note_made y m' id = made y.
Proof. intros E. unfold note_made. by destruct (decide _). Qed.

Lemma inv_get (y : ml_sys) (t : nat) (id : string) (n : Z) (rd : readings) :
  sys_inv y -> sys_inv (ml_step y (AGet t id n rd)).
Proof.
  intros Hinv. simpl. destruct (threads y !! t) eqn:Et; [done|].
  unfold getOrCreateBucket, put_new. destruct (buckets (ml y) !! id) as [e|] eqn:He.
  - pose proof (si_entry _ Hinv _ _ He) as Hown. rewrite note_made_same by done.
    apply inv_entries; [done|..].
    + intros i e'. rewrite lookup_insert. case_decide as E; [|apply (si_entry _ Hinv)].
      intros [= <-]. by subst i.
    + intros t' i l n'. rewrite lookup_insert. case_decide; [|apply (si_thread _ Hinv)].
      by intros [= <- <- <-].
  - destruct (NewTokenBucket _ _ _) as [tb|]; [|by destruct y].
    rewrite note_made_new. apply inv_make; [done|].
    intros t' i l n'. rewrite lookup_insert. case_decide; [|by left].
    intros [= <- <- <-]. by right.
Qed.

Lemma ml_step_inv (y : ml_sys) (a : ml_action) : sys_inv y -> sys_inv (ml_step y a).
Proof.
  intros Hinv. destruct a as [t id n rd|t now|id now|id|id b r rd|now].
  - by apply inv_get.
  - simpl. destruct (threads y !! t) as [[[id l] n]|] eqn:Et; [|done].
    pose proof (si_thread _ Hinv _ _ _ _ Et) as Hown.
    destruct (heap_of_owned _ _ _ Hinv Hown) as [tb Htb]. unfold heap_AllowN. rewrite Htb.
    pose proof (inv_call y id l (CallAllowN n) now tb (delete t (threads y)) Hinv Hown Htb) as H.
    simpl in H. destruct (AllowN tb n now) as [ok tb']. apply H.
    intros t' i l' n'. rewrite lookup_delete. by case_decide.
  - simpl. unfold ml_Tokens. destruct (buckets (ml y) !! id) as [e|] eqn:He; [|by destruct y].
    pose proof (si_entry _ Hinv _ _ He) as Hown.
    destruct (heap_of_owned _ _ _ Hinv Hown) as [tb Htb]. rewrite Htb.
    by apply (inv_call y id (bucket e) CallTokens now tb).
  - apply inv_entries; [done| |apply (si_thread _ Hinv)].
    intros i e. rewrite lookup_delete. case_decide; [done|]. apply (si_entry _ Hinv).
  - simpl. unfold ml_SetLimit, put_new. destruct (NewTokenBucket _ _ _) as [tb|].
    + simpl. rewrite note_made_new. apply inv_make; [done|]. by left.
    + simpl. rewrite note_made_same by done. by destruct y.
  - apply inv_entries; [done| |apply (si_thread _ Hinv)].
    intros i e [He _]%map_lookup_filter_Some. by apply (si_entry _ Hinv).
Qed.

Lemma ml_run_inv (y : ml_sys) (acts : list ml_action) : sys_inv y -> sys_inv (ml_run y acts).
Proof.
  revert y. induction acts as [|a acts IH]; intros y Hinv; [done|].
  by apply IH, ml_step_inv.
Qed.

(** ** What a client can get *)

Definition is_owner (y : ml_sys) (id : string) (l : nat) : Prop :=
  fst <$> made y !! l = Some id.

#[export] Instance is_owner_dec y id l : Decision (is_owner y id l).
Proof. unfold is_owner. apply _. Defined.

(** The buckets made for a client. *)
Definition buckets_of (y : ml_sys) (id : string) : list nat :=
  filter (is_owner y id) (seq 0 (next (ml y))).

(** Time between a bucket's creation and its last refill. *)
Definition bucket_span (y : ml_sys) (l : nat) : Z :=
  match made y !! l, heap (ml y) !! l with
  | Some (_, tb0), Some tb => refill_span tb0 tb
  | _, _ => 0
  end.

(** [capacity + 1 + rate * span], in units of a token second. *)
Definition allowance (y : ml_sys) (l : nat) : Z :=
  match made y !! l with
  | Some (_, tb0) => (capacity tb0 + 1) * Second * f64_unit +
                     f64_val (refillRate tb0) * bucket_span y l
  | None => 0
  end.

Definition sum_Z (ks : list Z) : Z := foldr Z.add 0 ks.

(** Limits as the gateway sets them: integers, up to [2 ^ 20]. *)
Definition limits_ok (burst : Z) (rps : float64) : Prop :=
  1 <= burst <= 2 ^ 20 /\ exists q, 1 <= q <= 2 ^ 20 /\ rps = f64_of_Z q.

Definition ml_action_ok (a : ml_action) : Prop :=
  match a with
  | AGet _ _ _ rd => has_mono (rd 0%nat)
  | ATake _ now | ATokens _ now => has_mono now
  | ASetLimit _ b r rd => limits_ok b r /\ has_mono (rd 0%nat)
  | _ => True
  end.

Definition bucket_ok (tb : TokenBucket) : Prop :=
  tb_wf tb /\ capacity tb <= 2 ^ 20 /\ f64_val (refillRate tb) <= 2 ^ 20 * f64_unit.

(** Every bucket was made within the limits, every call is admissible. *)
Record sys_ok (y : ml_sys) : Prop := {
  so_config : limits_ok (BurstSize (config (ml y))) (TokensPerSecond (config (ml y)));
  so_made l o : made y !! l = Some o -> bucket_ok (snd o);
  so_log : Forall (fun c => admissible (c_call c, c_now c)) (log y);
}.

Lemma new_bucket_ok (b : Z) (r : float64) (now : Time) (tb : TokenBucket) :
  limits_ok b r -> has_mono now -> NewTokenBucket b r now = Return tb -> bucket_ok tb.
Proof.
  intros [Hb (q & Hq & ->)] Hnow. unfold NewTokenBucket.
  destruct (b <? 1); [done|]. destruct (f64_leb _ _); [done|]. intros [= <-].
  destruct (integer_rate q ltac:(lia)) as (H1 & H2 & E & H3). pose proof f64_unit_pos.
  split; [apply new_bucket_wf; try done; unfold max_int64; lia|]. split; simpl; [lia|].
  rewrite E. nia.
Qed.

Lemma note_made_ok (y : ml_sys) (m' : MemoryLimiter) (id : string) :
  (forall l o, made y !! l = Some o -> bucket_ok (snd o)) ->
  (next m' <> next (ml y) -> forall tb, heap m' !! next (ml y) = Some tb -> bucket_ok tb) ->
  forall l o, note_made y m' id !! l = Some o -> bucket_ok (snd o).
Proof.
  intros Hm Hnew l o. unfold note_made. destruct (decide _) as [E|E]; [apply Hm|].
  destruct (heap m' !! _) as [tb|] eqn:Eh; [|apply Hm].
  rewrite lookup_insert. case_decide; [|apply Hm]. intros [= <-]. by apply Hnew.
Qed.

Lemma put_new_ok (y : ml_sys) (id : string) (b : Z) (r : float64) (rd : readings) :
  limits_ok b r -> has_mono (rd 0%nat) ->
  next (snd (put_new (ml y) id b r rd)) <> next (ml y) ->
  forall tb, heap (snd (put_new (ml y) id b r rd)) !! next (ml y) = Some tb -> bucket_ok tb.
Proof.
  intros Hl Hnow. unfold put_new. destruct (NewTokenBucket _ _ _) as [tb0|] eqn:E; [|done].
  intros _ tb. simpl. rewrite lookup_insert_eq. intros [= <-]. by eapply new_bucket_ok.
Qed.

Lemma so_snoc (y : ml_sys) m' ths c :
  sys_ok y -> config m' = config (ml y) -> admissible (c_call c, c_now c) ->
  sys_ok (mkMlSys m' ths (made y) (log y ++ [c])).
Proof.
  intros [Hc Hm Hl] E Ha. split; simpl; [by rewrite E|done|].
  apply Forall_app_2; [done|]. constructor; [done|constructor].
Qed.

Lemma so_made_by_put (y : ml_sys) id b r rd ths :
  sys_ok y -> limits_ok b r -> has_mono (rd 0%nat) ->
  let m' := snd (put_new (ml y) id b r rd) in
  sys_ok (mkMlSys m' ths (note_made y m' id) (log y)).
Proof.
  intros [Hc Hm Hl] Hlim Hrd m'. split; simpl; [|by apply note_made_ok, put_new_ok|done].
  unfold m'. by rewrite put_new_config.
Qed.

Lemma ml_step_ok (y : ml_sys) (a : ml_action) :
  ml_action_ok a -> sys_ok y -> sys_ok (ml_step y a).
Proof.
  intros Ha Hok. pose proof Hok as [Hc Hm Hl].
  destruct a as [t id n rd|t now|id now|id|id b r rd|now]; simpl in *; try done.
  - destruct (threads y !! t); [done|]. unfold getOrCreateBucket.
    destruct (buckets (ml y) !! id) as [e|].
    + rewrite note_made_same by done. by split.
    + pose proof (so_made_by_put y id _ _ rd (<[t := (id, next (ml y), n)]> (threads y))
                    Hok Hc Ha) as H.
      unfold put_new in *. destruct (NewTokenBucket _ _ _); [done|by split].
  - destruct (threads y !! t) as [[[id l] n]|]; [|done].
    pose proof (heap_AllowN_config (ml y) l n now) as E.
    destruct (heap_AllowN (ml y) l n now) as [[ok|] m']; simpl in E.
    + by apply so_snoc.
    + split; simpl; try done. by rewrite E.
  - pose proof (ml_do_config (ml y) (OpTokens id (fun _ => now))) as E. simpl in E.
    destruct (ml_Tokens (ml y) id (fun _ => now)) as [r m']. simpl in *.
    destruct (buckets (ml y) !! id) as [e|].
    + by apply so_snoc.
    + split; simpl; try done. by rewrite E.
  - destruct Ha as [Hlim Hrd]. pose proof (so_made_by_put y id b r rd (threads y) Hok Hlim Hrd).
    unfold ml_SetLimit. by destruct (put_new (ml y) id b r rd) as [[l|] m'].
Qed.

Lemma ml_run_ok (y : ml_sys) (acts : list ml_action) :
  Forall ml_action_ok acts -> sys_ok y -> sys_ok (ml_run y acts).
Proof.
  intros Hacts. revert y. induction Hacts as [|a acts Ha _ IH]; intros y Hok; [done|].
  by apply IH, ml_step_ok.
Qed.

Lemma ml_init_ok (c : Config) :
  limits_ok (BurstSize c) (TokensPerSecond c) -> sys_ok (ml_init c).
Proof. by split. Qed.

(** A step logs at most one call. *)
Lemma ml_step_log (y : ml_sys) (a : ml_action) :
  (length (log (ml_step y a)) <= S (length (log y)))%nat.
Proof.
  destruct a as [t id n rd|t now|id now|id|id b r rd|now]; simpl; try lia.
  - destruct (threads y !! t); [lia|].
    destruct (getOrCreateBucket (ml y) id rd) as [[l|] m']; simpl; lia.
  - destruct (threads y !! t) as [[[id l] n]|]; [|lia].
    destruct (heap_AllowN (ml y) l n now) as [[ok|] m']; simpl; rewrite ?length_app; simpl; lia.
  - destruct (buckets (ml y) !! id); simpl; rewrite ?length_app; simpl; lia.
Qed.

Lemma ml_run_log (y : ml_sys) (acts : list ml_action) :
  (length (log (ml_run y acts)) <= length (log y) + length acts)%nat.
Proof.
  revert y. induction acts as [|a acts IH]; intros y; simpl; [lia|].
  pose proof (IH (ml_step y a)). pose proof (ml_step_log y a). simpl in *. lia.
Qed.

(** The tokens of a client are the tokens of its buckets. *)
Lemma sum_granted_cons (c : mcall) (cs : list mcall) (ls : list nat) :
  NoDup ls ->
  sum_Z ((fun l => granted_on l (c :: cs)) <$> ls) =
  sum_Z ((fun l => granted_on l cs) <$> ls) +
  (if decide (c_bucket c ∈ ls) then c_granted c else 0).
Proof.
  assert (Eg : forall l, granted_on l (c :: cs) =
    granted_on l cs + (if decide (c_bucket c = l) then c_granted c else 0)).
  { intros l. unfold granted_on. rewrite filter_cons. destruct (decide _); simpl; lia. }
  induction 1 as [|l ls Hl Hnd IH]; [done|].
  rewrite !fmap_cons. unfold sum_Z in *. cbn [foldr]. rewrite IH, Eg.
  destruct (decide (c_bucket c = l)) as [E|E], (decide (c_bucket c ∈ ls)),
    (decide (c_bucket c ∈ l :: ls)); try lia; set_solver.
Qed.

Lemma granted_split (id : string) (ls : list nat) (cs : list mcall) :
  NoDup ls -> Forall (fun c => c_client c = id <-> c_bucket c ∈ ls) cs ->
  granted_to id cs = sum_Z ((fun l => granted_on l cs) <$> ls).
Proof.
  intros Hnd. induction 1 as [|c cs Hc _ IH].
  { unfold granted_to, granted_on. simpl. clear Hnd.
    induction ls as [|l ls IH]; [done|exact IH]. }
  rewrite sum_granted_cons, <- IH by done. unfold granted_to. rewrite filter_cons.
  destruct (decide (c_client c = id)), (decide (c_bucket c ∈ ls)); simpl; try lia; tauto.
Qed.

Lemma owned_buckets_of (y : ml_sys) (id : string) (c : mcall) :
  sys_inv y -> owned y (c_bucket c) (c_client c) ->
  c_client c = id <-> c_bucket c ∈ buckets_of y id.
Proof.
  intros Hinv [tb Htb]. unfold buckets_of, is_owner.
  rewrite list_elem_of_filter, elem_of_seq, Htb. simpl.
  pose proof (si_next _ Hinv _ _ Htb). split; [intros ->|intros [[= ->] _]; done].
  split; [done|lia].
Qed.

Lemma granted_by_bucket (y : ml_sys) (id : string) :
  sys_inv y ->
  granted_to id (log y) = sum_Z ((fun l => granted_on l (log y)) <$> buckets_of y id).
Proof.
  intros Hinv. apply granted_split.
  - unfold buckets_of. apply NoDup_filter, NoDup_seq.
  - eapply Forall_impl; [apply (si_log _ Hinv)|]. intros c Hc. by apply owned_buckets_of.
Qed.

(** One bucket stays within its allowance. *)
Lemma bucket_within (y : ml_sys) (l : nat) :
  sys_inv y -> sys_ok y -> Z.of_nat (length (log y)) <= 2 ^ 28 ->
  is_Some (made y !! l) ->
  granted_on l (log y) * Second * f64_unit <= allowance y l.
Proof.
  intros Hinv Hok Hlen [[id tb0] Hm].
  destruct (si_run _ Hinv _ _ _ Hm) as [Hh Hg].
  unfold allowance, bucket_span in *. rewrite Hm, Hh in *. rewrite Hg.
  destruct (so_made _ Hok _ _ Hm) as (Hwf & Hcap & Hrate). simpl in *.
  apply rate_bound; try done.
  - unfold calls_on. apply Forall_fmap, Forall_filter_keep. apply (so_log _ Hok).
  - unfold calls_on. rewrite length_fmap.
    pose proof (length_filter (fun c => c_bucket c = l) (log y)). lia.
Qed.

Lemma sum_Z_le (f g : nat -> Z) (ls : list nat) (k : Z) :
  (forall l, l ∈ ls -> f l * k <= g l) -> sum_Z (f <$> ls) * k <= sum_Z (g <$> ls).
Proof.
  induction ls as [|l ls IH]; intros H; [done|].
  rewrite !fmap_cons. unfold sum_Z in *. cbn [foldr].
  pose proof (H l ltac:(by left)).
  pose proof (IH (fun l Hl => H l ltac:(by right))). lia.
Qed.

(** The bound on a client's tokens, over any run. *)
Lemma client_rate_bound (c : Config) (acts : list ml_action) (id : string) :
  limits_ok (BurstSize c) (TokensPerSecond c) ->
  Forall ml_action_ok acts -> Z.of_nat (length acts) <= 2 ^ 28 ->
  let y := ml_run (ml_init c) acts in
  granted_to id (log y) * Second * f64_unit <= sum_Z (allowance y <$> buckets_of y id).
Proof.
  intros Hc Hacts Hlen y.
  pose proof (ml_run_inv _ acts (sys_inv_init c)) as Hinv. fold y in Hinv.
  pose proof (ml_run_ok _ acts Hacts (ml_init_ok c Hc)) as Hok. fold y in Hok.
  pose proof (ml_run_log (ml_init c) acts) as Hlog. fold y in Hlog. simpl in Hlog.
  rewrite (granted_by_bucket y id Hinv), <- Z.mul_assoc. apply sum_Z_le. intros l Hl.
  rewrite Z.mul_assoc. apply bucket_within; try done; [lia|].
  apply list_elem_of_filter in Hl as [Ho _]. unfold is_owner in Ho.
  by destruct (made y !! l); [eexists|].
Qed.

(** ** Cleanup *)

(** A bucket that has been idle long enough is full again. *)
Lemma idle_full (tb : TokenBucket) (now : Time) :
  tb_wf tb -> capacity tb < 2 ^ 53 -> has_mono now ->
  2 ^ 49 * (Second * (capacity tb * f64_unit)) <=
    (2 ^ 49 - 1) * (f64_val (refillRate tb) * time_sub now (lastRefill tb)) ->
  f64_val (tokens (refill tb now)) = capacity tb * f64_unit.
Proof.
  intros Hwf Hcap Hnow Hwait. pose proof (wf_capacity _ Hwf) as Hc.
  destruct (wf_rate _ Hwf) as (_ & _ & Hr). pose proof f64_unit_pos as Hu.
  assert (Hd : 0 < time_sub now (lastRefill tb)) by (unfold Second in Hwait; nia).
  pose proof (refill_reaches tb now _ (capacity tb) Hwf Hcap ltac:(lia) eq_refl Hd Hwait).
  pose proof (refill_wf tb now Hwf Hnow) as Hwf'.
  pose proof (tb_step_static tb CallTokens now) as [Ec _]. simpl in Ec.
  pose proof (wf_clamped _ Hwf') as Hcl. rewrite (cap_exact _ Hwf'), Ec in Hcl by lia. lia.
Qed.

(** Full buckets answer alike. *)
Lemma full_alike (tb tb' : TokenBucket) (n : Z) (now : Time) :
  tb_wf tb -> tb_wf tb' -> has_mono now -> capacity tb < 2 ^ 53 ->
  capacity tb' = capacity tb -> 0 < n ->
  f64_val (tokens (refill tb now)) = capacity tb * f64_unit ->
  f64_val (tokens (refill tb' now)) = capacity tb * f64_unit ->
  fst (AllowN tb n now) = fst (AllowN tb' n now) /\
  f64_val (tokens (snd (AllowN tb n now))) = f64_val (tokens (snd (AllowN tb' n now))).
Proof.
  intros Hwf Hwf' Hnow Hcap Ec Hn E E'.
  pose proof (AllowN_exact tb n now Hwf Hnow Hcap Hn) as H.
  pose proof (AllowN_exact tb' n now Hwf' Hnow ltac:(lia) Hn) as H'. simpl in H, H'.
  destruct (AllowN tb n now), (AllowN tb' n now). simpl.
  destruct H as (-> & _ & ->). destruct H' as (-> & _ & ->). by rewrite E, E'.
Qed.

(** A bucket just made is full at every later reading. *)
Lemma new_full (cap : Z) (rate : float64) (t now : Time) :
  let tb := mkTokenBucket cap rate (f64_of_Z cap) t in
  tb_wf tb -> cap < 2 ^ 53 -> has_mono now ->
  f64_val (tokens (refill tb now)) = cap * f64_unit.
Proof.
  intros tb Hwf Hcap Hnow. pose proof (cap_exact tb Hwf ltac:(simpl; lia)) as Hce.
  simpl in Hce. destruct (Z.le_gt_cases (time_sub now (lastRefill tb)) 0) as [Hi|Hp].
  { by rewrite refill_idle. }
  pose proof (elapsed_range _ _ _ (eq_refl (time_sub now (lastRefill tb)))).
  rewrite (refill_tokens tb now _ eq_refl) by lia.
  destruct (refill_sum_cases tb (time_sub now (lastRefill tb)) Hwf ltac:(lia))
    as (Ha & _ & Hs & Hcase).
  destruct (clamp_spec tb _ (wf_capacity _ Hwf) Hs) as (_ & _ & Hv).
  etransitivity; [exact Hv|]. change (capacity tb) with cap. rewrite Hce. apply Z.min_r.
  destruct (cap_float cap (wf_capacity _ Hwf)) as (Hok & Hf & _).
  destruct Hcase as [Hsum|[_ ->]].
  - rewrite <- Hce. apply (rounded_ge_float _ _ _ _ Z.lt_0_1 Hsum); [done|done|].
    pose proof (f64_val_nonneg _ (proj2 Ha)). change (tokens tb) with (f64_of_Z cap). lia.
  - rewrite <- Hce. apply Z.lt_le_incl. by apply f64_val_finite_lt.
Qed.

(** When an entry counts as idle: more than two intervals after its last use. *)
Lemma idle_before (m : MemoryLimiter) (used now : Time) (u v : Z) :
  mono used = Some u -> mono now = Some v -> 0 <= v <= max_int64 ->
  0 < CleanupInterval (config m) -> 2 * CleanupInterval (config m) <= max_int64 ->
  time_before used (idle_threshold m now) = (u <? v - 2 * CleanupInterval (config m)).
Proof.
  intros Hu Hv Hr Hi Hi2. unfold time_before, idle_threshold, time_add. rewrite Hu, Hv. simpl.
  rewrite wrap64_id by (unfold min_int64, max_int64 in *; lia).
  rewrite (proj2 (in_int64_iff _)) by (unfold min_int64, max_int64 in *; lia).
  f_equal. lia.
Qed.

(** The tokens in the client's bucket. *)
Definition tokens_left (m : MemoryLimiter) (id : string) : option Z :=
  e ← buckets m !! id; tb ← heap m !! bucket e; Some (f64_val (tokens tb)).

(** [AllowN] on a bucket the client has, and on one it makes. *)
Lemma AllowN_found (m : MemoryLimiter) (id : string) e tb (n : Z) (rd : readings) :
  buckets m !! id = Some e -> heap m !! bucket e = Some tb ->
  ml_AllowN m id n rd =
  (Return (fst (AllowN tb n (rd 2%nat)), None),
   set_heap (set_buckets m (<[id := mkBucketEntry (bucket e) (rd 1%nat)]> (buckets m)))
     (bucket e) (snd (AllowN tb n (rd 2%nat)))).
Proof.
  intros He Htb. unfold ml_AllowN, getOrCreateBucket, heap_AllowN. rewrite He. simpl. rewrite Htb.
  by destruct (AllowN tb n _).
Qed.

Lemma AllowN_fresh (m : MemoryLimiter) (id : string) tb (n : Z) (rd : readings) :
  buckets m !! id = None ->
  NewTokenBucket (BurstSize (config m)) (TokensPerSecond (config m)) (rd 0%nat) = Return tb ->
  ml_AllowN m id n rd =
  (Return (fst (AllowN tb n (rd 2%nat)), None),
   mkMemoryLimiter (<[id := mkBucketEntry (next m) (rd 1%nat)]> (buckets m)) (config m)
     (<[next m := snd (AllowN tb n (rd 2%nat))]> (heap m)) (S (next m)) (stopped m)).
Proof.
  intros He Htb. unfold ml_AllowN, getOrCreateBucket, put_new, heap_AllowN. rewrite He, Htb. simpl.
  rewrite lookup_insert_eq. destruct (AllowN tb n _) as [ok tb']. simpl.
  by rewrite heap_update_twice.
Qed.

(** ** Properties *)

(** C22: refinement.  The limiter with its pointers answers every sequence of
    operations, panics and cleanups included, as the specification does,
    which keeps one token bucket per client in a plain map. *)
Theorem memory_limiter_refines (c : Config) (ops : list ml_op) :
  let m := NewMemoryLimiter c in
  replies ml_do m ops = replies (spec_do (config m)) ∅ ops.
Proof. intros m. apply replies_refine, represents_new. Qed.

(** Isolation.  The replies to the operations of one client are the same
    when the operations of all the other clients are left out. *)
Theorem memory_limiter_isolation (c : Config) (id : string) (ops : list ml_op) :
  let m := NewMemoryLimiter c in
  replies_of ml_do id m ops = replies ml_do m (filter (fun op => concerns id op = true) ops).
Proof.
  intros m. rewrite (replies_of_refine m ∅ id ops (represents_new c)).
  rewrite (replies_refine m ∅ _ (represents_new c)). by apply replies_of_filter.
Qed.

(** Buckets under interleaving.  However the calls of concurrent
    goroutines interleave, each bucket ever made belongs to one client; its
    state is what running exactly that client's calls on it, in the order
    they took its mutex, gives; and the tokens handed out from it are those
    that run hands out. *)
Theorem memory_limiter_interleaving (c : Config) (acts : list ml_action) :
  let y := ml_run (ml_init c) acts in
  Forall (fun k => exists tb, made y !! c_bucket k = Some (c_client k, tb)) (log y) /\
  (forall id e, buckets (ml y) !! id = Some e ->
     exists tb, made y !! bucket e = Some (id, tb)) /\
  (forall l id tb, made y !! l = Some (id, tb) ->
     heap (ml y) !! l = Some (snd (tb_run tb (calls_on l (log y)))) /\
     granted_on l (log y) = fst (tb_run tb (calls_on l (log y)))).
Proof.
  intros y. pose proof (ml_run_inv _ acts (sys_inv_init c)) as Hinv. fold y in Hinv.
  split; [apply (si_log _ Hinv)|]. split; [apply (si_entry _ Hinv)|apply (si_run _ Hinv)].
Qed.

Lemma memory_limiter_interleaving_witness :
  let rd : readings := fun _ => clock 0 0 in
  let y := ml_run (ml_init (mkConfig (f64_of_Z 1) 2 Second))
    [AGet 0 "a" 1 rd; AGet 1 "b" 1 rd; ATake 1 (clock 0 1); ATake 0 (clock 0 2)] in
  granted_on 0 (log y) = fst (tb_run (mkTokenBucket 2 (f64_of_Z 1) (f64_of_Z 2) (clock 0 0))
                                     (calls_on 0 (log y))).
Proof.
  intros rd y.
  refine (proj2 (proj2 (proj2 (memory_limiter_interleaving
    (mkConfig (f64_of_Z 1) 2 Second) _)) 0%nat "a" _ _)).
  vm_compute. reflexivity.
Defined.

(** C21: the rate limit of a client, for concurrent goroutines.  Take limits
    that are integers up to [2 ^ 20] and a run of up to [2 ^ 28] steps.  Over
    the whole run the client gets at most the sum, over the buckets made for it,
    of [capacity + 1 + rate * lifetime]: a goroutine that still holds the
    pointer of a replaced or dropped bucket cannot exceed it. *)
Theorem memory_limiter_rate_bound (c : Config) (acts : list ml_action) (id : string) :
  limits_ok (BurstSize c) (TokensPerSecond c) ->
  Forall ml_action_ok acts -> Z.of_nat (length acts) <= 2 ^ 28 ->
  let y := ml_run (ml_init c) acts in
  granted_to id (log y) * Second * f64_unit <= sum_Z (allowance y <$> buckets_of y id).
Proof. apply client_rate_bound. Qed.

Lemma memory_limiter_rate_bound_witness :
  let rd : readings := fun _ => clock 0 0 in
  let y := ml_run (ml_init (mkConfig (f64_of_Z 1) 2 Second))
    [AGet 0 "a" 1 rd; AReset "a"; AGet 1 "a" 1 rd; ATake 1 (clock 0 1); ATake 0 (clock 0 2)] in
  granted_to "a" (log y) * Second * f64_unit <= sum_Z (allowance y <$> buckets_of y "a").
Proof.
  intros rd y. apply (memory_limiter_rate_bound (mkConfig (f64_of_Z 1) 2 Second)
    [AGet 0 "a" 1 rd; AReset "a"; AGet 1 "a" 1 rd; ATake 1 (clock 0 1); ATake 0 (clock 0 2)] "a").
  - split; [simpl; lia|]. exists 1. split; [lia|reflexivity].
  - repeat constructor; by eexists.
  - simpl. lia.
Defined.

(** C23: cleanup.  An entry whose last use is a reading [u] of the monotonic
    clock is dropped by a cleanup at [v] exactly when more than two cleanup
    intervals lie between them.  When the dropped bucket has the default
    limits and had the time to refill, dropping it is invisible: the client's
    next call of [AllowN], which makes a new bucket, returns what it would have
    returned without the cleanup and leaves as many tokens. *)
Theorem memory_limiter_cleanup (m : MemoryLimiter) (id : string) (e : bucketEntry)
    (now : Time) (u v : Z) :
  buckets m !! id = Some e -> mono (lastUsed e) = Some u -> mono now = Some v ->
  0 <= v <= max_int64 -> 0 < CleanupInterval (config m) -> 2 * CleanupInterval (config m) <= max_int64 ->
  (buckets (cleanup m now) !! id =
     if u <? v - 2 * CleanupInterval (config m) then None else Some e) /\
  forall (tb : TokenBucket) (n : Z) (rd : readings),
    u < v - 2 * CleanupInterval (config m) -> heap m !! bucket e = Some tb ->
    tb_wf tb -> capacity tb < 2 ^ 53 -> has_mono (rd 0%nat) -> has_mono (rd 2%nat) -> 1 <= n ->
    capacity tb = BurstSize (config m) -> refillRate tb = TokensPerSecond (config m) ->
    2 ^ 49 * (Second * (capacity tb * f64_unit)) <=
      (2 ^ 49 - 1) * (f64_val (refillRate tb) * time_sub (rd 2%nat) (lastRefill tb)) ->
    fst (ml_AllowN (cleanup m now) id n rd) = fst (ml_AllowN m id n rd) /\
    tokens_left (snd (ml_AllowN (cleanup m now) id n rd)) id =
      tokens_left (snd (ml_AllowN m id n rd)) id.
Proof.
  intros He Hu Hv Hv0 Hi Hi2.
  assert (Ec : buckets (cleanup m now) !! id =
    if u <? v - 2 * CleanupInterval (config m) then None else Some e).
  { simpl. rewrite map_lookup_filter, He. simpl. rewrite (idle_before m (lastUsed e) now u v) by done.
    by destruct (u <? _). }
  split; [exact Ec|]. intros tb n rd Hidle Htb Hwf Hcap Ht Hlater Hn Ecap Erate Hwait.
  rewrite (proj2 (Z.ltb_lt _ _) Hidle) in Ec.
  pose proof (wf_capacity _ Hwf) as Hc. destruct (wf_rate _ Hwf) as (Hr1 & Hr2 & Hr3).
  pose proof (new_bucket_wf (capacity tb) (refillRate tb) (rd 0%nat) Hc Hr1 Hr2 Hr3 Ht) as Hwf'.
  set (tb' := mkTokenBucket (capacity tb) (refillRate tb) (f64_of_Z (capacity tb)) (rd 0%nat)) in *.
  destruct (full_alike tb tb' n (rd 2%nat)) as [H1 H2]; try done;
    [lia|by apply idle_full|by apply new_full|].
  rewrite (AllowN_found m id e tb) by done.
  rewrite (AllowN_fresh (cleanup m now) id tb' n rd Ec).
  2: { unfold NewTokenBucket. simpl. rewrite <- Ecap, <- Erate, (proj2 (Z.ltb_ge _ _)) by lia.
    by rewrite f64_leb_spec, (proj2 (Z.leb_gt _ _)). }
  unfold tokens_left. simpl. rewrite !lookup_insert_eq. simpl. rewrite !lookup_insert_eq. simpl.
  by rewrite H1, H2.
Qed.

Lemma memory_limiter_cleanup_witness :
  let tb := mkTokenBucket 2 (f64_of_Z 1) (f64_of_Z 0) (clock 0 0) in
  let m := mkMemoryLimiter {["a" := mkBucketEntry 0 (clock 0 0)]}
             (mkConfig (f64_of_Z 1) 2 Second) {[0%nat := tb]} 1 false in
  let c := cleanup m (clock 0 (3 * Second)) in
  let rd : readings := fun _ => clock 0 (4 * Second) in
  buckets c !! "a" = None /\ fst (ml_AllowN c "a" 1 rd) = fst (ml_AllowN m "a" 1 rd).
Proof.
  intros tb m c rd.
  destruct (memory_limiter_cleanup m "a" (mkBucketEntry 0 (clock 0 0)) (clock 0 (3 * Second))
    0 (3 * Second)) as [H1 H2]; try reflexivity; try (vm_compute; split; discriminate);
    try (vm_compute; discriminate).
  split; [exact H1|]. apply (H2 tb 1 rd); try reflexivity; try (by eexists); try lia.
  - destruct (integer_rate 1) as (R1 & R2 & _ & R3); [lia|].
    split; try done; by eexists.
  - vm_compute. discriminate.
Defined.
