(* ===== verification/LuaBucket.v ===== *)
(** * The token bucket of the Lua scripts

    The arithmetic the two scripts of [internal/ratelimit/redis_limiter.go]
    share, on Lua numbers, which are binary64.  Clock readings are integers
    of milliseconds.  The main results are the growth of a refill, which the
    rate bound of [RedisLimiter] sums up, and that a bucket left alone for
    the time the script expires it after is full. *)
From S2P Require Import Prelude GoTime Float64 Float64Facts.
From Stdlib Require Import SpecFloat.

(** [math.floor] and [math.ceil]. *)
Definition math_floor (x : float64) : float64 :=
  match x with
  | S754_finite s m e =>
      if 0 <=? e then x else f64_of_Z (cond_Zopp s (Z.pos m) / 2 ^ (- e))
  | _ => x
  end.

Definition math_ceil (x : float64) : float64 :=
  match x with
  | S754_finite s m e =>
      if 0 <=? e then x
      else match - (- cond_Zopp s (Z.pos m) / 2 ^ (- e)) with
           | 0 => S754_zero s
           | z => f64_of_Z z
           end
  | _ => x
  end.

(** The state of a bucket in its hash: [tokens] and [lastRefill]. *)
Record lua_bucket := mkLuaBucket { tokens : float64; lastRefill : float64 }.

(** [elapsed]. *)
Definition lua_elapsed (now last : float64) : float64 :=
  let elapsed := f64_sub now last in
  if f64_ltb elapsed (f64_of_Z 0) then f64_of_Z 0 else elapsed.

(** [newTokens] of a bucket. *)
Definition lua_refill (capacity refillRate : float64) (b : lua_bucket) (now : float64) : float64 :=
  let elapsed := lua_elapsed now (lastRefill b) in
  let newTokens := f64_add (tokens b)
                     (f64_div (f64_mul refillRate elapsed) (f64_of_Z 1000)) in
  if f64_ltb capacity newTokens then capacity else newTokens.

(** [now], from the seconds and microseconds of [TIME]. *)
Definition lua_now (sec us : float64) : float64 :=
  f64_add (f64_mul sec (f64_of_Z 1000)) (math_floor (f64_div us (f64_of_Z 1000))).

(** [ttl]. *)
Definition lua_ttl (capacity refillRate : float64) : float64 :=
  f64_add (math_ceil (f64_mul (f64_div capacity refillRate) (f64_of_Z 2))) (f64_of_Z 1).

Example refill_demo :
  lua_refill (f64_of_Z 10) (f64_of_Z 2) (mkLuaBucket (f64_of_Z 1) (f64_of_Z 1000)) (f64_of_Z 3000)
  = f64_of_Z 5.
Proof. vm_compute. reflexivity. Qed.

Example now_demo : lua_now (f64_of_Z 1700000000) (f64_of_Z 123999) = f64_of_Z 1700000000123.
Proof. vm_compute. reflexivity. Qed.

Example ttl_demo : lua_ttl (f64_of_Z 10) (f64_of_Z 3) = f64_of_Z 8.
Proof. vm_compute. reflexivity. Qed.

Example elapsed_back : lua_elapsed (f64_of_Z 5) (f64_of_Z 7) = f64_of_Z 0.
Proof. vm_compute. reflexivity. Qed.

(** ** Integers held in floats *)

(** The float [x] is the integer [n]. *)
Definition is_int (x : float64) (n : Z) : Prop :=
  f64_pos_ok x /\ f64_finite x = true /\ f64_val x = n * f64_unit.

Lemma is_int_of_Z (n : Z) : 0 <= n <= 2 ^ 53 -> is_int (f64_of_Z n) n.
Proof.
  intros Hn. destruct (f64_of_Z_exact n Hn) as [Hv Hf].
  split; [apply f64_of_Z_ok; lia|done].
Qed.
#[export] Hint Resolve is_int_of_Z : gateway.

(** A rounding of an integer is that integer. *)
Lemma rounded_int (X Y n : Z) (f : float64) :
  0 < Y -> rounded X Y f -> 0 <= n <= 2 ^ 53 -> X = n * f64_unit * Y -> is_int f n.
Proof.
  intros HY Hr Hn ->. destruct (integer_as_float n Hn) as (m & e & Hm & He & En).
  rewrite En, unit_scaled in Hr by lia.
  destruct (rounded_exact _ _ _ HY Hr m (e + 1074)) as [Hv Hf]; [lia|lia|done| |].
  - apply finite_value_max; lia.
  - split; [apply Hr|]. split; [done|]. by rewrite Hv, En, unit_scaled by lia.
Qed.

Lemma is_int_add (x y : float64) (a b : Z) :
  is_int x a -> is_int y b -> 0 <= a + b <= 2 ^ 53 -> is_int (f64_add x y) (a + b).
Proof.
  intros (Hx & Hfx & Ex) (Hy & Hfy & Ey) Hab.
  apply (rounded_int _ _ _ _ Z.lt_0_1 (f64_add_rounded x y Hx Hfx Hy Hfy) Hab).
  rewrite Ex, Ey. ring.
Qed.

Lemma is_int_mul (x y : float64) (a b : Z) :
  is_int x a -> is_int y b -> 0 <= a * b <= 2 ^ 53 -> is_int (f64_mul x y) (a * b).
Proof.
  intros (Hx & Hfx & Ex) (Hy & Hfy & Ey) Hab.
  apply (rounded_int _ _ _ _ f64_unit_pos (f64_mul_rounded x y Hx Hfx Hy Hfy) Hab).
  rewrite Ex, Ey. ring.
Qed.

Lemma is_int_sub (x y : float64) (a b : Z) :
  is_int x a -> is_int y b -> 0 <= b <= a -> a <= 2 ^ 53 -> is_int (f64_sub x y) (a - b).
Proof.
  intros (Hx & Hfx & Ex) (Hy & Hfy & Ey) Hab Ha. pose proof f64_unit_pos.
  apply (rounded_int _ _ _ _ Z.lt_0_1 (f64_sub_rounded x y Hx Hfx Hy Hfy ltac:(nia))); [lia|].
  rewrite Ex, Ey. ring.
Qed.

(** *** Rounding to an integer *)

(** The value of a finite float with a negative exponent, as the fraction
    [m / 2 ^ k]. *)
Lemma fraction_val (m : positive) (e : Z) :
  -1074 <= e < 0 -> Z.pos m * f64_unit = f64_val (S754_finite false m e) * 2 ^ (- e).
Proof.
  intros He. unfold f64_val, cond_Zopp, f64_unit.
  rewrite <- Z.mul_assoc, <- pow2_add by lia. do 2 f_equal. lia.
Qed.

(** A float with a non-negative exponent is an integer. *)
Lemma whole_val (m : positive) (e : Z) :
  0 <= e -> f64_val (S754_finite false m e) = Z.pos m * 2 ^ e * f64_unit.
Proof. intros He. by rewrite unit_scaled. Qed.

Lemma math_floor_spec (x : float64) :
  f64_pos_ok x -> f64_finite x = true -> f64_val x <= 2 ^ 53 * f64_unit ->
  is_int (math_floor x) (f64_val x / f64_unit).
Proof.
  intros Hx Hf Hmax. pose proof f64_unit_pos as Hu.
  destruct (f64_pos_finite x Hx Hf) as [[s ->]|(m & e & -> & He & Hm & _)]; [done|].
  unfold math_floor, cond_Zopp. destruct (0 <=? e) eqn:Ee; bool_to_prop.
  - split; [done|]. split; [done|]. rewrite whole_val, Z.div_mul by lia. done.
  - pose proof (pow2_pos (- e) ltac:(lia)) as Hp.
    assert (E : f64_val (S754_finite false m e) / f64_unit = Z.pos m / 2 ^ (- e)).
    { rewrite <- (Z.div_mul_cancel_r (Z.pos m) (2 ^ (- e)) f64_unit) by lia.
      rewrite (fraction_val m e), (Z.mul_comm (2 ^ (- e))) by lia.
      by rewrite Z.div_mul_cancel_r by lia. }
    rewrite E. apply is_int_of_Z. split; [apply Z.div_pos; lia|].
    apply Z.div_le_upper_bound; nia.
Qed.

Lemma math_ceil_spec (x : float64) :
  f64_pos_ok x -> f64_finite x = true -> f64_val x <= 2 ^ 53 * f64_unit ->
  exists c, 0 <= c /\ is_int (math_ceil x) c /\
    (c - 1) * f64_unit < f64_val x <= c * f64_unit.
Proof.
  intros Hx Hf Hmax. pose proof f64_unit_pos as Hu.
  destruct (f64_pos_finite x Hx Hf) as [[s ->]|(m & e & -> & He & Hm & _)].
  { exists 0. split; [done|]. split; [done|]. simpl. lia. }
  unfold math_ceil, cond_Zopp. destruct (0 <=? e) eqn:Ee; bool_to_prop.
  - exists (Z.pos m * 2 ^ e). pose proof (pow2_pos e ltac:(lia)).
    rewrite whole_val by done. split; [nia|]. split; [|nia].
    split; [done|]. split; [done|]. by apply whole_val.
  - pose proof (pow2_pos (- e) ltac:(lia)) as Hp.
    pose proof (fraction_val m e ltac:(lia)) as Ev.
    set (v := f64_val _) in *. set (p := 2 ^ (- e)) in *.
    pose proof (Z.div_mod (- Z.pos m) p ltac:(lia)) as Ed.
    pose proof (Z.mod_pos_bound (- Z.pos m) p ltac:(lia)) as Hb.
    set (c := - (- Z.pos m / p)) in *.
    assert (Hc : (c - 1) * p < Z.pos m <= c * p) by nia.
    assert (Hv : (c - 1) * f64_unit < v <= c * f64_unit) by (clearbody v p c; nia).
    assert (Hc0 : 1 <= c) by nia. exists c. split; [lia|]. split; [|done].
    clearbody c. destruct c as [|c'|c']; [lia| |lia].
    apply is_int_of_Z. split; [lia|].
    assert (Z.pos c' - 1 < 2 ^ 53); [|lia]. clearbody v. nia.
Qed.

(** ** The clock *)

Lemma binary_round_opp (m : positive) (e : Z) :
  binary_round 53 1024 true m e = SFopp (binary_round 53 1024 false m e).
Proof.
  unfold binary_round, binary_round_aux. destruct (shl_align m e _) as [mz ez].
  destruct (shr_fexp _ _ (Z.pos mz) ez loc_Exact) as [mrs e'].
  destruct (shr_fexp _ _ _ e' loc_Exact) as [mrs' e''].
  destruct (shr_m mrs'); [done| |done]. by destruct (_ <=? _).
Qed.

(** Subtraction is antisymmetric, apart from the sign of zero. *)
Lemma f64_sub_opp (x y : float64) :
  f64_pos_ok x -> f64_finite x = true -> f64_pos_ok y -> f64_finite y = true ->
  f64_val x < f64_val y -> f64_sub x y = SFopp (f64_sub y x).
Proof.
  intros Hx Hfx Hy Hfy Hlt.
  destruct (f64_pos_finite y Hy Hfy) as [[sy ->]|(my & ey & -> & He' & Hm' & _)].
  { pose proof (f64_val_nonneg x (proj2 Hx)). simpl in Hlt. lia. }
  destruct (f64_pos_finite x Hx Hfx) as [[sx ->]|(mx & ex & -> & He & Hm & _)]; [done|].
  unfold f64_sub, SFsub. rewrite (Z.min_comm ey ex). unfold f64_val, cond_Zopp in *.
  rewrite <- (aligned_val mx ex (Z.min ex ey)), <- (aligned_val my ey (Z.min ex ey)) in Hlt by lia.
  pose proof (pow2_pos (Z.min ex ey + 1074) ltac:(lia)).
  set (a := fst (shl_align mx _ _)) in *. set (b := fst (shl_align my _ _)) in *.
  assert (Hab : (a < b)%positive) by (clearbody a b; nia).
  replace (Z.pos a - Z.pos b) with (Z.neg (b - a)) by lia.
  replace (Z.pos b - Z.pos a) with (Z.pos (b - a)) by lia.
  apply binary_round_opp.
Qed.

(** [elapsed]: a clock that went back counts as no time. *)
Lemma lua_elapsed_spec (now last : float64) (t l : Z) :
  is_int now t -> is_int last l -> 0 <= t <= 2 ^ 53 -> 0 <= l <= 2 ^ 53 ->
  is_int (lua_elapsed now last) (Z.max 0 (t - l)).
Proof.
  intros Ht Hl Ht0 Hl0. unfold lua_elapsed. pose proof f64_unit_pos as Hu.
  destruct (is_int_of_Z 0) as (Hz & _ & Ez); [lia|].
  destruct (Z.le_gt_cases l t) as [Hle|Hgt].
  - pose proof (is_int_sub _ _ _ _ Ht Hl ltac:(lia) ltac:(lia)) as Hs.
    rewrite f64_ltb_spec, (proj2 (Z.ltb_ge _ _)); [by rewrite Z.max_r by lia| |apply Hs|done].
    destruct Hs as (_ & _ & ->). rewrite Ez. nia.
  - pose proof (is_int_sub _ _ _ _ Hl Ht ltac:(lia) ltac:(lia)) as (Hok & Hf & Ev).
    destruct Ht as (Hx & Hfx & Ex). destruct Hl as (Hy & Hfy & Ey).
    rewrite f64_sub_opp by (try done; nia).
    destruct (f64_pos_finite _ Hok Hf) as [[s E]|(m & e & E & _)]; rewrite E in *.
    { simpl in Ev. nia. }
    change (f64_ltb _ _) with true. rewrite Z.max_l by lia. by apply is_int_of_Z.
Qed.

(** [now] is the reading of the clock in milliseconds. *)
Lemma lua_now_spec (sec us : float64) (s u : Z) :
  is_int sec s -> is_int us u -> 0 <= s <= 2 ^ 43 -> 0 <= u < 1000000 ->
  is_int (lua_now sec us) (s * 1000 + u / 1000).
Proof.
  intros Hs (Hok & Hf & Ev) Hs0 Hu0. pose proof f64_unit_pos as Hu.
  pose proof (is_int_of_Z 1000 ltac:(lia)) as Hk. destruct (Hk) as (Hk1 & Hk2 & Hk3).
  pose proof (f64_div_rounded us (f64_of_Z 1000) Hok Hf Hk1 Hk2 ltac:(lia)) as Hr.
  rewrite Ev, Hk3 in Hr. set (q := f64_div us (f64_of_Z 1000)) in *.
  set (a := u / 1000) in *.
  pose proof (Z.div_mod u 1000 ltac:(done)) as Ed. fold a in Ed.
  pose proof (Z.mod_pos_bound u 1000 ltac:(done)) as Hb.
  assert (Ha : 0 <= a < 1000) by lia.
  assert (HY : 0 < 1000 * f64_unit) by lia.
  assert (Eu : f64_unit = 1024 * 2 ^ 1064) by (unfold f64_unit; rewrite <- (pow2_add 10) by lia; done).
  assert (Hlo : a * f64_unit <= f64_val q).
  { destruct (is_int_of_Z a ltac:(lia)) as (Ga & Gf & <-).
    apply (rounded_ge_float _ _ _ _ HY Hr Ga Gf). destruct (is_int_of_Z a ltac:(lia)) as (_ & _ & ->).
    replace (a * f64_unit * (1000 * f64_unit)) with (1000 * a * (f64_unit * f64_unit)) by ring.
    replace (u * f64_unit * f64_unit) with (u * (f64_unit * f64_unit)) by ring.
    apply Z.mul_le_mono_nonneg_r; nia. }
  assert (Hhi : f64_val q <= (1024 * a + 1023) * 2 ^ 1064).
  { apply (rounded_le _ _ _ HY Hr); [lia|lia|].
    replace (u * f64_unit * f64_unit) with (1024 * u * (2 ^ 1064 * f64_unit)) by (rewrite Eu; ring).
    replace (_ * 2 ^ 1064 * _) with (1000 * (1024 * a + 1023) * (2 ^ 1064 * f64_unit)) by ring.
    pose proof (pow2_pos 1064 ltac:(lia)). apply Z.mul_le_mono_nonneg_r; nia. }
  assert (Hlt : f64_val q < (a + 1) * f64_unit).
  { pose proof (pow2_pos 1064 ltac:(lia)). rewrite Eu. nia. }
  assert (Hqok : f64_pos_ok q) by apply Hr.
  assert (Hqf : f64_finite q = true).
  { apply f64_finite_of_lt; [done|]. eapply Z.le_lt_trans; [exact Hhi|].
    apply (finite_value_max (1024 * a + 1023) (-10)); lia. }
  assert (Ea : f64_val q / f64_unit = a).
  { symmetry. apply (Z.div_unique _ _ a (f64_val q - a * f64_unit)); lia. }
  pose proof (math_floor_spec q Hqok Hqf ltac:(nia)) as Hfl. rewrite Ea in Hfl.
  unfold lua_now. fold q. apply is_int_add; [apply is_int_mul; [done|done|lia]|done|lia].
Qed.

(** ** The refill *)

(** The limits of a bucket: a capacity of [C] tokens and a rate of at least
    one token per second, both up to [2 ^ 20]. *)
Record lua_limits (capacity refillRate : float64) (C : Z) : Prop := {
  ll_capacity : is_int capacity C;
  ll_range : 1 <= C <= 2 ^ 20;
  ll_rate : f64_pos_ok refillRate /\ f64_finite refillRate = true;
  ll_rate_range : f64_unit <= f64_val refillRate <= 2 ^ 20 * f64_unit;
}.

(** The tokens of a bucket: a number between 0 and the capacity. *)
Definition tokens_ok (C : Z) (x : float64) : Prop :=
  f64_pos_ok x /\ f64_finite x = true /\ f64_val x <= C * f64_unit.

(** Thousand times the tokens a bucket that holds [x] tokens has after [w]
    milliseconds, computed exactly. *)
Definition level (C rate x w : Z) : Z :=
  Z.min (1000 * (C * f64_unit)) (1000 * x + rate * w).

Section Refill.
Context (capacity refillRate : float64) (C : Z) (b : lua_bucket) (now : float64) (w : Z).
Context (Hlim : lua_limits capacity refillRate C) (Htok : tokens_ok C (tokens b)).
Context (Hw : is_int (lua_elapsed now (lastRefill b)) w) (Hw0 : 0 <= w <= 2 ^ 53).

Let K := C * f64_unit.
Let V := f64_val refillRate * w.
Let p := f64_mul refillRate (lua_elapsed now (lastRefill b)).
Let q := f64_div p (f64_of_Z 1000).
Let s := f64_add (tokens b) q.

(** The rounded amount a refill adds. *)
Lemma refill_amount :
  f64_pos_ok q /\ f64_finite q = true /\
  2 ^ 106 * (1000 * f64_val q) <= (2 ^ 53 + 1) * (2 ^ 53 + 1) * V + 2 ^ 116 /\
  (2 ^ 53 - 1) * (2 ^ 53 - 1) * V <= 2 ^ 106 * (1000 * f64_val q) + 2 ^ 116.
Proof.
  pose proof f64_unit_pos as Hu. destruct Hlim as [_ _ [Hr Hrf] Hrr].
  destruct Hw as (He & Hef & Ee). destruct (is_int_of_Z 1000) as (Hk & Hkf & Ek); [lia|].
  pose proof (f64_mul_rounded _ _ Hr Hrf He Hef) as Hp. fold p in Hp.
  replace (f64_val refillRate * f64_val _) with (V * f64_unit) in Hp
    by (unfold V; rewrite Ee; ring).
  assert (HV : 0 <= V <= 2 ^ 73 * f64_unit).
  { unfold V. split; [nia|].
    transitivity (2 ^ 20 * f64_unit * 2 ^ 53); [apply Z.mul_le_mono_nonneg; lia|lia]. }
  assert (Hpf : f64_finite p = true).
  { apply f64_finite_of_lt; [apply Hp|].
    apply Z.le_lt_trans with (1 * 2 ^ (73 + 1074)); [|apply (finite_value_max 1 73); lia].
    apply (rounded_le _ _ _ Hu Hp); [lia..|]. rewrite pow2_add by lia. fold f64_unit. nia. }
  pose proof (f64_div_rounded _ _ (proj1 Hp) Hpf Hk Hkf ltac:(lia)) as Hq. fold q in Hq.
  assert (HY : 0 < f64_val (f64_of_Z 1000)) by lia. rewrite Ek in *.
  pose proof (rounded_upper _ _ _ Hu Hp) as Hpu. pose proof (rounded_lower _ _ _ Hu Hp Hpf) as Hpl.
  assert (Hqf : f64_finite q = true).
  { apply f64_finite_of_lt; [apply Hq|]. pose proof (f64_val_finite_lt p (proj1 Hp) Hpf).
    apply Z.le_lt_trans with (f64_val p); [|done].
    apply (rounded_le_float _ _ _ _ HY Hq (proj1 Hp) Hpf).
    pose proof (f64_val_nonneg p (proj2 (proj1 Hp))). nia. }
  split; [apply Hq|]. split; [done|].
  pose proof (rounded_upper _ _ _ HY Hq) as Hqu. pose proof (rounded_lower _ _ _ HY Hq Hqf) as Hql.
  clearbody V p q. assert (2 ^ 53 * f64_val p <= (2 ^ 53 + 1) * V + 2 ^ 52) by nia.
  assert ((2 ^ 53 - 1) * V <= 2 ^ 53 * f64_val p + 2 ^ 52) by nia.
  assert (2 ^ 53 * (1000 * f64_val q) <= (2 ^ 53 + 1) * f64_val p + 2 ^ 52 * 1000) by nia.
  assert ((2 ^ 53 - 1) * f64_val p <= 2 ^ 53 * (1000 * f64_val q) + 2 ^ 52 * 1000) by nia.
  split; lia.
Qed.

Lemma refill_new :
  tokens_ok C (lua_refill capacity refillRate b now) /\
  rounded (f64_val (tokens b) + f64_val q) 1 s /\
  f64_val (lua_refill capacity refillRate b now) = Z.min (f64_val s) K.
Proof.
  pose proof f64_unit_pos as Hu. destruct Hlim as [(Hc & Hcf & Ec) HC _ _].
  destruct Htok as (Ht & Htf & Htc). destruct refill_amount as (Hq & Hqf & _).
  pose proof (f64_add_rounded _ _ Ht Htf Hq Hqf) as Hs. fold s in Hs.
  unfold lua_refill. fold p. fold q. fold s. rewrite f64_ltb_spec by (done || apply Hs).
  fold K in Ec. rewrite Ec. unfold tokens_ok.
  destruct (K <? f64_val s) eqn:E; bool_to_prop.
  - split; [split; [done|]; split; [done|]; fold K; lia|]. split; [done|lia].
  - split; [|split; [done|lia]]. split; [apply Hs|]. split; [|done].
    apply f64_finite_of_lt; [apply Hs|]. pose proof (f64_val_finite_lt _ Hc Hcf). lia.
Qed.

(** A refill after no time changes nothing. *)
Lemma lua_refill_now :
  w = 0 -> f64_val (lua_refill capacity refillRate b now) = f64_val (tokens b).
Proof.
  intros Hw1. destruct refill_new as (_ & Hs & ->). destruct Htok as (Ht & Htf & Htc).
  assert (Hq0 : f64_val q = 0).
  { destruct refill_amount as (Hq & Hqf & Hup & _). pose proof f64_unit_pos as Hu.
    destruct Hw as (He & Hef & Ee). destruct (is_int_of_Z 1000) as (Hk & Hkf & Ek); [lia|].
    destruct Hlim as [_ _ [Hr Hrf] _].
    pose proof (f64_mul_rounded _ _ Hr Hrf He Hef) as Hp. fold p in Hp.
    rewrite Ee, Hw1, Z.mul_0_r in Hp.
    destruct (rounded_int _ _ 0 _ Hu Hp ltac:(lia) eq_refl) as (Hpo & Hpf & Ep).
    assert (HY : 0 < f64_val (f64_of_Z 1000)) by lia.
    pose proof (f64_div_rounded _ _ Hpo Hpf Hk Hkf HY) as Hd. fold q in Hd. rewrite Ep in Hd.
    destruct (rounded_int _ _ 0 _ HY Hd ltac:(lia) eq_refl) as (_ & _ & ->).
    done. }
  rewrite Hq0, Z.add_0_r in Hs.
  pose proof (rounded_le_float _ _ _ _ Z.lt_0_1 Hs Ht Htf ltac:(lia)).
  pose proof (rounded_ge_float _ _ _ _ Z.lt_0_1 Hs Ht Htf ltac:(lia)). fold K in Htc. lia.
Qed.

(** A refill adds what the rate gives, up to one part in [2 ^ 49] of the
    capacity. *)
Lemma lua_refill_growth :
  2 ^ 49 * (1000 * f64_val (lua_refill capacity refillRate b now)) <=
  2 ^ 49 * level C (f64_val refillRate) (f64_val (tokens b)) w + 1000 * K.
Proof.
  destruct refill_new as (_ & Hs & ->). destruct refill_amount as (_ & _ & Hq & _).
  pose proof (rounded_upper_int _ _ Hs) as Hsu. pose proof f64_unit_pos as Hu.
  assert (2 ^ 70 <= f64_unit) by (apply pow2_le; lia).
  pose proof (ll_range _ _ _ Hlim). assert (2 ^ 70 <= K) by (unfold K; nia).
  pose proof (f64_val_nonneg _ (proj2 (proj1 Htok))).
  assert (0 <= V) by (unfold V; pose proof (ll_rate_range _ _ _ Hlim); nia).
  unfold level. fold V. fold K. clearbody V K.
  destruct (Z.le_gt_cases (2000 * K) (1000 * f64_val (tokens b) + V)); lia.
Qed.

(** A bucket left alone for half as long again as filling it takes is full. *)
Lemma lua_refill_full :
  1500 * K <= V -> f64_val (lua_refill capacity refillRate b now) = K.
Proof.
  intros HV. destruct refill_new as (_ & Hs & ->). destruct refill_amount as (_ & _ & _ & Hq).
  pose proof f64_unit_pos as Hu. assert (2 ^ 70 <= f64_unit) by (apply pow2_le; lia).
  pose proof (ll_range _ _ _ Hlim). assert (2 ^ 70 <= K) by (unfold K; nia).
  destruct Hlim as [(Hc & Hcf & Ec) _ _ _]. fold K in Ec.
  assert (K <= f64_val s); [|lia].
  rewrite <- Ec. apply (rounded_ge_float _ _ _ _ Z.lt_0_1 Hs Hc Hcf).
  rewrite Ec. pose proof (f64_val_nonneg _ (proj2 (proj1 Htok))). clearbody K V. lia.
Qed.
End Refill.

(** ** The expiry *)

(** The integer arithmetic of [ttl]: the rounded quotient, its double and the
    rounded-up seconds. *)
Lemma ttl_fills (q d K R c : Z) :
  0 < R -> 0 < f64_unit -> R <= 2 ^ 20 * f64_unit <= 2 ^ 20 * K ->
  (2 ^ 53 - 1) * (K * f64_unit) <= 2 ^ 53 * (q * R) + 2 ^ 52 * R ->
  (2 ^ 53 - 1) * (q * (2 * f64_unit)) <= 2 ^ 53 * (d * f64_unit) + 2 ^ 52 * f64_unit ->
  d <= c * f64_unit -> 1500 * K <= R * (c * 1000).
Proof.
  intros HR Hu HKR Hq Hd Hc.
  assert (Hd2 : (2 ^ 53 - 1) * (2 * q) <= 2 ^ 53 * d + 2 ^ 52) by nia.
  assert (HRd : (2 ^ 53 - 1) * (2 * (q * R)) <= 2 ^ 53 * (R * d) + 2 ^ 52 * R) by nia.
  assert (Hdu : R * d <= R * c * f64_unit) by nia.
  assert (H70 : 2 ^ 70 <= f64_unit) by (apply pow2_le; lia).
  apply (Z.mul_le_mono_pos_r _ _ f64_unit); [done|].
  replace (R * (c * 1000) * f64_unit) with (1000 * (R * c * f64_unit)) by ring.
  set (KU := K * f64_unit) in *.
  assert (HRU : 2 ^ 50 * R <= KU).
  { unfold KU. rewrite (Z.mul_comm K). transitivity (2 ^ 70 * K); [lia|].
    apply Z.mul_le_mono_nonneg_r; lia. }
  replace (1500 * K * f64_unit) with (1500 * KU) by (unfold KU; ring).
  clearbody KU. lia.
Qed.

(** The script lets a bucket live for [n] seconds; [n - 1] seconds are
    enough to fill it, with half as many again. *)
Lemma lua_ttl_spec (capacity refillRate : float64) (C : Z) :
  lua_limits capacity refillRate C ->
  exists n, 1 <= n <= 2 ^ 21 + 1 /\ is_int (lua_ttl capacity refillRate) n /\
    1500 * (C * f64_unit) <= f64_val refillRate * ((n - 1) * 1000).
Proof.
  intros [(Hc & Hcf & Ec) HC [Hr Hrf] Hrr]. pose proof f64_unit_pos as Hu.
  destruct (is_int_of_Z 2) as (H2 & H2f & E2); [lia|].
  destruct (is_int_of_Z (2 * C)) as (HD & HDf & ED); [lia|].
  set (K := C * f64_unit) in *. set (R := f64_val refillRate) in *.
  assert (HR : 0 < R) by lia.
  pose proof (f64_div_rounded _ _ Hc Hcf Hr Hrf HR) as Hq. fold R in Hq. rewrite Ec in Hq.
  unfold lua_ttl. set (q := f64_div capacity refillRate) in *.
  assert (Hqc : f64_val q <= K).
  { rewrite <- Ec. apply (rounded_le_float _ _ _ _ HR Hq Hc Hcf). rewrite Ec.
    apply Z.mul_le_mono_nonneg_l; unfold K; nia. }
  assert (Hqf : f64_finite q = true).
  { apply f64_finite_of_lt; [apply Hq|]. pose proof (f64_val_finite_lt _ Hc Hcf). lia. }
  pose proof (f64_mul_rounded _ _ (proj1 Hq) Hqf H2 H2f) as Hd. rewrite E2 in Hd.
  set (d := f64_mul q (f64_of_Z 2)) in *.
  assert (Hdc : f64_val d <= 2 * K).
  { replace (2 * K) with (2 * C * f64_unit) by (unfold K; ring). rewrite <- ED.
    apply (rounded_le_float _ _ _ _ Hu Hd HD HDf). rewrite ED. unfold K in Hqc. nia. }
  assert (Hdf : f64_finite d = true).
  { apply f64_finite_of_lt; [apply Hd|]. pose proof (f64_val_finite_lt _ HD HDf).
    unfold K in Hdc. lia. }
  destruct (math_ceil_spec d (proj1 Hd) Hdf) as (c & Hc0 & Hci & Hcd); [unfold K in Hdc; nia|].
  assert (Hcmax : c <= 2 * C).
  { assert (c - 1 < 2 * C); [|lia]. apply (Z.mul_lt_mono_pos_r f64_unit); [done|].
    unfold K in Hdc. lia. }
  exists (c + 1). split; [lia|]. split; [apply is_int_add; [done|by apply is_int_of_Z|lia]|].
  pose proof (rounded_lower _ _ _ HR Hq Hqf) as Hql. pose proof (rounded_lower _ _ _ Hu Hd Hdf) as Hdl.
  replace (c + 1 - 1) with c by lia.
  assert (HKR : R <= 2 ^ 20 * f64_unit <= 2 ^ 20 * K) by (unfold K; nia).
  apply (ttl_fills (f64_val q) (f64_val d)); try done. lia.
Qed.

(** ** Charging a bucket *)

(** The bucket after a request for [n] tokens at [now], and whether the
    request is granted. *)
Definition lua_charge (capacity refillRate : float64) (b : lua_bucket) (now requested : float64)
  : bool * lua_bucket :=
  let newTokens := lua_refill capacity refillRate b now in
  if f64_leb requested newTokens
  then (true, mkLuaBucket (f64_sub newTokens requested) now)
  else (false, mkLuaBucket newTokens now).

(** The bucket keeps its tokens between 0 and the capacity, and what it hands
    out and keeps is at most what it had and what the rate gave. *)
Lemma lua_charge_spec (capacity refillRate : float64) (C : Z) (b : lua_bucket)
    (now : float64) (n w : Z) :
  lua_limits capacity refillRate C -> tokens_ok C (tokens b) ->
  is_int (lua_elapsed now (lastRefill b)) w -> 0 <= w <= 2 ^ 53 -> 1 <= n ->
  let new := lua_refill capacity refillRate b now in
  let '(ok, b') := lua_charge capacity refillRate b now (f64_of_Z n) in
  ok = (n * f64_unit <=? f64_val new) /\ tokens_ok C (tokens b') /\ lastRefill b' = now /\
  f64_val (tokens b') = f64_val new - (if ok then n * f64_unit else 0) /\
  2 ^ 49 * (1000 * (f64_val (tokens b') + (if ok then n * f64_unit else 0))) <=
  2 ^ 49 * level C (f64_val refillRate) (f64_val (tokens b)) w + 1000 * (C * f64_unit).
Proof.
  intros Hlim Htok Hw Hw0 Hn new. pose proof f64_unit_pos as Hu.
  destruct (refill_new _ _ _ _ _ _ Hlim Htok Hw Hw0) as ((Hok & Hf & Hle) & _ & _).
  pose proof (lua_refill_growth _ _ _ _ _ _ Hlim Htok Hw Hw0) as Hg. fold new in Hok, Hf, Hle, Hg.
  pose proof (ll_range _ _ _ Hlim) as HC. unfold lua_charge. fold new.
  rewrite f64_leb_int by (done || nia). destruct (_ <=? _) eqn:El; bool_to_prop.
  - destruct (f64_sub_int_exact new n Hok Hf ltac:(nia) Hn El) as (Ev & Hf' & Hok').
    split; [done|]. unfold tokens_ok. simpl. rewrite Ev.
    split; [split; [done|]; split; [done|nia]|]. split; [done|]. split; [done|lia].
  - split; [done|]. split; [done|]. split; [done|]. split; [simpl; lia|]. simpl. lia.
Qed.
