(* ===== verification/RedisLimiter.v ===== *)
(** * [internal/ratelimit/redis_limiter.go]: the distributed limiter

    Redis and its client library are the class [Redis]: the commands the two
    Lua scripts call, the running of a script and the commands the Go code
    sends, each of them possibly failing.  The scripts are translated
    command by command; a script runs atomically, so it is a function on the
    state of the server.  What Redis does is stated by [RedisSpec]; a store
    in finite maps that satisfies it is given for the witnesses.

    Numbers in hashes and arguments are strings, of which only the
    conversions from and to numbers matter: they are values of the type [B]
    of bulk strings. *)
From S2P Require Import Prelude GoTime Float64 Float64Facts GoError GoString Limiter LuaBucket.

(** ** Redis *)

(** Lua values; a table is a reply, and a missing hash field in it is [false]. *)
Inductive lua_value (B : Type) :=
  | LNil | LFalse | LNum (x : float64) | LBulk (b : B) | LTable (l : list (option B)).
Arguments LNil {B}.
Arguments LFalse {B}.
Arguments LNum {B} x.
Arguments LBulk {B} b.
Arguments LTable {B} l.

(** The commands of the scripts. *)
Inductive command :=
  | TIME
  | HMGET (key : string) (fields : list string)
  | HMSET (key : string) (values : list (string * float64))
  | EXPIRE (key : string) (seconds : float64).

(** Arguments the Go code passes, and replies it gets: an [int64] or a value
    of another type. *)
Inductive go_arg := GoInt (z : Z) | GoFloat (x : float64).
Inductive redis_value := RInt (z : Z) | ROther (type : string).

Record Options := mkOptions {
  Addr : string; o_Password : string; o_DB : Z; o_PoolSize : Z; o_MinIdleConns : Z;
  o_DialTimeout : Z; o_ReadTimeout : Z; o_WriteTimeout : Z;
}.

Class Redis (R B : Type) := {
  redis_call : command -> R -> (lua_value B + error) * R;
  bulk_of_int : Z -> B;
  bulk_of_float : float64 -> B;
  bulk_of_number : float64 -> B;
  bulk_tonumber : B -> option float64;
  (* [script.Run(ctx, client, keys, args...).Result()] *)
  script_Run : (list string -> list B -> R -> (lua_value B + error) * R) ->
    list string -> list go_arg -> R -> (redis_value + error) * R;
  client_HSet : string -> list (string * go_arg) -> R -> option error * R;
  client_Del : list string -> R -> option error * R;
  NewClient : Options -> R;
  client_Ping : R -> option error * R;
  client_Close : R -> option error * R;
}.

Definition arg_bulk {R B} `{!Redis R B} (a : go_arg) : B :=
  match a with GoInt z => bulk_of_int z | GoFloat x => bulk_of_float x end.

(** ** The scripts *)

Section Scripts.
Context {R B : Type} `{!Redis R B}.

(** A script runs on the server's state and returns a value or an error; the
    writes it made before an error stay. *)
Definition Script (A : Type) : Type := R -> (A + error) * R.

Definition sret {A} (a : A) : Script A := fun r => (inl a, r).
Definition raise {A} (msg : string) : Script A := fun r => (inr (errors_New msg), r).
Definition sbind {A A'} (m : Script A) (k : A -> Script A') : Script A' :=
  fun r => match m r with
           | (inl a, r) => k a r
           | (inr e, r) => (inr e, r)
           end.
Local Notation "'let!' x := m 'in' k" := (sbind m (fun x => k))
  (at level 10, x binder, m at level 100, k at level 200).

Definition call (c : command) : Script (lua_value B) := redis_call c.

Definition tonumber (v : lua_value B) : option float64 :=
  match v with LNum x => Some x | LBulk b => bulk_tonumber b | _ => None end.

Definition truthy (v : lua_value B) : bool :=
  match v with LNil | LFalse => false | _ => true end.

(** [v[i]], with Lua's indices from 1. *)
Definition index (v : lua_value B) (i : nat) : lua_value B :=
  match v with
  | LTable l => match l !! Nat.pred i with
                | Some (Some b) => LBulk b
                | Some None => LFalse
                | None => LNil
                end
  | _ => LNil
  end.

(** The use of a value in arithmetic or a comparison. *)
Definition number (x : option float64) : Script float64 :=
  match x with
  | Some x => sret x
  | None => raise "attempt to perform arithmetic on a nil value"
  end.

Definition argv (ARGV : list B) (i : nat) : option float64 :=
  ARGV !! Nat.pred i ≫= bulk_tonumber.

(** The statements both scripts start with. *)
Definition script_now : Script float64 :=
  let! redisTime := call TIME in
  let! sec := number (tonumber (index redisTime 1)) in
  let! us := number (tonumber (index redisTime 2)) in
  sret (lua_now sec us).

Definition script_limits (key : string) (defaultCapacity defaultRefillRate : option float64)
  : Script (option float64 * option float64) :=
  let! cfg := call (HMGET (key +:+ ":cfg") ["burst"; "rps"]) in
  sret (if truthy (index cfg 1) && truthy (index cfg 2)
        then (tonumber (index cfg 1), tonumber (index cfg 2))
        else (defaultCapacity, defaultRefillRate)).

Definition script_state (key : string) : Script (option float64 * option float64) :=
  let! data := call (HMGET key ["tokens"; "lastRefill"]) in
  sret (tonumber (index data 1), tonumber (index data 2)).

(** [tokenBucketScript]. *)
Definition tokenBucketScript (KEYS : list string) (ARGV : list B) : Script (lua_value B) :=
  match KEYS with
  | [] => raise "attempt to concatenate a nil value"
  | key :: _ =>
      let! now := script_now in
      let! limits := script_limits key (argv ARGV 1) (argv ARGV 2) in
      let! state := script_state key in
      let '(tokens, lastRefill) :=
        match fst state with
        | None => (fst limits, Some now)
        | Some _ => state
        end in
      let! capacity := number (fst limits) in
      let! refillRate := number (snd limits) in
      let! tokens := number tokens in
      let! lastRefill := number lastRefill in
      let! requested := number (argv ARGV 3) in
      let '(ok, b) := lua_charge capacity refillRate (mkLuaBucket tokens lastRefill) now requested in
      let! _ := call (HMSET key [("tokens", LuaBucket.tokens b); ("lastRefill", now)]) in
      let! _ := call (EXPIRE key (lua_ttl capacity refillRate)) in
      sret (LNum (f64_of_Z (if ok then 1 else 0)))
  end.

(** [getTokensScript]. *)
Definition getTokensScript (KEYS : list string) (ARGV : list B) : Script (lua_value B) :=
  match KEYS with
  | [] => raise "attempt to concatenate a nil value"
  | key :: _ =>
      let! now := script_now in
      let! limits := script_limits key (argv ARGV 1) (argv ARGV 2) in
      let! state := script_state key in
      let! capacity := number (fst limits) in
      match fst state with
      | None => sret (LNum (math_floor capacity))
      | Some tokens =>
          let! refillRate := number (snd limits) in
          let! lastRefill := number (snd state) in
          sret (LNum (math_floor
            (lua_refill capacity refillRate (mkLuaBucket tokens lastRefill) now)))
      end
  end.
End Scripts.

#[global] Arguments tokenBucketScript : simpl never.
#[global] Arguments getTokensScript : simpl never.

(** ** The limiter *)

Record RedisConfig := mkRedisConfig {
  rc_Host : string; rc_Port : Z; rc_Password : string; rc_DB : Z;
  rc_PoolSize : Z; rc_MinIdleConns : Z;
  rc_DialTimeout : Z; rc_ReadTimeout : Z; rc_WriteTimeout : Z;
  rc_KeyPrefix : string;
}.

(** [client] stands for the server behind the connection pool; the scripts
    are constants. *)
Record RedisLimiter (R : Type) := mkRedisLimiter {
  client : R; config : Config; keyPrefix : string;
}.
Arguments mkRedisLimiter {R} client config keyPrefix.
Arguments client {R} r.
Arguments config {R} r.
Arguments keyPrefix {R} r.

Section Limiter.
Context {R B : Type} `{!Redis R B}.

Definition set_client (r : RedisLimiter R) (c : R) : RedisLimiter R :=
  mkRedisLimiter c (config r) (keyPrefix r).

(** [NewRedisLimiter]. *)
Definition NewRedisLimiter (redisCfg : RedisConfig) (limitConfig : Config)
  : RedisLimiter R + error :=
  if BurstSize limitConfig <=? 0 then inr (errors_New "burst size must be positive")
  else if f64_leb (TokensPerSecond limitConfig) (f64_of_Z 0) then
    inr (errors_New "tokens per second must be positive")
  else
    let c := NewClient (mkOptions (rc_Host redisCfg +:+ ":" +:+ Itoa (rc_Port redisCfg))
               (rc_Password redisCfg) (rc_DB redisCfg) (rc_PoolSize redisCfg)
               (rc_MinIdleConns redisCfg) (rc_DialTimeout redisCfg)
               (rc_ReadTimeout redisCfg) (rc_WriteTimeout redisCfg)) in
    match client_Ping c with
    | (Some err, c) => let _ := client_Close c in inr (wrap_error "connect to redis" err)
    | (None, c) =>
        let prefix := if bool_decide (rc_KeyPrefix redisCfg = "") then "ratelimit:"
                      else rc_KeyPrefix redisCfg in
        inl (mkRedisLimiter c limitConfig prefix)
    end.

Definition key (r : RedisLimiter R) (clientID : string) : string := keyPrefix r +:+ clientID.

Definition cfg_key (r : RedisLimiter R) (clientID : string) : string := key r clientID +:+ ":cfg".

(** [result.(int64)]. *)
Definition int_reply (result : redis_value) : Z + error :=
  match result with
  | RInt z => inl z
  | ROther type => inr (errors_New ("unexpected result type " +:+ type))
  end.

Definition redis_AllowN (r : RedisLimiter R) (clientID : string) (n : Z)
  : (bool * option error) * RedisLimiter R :=
  if n <=? 0 then ((true, None), r)
  else
    let '(result, c) := script_Run tokenBucketScript [key r clientID]
      [GoInt (BurstSize (config r)); GoFloat (TokensPerSecond (config r)); GoInt n] (client r) in
    (match result with
     | inr err => (false, Some (wrap_error "execute rate limit check" err))
     | inl v => match int_reply v with
                | inr err => (false, Some err)
                | inl val => (val =? 1, None)
                end
     end, set_client r c).

Definition redis_Allow (r : RedisLimiter R) (clientID : string)
  : (bool * option error) * RedisLimiter R := redis_AllowN r clientID 1.

Definition redis_Tokens (r : RedisLimiter R) (clientID : string)
  : (Z * option error) * RedisLimiter R :=
  let '(result, c) := script_Run getTokensScript [key r clientID]
    [GoInt (BurstSize (config r)); GoFloat (TokensPerSecond (config r))] (client r) in
  (match result with
   | inr err => (0, Some (wrap_error "get token count" err))
   | inl v => match int_reply v with
              | inr err => (0, Some err)
              | inl val => (val, None)
              end
   end, set_client r c).

Definition redis_SetLimit (r : RedisLimiter R) (clientID : string) (burst : Z) (rps : float64)
  : option error * RedisLimiter R :=
  let '(err, c) := client_HSet (cfg_key r clientID)
                     [("burst", GoInt burst); ("rps", GoFloat rps)] (client r) in
  (err, set_client r c).

Definition redis_Reset (r : RedisLimiter R) (clientID : string) : option error * RedisLimiter R :=
  let '(err, c) := client_Del [key r clientID; cfg_key r clientID] (client r) in
  (err, set_client r c).

(** [Close]; the client is nil only in a zero [RedisLimiter], which
    [NewRedisLimiter] never returns. *)
Definition redis_Close (r : RedisLimiter R) : option error * RedisLimiter R :=
  let '(err, c) := client_Close (client r) in (err, set_client r c).
End Limiter.

(** The calls take the server's time, not the gateway's, and do not panic. *)
#[export] Instance redis_limiter {R B} `{!Redis R B} : Limiter (RedisLimiter R) := {
  limiter_Allow r id _ := let '(res, r) := redis_Allow r id in (Return res, r);
  limiter_Tokens r id _ := let '(res, r) := redis_Tokens r id in (Return res, r);
  limiter_Reset r id := let '(err, r) := redis_Reset r id in (Return err, r);
  limiter_SetLimit r id burst rps _ :=
    let '(err, r) := redis_SetLimit r id burst rps in (Return err, r);
  limiter_Close r := redis_Close r;
}.

(** ** What Redis does *)

(** The hashes, the expiry times and the clock of the server, in
    microseconds.  Between two commands of one client the server changes as
    [reaches] allows: time passes, other clients send commands, keys expire,
    and commands whose reply is lost take effect. *)
Class RedisSpec (R B : Type) `{!Redis R B} := {
  field : R -> string -> string -> option B;
  deadline : R -> string -> option Z;
  now_us : R -> Z;
  reaches : R -> R -> Prop;
  (* readings of the clock before the year 278,000 *)
  now_us_range r : 0 <= now_us r < 2 ^ 43 * 1000000;
  (* conversions between numbers and strings round to nearest, and a number
     survives being printed and read *)
  tonumber_int z : bulk_tonumber (bulk_of_int z) = Some (f64_of_Z z);
  tonumber_float x : f64_pos_ok x -> f64_finite x = true ->
    bulk_tonumber (bulk_of_float x) = Some x;
  tonumber_number x : f64_pos_ok x -> f64_finite x = true ->
    bulk_tonumber (bulk_of_number x) = Some x;
  (* the commands, within a script *)
  call_TIME r : redis_call TIME r =
    (inl (LTable [Some (bulk_of_int (now_us r / 1000000));
                  Some (bulk_of_int (now_us r mod 1000000))]), r);
  call_HMGET k fs r : redis_call (HMGET k fs) r = (inl (LTable (field r k <$> fs)), r);
  (* it may fail, and then writes nothing *)
  call_HMSET k fvs r : let '(res, r') := redis_call (HMSET k fvs) r in
    now_us r' = now_us r /\ (forall k', deadline r' k' = deadline r k') /\
    forall k' f, field r' k' f =
      match res with
      | inl _ => if decide (k' = k)
                 then match (list_to_map fvs : gmap string float64) !! f with
                      | Some x => Some (bulk_of_number x)
                      | None => field r k f
                      end
                 else field r k' f
      | inr _ => field r k' f
      end;
  (* it does not fail on a key that exists, for a whole number of seconds *)
  call_EXPIRE k x n f r : is_int x n -> 1 <= n <= 2 ^ 31 -> is_Some (field r k f) ->
    exists v r', redis_call (EXPIRE k x) r = (inl v, r') /\ now_us r' = now_us r /\
      (forall k' f', field r' k' f' = field r k' f') /\
      forall k', deadline r' k' = if decide (k' = k) then Some (now_us r + n * 1000000)
                                  else deadline r k';
  (* a reply is that of a run of the script, with numbers truncated *)
  run_script s ks args r v r' : script_Run s ks args r = (inl v, r') ->
    exists r1 lv r2, reaches r r1 /\ s ks (arg_bulk <$> args) r1 = (inl lv, r2) /\
      reaches r2 r' /\
      match lv with LNum x => RInt <$> f64_trunc x = Some v | _ => True end;
  (* a reply to [HSET] or [DEL] is that of the command, which ran once *)
  hset_ok k fvs r r' : NoDup fvs.*1 -> client_HSet k fvs r = (None, r') ->
    exists r1 r2, reaches r r1 /\ reaches r2 r' /\ now_us r2 = now_us r1 /\
      (forall k', deadline r2 k' = deadline r1 k') /\
      forall k' f, field r2 k' f =
        if decide (k' = k)
        then match (list_to_map fvs : gmap string go_arg) !! f with
             | Some a => Some (arg_bulk a)
             | None => field r1 k f
             end
        else field r1 k' f;
  del_ok ks r r' : client_Del ks r = (None, r') ->
    exists r1 r2, reaches r r1 /\ reaches r2 r' /\ now_us r2 = now_us r1 /\
      forall k, if decide (k ∈ ks) then deadline r2 k = None /\ forall f, field r2 k f = None
                else deadline r2 k = deadline r1 k /\ forall f, field r2 k f = field r1 k f;
}.

(** ** A client's bucket on the server *)

Section Spec.
Context {R B : Type} `{!Redis R B, !RedisSpec R B}.

(** The clock as the scripts read it. *)
Definition now_ms (r : R) : Z := now_us r / 1000.

(** The bucket stored under a key. *)
Inductive stored (r : R) (k : string) : option lua_bucket -> Prop :=
  | stored_none : field r k "tokens" = None -> stored r k None
  | stored_some b t l :
      field r k "tokens" = Some t -> bulk_tonumber t = Some (tokens b) ->
      field r k "lastRefill" = Some l -> bulk_tonumber l = Some (lastRefill b) ->
      stored r k (Some b).

(** The limits in force for a key: its override, or the defaults a gateway
    passes. *)
Definition limits_are (r : R) (k : string) (burst rps : go_arg) (cap rate : float64) : Prop :=
  match field r (k +:+ ":cfg") "burst", field r (k +:+ ":cfg") "rps" with
  | Some a, Some b => bulk_tonumber a = Some cap /\ bulk_tonumber b = Some rate
  | _, _ => bulk_tonumber (arg_bulk burst) = Some cap /\ bulk_tonumber (arg_bulk rps) = Some rate
  end.

(** An override is in force for a key, whatever defaults a gateway passes. *)
Definition overridden (r : R) (k : string) (cap rate : float64) : Prop :=
  forall burst rps, limits_are r k burst rps cap rate.

Lemma now_ms_range (r : R) : 0 <= now_ms r <= 2 ^ 53.
Proof.
  pose proof (now_us_range r). unfold now_ms.
  split; [apply Z.div_pos; lia|]. apply Z.div_le_upper_bound; lia.
Qed.

Lemma script_now_spec (r : R) :
  exists x, script_now r = (inl x, r) /\ is_int x (now_ms r).
Proof.
  pose proof (now_us_range r) as Hr. eexists. split.
  { unfold script_now, sbind, call. rewrite call_TIME. simpl.
    rewrite !tonumber_int. reflexivity. }
  pose proof (Z.div_mod (now_us r) 1000000 ltac:(done)) as E.
  pose proof (Z.mod_pos_bound (now_us r) 1000000 ltac:(done)) as Hm.
  set (s := now_us r / 1000000) in *. set (u := now_us r mod 1000000) in *.
  replace (now_ms r) with (s * 1000 + u / 1000).
  - apply lua_now_spec; [apply is_int_of_Z; lia..|lia|done].
  - unfold now_ms. rewrite E. replace (1000000 * s + u) with (s * 1000 * 1000 + u) by ring.
    by rewrite Z.div_add_l by done.
Qed.

Lemma script_limits_spec (r : R) (k : string) (burst rps : go_arg) (cap rate : float64) :
  limits_are r k burst rps cap rate ->
  script_limits k (bulk_tonumber (arg_bulk burst)) (bulk_tonumber (arg_bulk rps)) r =
    (inl (Some cap, Some rate), r).
Proof.
  unfold limits_are, script_limits, sbind, call. rewrite call_HMGET. simpl.
  destruct (field r (k +:+ ":cfg") "burst"), (field r (k +:+ ":cfg") "rps");
    simpl; intros [-> ->]; reflexivity.
Qed.

Lemma script_state_spec (r : R) (k : string) (b : option lua_bucket) :
  stored r k b ->
  exists l, script_state k r = (inl (tokens <$> b, l), r) /\
    (forall b', b = Some b' -> l = Some (lastRefill b')).
Proof.
  unfold script_state, sbind, call. rewrite call_HMGET. simpl.
  intros [->|b' t l -> Et -> El]; simpl.
  - by eexists.
  - rewrite Et, El. eexists. split; [reflexivity|]. by intros ? [= <-].
Qed.

(** A bucket a script can work on; a key without one counts as a full bucket
    refilled now. *)
Definition bucket_ok (C : Z) (b : option lua_bucket) : Prop :=
  match b with
  | None => True
  | Some b => tokens_ok C (tokens b) /\ exists l, is_int (lastRefill b) l /\ 0 <= l <= 2 ^ 53
  end.

Definition current (cap now : float64) (b : option lua_bucket) : lua_bucket :=
  default (mkLuaBucket cap now) b.

Lemma full_tokens_ok (cap rate : float64) (C : Z) : lua_limits cap rate C -> tokens_ok C cap.
Proof. intros [(Hc & Hf & Ec) _ _ _]. split; [done|]. split; [done|]. lia. Qed.

Lemma current_ok (cap rate now : float64) (C t : Z) (b : option lua_bucket) :
  lua_limits cap rate C -> bucket_ok C b -> is_int now t -> 0 <= t <= 2 ^ 53 ->
  tokens_ok C (tokens (current cap now b)) /\
  exists l, is_int (lastRefill (current cap now b)) l /\ 0 <= l <= 2 ^ 53 /\
    is_int (lua_elapsed now (lastRefill (current cap now b))) (Z.max 0 (t - l)).
Proof.
  intros Hlim Hb Hnow Ht. destruct b as [b|]; simpl.
  - destruct Hb as (Htok & l & Hl & Hl0). split; [done|]. exists l.
    split; [done|]. split; [done|]. by apply lua_elapsed_spec.
  - split; [by apply (full_tokens_ok cap rate)|]. exists t.
    split; [done|]. split; [done|]. by apply lua_elapsed_spec.
Qed.

(** The server after a charge of the bucket of [k]: the bucket is [b] and
    expires after the [ttl] of its limits; nothing else changed. *)
Definition charged_to (k : string) (cap rate : float64) (b : lua_bucket) (r r' : R) : Prop :=
  stored r' k (Some b) /\ now_us r' = now_us r /\
  (exists n, is_int (lua_ttl cap rate) n /\ 1 <= n <= 2 ^ 31 /\
     deadline r' k = Some (now_us r + n * 1000000)) /\
  (forall f, f <> "tokens" -> f <> "lastRefill" -> field r' k f = field r k f) /\
  forall k', k' <> k -> deadline r' k' = deadline r k' /\ forall f, field r' k' f = field r k' f.

(** The server after a script that failed. *)
Definition untouched (r r' : R) : Prop :=
  now_us r' = now_us r /\ forall k, deadline r' k = deadline r k /\
    forall f, field r' k f = field r k f.

(** The two writes at the end of the script. *)
Lemma write_bucket (k : string) (cap rate : float64) (C : Z) (b : lua_bucket)
    (v : lua_value B) (r : R) :
  lua_limits cap rate C -> tokens_ok C (tokens b) ->
  f64_pos_ok (lastRefill b) -> f64_finite (lastRefill b) = true ->
  let '(res, r') :=
    sbind (call (HMSET k [("tokens", tokens b); ("lastRefill", lastRefill b)]))
      (fun _ => sbind (call (EXPIRE k (lua_ttl cap rate))) (fun _ => sret v)) r in
  res = inl v /\ charged_to k cap rate b r r' \/ (exists e, res = inr e) /\ untouched r r'.
Proof.
  intros Hlim (Htok & Htf & _) Hlast Hlf. unfold sbind, call.
  pose proof (call_HMSET k [("tokens", tokens b); ("lastRefill", lastRefill b)] r) as Hm.
  destruct (redis_call (HMSET _ _) r) as [[u|e] r1]; destruct Hm as (Hnow & Hd & Hf);
    [|by right; split; [eexists|]].
  assert (Ht : field r1 k "tokens" = Some (bulk_of_number (tokens b))).
  { rewrite Hf, decide_True by done. reflexivity. }
  assert (Hlr : field r1 k "lastRefill" = Some (bulk_of_number (lastRefill b))).
  { rewrite Hf, decide_True by done. reflexivity. }
  destruct (lua_ttl_spec cap rate C Hlim) as (n & Hn & Hi & _).
  destruct (call_EXPIRE k (lua_ttl cap rate) n "tokens" r1 Hi ltac:(lia) ltac:(by rewrite Ht))
    as (u' & r2 & E & Hnow2 & Hf2 & Hd2).
  rewrite E. left. split; [done|]. split; [|split; [congruence|split; [|split]]].
  - econstructor; [by rewrite Hf2|by apply tonumber_number|by rewrite Hf2|by apply tonumber_number].
  - exists n. split; [done|]. split; [lia|]. rewrite Hd2, decide_True by done. congruence.
  - intros f Hf1 Hf3. rewrite Hf2, Hf, decide_True by done. simpl.
    by rewrite !lookup_insert_ne by done.
  - intros k' Hk. rewrite Hd2, decide_False, Hd by done. split; [done|].
    intros f. by rewrite Hf2, Hf, decide_False.
Qed.

Lemma tokenBucketScript_run (k : string) (burst rps : go_arg) (cap rate : float64) (C n : Z)
    (b : option lua_bucket) (r : R) (x : float64) :
  limits_are r k burst rps cap rate -> lua_limits cap rate C ->
  stored r k b -> bucket_ok C b -> 1 <= n ->
  script_now r = (inl x, r) -> is_int x (now_ms r) ->
    let '(ok, b') := lua_charge cap rate (current cap x b) x (f64_of_Z n) in
    let '(res, r') := tokenBucketScript [k] (arg_bulk <$> [burst; rps; GoInt n]) r in
    res = inl (LNum (f64_of_Z (if ok then 1 else 0))) /\ charged_to k cap rate b' r r' \/
    (exists e, res = inr e) /\ untouched r r'.
Proof.
  intros Hl Hlim Hst Hok Hn Hnow Hx.
  destruct (script_state_spec r k b Hst) as (l & Hs & Hl').
  destruct (current_ok cap rate x C _ b Hlim Hok Hx (now_ms_range r)) as (Htok & t & Ht & Ht0 & Hw).
  pose proof (lua_charge_spec _ _ _ _ _ n _ Hlim Htok Hw ltac:(pose proof (now_ms_range r); lia) Hn) as Hc.
  destruct (lua_charge cap rate (current cap x b) x (f64_of_Z n)) as [ok b'] eqn:Ec. simpl in Hc.
  destruct Hc as (_ & (Hbok & Hbf & H) & Hlast & _).
  unfold tokenBucketScript, sbind. rewrite Hnow.
  change (argv _ 1) with (bulk_tonumber (arg_bulk burst)).
  change (argv _ 2) with (bulk_tonumber (arg_bulk rps)).
  change (argv _ 3) with (bulk_tonumber (bulk_of_int n)).
  rewrite (script_limits_spec r k burst rps cap rate Hl), Hs, tonumber_int. cbn [fst snd].
  pose proof (write_bucket k cap rate C b' (LNum (f64_of_Z (if ok then 1 else 0))) r Hlim
    (conj Hbok (conj Hbf H))) as Hwr.
  rewrite Hlast in Hwr. specialize (Hwr (proj1 Hx) (proj1 (proj2 Hx))).
  destruct b as [[t0 l0]|]; cbn [fmap option_fmap option_map];
    [rewrite (Hl' _ eq_refl)|]; cbn [number sret fst snd]; unfold current in Ec; simpl in Ec;
    cbn [tokens lastRefill]; rewrite Ec; exact Hwr.
Qed.

(** The tokens a charge at [x] finds. *)
Definition available (cap rate x : float64) (b : option lua_bucket) : Z :=
  f64_val (lua_refill cap rate (current cap x b) x).

Lemma available_range (cap rate x : float64) (C t : Z) (b : option lua_bucket) :
  lua_limits cap rate C -> bucket_ok C b -> is_int x t -> 0 <= t <= 2 ^ 53 ->
  0 <= available cap rate x b <= C * f64_unit.
Proof.
  intros Hlim Hok Hx Ht.
  destruct (current_ok cap rate x C _ b Hlim Hok Hx Ht) as (Htok & l & Hl & Hl0 & Hw).
  destruct (refill_new _ _ _ _ _ _ Hlim Htok Hw ltac:(lia)) as ((Hp & _ & Hle) & _).
  split; [apply f64_val_nonneg, Hp|done].
Qed.

(** A key without a bucket finds a full one. *)
Lemma available_fresh (cap rate x : float64) (C t : Z) :
  lua_limits cap rate C -> is_int x t -> 0 <= t <= 2 ^ 53 ->
  available cap rate x None = C * f64_unit.
Proof.
  intros Hlim Hx Ht. pose proof (full_tokens_ok _ _ _ Hlim) as Hfull.
  pose proof (lua_elapsed_spec _ _ _ _ Hx Hx Ht Ht) as Hw.
  unfold available, current. simpl.
  rewrite (lua_refill_now _ _ C (mkLuaBucket cap x) _ _ Hlim Hfull Hw ltac:(lia)) by lia.
  apply (ll_capacity _ _ _ Hlim).
Qed.

(** Scripts that write nothing. *)
Definition read_only {A} (m : Script (R := R) A) : Prop := forall r, snd (m r) = r.

Lemma read_only_bind {A A'} (m : Script A) (f : A -> Script A') :
  read_only m -> (forall a, read_only (f a)) -> read_only (sbind m f).
Proof.
  intros Hm Hf r. unfold sbind. specialize (Hm r).
  destruct (m r) as [[a|e] r']; simpl in Hm; subst r'; [apply Hf|done].
Qed.

Lemma read_only_number (x : option float64) : read_only (number x).
Proof. by destruct x. Qed.

Lemma read_only_TIME : read_only (call TIME).
Proof. intros r. unfold call. by rewrite call_TIME. Qed.

Lemma read_only_HMGET (k : string) (fs : list string) : read_only (call (HMGET k fs)).
Proof. intros r. unfold call. by rewrite call_HMGET. Qed.

(** The script of [Tokens] is one. *)
Lemma getTokensScript_pure (ks : list string) (args : list B) : read_only (getTokensScript ks args).
Proof.
  destruct ks as [|k ks]; [done|]. unfold getTokensScript, script_now, script_limits, script_state.
  repeat first [ apply read_only_bind; [|intros ?] | apply read_only_TIME | apply read_only_HMGET
               | apply read_only_number | by intros r | case_on_match ].
Qed.

Lemma getTokensScript_run (k : string) (burst rps : go_arg) (cap rate : float64) (C : Z)
    (b : option lua_bucket) (r : R) (x : float64) :
  limits_are r k burst rps cap rate -> lua_limits cap rate C ->
  stored r k b -> bucket_ok C b -> script_now r = (inl x, r) -> is_int x (now_ms r) ->
  exists v, is_int v (available cap rate x b / f64_unit) /\
    getTokensScript [k] (arg_bulk <$> [burst; rps]) r = (inl (LNum v), r).
Proof.
  intros Hl Hlim Hst Hok Hnow Hx.
  destruct (script_state_spec r k b Hst) as (l & Hs & Hl').
  pose proof (now_ms_range r) as Hms. pose proof (ll_range _ _ _ Hlim) as HC.
  pose proof f64_unit_pos as Hu. pose proof (available_range _ _ _ _ _ b Hlim Hok Hx Hms) as Ha.
  unfold getTokensScript, sbind. rewrite Hnow.
  change (argv _ 1) with (bulk_tonumber (arg_bulk burst)).
  change (argv _ 2) with (bulk_tonumber (arg_bulk rps)).
  rewrite (script_limits_spec r k burst rps cap rate Hl), Hs. cbn [fst snd number sret].
  destruct b as [[t0 l0]|]; cbn [fmap option_fmap option_map fst snd].
  - rewrite (Hl' _ eq_refl). eexists. split; [|reflexivity].
    destruct (current_ok cap rate x C _ _ Hlim Hok Hx Hms) as (Htok & t & Ht & Ht0 & Hw).
    destruct (refill_new _ _ _ _ _ _ Hlim Htok Hw ltac:(lia)) as ((Hp & Hpf & _) & _).
    unfold available in *. apply math_floor_spec; [done|done|]. nia.
  - eexists. split; [|reflexivity].
    rewrite (available_fresh _ _ _ _ _ Hlim Hx Hms).
    destruct (ll_capacity _ _ _ Hlim) as (Hcp & Hcf & Ec). rewrite <- Ec.
    apply math_floor_spec; [done|done|]. rewrite Ec. nia.
Qed.

(** ** Runs of the scripts on one client *)

(** What the other users of the server and the passing of time may do to a
    client: nothing to its bucket and limits, except that the bucket is
    dropped once it expires (at most a second early). *)
Definition undisturbed (k : string) (r r' : R) : Prop :=
  (forall f, field r' (k +:+ ":cfg") f = field r (k +:+ ":cfg") f) /\
  ((forall f, field r' k f = field r k f) /\ deadline r' k = deadline r k \/
   field r' k "tokens" = None /\ exists d, deadline r k = Some d /\ d - 1000000 <= now_us r').

(** The tokens an execution hands out. *)
Definition grants (res : lua_value B + error) (n : Z) : Z :=
  match res with
  | inl (LNum x) => if decide (f64_trunc x = Some 1) then n else 0
  | _ => 0
  end.

(** [served r r' g a N]: between [r] and [r'] any gateways executed the
    script [N] times for the client and handed out [g] tokens, while the
    clock advanced by [a] milliseconds in all (a clock set back does not
    count). *)
Inductive served (k : string) (burst rps : go_arg) (r : R) : R -> Z -> Z -> nat -> Prop :=
  | served_start : served k burst rps r r 0 0 0
  | served_other r1 r2 g a N :
      served k burst rps r r1 g a N -> undisturbed k r1 r2 ->
      served k burst rps r r2 g (a + Z.max 0 (now_ms r2 - now_ms r1)) N
  | served_allow r1 r2 g a N n res :
      served k burst rps r r1 g a N -> 1 <= n ->
      tokenBucketScript [k] (arg_bulk <$> [burst; rps; GoInt n]) r1 = (res, r2) ->
      served k burst rps r r2 (g + grants res n) a (S N).

(** The state of a client between scripts, with its credit: thousand times
    the tokens it can get at once. *)
Inductive credit (k : string) (rate : float64) (C : Z) (r : R) : Z -> Prop :=
  | credit_absent :
      field r k "tokens" = None -> credit k rate C r (1000 * (C * f64_unit))
  | credit_present b l d :
      stored r k (Some b) -> tokens_ok C (tokens b) ->
      is_int (lastRefill b) l -> 0 <= l <= 2 ^ 53 -> deadline r k = Some d ->
      (forall t, d - 1000000 <= t -> 1500 * (C * f64_unit) <= f64_val rate * (t / 1000 - l)) ->
      credit k rate C r
        (level C (f64_val rate) (f64_val (tokens b)) (Z.max 0 (now_ms r - l))).

Lemma level_mono (C rate x w w' : Z) : 0 <= rate -> w <= w' ->
  level C rate x w' <= level C rate x w + rate * (w' - w).
Proof. intros. unfold level. nia. Qed.

Lemma stored_same (k : string) (b : option lua_bucket) (r r' : R) :
  (forall f, field r' k f = field r k f) -> stored r k b -> stored r' k b.
Proof.
  intros Hf [E|b' t l Et Ht El Hl]; [by constructor; rewrite Hf|].
  by apply (stored_some _ _ _ t l); rewrite ?Hf.
Qed.

Lemma credit_range (k : string) (cap rate : float64) (C phi : Z) (r : R) :
  lua_limits cap rate C -> credit k rate C r phi -> 0 <= phi <= 1000 * (C * f64_unit).
Proof.
  intros Hlim H. pose proof f64_unit_pos. pose proof (ll_range _ _ _ Hlim).
  pose proof (ll_rate_range _ _ _ Hlim). destruct H as [|b l d _ Htok _ _ _ _]; [nia|].
  pose proof (f64_val_nonneg _ (proj2 (proj1 Htok))). unfold level. nia.
Qed.

Lemma credit_other (k : string) (cap rate : float64) (C phi : Z) (r r' : R) :
  lua_limits cap rate C -> credit k rate C r phi -> undisturbed k r r' ->
  exists phi', credit k rate C r' phi' /\
    phi' <= phi + f64_val rate * Z.max 0 (now_ms r' - now_ms r).
Proof.
  intros Hlim Hcr [_ Hb]. pose proof f64_unit_pos. pose proof (ll_rate_range _ _ _ Hlim) as HR.
  pose proof (ll_range _ _ _ Hlim). destruct Hb as [[Hf Hd]|[Hf (d & Hd & Ht)]].
  - destruct Hcr as [E|b l d Hst Htok Hl Hl0 Ed Hfull].
    + eexists. split; [apply credit_absent; by rewrite Hf|]. nia.
    + eexists. split.
      { apply (credit_present _ _ _ _ b l d); try done; [by apply (stored_same _ _ r)|congruence]. }
      set (w := Z.max 0 (now_ms r - l)). set (w' := Z.max 0 (now_ms r' - l)).
      transitivity (level C (f64_val rate) (f64_val (tokens b)) (Z.max w w')).
      { unfold level. nia. }
      etransitivity; [apply (level_mono _ _ _ w); lia|].
      apply Z.add_le_mono_l, Z.mul_le_mono_nonneg_l; lia.
  - exists (1000 * (C * f64_unit)). split; [by apply credit_absent|].
    destruct Hcr as [E|b l d' Hst Htok Hl Hl0 Ed Hfull]; [nia|].
    rewrite Hd in Ed. injection Ed as <-. specialize (Hfull _ Ht). fold (now_ms r') in Hfull.
    pose proof (f64_val_nonneg _ (proj2 (proj1 Htok))).
    assert (f64_val rate * (now_ms r' - l) <= f64_val rate * Z.max 0 (now_ms r - l) +
      f64_val rate * Z.max 0 (now_ms r' - now_ms r))
      by (rewrite <- Z.mul_add_distr_l; apply Z.mul_le_mono_nonneg_l; lia).
    assert (0 <= f64_val rate * Z.max 0 (now_ms r' - now_ms r)) by nia.
    assert (0 < C * f64_unit) by nia. unfold level. lia.
Qed.

Lemma is_int_inj (x : float64) (a b : Z) : is_int x a -> is_int x b -> a = b.
Proof.
  intros (_ & _ & Ea) (_ & _ & Eb). pose proof f64_unit_pos.
  apply (Z.mul_reg_r _ _ f64_unit); lia.
Qed.

(** The bucket a key has according to its credit. *)
Lemma credit_bucket (k : string) (cap rate : float64) (C phi : Z) (r : R) :
  lua_limits cap rate C -> credit k rate C r phi ->
  exists b, stored r k b /\ bucket_ok C b /\
    forall x, is_int x (now_ms r) -> exists w, 0 <= w <= 2 ^ 53 /\
      tokens_ok C (tokens (current cap x b)) /\
      is_int (lua_elapsed x (lastRefill (current cap x b))) w /\
      phi = level C (f64_val rate) (f64_val (tokens (current cap x b))) w.
Proof.
  intros Hlim Hcr. pose proof (now_ms_range r) as Hms. pose proof f64_unit_pos.
  destruct Hcr as [E|b l d Hst Htok Hl Hl0 Ed Hfull].
  - exists None. split; [by constructor|]. split; [done|]. intros x Hx. exists 0.
    split; [lia|]. split; [by apply (full_tokens_ok cap rate)|]. split.
    + pose proof (lua_elapsed_spec _ _ _ _ Hx Hx Hms Hms) as Hw. by rewrite Z.sub_diag in Hw.
    + destruct (ll_capacity _ _ _ Hlim) as (_ & _ & Ec). unfold current. simpl.
      unfold level. rewrite Ec. pose proof (ll_range _ _ _ Hlim). nia.
  - exists (Some b). split; [done|]. split; [split; [done|by exists l]|]. intros x Hx.
    exists (Z.max 0 (now_ms r - l)). split; [lia|]. split; [done|].
    split; [by apply lua_elapsed_spec|done].
Qed.

(** After a charge the bucket is full by the time it may be dropped. *)
Lemma charged_full (k : string) (cap rate : float64) (C d t : Z) (b : lua_bucket) (r r' : R) :
  lua_limits cap rate C -> charged_to k cap rate b r r' ->
  deadline r' k = Some d -> d - 1000000 <= t ->
  1500 * (C * f64_unit) <= f64_val rate * (t / 1000 - now_ms r).
Proof.
  intros Hlim (Hst & Hnow & (n & Hi & Hn & Hd) & _ & _) Hd' Ht.
  destruct (lua_ttl_spec cap rate C Hlim) as (n' & _ & Hi' & Hfull).
  rewrite (is_int_inj _ _ _ Hi' Hi) in Hfull. pose proof (ll_rate_range _ _ _ Hlim).
  pose proof f64_unit_pos. rewrite Hd in Hd'. injection Hd' as <-.
  etransitivity; [exact Hfull|]. apply Z.mul_le_mono_nonneg_l; [lia|].
  assert (now_ms r + (n - 1) * 1000 <= t / 1000); [|lia].
  unfold now_ms. rewrite <- Z.div_add by done. apply Z.div_le_mono; lia.
Qed.

Lemma charged_credit (k : string) (cap rate x : float64) (C : Z) (b : lua_bucket) (r r' : R) :
  lua_limits cap rate C -> tokens_ok C (tokens b) -> is_int x (now_ms r) -> lastRefill b = x ->
  charged_to k cap rate b r r' ->
  credit k rate C r' (level C (f64_val rate) (f64_val (tokens b)) 0).
Proof.
  intros Hlim Htok Hx Hlast Hch. pose proof (now_ms_range r) as Hms.
  pose proof Hch as (Hst & Hnow & (n & _ & _ & Hd) & _).
  replace 0 with (Z.max 0 (now_ms r' - now_ms r)) by (unfold now_ms; rewrite Hnow; lia).
  apply (credit_present _ _ _ _ b (now_ms r) (now_us r + n * 1000000)); try done; [by rewrite Hlast|].
  intros t Ht. by apply (charged_full k cap rate C (now_us r + n * 1000000) t b r r').
Qed.

Lemma credit_untouched (k : string) (rate : float64) (C phi : Z) (r r' : R) :
  untouched r r' -> credit k rate C r phi -> credit k rate C r' phi.
Proof.
  intros [Hnow Hk] Hcr. destruct (Hk k) as [Hd Hf].
  destruct Hcr as [E|b l d Hst Htok Hl Hl0 Ed Hfull]; [apply credit_absent; by rewrite Hf|].
  replace (now_ms r) with (now_ms r') by (unfold now_ms; by rewrite Hnow).
  apply (credit_present _ _ _ _ b l d); try done; [by apply (stored_same _ _ r)|congruence].
Qed.

(** The key of the override is another key. *)
Lemma cfg_key_ne (k : string) : k +:+ ":cfg" <> k.
Proof. intros E. apply (f_equal String.length) in E. rewrite string_length_app in E. simpl in E. lia. Qed.

Lemma grants_reply (ok : bool) (n : Z) :
  grants (inl (LNum (f64_of_Z (if ok then 1 else 0)))) n = if ok then n else 0.
Proof. by destruct ok. Qed.

Lemma credit_charge (k : string) (burst rps : go_arg) (cap rate : float64) (C n phi : Z)
    (r r' : R) (res : lua_value B + error) :
  limits_are r k burst rps cap rate -> lua_limits cap rate C -> 1 <= n ->
  credit k rate C r phi ->
  tokenBucketScript [k] (arg_bulk <$> [burst; rps; GoInt n]) r = (res, r') ->
  limits_are r' k burst rps cap rate /\ 0 <= grants res n /\
  exists phi', credit k rate C r' phi' /\
    2 ^ 49 * (1000 * (grants res n * f64_unit) + phi') <= 2 ^ 49 * phi + 1000 * (C * f64_unit).
Proof.
  intros Hl Hlim Hn Hcr Hrun. pose proof f64_unit_pos. pose proof (ll_range _ _ _ Hlim).
  destruct (credit_bucket k cap rate C phi r Hlim Hcr) as (b & Hst & Hok & Hcur).
  destruct (script_now_spec r) as (x & Hnow & Hx).
  pose proof (tokenBucketScript_run k burst rps cap rate C n b r x Hl Hlim Hst Hok Hn Hnow Hx) as Hc.
  rewrite Hrun in Hc.
  destruct (Hcur x Hx) as (w & Hw0 & Htok & Hw & ->).
  pose proof (lua_charge_spec _ _ _ _ _ n _ Hlim Htok Hw Hw0 Hn) as Hs.
  destruct (lua_charge cap rate (current cap x b) x (f64_of_Z n)) as [ok b'].
  simpl in Hs. destruct Hs as (_ & Htok' & Hlast & _ & Hb).
  destruct Hc as [[-> Hch]|[[e ->] Hun]].
  - split; [|split].
    + destruct Hch as (_ & _ & _ & _ & Hother). unfold limits_are in *.
      destruct (Hother (k +:+ ":cfg")) as [_ Hf]; [apply cfg_key_ne|].
      by rewrite !Hf.
    + rewrite grants_reply. destruct ok; lia.
    + eexists. split; [by apply (charged_credit k cap rate x C b' r r')|].
      rewrite grants_reply.
      assert (level C (f64_val rate) (f64_val (tokens b')) 0 <= 1000 * f64_val (tokens b'))
        by (unfold level; lia).
      destruct ok; lia.
  - split; [|split; [done|]].
    + destruct Hun as [_ Hk]. unfold limits_are in *. destruct (Hk (k +:+ ":cfg")) as [_ Hf].
      by rewrite !Hf.
    + eexists. split; [by apply (credit_untouched _ _ _ _ r)|]. simpl. nia.
Qed.

Lemma served_credit (k : string) (burst rps : go_arg) (cap rate : float64) (C phi : Z)
    (r r' : R) (g a : Z) (N : nat) :
  limits_are r k burst rps cap rate -> lua_limits cap rate C -> credit k rate C r phi ->
  served k burst rps r r' g a N ->
  limits_are r' k burst rps cap rate /\ 0 <= g /\ 0 <= a /\
  exists phi', credit k rate C r' phi' /\
    2 ^ 49 * (1000 * (g * f64_unit) + phi') <=
    2 ^ 49 * (phi + f64_val rate * a) + Z.of_nat N * (1000 * (C * f64_unit)).
Proof.
  intros Hl Hlim Hcr Hs. pose proof (ll_rate_range _ _ _ Hlim). pose proof f64_unit_pos.
  induction Hs as [|r1 r2 g a N Hs IH Hu|r1 r2 g a N n res Hs IH Hn Hrun].
  - split; [done|]. split; [done|]. split; [done|]. exists phi. split; [done|]. lia.
  - destruct IH as (Hl1 & Hg & Ha & phi1 & Hc1 & Hb).
    destruct (credit_other k cap rate C phi1 r1 r2 Hlim Hc1 Hu) as (phi2 & Hc2 & Hle).
    split; [|split; [done|split; [lia|]]].
    + unfold limits_are in *. destruct Hu as [Hf _]. by rewrite !Hf.
    + exists phi2. split; [done|]. rewrite Z.mul_add_distr_l. lia.
  - destruct IH as (Hl1 & Hg & Ha & phi1 & Hc1 & Hb).
    destruct (credit_charge k burst rps cap rate C n phi1 r1 r2 res Hl1 Hlim Hn Hc1 Hrun)
      as (Hl2 & Hg2 & phi2 & Hc2 & Hle).
    split; [done|]. split; [lia|]. split; [done|]. exists phi2. split; [done|].
    rewrite Nat2Z.inj_succ. lia.
Qed.
End Spec.

(** ** A server in finite maps, for the witnesses *)

Record mem_redis := mkMem {
  hashes : gmap string (gmap string float64);
  deadlines : gmap string Z;
  clock_us : Z;
}.

Definition mem_field (r : mem_redis) (k f : string) : option float64 :=
  default ∅ (hashes r !! k) !! f.

Definition mem_now (r : mem_redis) : Z := clock_us r mod (2 ^ 43 * 1000000).

Definition mem_set (k : string) (fvs : gmap string float64) (r : mem_redis) : mem_redis :=
  mkMem (<[k := fvs ∪ default ∅ (hashes r !! k)]> (hashes r)) (deadlines r) (clock_us r).

Definition mem_arg (a : go_arg) : float64 :=
  match a with GoInt z => f64_of_Z z | GoFloat x => x end.

Definition mem_call (c : command) (r : mem_redis) : (lua_value float64 + error) * mem_redis :=
  match c with
  | TIME => (inl (LTable [Some (f64_of_Z (mem_now r / 1000000));
                          Some (f64_of_Z (mem_now r mod 1000000))]), r)
  | HMGET k fs => (inl (LTable (mem_field r k <$> fs)), r)
  | HMSET k fvs => (inl (LNum (f64_of_Z 1)), mem_set k (list_to_map fvs) r)
  | EXPIRE k x =>
      match f64_trunc x with
      | Some n => (inl (LNum (f64_of_Z 1)),
                   mkMem (hashes r) (<[k := mem_now r + n * 1000000]> (deadlines r)) (clock_us r))
      | None => (inr (errors_New "value is not an integer or out of range"), r)
      end
  end.

#[export] Instance mem_server : Redis mem_redis float64 := {
  redis_call := mem_call;
  bulk_of_int := f64_of_Z;
  bulk_of_float x := x;
  bulk_of_number x := x;
  bulk_tonumber := Some;
  script_Run s ks args r :=
    match s ks (mem_arg <$> args) r with
    | (inl (LNum x), r) => match f64_trunc x with
                           | Some z => (inl (RInt z), r)
                           | None => (inr (errors_New "bad number"), r)
                           end
    | (inl _, r) => (inl (ROther "string"), r)
    | (inr e, r) => (inr e, r)
    end;
  client_HSet k fvs r := (None, mem_set k (list_to_map (prod_map id mem_arg <$> fvs)) r);
  client_Del ks r := (None, mkMem (filter (fun kv => kv.1 ∉ ks) (hashes r))
                             (filter (fun kv => kv.1 ∉ ks) (deadlines r)) (clock_us r));
  NewClient _ := mkMem ∅ ∅ 0;
  client_Ping r := (None, r);
  client_Close r := (None, r);
}.

#[export] Instance mem_server_spec : RedisSpec mem_redis float64.
Proof.
  refine {| field := mem_field; deadline r k := deadlines r !! k; now_us := mem_now; reaches := eq |}.
  - intros r. by apply Z.mod_pos_bound.
  - done.
  - done.
  - done.
  - done.
  - done.
  - intros k fvs r. split; [done|]. split; [done|]. intros k' f. simpl.
    unfold mem_field, mem_set. simpl. destruct (decide (k' = k)) as [->|Hk].
    + rewrite lookup_insert_eq. simpl. rewrite lookup_union.
      destruct ((list_to_map fvs : gmap string float64) !! f); simpl;
        by destruct (default ∅ _ !! f).
    + by rewrite lookup_insert_ne.
  - intros k x n f r (Hok & Hf & Ev) Hn _. simpl. rewrite f64_trunc_spec by done.
    rewrite Ev, Z.div_mul by (pose proof f64_unit_pos; lia).
    eexists _, _. split; [done|]. split; [done|]. split; [done|]. intros k'. simpl.
    destruct (decide (k' = k)) as [->|Hk]; [by rewrite lookup_insert_eq|by rewrite lookup_insert_ne].
  - intros s ks args r v r'. simpl. change (mem_arg <$> args) with (arg_bulk <$> args : list float64).
    destruct (s ks _ r) as [[lv|e] r2] eqn:E; [|done]. intros Hv.
    exists r, lv. destruct lv; [by exists r2; simplify_eq| by exists r2; simplify_eq| |
      by exists r2; simplify_eq|by exists r2; simplify_eq].
    destruct (f64_trunc x) eqn:Ex; simplify_eq. exists r'. split; [done|]. split; [done|].
    split; [done|]. by rewrite ?Ex.
  - intros k fvs r r' _ [= <-]. eexists r, _. do 3 (split; [done|]). split; [done|].
    intros k' f. unfold mem_field, mem_set. simpl. destruct (decide (k' = k)) as [->|Hk].
    + rewrite lookup_insert_eq. simpl. rewrite lookup_union, list_to_map_fmap, lookup_fmap.
      destruct ((list_to_map fvs : gmap string go_arg) !! f); simpl;
        by destruct (default ∅ _ !! f).
    + by rewrite lookup_insert_ne.
  - intros ks r r' [= <-]. eexists r, _. do 3 (split; [done|]). intros k.
    unfold mem_field. simpl. rewrite !map_lookup_filter. destruct (decide (k ∈ ks)).
    + destruct (deadlines r !! k), (hashes r !! k); simpl; by rewrite ?option_guard_False by tauto.
    + destruct (deadlines r !! k), (hashes r !! k); simpl; by rewrite ?option_guard_True by tauto.
Defined.

(** ** Properties *)

Section Properties.
Context {R B : Type} `{!Redis R B, !RedisSpec R B}.

(** C4: the distributed rate limit.  Take a client whose limits, its override
    or the gateways' defaults, are a capacity [C] and a rate [q], integers up
    to [2 ^ 20].  However many gateways run the script for it, for whatever
    numbers of tokens and up to [2 ^ 28] times, while time passes, the bucket
    expires and other clients are served, at most [C + 1 + q * seconds]
    tokens are handed out, where the seconds are those by which the server's
    clock moved forward. *)
Theorem redis_rate_bound (k : string) (burst rps : go_arg) (cap rate : float64)
    (C q phi g a : Z) (r r' : R) (N : nat) :
  limits_are r k burst rps cap rate ->
  is_int cap C -> 1 <= C <= 2 ^ 20 -> is_int rate q -> 1 <= q <= 2 ^ 20 ->
  credit k rate C r phi -> served k burst rps r r' g a N -> Z.of_nat N <= 2 ^ 28 ->
  1000 * g <= 1000 * (C + 1) + q * a.
Proof.
  intros Hl Hcap HC Hrate Hq Hcr Hs HN. pose proof f64_unit_pos as Hu.
  destruct Hrate as (Hr & Hrf & Er).
  assert (Hlim : lua_limits cap rate C) by (split; [done|done|done|nia]).
  destruct (served_credit k burst rps cap rate C phi r r' g a N Hl Hlim Hcr Hs)
    as (_ & Hg & Ha & phi' & Hcr' & Hb).
  pose proof (credit_range _ _ _ _ _ _ Hlim Hcr). pose proof (credit_range _ _ _ _ _ _ Hlim Hcr').
  rewrite Er in Hb.
  assert (Z.of_nat N * (1000 * (C * f64_unit)) <= 2 ^ 28 * (1000 * (2 ^ 20 * f64_unit)))
    by (apply Z.mul_le_mono_nonneg; nia).
  apply (Z.mul_le_mono_pos_r _ _ f64_unit); [done|]. lia.
Qed.

(** A decision of the script: it ran once, in some state of the server, on the
    bucket under the client's key. *)
Definition decided (l : RedisLimiter R) (id : string) (n : Z) (ok : bool) (c : R) : Prop :=
  exists r1 r2, reaches (client l) r1 /\ reaches r2 c /\
    forall cap rate C b,
      limits_are r1 (key l id) (GoInt (BurstSize (config l))) (GoFloat (TokensPerSecond (config l)))
        cap rate ->
      lua_limits cap rate C -> stored r1 (key l id) b -> bucket_ok C b ->
      exists x b', is_int x (now_ms r1) /\
        ok = (n * f64_unit <=? available cap rate x b) /\
        charged_to (key l id) cap rate b' r1 r2 /\ lastRefill b' = x /\
        f64_val (tokens b') = available cap rate x b - (if ok then n * f64_unit else 0).

Lemma allow_decided (l : RedisLimiter R) (id : string) (n : Z) :
  0 < n -> snd (fst (redis_AllowN l id n)) = None ->
  decided l id n (fst (fst (redis_AllowN l id n))) (client (snd (redis_AllowN l id n))).
Proof.
  intros Hn. unfold redis_AllowN, decided. rewrite (proj2 (Z.leb_gt _ _) Hn).
  set (k := key l id). set (burst := GoInt _). set (rps := GoFloat _).
  destruct (script_Run _ _ _ _) as [[v|e] c] eqn:Erun; [|done].
  destruct v as [z|ty]; [|done]. intros _. cbn [fst snd int_reply set_client client].
  destruct (run_script _ _ _ _ _ _ Erun) as (r1 & lv & r2 & Hr1 & E & Hr2 & Hv).
  exists r1, r2. split; [done|]. split; [done|]. intros cap rate C b Hl Hlim Hst Hok.
  destruct (script_now_spec r1) as (x & Hnow & Hx).
  pose proof (tokenBucketScript_run k burst rps cap rate C n b r1 x Hl Hlim Hst Hok
    ltac:(lia) Hnow Hx) as Hc.
  rewrite E in Hc. destruct (current_ok cap rate x C _ b Hlim Hok Hx (now_ms_range r1))
    as (Htok & t & Ht & Ht0 & Hw).
  pose proof (lua_charge_spec _ _ _ _ _ n _ Hlim Htok Hw
    ltac:(pose proof (now_ms_range r1); lia) ltac:(lia)) as Hs.
  destruct (lua_charge cap rate (current cap x b) x (f64_of_Z n)) as [ok b'].
  simpl in Hs. destruct Hs as (Hok' & _ & Hlast & Htk & _).
  destruct Hc as [[[= ->] Hch]|[[e [=]] _]].
  assert ((z =? 1) = ok) as -> by (destruct ok; simpl in Hv; by simplify_eq).
  exists x, b'. split; [done|]. split; [exact Hok'|]. split; [done|]. split; [done|]. exact Htk.
Qed.

(** C14: a decision of [AllowN].  A request for no tokens is granted without a
    call.  When the reply does not arrive or is not an integer the request is
    refused with an error.  Otherwise the script ran once, atomically, in
    some state of the server after the call was made: the request is granted
    exactly when the bucket under the client's key, refilled under the
    limits in force for the key, holds [n] tokens, exactly [n] tokens are
    then taken, and the bucket is given its expiry. *)
Theorem redis_allow (l : RedisLimiter R) (id : string) (n : Z) :
  let k := key l id in
  let burst := GoInt (BurstSize (config l)) in
  let rps := GoFloat (TokensPerSecond (config l)) in
  let res := redis_AllowN l id n in
  (n <= 0 -> res = ((true, None), l)) /\
  (forall err, snd (fst res) = Some err -> fst (fst res) = false) /\
  (0 < n -> snd (fst res) = None ->
   exists r1 r2, reaches (client l) r1 /\ reaches r2 (client (snd res)) /\
     forall cap rate C b,
       limits_are r1 k burst rps cap rate -> lua_limits cap rate C ->
       stored r1 k b -> bucket_ok C b ->
       exists x b', is_int x (now_ms r1) /\
         fst (fst res) = (n * f64_unit <=? available cap rate x b) /\
         charged_to k cap rate b' r1 r2 /\ lastRefill b' = x /\
         f64_val (tokens b') =
           available cap rate x b - (if fst (fst res) then n * f64_unit else 0)).
Proof.
  intros k burst rps res. unfold res, redis_AllowN. split; [|split].
  - intros Hn. by rewrite (proj2 (Z.leb_le _ _) Hn).
  - intros err. destruct (n <=? 0); [done|]. destruct (script_Run _ _ _ _) as [[v|e] c]; [|done].
    simpl. by destruct (int_reply v).
  - intros Hn Hnone. by apply allow_decided.
Qed.

(** The count [Tokens] reports.  A reply is the number of whole tokens of
    the bucket, between 0 and the capacity; in the state it was computed in,
    a script run for [n] tokens grants them exactly when [n] is at most that
    number, unless a command of it fails.  The count consumes nothing. *)
Theorem redis_tokens (l : RedisLimiter R) (id : string) (m : Z) (c : RedisLimiter R) :
  let k := key l id in
  let burst := GoInt (BurstSize (config l)) in
  let rps := GoFloat (TokensPerSecond (config l)) in
  redis_Tokens l id = ((m, None), c) ->
  exists r1, reaches (client l) r1 /\ reaches r1 (client c) /\
    forall cap rate C b,
      limits_are r1 k burst rps cap rate -> lua_limits cap rate C ->
      stored r1 k b -> bucket_ok C b ->
      0 <= m <= C /\
      forall n res r2, 1 <= n ->
        tokenBucketScript [k] (arg_bulk <$> [burst; rps; GoInt n]) r1 = (res, r2) ->
        (exists e, res = inr e) \/ grants res n = if n <=? m then n else 0.
Proof.
  intros k burst rps. unfold redis_Tokens.
  destruct (script_Run _ _ _ _) as [[v|e] c'] eqn:Erun; [|done].
  destruct v as [z|ty]; [|done]. cbn [int_reply]. intros [= <- <-].
  destruct (run_script _ _ _ _ _ _ Erun) as (r1 & lv & r2 & Hr1 & E & Hr2 & Hv).
  pose proof f64_unit_pos as Hu. pose proof (now_ms_range r1) as Hms.
  exists r1. split; [done|]. split.
  { pose proof (getTokensScript_pure [k] (arg_bulk <$> [burst; rps]) r1) as Hp.
    fold k burst rps in E. rewrite E in Hp. simpl in Hp. by subst r2. }
  intros cap rate C b Hl Hlim Hst Hok.
  destruct (script_now_spec r1) as (x & Hnow & Hx).
  destruct (getTokensScript_run k burst rps cap rate C b r1 x Hl Hlim Hst Hok Hnow Hx)
    as (v & (Hvo & Hvf & Ev) & E'). fold k burst rps in E. rewrite E' in E.
  injection E as <- <-. pose proof (available_range _ _ _ _ _ b Hlim Hok Hx Hms) as Ha.
  rewrite f64_trunc_spec, Ev, Z.div_mul in Hv by (done || lia). injection Hv as <-.
  split; [split; [apply Z.div_pos; lia|apply Z.div_le_upper_bound; lia]|].
  intros n res r2 Hn Hrun.
  pose proof (tokenBucketScript_run k burst rps cap rate C n b r1 x Hl Hlim Hst Hok Hn Hnow Hx) as Hc.
  rewrite Hrun in Hc.
  destruct (current_ok cap rate x C _ b Hlim Hok Hx Hms) as (Htok & t & Ht & Ht0 & Hw).
  pose proof (lua_charge_spec _ _ _ _ _ n _ Hlim Htok Hw ltac:(lia) Hn) as Hs.
  destruct (lua_charge cap rate (current cap x b) x (f64_of_Z n)) as [ok b'].
  simpl in Hs. destruct Hs as (-> & _).
  destruct Hc as [[-> _]|[He _]]; [right|by left]. rewrite grants_reply.
  fold (available cap rate x b). set (av := available cap rate x b) in *.
  pose proof (Z.mul_div_le av f64_unit Hu).
  replace (n <=? av / f64_unit) with (n * f64_unit <=? av); [done|].
  apply eq_true_iff_eq. rewrite !Z.leb_le. split; [|nia].
  intros. apply Z.div_le_lower_bound; lia.
Qed.

(** C16: expiry is unobservable.  Let a bucket be charged, and take the server
    later, with the bucket untouched, at any time when Redis may have dropped
    the key.  Whether it was dropped or not, the script gives the same reply
    and stores the same number of tokens (unless a command fails). *)
Theorem redis_expiry_unobservable (k : string) (burst rps : go_arg) (cap rate : float64)
    (C n d : Z) (b : lua_bucket) (r0 r kept dropped : R) :
  lua_limits cap rate C -> tokens_ok C (tokens b) -> is_int (lastRefill b) (now_ms r0) ->
  charged_to k cap rate b r0 r -> deadline r k = Some d ->
  stored kept k (Some b) -> stored dropped k None ->
  now_us kept = now_us dropped -> d - 1000000 <= now_us kept ->
  limits_are kept k burst rps cap rate -> limits_are dropped k burst rps cap rate -> 1 <= n ->
  let run := tokenBucketScript [k] (arg_bulk <$> [burst; rps; GoInt n]) in
  (exists e, fst (run kept) = inr e) \/ (exists e, fst (run dropped) = inr e) \/
  fst (run kept) = fst (run dropped) /\
  exists b1 b2, stored (snd (run kept)) k (Some b1) /\ stored (snd (run dropped)) k (Some b2) /\
    f64_val (tokens b1) = f64_val (tokens b2) /\ lastRefill b1 = lastRefill b2.
Proof.
  intros Hlim Htok Hlast Hch Hd Hk Hdr Hnow Ht Hl1 Hl2 Hn run.
  destruct (script_now_spec kept) as (x & Hx & Hxi).
  assert (Hx2 : script_now dropped = (inl x, dropped)).
  { revert Hx. unfold script_now, sbind, call. rewrite !call_TIME, Hnow. simpl.
    rewrite !tonumber_int. by intros [= <-]. }
  assert (Hxi2 : is_int x (now_ms dropped)) by (unfold now_ms; by rewrite <- Hnow).
  pose proof (now_ms_range r0) as Hr0. pose proof (now_ms_range kept) as Hrk.
  assert (Hok : bucket_ok C (Some b)) by (split; [done|by exists (now_ms r0)]).
  pose proof (tokenBucketScript_run k burst rps cap rate C n _ kept x Hl1 Hlim Hk Hok Hn Hx Hxi) as H1.
  pose proof (tokenBucketScript_run k burst rps cap rate C n None dropped x Hl2 Hlim Hdr I Hn Hx2 Hxi2) as H2.
  fold run in H1, H2. pose proof (lua_elapsed_spec _ _ _ _ Hxi Hlast Hrk Hr0) as Hw.
  assert (Ev : f64_val (lua_refill cap rate (current cap x (Some b)) x) =
               f64_val (lua_refill cap rate (current cap x None) x)).
  { transitivity (C * f64_unit); [|symmetry; exact (available_fresh cap rate x C _ Hlim Hxi Hrk)].
    apply (lua_refill_full cap rate C b x _ Hlim Htok Hw); [lia|].
    pose proof (charged_full k cap rate C d (now_us kept) b r0 r Hlim Hch Hd Ht) as Hfull.
    fold (now_ms kept) in Hfull. etransitivity; [exact Hfull|].
    apply Z.mul_le_mono_nonneg_l; [pose proof (ll_rate_range _ _ _ Hlim); pose proof f64_unit_pos|]; lia. }
  destruct (current_ok cap rate x C _ _ Hlim Hok Hxi Hrk) as (Ht1 & l1 & _ & Hl10 & Hw1).
  destruct (current_ok cap rate x C _ None Hlim I Hxi Hrk) as (Ht2 & l2 & _ & Hl20 & Hw2).
  pose proof (lua_charge_spec _ _ _ _ _ n _ Hlim Ht1 Hw1 ltac:(lia) Hn) as Hs1.
  pose proof (lua_charge_spec _ _ _ _ _ n _ Hlim Ht2 Hw2 ltac:(lia) Hn) as Hs2.
  destruct (lua_charge cap rate (current cap x (Some b)) x _) as [ok1 b1].
  destruct (lua_charge cap rate (current cap x None) x _) as [ok2 b2].
  cbn beta iota zeta in Hs1, Hs2. rewrite Ev in Hs1. destruct Hs1 as (-> & _ & E1 & V1 & _).
  destruct Hs2 as (-> & _ & E2 & V2 & _). destruct (run kept) as [k1 s1], (run dropped) as [k2 s2].
  destruct H1 as [[-> (Hs1 & _)]|[He _]]; [|by left].
  destruct H2 as [[-> (Hs2 & _)]|[He _]]; [|by right; left].
  right. right. split; [done|]. exists b1, b2. split; [done|]. split; [done|].
  split; [congruence|congruence].
Qed.

(** C15: setting and resetting a limit.  After a [SetLimit] that succeeds the limits in
    force for the client are those that were set, whatever defaults a gateway
    passes to the script; its bucket keeps the tokens it has, the override
    gets no expiry, and nothing else on the server changes.  After a [Reset]
    that succeeds the client has no bucket, and each gateway's defaults are in
    force. *)
Theorem redis_set_reset (l l' : RedisLimiter R) (id : string) (lim : Z) (rate : float64) :
  f64_pos_ok rate -> f64_finite rate = true ->
  (redis_SetLimit l id lim rate = (None, l') ->
   exists r1 r2, reaches (client l) r1 /\ reaches r2 (client l') /\
     overridden r2 (key l id) (f64_of_Z lim) rate /\
     (forall b, stored r1 (key l id) b -> stored r2 (key l id) b) /\
     (forall k, deadline r2 k = deadline r1 k) /\
     forall k f, k <> cfg_key l id -> field r2 k f = field r1 k f) /\
  (redis_Reset l id = (None, l') ->
   exists r1 r2, reaches (client l) r1 /\ reaches r2 (client l') /\
     stored r2 (key l id) None /\
     (forall burst rps cap q, limits_are r2 (key l id) burst rps cap q <->
        bulk_tonumber (arg_bulk burst) = Some cap /\ bulk_tonumber (arg_bulk rps) = Some q) /\
     forall k f, k <> key l id -> k <> cfg_key l id -> field r2 k f = field r1 k f).
Proof.
  intros Hr Hf. split.
  - unfold redis_SetLimit. destruct (client_HSet _ _ _) as [err c] eqn:E. intros [= -> <-].
    apply hset_ok in E as (r1 & r2 & H1 & H2 & Hnow & Hd & Hfd);
      [|apply NoDup_cons; split; [by intros ?%list_elem_of_singleton|apply NoDup_singleton]].
    assert (Ho : forall k f, k <> cfg_key l id -> field r2 k f = field r1 k f)
      by (intros k f Hk; by rewrite Hfd, decide_False).
    exists r1, r2. split; [done|]. split; [done|]. split; [|split; [|by split]].
    + intros burst rps. unfold limits_are. fold (cfg_key l id).
      rewrite !Hfd, !decide_True by done. split; simpl; [apply tonumber_int|by apply tonumber_float].
    + intros b. apply stored_same. intros f. apply Ho. intros Ek. by apply (cfg_key_ne (key l id)).
  - unfold redis_Reset. destruct (client_Del _ _) as [err c] eqn:E. intros [= -> <-].
    apply del_ok in E as (r1 & r2 & H1 & H2 & Hnow & Hk). exists r1, r2.
    split; [done|]. split; [done|]. pose proof (Hk (key l id)) as Hk1.
    pose proof (Hk (cfg_key l id)) as Hk2. rewrite decide_True in Hk1 by set_solver.
    rewrite decide_True in Hk2 by set_solver. split; [|split].
    + apply stored_none. apply Hk1.
    + intros burst rps cap q. unfold limits_are. fold (cfg_key l id).
      by rewrite (proj2 Hk2 "burst").
    + intros k f Hk3 Hk4. pose proof (Hk k) as Hk5. rewrite decide_False in Hk5 by set_solver.
      apply Hk5.
Qed.

(** C33: a key collision.  The override of a client [id] lives under the key a
    client named [id:cfg] has, and the name of a client is whatever the
    request gives as API key.  A charge of [id:cfg] keeps the fields of the
    override but sets the expiry of the hash: once it is dropped, the limits
    in force for [id] are the defaults again. *)
Theorem redis_cfg_collision (l c : RedisLimiter R) (id : string) (n : Z) (ok : bool) :
  let burst := GoInt (BurstSize (config l)) in
  let rps := GoFloat (TokensPerSecond (config l)) in
  0 < n -> redis_AllowN l (id +:+ ":cfg") n = ((ok, None), c) ->
  key l (id +:+ ":cfg") = cfg_key l id /\
  exists r1 r2, reaches (client l) r1 /\ reaches r2 (client c) /\
    forall cap rate C,
      limits_are r1 (cfg_key l id) burst rps cap rate -> lua_limits cap rate C ->
      field r1 (cfg_key l id) "tokens" = None ->
      (exists ttl, is_int (lua_ttl cap rate) ttl /\
         deadline r2 (cfg_key l id) = Some (now_us r1 + ttl * 1000000)) /\
      (forall cap' rate',
         limits_are r1 (key l id) burst rps cap' rate' ->
         limits_are r2 (key l id) burst rps cap' rate') /\
      forall r3 cap' rate', field r3 (cfg_key l id) "burst" = None ->
        limits_are r3 (key l id) burst rps cap' rate' ->
        bulk_tonumber (arg_bulk burst) = Some cap' /\ bulk_tonumber (arg_bulk rps) = Some rate'.
Proof.
  intros burst rps Hn. assert (Ek : key l (id +:+ ":cfg") = cfg_key l id).
  { unfold cfg_key, key. by rewrite string_app_assoc. }
  unfold redis_AllowN. rewrite (proj2 (Z.leb_gt _ _) Hn), Ek.
  destruct (script_Run _ _ _ _) as [[v|e] c'] eqn:Erun; [|done].
  intros [= _ <-]. split; [done|].
  destruct (run_script _ _ _ _ _ _ Erun) as (r1 & lv & r2 & Hr1 & E & Hr2 & Hv).
  exists r1, r2. split; [done|]. split; [done|]. intros cap rate C Hl Hlim Htok.
  destruct (script_now_spec r1) as (x & Hnow & Hx).
  pose proof (tokenBucketScript_run (cfg_key l id) burst rps cap rate C n None r1 x Hl Hlim
    (stored_none _ _ Htok) I ltac:(lia) Hnow Hx) as Hc. fold burst rps in E.
  rewrite E in Hc. destruct (lua_charge _ _ _ _ _) as [ok' b'].
  destruct Hc as [[_ Hch]|[[e [=]] _]]. destruct Hch as (_ & _ & (ttl & Hi & _ & Hd) & Hf & _).
  split; [by exists ttl|]. split.
  - intros cap' rate'. unfold limits_are. fold (cfg_key l id). by rewrite !Hf.
  - intros r3 cap' rate' Hb. unfold limits_are. fold (cfg_key l id). by rewrite Hb.
Qed.
End Properties.

(** *** Witnesses *)

(** A gateway with a burst of two and a rate of one, and an empty server. *)
Definition demo_server : mem_redis := mkMem ∅ ∅ 1700000000123456.
Definition demo_limiter : RedisLimiter mem_redis :=
  mkRedisLimiter demo_server (mkConfig (f64_of_Z 1) 2 0) "ratelimit:".
Definition demo_burst : go_arg := GoInt 2.
Definition demo_rps : go_arg := GoFloat (f64_of_Z 1).

Lemma demo_lua_limits : lua_limits (f64_of_Z 2) (f64_of_Z 1) 2.
Proof.
  destruct (is_int_of_Z 1) as (H1 & H2 & E); [lia|]. pose proof f64_unit_pos.
  split; [by apply is_int_of_Z|lia|done|]. rewrite E. lia.
Qed.

(** The server after a charge of one token, and two seconds later. *)
Definition demo_charged : mem_redis := client (snd (redis_AllowN demo_limiter "a" 1)).
Definition demo_later : mem_redis :=
  mkMem (hashes demo_charged) (deadlines demo_charged) (clock_us demo_charged + 2000000).

Lemma redis_rate_bound_witness :
  1000 * 2 <= 1000 * (2 + 1) + 1 * 2000.
Proof.
  apply (redis_rate_bound (R := mem_redis) "ratelimit:a" demo_burst demo_rps (f64_of_Z 2) (f64_of_Z 1)
    2 1 (1000 * (2 * f64_unit)) 2 2000 demo_server
    (snd (tokenBucketScript ["ratelimit:a"] (arg_bulk <$> [demo_burst; demo_rps; GoInt 1]) demo_later)) 2).
  - split; reflexivity.
  - apply is_int_of_Z. lia.
  - lia.
  - apply is_int_of_Z. lia.
  - lia.
  - apply credit_absent. reflexivity.
  - apply (served_allow _ _ _ _ demo_later _ 1 2000 1 1 (inl (LNum (f64_of_Z 1)))).
    + change 2000 with (0 + Z.max 0 (now_ms demo_later - now_ms demo_charged)).
      apply (served_other _ _ _ _ demo_charged _ 1 0 1).
      * apply (served_allow _ _ _ _ demo_server _ 0 0 0 1 (inl (LNum (f64_of_Z 1)))).
        -- apply served_start.
        -- lia.
        -- vm_compute. reflexivity.
      * split; [done|]. left. split; [done|reflexivity].
    + lia.
    + vm_compute. reflexivity.
  - lia.
Defined.

Lemma redis_allow_witness : snd (fst (redis_AllowN demo_limiter "a" 1)) = None /\
  exists r2, reaches r2 demo_charged /\ deadline r2 "ratelimit:a" <> None.
Proof.
  split; [vm_compute; reflexivity|].
  destruct (redis_allow demo_limiter "a" 1) as (_ & _ & H).
  destruct H as (r1 & r2 & H1 & H2 & H); [lia|vm_compute; reflexivity|].
  exists r2. split; [exact H2|]. change (demo_server = r1) in H1. subst r1.
  destruct (H (f64_of_Z 2) (f64_of_Z 1) 2 None) as (x & b & _ & _ & Hch & _).
  - split; reflexivity.
  - apply demo_lua_limits.
  - apply stored_none. reflexivity.
  - exact I.
  - destruct Hch as (_ & _ & (m & _ & _ & Hd) & _).
    change "ratelimit:a" with (key demo_limiter "a"). rewrite Hd. discriminate.
Defined.

Lemma redis_tokens_witness : exists m, redis_Tokens demo_limiter "a" = ((m, None), demo_limiter) /\
  0 <= m <= 2.
Proof.
  exists 2. split; [vm_compute; reflexivity|].
  destruct (redis_tokens demo_limiter "a" 2 demo_limiter) as (r1 & H1 & _ & H);
    [vm_compute; reflexivity|]. change (demo_server = r1) in H1. subst r1.
  destruct (H (f64_of_Z 2) (f64_of_Z 1) 2 None) as [Hm _]; [split; reflexivity| | |exact I|exact Hm].
  - apply demo_lua_limits.
  - apply stored_none. reflexivity.
Defined.

(** The server six seconds later, with the bucket and with it dropped. *)
Definition demo_kept : mem_redis :=
  mkMem (hashes demo_charged) (deadlines demo_charged) (clock_us demo_charged + 6000000).
Definition demo_dropped : mem_redis := mkMem ∅ ∅ (clock_us demo_charged + 6000000).

Lemma demo_limits_are :
  limits_are demo_server "ratelimit:a" demo_burst demo_rps (f64_of_Z 2) (f64_of_Z 1).
Proof. split; reflexivity. Qed.

(** The bucket the charge leaves. *)
Lemma demo_charged_to :
  exists b, charged_to "ratelimit:a" (f64_of_Z 2) (f64_of_Z 1) b demo_server demo_charged /\
    tokens_ok 2 (tokens b) /\ is_int (lastRefill b) (now_ms demo_server).
Proof.
  destruct (script_now_spec demo_server) as (x & Hnow & Hx).
  pose proof (tokenBucketScript_run "ratelimit:a" demo_burst demo_rps (f64_of_Z 2) (f64_of_Z 1) 2 1
    None demo_server x demo_limits_are demo_lua_limits (stored_none demo_server _ eq_refl) I
    ltac:(lia) Hnow Hx) as Hc.
  pose proof (now_ms_range demo_server) as Hms.
  pose proof (lua_elapsed_spec _ _ _ _ Hx Hx Hms Hms) as Hw.
  pose proof (lua_charge_spec _ _ _ _ _ 1 _ demo_lua_limits (full_tokens_ok _ _ _ demo_lua_limits
    : tokens_ok 2 (tokens (current (f64_of_Z 2) x None))) Hw ltac:(lia) ltac:(lia)) as Hs.
  change (client _) with demo_charged in Hc.
  destruct (lua_charge _ _ _ _ _) as [ok b]. cbn beta iota zeta in Hs.
  destruct Hs as (_ & Htok & Hlast & _). exists b.
  assert (E : tokenBucketScript ["ratelimit:a"] (arg_bulk <$> [demo_burst; demo_rps; GoInt 1])
    demo_server = (inl (LNum (f64_of_Z 1)), demo_charged)) by (vm_compute; reflexivity).
  rewrite E in Hc. destruct Hc as [[_ Hch]|[[e [=]] _]].
  split; [done|]. split; [done|]. by rewrite Hlast.
Qed.

Lemma redis_expiry_unobservable_witness :
  let run := tokenBucketScript ["ratelimit:a"] (arg_bulk <$> [demo_burst; demo_rps; GoInt 2]) in
  fst (run demo_kept) = fst (run demo_dropped).
Proof.
  intros run. destruct demo_charged_to as (b & Hch & Htok & Hlast).
  destruct (redis_expiry_unobservable "ratelimit:a" demo_burst demo_rps (f64_of_Z 2) (f64_of_Z 1)
    2 2 1700000005123456 b demo_server demo_charged demo_kept demo_dropped
    demo_lua_limits Htok Hlast Hch) as [[e He]|[[e He]|[He _]]].
  - vm_compute. reflexivity.
  - apply (stored_same _ _ demo_charged); [reflexivity|apply Hch].
  - apply stored_none. reflexivity.
  - reflexivity.
  - vm_compute. discriminate.
  - vm_compute; split; reflexivity.
  - vm_compute; split; reflexivity.
  - lia.
  - exfalso. revert He. vm_compute. discriminate.
  - exfalso. revert He. vm_compute. discriminate.
  - exact He.
Defined.

Lemma redis_cfg_collision_witness :
  key demo_limiter "a:cfg" = cfg_key demo_limiter "a" /\
  exists r2, reaches r2 (client (snd (redis_AllowN demo_limiter "a:cfg" 1))) /\
    deadline r2 "ratelimit:a:cfg" <> None.
Proof.
  destruct (redis_cfg_collision demo_limiter (snd (redis_AllowN demo_limiter "a:cfg" 1)) "a" 1 true)
    as (Ek & r1 & r2 & H1 & H2 & H); [lia|vm_compute; reflexivity|].
  split; [exact Ek|]. exists r2. split; [exact H2|]. change (demo_server = r1) in H1. subst r1.
  destruct (H (f64_of_Z 2) (f64_of_Z 1) 2) as ((ttl & _ & Hd) & _).
  - split; reflexivity.
  - apply demo_lua_limits.
  - reflexivity.
  - change "ratelimit:a:cfg" with (cfg_key demo_limiter "a"). rewrite Hd. discriminate.
Defined.

(** A client with the limit 5, set on an empty server. *)
Definition demo_override : RedisLimiter mem_redis :=
  snd (redis_SetLimit demo_limiter "a" 5 (f64_of_Z 5)).

Lemma redis_set_reset_witness :
  overridden (client demo_override) "ratelimit:a" (f64_of_Z 5) (f64_of_Z 5) /\
  stored (client (snd (redis_Reset demo_override "a"))) "ratelimit:a" None.
Proof.
  assert (H5 : f64_pos_ok (f64_of_Z 5) /\ f64_finite (f64_of_Z 5) = true)
    by (split; [by apply f64_of_Z_ok|reflexivity]).
  destruct (redis_set_reset demo_limiter demo_override "a" 5 (f64_of_Z 5) (proj1 H5) (proj2 H5))
    as [H _].
  destruct (H eq_refl) as (r1 & r2 & _ & E & Ho & _). change (r2 = client demo_override) in E.
  subst r2. split; [exact Ho|].
  destruct (redis_set_reset demo_override (snd (redis_Reset demo_override "a")) "a" 5 (f64_of_Z 5)
    (proj1 H5) (proj2 H5)) as [_ H'].
  destruct (H' eq_refl) as (r3 & r4 & _ & E' & Hs & _).
  change (r4 = client (snd (redis_Reset demo_override "a"))) in E'. subst r4. exact Hs.
Defined.
