(* ===== verification/Http.v ===== *)
(** * What the handlers use of [net/http]

    Headers are maps from canonical keys to value lists.  A response writer
    has a live header map; the first [WriteHeader] (or [Write]) commits the
    status and a copy of it, and later changes of either are not sent.  A
    handler is a function on the writer and on the state of the program
    behind it; it may panic, and what it did before stays done. *)
From S2P Require Import Prelude GoTime GoError GoString.

(** ** Headers *)

Abbreviation Header := (gmap string (list string)).

Definition header_Get (h : Header) (k : string) : string :=
  match h !! canonical_key k with Some (v :: _) => v | _ => "" end.

Definition header_Set (h : Header) (k v : string) : Header := <[canonical_key k := [v]]> h.

(** ** Requests *)

(** A request body: the content a reader gets, and the error reading it ends
    with, if any. *)
Record Body := mkBody { content : string; read_err : option error }.

(** A request as a server handler gets it. *)
Record HttpRequest := mkHttpRequest {
  rq_Method : string;
  rq_Path : string;           (* [URL.Path] *)
  rq_RawQuery : string;       (* [URL.RawQuery] *)
  rq_Host : string;
  rq_TLS : bool;              (* [TLS != nil] *)
  rq_Header : Header;
  rq_RemoteAddr : string;
  rq_Body : option Body;
}.

(** ** Response writers *)

(** [ProblemDetails] (handler package), the body of the error responses. *)
Record ProblemDetails := mkProblem {
  pd_Type : string; pd_Title : string; pd_Status : Z; pd_Detail : string; pd_Instance : string;
}.

(** What is written to a body: bytes, or a value that is encoded as JSON. *)
Inductive chunk :=
  | Bytes (s : string)
  | JSONProblem (pd : ProblemDetails)
  | JSONMap (m : gmap string string).

Record ResponseWriter := mkWriter {
  w_header : Header;
  w_sent : option (Z * Header);     (* the committed status and headers *)
  w_body : list chunk;
  w_calls : list Z;                 (* the statuses passed to [WriteHeader] *)
}.

Definition new_writer : ResponseWriter := mkWriter ∅ None [] [].

Definition StatusOK : Z := 200.
Definition StatusTooManyRequests : Z := 429.
Definition StatusInternalServerError : Z := 500.
Definition StatusBadGateway : Z := 502.
Definition StatusServiceUnavailable : Z := 503.
Definition StatusGatewayTimeout : Z := 504.

Definition set_header (w : ResponseWriter) (k v : string) : ResponseWriter :=
  mkWriter (header_Set (w_header w) k v) (w_sent w) (w_body w) (w_calls w).

(** Commit a status, unless one has been. *)
Definition commit (w : ResponseWriter) (status : Z) : ResponseWriter :=
  match w_sent w with
  | Some _ => w
  | None => mkWriter (w_header w) (Some (status, w_header w)) (w_body w) (w_calls w)
  end.

Definition WriteHeader (w : ResponseWriter) (status : Z) : ResponseWriter :=
  let w := commit w status in
  mkWriter (w_header w) (w_sent w) (w_body w) (w_calls w ++ [status]).

(** [w_body] is what the handler writes.  What the server makes of it is not
    part of the model: it refuses bytes beyond a declared [Content-Length],
    cuts the connection of a response that stays below one, and sends no body
    where none is allowed ([HEAD] and the statuses of [body_allowed]); a theorem
    that speaks of what the client sees excludes these responses. *)
Definition Write (w : ResponseWriter) (b : chunk) : ResponseWriter :=
  let w := commit w StatusOK in
  mkWriter (w_header w) (w_sent w) (w_body w ++ [b]) (w_calls w).

(** The wrappers of the metrics and logging middleware embed the writer and
    override [WriteHeader] to note the status, which is 200 before: what a
    wrapper made at [w0] holds when the writer has become [w]. *)
Definition wrapper_status (w0 w : ResponseWriter) : Z :=
  default StatusOK (last (drop (length (w_calls w0)) (w_calls w))).

(** The status the client gets: 200 when the handler wrote nothing. *)
Definition final_status (w : ResponseWriter) : Z :=
  match w_sent w with Some (s, _) => s | None => StatusOK end.

(** [http.bodyAllowedForStatus]. *)
Definition body_allowed (s : Z) : bool := (200 <=? s) && negb (s =? 204) && negb (s =? 304).

Definition final_header (w : ResponseWriter) : Header :=
  match w_sent w with Some (_, h) => h | None => w_header w end.

(** ** Handlers *)

(** The state [W] is everything the handlers behind a middleware change. *)
Definition Handler (W : Type) :=
  HttpRequest -> ResponseWriter -> W -> outcome unit * ResponseWriter * W.

(** ** Lemmas *)

Lemma header_Get_Set (h : Header) (k v : string) : header_Get (header_Set h k v) k = v.
Proof. unfold header_Get, header_Set. by rewrite lookup_insert_eq. Qed.

Lemma header_Get_Set_ne (h : Header) (k k' v : string) :
  canonical_key k <> canonical_key k' -> header_Get (header_Set h k v) k' = header_Get h k'.
Proof. intros H. unfold header_Get, header_Set. by rewrite lookup_insert_ne. Qed.

Lemma commit_sent (w : ResponseWriter) (s : Z) :
  w_sent (commit w s) = Some (default (s, w_header w) (w_sent w)).
Proof. unfold commit. by destruct (w_sent w) eqn:E. Qed.

Lemma commit_calls (w : ResponseWriter) (s : Z) : w_calls (commit w s) = w_calls w.
Proof. unfold commit. by destruct (w_sent w). Qed.

Lemma commit_body (w : ResponseWriter) (s : Z) : w_body (commit w s) = w_body w.
Proof. unfold commit. by destruct (w_sent w). Qed.

Lemma commit_header (w : ResponseWriter) (s : Z) : w_header (commit w s) = w_header w.
Proof. unfold commit. by destruct (w_sent w). Qed.

Lemma Write_sent (w : ResponseWriter) (b : chunk) :
  w_sent (Write w b) = Some (default (StatusOK, w_header w) (w_sent w)).
Proof. unfold Write. simpl. by rewrite commit_sent. Qed.

Lemma wrapper_status_fresh (w : ResponseWriter) : wrapper_status w w = StatusOK.
Proof. unfold wrapper_status. by rewrite drop_all. Qed.

Lemma wrapper_status_last (w0 w : ResponseWriter) (pre : list Z) (s : Z) :
  w_calls w = w_calls w0 ++ pre ++ [s] -> wrapper_status w0 w = s.
Proof.
  intros E. unfold wrapper_status. rewrite E, drop_app_length. by rewrite last_snoc.
Qed.

(** ** Well-behaved handlers

    What a handler does to a writer: it may set headers, commit a status
    once, write to the body, and call [WriteHeader] again.  The relation
    holds of every sequence of such calls. *)
Record extends (w w' : ResponseWriter) : Prop := {
  ext_sent : w_sent w <> None -> w_sent w' = w_sent w;
  ext_calls : exists l, w_calls w' = w_calls w ++ l;
  ext_body : exists b, w_body w' = w_body w ++ b;
}.

Lemma extends_refl (w : ResponseWriter) : extends w w.
Proof. split; [done| |]; exists []; by rewrite app_nil_r. Qed.

Lemma extends_trans (a b c : ResponseWriter) : extends a b -> extends b c -> extends a c.
Proof.
  intros [S1 [l1 L1] [b1 B1]] [S2 [l2 L2] [b2 B2]]. split.
  - intros H. rewrite S2; [by apply S1|]. by rewrite S1.
  - exists (l1 ++ l2). by rewrite L2, L1, app_assoc.
  - exists (b1 ++ b2). by rewrite B2, B1, app_assoc.
Qed.

Lemma extends_set_header (w : ResponseWriter) (k v : string) : extends w (set_header w k v).
Proof. split; [done| |]; exists []; by rewrite app_nil_r. Qed.

Lemma extends_WriteHeader (w : ResponseWriter) (s : Z) : extends w (WriteHeader w s).
Proof.
  split; unfold WriteHeader; simpl.
  - rewrite commit_sent. by destruct (w_sent w).
  - rewrite commit_calls. by eexists.
  - rewrite commit_body. exists []. by rewrite app_nil_r.
Qed.

Lemma extends_Write (w : ResponseWriter) (b : chunk) : extends w (Write w b).
Proof.
  split; unfold Write; simpl.
  - rewrite commit_sent. by destruct (w_sent w).
  - rewrite commit_calls. exists []. by rewrite app_nil_r.
  - rewrite commit_body. by eexists.
Qed.
#[export] Hint Resolve extends_refl extends_set_header extends_WriteHeader extends_Write : gateway.
