(* ===== verification/Writers.v ===== *)
(** * The wrappers of the response writer and the interfaces they offer

    [responseWriter] of [internal/metrics/metrics.go] and [statusWriter] of
    [internal/handler/middleware.go] embed the writer they wrap, so they
    offer the methods of [http.ResponseWriter] and those they declare; an
    optional interface of the writer inside is offered only if it is declared
    again with the same signature.  The handlers of this library work on one
    [ResponseWriter] and read the status a wrapper has noted off the calls
    made on it ([wrapper_status]); here are the wrappers themselves, with
    their [WriteHeader], [Write], [Flush] and [Hijack]. *)
From S2P Require Import Prelude GoTime GoString Http.

(** ** The status a wrapper notes *)

(** A [statusWriter], or a [responseWriter], around a writer. *)
Record Wrapper := mkWrapper { status : Z; inner : ResponseWriter }.

Definition wrap (w : ResponseWriter) : Wrapper := mkWrapper StatusOK w.

(** [WriteHeader] of both wrappers. *)
Definition wrapper_WriteHeader (sw : Wrapper) (code : Z) : Wrapper :=
  mkWrapper code (WriteHeader (inner sw) code).

(** [statusWriter.Write]; [responseWriter] has the [Write] of the writer
    inside, which leaves the status alone. *)
Definition wrapper_Write (sw : Wrapper) (b : chunk) : Wrapper :=
  mkWrapper (if status sw =? 0 then StatusOK else status sw) (Write (inner sw) b).

(** The calls a handler makes on its writer. *)
Inductive writer_call :=
  | CallSet (k v : string)       (* [Header().Set] *)
  | CallWriteHeader (code : Z)
  | CallWrite (b : chunk).

Definition plain_step (w : ResponseWriter) (c : writer_call) : ResponseWriter :=
  match c with
  | CallSet k v => set_header w k v
  | CallWriteHeader code => WriteHeader w code
  | CallWrite b => Write w b
  end.

Definition wrapper_step (sw : Wrapper) (c : writer_call) : Wrapper :=
  match c with
  | CallSet k v => mkWrapper (status sw) (set_header (inner sw) k v)
  | CallWriteHeader code => wrapper_WriteHeader sw code
  | CallWrite b => wrapper_Write sw b
  end.

(** The server panics on a status that is no status. *)
Definition call_ok (c : writer_call) : Prop :=
  match c with CallWriteHeader code => 100 <= code <= 999 | _ => True end.

Lemma wrapper_status_snoc (w0 w : ResponseWriter) (pre : list Z) (code : Z) :
  w_calls w = w_calls w0 ++ pre -> wrapper_status w0 (WriteHeader w code) = code.
Proof.
  intros E. apply (wrapper_status_last w0 _ pre). simpl. by rewrite commit_calls, E, <- app_assoc.
Qed.

(** A wrapper does what the writer inside does, and has noted the status that
    [wrapper_status] reads off. *)
Lemma wrapper_refines (w0 : ResponseWriter) (calls : list writer_call) :
  Forall call_ok calls ->
  let w := fold_left plain_step calls w0 in
  fold_left wrapper_step calls (wrap w0) = mkWrapper (wrapper_status w0 w) w /\
  0 < wrapper_status w0 w /\ exists pre, w_calls w = w_calls w0 ++ pre.
Proof.
  induction calls as [|c calls IH] using rev_ind; intros Hok.
  { simpl. rewrite wrapper_status_fresh. split; [done|]. split; [done|]. exists []. by rewrite app_nil_r. }
  apply Forall_app in Hok as [Hok Hc]. apply Forall_cons in Hc as [Hc _]. cbv zeta.
  rewrite !fold_left_app. cbn [fold_left]. destruct (IH Hok) as (-> & Hpos & pre & E).
  set (w := fold_left plain_step calls w0) in *.
  assert (Esame : forall w', w_calls w' = w_calls w -> wrapper_status w0 w' = wrapper_status w0 w)
    by (intros w' H; unfold wrapper_status; by rewrite H).
  destruct c as [k v|code|b]; cbn [wrapper_step plain_step status inner].
  - rewrite (Esame (set_header w k v)) by done. split; [done|]. split; [done|]. by exists pre.
  - unfold wrapper_WriteHeader. cbn [status inner].
    rewrite (wrapper_status_snoc w0 w pre code E).
    simpl in Hc. split; [done|]. split; [lia|]. exists (pre ++ [code]). simpl.
    by rewrite commit_calls, E, app_assoc.
  - assert (Ew : w_calls (Write w b) = w_calls w) by (unfold Write; simpl; apply commit_calls).
    unfold wrapper_Write. simpl status. simpl inner. rewrite (proj2 (Z.eqb_neq _ 0)) by lia.
    rewrite (Esame (Write w b) Ew). split; [done|]. split; [done|]. exists pre. by rewrite Ew.
Qed.

(** ** The interfaces *)

(** A writer: the server's, with the optional interfaces it implements, under
    any number of wrappers. *)
Inductive Writer :=
  | ServerWriter (flusher hijacker : bool)
  | responseWriter (inner : Writer)
  | statusWriter (inner : Writer).

(** The assertion [w.(http.Flusher)]. *)
Definition is_Flusher (w : Writer) : bool :=
  match w with ServerWriter flusher _ => flusher | _ => true end.

(** The assertion [w.(http.Hijacker)], whose method returns a connection, a
    buffer and an error; the wrappers declare [Hijack() (any, any, error)]. *)
Definition is_Hijacker (w : Writer) : bool :=
  match w with ServerWriter _ hijacker => hijacker | _ => false end.

(** The assertion to the interface [statusWriter.Hijack] declares. *)
Definition is_any_hijacker (w : Writer) : bool :=
  match w with ServerWriter _ _ => false | _ => true end.

(** How often the server's [Flush] is called. *)
Fixpoint Flush (w : Writer) : nat :=
  match w with
  | ServerWriter _ _ => 1
  | responseWriter inner | statusWriter inner => if is_Flusher inner then Flush inner else 0
  end.

Inductive hijacked := Connection | ErrNotSupported.

Fixpoint Hijack (w : Writer) : hijacked :=
  match w with
  | ServerWriter _ _ => Connection
  | responseWriter inner => if is_Hijacker inner then Hijack inner else ErrNotSupported
  | statusWriter inner => if is_any_hijacker inner then Hijack inner else ErrNotSupported
  end.

(** [http.ResponseController.Hijack], which the reverse proxy uses: no wrapper
    has an [Unwrap] method. *)
Definition controller_Hijack (w : Writer) : hijacked :=
  if is_Hijacker w then Hijack w else ErrNotSupported.

(** The writer the rate limiter and the proxy get: the metrics middleware is
    outside, the logging middleware inside. *)
Definition chain_writer (server : Writer) : Writer := statusWriter (responseWriter server).

(** The server's writer at the bottom. *)
Fixpoint server_writer (w : Writer) : Writer :=
  match w with
  | ServerWriter _ _ => w
  | responseWriter inner | statusWriter inner => server_writer inner
  end.

Definition wrapped (w : Writer) : Prop :=
  match w with ServerWriter _ _ => False | _ => True end.

Lemma Flush_wrapped (w : Writer) :
  wrapped w -> Flush w = if is_Flusher (server_writer w) then 1%nat else 0%nat.
Proof.
  induction w as [f h|w IH|w IH]; [done|..]; intros _; simpl;
    destruct w as [f h|w'|w']; try done; by apply IH.
Qed.

(** ** Properties *)

(** C40: the interfaces of the wrappers.  However often a writer is wrapped,
    flushing it flushes the server's writer, once, if that can be flushed;
    but no wrapped writer is an [http.Hijacker], so the reverse proxy cannot
    take over a connection through the handler chain and protocol upgrades
    fail, although the chain's own [Hijack] method would work. *)
Theorem wrapper_interfaces (w : Writer) (flusher hijacker : bool) :
  wrapped w -> server_writer w = ServerWriter flusher hijacker ->
  Flush w = (if flusher then 1%nat else 0%nat) /\
  controller_Hijack w = ErrNotSupported /\
  (w = chain_writer (ServerWriter flusher hijacker) ->
   Hijack w = if hijacker then Connection else ErrNotSupported).
Proof.
  intros Hw Hs. split; [rewrite (Flush_wrapped w Hw), Hs; done|]. split.
  - destruct w; [done|reflexivity|reflexivity].
  - intros ->. by destruct hijacker.
Qed.

Lemma wrapper_interfaces_witness :
  let w := chain_writer (ServerWriter true true) in
  Flush w = 1%nat /\ controller_Hijack w = ErrNotSupported /\ Hijack w = Connection.
Proof.
  intros w. destruct (wrapper_interfaces w true true) as (H1 & H2 & H3); [exact I|reflexivity|].
  split; [exact H1|]. split; [exact H2|]. exact (H3 eq_refl).
Defined.
