(* ===== verification/Routing.v ===== *)
(** * [http.ServeMux]: which handler serves a request

    [run] registers the patterns ["/"], ["/healthz"], ["/readyz"] and, by the
    configuration, ["/metrics"] and ["/debug/rate_limit"].  The multiplexer
    matches the cleaned escaped path, segment by segment; it redirects a
    request whose path is not clean to the cleaned escaped path, which
    [url.URL.String] escapes once more. *)
From S2P Require Import Prelude GoString EnvParse.
From Stdlib Require Import Ascii.

(** ** Cleaning *)

(** [path.Clean] on a path that starts with a slash: empty and ["."] elements
    go, [".."] takes the element before it along. *)
Definition clean_step (acc : list string) (seg : string) : list string :=
  if bool_decide (seg = "" \/ seg = ".") then acc
  else if bool_decide (seg = "..") then removelast acc
  else acc ++ [seg].

Definition clean_segments (segs : list string) : list string := fold_left clean_step segs [].

Definition join_slash (segs : list string) : string :=
  foldr (fun seg acc => "/" +:+ seg +:+ acc) "" segs.

Definition path_Clean (p : string) : string :=
  match clean_segments (split "/" (str_drop 1 p)) with
  | [] => "/"
  | segs => join_slash segs
  end.

(** [cleanPath], which keeps a slash at the end. *)
Definition cleanPath (p : string) : string :=
  if bool_decide (p = "") then "/"
  else
    let p := if has_prefix_slash p then p else "/" +:+ p in
    let np := path_Clean p in
    if has_suffix_slash p && negb (bool_decide (np = "/")) then np +:+ "/" else np.

(** ** Matching *)

Definition hex_value (c : ascii) : option Z :=
  let b := byte_of c in
  if is_digit c then Some (b - 48)
  else if (97 <=? b) && (b <=? 102) then Some (b - 87)
  else if (65 <=? b) && (b <=? 70) then Some (b - 55)
  else None.

(** [url.PathUnescape]. *)
Fixpoint PathUnescape (s : string) : option string :=
  match s with
  | EmptyString => Some EmptyString
  | String c s1 =>
      if Ascii.eqb c "%" then
        match s1 with
        | String a (String b s2) =>
            match hex_value a, hex_value b, PathUnescape s2 with
            | Some x, Some y, Some u => Some (String (ascii_of_N (Z.to_N (16 * x + y))) u)
            | _, _, _ => None
            end
        | _ => None
        end
      else String c <$> PathUnescape s1
  end.

(** The bytes [url.URL.String] leaves in a path, and the path it prints. *)
Definition path_byte (c : ascii) : bool :=
  is_upper c || is_lower c || is_digit c || contains_byte c "-_.~$&+,/:;=@".

Definition hex_digit (n : Z) : ascii :=
  ascii_of_N (Z.to_N (if n <? 10 then 48 + n else 55 + n)).

Definition escape_byte (c : ascii) : string :=
  if path_byte c then String c ""
  else String "%" (String (hex_digit (byte_of c / 16)) (String (hex_digit (byte_of c mod 16)) "")).

Fixpoint escape_path (s : string) : string :=
  match s with
  | EmptyString => EmptyString
  | String c s => escape_byte c +:+ escape_path s
  end.

(** The segments of a path that starts with a slash, unescaped where that is
    possible. *)
Definition path_segments (p : string) : list string :=
  (fun seg => default seg (PathUnescape seg)) <$> split "/" (str_drop 1 p).

(** ** Routes *)

Inductive route :=
  | RedirectTo (path : string)
  | Main | Healthz | Readyz | MetricsPage | DebugRateLimitPage.

Definition endpoint (metrics debug : bool) (segs : list string) : route :=
  if bool_decide (segs = ["healthz"]) then Healthz
  else if bool_decide (segs = ["readyz"]) then Readyz
  else if metrics && bool_decide (segs = ["metrics"]) then MetricsPage
  else if debug && bool_decide (segs = ["debug"; "rate_limit"]) then DebugRateLimitPage
  else Main.

(** What the multiplexer with the patterns of [run] does with a request of this
    escaped path, for methods other than [CONNECT]: the behaviour of
    [http.ServeMux] around the registrations. *)
Definition find_route (metrics debug : bool) (escaped : string) : route :=
  let path := cleanPath escaped in
  if bool_decide (path <> escaped) then RedirectTo path
  else endpoint metrics debug (path_segments path).

Example route_main : find_route true true "/api/items/42" = Main.
Proof. vm_compute. reflexivity. Qed.
Example route_health : find_route true true "/%68ealthz" = Healthz.
Proof. vm_compute. reflexivity. Qed.
Example route_health_slash : find_route true true "/healthz/" = Main.
Proof. vm_compute. reflexivity. Qed.
Example route_dots : find_route true true "/api/../healthz" = RedirectTo "/healthz".
Proof. vm_compute. reflexivity. Qed.
Example route_debug_off : find_route true false "/debug/rate_limit" = Main.
Proof. vm_compute. reflexivity. Qed.
Example escape_twice : escape_path (cleanPath "/a%20b//c") = "/a%2520b/c".
Proof. vm_compute. reflexivity. Qed.
Example clean_slashes : cleanPath "a//b/./c/" = "/a/b/c/".
Proof. vm_compute. reflexivity. Qed.

(** ** Cleaning is idempotent *)

(** A segment of a clean path. *)
Definition clean_segment (seg : string) : Prop :=
  seg <> "" /\ seg <> "." /\ seg <> ".." /\ index_byte "/" seg = None.

Lemma split_segments (s : string) : Forall (fun seg => index_byte "/" seg = None) (split "/" s).
Proof.
  induction s as [|c s IH]; [by repeat constructor|]. simpl.
  destruct (Ascii.eqb c "/") eqn:E; [by constructor|].
  assert (Hc : Ascii.eqb "/" c = false) by (by rewrite Ascii.eqb_sym).
  destruct (split "/" s) as [|p ps]; [constructor; [|done]|].
  - cbn [index_byte]. by rewrite Hc.
  - apply Forall_cons in IH as [Hp Hps]. constructor; [|done]. cbn [index_byte]. by rewrite Hc, Hp.
Qed.

Lemma Forall_removelast {A} (P : A -> Prop) (l : list A) : Forall P l -> Forall P (removelast l).
Proof.
  induction l as [|x l IH]; [done|]. intros [Hx Hl]%Forall_cons.
  destruct l; [done|]. constructor; [done|by apply IH].
Qed.

Lemma clean_fold (segs acc : list string) :
  Forall (fun seg => index_byte "/" seg = None) segs -> Forall clean_segment acc ->
  Forall clean_segment (fold_left clean_step segs acc).
Proof.
  revert acc. induction segs as [|seg segs IH]; [done|]. intros acc [Hs Hss]%Forall_cons Ha.
  simpl. apply IH; [done|]. unfold clean_step. case_bool_decide; [done|].
  case_bool_decide; [by apply Forall_removelast|]. apply Forall_app. split; [done|].
  constructor; [|done]. unfold clean_segment. naive_solver.
Qed.

(** Clean segments are kept. *)
Lemma clean_kept (segs acc : list string) :
  Forall clean_segment segs -> fold_left clean_step segs acc = acc ++ segs.
Proof.
  revert acc. induction segs as [|seg segs IH]; intros acc.
  { intros _. by rewrite app_nil_r. }
  intros [(H1 & H2 & H3 & H4) Hs]%Forall_cons. simpl. rewrite IH by done.
  unfold clean_step. rewrite bool_decide_false, bool_decide_false by (done || by intros [->| ->]). by rewrite <- app_assoc.
Qed.

(** Splitting the join of segments gives them back, followed by what the rest
    of the string splits to. *)
Lemma split_join (segs : list string) :
  Forall clean_segment segs -> segs <> [] ->
  split "/" (str_drop 1 (join_slash segs)) = segs /\
  split "/" (str_drop 1 (join_slash segs +:+ "/")) = segs ++ [""].
Proof.
  induction segs as [|seg segs IH]; [done|]. intros [(_ & _ & _ & Hs) Hss]%Forall_cons _.
  assert (E : forall t, str_drop 1 (join_slash (seg :: segs) +:+ t) = seg +:+ (join_slash segs +:+ t)).
  { intros t. cbn [join_slash foldr]. rewrite string_app_assoc, string_app_assoc. done. }
  split.
  - specialize (E ""). rewrite !string_app_nil_r in E. rewrite E.
    destruct segs as [|seg' segs]; [cbn [join_slash foldr]; rewrite string_app_nil_r; by apply split_none|].
    destruct (IH Hss ltac:(done)) as [IH1 _]. revert IH1. cbn [join_slash foldr].
    change ("/" +:+ seg' +:+ ?x) with (String "/" (seg' +:+ x)). intros IH1.
    rewrite split_app by done. exact (f_equal (cons seg) IH1).
  - rewrite E. destruct segs as [|seg' segs].
    { cbn [join_slash foldr]. change ("" +:+ "/") with (String "/" ""). by rewrite split_app. }
    destruct (IH Hss ltac:(done)) as [_ IH2]. revert IH2. cbn [join_slash foldr].
    rewrite string_app_assoc. change ("/" +:+ ?x) with (String "/" x). intros IH2.
    rewrite split_app by done. exact (f_equal (cons seg) IH2).
Qed.

(** The result of cleaning: a join of clean segments, with a slash at its end
    or not. *)
Definition clean_form (p : string) : Prop :=
  p = "/" \/ exists segs, segs <> [] /\ Forall clean_segment segs /\
    (p = join_slash segs \/ p = join_slash segs +:+ "/").

Lemma cleanPath_form (p : string) : clean_form (cleanPath p).
Proof.
  unfold cleanPath. case_bool_decide; [by left|]. cbv zeta. set (q := if has_prefix_slash p then _ else _).
  unfold path_Clean. pose proof (clean_fold _ [] (split_segments (str_drop 1 q)) ltac:(done)) as Hc.
  unfold clean_segments. destruct (fold_left clean_step _ []) as [|seg segs].
  - rewrite bool_decide_true by done. rewrite andb_false_r. by left.
  - right. exists (seg :: segs). split; [done|]. split; [done|].
    destruct (_ && _)%bool; [by right|by left].
Qed.

Lemma suffix_slash_app (a b : string) : b <> "" -> has_suffix_slash (a +:+ b) = has_suffix_slash b.
Proof.
  intros Hb. induction a as [|c a IH]; [done|]. rewrite string_app_cons.
  destruct (a +:+ b) eqn:E.
  - by destruct a, b.
  - simpl in *. by rewrite IH.
Qed.

Lemma suffix_slash_none (s : string) : index_byte "/" s = None -> has_suffix_slash s = false.
Proof.
  induction s as [|c s IH]; [done|]. cbn [index_byte].
  destruct (Ascii.eqb "/" c) eqn:E; [done|]. destruct (index_byte "/" s); [done|]. intros _.
  destruct s; [|by apply IH]. simpl. by rewrite Ascii.eqb_sym.
Qed.

Lemma join_suffix (segs : list string) :
  Forall clean_segment segs -> segs <> [] -> has_suffix_slash (join_slash segs) = false.
Proof.
  induction segs as [|seg segs IH]; [done|]. intros [(Hne & _ & _ & Hs) Hss]%Forall_cons _.
  cbn [join_slash foldr]. rewrite suffix_slash_app by (by destruct seg).
  destruct segs as [|seg' segs]; [cbn; rewrite string_app_nil_r; by apply suffix_slash_none|].
  rewrite suffix_slash_app by done. by apply IH.
Qed.

Lemma clean_form_fixed (p : string) : clean_form p -> cleanPath p = p.
Proof.
  intros [->|(segs & Hne & Hs & Hp)]; [reflexivity|].
  destruct (split_join segs Hs Hne) as [E1 E2].
  assert (Hj : forall t, bool_decide (join_slash segs +:+ t = "") = false /\
                         has_prefix_slash (join_slash segs +:+ t) = true)
    by (intros t; destruct segs; [done|]; cbn [join_slash foldr];
        rewrite string_app_assoc; change ("/" +:+ ?x) with (String "/" x); done).
  assert (Hk : clean_segments segs = segs) by (by apply (clean_kept segs [])).
  assert (Hk' : clean_segments (segs ++ [""]) = segs).
  { unfold clean_segments. rewrite fold_left_app. fold (clean_segments segs). rewrite Hk. reflexivity. }
  assert (Hn : join_slash segs <> "/").
  { intros E. pose proof (join_suffix segs Hs Hne) as H. by rewrite E in H. }
  destruct Hp as [->| ->]; unfold cleanPath, path_Clean.
  - destruct (Hj "") as [H1 H2]. rewrite string_app_nil_r in H1, H2. rewrite H1, H2. cbv zeta.
    rewrite E1, Hk, (join_suffix segs Hs Hne). by destruct segs.
  - destruct (Hj "/") as [H1 H2]. rewrite H1, H2. cbv zeta. rewrite E2, Hk'.
    rewrite suffix_slash_app by done.
    destruct segs as [|seg segs]; [done|]. by rewrite bool_decide_false.
Qed.

(** *** Escaping *)

(** The escape of a byte: no slash unless it is one, and it starts with a dot
    only if it is one. *)
Lemma escape_byte_slash (c : ascii) :
  Ascii.eqb "/" c = false -> index_byte "/" (escape_byte c) = None.
Proof. destruct c as [[] [] [] [] [] [] [] []]; done. Qed.

Lemma escape_byte_head (c : ascii) :
  exists d s, escape_byte c = String d s /\ (d = "."%char -> c = "."%char /\ s = "").
Proof.
  unfold escape_byte. destruct (path_byte c); do 2 eexists; (split; [reflexivity|]); [done|discriminate].
Qed.

Lemma PathUnescape_byte (c : ascii) (s : string) :
  PathUnescape (escape_byte c +:+ s) = String c <$> PathUnescape s.
Proof.
  destruct c as [[] [] [] [] [] [] [] []];
    match goal with |- context [escape_byte ?c] =>
      let e := eval vm_compute in (escape_byte c) in change (escape_byte c) with e end;
    rewrite !string_app_cons; change ("" +:+ s) with s; cbn; by destruct (PathUnescape s).
Qed.

Lemma escape_path_cons (c : ascii) (s : string) :
  escape_path (String c s) = escape_byte c +:+ escape_path s.
Proof. done. Qed.

Lemma escape_path_app (a b : string) : escape_path (a +:+ b) = escape_path a +:+ escape_path b.
Proof.
  induction a as [|c a IH]; [done|].
  rewrite string_app_cons, !escape_path_cons, IH. by rewrite string_app_assoc.
Qed.

Lemma PathUnescape_escape (s : string) : PathUnescape (escape_path s) = Some s.
Proof.
  induction s as [|c s IH]; [done|]. rewrite escape_path_cons.
  by rewrite PathUnescape_byte, IH.
Qed.

Lemma escape_none (s : string) : index_byte "/" s = None -> index_byte "/" (escape_path s) = None.
Proof.
  induction s as [|c s IH]; [done|]. cbn [index_byte]. destruct (Ascii.eqb "/" c) eqn:E; [done|].
  intros H. rewrite escape_path_cons. apply index_byte_none_app.
  split; [by apply escape_byte_slash|]. apply IH. by destruct (index_byte "/" s).
Qed.

Lemma escape_dots (s : string) (ds : string) :
  str_forall (Ascii.eqb ".") ds = true -> escape_path s = ds -> s = ds.
Proof.
  revert ds. induction s as [|c s IH]; intros ds Hds E; [by rewrite <- E|].
  rewrite escape_path_cons in E. destruct (escape_byte_head c) as (d & u & Hc & Hdot).
  rewrite Hc, string_app_cons in E. subst ds. cbn [str_forall] in Hds.
  apply andb_true_iff in Hds as [Hd Hds]. apply Ascii.eqb_eq in Hd. subst d.
  destruct (Hdot eq_refl) as [-> ->]. f_equal. by apply IH.
Qed.

Lemma escape_clean (seg : string) : clean_segment seg -> clean_segment (escape_path seg).
Proof.
  intros (H1 & H2 & H3 & H4). repeat split; [..|by apply escape_none]; intros E;
    [apply H1|apply H2|apply H3]; by apply (escape_dots seg) in E.
Qed.

Lemma escape_join (segs : list string) :
  escape_path (join_slash segs) = join_slash (escape_path <$> segs).
Proof.
  induction segs as [|seg segs IH]; [done|]. rewrite fmap_cons. cbn [join_slash foldr].
  fold (join_slash segs) (join_slash (escape_path <$> segs)). rewrite <- IH.
  change ("/" +:+ ?x) with (String "/" x). rewrite escape_path_cons, escape_path_app. done.
Qed.

Lemma escape_form (p : string) : clean_form p -> clean_form (escape_path p).
Proof.
  intros [->|(segs & Hne & Hs & Hp)]; [by left|]. right. exists (escape_path <$> segs).
  split; [by destruct segs|]. split.
  - apply Forall_fmap. eapply Forall_impl; [exact Hs|]. exact escape_clean.
  - destruct Hp as [->| ->]; [left|right]; rewrite ?escape_path_app; by rewrite escape_join.
Qed.

Lemma endpoint_no_redirect metrics debug (segs : list string) (q : string) :
  endpoint metrics debug segs <> RedirectTo q.
Proof. unfold endpoint. repeat case_on_match; done. Qed.

(** ** Properties *)

(** Redirects end.  A request whose path is not clean is redirected to the
    cleaned path, whatever path the client sends; the location decodes to
    that path, and a client that follows it is served at once, without
    another redirect. *)
Theorem redirect_once (metrics debug : bool) (p : string) :
  match find_route metrics debug p with
  | RedirectTo q =>
      q = cleanPath p /\ q <> p /\ PathUnescape (escape_path q) = Some q /\
      forall q', find_route metrics debug (escape_path q) <> RedirectTo q'
  | _ => cleanPath p = p
  end.
Proof.
  unfold find_route at 1. destruct (bool_decide (cleanPath p <> p)) eqn:Ed.
  - apply bool_decide_eq_true in Ed. split; [done|]. split; [done|].
    split; [apply PathUnescape_escape|]. intros q'. unfold find_route.
    rewrite clean_form_fixed by (apply escape_form, cleanPath_form).
    rewrite bool_decide_false by naive_solver. apply endpoint_no_redirect.
  - apply bool_decide_eq_false in Ed. destruct (endpoint _ _ _) eqn:Ee; try by apply dec_stable.
    by apply endpoint_no_redirect in Ee.
Qed.
