(* ===== verification/CircuitBreaker.v ===== *)
(** * [internal/handler/circuit_breaker.go]: the circuit breaker

    [CircuitBreaker] guards its fields with a mutex, so [Allow] and
    [RecordResult] are atomic steps; the calls of concurrent round trips are
    a sequence of such steps in the order they take the mutex.  The
    resilient transport that uses the breaker is in [Transport]. *)
From S2P Require Import Prelude GoTime.

Inductive CircuitState := StateClosed | StateHalfOpen | StateOpen.

#[export] Instance CircuitState_eq_dec : EqDecision CircuitState.
Proof. solve_decision. Defined.

Record CircuitBreaker := mkCircuitBreaker {
  state : CircuitState;
  failures : Z;
  threshold : Z;
  cooldown : Z;              (* a [time.Duration] *)
  lastStateChange : Time;    (* the zero time until the breaker opens *)
}.

Definition NewCircuitBreaker (threshold cooldown : Z) : CircuitBreaker :=
  {| state := StateClosed; failures := 0; threshold := threshold;
     cooldown := cooldown; lastStateChange := zero_time |}.

(** [Allow], with the reading of the clock it makes. *)
Definition cb_Allow (cb : CircuitBreaker) (now : Time) : bool * CircuitBreaker :=
  match state cb with
  | StateOpen =>
      if cooldown cb <? time_sub now (lastStateChange cb) then
        (true, {| state := StateHalfOpen; failures := failures cb;
                  threshold := threshold cb; cooldown := cooldown cb;
                  lastStateChange := now |})
      else (false, cb)
  | StateHalfOpen => (false, cb)
  | StateClosed => (true, cb)
  end.

(** [RecordResult]; [now] is the reading made when the breaker opens. *)
Definition RecordResult (cb : CircuitBreaker) (success : bool) (now : Time)
  : CircuitBreaker :=
  if success then
    {| state := StateClosed; failures := 0; threshold := threshold cb;
       cooldown := cooldown cb; lastStateChange := lastStateChange cb |}
  else
    let f := wrap64 (failures cb + 1) in
    if bool_decide (state cb = StateHalfOpen) || (threshold cb <=? f) then
      {| state := StateOpen; failures := f; threshold := threshold cb;
         cooldown := cooldown cb; lastStateChange := now |}
    else
      {| state := state cb; failures := f; threshold := threshold cb;
         cooldown := cooldown cb; lastStateChange := lastStateChange cb |}.

(** ** Sequences of calls *)

Inductive cb_event :=
  | EvAllow (now : Time)
  | EvResult (success : bool) (now : Time).

(** One call: the answers of [Allow] it produces, and the breaker after it. *)
Definition cb_step (cb : CircuitBreaker) (ev : cb_event)
  : list bool * CircuitBreaker :=
  match ev with
  | EvAllow now => let '(ok, cb') := cb_Allow cb now in ([ok], cb')
  | EvResult s now => ([], RecordResult cb s now)
  end.

Fixpoint cb_run (cb : CircuitBreaker) (evs : list cb_event)
  : list bool * CircuitBreaker :=
  match evs with
  | [] => ([], cb)
  | ev :: evs => let '(o, cb') := cb_step cb ev in
                 let '(os, cb'') := cb_run cb' evs in (o ++ os, cb'')
  end.

Definition is_allow (ev : cb_event) : Prop :=
  match ev with EvAllow _ => True | EvResult _ _ => False end.

Definition ev_now (ev : cb_event) : Time :=
  match ev with EvAllow now => now | EvResult _ now => now end.

(** ** The state machine

    The transitions of the breaker, as a relation on the state alone. *)
Inductive cb_transition : CircuitState -> cb_event -> CircuitState -> Prop :=
  | tr_stay s now : cb_transition s (EvAllow now) s
  | tr_probe now : cb_transition StateOpen (EvAllow now) StateHalfOpen
  | tr_success s now : cb_transition s (EvResult true now) StateClosed
  | tr_closed_fail now : cb_transition StateClosed (EvResult false now) StateClosed
  | tr_trip now : cb_transition StateClosed (EvResult false now) StateOpen
  | tr_probe_failed now : cb_transition StateHalfOpen (EvResult false now) StateOpen
  | tr_open_fail now : cb_transition StateOpen (EvResult false now) StateOpen.

(** Invariant of a breaker: in the closed state the consecutive failures are
    below the threshold, and once the breaker has left it the time of the
    last change is a reading of the clock, never the zero time. *)
Record cb_wf (cb : CircuitBreaker) : Prop := {
  cbwf_threshold : 1 <= threshold cb <= max_int64;
  cbwf_closed : state cb = StateClosed -> 0 <= failures cb < threshold cb;
  cbwf_open : state cb <> StateClosed -> exists m, mono (lastStateChange cb) = Some m;
}.

(** ** Lemmas *)


Lemma cb_step_wf (cb : CircuitBreaker) (ev : cb_event) :
  cb_wf cb -> (exists m, mono (ev_now ev) = Some m) -> cb_wf (snd (cb_step cb ev)).
Proof.
  intros Hwf Hnow. pose proof Hwf as [Ht Hc Ho].
  destruct ev as [now|[] now]; simpl in *.
  - unfold cb_Allow. destruct (state cb) eqn:Es; [done..|].
    destruct (_ <? _); [|done]. by split.
  - split; simpl; try done. lia.
  - unfold RecordResult. destruct (_ || _)%bool eqn:E; bool_to_prop; split; simpl; try done.
    intros Es. specialize (Hc Es). unfold max_int64 in *.
    rewrite wrap64_id in *; unfold min_int64, max_int64; lia.
Qed.
#[export] Hint Resolve cb_step_wf : gateway.

Lemma cb_run_wf (cb : CircuitBreaker) (evs : list cb_event) :
  cb_wf cb -> Forall (fun ev => exists m, mono (ev_now ev) = Some m) evs ->
  cb_wf (snd (cb_run cb evs)).
Proof.
  intros Hwf Hevs. revert cb Hwf. induction Hevs as [|ev evs Hev _ IH]; intros cb Hwf;
    simpl; [done|].
  pose proof (cb_step_wf cb ev Hwf Hev) as Hwf'.
  destruct (cb_step cb ev) as [o cb']. specialize (IH cb' Hwf').
  by destruct (cb_run cb' evs).
Qed.

Lemma new_breaker_wf (th cd : Z) :
  1 <= th <= max_int64 -> cb_wf (NewCircuitBreaker th cd).
Proof. intros. split; simpl; [done|lia|done]. Qed.

(** Number of [true] answers. *)
Definition granted (os : list bool) : nat := length (filter (eq true) os).

Lemma half_open_blocks (cb : CircuitBreaker) (evs : list cb_event) :
  state cb = StateHalfOpen -> Forall is_allow evs ->
  Forall (eq false) (fst (cb_run cb evs)) /\ snd (cb_run cb evs) = cb.
Proof.
  intros Hs Hevs. induction Hevs as [|ev evs Hev _ IH]; [done|].
  destruct ev as [now|]; [|done]. simpl. unfold cb_Allow. rewrite Hs.
  destruct (cb_run cb evs) as [os cb']. simpl in *. destruct IH. by split; [constructor|].
Qed.

Lemma granted_cons (b : bool) (os : list bool) :
  granted (b :: os) = ((if b then 1 else 0) + granted os)%nat.
Proof. unfold granted. rewrite filter_cons. by destruct b. Qed.

Lemma granted_none (os : list bool) : Forall (eq false) os -> granted os = 0%nat.
Proof. unfold granted. induction 1 as [|o os <- _ IH]; [done|]. exact IH. Qed.




Lemma single_probe_aux (cb : CircuitBreaker) (evs : list cb_event) :
  state cb <> StateClosed -> Forall is_allow evs ->
  let '(os, cb') := cb_run cb evs in
  (granted os <= 1)%nat /\
  (granted os = 1%nat -> state cb = StateOpen /\ state cb' = StateHalfOpen) /\
  (state cb = StateHalfOpen -> granted os = 0%nat /\ cb' = cb).
Proof.
  intros Hns Hevs. revert cb Hns. induction Hevs as [|ev evs Hev Hevs IH]; intros cb Hns.
  { simpl. rewrite (granted_none []) by done. split; [lia|]. by split. }
  destruct ev as [now|]; [|done]. simpl. unfold cb_Allow.
  destruct (state cb) eqn:Es; [done| |].
  - pose proof (half_open_blocks cb evs Es Hevs) as [Hb Hcb].
    destruct (cb_run cb evs) as [os cb']. simpl in *.
    assert (granted (false :: os) = 0%nat)
      by (apply granted_none; by constructor).
    split; [lia|]. split; [lia|done].
  - destruct (_ <? _).
    + set (cb1 := mkCircuitBreaker StateHalfOpen _ _ _ _).
      pose proof (half_open_blocks cb1 evs eq_refl Hevs) as [Hb Hcb].
      destruct (cb_run cb1 evs) as [os cb']. simpl in *.
      rewrite granted_cons, (granted_none os Hb), Hcb. split; [lia|]. by split.
    + specialize (IH cb ltac:(congruence)).
      destruct (cb_run cb evs) as [os cb']. rewrite Es in IH.
      simpl. by rewrite granted_cons.
Qed.

(** ** Properties *)

(** The state machine.  Every call moves the breaker along a transition of
    the machine: only a failure opens it, only [Allow] after the cooldown
    moves it to half-open, only a success closes it; [Allow] answers [true]
    exactly when the breaker is closed or this call makes it half-open. *)
Theorem circuit_breaker_transitions (cb : CircuitBreaker) (ev : cb_event) :
  cb_transition (state cb) ev (state (snd (cb_step cb ev))) /\
  match ev with
  | EvAllow now =>
      fst (cb_Allow cb now) = true <->
      state cb = StateClosed \/
      (state cb = StateOpen /\ state (snd (cb_Allow cb now)) = StateHalfOpen)
  | EvResult success now =>
      state (RecordResult cb success now) = StateClosed -> success = false ->
      state cb = StateClosed
  end.
Proof.
  destruct ev as [now|[] now]; simpl.
  - unfold cb_Allow. destruct (state cb) eqn:Es.
    + simpl. rewrite Es. split; [constructor|intuition congruence].
    + simpl. rewrite Es. split; [constructor|intuition congruence].
    + destruct (_ <? _); simpl; rewrite ?Es; (split; [constructor|intuition congruence]).
  - split; [constructor|done].
  - unfold RecordResult. destruct (state cb) eqn:Es; simpl.
    + destruct (_ <=? _); split; try constructor; done.
    + split; [constructor|done].
    + destruct (_ <=? _); split; try constructor; done.
Qed.



(** C24: a single probe.  While the breaker is not closed and no result is
    recorded, any sequence of [Allow] calls, at any readings of the clock,
    lets at most one request through, and the breaker is half-open after it;
    once half-open it rejects every request until a result is recorded. *)
Theorem circuit_breaker_single_probe (cb : CircuitBreaker) (evs : list cb_event) :
  state cb <> StateClosed -> Forall is_allow evs ->
  let os := fst (cb_run cb evs) in
  let cb' := snd (cb_run cb evs) in
  (granted os <= 1)%nat /\
  (granted os = 1%nat -> state cb = StateOpen /\ state cb' = StateHalfOpen) /\
  (state cb = StateHalfOpen -> granted os = 0%nat /\ cb' = cb).
Proof.
  intros Hns Hevs. pose proof (single_probe_aux cb evs Hns Hevs) as H.
  destruct (cb_run cb evs). exact H.
Qed.

Lemma circuit_breaker_single_probe_witness :
  (granted (fst (cb_run (mkCircuitBreaker StateOpen 5 5 Second (clock 0 0))
    [EvAllow (clock 0 1); EvAllow (clock 0 (2 * Second));
     EvAllow (clock 0 (9 * Second))])) <= 1)%nat.
Proof.
  apply (circuit_breaker_single_probe (mkCircuitBreaker StateOpen 5 5 Second (clock 0 0))).
  - discriminate.
  - repeat constructor.
Defined.

(** The cooldown.  An open breaker rejects every request, and does not
    change, while the cooldown has not elapsed since it opened; the first
    request after it is let through as the probe. *)
Theorem circuit_breaker_cooldown (cb : CircuitBreaker) (evs : list cb_event) (now : Time) :
  state cb = StateOpen ->
  Forall (fun ev => is_allow ev /\
            time_sub (ev_now ev) (lastStateChange cb) <= cooldown cb) evs ->
  cooldown cb < time_sub now (lastStateChange cb) ->
  cb_run cb evs = (replicate (length evs) false, cb) /\
  fst (cb_Allow cb now) = true.
Proof.
  intros Hs Hevs Hnow. split.
  - induction Hevs as [|ev evs [Hev Ht] _ IH]; [done|].
    destruct ev as [now'|]; [|done]. simpl in *. unfold cb_Allow.
    rewrite Hs, (proj2 (Z.ltb_ge _ _) Ht), IH. done.
  - unfold cb_Allow. by rewrite Hs, (proj2 (Z.ltb_lt _ _) Hnow).
Qed.

Lemma circuit_breaker_cooldown_witness :
  cb_run (mkCircuitBreaker StateOpen 5 5 Second (clock 0 0)) [EvAllow (clock 0 Second)] =
  ([false], mkCircuitBreaker StateOpen 5 5 Second (clock 0 0)).
Proof.
  apply (circuit_breaker_cooldown (mkCircuitBreaker StateOpen 5 5 Second (clock 0 0))
           [EvAllow (clock 0 Second)] (clock 0 (Second + 1))).
  - reflexivity.
  - repeat constructor. vm_compute. discriminate.
  - reflexivity.
Defined.

(** The breaker's invariant.  In every state reachable from
    [NewCircuitBreaker] by calls in any order the closed state has fewer
    failures than the threshold, and the cooldown of an open breaker is never
    measured from the zero time. *)
Theorem circuit_breaker_invariant (th cd : Z) (evs : list cb_event) :
  1 <= th <= max_int64 ->
  Forall (fun ev => exists m, mono (ev_now ev) = Some m) evs ->
  cb_wf (snd (cb_run (NewCircuitBreaker th cd) evs)).
Proof. intros Hth Hevs. apply cb_run_wf; [by apply new_breaker_wf|done]. Qed.

Lemma circuit_breaker_invariant_witness :
  cb_wf (snd (cb_run (NewCircuitBreaker 1 Second)
                     [EvResult false (clock 0 1); EvAllow (clock 0 (3 * Second))])).
Proof.
  apply (circuit_breaker_invariant 1 Second).
  - unfold max_int64. lia.
  - repeat constructor; by eexists.
Defined.
