(* ===== verification/Transport.v ===== *)
(** * [internal/handler/circuit_breaker.go]: the resilient transport

    [RoundTrip] asks the circuit breaker, makes up to three attempts on the
    base transport for idempotent methods, and records one result.  The base
    transport ([http.RoundTripper]) and the network are a state-passing
    function of the section; the context is an oracle that says, for each
    wait before a retry, whether the context ended first.  Other round trips
    share the breaker: what they do to it while this one is in flight is the
    function [env].  Every call the method makes on a request, a response
    body or a timer is an event of its log.  [round_trips] is a sequence of
    round trips on one breaker. *)
From S2P Require Import Prelude GoTime GoError Http CircuitBreaker.

(** The fields of [http.Request] the transport uses.  [GetBody] is [None]
    when the field is nil; its [i]-th call returns a body or an error. *)
Record Request := mkRequest {
  Method : string;
  ReqBody : option Body;
  GetBody : option (nat -> option Body);
}.

Record Response := mkResponse {
  resp_id : nat;             (* identity of the response *)
  StatusCode : Z;
  has_body : bool;           (* [Body != nil] *)
}.

(** What the base transport returns, and what it leaves of the request's
    body (it reads and closes it). *)
Record Reply := mkReply {
  rp_resp : option Response;
  rp_err : option error;
  rp_left : option Body;
}.

Inductive rt_event :=
  | Waited (d : Z)                  (* [time.After] fired *)
  | Sent (req : Request)            (* [base.RoundTrip] called *)
  | Got (reply : Reply)             (* ... and what it returned *)
  | Closed (r : Response).          (* [resp.Body.Close] *)

Definition err_circuit_open : error := errors_New "circuit breaker is open".

Definition is_idempotent (m : string) : bool :=
  bool_decide (m = "GET" \/ m = "HEAD" \/ m = "PUT" \/ m = "DELETE").

Definition set_body (req : Request) (b : option Body) : Request :=
  mkRequest (Method req) b (GetBody req).

(** The preparation of an idempotent request: a body that cannot be obtained
    again is read into memory and [GetBody] returns it. *)
Definition buffer_body (req : Request) : Request + error :=
  match ReqBody req, GetBody req with
  | Some b, None =>
      match read_err b with
      | Some e => inr e
      | None =>
          let copy := mkBody (content b) None in
          inl (mkRequest (Method req) (Some copy) (Some (fun _ => Some copy)))
      end
  | _, _ => inl req
  end.

Definition max_retries (req : Request) : nat :=
  if is_idempotent (Method req) then 3 else 1.

Definition prepare (req : Request) : Request + error :=
  if is_idempotent (Method req) then buffer_body req else inl req.

(** The body of a retry: [GetBody] again, or what is left of the old one. *)
Definition rewind (attempt : nat) (req : Request) : Request :=
  match GetBody req with
  | Some get =>
      match get attempt with
      | Some b => set_body req (Some b)
      | None => req
      end
  | None => req
  end.

(** How the loop ends. *)
Inductive loop_end :=
  | LoopSuccess (r : Response)                              (* [return resp, nil] *)
  | LoopCancelled (e : error)                               (* [return nil, ctx.Err()] *)
  | LoopExhausted (resp : option Response) (err : option error)
  | LoopPanic.                                              (* nil response without error *)

Section RoundTrip.
Context {W : Type} (base : W -> Request -> Reply * W).
(** [ctx_done k]: the context ended before the timer of attempt [k]. *)
Context (ctx_done : nat -> option error).

Definition close_events (last : bool) (r : option Response) : list rt_event :=
  match r with
  | Some resp => if negb last && has_body resp then [Closed resp] else []
  | None => []
  end.

(** The loop [for attempt := range maxRetries], with [fuel] attempts left. *)
Fixpoint attempt_loop (fuel attempt max : nat) (req : Request) (w : W)
    (resp : option Response) (err : option error)
  : loop_end * W * list rt_event :=
  match fuel with
  | O => (LoopExhausted resp err, w, [])
  | S fuel =>
      let attempt_with (req : Request) (before : list rt_event) :=
        let '(reply, w) := base w req in
        let req' := set_body req (rp_left reply) in
        let log := before ++ [Sent req; Got reply] in
        let retry :=
          let closes := close_events (max - 1 <=? attempt)%nat (rp_resp reply) in
          let '(res, w, log') :=
            attempt_loop fuel (S attempt) max req' w (rp_resp reply) (rp_err reply) in
          (res, w, log ++ closes ++ log') in
        match rp_err reply, rp_resp reply with
        | None, Some r =>
            if StatusCode r <? 500 then (LoopSuccess r, w, log) else retry
        | None, None => (LoopPanic, w, log)
        | Some _, _ => retry
        end in
      match attempt with
      | O => attempt_with req []
      | S _ =>
          match ctx_done attempt with
          | Some e => (LoopCancelled e, w, [])
          | None => attempt_with (rewind attempt req)
                      [Waited (dur_mul (Z.of_nat attempt * 50) Millisecond)]
          end
      end
  end.

(** The result of a round trip: what it returns, the breaker after it, the
    result it recorded there (if it did), and its log. *)
Record RtResult := mkRtResult {
  rt_out : outcome (option Response * option error);
  rt_cb : CircuitBreaker;
  rt_recorded : option bool;
  rt_world : W;
  rt_log : list rt_event;
}.

Definition RoundTrip (cb : CircuitBreaker) (env : CircuitBreaker -> CircuitBreaker)
    (now now' : Time) (req : Request) (w : W) : RtResult :=
  let '(ok, cb1) := cb_Allow cb now in
  if negb ok then
    mkRtResult (Return (None, Some err_circuit_open)) cb1 None w []
  else
    match prepare req with
    | inr e => mkRtResult (Return (None, Some e)) (env cb1) None w []
    | inl req =>
        let max := max_retries req in
        let '(res, w, log) := attempt_loop max 0 max req w None None in
        let cb2 := env cb1 in
        match res with
        | LoopSuccess r =>
            mkRtResult (Return (Some r, None)) (RecordResult cb2 true now')
                       (Some true) w log
        | LoopExhausted resp err =>
            mkRtResult (Return (resp, err)) (RecordResult cb2 false now')
                       (Some false) w log
        | LoopCancelled e => mkRtResult (Return (None, Some e)) cb2 None w log
        | LoopPanic => mkRtResult (Panic "nil pointer dereference") cb2 None w log
        end
    end.

(** ** Reading the log *)

Definition sends (log : list rt_event) : list Request :=
  omap (fun ev => match ev with Sent r => Some r | _ => None end) log.

Definition replies (log : list rt_event) : list Reply :=
  omap (fun ev => match ev with Got r => Some r | _ => None end) log.

Definition waits (log : list rt_event) : list Z :=
  omap (fun ev => match ev with Waited d => Some d | _ => None end) log.

Definition closed (log : list rt_event) : list Response :=
  omap (fun ev => match ev with Closed r => Some r | _ => None end) log.

(** The responses with a body that the base transport handed over. *)
Definition obtained (log : list rt_event) : list Response :=
  filter (fun r => has_body r = true) (omap rp_resp (replies log)).

Definition reply_ok (reply : Reply) : bool :=
  match rp_err reply, rp_resp reply with
  | None, Some r => StatusCode r <? 500
  | _, _ => false
  end.

(** The response the loop hands to its caller. *)
Definition returned (res : loop_end) : list Response :=
  match res with
  | LoopSuccess r | LoopExhausted (Some r) _ => filter (fun r => has_body r = true) [r]
  | _ => []
  end.
End RoundTrip.
Arguments RtResult W : clear implicits.

(** ** Lemmas on the loop *)

Section LoopLemmas.
Context {W : Type} (base : W -> Request -> Reply * W) (ctx_done : nat -> option error).
Abbreviation loop := (attempt_loop base ctx_done).

(** The events before the attempt, and the request that is sent. *)
Definition wait_events (attempt : nat) : list rt_event :=
  match attempt with
  | O => []
  | S _ => [Waited (dur_mul (Z.of_nat attempt * 50) Millisecond)]
  end.

Definition sent_request (attempt : nat) (req : Request) : Request :=
  match attempt with O => req | S _ => rewind attempt req end.

(** The context has not ended before the attempt. *)
Definition live (attempt : nat) : Prop := attempt <> O -> ctx_done attempt = None.

(** Neither a response nor an error. *)
Definition silent (reply : Reply) : Prop := rp_resp reply = None /\ rp_err reply = None.

#[export] Instance silent_dec reply : Decision (silent reply).
Proof.
  unfold silent. destruct (rp_resp reply), (rp_err reply);
    first [by left | by right; intros []].
Defined.

(** One iteration: it ends the loop, or its reply is a failure and the loop
    goes on after the events of the iteration. *)
Inductive iteration (fuel attempt max : nat) (req : Request) (w : W)
  : loop_end -> W -> list rt_event -> Prop :=
  | it_cancelled e :
      attempt <> O -> ctx_done attempt = Some e ->
      iteration fuel attempt max req w (LoopCancelled e) w []
  | it_success reply r w' :
      reply_ok reply = true -> rp_resp reply = Some r ->
      live attempt -> base w (sent_request attempt req) = (reply, w') ->
      iteration fuel attempt max req w (LoopSuccess r) w'
        (wait_events attempt ++ [Sent (sent_request attempt req); Got reply])
  | it_panic reply w' :
      reply_ok reply = false -> rp_resp reply = None -> rp_err reply = None ->
      live attempt -> base w (sent_request attempt req) = (reply, w') ->
      iteration fuel attempt max req w LoopPanic w'
        (wait_events attempt ++ [Sent (sent_request attempt req); Got reply])
  | it_retry reply w' res w'' log :
      reply_ok reply = false -> ~ silent reply ->
      loop fuel (S attempt) max (set_body (sent_request attempt req) (rp_left reply)) w'
           (rp_resp reply) (rp_err reply) = (res, w'', log) ->
      live attempt -> base w (sent_request attempt req) = (reply, w') ->
      iteration fuel attempt max req w res w''
        (wait_events attempt ++ [Sent (sent_request attempt req); Got reply] ++
         close_events (max - 1 <=? attempt)%nat (rp_resp reply) ++ log).

Lemma reply_iteration fuel attempt max req w w1 reply res w' log :
  live attempt -> base w (sent_request attempt req) = (reply, w1) ->
  (let closes := close_events (max - 1 <=? attempt)%nat (rp_resp reply) in
   let before := wait_events attempt ++ [Sent (sent_request attempt req); Got reply] in
   let retry :=
     let '(res, w, log') := loop fuel (S attempt) max
       (set_body (sent_request attempt req) (rp_left reply)) w1
       (rp_resp reply) (rp_err reply) in
     (res, w, before ++ closes ++ log') in
   match rp_err reply, rp_resp reply with
   | None, Some r => if StatusCode r <? 500 then (LoopSuccess r, w1, before) else retry
   | None, None => (LoopPanic, w1, before)
   | Some _, _ => retry
   end = (res, w', log)) ->
  iteration fuel attempt max req w res w' log.
Proof.
  cbv zeta. intros Hlive Hbase.
  destruct (loop fuel _ _ _ _ _ _) as [[res1 w2] log1] eqn:El.
  assert (Hretry : reply_ok reply = false -> ~ silent reply -> iteration fuel attempt max req w res1 w2
    ((wait_events attempt ++ [Sent (sent_request attempt req); Got reply]) ++
     close_events (max - 1 <=? attempt)%nat (rp_resp reply) ++ log1)).
  { intros Hbad Hloud. rewrite <- app_assoc. by eapply it_retry. }
  unfold reply_ok, silent in Hretry. clear El. intros H.
  destruct (rp_err reply) as [e|] eqn:Ee.
  { injection H as <- <- <-. apply Hretry; [done|by intros []]. }
  destruct (rp_resp reply) as [r|] eqn:Er.
  - destruct (StatusCode r <? 500) eqn:Es; injection H as <- <- <-.
    + apply it_success; [unfold reply_ok; by rewrite Ee, Er|done..].
    + apply Hretry; [done|by intros []].
  - injection H as <- <- <-.
    apply it_panic; [unfold reply_ok; by rewrite Ee, Er|done..].
Qed.

Lemma loop_iteration fuel attempt max req w resp err res w' log :
  loop (S fuel) attempt max req w resp err = (res, w', log) ->
  iteration fuel attempt max req w res w' log.
Proof.
  destruct attempt as [|k]; simpl.
  - destruct (base w req) as [reply w1] eqn:Eb. by apply (reply_iteration fuel 0); [intros []|].
  - destruct (ctx_done (S k)) as [e|] eqn:Ed.
    + intros [= <- <- <-]. by constructor.
    + destruct (base w (rewind (S k) req)) as [reply w1] eqn:Eb.
      by apply (reply_iteration fuel (S k)); [intros _|].
Qed.

(** Projections of the log of one iteration. *)
Lemma omap_wait_events {A} (f : rt_event -> option A) attempt :
  (forall d, f (Waited d) = None) -> omap f (wait_events attempt) = [].
Proof. intros H. destruct attempt; simpl; [done|]. by rewrite H. Qed.

Lemma omap_close_events {A} (f : rt_event -> option A) b r :
  (forall r, f (Closed r) = None) -> omap f (close_events b r) = [].
Proof.
  intros H. destruct r as [r|]; simpl; [|done].
  destruct (_ && _); simpl; [by rewrite H|done].
Qed.

Lemma replies_retry attempt sent reply b log :
  replies (wait_events attempt ++ [Sent sent; Got reply] ++
           close_events b (rp_resp reply) ++ log) = reply :: replies log.
Proof.
  unfold replies. rewrite !omap_app, omap_wait_events, omap_close_events by done. done.
Qed.

Lemma replies_last attempt sent reply :
  replies (wait_events attempt ++ [Sent sent; Got reply]) = [reply].
Proof. unfold replies. by rewrite omap_app, omap_wait_events. Qed.

Lemma sends_retry attempt sent reply b log :
  sends (wait_events attempt ++ [Sent sent; Got reply] ++
         close_events b (rp_resp reply) ++ log) = sent :: sends log.
Proof.
  unfold sends. rewrite !omap_app, omap_wait_events, omap_close_events by done. done.
Qed.

Lemma sends_last attempt sent reply :
  sends (wait_events attempt ++ [Sent sent; Got reply]) = [sent].
Proof. unfold sends. by rewrite omap_app, omap_wait_events. Qed.

(** *** The shape of the attempts *)

Definition bad_reply (reply : Reply) : Prop := reply_ok reply = false.

(** The replies of a loop with [fuel] attempts, by the way it ends. *)
Definition loop_shape (fuel : nat) (resp : option Response) (err : option error)
    (res : loop_end) (rs : list Reply) : Prop :=
  match res with
  | LoopSuccess r => exists pre reply, rs = pre ++ [reply] /\ Forall bad_reply pre /\
      reply_ok reply = true /\ rp_resp reply = Some r /\ (length rs <= fuel)%nat
  | LoopPanic => exists pre reply, rs = pre ++ [reply] /\ Forall bad_reply rs /\
      rp_resp reply = None /\ (length rs <= fuel)%nat
  | LoopCancelled _ => Forall bad_reply rs /\ (length rs < fuel)%nat
  | LoopExhausted resp' err' => Forall bad_reply rs /\ length rs = fuel /\
      match last rs with
      | Some reply => resp' = rp_resp reply /\ err' = rp_err reply
      | None => resp' = resp /\ err' = err
      end
  end.

Lemma loop_has_shape fuel attempt max req w resp err res w' log :
  loop fuel attempt max req w resp err = (res, w', log) ->
  loop_shape fuel resp err res (replies log) /\
  length (sends log) = length (replies log).
Proof.
  revert attempt req w resp err res w' log.
  induction fuel as [|fuel IH]; intros attempt req w resp err res w' log H.
  { injection H as <- <- <-. done. }
  apply loop_iteration in H as [e|reply r w1 Hok Hr|reply w1 Hok Hr|reply w1 res' w2 log' Hok Hloud El].
  - simpl. split; [|done]. split; [constructor|lia].
  - rewrite replies_last, sends_last. split; [|done].
    exists [], reply. simpl. repeat split; try done; lia.
  - rewrite replies_last, sends_last. split; [|done].
    exists [], reply. simpl. repeat split; try done; [by constructor|lia].
  - apply IH in El as [Hsh Hlen]. rewrite replies_retry, sends_retry.
    split; [|simpl; lia]. destruct res' as [r|e|resp' err'|]; simpl in *.
    + destruct Hsh as (pre & l & -> & Hpre & Hl & Hr & Hle).
      exists (reply :: pre), l. simpl in *.
      split; [done|]. split; [by constructor|]. split; [done|]. split; [done|lia].
    + destruct Hsh as [Hall Hlt]. split; [by constructor|lia].
    + destruct Hsh as (Hall & Hle & Hlast).
      split; [by constructor|]. split; [lia|].
      destruct (replies log') as [|x l]; [done|]. simpl last in *.
      destruct (last (x :: l)) eqn:Ela; [exact Hlast|by apply last_None in Ela].
    + destruct Hsh as (pre & l & E & Hall & Hr & Hle).
      exists (reply :: pre), l. rewrite E in *. simpl in *.
      split; [done|]. split; [by constructor|]. split; [done|lia].
Qed.

(** *** Response bodies *)

Lemma obtained_retry attempt sent reply b log :
  obtained (wait_events attempt ++ [Sent sent; Got reply] ++
            close_events b (rp_resp reply) ++ log) =
  filter (fun r => has_body r = true) (option_list (rp_resp reply)) ++ obtained log.
Proof.
  unfold obtained. rewrite replies_retry. simpl.
  destruct (rp_resp reply) as [r|]; [|done]. apply (filter_app _ [r]).
Qed.

Lemma closed_retry attempt sent reply last log :
  closed (wait_events attempt ++ [Sent sent; Got reply] ++
          close_events last (rp_resp reply) ++ log) =
  (if last then [] else
     filter (fun r => has_body r = true) (option_list (rp_resp reply))) ++ closed log.
Proof.
  unfold closed. rewrite !omap_app, omap_wait_events by done. simpl. f_equal.
  destruct (rp_resp reply) as [r|]; [|by destruct last].
  destruct last; [done|]. simpl option_list. rewrite filter_cons. simpl.
  by destruct (has_body r).
Qed.

Lemma loop_closes fuel attempt max req w resp err res w' log :
  (fuel + attempt = max)%nat ->
  loop fuel attempt max req w resp err = (res, w', log) ->
  closed log ++ returned res =
  (match fuel with O => filter (fun r => has_body r = true) (option_list resp)
   | S _ => [] end) ++ obtained log.
Proof.
  revert attempt req w resp err res w' log.
  induction fuel as [|fuel IH]; intros attempt req w resp err res w' log Hmax H.
  { injection H as <- <- <-. destruct resp; [|done]. simpl. by rewrite app_nil_r. }
  apply loop_iteration in H as [e|reply r w1 Hok Hr|reply w1 Hok Hr|reply w1 res' w2 log' Hok Hloud El].
  - done.
  - unfold closed, obtained. rewrite replies_last, omap_app, omap_wait_events by done.
    simpl. by rewrite Hr.
  - unfold closed, obtained. rewrite replies_last, omap_app, omap_wait_events by done.
    simpl. by rewrite Hr.
  - apply IH in El; [|lia]. rewrite closed_retry, obtained_retry, <- app_assoc, El.
    destruct fuel as [|fuel].
    + replace (max - 1 <=? attempt)%nat with true
        by (symmetry; apply Nat.leb_le; lia). done.
    + replace (max - 1 <=? attempt)%nat with false
        by (symmetry; apply Nat.leb_gt; lia). done.
Qed.

(** *** What is sent, what comes back, and how the loop ends *)

(** The requests and replies are a conversation with the base transport. *)
Fixpoint talk (w : W) (qs : list (Request * Reply)) (w' : W) : Prop :=
  match qs with
  | [] => w' = w
  | (q, a) :: qs => exists w1, base w q = (a, w1) /\ talk w1 qs w'
  end.

(** The end of a loop that began with attempt [attempt] and got [n] replies. *)
Definition loop_verdict (attempt n : nat) (latest : option Reply) (res : loop_end) : Prop :=
  match res with
  | LoopSuccess _ => True
  | LoopExhausted _ _ => forall reply, latest = Some reply -> ~ silent reply
  | LoopCancelled e => (attempt + n <> 0)%nat /\ ctx_done (attempt + n)%nat = Some e /\
      forall reply, latest = Some reply -> ~ silent reply
  | LoopPanic => exists reply, latest = Some reply /\ silent reply
  end.

Lemma last_cons_some {A} (x : A) (l : list A) y : last l = Some y -> last (x :: l) = Some y.
Proof. by destruct l. Qed.

Lemma last_cons_forall {A} (P : A -> Prop) (x : A) (l : list A) :
  P x -> (forall y, last l = Some y -> P y) -> forall y, last (x :: l) = Some y -> P y.
Proof. intros Hx Hl y. destruct l; [by intros [= <-]|]. apply Hl. Qed.

Lemma loop_outcome fuel attempt max req w resp err res w' log :
  loop fuel attempt max req w resp err = (res, w', log) ->
  talk w (zip (sends log) (replies log)) w' /\
  (forall i, (attempt <= i < attempt + length (replies log))%nat -> live i) /\
  loop_verdict attempt (length (replies log)) (last (replies log)) res.
Proof.
  revert attempt req w resp err res w' log.
  induction fuel as [|fuel IH]; intros attempt req w resp err res w' log H.
  { injection H as <- <- <-. split; [done|]. split; [simpl; lia|done]. }
  apply loop_iteration in H as [e Hne Hd|reply r w1 Hok Hr Hl Hb|reply w1 Hok Hr He Hl Hb|reply w1 res' w2 log' Hok Hloud El Hl Hb].
  - split; [done|]. split; [simpl; lia|]. simpl. rewrite Nat.add_0_r. split; [lia|done].
  - rewrite replies_last, sends_last. simpl. split; [by exists w1|]. split; [|done].
    intros i Hi. by replace i with attempt by lia.
  - rewrite replies_last, sends_last. simpl. split; [by exists w1|]. split; [|by exists reply].
    intros i Hi. by replace i with attempt by lia.
  - apply IH in El as (Ht & Hlive & Hv). rewrite replies_retry, sends_retry. simpl.
    split; [by exists w1|]. split.
    + intros i Hi. destruct (decide (i = attempt)) as [->|]; [done|]. apply Hlive. lia.
    + destruct res' as [r|e|resp' err'|]; simpl loop_verdict in *; [done| |by apply last_cons_forall|].
      * destruct Hv as (H1 & H2 & H3). rewrite Nat.add_succ_r.
        split; [lia|]. split; [done|by apply last_cons_forall].
      * destruct Hv as (x & Hx & H1). exists x. by split; [apply last_cons_some|].
Qed.

(** *** Waiting and rewinding *)

Lemma waits_retry attempt sent reply b log :
  waits (wait_events attempt ++ [Sent sent; Got reply] ++
         close_events b (rp_resp reply) ++ log) = waits (wait_events attempt) ++ waits log.
Proof.
  unfold waits. rewrite !omap_app. f_equal. simpl. by rewrite omap_close_events.
Qed.

Lemma loop_waits fuel attempt max req w resp err res w' log :
  loop fuel attempt max req w resp err = (res, w', log) ->
  exists k, waits log = concat (map (fun i => waits (wait_events i)) (seq attempt k)) /\
            (k <= fuel)%nat /\ k = length (replies log).
Proof.
  revert attempt req w resp err res w' log.
  induction fuel as [|fuel IH]; intros attempt req w resp err res w' log H.
  { injection H as <- <- <-. by exists 0%nat. }
  apply loop_iteration in H as [e|reply r w1 Hok Hr|reply w1 Hok Hr|reply w1 res' w2 log' Hok Hloud El].
  - exists 0%nat. split; [done|]. split; [lia|done].
  - exists 1%nat. rewrite replies_last. unfold waits. rewrite omap_app. simpl.
    split; [done|]. split; [lia|done].
  - exists 1%nat. rewrite replies_last. unfold waits. rewrite omap_app. simpl.
    split; [done|]. split; [lia|done].
  - apply IH in El as (k & E & Hle & Hk). exists (S k).
    rewrite waits_retry, E, replies_retry. simpl. split; [done|]. split; lia.
Qed.

Lemma loop_rewinds fuel attempt max req w resp err res w' log get b :
  GetBody req = Some get -> (forall i, get i = Some b) ->
  (attempt = O -> ReqBody req = Some b) ->
  loop fuel attempt max req w resp err = (res, w', log) ->
  Forall (fun r => ReqBody r = Some b /\ Method r = Method req) (sends log).
Proof.
  intros Hget Hb. revert attempt req w resp err res w' log Hget.
  induction fuel as [|fuel IH]; intros attempt req w resp err res w' log Hget H0 H.
  { injection H as <- <- <-. constructor. }
  assert (Hsent : ReqBody (sent_request attempt req) = Some b /\
                  Method (sent_request attempt req) = Method req /\
                  GetBody (sent_request attempt req) = Some get).
  { destruct attempt as [|k]; simpl; [by split; [apply H0|]|].
    unfold rewind. rewrite Hget, Hb. done. }
  destruct Hsent as (Hs1 & Hs2 & Hs3).
  apply loop_iteration in H as [e|reply r w1 Hok Hr|reply w1 Hok Hr|reply w1 res' w2 log' Hok Hloud El].
  - constructor.
  - rewrite sends_last. by repeat constructor.
  - rewrite sends_last. by repeat constructor.
  - apply IH in El; [|done|lia]. rewrite sends_retry. constructor; [done|].
    simpl in El. by rewrite Hs2 in El.
Qed.
End LoopLemmas.

(** The response a result hands to the caller, when it has a body to close. *)
Definition handed_over (o : outcome (option Response * option error)) : list Response :=
  match o with
  | Return (Some r, _) => filter (fun r => has_body r = true) [r]
  | _ => []
  end.

(** The two waits of the code. *)
Definition retry_delays : list Z := [50 * Millisecond; 100 * Millisecond].

Section RoundTripSpec.
Context {W : Type} (base : W -> Request -> Reply * W) (ctx_done : nat -> option error).

(** A round trip is rejected by the breaker, fails to read the body, or runs
    the loop on the prepared request. *)
Lemma round_trip_cases cb env now now' req w :
  let rt := RoundTrip base ctx_done cb env now now' req w in
  let '(ok, cb1) := cb_Allow cb now in
  (ok = false /\ rt = mkRtResult (Return (None, Some err_circuit_open)) cb1 None w []) \/
  (ok = true /\ exists e, prepare req = inr e /\
     rt = mkRtResult (Return (None, Some e)) (env cb1) None w []) \/
  (ok = true /\ exists req' res w' log, prepare req = inl req' /\
     attempt_loop base ctx_done (max_retries req') 0 (max_retries req') req' w None None
       = (res, w', log) /\ rt_world rt = w' /\ rt_log rt = log /\
     match res with
     | LoopSuccess r => rt_out rt = Return (Some r, None) /\
         rt_recorded rt = Some true /\ rt_cb rt = RecordResult (env cb1) true now'
     | LoopExhausted resp err => rt_out rt = Return (resp, err) /\
         rt_recorded rt = Some false /\ rt_cb rt = RecordResult (env cb1) false now'
     | LoopCancelled e => rt_out rt = Return (None, Some e) /\
         rt_recorded rt = None /\ rt_cb rt = env cb1
     | LoopPanic => rt_out rt = Panic "nil pointer dereference" /\
         rt_recorded rt = None /\ rt_cb rt = env cb1
     end).
Proof.
  unfold RoundTrip. destruct (cb_Allow cb now) as [[] cb1]; simpl; [|by left].
  right. destruct (prepare req) as [req'|e]; [right|left; by eauto].
  split; [done|]. destruct (attempt_loop _ _ _ _ _ _ _ _ _) as [[res w'] log] eqn:El.
  exists req', res, w', log. split; [done|]. split; [done|]. by destruct res.
Qed.

Lemma prepare_method req req' :
  prepare req = inl req' -> Method req' = Method req /\ max_retries req' = max_retries req.
Proof.
  unfold prepare, buffer_body, max_retries.
  destruct (is_idempotent (Method req)) eqn:Ei.
  - destruct (ReqBody req) as [b|], (GetBody req); try (intros [= <-]; by rewrite Ei).
    destruct (read_err b); [done|]. intros [= <-]. simpl. by rewrite Ei.
  - intros [= <-]. by rewrite Ei.
Qed.

Lemma max_retries_pos req : (1 <= max_retries req <= 3)%nat.
Proof. unfold max_retries. destruct (is_idempotent _); lia. Qed.

Lemma waits_prefix k :
  (k <= 3)%nat ->
  concat (map (fun i => waits (wait_events i)) (seq 0 k)) = take (k - 1) retry_delays.
Proof. intros H. do 4 (destruct k as [|k]; [done|]). lia. Qed.

Lemma prepare_unreadable req e :
  prepare req = inr e <->
  is_idempotent (Method req) = true /\ GetBody req = None /\
    exists b, ReqBody req = Some b /\ read_err b = Some e.
Proof.
  unfold prepare, buffer_body. destruct (is_idempotent (Method req)); [|by split; [|intros []]].
  destruct (ReqBody req) as [b|], (GetBody req);
    try by (split; [|intros (_ & ? & b' & ? & _)]).
  destruct (read_err b) as [e'|] eqn:E.
  - split; [intros [= ->]; eauto|]. by intros (_ & _ & b' & [= <-] & ?); simplify_eq.
  - split; [done|]. by intros (_ & _ & b' & [= <-] & ?); simplify_eq.
Qed.

(** What the caller gets, by the way the loop ends. *)
Definition loop_result (res : loop_end) : outcome (option Response * option error) :=
  match res with
  | LoopSuccess r => Return (Some r, None)
  | LoopExhausted resp err => Return (resp, err)
  | LoopCancelled e => Return (None, Some e)
  | LoopPanic => Panic "nil pointer dereference"
  end.

Lemma exists_last (rs : list Reply) :
  (1 <= length rs)%nat -> exists reply, last rs = Some reply.
Proof.
  destruct (last rs) as [reply|] eqn:E; [by exists reply|].
  apply last_None in E. subst. simpl. lia.
Qed.

Lemma take_init (pre : list Reply) l : take (length (pre ++ [l]) - 1) (pre ++ [l]) = pre.
Proof. rewrite length_app. simpl. rewrite Nat.add_sub. by rewrite take_app_length. Qed.

(** All the replies but the last are failures. *)
Lemma shape_failed fuel resp err res rs :
  loop_shape fuel resp err res rs -> Forall bad_reply (take (length rs - 1) rs).
Proof.
  destruct res as [r|e|resp' err'|]; simpl.
  - intros (pre & l & -> & Hpre & _). by rewrite take_init.
  - intros [Hall _]. by apply Forall_take.
  - intros (Hall & _). by apply Forall_take.
  - intros (pre & l & _ & Hall & _). by apply Forall_take.
Qed.

Lemma shape_bound fuel resp err res rs :
  loop_shape fuel resp err res rs -> (length rs <= fuel)%nat.
Proof.
  destruct res as [r|e|resp' err'|]; simpl.
  - by intros (pre & l & _ & _ & _ & _ & H).
  - lia.
  - lia.
  - by intros (pre & l & _ & _ & _ & H).
Qed.

(** The result, from the last reply. *)
Lemma verdict_result max res rs reply :
  loop_shape max None None res rs ->
  loop_verdict ctx_done 0 (length rs) (last rs) res -> last rs = Some reply ->
  if decide (silent reply) then loop_result res = Panic "nil pointer dereference"
  else if reply_ok reply || (length rs =? max)%nat
  then loop_result res = Return (rp_resp reply, rp_err reply)
  else exists e, ctx_done (length rs) = Some e /\ loop_result res = Return (None, Some e).
Proof.
  assert (Hbad : Forall bad_reply rs -> last rs = Some reply -> reply_ok reply = false).
  { intros Hall (l & ->)%last_Some. rewrite Forall_app, Forall_singleton in Hall. apply Hall. }
  destruct res as [r|e|resp' err'|]; simpl.
  - intros (pre & l & -> & _ & Hok & Hr & _) _. rewrite last_snoc. intros [= <-].
    unfold silent. rewrite decide_False by (intros [? _]; congruence). rewrite Hok, Hr. simpl.
    unfold reply_ok in Hok. rewrite Hr in Hok. by destruct (rp_err l).
  - intros [Hall Hn] (_ & Hd & Hs) Hl. rewrite decide_False by by apply Hs.
    rewrite Hbad by done. replace (length rs =? max)%nat with false by (symmetry; apply Nat.eqb_neq; lia).
    by exists e.
  - intros (Hall & Hn & Hlast) Hs Hl. rewrite decide_False by by apply Hs.
    rewrite Hn, Nat.eqb_refl, orb_true_r. rewrite Hl in Hlast. by destruct Hlast as [-> ->].
  - intros _ (x & Hx & Hs) Hl. rewrite Hx in Hl. injection Hl as ->. by rewrite decide_True.
Qed.

(** What the round trip records, by the way the loop ends. *)
Definition loop_recorded (res : loop_end) : option bool :=
  match res with
  | LoopSuccess _ => Some true
  | LoopExhausted _ _ => Some false
  | LoopCancelled _ | LoopPanic => None
  end.

Lemma verdict_recorded max res rs reply :
  loop_shape max None None res rs ->
  loop_verdict ctx_done 0 (length rs) (last rs) res -> last rs = Some reply ->
  loop_recorded res = None <->
    silent reply \/ reply_ok reply = false /\ (length rs < max)%nat.
Proof.
  destruct res as [r|e|resp' err'|]; simpl.
  - intros (pre & l & -> & _ & Hok & Hr & _) _. rewrite last_snoc. intros [= <-].
    split; [done|]. intros [[? _]|[? _]]; congruence.
  - intros [Hall Hn] _ (l & ->)%last_Some. rewrite Forall_app, Forall_singleton in Hall.
    split; [|done]. intros _. right. by split; [apply Hall|].
  - intros (_ & Hn & _) Hs Hl. split; [done|].
    intros [Hr|[_ ?]]; [by destruct (Hs _ Hl)|lia].
  - intros _ (x & Hx & Hs) Hl. rewrite Hx in Hl. injection Hl as ->.
    split; [by left|done].
Qed.

(** The whole loop. *)
Lemma loop_complete max req w res w' log :
  attempt_loop base ctx_done max 0 max req w None None = (res, w', log) -> (1 <= max <= 3)%nat ->
  let rs := replies log in let n := length rs in
  length (sends log) = n /\ talk base w (zip (sends log) rs) w' /\
  waits log = take (n - 1) retry_delays /\
  (1 <= n <= max)%nat /\ Forall (fun reply => reply_ok reply = false) (take (n - 1) rs) /\
  (forall i, (0 < i < n)%nat -> ctx_done i = None) /\
  exists reply, last rs = Some reply /\
    if decide (silent reply)
    then loop_result res = Panic "nil pointer dereference"
    else if reply_ok reply || (n =? max)%nat
    then loop_result res = Return (rp_resp reply, rp_err reply)
    else exists e, ctx_done n = Some e /\ loop_result res = Return (None, Some e).
Proof.
  intros El Hmax rs n.
  destruct (loop_has_shape _ _ _ _ _ _ _ _ _ _ _ _ El) as [Hsh Hlen].
  destruct (loop_waits _ _ _ _ _ _ _ _ _ _ _ _ El) as (k & Hw & Hk & Ek).
  destruct (loop_outcome _ _ _ _ _ _ _ _ _ _ _ _ El) as (Ht & Hlive & Hv).
  fold rs in Hsh, Hlen, Ek, Ht, Hlive, Hv. fold n in Hlen, Ek, Hlive, Hv.
  split; [done|]. split; [done|]. split.
  { rewrite Hw, Ek. apply waits_prefix. lia. }
  assert (Hn : (1 <= n)%nat).
  { destruct res as [r|e|resp err|]; simpl in Hsh, Hv; [|lia|lia|];
      destruct Hsh as (pre & l & E & _); unfold n; rewrite E, length_app; simpl; lia. }
  assert (Hle : (n <= max)%nat) by (by eapply shape_bound).
  split; [done|]. destruct (exists_last rs Hn) as (reply & Hl). split; [|split].
  - by eapply shape_failed.
  - intros i Hi. apply Hlive; lia.
  - exists reply. split; [exact Hl|]. by eapply verdict_result.
Qed.
End RoundTripSpec.

(** ** Round trips that share a breaker *)

(** The breaker after [Allow] let a probe in. *)
Definition half_open (cb : CircuitBreaker) (now : Time) : CircuitBreaker :=
  {| state := StateHalfOpen; failures := failures cb; threshold := threshold cb;
     cooldown := cooldown cb; lastStateChange := now |}.

Lemma half_open_asked cb asked :
  state cb = StateHalfOpen -> Forall is_allow asked -> snd (cb_run cb asked) = cb.
Proof.
  intros Hs. induction 1 as [|ev asked Hev _ IH]; [done|].
  destruct ev as [now|]; [|done]. simpl. unfold cb_Allow. rewrite Hs.
  by destruct (cb_run cb asked).
Qed.

(** A round trip through the breaker: everything [RoundTrip] is given but the
    breaker and the world. *)
Record call (W : Type) := mkCall {
  call_base : W -> Request -> Reply * W;
  call_ctx : nat -> option error;
  call_env : CircuitBreaker -> CircuitBreaker;
  call_now : Time;
  call_now' : Time;
  call_req : Request;
}.
Arguments mkCall {W}.
Arguments call_base {W}.
Arguments call_ctx {W}.
Arguments call_env {W}.
Arguments call_now {W}.
Arguments call_now' {W}.
Arguments call_req {W}.

(** Round trips on the same breaker, in the order they reach it. *)
Fixpoint round_trips {W} (cb : CircuitBreaker) (w : W) (calls : list (call W))
  : list (RtResult W) * CircuitBreaker :=
  match calls with
  | [] => ([], cb)
  | c :: calls =>
      let rt := RoundTrip (call_base c) (call_ctx c) cb (call_env c)
                  (call_now c) (call_now' c) (call_req c) w in
      let '(rts, cb') := round_trips (rt_cb rt) (rt_world rt) calls in
      (rt :: rts, cb')
  end.

Section Sharing.
Context {W : Type} (base : W -> Request -> Reply * W) (ctx_done : nat -> option error).

(** The breaker a round trip leaves, by what it recorded. *)
Lemma round_trip_cb cb env now now' req w cb1 :
  cb_Allow cb now = (true, cb1) ->
  let rt := RoundTrip base ctx_done cb env now now' req w in
  rt_cb rt = match rt_recorded rt with
             | Some success => RecordResult (env cb1) success now'
             | None => env cb1
             end.
Proof.
  intros Ha rt. pose proof (round_trip_cases base ctx_done cb env now now' req w) as H.
  fold rt in H. rewrite Ha in H.
  destruct H as [[? _]|[(_ & e & _ & E)|(_ & req' & res & w' & log & _ & _ & _ & _ & Hres)]].
  - done.
  - by rewrite E.
  - by destruct res; destruct Hres as (_ & -> & ->).
Qed.

(** When it records nothing. *)
Lemma round_trip_unrecorded cb env now now' req w :
  fst (cb_Allow cb now) = true ->
  let rt := RoundTrip base ctx_done cb env now now' req w in
  let rs := replies (rt_log rt) in
  rt_recorded rt = None <->
     is_idempotent (Method req) = true /\ GetBody req = None /\
       (exists b e, ReqBody req = Some b /\ read_err b = Some e) \/
     exists reply, last rs = Some reply /\
       (silent reply \/ reply_ok reply = false /\ (length rs < max_retries req)%nat).
Proof.
  intros Ha rt rs. pose proof (round_trip_cases base ctx_done cb env now now' req w) as H.
  fold rt in H. destruct (cb_Allow cb now) as [ok cb1]. simpl in Ha. subst ok.
  destruct H as [[? _]|[(_ & e & Hp & E)|(_ & req' & res & w' & log & Hp & El & _ & Hlog & Hres)]].
  - done.
  - rewrite E. apply prepare_unreadable in Hp as (Hi & Hg & b & Hb & He).
    split; [|done]. intros _. left. split; [done|]. split; [done|]. by exists b, e.
  - pose proof (loop_complete base ctx_done _ _ _ _ _ _ El (max_retries_pos req')) as Hc.
    simpl in Hc. destruct Hc as (_ & _ & _ & _ & _ & _ & reply & Hl & _).
    apply loop_has_shape in El as Hsh. destruct Hsh as [Hsh _].
    apply loop_outcome in El as (_ & _ & Hv).
    pose proof (verdict_recorded ctx_done _ _ _ _ Hsh Hv Hl) as Hrec.
    rewrite (proj2 (prepare_method _ _ Hp)) in Hrec. unfold rs. rewrite Hlog.
    replace (rt_recorded rt) with (loop_recorded res) by (symmetry; by destruct res; apply Hres).
    rewrite Hrec. split.
    + intros Hlost. right. by exists reply.
    + intros [(Hi & Hg & b & e & Hb & He)|(x & Hx & Hlost)]; [|by simplify_eq].
      assert (prepare req = inr e) as Hp' by (apply prepare_unreadable; eauto 6).
      by rewrite Hp' in Hp.
Qed.
End Sharing.

Lemma round_trips_blocked {W} (calls : list (call W)) cb w :
  state cb = StateHalfOpen ->
  let '(results, cb') := round_trips cb w calls in
  cb' = cb /\ length results = length calls /\
  Forall (fun r => rt_out r = Return (None, Some err_circuit_open) /\ rt_log r = []) results.
Proof.
  intros Hs. revert w. induction calls as [|c calls IH]; intros w; [done|]. simpl.
  assert (E : forall base ctx env now' req (w : W),
    RoundTrip base ctx cb env (call_now c) now' req w =
    mkRtResult (Return (None, Some err_circuit_open)) cb None w []).
  { intros. unfold RoundTrip, cb_Allow. by rewrite Hs. }
  rewrite E. simpl. specialize (IH w). destruct (round_trips cb w calls) as [rts cb'].
  destruct IH as (-> & Hlen & Hall). split; [done|]. simpl. split; [by rewrite Hlen|].
  by constructor.
Qed.

(** ** Properties *)

(** C26: the attempts and the result.  When the breaker rejects the request
    nothing is sent and the error is the one of the open breaker.  When the
    body of an idempotent request has to be read first and cannot be, nothing
    is sent and the error is returned.  Otherwise there is at least one
    attempt, and at most three for GET, HEAD, PUT and DELETE and one for other
    methods; every attempt is a call of the base transport, in order; the waits
    before the retries are 50ms and 100ms, without jitter.  A failed attempt
    (an error, or a status of 500 or more) is retried as long as attempts are
    left and the context has not ended during the wait: the first good reply,
    or the reply to the last attempt, is the result, and a context that ends
    before gives its error.  A transport that returns neither a response nor an
    error makes the round trip panic. *)
Theorem round_trip_attempts {W} (base : W -> Request -> Reply * W) ctx_done
    cb env now now' req w :
  let rt := RoundTrip base ctx_done cb env now now' req w in
  let rs := replies (rt_log rt) in
  let n := length rs in
  let max := if is_idempotent (Method req) then 3%nat else 1%nat in
  let unreadable e := is_idempotent (Method req) = true /\ GetBody req = None /\
    exists b, ReqBody req = Some b /\ read_err b = Some e in
  (fst (cb_Allow cb now) = false ->
     rt_out rt = Return (None, Some err_circuit_open) /\ rt_log rt = []) /\
  (forall e, fst (cb_Allow cb now) = true -> unreadable e ->
     rt_out rt = Return (None, Some e) /\ rt_log rt = []) /\
  (fst (cb_Allow cb now) = true -> (forall e, ~ unreadable e) ->
     length (sends (rt_log rt)) = n /\ talk base w (zip (sends (rt_log rt)) rs) (rt_world rt) /\
     waits (rt_log rt) = take (n - 1) retry_delays /\
     (1 <= n <= max)%nat /\ Forall (fun reply => reply_ok reply = false) (take (n - 1) rs) /\
     (forall i, (0 < i < n)%nat -> ctx_done i = None) /\
     exists reply, last rs = Some reply /\
       if decide (silent reply)
       then rt_out rt = Panic "nil pointer dereference"
       else if reply_ok reply || (n =? max)%nat
       then rt_out rt = Return (rp_resp reply, rp_err reply)
       else exists e, ctx_done n = Some e /\ rt_out rt = Return (None, Some e)).
Proof.
  intros rt rs n max unreadable.
  pose proof (round_trip_cases base ctx_done cb env now now' req w) as H.
  fold rt in H. destruct (cb_Allow cb now) as [ok cb1]. cbn [fst].
  destruct H as [[-> E]|[[-> (e & Hp & E)]|[-> (req' & res & w' & log & Hp & El & Hw & Hlog & Hres)]]].
  - rewrite E. by split; [|split].
  - pose proof (proj1 (prepare_unreadable req e) Hp) as Hu. split; [done|]. split.
    + intros e' _ Hu'. rewrite (proj2 (prepare_unreadable req e') Hu') in Hp.
      injection Hp as ->. by rewrite E.
    + intros _ Hr. by destruct (Hr e).
  - split; [done|]. split; [intros e _ Hu; rewrite (proj2 (prepare_unreadable req e) Hu) in Hp; discriminate Hp|]. intros _ _.
    unfold n, rs in *. rewrite Hlog, Hw.
    destruct (prepare_method _ _ Hp) as [_ Em].
    assert (Hmax : max_retries req' = max) by exact Em.
    assert (Hout : rt_out rt = loop_result res) by (by destruct res; apply Hres).
    rewrite Hout, Hmax in *. clear Hres.
    assert (1 <= max <= 3)%nat by (unfold max; destruct (is_idempotent _); lia).
    by eapply loop_complete.
Qed.

Definition demo_base (w : list Reply) (_ : Request) : Reply * list Reply :=
  match w with
  | [] => (mkReply None (Some (errors_New "refused")) None, [])
  | reply :: w => (reply, w)
  end.
Definition bad_gateway : Reply := mkReply (Some (mkResponse 1 502 true)) None None.
Definition all_good : Reply := mkReply (Some (mkResponse 2 200 true)) None None.
Definition demo_request : Request :=
  mkRequest "PUT" (Some (mkBody "payload" None)) None.

(** A PUT whose first attempt meets a 502. *)
Definition demo_round_trip : RtResult (list Reply) :=
  RoundTrip demo_base (fun _ => None) (NewCircuitBreaker 5 Second) id
    (clock 0 1) (clock 0 2) demo_request [bad_gateway; all_good].

Lemma round_trip_attempts_witness :
  length (sends (rt_log demo_round_trip)) = 2%nat /\
  waits (rt_log demo_round_trip) = [50 * Millisecond] /\
  rt_out demo_round_trip = Return (rp_resp all_good, rp_err all_good).
Proof.
  destruct (round_trip_attempts demo_base (fun _ => None) (NewCircuitBreaker 5 Second) id
    (clock 0 1) (clock 0 2) demo_request [bad_gateway; all_good]) as (_ & _ & H).
  destruct H as (Hs & _ & Hw & _ & _ & _ & reply & Hl & Hr).
  - reflexivity.
  - intros e (_ & _ & b & Eb & He). injection Eb as <-. discriminate He.
  - split; [exact Hs|]. split; [exact Hw|].
    vm_compute in Hl. injection Hl as <-. exact Hr.
Defined.



(** C28: no leaked connection.  Of the responses with a body that the base
    transport hands over during a round trip, every one is closed by the
    round trip, in order and once, except the one it returns to its caller,
    which it does not close. *)
Theorem round_trip_closes_bodies {W} (base : W -> Request -> Reply * W) ctx_done
    cb env now now' req w :
  let rt := RoundTrip base ctx_done cb env now now' req w in
  closed (rt_log rt) ++ handed_over (rt_out rt) = obtained (rt_log rt).
Proof.
  intros rt. pose proof (round_trip_cases base ctx_done cb env now now' req w) as H.
  fold rt in H. destruct (cb_Allow cb now) as [ok cb1].
  destruct H as [[-> E]|[(_ & e & _ & E)|(_ & req' & res & w' & log & Hp & El & _ & Hlog & Hres)]].
  1-2: by rewrite E.
  rewrite Hlog. pose proof (max_retries_pos req').
  apply loop_closes in El; [|lia].
  destruct (max_retries req') as [|m]; [lia|]. simpl in El. rewrite <- El. f_equal.
  by destruct res as [r|e|[r|] err|]; destruct Hres as (-> & _).
Qed.

(** C29: the body is rewound.  For an idempotent request with a readable body,
    whether the request can produce its body again ([GetBody]) or the
    transport buffers it, every attempt sends the complete body, and the same
    method. *)
Theorem round_trip_rewinds_body {W} (base : W -> Request -> Reply * W) ctx_done
    cb env now now' req w b :
  is_idempotent (Method req) = true -> ReqBody req = Some b -> read_err b = None ->
  (forall get, GetBody req = Some get -> forall i, get i = Some b) ->
  let rt := RoundTrip base ctx_done cb env now now' req w in
  Forall (fun r => ReqBody r = Some b /\ Method r = Method req) (sends (rt_log rt)).
Proof.
  intros Hi Hb Hre Hget rt.
  pose proof (round_trip_cases base ctx_done cb env now now' req w) as H.
  fold rt in H. destruct (cb_Allow cb now) as [ok cb1].
  destruct H as [[-> E]|[(_ & e & _ & E)|(_ & req' & res & w' & log & Hp & El & _ & Hlog & _)]].
  1-2: rewrite E; constructor.
  rewrite Hlog. unfold prepare, buffer_body in Hp. rewrite Hi, Hb in Hp.
  destruct (GetBody req) as [get|] eqn:Eg.
  - injection Hp as <-. by eapply loop_rewinds; [exact Eg|by apply Hget| |exact El].
  - rewrite Hre in Hp. injection Hp as <-.
    assert (mkBody (content b) None = b) as E by (by destruct b; simpl in Hre; subst).
    rewrite E in *.
    eapply loop_rewinds with (get := fun _ => Some b) (b := b) in El;
      [exact El|done..].
Qed.

Lemma round_trip_rewinds_body_witness :
  Forall (fun r => ReqBody r = Some (mkBody "payload" None) /\ Method r = "PUT"%string)
    (sends (rt_log (RoundTrip demo_base (fun _ => None) (NewCircuitBreaker 5 Second) id
       (clock 0 1) (clock 0 2) demo_request [bad_gateway; bad_gateway; all_good]))).
Proof.
  apply (round_trip_rewinds_body demo_base (fun _ => None) (NewCircuitBreaker 5 Second) id
       (clock 0 1) (clock 0 2) demo_request [bad_gateway; bad_gateway; all_good]).
  - reflexivity.
  - reflexivity.
  - reflexivity.
  - discriminate.
Defined.

(** C30: a lost probe blocks the upstream for good.  Take a round trip that the
    open breaker lets in as its probe after the cooldown, while no other round
    trip that could record a result is in flight (the others only ask the
    breaker and are rejected).  It records no result exactly when it returns
    early: the body of an idempotent request cannot be read, the transport
    panics, or the context ends before a retry, that is a failed attempt is the
    last one although attempts are left.  The breaker is then half-open, and
    every later round trip, of whatever request and at whatever time, is
    rejected with nothing sent and leaves the breaker as it is. *)
Theorem lost_probe_blocks {W} (base : W -> Request -> Reply * W) ctx_done
    cb asked now now' req w (later : list (call W)) :
  state cb = StateOpen -> cooldown cb < time_sub now (lastStateChange cb) ->
  Forall is_allow asked ->
  let rt := RoundTrip base ctx_done cb (fun cb => snd (cb_run cb asked)) now now' req w in
  let rs := replies (rt_log rt) in
  (rt_recorded rt = None <->
     is_idempotent (Method req) = true /\ GetBody req = None /\
       (exists b e, ReqBody req = Some b /\ read_err b = Some e) \/
     exists reply, last rs = Some reply /\
       (silent reply \/ reply_ok reply = false /\ (length rs < max_retries req)%nat)) /\
  (rt_recorded rt = None ->
     state (rt_cb rt) = StateHalfOpen /\
     let '(results, cb') := round_trips (rt_cb rt) (rt_world rt) later in
     cb' = rt_cb rt /\ length results = length later /\
     Forall (fun r => rt_out r = Return (None, Some err_circuit_open) /\ rt_log r = []) results).
Proof.
  intros Hs Hcd Hasked rt rs.
  assert (Ha : cb_Allow cb now = (true, half_open cb now)).
  { unfold cb_Allow. rewrite Hs. by replace (_ <? _) with true by lia. }
  split.
  - unfold rs, rt. by apply round_trip_unrecorded; rewrite Ha.
  - intros Hr. assert (Hcb : rt_cb rt = half_open cb now).
    { unfold rt in *. rewrite (round_trip_cb _ _ _ _ _ _ _ _ _ Ha), Hr.
      by apply half_open_asked. }
    rewrite Hcb. split; [done|]. pose proof (round_trips_blocked later (half_open cb now) (rt_world rt) eq_refl).
    by destruct (round_trips _ _ _).
Qed.

(** A GET whose first attempt fails and whose client goes away during the wait. *)
Definition lost_probe : RtResult (list Reply) :=
  RoundTrip demo_base (fun _ => Some context_canceled)
    (mkCircuitBreaker StateOpen 5 5 Second (clock 0 0)) (fun cb => cb)
    (clock 0 (2 * Second)) (clock 0 (3 * Second)) (mkRequest "GET" None None) [bad_gateway].

Lemma lost_probe_blocks_witness :
  rt_recorded lost_probe = None /\
  rt_out (RoundTrip demo_base (fun _ => None) (rt_cb lost_probe) id
    (clock 0 (1000 * Second)) (clock 0 (1000 * Second)) demo_request [all_good]) =
  Return (None, Some err_circuit_open).
Proof.
  destruct (lost_probe_blocks demo_base (fun _ => Some context_canceled)
    (mkCircuitBreaker StateOpen 5 5 Second (clock 0 0)) []
    (clock 0 (2 * Second)) (clock 0 (3 * Second)) (mkRequest "GET" None None) [bad_gateway]
    [mkCall (fun _ => demo_base [all_good]) (fun _ => None) id (clock 0 (1000 * Second))
       (clock 0 (1000 * Second)) demo_request]) as [Hiff Hlost].
  - reflexivity.
  - reflexivity.
  - constructor.
  - split; [reflexivity|]. destruct Hlost as (_ & _ & _ & Hall); [reflexivity|].
    apply Forall_inv in Hall. exact (proj1 Hall).
Defined.
