(* ===== verification/Postgres.v ===== *)
(** * [internal/storage/postgres.go]: client limits in PostgreSQL

    The database is reached through [database/sql]: the driver is the class
    [SqlDriver], a record of the calls the code makes, each of them possibly
    failing.  What PostgreSQL does with the three statements is stated by
    the hypotheses of [ClientsTable], and a finite map that satisfies them
    is given for the witnesses. *)
From S2P Require Import Prelude GoTime GoError GoString.

(** ** The driver *)

(** Arguments of a statement. *)
Inductive sql_arg := ArgString (s : string) | ArgInt (z : Z).

Class SqlDriver (DB : Type) := {
  sql_Open : string -> string -> DB + error;
  db_SetMaxOpenConns : DB -> Z -> DB;
  db_SetMaxIdleConns : DB -> Z -> DB;
  db_SetConnMaxLifetime : DB -> Z -> DB;
  db_SetConnMaxIdleTime : DB -> Z -> DB;
  db_Ping : DB -> option error;
  db_Close : DB -> option error * DB;
  (* [QueryRowContext(...).Scan(&limit)]: the scanned integer or the error *)
  db_QueryInt : DB -> string -> list sql_arg -> Z + error;
  db_Exec : DB -> string -> list sql_arg -> option error * DB;
}.

Record PostgresConfig := mkPostgresConfig {
  Host : string; Port : Z; User : string; Password : string; Database : string;
  SSLMode : string; MaxOpenConns : Z; MaxIdleConns : Z;
  ConnMaxLifetime : Z; ConnMaxIdleTime : Z;
}.

Definition select_limit : string := "
		SELECT rate_limit
		FROM clients
		WHERE api_key = $1
	".
Definition upsert_client : string := "
		INSERT INTO clients (api_key, rate_limit)
		VALUES ($1, $2)
		ON CONFLICT (api_key) DO UPDATE SET rate_limit = EXCLUDED.rate_limit, updated_at = NOW();".
Definition delete_client : string := "DELETE FROM clients WHERE api_key = $1;".

Definition err_not_found : error := mkError "client not found" [ErrNotFound].
Definition err_invalid_api_key : error := mkError "invalid api key" [ErrInvalidAPIKey].

(** [validateConfig] gets its argument by value: the default it gives to
    [SSLMode] is written to its own copy, which is the second component. *)
Definition validateConfig (cfg : PostgresConfig) : option error * PostgresConfig :=
  if bool_decide (Host cfg = "") then (Some (errors_New "host cannot be empty"), cfg)
  else if (Port cfg <=? 0) || (65535 <? Port cfg) then
    (Some (errors_New ("invalid port " +:+ Itoa (Port cfg))), cfg)
  else if bool_decide (User cfg = "") then (Some (errors_New "user cannot be empty"), cfg)
  else if bool_decide (Database cfg = "") then
    (Some (errors_New "database cannot be empty"), cfg)
  else if bool_decide (SSLMode cfg = "") then
    (None, mkPostgresConfig (Host cfg) (Port cfg) (User cfg) (Password cfg)
             (Database cfg) "disable" (MaxOpenConns cfg) (MaxIdleConns cfg)
             (ConnMaxLifetime cfg) (ConnMaxIdleTime cfg))
  else (None, cfg).

Definition conn_string (cfg : PostgresConfig) : string :=
  "host=" +:+ Host cfg +:+ " port=" +:+ Itoa (Port cfg) +:+
  " user=" +:+ User cfg +:+ " password=" +:+ Password cfg +:+
  " dbname=" +:+ Database cfg +:+ " sslmode=" +:+ SSLMode cfg.

Section Postgres.
Context {DB : Type} `{!SqlDriver DB}.

(** [NewPostgres]: the handle, or the error. *)
Definition NewPostgres (cfg : PostgresConfig) : DB + error :=
  match fst (validateConfig cfg) with
  | Some err => inr (wrap_error "invalid postgres config" err)
  | None =>
      match sql_Open "postgres" (conn_string cfg) with
      | inr err => inr (wrap_error "open database connection" err)
      | inl db =>
          let db := if 0 <? MaxOpenConns cfg
                    then db_SetMaxOpenConns db (MaxOpenConns cfg) else db in
          let db := if 0 <? MaxIdleConns cfg
                    then db_SetMaxIdleConns db (MaxIdleConns cfg) else db in
          let db := if 0 <? ConnMaxLifetime cfg
                    then db_SetConnMaxLifetime db (ConnMaxLifetime cfg) else db in
          let db := if 0 <? ConnMaxIdleTime cfg
                    then db_SetConnMaxIdleTime db (ConnMaxIdleTime cfg) else db in
          match db_Ping db with
          | Some err => let _ := db_Close db in inr (wrap_error "ping database" err)
          | None => inl db
          end
      end
  end.

(** [Close]; the handle is nil only in a zero [Postgres]. *)
Definition pg_Close (p : option DB) : option error * option DB :=
  match p with
  | Some db => let '(err, db) := db_Close db in (err, Some db)
  | None => (None, None)
  end.

Definition pg_GetClientLimit (db : DB) (apiKey : string) : Z * option error :=
  if bool_decide (apiKey = "") then (0, Some err_invalid_api_key)
  else
    match db_QueryInt db select_limit [ArgString apiKey] with
    | inr err =>
        if errors_Is err ErrNoRows then (0, Some err_not_found)
        else (0, Some (wrap_error "query client limit" err))
    | inl limit =>
        if limit <=? 0 then
          (0, Some (errors_New ("invalid rate limit value " +:+ Itoa limit +:+
                                " for client " +:+ apiKey)))
        else (limit, None)
    end.

Definition UpsertClient (db : DB) (apiKey : string) (limit : Z) : option error * DB :=
  db_Exec db upsert_client [ArgString apiKey; ArgInt limit].

Definition DeleteClient (db : DB) (apiKey : string) : option error * DB :=
  db_Exec db delete_client [ArgString apiKey].

Definition GetClientLimitPrepared (db : DB) (apiKey : string) : Z * option error :=
  pg_GetClientLimit db apiKey.

Definition HealthCheck (db : DB) : option error :=
  match db_Ping db with
  | Some err => Some (wrap_error "database health check" err)
  | None => None
  end.

(** What PostgreSQL does with the statements when they succeed: a query
    returns the row last written for its key, or no row. *)
Record ClientsTable : Prop := {
  upsert_query : forall db k v db', db_Exec db upsert_client [ArgString k; ArgInt v] = (None, db') ->
    db_QueryInt db' select_limit [ArgString k] = inl v;
  upsert_other : forall db k v db' k', db_Exec db upsert_client [ArgString k; ArgInt v] = (None, db') ->
    k' <> k -> db_QueryInt db' select_limit [ArgString k'] = db_QueryInt db select_limit [ArgString k'];
  delete_query : forall db k db', db_Exec db delete_client [ArgString k] = (None, db') ->
    exists e, db_QueryInt db' select_limit [ArgString k] = inr e /\ errors_Is e ErrNoRows = true;
}.
End Postgres.

(** A table held in a finite map, with the schema's check [rate_limit > 0]. *)
Definition err_no_rows : error := mkError "sql: no rows in result set" [ErrNoRows].

#[export] Instance map_driver : SqlDriver (gmap string Z) := {
  sql_Open _ _ := inl ∅;
  db_SetMaxOpenConns db _ := db;
  db_SetMaxIdleConns db _ := db;
  db_SetConnMaxLifetime db _ := db;
  db_SetConnMaxIdleTime db _ := db;
  db_Ping _ := None;
  db_Close db := (None, db);
  db_QueryInt db _ args :=
    match args with
    | [ArgString k] => match db !! k with Some v => inl v | None => inr err_no_rows end
    | _ => inr err_no_rows
    end;
  db_Exec db q args :=
    match args with
    | [ArgString k; ArgInt v] =>
        if 0 <? v then (None, <[k := v]> db)
        else (Some (errors_New "check constraint"), db)
    | [ArgString k] => (None, delete k db)
    | _ => (Some (errors_New "bad arguments"), db)
    end;
}.

Lemma map_driver_table : ClientsTable (DB := gmap string Z).
Proof.
  split; simpl.
  - intros db k v db'. destruct (0 <? v); intros [= <-]. by rewrite lookup_insert_eq.
  - intros db k v db' k'. destruct (0 <? v); intros [= <-] Hne.
    by rewrite lookup_insert_ne.
  - intros db k db' [= <-]. rewrite lookup_delete_eq. by exists err_no_rows.
Qed.

(** ** Properties *)

(** The limit of a client.  [GetClientLimit] rejects an empty key without a
    query, maps a missing row to [ErrNotFound], wraps any other failure so
    that it is not mistaken for a missing row, and never returns a limit that
    is not positive without an error. *)
Theorem postgres_get_limit {DB} `{!SqlDriver DB} (db : DB) (k : string) :
  let '(limit, err) := pg_GetClientLimit db k in
  (err = None -> 0 < limit /\ db_QueryInt db select_limit [ArgString k] = inl limit) /\
  (k = "" -> (limit, err) = (0, Some err_invalid_api_key)) /\
  (k <> "" -> forall e, db_QueryInt db select_limit [ArgString k] = inr e ->
     limit = 0 /\ exists e', err = Some e' /\
     (errors_Is e' ErrNotFound = true <-> errors_Is e ErrNoRows = true \/
                                          errors_Is e ErrNotFound = true)) /\
  (err <> None -> limit = 0).
Proof.
  unfold pg_GetClientLimit. destruct (decide (k = "")) as [->|Hk].
  { rewrite bool_decide_true by done. done. }
  rewrite bool_decide_false by done.
  destruct (db_QueryInt db select_limit [ArgString k]) as [limit|e] eqn:Eq.
  - destruct (limit <=? 0) eqn:El; bool_to_prop; split_and!; try done; naive_solver.
  - destruct (errors_Is e ErrNoRows) eqn:En; split_and!; try done.
    + intros _ e' [= <-]. split; [done|]. eexists. split; [done|].
      split; [by left|]. intros _. done.
    + intros _ e' [= <-]. split; [done|]. eexists. split; [done|].
      rewrite errors_Is_wrap. rewrite En. naive_solver.
Qed.

(** The table.  After a successful [UpsertClient] with a positive limit,
    [GetClientLimit] returns that limit for the key and is unchanged for
    every other key; after a successful [DeleteClient] it reports
    [ErrNotFound]. *)
Theorem postgres_upsert_get {DB} `{!SqlDriver DB} (db db' db'' : DB) (k : string) (v : Z) :
  ClientsTable (DB := DB) -> k <> "" -> 0 < v ->
  UpsertClient db k v = (None, db') -> DeleteClient db' k = (None, db'') ->
  pg_GetClientLimit db' k = (v, None) /\
  (forall k', k' <> k -> pg_GetClientLimit db' k' = pg_GetClientLimit db k') /\
  pg_GetClientLimit db'' k = (0, Some err_not_found).
Proof.
  intros Ht Hk Hv Hup Hdel. unfold pg_GetClientLimit.
  rewrite (bool_decide_false (k = "")) by done.
  rewrite (upsert_query Ht _ _ _ _ Hup), (proj2 (Z.leb_gt _ _) Hv).
  split; [done|]. split.
  - intros k' Hne. by rewrite (upsert_other Ht _ _ _ _ _ Hup Hne).
  - destruct (delete_query Ht _ _ _ Hdel) as (e & -> & He). by rewrite He.
Qed.

Lemma postgres_upsert_get_witness :
  pg_GetClientLimit (<["k" := 7]> ∅ : gmap string Z) "k" = (7, None).
Proof.
  apply (postgres_upsert_get (∅ : gmap string Z) (<["k" := 7]> ∅)
           (delete "k" (<["k" := 7]> ∅)) "k" 7).
  - apply map_driver_table.
  - discriminate.
  - lia.
  - reflexivity.
  - reflexivity.
Defined.

(** Validation.  [validateConfig] accepts a configuration exactly when the
    host, the user and the database are not empty and the port is between 1
    and 65535.  The default for an empty [SSLMode] never reaches the
    connection string: [NewPostgres] opens it with an empty [sslmode]. *)
Theorem postgres_validate (cfg : PostgresConfig) :
  (fst (validateConfig cfg) = None <->
     Host cfg <> "" /\ 1 <= Port cfg <= 65535 /\ User cfg <> "" /\ Database cfg <> "") /\
  (SSLMode cfg = "" -> exists s, conn_string cfg = s +:+ " sslmode=").
Proof.
  split.
  - unfold validateConfig.
    destruct (decide (Host cfg = "")) as [E|E];
      [rewrite (bool_decide_true _ E); naive_solver|rewrite (bool_decide_false _ E)].
    destruct ((Port cfg <=? 0) || (65535 <? Port cfg))%bool eqn:Ep.
    { bool_to_prop. split; [done|]. intros (_ & Hp & _). destruct Ep; bool_to_prop; lia. }
    bool_to_prop.
    destruct (decide (User cfg = "")) as [E'|E'];
      [rewrite (bool_decide_true _ E'); naive_solver|rewrite (bool_decide_false _ E')].
    destruct (decide (Database cfg = "")) as [E''|E''];
      [rewrite (bool_decide_true _ E''); naive_solver|rewrite (bool_decide_false _ E'')].
    destruct (bool_decide (SSLMode cfg = "")); simpl; split; try done; intros _;
      (split; [done|]; split; [lia|done]).
  - intros E. unfold conn_string. rewrite E.
    eexists ("host=" +:+ Host cfg +:+ " port=" +:+ Itoa (Port cfg) +:+
      " user=" +:+ User cfg +:+ " password=" +:+ Password cfg +:+
      " dbname=" +:+ Database cfg).
    by rewrite !string_app_assoc.
Qed.

Lemma postgres_validate_witness :
  exists s, conn_string (mkPostgresConfig "localhost" 5432 "u" "p" "d" "" 0 0 0 0) =
            s +:+ " sslmode=".
Proof.
  apply (postgres_validate (mkPostgresConfig "localhost" 5432 "u" "p" "d" "" 0 0 0 0)).
  reflexivity.
Defined.
