(* ===== verification/CachedStore.v ===== *)
(** * [internal/storage/l1_cached_storage.go]: the L1 cache of client limits

    [GetClientLimit] is not one atomic step: it reads the cache under the
    read lock, reads the clock, queries the wrapped store without any lock
    and fills the cache under the write lock.  The functions of the first
    part are those pieces and their sequential composition; [cs_sys] is the
    system of concurrent calls, whose actions are the pieces. *)
From S2P Require Import Prelude GoTime GoError Postgres.

(** The interface [ClientStore]: a call may change the store. *)
Class ClientStore (S : Type) := {
  store_GetClientLimit : S -> string -> (Z * option error) * S;
}.

#[export] Instance postgres_store {DB} `{!SqlDriver DB} : ClientStore DB := {
  store_GetClientLimit db k := (pg_GetClientLimit db k, db);
}.

Record cacheEntry := mkCacheEntry { limit : Z; expiresAt : Time }.

Record CachedStore (S : Type) := mkCachedStore {
  store : S;
  ttl : Z;
  cache : gmap string cacheEntry;
  stopped : bool;        (* [stop] is closed *)
}.
Arguments mkCachedStore {S}. Arguments store {S}. Arguments ttl {S}.
Arguments cache {S}. Arguments stopped {S}.

Section CachedStore.
Context {S : Type} `{!ClientStore S}.
Implicit Types (c : CachedStore S) (k : string) (now : Time).

Definition NewCachedStore (s : S) (ttl : Z) : CachedStore S :=
  mkCachedStore s (if ttl <=? 0 then Minute else ttl) ∅ false.

Definition set_cache c (m : gmap string cacheEntry) : CachedStore S :=
  mkCachedStore (store c) (ttl c) m (stopped c).
Definition set_store c (s : S) : CachedStore S :=
  mkCachedStore s (ttl c) (cache c) (stopped c).

(** The test [time.Now().Before(entry.expiresAt)] of a cached entry. *)
Definition fresh (e : cacheEntry) now : bool := time_before now (expiresAt e).

(** What the critical section after the query writes, if anything. *)
Definition fill c k (res : Z * option error) now : CachedStore S :=
  match snd res with
  | Some err =>
      if errors_Is err ErrNotFound then
        set_cache c (<[k := mkCacheEntry 0 (time_add now (ttl c))]> (cache c))
      else c
  | None => set_cache c (<[k := mkCacheEntry (fst res) (time_add now (ttl c))]> (cache c))
  end.

(** What [GetClientLimit] returns after the query. *)
Definition reply (res : Z * option error) : Z * option error :=
  match snd res with
  | Some err => (0, Some err)
  | None => (fst res, None)
  end.

(** The query of the store and what follows it. *)
Definition query c k now : (Z * option error) * CachedStore S :=
  let '(res, s) := store_GetClientLimit (store c) k in
  (reply res, fill (set_store c s) k res now).

(** [GetClientLimit] run alone: [now1] is the reading compared with the
    expiry, [now2] the one the new entry is stamped with. *)
Definition cached_GetClientLimit c k now1 now2 : (Z * option error) * CachedStore S :=
  if bool_decide (k = "") then ((0, Some err_invalid_api_key), c)
  else
    match cache c !! k with
    | Some e => if fresh e now1 then ((limit e, None), c) else query c k now2
    | None => query c k now2
    end.

Definition Invalidate c k : CachedStore S := set_cache c (delete k (cache c)).

(** [Close]: [stopOnce] makes every call after the first one do nothing. *)
Definition cached_Close c : option error * CachedStore S :=
  (None, mkCachedStore (store c) (ttl c) (cache c) true).

(** One tick of [cleanupLoop]. *)
Definition sweep c now : CachedStore S :=
  set_cache c (filter (fun ke => time_after now (expiresAt ke.2) = false) (cache c)).

(** ** Concurrent calls *)

(** The program counter of a goroutine inside [GetClientLimit]. *)
Inductive pc :=
  | PLookup (k : string)                            (* before [RLock] *)
  | PCheck (k : string) (e : option cacheEntry)     (* after [RUnlock] *)
  | PFetch (k : string)                             (* before the query *)
  | PFill (k : string) (res : Z * option error).    (* before [Lock] *)

(** What has happened, newest first. *)
Inductive cs_event :=
  | EvFetch (t : nat) (k : string) (res : Z * option error)
  | EvFill (k : string) (limit : Z) (now : Time)
  | EvInvalidate (k : string)
  | EvAnswer (t : nat) (k : string) (res : Z * option error) (now : Time).

Record cs_sys := mkSys {
  cs : CachedStore S;
  threads : gmap nat pc;
  loop_running : bool;
  history : list cs_event;
}.

Inductive cs_action :=
  | ACall (t : nat) (k : string)
  | AStep (t : nat) (now : Time)
  | AInvalidate (k : string)
  | ATick (now : Time)             (* the cleanup goroutine takes [ticker.C] *)
  | AStop                          (* it takes [stop] *)
  | AClose
  | AWrite (s : S).                (* the underlying data changes *)

(** The value the write section puts into the cache, if it writes. *)
Definition cached_value (res : Z * option error) : option Z :=
  match snd res with
  | Some err => if errors_Is err ErrNotFound then Some 0 else None
  | None => Some (fst res)
  end.

Definition fill_events k (res : Z * option error) now : list cs_event :=
  match cached_value res with Some l => [EvFill k l now] | None => [] end.

(** One step of goroutine [t]; [now] is its reading of the clock. *)
Definition thread_step (y : cs_sys) (t : nat) (p : pc) now : cs_sys :=
  let goto c p h := mkSys c (<[t := p]> (threads y)) (loop_running y) (h ++ history y) in
  let ret c k res h :=
    mkSys c (delete t (threads y)) (loop_running y)
          (EvAnswer t k res now :: h ++ history y) in
  match p with
  | PLookup k => goto (cs y) (PCheck k (cache (cs y) !! k)) []
  | PCheck k e =>
      match e with
      | Some e => if fresh e now then ret (cs y) k (limit e, None) []
                  else goto (cs y) (PFetch k) []
      | None => goto (cs y) (PFetch k) []
      end
  | PFetch k =>
      let '(res, s) := store_GetClientLimit (store (cs y)) k in
      goto (set_store (cs y) s) (PFill k res) [EvFetch t k res]
  | PFill k res => ret (fill (cs y) k res now) k (reply res) (fill_events k res now)
  end.

Definition cs_step (y : cs_sys) (a : cs_action) : cs_sys :=
  let set c h := mkSys c (threads y) (loop_running y) (h ++ history y) in
  match a with
  | ACall t k =>
      match threads y !! t with
      | Some _ => y
      | None =>
          if bool_decide (k = "") then
            set (cs y) [EvAnswer t k (0, Some err_invalid_api_key) zero_time]
          else mkSys (cs y) (<[t := PLookup k]> (threads y)) (loop_running y) (history y)
      end
  | AStep t now =>
      match threads y !! t with Some p => thread_step y t p now | None => y end
  | AInvalidate k => set (Invalidate (cs y) k) [EvInvalidate k]
  | ATick now => if loop_running y then set (sweep (cs y) now) [] else y
  | AStop => if stopped (cs y)
             then mkSys (cs y) (threads y) false (history y) else y
  | AClose => set (snd (cached_Close (cs y))) []
  | AWrite s => set (set_store (cs y) s) []
  end.

Definition cs_run (y : cs_sys) (acts : list cs_action) : cs_sys :=
  fold_left cs_step acts y.

Definition cs_init (s : S) (d : Z) : cs_sys := mkSys (NewCachedStore s d) ∅ true [].

(** ** Provenance of the answers *)

(** [ev] happened, [keep] holds of every later event, [Q] of the history
    before it. *)
Definition after (keep : cs_event -> Prop) (ev : cs_event)
    (Q : list cs_event -> Prop) (h : list cs_event) : Prop :=
  exists a b, h = a ++ ev :: b /\ Forall keep a /\ Q b.

Definition always (ev : cs_event) : Prop := True.
Definition not_invalidated k (ev : cs_event) : Prop :=
  match ev with EvInvalidate k' => k' <> k | _ => True end.
Definition not_answered (t : nat) (ev : cs_event) : Prop :=
  match ev with EvAnswer t' _ _ _ => t' <> t | _ => True end.

(** The store answered a query for [k] with what is cached as [v]. *)
Definition fetched k (v : Z) (h : list cs_event) : Prop :=
  exists t res, EvFetch t k res ∈ h /\ cached_value res = Some v.

(** The entry was written with its expiry one [d] after the write, and the
    value had been fetched for that key before. *)
Definition filled (keep : cs_event -> Prop) (d : Z) k (e : cacheEntry)
    (h : list cs_event) : Prop :=
  exists now, expiresAt e = time_add now d /\
    after keep (EvFill k (limit e) now) (fetched k (limit e)) h.

(** An answer comes from the goroutine's own query, made in this call, or
    from an entry that was fresh at [now], or rejects the empty key. *)
Definition justified (d : Z) (t : nat) k (res : Z * option error) now
    (h : list cs_event) : Prop :=
  (k = "" /\ res = (0, Some err_invalid_api_key)) \/
  (exists r, after (not_answered t) (EvFetch t k r) (fun _ => True) h /\ res = reply r) \/
  (exists e, filled always d k e h /\ fresh e now = true /\ res = (limit e, None)).

Definition event_ok (d : Z) (ev : cs_event) (h : list cs_event) : Prop :=
  match ev with EvAnswer t k res now => justified d t k res now h | _ => True end.

Fixpoint history_ok (d : Z) (h : list cs_event) : Prop :=
  match h with
  | [] => True
  | ev :: h => event_ok d ev h /\ history_ok d h
  end.

Record cs_inv (d : Z) (y : cs_sys) : Prop := {
  inv_ttl : ttl (cs y) = d;
  inv_cache k e : cache (cs y) !! k = Some e ->
    filled (not_invalidated k) d k e (history y);
  inv_check t k e : threads y !! t = Some (PCheck k (Some e)) ->
    filled always d k e (history y);
  inv_fill t k res : threads y !! t = Some (PFill k res) ->
    after (not_answered t) (EvFetch t k res) (fun _ => True) (history y);
  inv_history : history_ok d (history y);
}.

Lemma after_app keep ev Q (h0 h : list cs_event) :
  Forall keep h0 -> after keep ev Q h -> after keep ev Q (h0 ++ h).
Proof.
  intros H0 (a & b & -> & Ha & Hb). exists (h0 ++ a), b.
  rewrite <- app_assoc. split; [done|]. split; [by apply Forall_app|done].
Qed.

Lemma filled_app keep d k e (h0 h : list cs_event) :
  Forall keep h0 -> filled keep d k e h -> filled keep d k e (h0 ++ h).
Proof. intros H0 (now & E & H). exists now. split; [done|]. by apply after_app. Qed.

Lemma filled_always keep d k e (h : list cs_event) :
  filled keep d k e h -> filled always d k e h.
Proof.
  intros (now & E & a & b & -> & _ & Hb). exists now. split; [done|].
  exists a, b. split; [done|]. split; [by apply Forall_true|done].
Qed.

Lemma filled_now d k v now (h : list cs_event) :
  fetched k v h ->
  filled (not_invalidated k) d k (mkCacheEntry v (time_add now d)) (EvFill k v now :: h).
Proof. intros Hf. exists now. split; [done|]. by exists [], h. Qed.

Lemma fill_cache c k (res : Z * option error) now :
  fill c k res now =
  match cached_value res with
  | Some v => set_cache c (<[k := mkCacheEntry v (time_add now (ttl c))]> (cache c))
  | None => c
  end.
Proof.
  unfold fill, cached_value. destruct (snd res); [|done].
  by destruct (errors_Is _ _).
Qed.

Lemma fetched_of_after t k res keep Q v (h : list cs_event) :
  after keep (EvFetch t k res) Q h -> cached_value res = Some v -> fetched k v h.
Proof.
  intros (a & b & -> & _) Hv. exists t, res. split; [|done].
  apply elem_of_app. right. by apply elem_of_cons; left.
Qed.

(** A step that adds events and moves at most one goroutine keeps the
    invariant when what it writes is justified. *)
Lemma inv_move d (y : cs_sys) c' (ths : gmap nat pc) run (h0 : list cs_event) :
  cs_inv d y -> ttl c' = d ->
  (forall k e, cache c' !! k = Some e -> filled (not_invalidated k) d k e (h0 ++ history y)) ->
  (forall t p, ths !! t = Some p ->
     (threads y !! t = Some p /\ Forall (not_answered t) h0) \/
     match p with
     | PCheck k (Some e) => filled always d k e (h0 ++ history y)
     | PFill k res => after (not_answered t) (EvFetch t k res) (fun _ => True) (h0 ++ history y)
     | _ => True
     end) ->
  history_ok d (h0 ++ history y) ->
  cs_inv d (mkSys c' ths run (h0 ++ history y)).
Proof.
  intros Hinv Ht Hc Hths Hh. split; simpl; try done.
  - intros t k e Hp. destruct (Hths _ _ Hp) as [[Hy _]|]; [|done].
    apply filled_app; [by apply Forall_true|]. by apply (inv_check _ _ Hinv t).
  - intros t k res Hp. destruct (Hths _ _ Hp) as [[Hy Ha]|]; [|done].
    apply after_app; [done|]. by apply (inv_fill _ _ Hinv).
Qed.

(** The case where the cache is untouched. *)
Lemma inv_same_cache d (y : cs_sys) c' (h0 : list cs_event) :
  cs_inv d y -> cache c' = cache (cs y) -> (forall k, Forall (not_invalidated k) h0) ->
  forall k e, cache c' !! k = Some e -> filled (not_invalidated k) d k e (h0 ++ history y).
Proof.
  intros Hinv -> Hk k e He. apply filled_app; [done|]. by apply (inv_cache _ _ Hinv).
Qed.

(** A goroutine that goes on to [p], adding events that are not answers. *)
Lemma inv_goto d (y : cs_sys) c' t p (h0 : list cs_event) :
  cs_inv d y -> ttl c' = d -> cache c' = cache (cs y) ->
  (forall k, Forall (not_invalidated k) h0) -> (forall t', Forall (not_answered t') h0) ->
  history_ok d (h0 ++ history y) ->
  match p with
  | PCheck k (Some e) => filled always d k e (history y)
  | PFill k res => after (not_answered t) (EvFetch t k res) (fun _ => True) (h0 ++ history y)
  | _ => True
  end ->
  cs_inv d (mkSys c' (<[t := p]> (threads y)) (loop_running y) (h0 ++ history y)).
Proof.
  intros Hinv Ht Hc Hk Ha Hh Hp. apply inv_move; try done.
  - by apply inv_same_cache.
  - intros t' p'. rewrite lookup_insert. case_decide as E; [|by left].
    intros [= <-]. right. subst t'. destruct p as [|k [e|]| |]; try done.
    apply filled_app; [by apply Forall_true|done].
Qed.

(** A goroutine that returns. *)
Lemma inv_return d (y : cs_sys) c' t k res now (h0 : list cs_event) :
  cs_inv d y -> ttl c' = d ->
  (forall k' e, cache c' !! k' = Some e ->
     filled (not_invalidated k') d k' e (h0 ++ history y)) ->
  (forall t', Forall (not_answered t') h0) ->
  history_ok d (h0 ++ history y) ->
  justified d t k res now (h0 ++ history y) ->
  cs_inv d (mkSys c' (delete t (threads y)) (loop_running y)
              (EvAnswer t k res now :: h0 ++ history y)).
Proof.
  intros Hinv Ht Hc Ha Hh Hj.
  apply (inv_move d y c' _ _ (EvAnswer t k res now :: h0)); try done.
  - intros k' e He. apply (filled_app _ _ _ _ [_]); [by constructor|by apply Hc].
  - intros t' p. rewrite lookup_delete. case_decide; [done|]. left. split; [done|].
    by constructor.
Qed.

Lemma thread_step_inv d (y : cs_sys) t p now :
  cs_inv d y -> threads y !! t = Some p -> cs_inv d (thread_step y t p now).
Proof.
  intros Hinv Hp. pose proof Hinv as [Httl Hcache Hcheck Hfill Hhist].
  destruct p as [k|k e|k|k res]; simpl.
  - apply (inv_goto d y (cs y) t _ []); try done.
    destruct (cache (cs y) !! k) eqn:E; [|done].
    eapply filled_always, Hcache, E.
  - assert (Hgo : cs_inv d (mkSys (cs y) (<[t := PFetch k]> (threads y))
                                  (loop_running y) (history y)))
      by (by apply (inv_goto d y (cs y) t _ [])).
    destruct e as [e|]; [|done]. destruct (fresh e now) eqn:Ef; [|done].
    apply (inv_return d y (cs y) t k _ now []); try done.
    right. right. exists e. split; [|done]. by apply (Hcheck t).
  - destruct (store_GetClientLimit (store (cs y)) k) as [res s].
    apply (inv_goto d y _ t _ [_]); try done; try (intros; by constructor).
    by exists [], (history y).
  - specialize (Hfill _ _ _ Hp).
    assert (Hev : forall t', Forall (not_answered t') (fill_events k res now))
      by (intros; unfold fill_events; destruct (cached_value res); by repeat constructor).
    assert (Hni : forall k', Forall (not_invalidated k') (fill_events k res now))
      by (intros; unfold fill_events; destruct (cached_value res); by repeat constructor).
    apply inv_return; try done.
    + rewrite fill_cache. by destruct (cached_value res).
    + intros k' e. rewrite fill_cache. unfold fill_events in *.
      destruct (cached_value res) as [v|] eqn:Ev; [|by apply Hcache]. simpl.
      rewrite lookup_insert. case_decide as E.
      * intros [= <-]. subst k'. rewrite Httl. apply filled_now.
        by eapply fetched_of_after.
      * intros He. apply (filled_app _ _ _ _ [_]); [done|]. by apply Hcache.
    + unfold fill_events. by destruct (cached_value res).
    + right. left. exists res. split; [by apply after_app|done].
Qed.

Lemma cs_step_inv d (y : cs_sys) (a : cs_action) :
  cs_inv d y -> cs_inv d (cs_step y a).
Proof.
  intros Hinv. pose proof Hinv as [Httl Hcache Hcheck Hfill Hhist].
  assert (Hset : forall c', ttl c' = d ->
    (forall k e, cache c' !! k = Some e -> cache (cs y) !! k = Some e) ->
    cs_inv d (mkSys c' (threads y) (loop_running y) (history y))).
  { intros c' Ht Hsub. apply (inv_move d y c' _ _ []); try done; [|by left].
    intros k e He. by apply Hcache, Hsub. }
  destruct a as [t k|t now|k|now| | |s]; simpl.
  - destruct (threads y !! t) eqn:Et; [done|]. case_bool_decide as Ek.
    + apply (inv_move d y _ _ _ [_]); try done.
      * apply inv_same_cache; try done. by repeat constructor.
      * intros t' p Hp. left. split; [done|]. constructor; [|done]. simpl. congruence.
      * split; [by left|done].
    + by apply (inv_goto d y (cs y) t _ []).
  - destruct (threads y !! t) eqn:Et; [|done]. by apply thread_step_inv.
  - apply (inv_move d y _ _ _ [_]); try done.
    + intros k' e. simpl. rewrite lookup_delete. case_decide; [done|]. intros He.
      apply (filled_app _ _ _ _ [_]); [by constructor|by apply Hcache].
    + intros t p Hp. left. split; [done|by constructor].
  - destruct (loop_running y) eqn:El; [|done]. apply Hset; [done|].
    intros k e. simpl. by intros [? _]%map_lookup_filter_Some.
  - destruct (stopped (cs y)); [|done]. by apply (inv_move d y _ _ _ []); [..|left|].
  - by apply Hset.
  - by apply Hset.
Qed.

Lemma cs_run_inv d (y : cs_sys) (acts : list cs_action) :
  cs_inv d y -> cs_inv d (cs_run y acts).
Proof.
  revert y. induction acts as [|a acts IH]; intros y Hinv; [done|].
  by apply IH, cs_step_inv.
Qed.

Lemma cs_init_inv (s : S) (d : Z) :
  cs_inv (if d <=? 0 then Minute else d) (cs_init s d).
Proof. split; simpl; done. Qed.

Lemma history_ok_at d (a b : list cs_event) ev :
  history_ok d (a ++ ev :: b) -> event_ok d ev b.
Proof. induction a as [|x a IH]; intros [H1 H2]; [done|by apply IH]. Qed.

(** ** Sequences of calls *)

Inductive cached_op :=
  | OpGet (k : string) (now1 now2 : Time)
  | OpInvalidate (k : string)
  | OpSweep (now : Time).

(** The answers of the calls, in order. *)
Fixpoint ops_run c (ops : list cached_op) : list (Z * option error) :=
  match ops with
  | [] => []
  | OpGet k now1 now2 :: ops =>
      let '(res, c') := cached_GetClientLimit c k now1 now2 in res :: ops_run c' ops
  | OpInvalidate k :: ops => ops_run (Invalidate c k) ops
  | OpSweep now :: ops => ops_run (sweep c now) ops
  end.

Definition is_sweep (o : cached_op) : bool :=
  match o with OpSweep _ => true | _ => false end.

(** The readings of the clock are made in order, the first one after [t]. *)
Fixpoint in_order (t : Time) (ops : list cached_op) : Prop :=
  match ops with
  | [] => True
  | OpGet _ now1 now2 :: ops => later t now1 /\ later now1 now2 /\ in_order now2 ops
  | OpInvalidate _ :: ops => in_order t ops
  | OpSweep now :: ops => later t now /\ in_order now ops
  end.

(** What a lookup finds at [now]. *)
Definition visible c k now : option Z :=
  match cache c !! k with
  | Some e => if fresh e now then Some (limit e) else None
  | None => None
  end.

(** Caches that differ in entries no lookup from [t] on will find. *)
Definition cache_equiv (t : Time) c c' : Prop :=
  store c = store c' /\ ttl c = ttl c' /\
  forall k now, later t now -> visible c k now = visible c' k now.

Lemma cache_equiv_later t t' c c' :
  later t t' -> cache_equiv t c c' -> cache_equiv t' c c'.
Proof.
  intros Hl (Hs & Ht & Hv). split; [done|]. split; [done|].
  intros k now H. apply Hv. by eapply later_trans.
Qed.

Lemma sweep_equiv c c' t now :
  cache_equiv t c c' -> later t now -> cache_equiv now (sweep c now) c'.
Proof.
  intros (Hs & Ht & Hv) Hl. split; [done|]. split; [done|].
  intros k now' Hl'. rewrite <- Hv by (by eapply later_trans). unfold visible. simpl.
  destruct (cache c !! k) as [e|] eqn:E.
  - destruct (time_after now (expiresAt e)) eqn:Ea.
    + rewrite map_lookup_filter_None_2 by (right; intros ?; rewrite E; intros [= <-]; simpl; congruence).
      unfold fresh. by rewrite (after_not_before now).
    + by rewrite (map_lookup_filter_Some_2 _ _ _ e).
  - rewrite map_lookup_filter_None_2; [done|by left].
Qed.

Lemma cached_get_visible c k now1 now2 :
  k <> "" ->
  cached_GetClientLimit c k now1 now2 =
  match visible c k now1 with
  | Some l => ((l, None), c)
  | None => query c k now2
  end.
Proof.
  intros Hk. unfold cached_GetClientLimit, visible.
  rewrite bool_decide_false by done.
  destruct (cache c !! k) as [e|]; [|done]. by destruct (fresh e now1).
Qed.

Lemma set_store_equiv t c c' s :
  cache_equiv t c c' -> cache_equiv t (set_store c s) (set_store c' s).
Proof. by intros (_ & Ht & Hv). Qed.

Lemma insert_equiv t c c' k e :
  cache_equiv t c c' ->
  cache_equiv t (set_cache c (<[k := e]> (cache c))) (set_cache c' (<[k := e]> (cache c'))).
Proof.
  intros (Hs & Ht & Hv). split; [done|]. split; [done|].
  intros k' now Hl. unfold visible. simpl. rewrite !lookup_insert.
  case_decide; [done|]. by apply Hv.
Qed.

Lemma get_equiv t c c' k now1 now2 :
  cache_equiv t c c' -> later t now1 ->
  let '(res, c1) := cached_GetClientLimit c k now1 now2 in
  let '(res', c1') := cached_GetClientLimit c' k now1 now2 in
  res = res' /\ cache_equiv t c1 c1'.
Proof.
  intros He Hl. destruct (decide (k = "")) as [->|Hk].
  { unfold cached_GetClientLimit. by rewrite bool_decide_true. }
  pose proof He as (Hs & Ht & Hv). rewrite !cached_get_visible, <- Hv by done.
  destruct (visible c k now1); [done|]. unfold query. rewrite <- Hs.
  destruct (store_GetClientLimit (store c) k) as [res s]. split; [done|].
  rewrite !fill_cache. simpl. rewrite <- Ht.
  pose proof (set_store_equiv t c c' s He) as He'.
  destruct (cached_value res); [|done]. by apply (insert_equiv t (set_store c s) (set_store c' s)).
Qed.

Lemma invalidate_equiv t c c' k :
  cache_equiv t c c' -> cache_equiv t (Invalidate c k) (Invalidate c' k).
Proof.
  intros (Hs & Ht & Hv). split; [done|]. split; [done|].
  intros k' now Hl. unfold visible. simpl. rewrite !lookup_delete.
  case_decide; [done|]. by apply Hv.
Qed.

Lemma ops_run_equiv t c c' (ops : list cached_op) :
  cache_equiv t c c' -> in_order t ops ->
  ops_run c ops = ops_run c' (filter (fun o => is_sweep o = false) ops).
Proof.
  revert t c c'. induction ops as [|[k now1 now2|k|now] ops IH]; intros t c c' He Hin; [done|..].
  - destruct Hin as (H1 & H2 & H3). rewrite filter_cons_True by done. simpl.
    pose proof (get_equiv t c c' k now1 now2 He H1) as Hg.
    destruct (cached_GetClientLimit c k now1 now2) as [res c1].
    destruct (cached_GetClientLimit c' k now1 now2) as [res' c1'].
    destruct Hg as [-> Hg]. f_equal. apply (IH now2); [|done].
    eapply cache_equiv_later; [|exact Hg]. by eapply later_trans.
  - rewrite filter_cons_True by done. apply (IH t); [|done]. by apply invalidate_equiv.
  - rewrite filter_cons_False by done. destruct Hin as [Hl Hin]. simpl.
    apply (IH now); [|done]. by eapply sweep_equiv.
Qed.

(** ** A single goroutine *)

(** Lookup, check, query and fill in a row, with nothing in between. *)
Definition call_alone (t : nat) k (n0 n1 n1' n2 : Time) : list cs_action :=
  [ACall t k; AStep t n0; AStep t n1; AStep t n1'; AStep t n2].

(** A step of a goroutine that is at [p]. *)
Lemma cs_step_at c (ths : gmap nat pc) run h t p now :
  let y := mkSys c (<[t := p]> ths) run h in
  cs_step y (AStep t now) = thread_step y t p now.
Proof. simpl. by rewrite lookup_insert_eq. Qed.

Lemma cs_step_gone c (ths : gmap nat pc) run h t now :
  let y := mkSys c (delete t ths) run h in cs_step y (AStep t now) = y.
Proof. simpl. by rewrite lookup_delete_eq. Qed.

(** ** Data that do not change *)

Definition fetch_is (f : string -> Z * option error) (ev : cs_event) : Prop :=
  match ev with EvFetch _ k r => r = f k | _ => True end.

(** The store is still [s], and every query was answered by [f]. *)
Definition static (s : S) (f : string -> Z * option error) (y : cs_sys) : Prop :=
  store (cs y) = s /\ Forall (fetch_is f) (history y).

Lemma static_init (s : S) f (d : Z) : static s f (cs_init s d).
Proof. by split. Qed.

Lemma fill_store c k (res : Z * option error) now : store (fill c k res now) = store c.
Proof. rewrite fill_cache. by destruct (cached_value res). Qed.

Lemma static_thread (s : S) f (y : cs_sys) t p now :
  (forall k, store_GetClientLimit s k = (f k, s)) ->
  static s f y -> static s f (thread_step y t p now).
Proof.
  intros Hf [Hs Hh]. destruct p as [k|k [e|]|k|k res]; simpl; try done.
  - destruct (fresh e now); [|done]. split; [done|]. by constructor.
  - rewrite Hs, Hf. split; [done|]. by constructor.
  - split; simpl; [by rewrite fill_store|]. constructor; [done|].
    apply Forall_app. split; [|done]. unfold fill_events.
    destruct (cached_value res); by repeat constructor.
Qed.

Lemma static_run (s : S) f (Hf : forall k, store_GetClientLimit s k = (f k, s))
    (acts : list cs_action) (y : cs_sys) :
  Forall (fun a => match a with AWrite _ => False | _ => True end) acts ->
  static s f y -> static s f (cs_run y acts).
Proof.
  intros Hro. revert y. induction Hro as [|a acts Ha _ IH]; intros y Hy; [done|].
  apply IH. pose proof Hy as [Hs Hh]. destruct a as [t k|t now|k|now| | |]; simpl; try done.
  - destruct (threads y !! t); [done|]. case_bool_decide; [|done].
    split; [done|by constructor].
  - destruct (threads y !! t); [by apply static_thread|done].
  - split; [done|by constructor].
  - by destruct (loop_running y).
  - by destruct (stopped (cs y)).
Qed.

Lemma static_fetch f (h : list cs_event) keep t k r Q :
  Forall (fetch_is f) h -> after keep (EvFetch t k r) Q h -> r = f k.
Proof.
  intros Hst (a & b & -> & _). apply Forall_app in Hst as [_ Hst].
  by apply Forall_cons in Hst as [Hr _].
Qed.

(** What the cache answers for a cached result. *)
Lemma cached_value_cases (res : Z * option error) v :
  cached_value res = Some v ->
  (v, None) = reply res \/
  ((v, @None error) = (0, None) /\
   exists l err, res = (l, Some err) /\ errors_Is err ErrNotFound = true).
Proof.
  destruct res as [l [err|]]; unfold cached_value, reply; simpl; [|by intros [= ->]; left].
  destruct (errors_Is err ErrNotFound) eqn:E; [|done].
  intros [= <-]. right. split; [done|]. by exists l, err.
Qed.
End CachedStore.

(** Where an answer comes from. *)
Lemma answer_provenance {S} `{!ClientStore S} (s : S) (d : Z)
    (acts : list (cs_action (S := S))) (t : nat) (k : string)
    (res : Z * option error) (now : Time) (a b : list cs_event) :
  0 < d -> history (cs_run (cs_init s d) acts) = a ++ EvAnswer t k res now :: b ->
  (k = "" /\ res = (0, Some err_invalid_api_key)) \/
  (exists r, after (not_answered t) (EvFetch t k r) (fun _ => True) b /\ res = reply r) \/
  (exists v now0, res = (v, None) /\ time_before now (time_add now0 d) = true /\
     after always (EvFill k v now0) (fetched k v) b).
Proof.
  intros Hd E.
  pose proof (cs_run_inv _ _ acts (cs_init_inv s d)) as Hinv.
  rewrite (proj2 (Z.leb_gt _ _) Hd) in Hinv.
  pose proof (inv_history _ _ Hinv) as Hh. rewrite E in Hh.
  apply history_ok_at in Hh. destruct Hh as [H|[H|(e & (n0 & Ee & Hf) & Hfr & ->)]];
    [by left|by right; left|right; right].
  exists (limit e), n0. unfold fresh in Hfr. by rewrite Ee in Hfr.
Qed.

(** An answer over data that do not change. *)
Lemma transparent_answer {S} `{!ClientStore S} (s : S) (d : Z)
    (f : string -> Z * option error) (acts : list (cs_action (S := S)))
    (t : nat) (k : string) (res : Z * option error) (now : Time) :
  (forall k, store_GetClientLimit s k = (f k, s)) ->
  Forall (fun a => match a with AWrite _ => False | _ => True end) acts ->
  EvAnswer t k res now ∈ history (cs_run (cs_init s d) acts) -> k <> "" ->
  res = reply (f k) \/
  (res = (0, None) /\ exists l err, f k = (l, Some err) /\ errors_Is err ErrNotFound = true).
Proof.
  intros Hf Hro Hin Hk. apply list_elem_of_split in Hin as (a & b & E).
  destruct (static_run s f Hf acts (cs_init s d) Hro (static_init s f d)) as [_ Hst].
  pose proof (inv_history _ _ (cs_run_inv _ _ acts (cs_init_inv s d))) as Hh.
  rewrite E in Hh, Hst. apply history_ok_at in Hh.
  apply Forall_app in Hst as [_ Hst]. apply Forall_cons in Hst as [_ Hst].
  destruct Hh as [[-> _]|[(r & Hr & ->)|(e & (n0 & _ & He) & _ & ->)]]; [done|..].
  - left. by rewrite (static_fetch f b _ _ _ _ _ Hst Hr).
  - destruct He as (a' & b' & -> & _ & (t' & r & Hr & Hv)).
    apply Forall_app in Hst as [_ Hst]. apply Forall_cons in Hst as [_ Hst].
    rewrite Forall_forall in Hst. pose proof (Hst _ Hr) as Er. simpl in Er. subst r.
    by apply cached_value_cases.
Qed.

(** ** A call overtaken by an invalidation *)

Section Race.
Context {S : Type} `{!ClientStore S}.
Implicit Types (y : cs_sys (S := S)) (acts : list (cs_action (S := S))).








#[local] Arguments cs_step : simpl never.




End Race.

#[local] Arguments cs_step : simpl never.

(** ** Properties *)

(** C31: provenance and bounded staleness.  In every interleaving of concurrent
    calls, invalidations, sweeps and changes of the underlying data, an
    answer is either the answer of a query made by that very call, or a
    value that the store returned for the same key and that was written to
    the cache less than one time to live before the answer; the empty key is
    rejected. *)
Theorem cached_store_staleness {S} `{!ClientStore S} (s : S) (d : Z)
    (acts : list (cs_action (S := S))) (t : nat) (k : string)
    (res : Z * option error) (now : Time) (a b : list cs_event) :
  0 < d -> history (cs_run (cs_init s d) acts) = a ++ EvAnswer t k res now :: b ->
  (k = "" /\ res = (0, Some err_invalid_api_key)) \/
  (exists r, after (not_answered t) (EvFetch t k r) (fun _ => True) b /\ res = reply r) \/
  (exists v now0, res = (v, None) /\ time_before now (time_add now0 d) = true /\
     after always (EvFill k v now0) (fetched k v) b).
Proof. apply answer_provenance. Qed.

Lemma cached_store_staleness_witness :
  let acts := call_alone 0 "k" (clock 0 0) (clock 0 0) (clock 0 0) (clock 0 1) ++
              [ACall 1 "k"; AStep 1 (clock 0 2); AStep 1 (clock 0 3)] in
  exists a b,
    history (cs_run (cs_init (<["k" := 7]> ∅ : gmap string Z) Second) acts) =
      a ++ EvAnswer 1 "k" (7, None) (clock 0 3) :: b /\
    ((("k" : string) = "" /\ (7, None) = (0, Some err_invalid_api_key)) \/
     (exists r, after (not_answered 1) (EvFetch 1 "k" r) (fun _ => True) b /\ (7, None) = reply r) \/
     (exists v now0, (7, None) = (v, @None error) /\
        time_before (clock 0 3) (time_add now0 Second) = true /\
        after always (EvFill "k" v now0) (fetched "k" v) b)).
Proof.
  intros acts. exists []. eexists. split; [vm_compute; reflexivity|].
  apply (cached_store_staleness (<["k" := 7]> ∅ : gmap string Z) Second acts 1 "k"
           (7, None) (clock 0 3) []).
  - unfold Second. lia.
  - vm_compute. reflexivity.
Defined.

(** Transparency.  While the data do not change, every answer of every
    interleaving is the answer the store would give, with one exception: a
    client the store does not know is answered with [ErrNotFound] by the
    query and with a zero limit and no error from the cache. *)
Theorem cached_store_transparent {S} `{!ClientStore S} (s : S) (d : Z)
    (f : string -> Z * option error) (acts : list (cs_action (S := S)))
    (t : nat) (k : string) (res : Z * option error) (now : Time) :
  (forall k, store_GetClientLimit s k = (f k, s)) ->
  Forall (fun a => match a with AWrite _ => False | _ => True end) acts ->
  EvAnswer t k res now ∈ history (cs_run (cs_init s d) acts) -> k <> "" ->
  res = reply (f k) \/
  (res = (0, None) /\ exists l err, f k = (l, Some err) /\ errors_Is err ErrNotFound = true).
Proof. apply transparent_answer. Qed.

Lemma cached_store_transparent_witness :
  let f k := pg_GetClientLimit (<["k" := 7]> ∅ : gmap string Z) k in
  (7, None) = reply (f "k") \/
  ((7, @None error) = (0, None) /\
   exists l err, f "k" = (l, Some err) /\ errors_Is err ErrNotFound = true).
Proof.
  intros f.
  apply (cached_store_transparent (<["k" := 7]> ∅ : gmap string Z) Second f
           (call_alone 0 "k" (clock 0 0) (clock 0 0) (clock 0 0) (clock 0 1)) 0 "k"
           (7, None) (clock 0 1)).
  - reflexivity.
  - repeat constructor.
  - vm_compute. left.
  - discriminate.
Defined.

(** The pieces compose.  A goroutine whose steps run with nothing in
    between does what the sequential [cached_GetClientLimit] does: same
    answer, same store, same cache, and it leaves no goroutine behind. *)
Theorem cached_store_call_alone {S} `{!ClientStore S} (y : cs_sys (S := S)) (t : nat)
    (k : string) (n0 n1 n1' n2 : Time) :
  threads y !! t = None -> k <> "" ->
  let y' := cs_run y (call_alone t k n0 n1 n1' n2) in
  let seq := cached_GetClientLimit (cs y) k n1 n2 in
  threads y' = threads y /\ cs y' = snd seq /\
  exists n h, history y' = EvAnswer t k (fst seq) n :: h ++ history y.
Proof.
  intros Ht Hk. unfold call_alone, cs_run, cached_GetClientLimit. cbn [fold_left].
  assert (Hcall : cs_step y (ACall t k) =
    mkSys (cs y) (<[t := PLookup k]> (threads y)) (loop_running y) (history y))
    by (unfold cs_step; by rewrite Ht, bool_decide_false).
  rewrite Hcall, (bool_decide_false (k = "")) by done.
  rewrite cs_step_at. cbn.
  rewrite cs_step_at. cbn.
  assert (Hret : forall p : pc, delete t (<[t := p]> (threads y)) = threads y)
    by (intros; by rewrite delete_insert_eq, delete_id).
  destruct (cache (cs y) !! k) as [e|]; [destruct (fresh e n1)|].
  1: { rewrite !cs_step_gone. simpl.
       rewrite insert_insert_eq, Hret. split_and!; [done..|]. by eexists _, []. }
  all: rewrite cs_step_at; cbn; unfold query;
    destruct (store_GetClientLimit (store (cs y)) k) as [res s];
    rewrite cs_step_at; cbn;
    rewrite !insert_insert_eq, Hret; split_and!; [done..|];
    eexists _, (_ ++ [_]); by rewrite <- app_assoc.
Qed.

Lemma cached_store_call_alone_witness :
  let y := cs_run (cs_init (<["k" := 7]> ∅ : gmap string Z) Second)
                  (call_alone 3 "k" (clock 0 1) (clock 0 2) (clock 0 3) (clock 0 4)) in
  threads y = ∅.
Proof.
  apply (cached_store_call_alone (cs_init (<["k" := 7]> ∅ : gmap string Z) Second) 3 "k"
           (clock 0 1) (clock 0 2) (clock 0 3) (clock 0 4)).
  - reflexivity.
  - discriminate.
Defined.

(** Caching.  After a call for a key that is not empty, a second call made
    before the time to live has passed since the first one stored its entry
    is answered without a query and changes nothing: with the limit of the
    first call, or with a zero limit and no error when the first call
    reported an unknown client.  Once the entry has expired, after
    [Invalidate], or when the first call failed for another reason, the
    second call queries the store. *)
Theorem cached_store_second_call {S} `{!ClientStore S} (c : CachedStore S) (k : string)
    (now1 now2 now3 now4 : Time) :
  k <> "" -> visible c k now1 = None ->
  let res := fst (store_GetClientLimit (store c) k) in
  let c' := snd (cached_GetClientLimit c k now1 now2) in
  fst (cached_GetClientLimit c k now1 now2) = reply res /\
  (forall v, cached_value res = Some v ->
     cached_GetClientLimit c' k now3 now4 =
     if time_before now3 (time_add now2 (ttl c)) then ((v, None), c')
     else query c' k now4) /\
  (cached_value res = None -> visible c k now3 = None ->
     cached_GetClientLimit c' k now3 now4 = query c' k now4) /\
  cached_GetClientLimit (Invalidate c' k) k now3 now4 = query (Invalidate c' k) k now4.
Proof.
  intros Hk Hmiss res c'. subst c'. rewrite (cached_get_visible c), Hmiss by done.
  assert (Eq : query c k now2 =
    (reply res, fill (set_store c (snd (store_GetClientLimit (store c) k))) k res now2))
    by (unfold query; subst res; by destruct (store_GetClientLimit (store c) k)).
  rewrite Eq. simpl. clearbody res. split; [done|]. rewrite !cached_get_visible by done. rewrite fill_cache. split_and!.
  - intros v Ev. rewrite Ev. unfold visible, fresh. simpl. rewrite lookup_insert_eq. simpl.
    by destruct (time_before _ _).
  - intros Ev Hv. rewrite Ev. unfold visible in *. simpl. by rewrite Hv.
  - unfold visible. simpl. by rewrite lookup_delete_eq.
Qed.

Lemma cached_store_second_call_witness :
  let c := NewCachedStore (<["k" := 7]> ∅ : gmap string Z) Second in
  let c' := snd (cached_GetClientLimit c "k" (clock 0 0) (clock 0 1)) in
  cached_GetClientLimit c' "k" (clock 0 2) (clock 0 3) = ((7, None), c').
Proof.
  intros c c'.
  assert (Hmiss : visible c "k" (clock 0 0) = None) by reflexivity.
  destruct (cached_store_second_call c "k" (clock 0 0) (clock 0 1) (clock 0 2) (clock 0 3)
              ltac:(discriminate) Hmiss) as (_ & H & _).
  exact (H 7 eq_refl).
Defined.

(** The cleanup is unobservable.  Removing the sweeps of the cleanup
    goroutine from a sequence of calls changes none of the answers. *)
Theorem cached_store_sweep {S} `{!ClientStore S} (c : CachedStore S) (t : Time)
    (ops : list cached_op) :
  in_order t ops ->
  ops_run c ops = ops_run c (filter (fun o => is_sweep o = false) ops).
Proof. intros Hin. by apply (ops_run_equiv t). Qed.

Lemma cached_store_sweep_witness :
  let c := NewCachedStore (<["k" := 7]> ∅ : gmap string Z) 5 in
  ops_run c [OpGet "k" (clock 0 0) (clock 0 1); OpSweep (clock 0 9);
             OpGet "k" (clock 0 9) (clock 0 9)] =
  ops_run c [OpGet "k" (clock 0 0) (clock 0 1); OpGet "k" (clock 0 9) (clock 0 9)].
Proof.
  intros c. apply (cached_store_sweep c (clock 0 0)).
  simpl. unfold later. repeat split; simpl; try lia; do 2 eexists; repeat split; lia.
Defined.


