(* ===== verification/State.v ===== *)
(** * The state behind the handlers, by components

    Each handler is written against the components of the program's state it
    uses: [Component A W] says that a state [W] holds an [A] that can be read
    and replaced, [Independent] that replacing one component leaves another
    alone.  The gateway's state is a record with an instance per component. *)
From S2P Require Import Prelude GoTime.

Class Component (A W : Type) := {
  get : W -> A;
  put : A -> W -> W;
  get_put a w : get (put a w) = a;
}.

Class Independent (A B W : Type) `{!Component A W, !Component B W} :=
  get_put_other (a : A) (w : W) : get (A := B) (put a w) = get (A := B) w.

Definition modify {A W} `{!Component A W} (f : A -> A) (w : W) : W := put (f (get w)) w.

Lemma get_modify {A W} `{!Component A W} (f : A -> A) (w : W) :
  get (modify f w) = f (get w).
Proof. apply get_put. Qed.

Lemma get_modify_other {A B W} `{!Component A W, !Component B W, !Independent A B W}
    (f : A -> A) (w : W) : get (A := B) (modify f w) = get (A := B) w.
Proof. apply get_put_other. Qed.

(** ** The clock

    [timeline] is the sequence of readings of the clock in this execution,
    [ticks] the number of readings already made. *)
Record Clock := mkClock { timeline : nat -> Time; ticks : nat }.

(** Make [n] readings. *)
Definition read_clock {W} `{!Component Clock W} (n : nat) (w : W) : (nat -> Time) * W :=
  let c : Clock := get w in
  (fun i => timeline c (ticks c + i)%nat, put (mkClock (timeline c) (ticks c + n)) w).

Lemma read_clock_other {B W} `{!Component Clock W, !Component B W, !Independent Clock B W}
    (n : nat) (w : W) : get (A := B) (snd (read_clock n w)) = get (A := B) w.
Proof. apply get_put_other. Qed.

(** Read every component through the replacements of the others. *)
Ltac simpl_state :=
  repeat first
    [ rewrite get_put | rewrite get_put_other
    | rewrite get_modify | rewrite get_modify_other ];
  cbn [timeline ticks].
