(* ===== verification/Metrics.v ===== *)
(** * [internal/metrics/metrics.go]

    The label [SanitizePath] gives to a request path, and the middleware
    that counts requests.  The collectors of the Prometheus client are
    modelled by what they hold: the count of each label tuple, the
    observations, the gauge. *)
From S2P Require Import Prelude GoTime Float64 GoString Utf8 Http State.

(** ** Path labels *)

Definition isHexDigit (c : Z) : bool :=
  (48 <=? c) && (c <=? 57) || (97 <=? c) && (c <=? 102) || (65 <=? c) && (c <=? 70).

Definition isNumeric (s : string) : bool :=
  negb (bool_decide (s = "")) && forallb (fun c => negb ((c <? 48) || (57 <? c))) (runes s).

Definition isUUID (s : string) : bool :=
  (String.length s =? 36)%nat &&
  forallb (fun ic =>
    if bool_decide (ic.1 = 8 \/ ic.1 = 13 \/ ic.1 = 18 \/ ic.1 = 23)%nat then ic.2 =? 45
    else isHexDigit ic.2) (range s).

Definition isHexID (s : string) : bool :=
  negb ((String.length s <? 8)%nat || (64 <? String.length s)%nat) &&
  forallb isHexDigit (runes s).

(** The loop of [splitPath]: the parts so far and the current one. *)
Definition split_step (st : list string * string) (c : Z) : list string * string :=
  let '(parts, current) := st in
  if c =? 47 then
    if bool_decide (current = "") then (parts, current) else (parts ++ [current], "")
  else (parts, current +:+ encode_rune c).

Definition splitPath (path : string) : list string :=
  let '(parts, current) := fold_left split_step (runes path) ([], "") in
  if bool_decide (current = "") then parts else parts ++ [current].

Definition joinPath (parts : list string) : string :=
  let sb := foldr (fun p s => "/" +:+ p +:+ s) "" parts in
  if bool_decide (sb = "") then "/" else sb.

Definition is_id (part : string) : bool := isNumeric part || isUUID part || isHexID part.

Definition SanitizePath (path : string) : string :=
  if bool_decide (path = "") then "/"
  else joinPath ((fun part => if is_id part then "{id}" else part) <$> splitPath path).

Example sanitize_users : SanitizePath "/api//users/12345/" = "/api/users/{id}".
Proof. reflexivity. Qed.
Example sanitize_uuid :
  SanitizePath "/u/123e4567-e89b-12d3-a456-426614174000/deadbeef" = "/u/{id}/{id}".
Proof. reflexivity. Qed.

(** ** The same on runes *)

Definition rune_step (st : list (list Z) * list Z) (c : Z) : list (list Z) * list Z :=
  let '(parts, current) := st in
  if c =? 47 then
    if bool_decide (current = []) then (parts, current) else (parts ++ [current], [])
  else (parts, current ++ [c]).

Definition finish (st : list (list Z) * list Z) : list (list Z) :=
  if bool_decide (st.2 = []) then st.1 else st.1 ++ [st.2].

Definition split_runes (rs : list Z) : list (list Z) := finish (fold_left rune_step rs ([], [])).

(** A segment: not empty, no slash, valid runes. *)
Definition segment (rs : list Z) : Prop :=
  rs <> [] /\ Forall (fun c => c <> 47 /\ valid_rune c = true) rs.

Lemma split_step_encode (st : list (list Z) * list Z) (c : Z) :
  split_step (encode <$> st.1, encode st.2) c =
  (encode <$> (rune_step st c).1, encode (rune_step st c).2).
Proof.
  destruct st as [parts current]. simpl. destruct (c =? 47).
  - destruct (decide (current = [])) as [->|H].
    + done.
    + rewrite !bool_decide_false by (done || by rewrite encode_nil_iff). simpl.
      by rewrite fmap_app.
  - simpl. rewrite encode_app. simpl. by rewrite string_app_nil_r.
Qed.

Lemma split_fold_encode (rs : list Z) (st : list (list Z) * list Z) :
  fold_left split_step rs (encode <$> st.1, encode st.2) =
  (encode <$> (fold_left rune_step rs st).1, encode (fold_left rune_step rs st).2).
Proof.
  revert st. induction rs as [|c rs IH]; intros st; [done|]. cbn [fold_left].
  by rewrite split_step_encode, IH.
Qed.

Lemma splitPath_runes (path : string) : splitPath path = encode <$> split_runes (runes path).
Proof.
  unfold splitPath, split_runes, finish.
  pose proof (split_fold_encode (runes path) ([], [])) as E. simpl in E. rewrite E.
  destruct (fold_left rune_step (runes path) ([], [])) as [parts current]. simpl.
  destruct (decide (current = [])) as [->|H]; [done|].
  rewrite !bool_decide_false by (done || by rewrite encode_nil_iff). by rewrite fmap_app.
Qed.

Definition ok_state (st : list (list Z) * list Z) : Prop :=
  Forall segment st.1 /\ Forall (fun c => c <> 47 /\ valid_rune c = true) st.2.

Lemma rune_step_ok (st : list (list Z) * list Z) (c : Z) :
  valid_rune c = true -> ok_state st -> ok_state (rune_step st c).
Proof.
  intros Hc [Hp Hcur]. destruct st as [parts current]. simpl in *.
  destruct (c =? 47) eqn:E; bool_to_prop.
  - destruct (decide (current = [])) as [->|H].
    + by rewrite bool_decide_true.
    + rewrite bool_decide_false by done. split; simpl; [|constructor].
      apply Forall_app_2; [done|]. by repeat constructor.
  - split; simpl; [done|]. apply Forall_app_2; [done|]. by repeat constructor.
Qed.

Lemma split_runes_segments (rs : list Z) :
  Forall (fun r => valid_rune r = true) rs -> Forall segment (split_runes rs).
Proof.
  intros Hrs.
  assert (Hok : ok_state (fold_left rune_step rs ([], []))).
  { assert (H0 : ok_state ([], [])) by by split. revert H0.
    generalize (@nil (list Z), @nil Z). induction Hrs as [|r rs Hr _ IH]; intros st Hst; [done|].
    by apply IH, rune_step_ok. }
  unfold split_runes, finish. destruct Hok as [Hp Hc].
  destruct (decide ((fold_left rune_step rs ([], [])).2 = [])) as [E|E].
  - by rewrite bool_decide_true.
  - rewrite bool_decide_false by done. apply Forall_app_2; [done|]. by repeat constructor.
Qed.

(** Splitting a joined path gives the segments back. *)
Lemma fold_segment (seg : list Z) (parts : list (list Z)) (current : list Z) :
  Forall (fun c => c <> 47 /\ valid_rune c = true) seg ->
  fold_left rune_step seg (parts, current) = (parts, current ++ seg).
Proof.
  intros H. revert current. induction H as [|c seg [Hc _] _ IH]; intros current; simpl.
  { by rewrite app_nil_r. }
  rewrite (proj2 (Z.eqb_neq _ _) Hc), IH. by rewrite <- app_assoc.
Qed.

Definition join_runes (segs : list (list Z)) : list Z := segs ≫= cons 47.

Lemma fold_join (segs : list (list Z)) (st : list (list Z) * list Z) :
  Forall segment segs ->
  finish (fold_left rune_step (join_runes segs) st) =
  match segs with [] => finish st | _ => finish st ++ segs end.
Proof.
  intros H. revert st. induction H as [|seg segs [Hne Hseg] _ IH]; intros st; [done|].
  unfold join_runes. simpl. rewrite fold_left_app.
  assert (E : rune_step st 47 = (finish st, [])).
  { unfold finish. destruct st as [parts current]. simpl.
    destruct (decide (current = [])) as [->|Hc]; [done|]. by rewrite bool_decide_false. }
  change (47 :: seg) with ([47] ++ seg). simpl. rewrite E, fold_segment by done.
  fold (join_runes segs). rewrite IH. unfold finish at 1. simpl.
  destruct segs as [|seg' segs]; unfold finish; simpl;
    rewrite (bool_decide_false (seg = [])) by done; [done|]. by rewrite <- app_assoc.
Qed.

Lemma split_join_runes (segs : list (list Z)) :
  Forall segment segs -> split_runes (join_runes segs) = segs.
Proof. intros H. unfold split_runes. rewrite fold_join by done. by destruct segs. Qed.

Lemma joinPath_encode (segs : list (list Z)) :
  segs <> [] -> joinPath (encode <$> segs) = encode (join_runes segs).
Proof.
  intros Hne.
  assert (E : foldr (fun p s => "/" +:+ p +:+ s) "" (encode <$> segs) = encode (join_runes segs)).
  { clear Hne. induction segs as [|seg segs IH]; [done|].
    rewrite fmap_cons. cbn [foldr]. rewrite IH.
    change (join_runes (seg :: segs)) with ((47 :: seg) ++ join_runes segs).
    by rewrite encode_app. }
  unfold joinPath. rewrite E, bool_decide_false; [done|].
  rewrite encode_nil_iff. by destruct segs.
Qed.

Lemma join_runes_valid (segs : list (list Z)) :
  Forall segment segs -> Forall (fun r => valid_rune r = true) (join_runes segs).
Proof.
  induction 1 as [|seg segs [_ Hseg] _ IH]; [constructor|]. unfold join_runes. simpl.
  constructor; [done|]. apply Forall_app_2; [|done].
  eapply Forall_impl; [exact Hseg|]. by intros c [_ Hc].
Qed.

Lemma splitPath_joinPath (segs : list (list Z)) :
  segs <> [] -> Forall segment segs ->
  splitPath (joinPath (encode <$> segs)) = encode <$> segs.
Proof.
  intros Hne Hs. rewrite joinPath_encode, splitPath_runes by done.
  rewrite runes_encode by by apply join_runes_valid. by rewrite split_join_runes.
Qed.

(** *** Sanitizing *)

Definition sanitize_seg (seg : list Z) : list Z :=
  if is_id (encode seg) then [123; 105; 100; 125] else seg.

Definition sanitize_part (part : string) : string := if is_id part then "{id}" else part.

Lemma sanitize_part_encode (seg : list Z) :
  sanitize_part (encode seg) = encode (sanitize_seg seg).
Proof. unfold sanitize_part, sanitize_seg. by destruct (is_id (encode seg)). Qed.

Lemma sanitize_part_not_id (part : string) : is_id (sanitize_part part) = false.
Proof. unfold sanitize_part. destruct (is_id part) eqn:E; [reflexivity|exact E]. Qed.

Lemma sanitize_part_idem (part : string) : sanitize_part (sanitize_part part) = sanitize_part part.
Proof. unfold sanitize_part at 1. by rewrite sanitize_part_not_id. Qed.

Lemma sanitize_seg_segment (seg : list Z) : segment seg -> segment (sanitize_seg seg).
Proof.
  intros H. unfold sanitize_seg. destruct (is_id _); [|done].
  split; [done|]. repeat constructor; lia.
Qed.

Lemma sanitize_join (p : string) :
  SanitizePath p = joinPath (sanitize_part <$> splitPath p).
Proof.
  unfold SanitizePath. destruct (decide (p = "")) as [->|H]; [done|].
  by rewrite bool_decide_false.
Qed.

Lemma splitPath_segments (p : string) :
  exists segs, splitPath p = encode <$> segs /\ Forall segment segs.
Proof.
  exists (split_runes (runes p)). split; [apply splitPath_runes|].
  apply split_runes_segments, runes_valid.
Qed.

Lemma split_sanitize (p : string) :
  splitPath (SanitizePath p) = sanitize_part <$> splitPath p.
Proof.
  rewrite sanitize_join. destruct (splitPath_segments p) as (segs & -> & Hs).
  assert (E : sanitize_part <$> (encode <$> segs) = encode <$> (sanitize_seg <$> segs)).
  { clear Hs. induction segs as [|seg segs IH]; [done|].
    rewrite !fmap_cons, IH. by rewrite sanitize_part_encode. }
  rewrite E. destruct segs as [|seg segs]; [done|].
  apply splitPath_joinPath; [done|]. apply Forall_fmap.
  eapply Forall_impl; [exact Hs|]. apply sanitize_seg_segment.
Qed.

(** ** The collectors *)

Record Metrics := mkMetrics {
  RequestsTotal : gmap (string * string * string) Z;      (* method, path, status *)
  RequestDuration : list (string * string * float64);     (* the observations *)
  ActiveRequests : Z;
  RateLimitedTotal : gmap (string * string) Z;            (* method, path *)
}.

Definition Metrics_New : Metrics := mkMetrics ∅ [] 0 ∅.

(** ** [New]

    A registry is a parameter: [Register] gives an error for a collector it
    refuses, and the factory of [promauto] panics with that error. *)
Definition namespace : string := "api_gateway".
Definition subsystem : string := "http".

Inductive collector_kind := CounterVec | HistogramVec (buckets : list float64) | Gauge.

(** The options and the labels of a collector. *)
Record Collector := mkCollector {
  co_Namespace : string; co_Subsystem : string; co_Name : string; co_Help : string;
  co_kind : collector_kind; co_labels : list string;
}.

(** [Config]; no code reads [mc_Enabled]. *)
Record MetricsConfig (R : Type) := mkMetricsConfig {
  mc_Enabled : bool; mc_Buckets : list float64; mc_Namespace : string; mc_Registerer : option R;
}.
Arguments mkMetricsConfig {R}. Arguments mc_Enabled {R}. Arguments mc_Buckets {R}.
Arguments mc_Namespace {R}. Arguments mc_Registerer {R}.

Definition default_buckets : list float64 :=
  (fun ms => f64_div (f64_of_Z ms) (f64_of_Z 1000)) <$>
  [5; 10; 25; 50; 100; 250; 500; 1000; 2500; 5000; 10000].

(** The collectors [New] makes, in order. *)
Definition collectors (ns : string) (buckets : list float64) : list Collector :=
  [mkCollector ns subsystem "requests_total" "Total number of HTTP requests processed"
     CounterVec ["method"; "path"; "status"];
   mkCollector ns subsystem "request_duration_seconds" "HTTP request latency in seconds"
     (HistogramVec buckets) ["method"; "path"];
   mkCollector ns subsystem "active_requests" "Number of HTTP requests currently being processed"
     Gauge [];
   mkCollector ns subsystem "rate_limited_total"
     "Total number of requests rejected due to rate limiting" CounterVec ["method"; "path"]].

Section New.
Context {R : Type} (Register : Collector -> R -> option string * R) (DefaultRegisterer : R).

Fixpoint must_register (cs : list Collector) (reg : R) : outcome unit * R :=
  match cs with
  | [] => (Return tt, reg)
  | c :: cs => match Register c reg with
               | (Some err, reg) => (Panic err, reg)
               | (None, reg) => must_register cs reg
               end
  end.

Definition New (cfg : MetricsConfig R) : outcome Metrics * R :=
  let ns := if bool_decide (mc_Namespace cfg = "") then namespace else mc_Namespace cfg in
  let reg := default DefaultRegisterer (mc_Registerer cfg) in
  let buckets := if bool_decide (mc_Buckets cfg = []) then default_buckets else mc_Buckets cfg in
  match must_register (collectors ns buckets) reg with
  | (Panic err, reg) => (Panic err, reg)
  | (Return _, reg) => (Return Metrics_New, reg)
  end.

(** [New] returns the empty collectors, registered, when the registry takes
    them all, and panics with the first refusal; whether metrics are enabled
    does not matter. *)
Lemma new_cases (cfg : MetricsConfig R) :
  match New cfg with
  | (Return m, _) => m = Metrics_New
  | (Panic err, _) => exists c reg, fst (Register c reg) = Some err
  end /\
  New (mkMetricsConfig (negb (mc_Enabled cfg)) (mc_Buckets cfg) (mc_Namespace cfg)
         (mc_Registerer cfg)) = New cfg.
Proof.
  split; [|done]. unfold New. set (reg := default _ _). set (cs := collectors _ _).
  assert (H : forall cs reg err reg', must_register cs reg = (Panic err, reg') ->
    exists c r, fst (Register c r) = Some err).
  { clear. intros cs. induction cs as [|c cs IH]; intros reg err reg'; simpl; [done|].
    destruct (Register c reg) as [[e|] r] eqn:E; [|apply IH].
    intros [= <- <-]. exists c, reg. by rewrite E. }
  destruct (must_register cs reg) as [[u|err] reg'] eqn:E; [done|]. by eapply H.
Qed.
End New.

(** [Inc] of the counter with the given labels. *)
Definition counter_Inc {K} `{Countable K} (k : K) (m : gmap K Z) : gmap K Z :=
  <[k := default 0 (m !! k) + 1]> m.

Definition gauge_Add (d : Z) (m : Metrics) : Metrics :=
  mkMetrics (RequestsTotal m) (RequestDuration m) (ActiveRequests m + d) (RateLimitedTotal m).

Definition count_request (method path status : string) (m : Metrics) : Metrics :=
  mkMetrics (counter_Inc (method, path, status) (RequestsTotal m)) (RequestDuration m)
    (ActiveRequests m) (RateLimitedTotal m).

Definition observe_duration (method path : string) (d : float64) (m : Metrics) : Metrics :=
  mkMetrics (RequestsTotal m) (RequestDuration m ++ [(method, path, d)])
    (ActiveRequests m) (RateLimitedTotal m).

Definition count_limited (method path : string) (m : Metrics) : Metrics :=
  mkMetrics (RequestsTotal m) (RequestDuration m) (ActiveRequests m)
    (counter_Inc (method, path) (RateLimitedTotal m)).

Section Middleware.
Context {W : Type} `{!Component Metrics W, !Component Clock W, !Independent Clock Metrics W,
  !Independent Metrics Clock W}.

(** [Middleware]; [enabled] is false for a nil [*Metrics]. *)
Definition metrics_Middleware (enabled : bool) (next : Handler W) : Handler W :=
  fun r w s =>
    if negb enabled then next r w s
    else
      let '(rd, s) := read_clock 1 s in
      let start := rd 0%nat in
      let s := modify (gauge_Add 1) s in
      let '(out, w', s) := next r w s in
      match out with
      | Panic msg => (Panic msg, w', s)
      | Return _ =>
          let '(rd, s) := read_clock 1 s in
          let duration := dur_seconds (time_sub (rd 0%nat) start) in
          let path := SanitizePath (rq_Path r) in
          let s := modify (count_request (rq_Method r) path (Itoa (wrapper_status w w'))) s in
          let s := modify (observe_duration (rq_Method r) path duration) s in
          (Return tt, w', modify (gauge_Add (-1)) s)
      end.

(** The metrics after a request whose handler leaves [m] and [w']. *)
Lemma metrics_Middleware_return (next : Handler W) r w s s1 w' :
  next r w (modify (gauge_Add 1) (snd (read_clock 1 s))) = (Return tt, w', s1) ->
  exists s', metrics_Middleware true next r w s = (Return tt, w', s') /\
    let m := get s1 in let m' : Metrics := get s' in
    let path := SanitizePath (rq_Path r) in
    ActiveRequests m' = ActiveRequests m - 1 /\
    RateLimitedTotal m' = RateLimitedTotal m /\
    RequestsTotal m' =
      counter_Inc (rq_Method r, path, Itoa (wrapper_status w w')) (RequestsTotal m) /\
    exists d, RequestDuration m' = RequestDuration m ++ [(rq_Method r, path, d)].
Proof.
  intros Hn. unfold metrics_Middleware. cbn [negb]. unfold read_clock at 1. cbv zeta.
  unfold read_clock in Hn. cbn [snd] in Hn. rewrite Hn. unfold read_clock.
  eexists. split; [done|]. rewrite !get_modify, get_put_other. simpl.
  split; [lia|]. split; [done|]. split; [done|]. by eexists.
Qed.
End Middleware.

(** ** Properties *)

(** Idempotence.  The label of a label is the label itself. *)
Theorem sanitize_path_idempotent (p : string) : SanitizePath (SanitizePath p) = SanitizePath p.
Proof.
  rewrite (sanitize_join (SanitizePath p)), split_sanitize, (sanitize_join p).
  f_equal. induction (splitPath p) as [|x l IH]; [done|].
  rewrite !fmap_cons, IH. by rewrite sanitize_part_idem.
Qed.

(** C34: labels.  For every path, of whatever bytes, the segments of its label
    are the segments of the path with the numeric, UUID and hexadecimal ones
    replaced; no such segment is left; and two paths get the same label
    exactly when they agree on all the other segments and on the places of
    the replaced ones. *)
Theorem sanitize_path_labels (p q : string) :
  splitPath (SanitizePath p) = sanitize_part <$> splitPath p /\
  Forall (fun part => is_id part = false) (splitPath (SanitizePath p)) /\
  (SanitizePath p = SanitizePath q <->
   sanitize_part <$> splitPath p = sanitize_part <$> splitPath q).
Proof.
  split; [apply split_sanitize|]. split.
  - rewrite split_sanitize. apply Forall_fmap, Forall_true. apply sanitize_part_not_id.
  - split; [|intros E; by rewrite !sanitize_join, E].
    intros E. by rewrite <- !split_sanitize, E.
Qed.
