(* ===== verification/Middleware.v ===== *)
(** * [internal/handler/middleware.go]

    The rate-limit, recovery and logging middleware, over any state that has
    the components they use: the limiter (any instance of [Limiter]), the
    store of client limits, the map of synced limits, the metrics, the log
    and the clock. *)
From S2P Require Import Prelude GoTime Float64 GoError GoString Http State Metrics.
From S2P Require Import Limiter CachedStore.

Definition APIKeyHeader : string := "X-API-Key".

(** The interface [ClientStore] of this package; [CachedStore] satisfies it
    with the two readings of the clock it makes. *)
Class LimitStore (S : Type) := {
  store_limit : S -> string -> readings -> (Z * option error) * S;
}.

#[export] Instance cached_limit_store {S} `{!ClientStore S} : LimitStore (CachedStore S) := {
  store_limit c k rd := cached_GetClientLimit c k (rd 0%nat) (rd 1%nat);
}.

(** [RateLimitConfig]; [Storage] and [Metrics] may be nil. *)
Record RateLimitConfig := mkRateLimitConfig {
  DefaultLimit : Z;
  has_Storage : bool;
  has_Metrics : bool;
}.

(** The log: level, message, attributes. *)
Inductive attr := AStr (k v : string) | AInt (k : string) (v : Z) | ABool (k : string) (v : bool).
Record log_line := mkLog { level : string; msg : string; attrs : list attr }.
Abbreviation Log := (list log_line).

Definition maskAPIKey (apiKey : string) : string :=
  if bool_decide (apiKey = "") then ""
  else if (String.length apiKey <=? 8)%nat then "****"
  else slice 0 4 apiKey +:+ "****" +:+ str_drop (String.length apiKey - 4) apiKey.

Definition resolveClientID (r : HttpRequest) : string :=
  let apiKey := header_Get (rq_Header r) APIKeyHeader in
  if bool_decide (apiKey <> "") then apiKey
  else match SplitHostPort (rq_RemoteAddr r) with
       | inl (host, _) => host
       | inr _ => rq_RemoteAddr r
       end.

Definition writeProblemDetails (w : ResponseWriter) (status : Z) (pd : ProblemDetails)
  : ResponseWriter :=
  let w := set_header w "Content-Type" "application/problem+json" in
  let w := if status =? StatusTooManyRequests then set_header w "Retry-After" "1" else w in
  let w := WriteHeader w status in
  Write w (JSONProblem pd).

Definition too_many_requests (r : HttpRequest) : ProblemDetails :=
  mkProblem "https://tools.ietf.org/html/rfc6585#section-4" "Too Many Requests"
    StatusTooManyRequests "Rate limit quota exceeded. Try again in 1 second." (rq_Path r).

Definition internal_error (r : HttpRequest) : ProblemDetails :=
  mkProblem "https://tools.ietf.org/html/rfc7231#section-6.6.1" "Internal Server Error"
    StatusInternalServerError "An unhandled internal server error occurred." (rq_Path r).

(** What the middleware makes of the store's answer. *)
Definition effective_limit (default_limit : Z) (res : Z * option error) : Z :=
  match snd res with
  | Some e =>
      if negb (errors_Is e ErrNotFound) then default_limit
      else if 0 <? fst res then fst res else default_limit
  | None => if 0 <? fst res then fst res else default_limit
  end.

(** The values of [syncedLimits]: the limit last set for a client. *)
Record Synced := mkSynced { synced : gmap string Z }.

Section RateLimit.
Context {L S W : Type} `{!Limiter L, !LimitStore S}.
Context `{!Component L W, !Component S W, !Component Synced W, !Component Metrics W,
  !Component Log W, !Component Clock W}.
Implicit Types s : W.

Definition log_add (l : log_line) s : W := modify (fun ls : Log => ls ++ [l]) s.

Definition resolveClientLimit (cfg : RateLimitConfig) (apiKey : string) s : Z * W :=
  if negb (has_Storage cfg) || bool_decide (apiKey = "") then (DefaultLimit cfg, s)
  else
    let '(rd, s) := read_clock 2 s in
    let '(res, st) := store_limit (get (A := S) s) apiKey rd in
    let s := put st s in
    let s := match snd res with
             | Some e =>
                 if negb (errors_Is e ErrNotFound) then
                   log_add (mkLog "WARN" "failed to fetch client rate limit"
                     [AStr "api_key" (maskAPIKey apiKey); AStr "error" (Error e)]) s
                 else s
             | None => s
             end in
    (effective_limit (DefaultLimit cfg) res, s).

Definition syncLimitIfNeeded (clientID : string) (limit defaultLimit : Z) s
  : outcome unit * W :=
  if limit =? defaultLimit then (Return tt, s)
  else if bool_decide (synced (get s) !! clientID = Some limit) then (Return tt, s)
  else
    let '(rd, s) := read_clock 3 s in
    match limiter_SetLimit (get (A := L) s) clientID limit (f64_of_Z limit) rd with
    | (Panic m, l) => (Panic m, put l s)
    | (Return (Some _), l) => (Return tt, put l s)
    | (Return None, l) =>
        (Return tt, modify (fun y => mkSynced (<[clientID := limit]> (synced y))) (put l s))
    end.

Definition rate_headers (w : ResponseWriter) (limit tokens : Z) : ResponseWriter :=
  let w := set_header w "X-RateLimit-Limit" (Itoa limit) in
  let w := set_header w "X-RateLimit-Remaining" (Itoa tokens) in
  set_header w "X-RateLimit-Reset" "1".

(** The part of the handler after the limit has been resolved and synced. *)
Definition charge_one (cfg : RateLimitConfig) (next : Handler W) (clientID : string)
    (clientLimit : Z) : Handler W :=
  fun r w s =>
    let '(rd, s) := read_clock 3 s in
    match limiter_Allow (get (A := L) s) clientID rd with
    | (Panic m, l) => (Panic m, w, put l s)
    | (Return (_, Some e), l) =>
        next r w (log_add (mkLog "ERROR" "rate limiter failure (failing open)"
                    [AStr "client_id" (maskAPIKey clientID); AStr "error" (Error e)])
                    (put l s))
    | (Return (allowed, None), l) =>
        let '(rd, s) := read_clock 3 (put l s) in
        match limiter_Tokens (get (A := L) s) clientID rd with
        | (Panic m, l) => (Panic m, w, put l s)
        | (Return (tokens, _), l) =>
            let s := put l s in
            let w := rate_headers w clientLimit tokens in
            if negb allowed then
              let s := if has_Metrics cfg
                       then modify (count_limited (rq_Method r) (SanitizePath (rq_Path r))) s
                       else s in
              (Return tt, writeProblemDetails w StatusTooManyRequests (too_many_requests r), s)
            else next r w s
        end
    end.

Definition RateLimitMiddleware (cfg : RateLimitConfig) (next : Handler W) : Handler W :=
  fun r w s =>
    let clientID := resolveClientID r in
    let '(clientLimit, s) :=
      resolveClientLimit cfg (header_Get (rq_Header r) APIKeyHeader) s in
    match syncLimitIfNeeded clientID clientLimit (DefaultLimit cfg) s with
    | (Panic m, s) => (Panic m, w, s)
    | (Return _, s) => charge_one cfg next clientID clientLimit r w s
    end.

(** [RecoveryMiddleware]; the stack trace is left out of the log line. *)
Definition RecoveryMiddleware (next : Handler W) : Handler W :=
  fun r w s =>
    match next r w s with
    | (Panic err, w, s) =>
        let s := log_add (mkLog "ERROR" "panic recovered"
                   [AStr "error" err; AStr "path" (rq_Path r); AStr "method" (rq_Method r)]) s in
        (Return tt, writeProblemDetails w StatusInternalServerError (internal_error r), s)
    | res => res
    end.

(** [LoggingMiddleware]; [fresh_id] is what [generateRequestID] returns. *)
Definition LoggingMiddleware (fresh_id : string) (next : Handler W) : Handler W :=
  fun r w s =>
    let '(rd, s) := read_clock 1 s in
    let start := rd 0%nat in
    let given := header_Get (rq_Header r) "X-Request-ID" in
    let requestID := if bool_decide (given = "") then fresh_id else given in
    let w1 := if bool_decide (given = "") then set_header w "X-Request-ID" requestID else w in
    match next r w1 s with
    | (Panic m, w', s) => (Panic m, w', s)
    | (Return _, w', s) =>
        let '(rd, s) := read_clock 1 s in
        let ms := Z.quot (time_sub (rd 0%nat) start) Millisecond in
        (Return tt, w',
         log_add (mkLog "INFO" "request completed"
           [AStr "method" (rq_Method r); AStr "path" (rq_Path r);
            AInt "status" (wrapper_status w w'); AInt "duration_ms" ms;
            AStr "remote_addr" (rq_RemoteAddr r); AStr "request_id" requestID;
            AStr "api_key" (maskAPIKey (header_Get (rq_Header r) APIKeyHeader));
            AStr "user_agent" (header_Get (rq_Header r) "User-Agent")]) s)
    end.
End RateLimit.

(** ** [generateRequestID] *)

Definition hex_digit (n : Z) : Ascii.ascii :=
  Ascii.ascii_of_N (Z.to_N (if n <? 10 then 48 + n else 87 + n)).

Definition hex_EncodeToString (bs : list Z) : string :=
  foldr (fun b s => String (hex_digit (b / 16)) (String (hex_digit (b mod 16)) s)) "" bs.

(** [random] is what [rand.Read] fills the 16 bytes with, unless it fails. *)
Definition generateRequestID (random : option (list Z)) (now : Time) : string :=
  match random with
  | Some b => hex_EncodeToString b
  | None => Itoa (wall now)
  end.

(** ** Lemmas *)

Lemma canonical_keys :
  canonical_key "Content-Type" = "Content-Type" /\ canonical_key "Retry-After" = "Retry-After".
Proof. done. Qed.

(** The headers [writeProblemDetails] sets before it commits. *)
Definition problem_headers (w : ResponseWriter) (status : Z) : ResponseWriter :=
  let w := set_header w "Content-Type" "application/problem+json" in
  if status =? StatusTooManyRequests then set_header w "Retry-After" "1" else w.

Lemma problem_sent (w : ResponseWriter) (status : Z) (pd : ProblemDetails) :
  w_sent (writeProblemDetails w status pd) =
  Some (default (status, w_header (problem_headers w status)) (w_sent w)).
Proof.
  unfold writeProblemDetails, problem_headers.
  destruct w as [h [o|] b c]; by destruct (status =? _).
Qed.

Lemma problem_calls (w : ResponseWriter) (status : Z) (pd : ProblemDetails) :
  w_calls (writeProblemDetails w status pd) = w_calls w ++ [status] /\
  w_body (writeProblemDetails w status pd) = w_body w ++ [JSONProblem pd].
Proof.
  unfold writeProblemDetails. destruct w as [h [o|] b c]; by destruct (status =? _).
Qed.

Lemma problem_header (w : ResponseWriter) (status : Z) (k : string) :
  header_Get (w_header (problem_headers w status)) k =
  if decide (canonical_key k = "Retry-After" /\ status = StatusTooManyRequests) then "1"
  else if decide (canonical_key k = "Content-Type") then "application/problem+json"
  else header_Get (w_header w) k.
Proof.
  unfold problem_headers, header_Get. destruct (status =? StatusTooManyRequests) eqn:E;
    bool_to_prop; simpl; unfold header_Set.
  - rewrite (proj2 canonical_keys), (proj1 canonical_keys).
    destruct (decide (canonical_key k = "Retry-After")) as [->|H1].
    + by rewrite lookup_insert_eq, decide_True.
    + rewrite lookup_insert_ne, decide_False by naive_solver.
      destruct (decide (canonical_key k = "Content-Type")) as [->|H2];
        [by rewrite lookup_insert_eq|by rewrite lookup_insert_ne by done].
  - rewrite (proj1 canonical_keys), decide_False by naive_solver.
    destruct (decide (canonical_key k = "Content-Type")) as [->|H2];
      [by rewrite lookup_insert_eq|by rewrite lookup_insert_ne by done].
Qed.

(** The handler called [WriteHeader] at most once, and its response has that
    status; or it never did, and the response has the status 200. *)
Definition single_status (w w' : ResponseWriter) : Prop :=
  (w_calls w' = w_calls w /\ final_status w' = StatusOK) \/
  (exists st h, w_calls w' = w_calls w ++ [st] /\ w_sent w' = Some (st, h)).

Lemma single_status_recorded (w w' : ResponseWriter) :
  single_status w w' -> wrapper_status w w' = final_status w'.
Proof.
  intros [[Hc Hs]|(st & h & Hc & Hs)].
  - unfold wrapper_status. by rewrite Hc, drop_all.
  - unfold final_status. rewrite Hs. by apply (wrapper_status_last w w' []).
Qed.

Lemma problem_single_status (w : ResponseWriter) (status : Z) (pd : ProblemDetails) :
  w_sent w = None -> single_status w (writeProblemDetails w status pd).
Proof.
  intros Hw. right. exists status, (w_header (problem_headers w status)).
  split; [apply problem_calls|]. by rewrite problem_sent, Hw.
Qed.

(** ** Properties *)

(** Error responses.  On a response that has not been started,
    [writeProblemDetails] commits exactly the given status with the problem
    content type, adds [Retry-After: 1] to a 429 and to nothing else, keeps
    every other header, and writes the problem as the body.  On a response
    that has been started the status and headers stay what they were, and
    the problem is appended to the body. *)
Theorem problem_details_response (w : ResponseWriter) (status : Z) (pd : ProblemDetails) :
  let w' := writeProblemDetails w status pd in
  w_body w' = w_body w ++ [JSONProblem pd] /\
  (w_sent w = None ->
     final_status w' = status /\
     forall k, header_Get (final_header w') k =
       if decide (canonical_key k = "Retry-After" /\ status = StatusTooManyRequests) then "1"
       else if decide (canonical_key k = "Content-Type") then "application/problem+json"
       else header_Get (w_header w) k) /\
  (w_sent w <> None -> w_sent w' = w_sent w).
Proof.
  intros w'. subst w'. split; [apply problem_calls|].
  unfold final_status, final_header. rewrite problem_sent. split.
  - intros ->. simpl. split; [done|]. apply problem_header.
  - by destruct (w_sent w).
Qed.

Lemma problem_details_response_witness :
  final_status (writeProblemDetails new_writer 429
    (too_many_requests (mkHttpRequest "GET" "/" "" "gw" false ∅ "10.0.0.1:1" None))) = 429.
Proof. apply problem_details_response. reflexivity. Defined.

(** Masking.  The mask of a key is at most 12 bytes long, shows nothing of
    a key of up to 8 bytes, and of a longer one depends only on its first
    and last four bytes. *)
Theorem mask_api_key (k : string) :
  (String.length (maskAPIKey k) <= 12)%nat /\
  (k <> "" -> (String.length k <= 8)%nat -> maskAPIKey k = "****") /\
  (forall a b m, k = a +:+ m +:+ b -> String.length a = 4%nat -> String.length b = 4%nat ->
     (1 <= String.length m)%nat -> maskAPIKey k = a +:+ "****" +:+ b).
Proof.
  unfold maskAPIKey. split; [|split].
  - destruct (decide (k = "")) as [->|H]; [simpl; lia|]. rewrite bool_decide_false by done.
    destruct (String.length k <=? 8)%nat eqn:E; [simpl; lia|]. apply Nat.leb_gt in E.
    rewrite !string_length_app. unfold slice. rewrite str_take_length by (simpl; lia).
    rewrite str_drop_length. simpl. lia.
  - intros H Hl. rewrite bool_decide_false by done. by rewrite (proj2 (Nat.leb_le _ _) Hl).
  - intros a b m -> Ha Hb Hm. rewrite !string_length_app.
    rewrite bool_decide_false by (intros E; apply (f_equal String.length) in E;
      rewrite !string_length_app in E; simpl in E; lia).
    rewrite (proj2 (Nat.leb_gt _ _)) by lia. unfold slice. simpl str_drop.
    rewrite <- Ha at 1. simpl. rewrite Nat.sub_0_r, str_take_app. do 2 f_equal.
    replace (String.length a + (String.length m + String.length b) - 4)%nat
      with (String.length (a +:+ m)) by (rewrite string_length_app; lia).
    by rewrite <- string_app_assoc, str_drop_app.
Qed.

Lemma mask_api_key_witness : maskAPIKey "sk_live_1234567890" = "sk_l****7890".
Proof.
  apply (proj2 (proj2 (mask_api_key "sk_live_1234567890")) "sk_l" "7890" "ive_123456");
    [reflexivity|reflexivity|reflexivity|simpl; lia].
Defined.
