(* ===== verification/GatewayState.v ===== *)
(** * The state of the gateway

    What the handlers of the gateway read and change, for any limiter [L] and
    any store of limits [S]: as the class [RateLimitState], against which the
    theorems of the handlers are stated, and as a record that is an instance
    of it. *)
From S2P Require Import Prelude GoTime GoError GoString Http State Metrics Limiter.
From S2P Require Import CachedStore Middleware.

(** The state of the gateway as the rate limiting sees it. *)
Class RateLimitState (L S W : Type) := {
  rl_limiter :: Component L W;
  rl_store :: Component S W;
  rl_synced :: Component Synced W;
  rl_metrics :: Component Metrics W;
  rl_log :: Component Log W;
  rl_clock :: Component Clock W;
  rl_clock_limiter :: Independent Clock L W;
  rl_store_limiter :: Independent S L W;
  rl_synced_limiter :: Independent Synced L W;
  rl_metrics_limiter :: Independent Metrics L W;
  rl_log_limiter :: Independent Log L W;
  rl_clock_synced :: Independent Clock Synced W;
  rl_store_synced :: Independent S Synced W;
  rl_limiter_synced :: Independent L Synced W;
  rl_metrics_synced :: Independent Metrics Synced W;
  rl_log_synced :: Independent Log Synced W;
  rl_clock_metrics :: Independent Clock Metrics W;
  rl_store_metrics :: Independent S Metrics W;
  rl_limiter_metrics :: Independent L Metrics W;
  rl_synced_metrics :: Independent Synced Metrics W;
  rl_log_metrics :: Independent Log Metrics W;
  rl_limiter_clock :: Independent L Clock W;
  rl_store_clock :: Independent S Clock W;
  rl_synced_clock :: Independent Synced Clock W;
  rl_log_clock :: Independent Log Clock W;
  rl_limiter_log :: Independent L Log W;
  rl_clock_log :: Independent Clock Log W;
}.

(** [s'] comes after [s] and differs from it only in the limiter, the store,
    the synced limits, the log and the number of readings of the clock. *)
Definition frame {L S W} `{!RateLimitState L S W} (s s' : W) : Prop :=
  timeline (get s') = timeline (get s) /\ (ticks (get s) <= ticks (get s'))%nat /\
  forall (A : Type) (C : Component A W), Independent L A W -> Independent S A W ->
    Independent Synced A W -> Independent Log A W -> Independent Clock A W ->
    get (A := A) s' = get s.

Lemma frame_trans {L S W} `{!RateLimitState L S W} (s1 s2 s3 : W) :
  frame s1 s2 -> frame s2 s3 -> frame s1 s3.
Proof.
  intros (T1 & L1 & F1) (T2 & L2 & F2). split; [congruence|]. split; [lia|].
  intros A ? ? ? ? ? ?. rewrite F2 by done. by apply F1.
Qed.

(** The middleware before [charge_one] leaves the other components alone. *)
Lemma resolve_frame {L S W} `{!Limiter L, !LimitStore S, !RateLimitState L S W}
    (cfg : RateLimitConfig) (key : string) (s : W) :
  let s1 := snd (resolveClientLimit (S := S) cfg key s) in
  get (A := L) s1 = get s /\ get (A := Synced) s1 = get s /\
  get (A := Metrics) s1 = get s /\ frame s s1.
Proof.
  unfold resolveClientLimit, frame. destruct (_ || _)%bool; [done|].
  unfold read_clock. cbv zeta. destruct (store_limit _ _ _) as [[l [e|]] st]; cbn [snd].
  - unfold log_add. destruct (negb _); simpl_state; (do 4 (split; [done|])); (split; [lia|]);
      intros; by simpl_state.
  - simpl_state. do 4 (split; [done|]). split; [lia|]. intros. by simpl_state.
Qed.

(** The answer to a request, given the decision and the tokens left. *)
Definition respond {W} `{!Component Metrics W} (cfg : RateLimitConfig) (next : Handler W)
    (lim : Z) (ok : bool) (left : Z) : Handler W :=
  fun r w s =>
    if ok then next r (rate_headers w lim left) s
    else (Return tt,
          writeProblemDetails (rate_headers w lim left) StatusTooManyRequests
            (too_many_requests r),
          if has_Metrics cfg
          then modify (count_limited (rq_Method r) (SanitizePath (rq_Path r))) s else s).

(** ** The gateway's state

    [U] is what the handlers behind the middleware change: the upstream and
    the transport. *)
Record Gateway (L S U : Type) := mkGateway {
  g_limiter : L; g_store : S; g_synced : Synced; g_metrics : Metrics;
  g_log : Log; g_clock : Clock; g_upstream : U;
}.
Arguments mkGateway {L S U}. Arguments g_limiter {L S U}. Arguments g_store {L S U}.
Arguments g_synced {L S U}. Arguments g_metrics {L S U}. Arguments g_log {L S U}.
Arguments g_clock {L S U}. Arguments g_upstream {L S U}.

Definition g_limiter_component {L S U} : Component L (Gateway L S U).
Proof. by refine {| get := g_limiter; put a g := mkGateway a (g_store g) (g_synced g) (g_metrics g) (g_log g) (g_clock g) (g_upstream g) |}. Defined.
Definition g_store_component {L S U} : Component S (Gateway L S U).
Proof. by refine {| get := g_store; put a g := mkGateway (g_limiter g) a (g_synced g) (g_metrics g) (g_log g) (g_clock g) (g_upstream g) |}. Defined.
Definition g_synced_component {L S U} : Component Synced (Gateway L S U).
Proof. by refine {| get := g_synced; put a g := mkGateway (g_limiter g) (g_store g) a (g_metrics g) (g_log g) (g_clock g) (g_upstream g) |}. Defined.
Definition g_metrics_component {L S U} : Component Metrics (Gateway L S U).
Proof. by refine {| get := g_metrics; put a g := mkGateway (g_limiter g) (g_store g) (g_synced g) a (g_log g) (g_clock g) (g_upstream g) |}. Defined.
Definition g_log_component {L S U} : Component Log (Gateway L S U).
Proof. by refine {| get := g_log; put a g := mkGateway (g_limiter g) (g_store g) (g_synced g) (g_metrics g) a (g_clock g) (g_upstream g) |}. Defined.
Definition g_clock_component {L S U} : Component Clock (Gateway L S U).
Proof. by refine {| get := g_clock; put a g := mkGateway (g_limiter g) (g_store g) (g_synced g) (g_metrics g) (g_log g) a (g_upstream g) |}. Defined.
Definition g_upstream_component {L S U} : Component U (Gateway L S U).
Proof. by refine {| get := g_upstream; put a g := mkGateway (g_limiter g) (g_store g) (g_synced g) (g_metrics g) (g_log g) (g_clock g) a |}. Defined.

#[export] Instance gateway_state {L S U} : RateLimitState L S (Gateway L S U).
Proof.
  by refine (Build_RateLimitState L S (Gateway L S U) g_limiter_component g_store_component
    g_synced_component g_metrics_component g_log_component g_clock_component
    _ _ _ _ _ _ _ _ _ _ _ _ _ _ _ _ _ _ _ _ _).
Defined.
