(* ===== verification/RateLimiting.v ===== *)
(** * Rate limiting end to end: the middleware over the in-memory limiter

    The state has the components of [Middleware] with a [MemoryLimiter] as
    the limiter and any store of limits; the theorems follow a request from
    its headers to the token bucket of its client, through the
    specification of [MemoryLimiter]. *)
From S2P Require Import Prelude GoTime Float64 Float64Facts GoError GoString Postgres CachedStore.
From S2P Require Import Http State Metrics TokenBucket Limiter MemoryLimiter Middleware.
From S2P Require Import GatewayState.

Section RateLimiting.
Context {S W : Type} `{!LimitStore S, !RateLimitState MemoryLimiter S W}.
Implicit Types (s : W) (cfg : RateLimitConfig) (next : Handler W).

Definition limiter_of s : MemoryLimiter := get s.

(** The [i]-th next reading of the clock. *)
Definition reading s (i : nat) : Time :=
  timeline (get s) (ticks (get s) + i)%nat.

(** A reading of the clock made between [s] and [s']. *)
Definition read_between s s' (t : Time) : Prop :=
  exists i, (ticks (get s) <= i < ticks (get s'))%nat /\ t = timeline (get s) i.

Lemma read_between_weaken s0 s1 s2 s3 t :
  frame s0 s1 -> frame s2 s3 -> read_between s1 s2 t -> read_between s0 s3 t.
Proof.
  intros (T1 & L1 & _) (T2 & L2 & _) (i & Hi & ->). exists i. split; [lia|]. by rewrite T1.
Qed.

(** The bucket a request of [id] is charged to. *)
Definition bucket_for (c : Config) (sp : ml_spec) (id : string) (now : Time)
  : outcome TokenBucket :=
  match sp !! id with
  | Some (tb, _) => Return tb
  | None => NewTokenBucket (BurstSize c) (TokensPerSecond c) now
  end.

Lemma spec_AllowN_bucket (c : Config) (sp : ml_spec) (id : string) (n : Z) (rd : readings) tb :
  bucket_for c sp id (rd 0%nat) = Return tb ->
  spec_AllowN c sp id n rd =
  (Return (fst (AllowN tb n (rd 2%nat)), None),
   <[id := (snd (AllowN tb n (rd 2%nat)), rd 1%nat)]> sp).
Proof.
  unfold bucket_for, spec_AllowN. destruct (sp !! id) as [[tb' u]|].
  - intros [= ->]. by destruct (AllowN tb n _).
  - intros ->. by destruct (AllowN tb n _).
Qed.

(** [charge_one] charges the client's bucket and answers accordingly. *)
Lemma admit_memory cfg next (id : string) (lim : Z) r w s (sp : ml_spec) tb :
  represents (limiter_of s) sp ->
  bucket_for (config (limiter_of s)) sp id (reading s 0) = Return tb ->
  let tb1 := snd (AllowN tb 1 (reading s 2)) in
  exists s',
    charge_one (L := MemoryLimiter) cfg next id lim r w s =
      respond cfg next lim (fst (AllowN tb 1 (reading s 2))) (fst (Tokens tb1 (reading s 3))) r w s' /\
    represents (limiter_of s') (<[id := (snd (Tokens tb1 (reading s 3)), reading s 1)]> sp) /\
    get (A := Synced) s' = get s /\ config (limiter_of s') = config (limiter_of s) /\
    frame s s' /\ forall i, (i < 4)%nat -> read_between s s' (reading s i).
Proof.
  intros Hr Hb tb1. unfold limiter_of, reading in *. unfold charge_one, read_clock. cbv beta zeta.
  rewrite get_put_other. simpl limiter_Allow. unfold ml_Allow.
  set (rd := fun i => timeline (get s) (ticks (get s) + i)%nat).
  pose proof (AllowN_refines (get s) sp id 1 rd Hr) as [H1 H2].
  rewrite (spec_AllowN_bucket _ sp id 1 rd tb Hb) in H1, H2.
  pose proof (ml_do_config (get s) (OpAllowN id 1 rd)) as Hc. simpl in Hc.
  destruct (ml_AllowN (get s) id 1 rd) as [out m1]. simpl in H1, H2, Hc. subst out.
  cbv beta iota zeta. simpl_state.
  set (rd' := fun i => timeline (get s) (ticks (get s) + 3 + i)%nat).
  pose proof (Tokens_refines m1 _ id rd' H2) as [H3 H4].
  unfold spec_Tokens in H3, H4. rewrite lookup_insert_eq in H3, H4.
  pose proof (ml_do_config m1 (OpTokens id rd')) as Hc'. simpl in Hc'.
  replace (rd' 0%nat) with (reading s 3) in H3, H4
    by (unfold rd', reading; f_equal; lia).
  fold tb1 in H3, H4. simpl limiter_Tokens.
  change (snd (AllowN tb 1 (rd 2%nat))) with tb1 in H3, H4.
  destruct (Tokens tb1 (reading s 3)) as [k tb2] eqn:ET.
  destruct (ml_Tokens m1 id rd') as [out' m2]. simpl in H3, H4, Hc'. subst out'.
  rewrite insert_insert_eq in H4. unfold reading in ET. rewrite ET.
  eexists (put m2 _). split; [|split; [|split; [|split; [|split]]]].
  - unfold respond. fold (reading s 2). change (rd 2%nat) with (reading s 2).
    destruct (fst (AllowN tb 1 (reading s 2))); reflexivity.
  - by simpl_state.
  - by simpl_state.
  - simpl_state. congruence.
  - unfold frame. simpl_state. split; [done|]. split; [lia|]. intros. by simpl_state.
  - intros i Hi. unfold read_between. simpl_state. exists (ticks (get s) + i)%nat. split; [lia|done].
Qed.

(** The bucket [SetLimit] makes for a positive limit. *)
Lemma new_limit_bucket (lim : Z) (now : Time) :
  1 <= lim <= max_int64 ->
  NewTokenBucket lim (f64_of_Z lim) now =
  Return (mkTokenBucket lim (f64_of_Z lim) (f64_of_Z lim) now).
Proof.
  intros H. destruct (cap_float lim H) as (Hok & Hf & Hge). pose proof f64_unit_pos.
  unfold NewTokenBucket. rewrite (proj2 (Z.ltb_ge _ _)) by lia.
  rewrite f64_leb_spec, (proj2 (Z.leb_gt _ _)); try done.
  change (f64_val (f64_of_Z 0)) with 0. lia.
Qed.

(** A synced limit is the limit of the client's bucket. *)
Definition has_limit (sp : ml_spec) (id : string) (lim : Z) : Prop :=
  exists tb u, sp !! id = Some (tb, u) /\ capacity tb = lim /\ refillRate tb = f64_of_Z lim.

Definition sync_ok (sp : ml_spec) (y : Synced) : Prop :=
  forall id lim, synced y !! id = Some lim -> has_limit sp id lim.

Lemma has_limit_insert (sp : ml_spec) (id id' : string) tb u lim :
  (id = id' -> capacity tb = lim /\ refillRate tb = f64_of_Z lim) ->
  (id <> id' -> has_limit sp id' lim) ->
  has_limit (<[id := (tb, u)]> sp) id' lim.
Proof.
  intros H1 H2. destruct (decide (id = id')) as [<-|E].
  - destruct (H1 eq_refl). exists tb, u. by rewrite lookup_insert_eq.
  - destruct (H2 E) as (tb' & u' & ? & ?). exists tb', u'. by rewrite lookup_insert_ne.
Qed.

(** [syncLimitIfNeeded]: whether it sets the limit, and what it leaves. *)
Definition needs_sync cfg (id : string) (lim : Z) s : bool :=
  negb (lim =? DefaultLimit cfg) && negb (bool_decide (synced (get s) !! id = Some lim)).

Definition synced_spec cfg (sp : ml_spec) (id : string) (lim : Z) s : ml_spec :=
  if needs_sync cfg id lim s
  then <[id := (mkTokenBucket lim (f64_of_Z lim) (f64_of_Z lim) (reading s 0), reading s 1)]> sp
  else sp.

Lemma sync_memory cfg (id : string) (lim : Z) s (sp : ml_spec) :
  represents (limiter_of s) sp -> 1 <= lim <= max_int64 ->
  exists s2, syncLimitIfNeeded (L := MemoryLimiter) id lim (DefaultLimit cfg) s = (Return tt, s2) /\
    represents (limiter_of s2) (synced_spec cfg sp id lim s) /\
    (sync_ok sp (get s) -> sync_ok (synced_spec cfg sp id lim s) (get s2)) /\
    (needs_sync cfg id lim s = false -> get (A := Synced) s2 = get s) /\
    config (limiter_of s2) = config (limiter_of s) /\ frame s s2 /\
    (needs_sync cfg id lim s = true -> read_between s s2 (reading s 0)).
Proof.
  intros Hr Hlim. unfold syncLimitIfNeeded, synced_spec, needs_sync, limiter_of, reading in *.
  assert (Hf : frame s s) by (by split; [|split; [lia|]]).
  destruct (lim =? DefaultLimit cfg); [by exists s|].
  destruct (bool_decide (synced (get s) !! id = Some lim)) eqn:Eb; [by exists s|].
  cbn [negb andb]. clear Hf. unfold read_clock. cbv zeta. simpl_state. simpl limiter_SetLimit.
  set (rd := fun i => timeline (get s) (ticks (get s) + i)%nat).
  destruct (SetLimit_refines (get s) sp id lim (f64_of_Z lim) rd Hr) as [H1 H2].
  pose proof (ml_do_config (get s) (OpSetLimit id lim (f64_of_Z lim) rd)) as Hc. simpl in Hc.
  unfold spec_SetLimit in H1, H2. rewrite new_limit_bucket in H1, H2 by done.
  destruct (ml_SetLimit (get s) id lim (f64_of_Z lim) rd) as [out m]. simpl in H1, H2, Hc.
  subst out. eexists. split; [done|]. unfold frame, read_between. simpl_state. split; [exact H2|].
  split; [|split; [done|]; split; [done|]; split; [split; [done|]; split; [lia|]; intros; by simpl_state|
    intros _; exists (ticks (get s) + 0)%nat; split; [lia|done]]].
  intros Hok id' lim' Hs. simpl in Hs.
  destruct (decide (id = id')) as [<-|E].
  - rewrite lookup_insert_eq in Hs. injection Hs as <-. by apply has_limit_insert.
  - rewrite lookup_insert_ne in Hs by done. apply has_limit_insert; [done|].
    intros _. by apply Hok.
Qed.

(** The static part of a bucket survives a request. *)
Lemma charged_static (tb : TokenBucket) (t t' : Time) :
  let tb' := snd (Tokens (snd (AllowN tb 1 t)) t') in
  capacity tb' = capacity tb /\ refillRate tb' = refillRate tb.
Proof.
  destruct (tb_step_static tb (CallAllowN 1) t) as [H1 H2].
  destruct (tb_step_static (snd (AllowN tb 1 t)) CallTokens t') as [H3 H4].
  cbn [tb_step] in *. destruct (AllowN tb 1 t). cbn [snd] in *. by rewrite H3, H4, H1, H2.
Qed.

Lemma sync_ok_charge (sp : ml_spec) (y : Synced) (id : string) tb tb' u :
  sync_ok sp y ->
  (forall lim, has_limit sp id lim -> capacity tb = lim /\ refillRate tb = f64_of_Z lim) ->
  capacity tb' = capacity tb /\ refillRate tb' = refillRate tb ->
  sync_ok (<[id := (tb', u)]> sp) y.
Proof.
  intros Hok Hlim [Ec Er] id' lim Hs. pose proof (Hok _ _ Hs) as Hh.
  apply has_limit_insert; [|done]. intros <-. rewrite Ec, Er. by apply Hlim.
Qed.

(** A configuration with which a bucket can be made. *)
Definition config_ok (c : Config) : Prop :=
  1 <= BurstSize c /\ f64_leb (TokensPerSecond c) (f64_of_Z 0) = false.

Lemma default_bucket (c : Config) (sp : ml_spec) (id : string) (now : Time) :
  config_ok c ->
  exists tb, bucket_for c sp id now = Return tb /\
    match sp !! id with
    | Some (tb0, _) => tb = tb0
    | None => tb = mkTokenBucket (BurstSize c) (TokensPerSecond c) (f64_of_Z (BurstSize c)) now
    end.
Proof.
  intros [Hb Hr]. unfold bucket_for. destruct (sp !! id) as [[tb u]|]; [by eexists|].
  unfold NewTokenBucket. rewrite (proj2 (Z.ltb_ge _ _)), Hr by lia. by eexists.
Qed.

(** The bucket a request is charged to: a new one with the client's own
    limit when that limit has to be set, else the client's bucket, else a
    new one with the default limits. *)
Definition charged_bucket cfg (c : Config) (sp : ml_spec) (id : string) (lim : Z) s s'
    (tb : TokenBucket) : Prop :=
  if needs_sync cfg id lim s then
    exists now, read_between s s' now /\
      tb = mkTokenBucket lim (f64_of_Z lim) (f64_of_Z lim) now
  else match sp !! id with
       | Some (tb0, _) => tb = tb0
       | None => exists now, read_between s s' now /\
           tb = mkTokenBucket (BurstSize c) (TokensPerSecond c) (f64_of_Z (BurstSize c)) now
       end.

(** The whole request. *)
Definition request_served cfg next r w s (lim : Z) (sp : ml_spec) : Prop :=
  let id := resolveClientID r in
  exists tb t t' u s',
    let ok := fst (AllowN tb 1 t) in
    let tb1 := snd (AllowN tb 1 t) in
    let sp' := <[id := (snd (Tokens tb1 t'), u)]> sp in
    charged_bucket cfg (config (limiter_of s)) sp id lim s s' tb /\
    RateLimitMiddleware (L := MemoryLimiter) (S := S) cfg next r w s =
      respond cfg next lim ok (fst (Tokens tb1 t')) r w s' /\
    represents (limiter_of s') sp' /\
    (sync_ok sp (get s) -> sync_ok sp' (get s')) /\
    config (limiter_of s') = config (limiter_of s) /\ frame s s' /\
    read_between s s' t /\ read_between s s' t' /\ read_between s s' u.

Lemma needs_sync_frame cfg (id : string) (lim : Z) s s1 :
  get (A := Synced) s1 = get s -> needs_sync cfg id lim s1 = needs_sync cfg id lim s.
Proof. intros E. unfold needs_sync. by rewrite E. Qed.

Lemma charged_limit cfg (c : Config) (sp : ml_spec) (id : string) (lim lim' : Z) s s' tb :
  charged_bucket cfg c sp id lim s s' tb -> needs_sync cfg id lim s = false ->
  has_limit sp id lim' -> capacity tb = lim' /\ refillRate tb = f64_of_Z lim'.
Proof.
  unfold charged_bucket. intros Hc En (tb0 & u & E & H1 & H2). rewrite En, E in Hc. by subst tb0.
Qed.

Lemma request_memory cfg next r w s (sp : ml_spec) :
  let lim := fst (resolveClientLimit (S := S) cfg (header_Get (rq_Header r) APIKeyHeader) s) in
  represents (limiter_of s) sp -> config_ok (config (limiter_of s)) -> 1 <= lim <= max_int64 ->
  request_served cfg next r w s lim sp.
Proof.
  intros lim Hr Hc Hlim. unfold request_served, RateLimitMiddleware. set (id := resolveClientID r).
  destruct (resolve_frame (L := MemoryLimiter) (S := S) cfg (header_Get (rq_Header r) APIKeyHeader) s) as (El & Ey & _ & F1).
  subst lim. destruct (resolveClientLimit cfg _ s) as [lim s1]. cbn [fst snd] in *.
  fold (limiter_of s1) in El. fold (limiter_of s) in El. rewrite <- El in Hr.
  destruct (sync_memory cfg id lim s1 sp Hr Hlim) as (s2 & -> & Hr2 & Hok2 & Hs2 & Ec2 & F2 & Hb2).
  destruct (default_bucket (config (limiter_of s2)) (synced_spec cfg sp id lim s1) id (reading s2 0))
    as (tb & Hb & Htb); [by rewrite Ec2, El|].
  destruct (admit_memory cfg next id lim r w s2 _ tb Hr2 Hb) as (s' & -> & Hr' & Ey' & Ec' & F3 & Hb3).
  pose proof (frame_trans _ _ _ F1 F2) as F12.
  assert (Hread : forall i, (i < 4)%nat -> read_between s s' (reading s2 i))
    by (intros i Hi; apply (read_between_weaken s s2 s' s'); [done|by split; [|split; [lia|]]|by apply Hb3]).
  assert (Hch : charged_bucket cfg (config (limiter_of s)) sp id lim s s' tb).
  { unfold charged_bucket. rewrite <- (needs_sync_frame cfg id lim s s1 Ey).
    unfold synced_spec in Htb. destruct (needs_sync cfg id lim s1).
    - rewrite lookup_insert_eq in Htb. subst tb. eexists. split; [|done].
      by apply (read_between_weaken s s1 s2 s'), Hb2.
    - rewrite Ec2, El in Htb. destruct (sp !! id) as [[tb0 u0]|]; [done|]. eexists.
      split; [|done]. apply Hread. lia. }
  assert (Esp : forall x, <[id := x]> (synced_spec cfg sp id lim s1) = <[id := x]> sp)
    by (intros x; unfold synced_spec; destruct (needs_sync _ _ _ _); [apply insert_insert_eq|done]).
  rewrite Esp in Hr'.
  exists tb, (reading s2 2), (reading s2 3), (reading s2 1), s'.
  split; [done|]. split; [done|]. split; [done|].
  split; [|split; [congruence|]; split; [by apply (frame_trans _ s2)|]; repeat split; apply Hread; lia].
  intros Hok. rewrite Ey', <- Esp. apply (sync_ok_charge _ _ id tb); [|intros lim'|apply charged_static].
  - apply Hok2. by rewrite Ey.
  - unfold synced_spec. destruct (needs_sync cfg id lim s1) eqn:En.
    + intros (tb0 & u0 & E & H1 & H2). rewrite lookup_insert_eq in E. injection E as <- <-.
      unfold synced_spec in Htb. rewrite En, lookup_insert_eq in Htb. by subst tb.
    + rewrite (needs_sync_frame cfg id lim s s1 Ey) in En. by eapply charged_limit.
Qed.
End RateLimiting.

(** ** A gateway for the witnesses *)

(** A gateway for the witnesses: no storage, burst 2, one token a second, the
    clock a millisecond further at each reading. *)
Definition demo_clock : Clock :=
  mkClock (fun i => clock (Z.of_nat i * Millisecond) (Z.of_nat i * Millisecond)) 0.
Definition demo_limits : Config := mkConfig (f64_of_Z 1) 2 Second.
Definition demo_cache : CachedStore.CachedStore (gmap string Z) :=
  CachedStore.NewCachedStore (<["gold" := 5]> ∅) Minute.
Definition demo_gateway : Gateway MemoryLimiter (CachedStore.CachedStore (gmap string Z)) unit :=
  mkGateway (NewMemoryLimiter demo_limits) demo_cache (mkSynced ∅) Metrics_New []
    demo_clock tt.
Abbreviation demo_store := (CachedStore.CachedStore (gmap string Z)).
Lemma demo_represents : represents (limiter_of (S := demo_store) demo_gateway) ∅.
Proof. apply represents_new. Qed.
Definition demo_cfg : RateLimitConfig := mkRateLimitConfig 1 true true.
Definition demo_request (headers : Header) : HttpRequest :=
  mkHttpRequest "GET" "/api/items/42" "" "gw" false headers "10.0.0.1:5555" None.
Definition gold_request : HttpRequest := demo_request {["X-Api-Key" := ["gold"]]}.
Definition ok_handler {W} : Handler W :=
  fun _ w s => (Return tt, Write (WriteHeader w 200) (Bytes "ok"), s).

Lemma demo_config_ok : config_ok (config (limiter_of (S := demo_store) demo_gateway)).
Proof. split; [simpl; lia|reflexivity]. Qed.

Lemma demo_sync_ok : sync_ok ∅ (get demo_gateway).
Proof. intros id lim. simpl. by rewrite lookup_empty. Qed.

(** ** Properties *)

(** C5: a request end to end.  With an in-memory limiter that represents the
    map [sp] of client buckets, a request whose effective limit is [lim]
    charges one token to one bucket, the client's: a new one with the
    client's own limit when that limit differs from the default and has not
    been set yet, else the bucket the client has, else a new one with the
    default limits.  The request is handed on exactly when that bucket
    grants the token, else it is answered with 429; no other client's bucket
    changes; and every limit the middleware believes to have set is the
    limit of the client's bucket. *)
Theorem rate_limit_request {S W} `{!LimitStore S, !RateLimitState MemoryLimiter S W}
    (cfg : RateLimitConfig) (next : Handler W) (r : HttpRequest) (w : ResponseWriter)
    (s : W) (sp : gmap string (TokenBucket * Time)) :
  let lim := fst (resolveClientLimit (S := S) cfg (header_Get (rq_Header r) APIKeyHeader) s) in
  represents (limiter_of s) sp -> sync_ok sp (get s) ->
  config_ok (config (limiter_of s)) -> 1 <= lim <= max_int64 ->
  exists tb t t' u s',
    let id := resolveClientID r in
    let ok := fst (AllowN tb 1 t) in
    let left := fst (Tokens (snd (AllowN tb 1 t)) t') in
    let sp' := <[id := (snd (Tokens (snd (AllowN tb 1 t)) t'), u)]> sp in
    charged_bucket cfg (config (limiter_of s)) sp id lim s s' tb /\
    RateLimitMiddleware (L := MemoryLimiter) (S := S) cfg next r w s =
      respond cfg next lim ok left r w s' /\
    represents (limiter_of s') sp' /\ sync_ok sp' (get s') /\
    (lim <> DefaultLimit cfg -> has_limit sp' id lim).
Proof.
  intros lim Hr Hok Hc Hlim.
  destruct (request_memory cfg next r w s sp Hr Hc Hlim) as (tb & t & t' & u & s' & H1 & H2 & H3 & H4 & _).
  fold lim in H1, H2. clearbody lim. exists tb, t, t', u, s'. split; [exact H1|]. split; [exact H2|]. split; [exact H3|].
  split; [by apply H4|]. intros Hne.
  destruct (charged_static tb t t') as [Ec Er]. apply has_limit_insert; [|done]. intros _.
  rewrite Ec, Er. destruct (needs_sync cfg (resolveClientID r) lim s) eqn:En.
  - unfold charged_bucket in H1. rewrite En in H1. by destruct H1 as (now & _ & ->).
  - apply (charged_limit cfg _ sp _ lim lim s s' tb H1 En).
    unfold needs_sync in En. rewrite (proj2 (Z.eqb_neq _ _) Hne) in En. cbn [negb andb] in En.
    apply negb_false_iff, bool_decide_eq_true in En. by apply Hok.
Qed.

Lemma rate_limit_request_witness :
  exists ok left s',
    RateLimitMiddleware (L := MemoryLimiter) (S := CachedStore.CachedStore (gmap string Z))
      demo_cfg ok_handler gold_request new_writer demo_gateway =
    respond demo_cfg ok_handler 5 ok left gold_request new_writer s'.
Proof.
  destruct (rate_limit_request (S := demo_store) demo_cfg ok_handler gold_request new_writer
    demo_gateway ∅ demo_represents demo_sync_ok demo_config_ok)
    as (tb & t & t' & u & s' & _ & H & _); [vm_compute; split; discriminate|].
  exists (fst (AllowN tb 1 t)), (fst (Tokens (snd (AllowN tb 1 t)) t')), s'. exact H.
Defined.

(** C19: limits that are lost.  (1) When the cleanup has dropped the bucket of a
    client whose own limit [lim] is recorded as synced, the next request is
    charged to a new bucket with the default limits, although it is answered
    with [lim] in [X-RateLimit-Limit]: the limit is not set again.  (2) When
    a client's limit goes back to the default, the bucket keeps the old
    capacity and rate. *)
Theorem rate_limit_lost_limits {S W} `{!LimitStore S, !RateLimitState MemoryLimiter S W}
    (cfg : RateLimitConfig) (next : Handler W) (r : HttpRequest) (w : ResponseWriter)
    (s : W) (m : MemoryLimiter) (sp : gmap string (TokenBucket * Time)) (tb : TokenBucket)
    (u now : Time) :
  let id := resolveClientID r in
  let lim := fst (resolveClientLimit (S := S) cfg (header_Get (rq_Header r) APIKeyHeader) s) in
  let charged c q := exists ok left s' sp' tb' u',
    RateLimitMiddleware (L := MemoryLimiter) (S := S) cfg next r w s =
      respond cfg next lim ok left r w s' /\
    represents (limiter_of s') sp' /\ sp' !! id = Some (tb', u') /\
    capacity tb' = c /\ refillRate tb' = q in
  represents m sp -> sp !! id = Some (tb, u) -> config_ok (config m) -> 1 <= lim <= max_int64 ->
  (limiter_of s = cleanup m now -> time_before u (idle_threshold m now) = true ->
     synced (get s) !! id = Some lim ->
     charged (BurstSize (config m)) (TokensPerSecond (config m))) /\
  (limiter_of s = m -> lim = DefaultLimit cfg -> charged (capacity tb) (refillRate tb)).
Proof.
  intros id lim charged Hr Hid Hc Hlim.
  assert (Hcore : forall sp0, represents (limiter_of s) sp0 -> config (limiter_of s) = config m ->
    needs_sync cfg id lim s = false ->
    match sp0 !! id with
    | Some (tb0, _) => charged (capacity tb0) (refillRate tb0)
    | None => charged (BurstSize (config m)) (TokensPerSecond (config m))
    end).
  { intros sp0 Hr0 Ec Hn. rewrite <- Ec in Hc.
    destruct (request_memory cfg next r w s sp0 Hr0 Hc Hlim)
      as (tb1 & t & t' & u' & s' & H1 & H2 & H3 & _).
    fold lim id in H1, H2, H3. unfold charged_bucket in H1. rewrite Hn, Ec in H1.
    destruct (charged_static tb1 t t') as [E1 E2].
    assert (Hch : charged (capacity tb1) (refillRate tb1)).
    { do 6 eexists. split; [exact H2|]. split; [exact H3|]. rewrite lookup_insert_eq.
      split; [done|]. by rewrite E1, E2. }
    destruct (sp0 !! id) as [[tb0 u0]|]; [by subst tb0|by destruct H1 as (now' & _ & ->)]. }
  split.
  - intros El Hidle Hs. specialize (Hcore (spec_cleanup (config m) sp now)).
    rewrite El in Hcore.
    assert (Hnone : spec_cleanup (config m) sp now !! id = None).
    { apply map_lookup_filter_None_2. right. intros [tb0 u0] E. rewrite Hid in E.
      injection E as <- <-. simpl. unfold idle_threshold in Hidle. congruence. }
    rewrite Hnone in Hcore. apply Hcore; [by apply cleanup_refines|done|].
    unfold needs_sync. rewrite Hs, bool_decide_true by done. by rewrite andb_false_r.
  - intros El Hd. specialize (Hcore sp). rewrite El, Hid in Hcore. apply Hcore; [done|done|].
    unfold needs_sync. by rewrite Hd, Z.eqb_refl.
Qed.

(** A client with limit 5, after a request; and the gateway an hour later,
    the cleanup having run. *)
Definition gold_limiter : MemoryLimiter :=
  snd (ml_SetLimit (NewMemoryLimiter demo_limits) "gold" 5 (f64_of_Z 5) (fun _ => clock 0 0)).
Definition gold_gateway : Gateway MemoryLimiter demo_store unit :=
  mkGateway (cleanup gold_limiter (clock (60 * Minute) (60 * Minute))) demo_cache
    (mkSynced {["gold" := 5]}) Metrics_New [] demo_clock tt.

Lemma gold_represents :
  represents gold_limiter
    {["gold" := (mkTokenBucket 5 (f64_of_Z 5) (f64_of_Z 5) (clock 0 0), clock 0 0)]}.
Proof.
  destruct (SetLimit_refines (NewMemoryLimiter demo_limits) ∅ "gold" 5 (f64_of_Z 5)
    (fun _ => clock 0 0) (represents_new demo_limits)) as [_ H].
  unfold spec_SetLimit in H. rewrite new_limit_bucket in H by (unfold max_int64; lia). exact H.
Qed.

Lemma rate_limit_lost_limits_witness :
  exists ok left s' sp' tb' u',
    RateLimitMiddleware (L := MemoryLimiter) (S := demo_store) demo_cfg ok_handler gold_request
      new_writer gold_gateway =
      respond demo_cfg ok_handler 5 ok left gold_request new_writer s' /\
    represents (limiter_of s') sp' /\ sp' !! "gold" = Some (tb', u') /\
    capacity tb' = 2 /\ refillRate tb' = f64_of_Z 1.
Proof.
  assert (El : fst (resolveClientLimit (S := demo_store) demo_cfg
    (header_Get (rq_Header gold_request) APIKeyHeader) gold_gateway) = 5)
    by (vm_compute; reflexivity).
  assert (Hc : config_ok (config gold_limiter)) by (split; [simpl; lia|reflexivity]).
  assert (Hidle : time_before (clock 0 0)
    (idle_threshold gold_limiter (clock (60 * Minute) (60 * Minute))) = true)
    by (vm_compute; reflexivity).
  pose proof (rate_limit_lost_limits (S := demo_store) demo_cfg ok_handler gold_request new_writer
    gold_gateway gold_limiter _ _ (clock 0 0) (clock (60 * Minute) (60 * Minute))
    gold_represents (lookup_singleton_eq "gold" _) Hc) as H.
  cbv zeta in H. rewrite El in H.
  exact (proj1 (H ltac:(unfold max_int64; lia)) eq_refl Hidle eq_refl).
Defined.

(** What the middleware derives from an answer of a store. *)
Lemma effective_limit_cases (default : Z) (r : Z * option error) :
  effective_limit default (reply r) = default \/
  r = (effective_limit default (reply r), None) /\ 0 < effective_limit default (reply r).
Proof.
  unfold effective_limit, reply. destruct r as [l [err|]]; simpl.
  - destruct (negb _); by left.
  - destruct (0 <? l) eqn:El; bool_to_prop; [right|left]; done.
Qed.

Lemma cached_value_effective (default v : Z) (r : Z * option error) :
  cached_value r = Some v -> effective_limit default (v, None) = effective_limit default (reply r).
Proof.
  intros [->|(E & l & err & -> & He)]%cached_value_cases; [done|]. injection E as ->.
  unfold effective_limit, reply. simpl. by rewrite He.
Qed.

(** C17: limits through the cache.  In every interleaving of calls, changes of
    the clients' data, invalidations and sweeps, the limit the middleware
    derives from an answer of the cached store is the one it derives from an
    answer of the wrapped store for the same key: one to a query of this very
    call, or one whose value was put into the cache less than one time to live
    before.  It is the default or a positive limit the store gave.  While the
    data do not change it is therefore the limit the middleware derives from
    the store itself. *)
Theorem cached_effective_limit {S} `{!ClientStore S} (s : S) (d default : Z)
    (acts : list (cs_action (S := S))) (t : nat) (k : string)
    (res : Z * option error) (now : Time) (a b : list cs_event) :
  0 < d -> k <> "" -> history (cs_run (cs_init s d) acts) = a ++ EvAnswer t k res now :: b ->
  let derived := effective_limit default res in
  (exists t' r,
     derived = effective_limit default (reply r) /\
     (derived = default \/ r = (derived, None) /\ 0 < derived) /\
     (t' = t /\ after (not_answered t) (EvFetch t k r) (fun _ => True) b \/
      exists v now0, time_before now (time_add now0 d) = true /\
        after always (EvFill k v now0) (fun h => EvFetch t' k r ∈ h) b)) /\
  (forall f, (forall k, store_GetClientLimit s k = (f k, s)) ->
     Forall (fun a => match a with AWrite _ => False | _ => True end) acts ->
     derived = effective_limit default (reply (f k))).
Proof.
  intros Hd Hk E derived. split.
  - destruct (answer_provenance s d acts t k res now a b Hd E)
      as [[? _]|[(r & Hr & ->)|(v & now0 & -> & Hnow & Hfill)]]; [done|..].
    + exists t, r. split; [done|]. split; [apply effective_limit_cases|by left].
    + destruct Hfill as (a' & b' & -> & _ & t' & r & Hin & Hv). unfold derived.
      rewrite (cached_value_effective default v r Hv).
      exists t', r. split; [done|]. split; [apply effective_limit_cases|]. right.
      exists v, now0. split; [done|]. exists a', b'. split; [done|]. split; [|done].
      by apply Forall_true.
  - intros f Hf Hro. assert (Hin : EvAnswer t k res now ∈ history (cs_run (cs_init s d) acts)).
    { rewrite E. apply elem_of_app. right. by left. }
    unfold derived. destruct (transparent_answer s d f acts t k res now Hf Hro Hin Hk)
      as [->|(-> & l & err & Ef & He)]; [done|].
    apply cached_value_effective. unfold cached_value. by rewrite Ef; simpl; rewrite He.
Qed.

(** The limit changes from 7 to 9 while the old one is cached. *)
Lemma cached_effective_limit_witness :
  let acts := call_alone 0 "k" (clock 0 0) (clock 0 0) (clock 0 0) (clock 0 1) ++
    [AWrite (<["k" := 9]> ∅ : gmap string Z); ACall 1 "k"; AStep 1 (clock 0 2);
     AStep 1 (clock 0 3)] in
  exists (t' : nat) r, effective_limit 3 (7, None) = effective_limit 3 (reply r).
Proof.
  intros acts.
  destruct (cached_effective_limit (<["k" := 7]> ∅ : gmap string Z) Second 3 acts 1 "k"
    (7, None) (clock 0 3) [] (tail (history (cs_run (cs_init (<["k" := 7]> ∅ : gmap string Z) Second) acts))))
    as [(t' & r & H & _) _].
  - reflexivity.
  - discriminate.
  - vm_compute. reflexivity.
  - exists t', r. exact H.
Defined.
