(* ===== verification/RedisLimiting.v ===== *)
(** * Rate limiting end to end: the middleware over the Redis limiter

    A request is followed from its headers to the script that charges the
    bucket of its client on the server, and back to the answer: the decision
    of the script, or the request handed on when the script gave none. *)
From S2P Require Import Prelude GoTime Float64 Float64Facts GoError GoString Http State Metrics.
From S2P Require Import Limiter LuaBucket RedisLimiter CachedStore Middleware GatewayState.

Section RedisLimiting.
Context {R B S W : Type} `{!Redis R B, !RedisSpec R B, !LimitStore S}.
Context `{!RateLimitState (RedisLimiter R) S W}.
Implicit Types (s : W) (cfg : RateLimitConfig) (next : Handler W) (l : RedisLimiter R).

Definition redis_of s : RedisLimiter R := get s.

(** The limiter when the script is called: with an override written for a
    client whose limit is neither the default nor the one set last. *)
Definition after_sync cfg (id : string) (lim : Z) s : RedisLimiter R :=
  if (lim =? DefaultLimit cfg) || bool_decide (synced (get s) !! id = Some lim)
  then redis_of s else snd (redis_SetLimit (redis_of s) id lim (f64_of_Z lim)).

Lemma sync_redis cfg (id : string) (lim : Z) s :
  exists s', syncLimitIfNeeded (L := RedisLimiter R) id lim (DefaultLimit cfg) s = (Return tt, s') /\
    redis_of s' = after_sync cfg id lim s /\ get (A := Metrics) s' = get s.
Proof.
  unfold syncLimitIfNeeded, after_sync, redis_of. destruct (_ =? _); [by exists s|].
  destruct (bool_decide _); [by exists s|]. unfold read_clock. cbv zeta. rewrite get_put_other.
  cbn [limiter_SetLimit redis_limiter orb]. destruct (redis_SetLimit _ _ _ _) as [[e|] l];
    eexists; (split; [reflexivity|]); by simpl_state.
Qed.

Lemma after_sync_same cfg (id : string) (lim : Z) s :
  keyPrefix (after_sync cfg id lim s) = keyPrefix (redis_of s) /\
  config (after_sync cfg id lim s) = config (redis_of s).
Proof.
  unfold after_sync. destruct (_ || _)%bool; [done|]. unfold redis_SetLimit.
  by destruct (client_HSet _ _ _).
Qed.

(** The log line of a request that is handed on without a decision. *)
Definition failing_open (id : string) (err : error) : log_line :=
  mkLog "ERROR" "rate limiter failure (failing open)"
    [AStr "client_id" (maskAPIKey id); AStr "error" (Error err)].

(** The answer to a request whose script call returns [res] on the limiter
    [l]; [s1] is the state at the call. *)
Definition redis_answered cfg next (id : string) (lim : Z) (r : HttpRequest) w s1
    (out : outcome unit * ResponseWriter * W) : Prop :=
  let l := redis_of s1 in
  let '(allowed, err, l') := redis_Allow l id in
  match err with
  | Some err => exists s',
      out = next r w s' /\ redis_of s' = l' /\ get (A := Metrics) s' = get s1 /\
      get (A := Log) s' = get s1 ++ [failing_open id err]
  | None => exists s',
      out = respond cfg next lim allowed (fst (fst (redis_Tokens l' id))) r w s' /\
      redis_of s' = snd (redis_Tokens l' id) /\
      get (A := Metrics) s' = get s1 /\ get (A := Log) s' = get s1 /\
      decided l id 1 allowed (client l')
  end.

Lemma charge_redis cfg next (id : string) (lim : Z) r w s :
  redis_answered cfg next id lim r w s (charge_one (L := RedisLimiter R) cfg next id lim r w s).
Proof.
  unfold redis_answered, charge_one, read_clock, redis_of. cbv beta zeta. rewrite get_put_other.
  cbn [limiter_Allow limiter_Tokens redis_limiter]. pose proof (allow_decided (get s) id 1) as Hd.
  unfold redis_Allow. destruct (redis_AllowN (get s) id 1) as [[ok [e|]] l]; cbn [fst snd] in Hd.
  - eexists. split; [reflexivity|]. unfold log_add, failing_open. by simpl_state.
  - simpl_state. destruct (redis_Tokens l id) as [[k e] l'] eqn:Et. cbn [fst snd].
    eexists. split; [unfold respond; by destruct ok|]. simpl_state.
    do 3 (split; [done|]). by apply Hd.
Qed.
End RedisLimiting.

(** ** Properties *)

(** C12: a request over Redis.  Every request makes one call of the charging
    script for its client, under the process's key prefix, after writing the
    client's override when its limit is neither the default nor the one set
    last.  When the call yields a decision, the request is served or answered
    with 429 as the script decided on the client's bucket on the server; when
    it yields none, whatever the error, the request is handed on as it came,
    without a charge and without rate-limit headers, and the failure is
    logged.  The limiter itself causes no panic. *)
Theorem redis_request {R B S W} `{!Redis R B, !RedisSpec R B, !LimitStore S,
    !RateLimitState (RedisLimiter R) S W}
    (cfg : RateLimitConfig) (next : Handler W) (r : HttpRequest) (w : ResponseWriter) (s : W) :
  let id := resolveClientID r in
  let lim := fst (resolveClientLimit (S := S) cfg (header_Get (rq_Header r) APIKeyHeader) s) in
  exists s1,
    redis_of (S := S) s1 = after_sync (S := S) cfg id lim s /\
    keyPrefix (redis_of (S := S) s1) = keyPrefix (redis_of (S := S) s) /\
    config (redis_of (S := S) s1) = config (redis_of (S := S) s) /\
    get (A := Metrics) s1 = get s /\
    redis_answered (S := S) cfg next id lim r w s1
      (RateLimitMiddleware (L := RedisLimiter R) (S := S) cfg next r w s).
Proof.
  intros id lim. unfold RateLimitMiddleware. fold id.
  destruct (resolve_frame (L := RedisLimiter R) (S := S) cfg
    (header_Get (rq_Header r) APIKeyHeader) s) as (El & Ey & Em & _).
  subst lim. destruct (resolveClientLimit cfg _ s) as [lim s0]. cbn [fst snd] in *.
  destruct (sync_redis (S := S) cfg id lim s0) as (s1 & E & Es & Em').
  rewrite E. exists s1.
  assert (E0 : after_sync (S := S) cfg id lim s0 = after_sync (S := S) cfg id lim s)
    by (unfold after_sync, redis_of; by rewrite El, Ey).
  rewrite Es, E0. destruct (after_sync_same (S := S) cfg id lim s) as [H1 H2].
  do 3 (split; [done|]). split; [congruence|]. apply charge_redis.
Qed.

(** An override that outlives the limit.  A request whose limit is the default
    writes nothing to the server before its call of the script: where a
    client's own limit was set before, by this or another gateway, and has
    since gone back to the default, the script still decides with the old
    override, which remains in force, while the answer shows the default. *)
Theorem redis_stale_override {R B S W} `{!Redis R B, !RedisSpec R B, !LimitStore S,
    !RateLimitState (RedisLimiter R) S W}
    (cfg : RateLimitConfig) (next : Handler W) (r : HttpRequest) (w : ResponseWriter) (s : W)
    (ok : bool) (l' : RedisLimiter R) :
  let id := resolveClientID r in
  let l := redis_of (S := S) s in
  fst (resolveClientLimit (S := S) cfg (header_Get (rq_Header r) APIKeyHeader) s) =
    DefaultLimit cfg ->
  redis_Allow l id = ((ok, None), l') ->
  exists left s' r1 r2,
    RateLimitMiddleware (L := RedisLimiter R) (S := S) cfg next r w s =
      respond cfg next (DefaultLimit cfg) ok left r w s' /\
    reaches (client l) r1 /\ reaches r2 (client l') /\
    forall cap rate C b,
      overridden r1 (key l id) cap rate -> lua_limits cap rate C ->
      stored r1 (key l id) b -> bucket_ok C b ->
      overridden r2 (key l id) cap rate /\
      exists x, is_int x (now_ms r1) /\ ok = (f64_unit <=? available cap rate x b).
Proof.
  intros id l Hlim Ha. unfold RateLimitMiddleware. fold id.
  destruct (resolve_frame (L := RedisLimiter R) (S := S) cfg
    (header_Get (rq_Header r) APIKeyHeader) s) as (El & _).
  destruct (resolveClientLimit cfg _ s) as [lim s0]. cbn [fst snd] in *. subst lim.
  unfold syncLimitIfNeeded. rewrite Z.eqb_refl.
  pose proof (charge_redis (S := S) cfg next id (DefaultLimit cfg) r w s0) as H.
  unfold redis_answered in H. change (redis_of (S := S) s0) with (get (A := RedisLimiter R) s0) in H.
  rewrite El in H. unfold l, redis_of in *. rewrite Ha in H.
  destruct H as (s' & -> & _ & _ & _ & r1 & r2 & H1 & H2 & Hd).
  eexists _, s', r1, r2. split; [done|]. split; [done|]. split; [done|].
  intros cap rate C b Ho Hlu Hst Hb.
  destruct (Hd cap rate C b (Ho _ _) Hlu Hst Hb) as (x & b' & Hx & Hok & Hch & _).
  split; [|exists x; by rewrite Z.mul_1_l in Hok].
  destruct Hch as (_ & _ & _ & _ & Hk). intros burst rps. specialize (Ho burst rps).
  destruct (Hk _ (cfg_key_ne (key (get s) id))) as [_ Hf].
  unfold limits_are in *. by rewrite !Hf.
Qed.

(** A gateway without a store over the server in maps. *)
Record no_store := mkNoStore {}.
#[local] Instance no_limits : LimitStore no_store := { store_limit _ _ _ := ((0, None), mkNoStore) }.
Definition redis_gateway (l : RedisLimiter mem_redis)
  : GatewayState.Gateway (RedisLimiter mem_redis) no_store unit :=
  mkGateway l mkNoStore (mkSynced ∅) Metrics_New [] (mkClock (fun _ => clock 0 0) 0) tt.
Definition redis_demo_request : HttpRequest :=
  mkHttpRequest "GET" "/v1/items" "" "gw" false {["X-Api-Key" := ["a"]]} "10.0.0.1:5555" None.
Definition served_ok {W} : Handler W := fun r w s => (Return tt, WriteHeader w StatusOK, s).

Lemma redis_request_witness :
  decided demo_limiter "a" 1 true demo_charged /\
  exists s' : GatewayState.Gateway (RedisLimiter mem_redis) no_store unit,
    RateLimitMiddleware (L := RedisLimiter mem_redis) (S := no_store)
      (mkRateLimitConfig 1 false true) served_ok redis_demo_request new_writer
      (redis_gateway demo_limiter) =
    respond (mkRateLimitConfig 1 false true) served_ok 1 true 1 redis_demo_request new_writer s'.
Proof.
  destruct (redis_request (S := no_store) (mkRateLimitConfig 1 false true) served_ok
    redis_demo_request new_writer (redis_gateway demo_limiter)) as (s1 & E & _ & _ & _ & H).
  change (after_sync _ _ _ _) with demo_limiter in E. unfold redis_answered in H. rewrite E in H.
  change (resolveClientID redis_demo_request) with "a" in H.
  assert (Ed : redis_Allow demo_limiter "a" = ((true, None), set_client demo_limiter demo_charged))
    by (vm_compute; reflexivity).
  rewrite Ed in H. destruct H as (s' & H & _ & _ & _ & Hd). split; [exact Hd|]. exists s'.
  assert (Et : fst (fst (redis_Tokens (set_client demo_limiter demo_charged) "a")) = 1)
    by (vm_compute; reflexivity).
  rewrite Et in H. exact H.
Defined.

Lemma redis_stale_override_witness :
  overridden (client demo_override) "ratelimit:a" (f64_of_Z 5) (f64_of_Z 5) /\
  exists left (s' : GatewayState.Gateway (RedisLimiter mem_redis) no_store unit),
    RateLimitMiddleware (L := RedisLimiter mem_redis) (S := no_store)
      (mkRateLimitConfig 1 false true) served_ok redis_demo_request new_writer
      (redis_gateway demo_override) =
    respond (mkRateLimitConfig 1 false true) served_ok 1 true left redis_demo_request new_writer s'.
Proof.
  split; [intros b q; by split|].
  destruct (redis_stale_override (S := no_store) (mkRateLimitConfig 1 false true) served_ok
    redis_demo_request new_writer (redis_gateway demo_override) true
    (snd (redis_Allow demo_override "a"))) as (left & s' & r1 & r2 & H & _);
    [reflexivity|vm_compute; reflexivity|]. exists left, s'. exact H.
Defined.
