(* ===== verification/Proxy.v ===== *)
(** * [internal/handler/proxy.go]: the reverse proxy handler

    [NewProxyHandler] configures an [httputil.ReverseProxy] with the
    resilient transport.  [proxy_ServeHTTP] is the path of a request through
    it: the outgoing request made by [Rewrite], the round trip, and the
    response, the error handler or the switch to another protocol.  The base
    transport is a parameter, and so is what the library does with query
    parameters it cannot parse, with quoted text and with a connection taken
    over ([ProxyLib]); trailers and informational responses are left out. *)
From S2P Require Import Prelude GoTime GoError GoString Http State EnvParse CircuitBreaker.
From S2P Require Import Writers Transport Middleware.
From Stdlib Require Import Ascii.

(** ** Outgoing requests *)

Record URL := mkURL { Scheme : string; UHost : string; Path : string; RawQuery : string }.

Record OutRequest := mkOut {
  out_Method : string;
  out_URL : URL;
  out_Host : string;
  out_Header : Header;
  out_Body : option Body;
}.

(** The path join of [ProxyRequest.SetURL]. *)
Definition singleJoiningSlash (a b : string) : string :=
  match has_suffix_slash a, has_prefix_slash b with
  | true, true => a +:+ str_drop 1 b
  | false, false => a +:+ "/" +:+ b
  | _, _ => a +:+ b
  end.

Definition SetURL (target : URL) (u : URL) : URL :=
  mkURL (Scheme target) (UHost target) (singleJoiningSlash (Path target) (Path u))
    (if bool_decide (RawQuery target = "" \/ RawQuery u = "")
     then RawQuery target +:+ RawQuery u
     else RawQuery target +:+ "&" +:+ RawQuery u).

(** [SetXForwarded], on headers from which [ReverseProxy] has removed the
    forwarding headers of the client. *)
Definition SetXForwarded (r : HttpRequest) (h : Header) : Header :=
  let h := match SplitHostPort (rq_RemoteAddr r) with
           | inl (clientIP, _) => header_Set h "X-Forwarded-For" clientIP
           | inr _ => delete (canonical_key "X-Forwarded-For") h
           end in
  let h := header_Set h "X-Forwarded-Host" (rq_Host r) in
  header_Set h "X-Forwarded-Proto" (if rq_TLS r then "https" else "http").

Definition forwarding_headers : list string :=
  ["Forwarded"; "X-Forwarded-For"; "X-Forwarded-Host"; "X-Forwarded-Proto"].

(** [http.Header.Del]. *)
Definition header_Del (h : Header) (k : string) : Header := delete (canonical_key k) h.

(** [textproto.TrimString], and the trimming of [httpguts]. *)
Fixpoint trim_left (sp : ascii -> bool) (s : string) : string :=
  match s with String c s' => if sp c then trim_left sp s' else s | EmptyString => "" end.
Fixpoint trim_right (sp : ascii -> bool) (s : string) : string :=
  match s with
  | String c s =>
      let s := trim_right sp s in
      if sp c && bool_decide (s = "") then "" else String c s
  | EmptyString => ""
  end.
Definition trim (sp : ascii -> bool) (s : string) : string := trim_right sp (trim_left sp s).

Definition is_blank (c : ascii) : bool := (byte_of c =? 32) || (byte_of c =? 9).
Definition is_space (c : ascii) : bool :=
  is_blank c || (byte_of c =? 10) || (byte_of c =? 13).

Definition values (h : Header) (k : string) : list string := default [] (h !! k).

Definition hopHeaders : list string :=
  ["Connection"; "Proxy-Connection"; "Keep-Alive"; "Proxy-Authenticate"; "Proxy-Authorization";
   "Te"; "Trailer"; "Transfer-Encoding"; "Upgrade"].

(** [removeHopByHopHeaders]: the headers [Connection] lists, and the usual
    ones. *)
Definition connection_listed (h : Header) : list string :=
  filter (fun f => f <> "") (v ← values h "Connection"; trim is_space <$> split "," v).

Definition removeHopByHopHeaders (h : Header) : Header :=
  fold_left header_Del (connection_listed h ++ hopHeaders) h.

(** [httpguts.HeaderValuesContainsToken]. *)
Fixpoint str_lower (s : string) : string :=
  match s with String c s => String (ascii_lower c) (str_lower s) | EmptyString => "" end.

Definition HeaderValuesContainsToken (vs : list string) (token : string) : bool :=
  existsb (fun v => existsb (fun t => bool_decide (str_lower (trim is_blank t) = str_lower token))
                            (split "," v)) vs.

(** The protocol a header asks to switch to. *)
Definition upgradeType (h : Header) : string :=
  if HeaderValuesContainsToken (values h "Connection") "Upgrade" then header_Get h "Upgrade"
  else "".

(** [IsPrint] and [EqualFold] of [net/http/internal/ascii]. *)
Definition IsPrint (s : string) : bool :=
  str_forall (fun c => (32 <=? byte_of c) && (byte_of c <=? 126)) s.
Definition EqualFold (s t : string) : bool := bool_decide (str_lower s = str_lower t).

Definition strip_forwarding (h : Header) : Header :=
  foldr (fun k h => delete (canonical_key k) h) h forwarding_headers.

(** The [Rewrite] function of the handler. *)
Definition Rewrite (target : URL) (r : HttpRequest) (out : OutRequest) : OutRequest :=
  let u := SetURL target (out_URL out) in
  let h := SetXForwarded r (out_Header out) in
  mkOut (out_Method out) u (UHost target) (header_Set h "X-Gateway" "go-limiter") (out_Body out).

(** The [ModifyResponse] function: the headers of the upstream response. *)
Definition ModifyResponse (out : OutRequest) (h : Header) : Header :=
  let h := header_Set h "X-Gateway" "go-limiter" in
  let xfHost := header_Get (out_Header out) "X-Forwarded-Host" in
  if bool_decide (xfHost <> "") then header_Set h "X-Forwarded-Host" xfHost else h.

(** ** Errors *)

(** [strings.Contains]. *)
Fixpoint contains (s sub : string) : bool :=
  has_prefix sub s || match s with String _ s => contains s sub | EmptyString => false end.

Definition service_unavailable (path : string) : ProblemDetails :=
  mkProblem "https://tools.ietf.org/html/rfc7231#section-6.6.4" "Service Unavailable"
    StatusServiceUnavailable "Upstream circuit breaker is open. Please try again later." path.
Definition gateway_timeout (path : string) : ProblemDetails :=
  mkProblem "https://tools.ietf.org/html/rfc7231#section-6.6.5" "Gateway Timeout"
    StatusGatewayTimeout "Upstream connection timed out." path.
Definition bad_gateway (path : string) : ProblemDetails :=
  mkProblem "https://tools.ietf.org/html/rfc7231#section-6.6.3" "Bad Gateway"
    StatusBadGateway
    "The upstream service failed to respond or returned an invalid response." path.

(** The [ErrorHandler] function; [ctx_err] is the error of the request's
    context at that point. *)
Definition ErrorHandler (w : ResponseWriter) (path : string) (ctx_err : option error)
    (err : error) : ResponseWriter :=
  if contains (Error err) "circuit breaker is open" then
    writeProblemDetails w StatusServiceUnavailable (service_unavailable path)
  else if errors_Is err DeadlineExceeded ||
          match ctx_err with Some e => errors_Is e DeadlineExceeded | None => false end then
    writeProblemDetails w StatusGatewayTimeout (gateway_timeout path)
  else writeProblemDetails w StatusBadGateway (bad_gateway path).

(** ** The handler *)

(** The breaker of the transport and the state of the upstream. *)
Record Upstream (N : Type) := mkUpstream { breaker : CircuitBreaker; network : N }.
Arguments mkUpstream {N}. Arguments breaker {N}. Arguments network {N}.

(** [NewCircuitBreaker(5, 5*time.Second)]. *)
Definition NewUpstream {N} (n : N) : Upstream N :=
  mkUpstream (NewCircuitBreaker 5 (5 * Second)) n.

(** The context of one request: whether it ends before each retry, and its
    error when the error handler runs. *)
Record Ctx := mkCtx { ctx_wait : nat -> option error; ctx_err : option error }.

(** The settings of an [http.Transport]. *)
Record HttpTransport := mkTransport {
  tr_ProxyFromEnvironment : bool;
  tr_DialTimeout : Z; tr_DialKeepAlive : Z;
  tr_MaxIdleConns : Z; tr_MaxIdleConnsPerHost : Z; tr_MaxConnsPerHost : Z;
  tr_IdleConnTimeout : Z;
  tr_DisableCompression : bool;
}.

(** [ProxyConfig]; what a transport with given settings does is a parameter. *)
Record ProxyConfig := mkProxyConfig {
  Target : URL; Timeout : Z; BaseTransport : option HttpTransport;
}.

(** The transport [NewProxyHandler] makes when it is given none. *)
Definition default_transport : HttpTransport :=
  mkTransport true (5 * Second) (30 * Second) 20000 20000 20000 (90 * Second) true.

Definition proxy_transport (cfg : ProxyConfig) : HttpTransport :=
  default default_transport (BaseTransport cfg).

(** The default [NewProxyHandler] gives to the timeout. *)
Definition proxy_timeout (cfg : ProxyConfig) : Z :=
  if Timeout cfg =? 0 then 30 * Second else Timeout cfg.

(** [context.WithTimeout]: a context is its error at each time, in
    nanoseconds. *)
Definition WithTimeout (parent : Z -> option error) (now timeout : Z) : Z -> option error :=
  fun t => match parent t with
           | Some e => Some e
           | None => if now + timeout <=? t then Some context_deadline_exceeded else None
           end.

(** The context a request that arrives at [now] is served with, by the times
    of the retries and of the error handler. *)
Definition request_ctx (cfg : ProxyConfig) (parent : Z -> option error) (now : Z)
    (retry_at : nat -> Z) (error_at : Z) : Ctx :=
  let ctx := WithTimeout parent now (proxy_timeout cfg) in
  mkCtx (fun i => ctx (retry_at i)) (ctx error_at).

(** What [httputil.ReverseProxy] and the libraries below it do by themselves:
    dropping malformed query parameters, quoting a string as [%q] does,
    whether the body of a response can be written to, and joining two
    connections. *)
Record ProxyLib := mkProxyLib {
  lib_clean_query : string -> string;
  lib_quote : string -> string;
  lib_duplex : nat -> bool;
  lib_takeover : OutRequest -> Response -> ResponseWriter -> outcome unit * ResponseWriter;
}.

Definition StatusSwitchingProtocols : Z := 101.

(** The type of a writer, as [%T] prints it. *)
Definition writer_type (w : Writer) : string :=
  match w with
  | ServerWriter _ _ => "*http.response"
  | responseWriter _ => "*metrics.responseWriter"
  | statusWriter _ => "*handler.statusWriter"
  end.

Section Proxy.
Context {N W : Type} `{!Component (Upstream N) W, !Component Clock W}.
(** The base transport, for the outgoing request at hand. *)
Context (base : OutRequest -> N -> Request -> Reply * N).
(** The headers and the body of a response, and whether copying it succeeds. *)
Context (response : nat -> Header * string * bool).
Context (lib : ProxyLib).

(** The headers of a request before [Rewrite]: the hop-by-hop headers go, and
    those of an upgrade are set again. *)
Definition forwarded_header (h : Header) : Header :=
  let out := removeHopByHopHeaders h in
  let out := if HeaderValuesContainsToken (values h "Te") "trailers"
             then header_Set out "Te" "trailers" else out in
  let up := upgradeType h in
  let out := if bool_decide (up <> "")
             then header_Set (header_Set out "Connection" "Upgrade") "Upgrade" up else out in
  strip_forwarding out.

(** No [User-Agent] is added to a request that has none. *)
Definition plain_agent (out : OutRequest) : OutRequest :=
  mkOut (out_Method out) (out_URL out) (out_Host out)
    (match out_Header out !! "User-Agent" with
     | Some _ => out_Header out
     | None => header_Set (out_Header out) "User-Agent" ""
     end) (out_Body out).

(** The request that goes out. *)
Definition outgoing (target : URL) (r : HttpRequest) : OutRequest :=
  plain_agent (Rewrite target r
    (mkOut (rq_Method r) (mkURL "" "" (rq_Path r) (lib_clean_query lib (rq_RawQuery r))) (rq_Host r)
       (forwarded_header (rq_Header r)) (rq_Body r))).

(** The errors of a switch of protocols. *)
Definition bad_client_protocol (p : string) : error :=
  errors_New ("client tried to switch to invalid protocol " +:+ lib_quote lib p).

(** [handleUpgradeResponse] up to the point where the connections are joined:
    the error it ends with, if any. *)
Definition upgrade_error (out : OutRequest) (resp : nat) (wr : Writer) : option error :=
  let reqUp := upgradeType (out_Header out) in
  let resUp := upgradeType (fst (fst (response resp))) in
  if negb (IsPrint resUp) then
    Some (errors_New ("backend tried to switch to invalid protocol " +:+ lib_quote lib resUp))
  else if negb (EqualFold reqUp resUp) then
    Some (errors_New ("backend tried to switch protocol " +:+ lib_quote lib resUp +:+ " when " +:+
                      lib_quote lib reqUp +:+ " was requested"))
  else if negb (lib_duplex lib resp) then
    Some (errors_New "internal error: 101 switching protocols response with non-writable body")
  else match controller_Hijack wr with
       | ErrNotSupported =>
           Some (errors_New ("can't switch protocols using non-Hijacker ResponseWriter type " +:+
                             writer_type wr))
       | Connection => None
       end.

(** [copyHeader]: the values are added to those already set. *)
Definition copyHeader (dst src : Header) : Header :=
  union_with (fun a b => Some (a ++ b)) dst src.

(** What is answered, by the result of the round trip. *)
Definition proxy_answer (out : OutRequest) (ctx : Ctx) (wr : Writer) (w : ResponseWriter)
    (o : outcome (option Response * option error)) : outcome unit * ResponseWriter :=
  match o with
  | Panic m => (Panic m, w)
  | Return (_, Some err) =>
      (Return tt, ErrorHandler w (Path (out_URL out)) (ctx_err ctx) err)
  | Return (None, None) => (Panic "nil pointer dereference", w)
  | Return (Some resp, None) =>
      if StatusCode resp =? StatusSwitchingProtocols then
        match upgrade_error out (resp_id resp) wr with
        | Some err => (Return tt, ErrorHandler w (Path (out_URL out)) (ctx_err ctx) err)
        | None => lib_takeover lib out resp w
        end
      else
      let '(h, body, copied) := response (resp_id resp) in
      let h := ModifyResponse out (removeHopByHopHeaders h) in
      let w := mkWriter (copyHeader (w_header w) h) (w_sent w) (w_body w) (w_calls w) in
      let w := WriteHeader w (StatusCode resp) in
      let w := Write w (Bytes body) in
      if copied then (Return tt, w) else (Panic "net/http: abort Handler", w)
  end.

(** The round trip of a request, with the next two readings of the clock. *)
Definition proxy_RoundTrip (target : URL) (ctx : Ctx)
    (env : CircuitBreaker -> CircuitBreaker) (r : HttpRequest) (s : W) : RtResult N :=
  let out := outgoing target r in
  let up : Upstream N := get s in
  let rd := fst (read_clock 2 s) in
  RoundTrip (base out) (ctx_wait ctx) (breaker up) env (rd 0%nat) (rd 1%nat)
    (mkRequest (out_Method out) (out_Body out) None) (network up).

Definition proxy_ServeHTTP (target : URL) (ctx : Ctx) (wr : Writer)
    (env : CircuitBreaker -> CircuitBreaker) : Handler W :=
  fun r w s =>
    let up := upgradeType (rq_Header r) in
    if negb (IsPrint up) then
      (Return tt, ErrorHandler w (rq_Path r) (ctx_err ctx) (bad_client_protocol up), s)
    else
    let res := proxy_RoundTrip target ctx env r s in
    let s := put (mkUpstream (rt_cb res) (rt_world res)) (snd (read_clock 2 s)) in
    (proxy_answer (outgoing target r) ctx wr w (rt_out res), s).
End Proxy.

(** ** Lemmas *)

Lemma contains_app (a sub b : string) : contains (a +:+ sub +:+ b) sub = true.
Proof.
  induction a as [|c a IH].
  - change ("" +:+ sub +:+ b) with (sub +:+ b). pose proof (has_prefix_refl sub b) as H.
    destruct (sub +:+ b); cbn [contains]; apply orb_true_iff; by left.
  - rewrite string_app_cons. cbn [contains]. apply orb_true_iff. by right.
Qed.

Lemma ErrorHandler_status (w : ResponseWriter) (path : string) (ce : option error) (e : error) :
  let status :=
    if contains (Error e) "circuit breaker is open" then StatusServiceUnavailable
    else if errors_Is e DeadlineExceeded ||
            match ce with Some e => errors_Is e DeadlineExceeded | None => false end
         then StatusGatewayTimeout else StatusBadGateway in
  exists pd, pd_Status pd = status /\ pd_Instance pd = path /\
    ErrorHandler w path ce e = writeProblemDetails w status pd.
Proof.
  unfold ErrorHandler. destruct (contains _ _); [by exists (service_unavailable path)|].
  destruct (_ || _)%bool; [by exists (gateway_timeout path)|by exists (bad_gateway path)].
Qed.

(** The status the error handler picks. *)
Definition error_status (ctx_err : option error) (e : error) : Z :=
  if contains (Error e) "circuit breaker is open" then 503
  else if errors_Is e DeadlineExceeded ||
          match ctx_err with Some e => errors_Is e DeadlineExceeded | None => false end
       then 504 else 502.

Lemma ErrorHandler_final (w : ResponseWriter) (path : string) (ce : option error) (e : error) :
  w_sent w = None -> final_status (ErrorHandler w path ce e) = error_status ce e.
Proof.
  intros Hw. destruct (ErrorHandler_status w path ce e) as (pd & _ & _ & E). rewrite E.
  unfold final_status. by rewrite problem_sent, Hw.
Qed.

(** Through a wrapped writer an upgrade ends with an error. *)
Lemma upgrade_error_some response lib (out : OutRequest) (resp : nat) (wr : Writer) :
  wrapped wr ->
  exists e, upgrade_error response lib out resp wr = Some e /\
    let resUp := upgradeType (fst (fst (response resp))) in
    (IsPrint resUp = true -> EqualFold (upgradeType (out_Header out)) resUp = true ->
     lib_duplex lib resp = true ->
     e = errors_New ("can't switch protocols using non-Hijacker ResponseWriter type " +:+
                     writer_type wr)).
Proof.
  intros Hwr. unfold upgrade_error. cbv zeta.
  destruct (IsPrint _); cbn [negb]; [|by eexists].
  destruct (EqualFold _ _); cbn [negb]; [|by eexists].
  destruct (lib_duplex _ _); cbn [negb]; [|by eexists].
  destruct wr; [done| |]; by eexists.
Qed.

Lemma copyHeader_lookup (dst src : Header) (k : string) :
  header_Get (copyHeader dst src) k =
  match dst !! canonical_key k with Some (v :: _) => v | Some [] | None => header_Get src k end.
Proof.
  unfold header_Get, copyHeader. rewrite lookup_union_with.
  by destruct (dst !! canonical_key k) as [[|v vs]|], (src !! canonical_key k) as [[|v' vs']|].
Qed.

(** *** The headers of a response *)

Lemma ModifyResponse_other (out : OutRequest) (h : Header) (k : string) :
  k <> "X-Gateway" -> k <> "X-Forwarded-Host" -> ModifyResponse out h !! k = h !! k.
Proof.
  intros H1 H2. unfold ModifyResponse, header_Set.
  assert (E : forall h' k' v, canonical_key k' <> k -> <[canonical_key k' := v]> (h' : Header) !! k = h' !! k)
    by (intros; by rewrite lookup_insert_ne).
  case_bool_decide; rewrite !E; try done; by intros E'; symmetry in E'.
Qed.

(** The headers of [h] that do not go beyond one hop. *)
Definition hop_by_hop (h : Header) (k : string) : Prop :=
  k ∈ canonical_key <$> (connection_listed h ++ hopHeaders).

#[export] Instance hop_by_hop_dec h k : Decision (hop_by_hop h k).
Proof. unfold hop_by_hop. apply _. Defined.

Lemma del_all (ks : list string) (h : Header) (k : string) :
  fold_left header_Del ks h !! k = if decide (k ∈ canonical_key <$> ks) then None else h !! k.
Proof.
  revert h. induction ks as [|k' ks IH]; intros h; [by rewrite decide_False by set_solver|].
  cbn [fold_left]. rewrite IH. unfold header_Del. rewrite lookup_delete, fmap_cons.
  destruct (decide (k ∈ canonical_key <$> ks)), (decide (canonical_key k' = k)),
    (decide (k ∈ canonical_key k' :: (canonical_key <$> ks))); try done; set_solver.
Qed.

Lemma removeHopByHop_lookup (h : Header) (k : string) :
  removeHopByHopHeaders h !! k = if decide (hop_by_hop h k) then None else h !! k.
Proof. apply del_all. Qed.

Lemma removeHopByHop_None (h : Header) (k : string) :
  h !! k = None -> removeHopByHopHeaders h !! k = None.
Proof. intros H. rewrite removeHopByHop_lookup. by destruct (decide _). Qed.

(** The headers [ModifyResponse] leaves. *)
Lemma response_Get (out : OutRequest) (h : Header) (k : string) :
  header_Get (ModifyResponse out (removeHopByHopHeaders h)) k =
  let host := header_Get (out_Header out) "X-Forwarded-Host" in
  if decide (canonical_key k = "X-Gateway") then "go-limiter"
  else if decide (canonical_key k = "X-Forwarded-Host" /\ host <> "") then host
  else if decide (hop_by_hop h (canonical_key k)) then "" else header_Get h k.
Proof.
  unfold ModifyResponse. cbv zeta. set (host := header_Get _ "X-Forwarded-Host").
  assert (E : header_Get (header_Set (removeHopByHopHeaders h) "X-Gateway" "go-limiter") k =
    if decide (canonical_key k = "X-Gateway") then "go-limiter"
    else if decide (hop_by_hop h (canonical_key k)) then "" else header_Get h k).
  { unfold header_Get, header_Set. change (canonical_key "X-Gateway") with "X-Gateway".
    rewrite lookup_insert. destruct (decide (canonical_key k = "X-Gateway")) as [->|Hk];
      [by rewrite decide_True|]. rewrite decide_False by done.
    rewrite removeHopByHop_lookup. by destruct (decide _). }
  case_bool_decide as Hh.
  - destruct (decide (canonical_key k = "X-Forwarded-Host")) as [Hk|Hk].
    + rewrite decide_False by (rewrite Hk; done). rewrite decide_True by done.
      unfold header_Get, header_Set. change (canonical_key "X-Forwarded-Host") with "X-Forwarded-Host".
      by rewrite Hk, lookup_insert_eq.
    + rewrite header_Get_Set_ne by (intros E'; by apply Hk). rewrite E.
      rewrite (decide_False (P := _ /\ _)) by tauto. done.
  - rewrite E. rewrite (decide_False (P := _ /\ _)) by tauto. done.
Qed.

Lemma strip_forwarding_None (h : Header) (k : string) :
  k ∈ forwarding_headers -> strip_forwarding h !! canonical_key k = None.
Proof.
  intros Hk. unfold strip_forwarding, forwarding_headers in *. cbn [foldr].
  repeat (apply elem_of_cons in Hk as [->|Hk]; [rewrite !lookup_delete; reflexivity|]).
  by apply not_elem_of_nil in Hk.
Qed.

(** What a round trip through an open breaker and a successful one leave. *)
Lemma round_trip_rejected {N} (base : N -> Request -> Reply * N) ctx_done cb env now now' req n :
  fst (cb_Allow cb now) = false ->
  rt_out (RoundTrip base ctx_done cb env now now' req n) = Return (None, Some err_circuit_open) /\
  rt_world (RoundTrip base ctx_done cb env now now' req n) = n /\
  rt_cb (RoundTrip base ctx_done cb env now now' req n) = snd (cb_Allow cb now).
Proof. unfold RoundTrip. destruct (cb_Allow cb now) as [[] cb1]; [done|]. done. Qed.

Lemma plain_agent_Get (out : OutRequest) (k : string) :
  canonical_key k <> "User-Agent" ->
  header_Get (out_Header (plain_agent out)) k = header_Get (out_Header out) k.
Proof.
  intros H. unfold plain_agent. cbn [out_Header].
  destruct (out_Header out !! "User-Agent"); [done|]. apply header_Get_Set_ne. by intros E.
Qed.

Lemma strip_forwarding_Get (h : Header) (k : string) :
  canonical_key k ∉ canonical_key <$> forwarding_headers ->
  header_Get (strip_forwarding h) k = header_Get h k.
Proof.
  intros Hk. unfold strip_forwarding, forwarding_headers, header_Get in *. cbn [foldr].
  rewrite !lookup_delete_ne by (intros E; apply Hk; rewrite <- E; set_solver). done.
Qed.

(** The headers [Rewrite] sets, and those it leaves. *)
Lemma outgoing_Get lib (target : URL) (r : HttpRequest) (k : string) :
  canonical_key k <> "User-Agent" -> canonical_key k <> "X-Gateway" ->
  canonical_key k ∉ canonical_key <$> forwarding_headers ->
  header_Get (out_Header (outgoing lib target r)) k =
  header_Get (forwarded_header (rq_Header r)) k.
Proof.
  intros H1 H2 H3. unfold outgoing. rewrite plain_agent_Get by done.
  unfold Rewrite, SetXForwarded. cbn [out_Header].
  assert (Hne : forall h k' v, canonical_key k' ∈ canonical_key <$> forwarding_headers ->
    header_Get (header_Set h k' v) k = header_Get h k)
    by (intros h k' v Hin; apply header_Get_Set_ne; intros E; apply H3; by rewrite <- E).
  rewrite header_Get_Set_ne by (intros E; by apply H2). rewrite !Hne by set_solver.
  destruct (SplitHostPort _) as [[ip port]|e]; [by rewrite Hne by set_solver|].
  unfold header_Get. rewrite lookup_delete_ne; [done|]. intros E. apply H3. rewrite <- E. set_solver.
Qed.

Lemma outgoing_header lib (target : URL) (r : HttpRequest) :
  header_Get (out_Header (outgoing lib target r)) "X-Forwarded-For" =
    match SplitHostPort (rq_RemoteAddr r) with inl (ip, _) => ip | inr _ => "" end /\
  header_Get (out_Header (outgoing lib target r)) "X-Forwarded-Host" = rq_Host r /\
  header_Get (out_Header (outgoing lib target r)) "X-Gateway" = "go-limiter" /\
  header_Get (out_Header (outgoing lib target r)) "Forwarded" = "" /\
  header_Get (out_Header (outgoing lib target r)) "X-Forwarded-Proto" =
    (if rq_TLS r then "https" else "http").
Proof.
  unfold outgoing. rewrite !plain_agent_Get by done. unfold Rewrite, SetXForwarded, forwarded_header.
  cbn [out_Header]. set (h0 := if bool_decide _ then _ else _).
  assert (Hne : forall h k v k', canonical_key k <> canonical_key k' ->
    header_Get (header_Set h k v) k' = header_Get h k') by (intros; by apply header_Get_Set_ne).
  repeat split.
  - rewrite !Hne by done. destruct (SplitHostPort _) as [[ip port]|e].
    + by rewrite header_Get_Set.
    + unfold header_Get. by rewrite lookup_delete_eq.
  - rewrite !Hne by done. by rewrite header_Get_Set.
  - by rewrite header_Get_Set.
  - rewrite !Hne by done. destruct (SplitHostPort _) as [[ip port]|e].
    + rewrite Hne by done. unfold header_Get.
      by rewrite (strip_forwarding_None _ "Forwarded") by set_solver.
    + unfold header_Get. rewrite lookup_delete_ne by done.
      by rewrite (strip_forwarding_None _ "Forwarded") by set_solver.
  - rewrite Hne by done. by rewrite header_Get_Set.
Qed.

(** The other headers of the client. *)
Lemma outgoing_other lib (target : URL) (r : HttpRequest) (k : string) :
  canonical_key k ∉ ["User-Agent"; "X-Gateway"; "Forwarded"; "X-Forwarded-For";
    "X-Forwarded-Host"; "X-Forwarded-Proto"; "Te"; "Connection"; "Upgrade"] ->
  header_Get (out_Header (outgoing lib target r)) k =
  if decide (hop_by_hop (rq_Header r) (canonical_key k)) then "" else header_Get (rq_Header r) k.
Proof.
  intros Hk. assert (Hf : canonical_key k ∉ canonical_key <$> forwarding_headers).
  { intros Hin. apply Hk. change (canonical_key <$> forwarding_headers)
      with ["Forwarded"; "X-Forwarded-For"; "X-Forwarded-Host"; "X-Forwarded-Proto"] in Hin. set_solver. }
  rewrite outgoing_Get by (done || set_solver). unfold forwarded_header.
  rewrite strip_forwarding_Get by done.
  assert (Hset : forall (b : bool) h k' v, canonical_key k' ∈ ["Te"; "Connection"; "Upgrade"] ->
    header_Get (if b then header_Set h k' v else h) k = header_Get h k).
  { intros [] h k' v Hin; [|done]. apply header_Get_Set_ne. intros E. apply Hk. rewrite <- E. set_solver. }
  assert (Hup : forall (b : bool) h v v',
    header_Get (if b then header_Set (header_Set h "Connection" v) "Upgrade" v' else h) k = header_Get h k).
  { intros [] h v v'; [|done]. by rewrite (Hset true), (Hset true) by set_solver. }
  rewrite Hup, Hset by set_solver. unfold header_Get. rewrite removeHopByHop_lookup.
  by destruct (decide _).
Qed.

(** A request for an upgrade goes out as one, for the same protocol. *)
Lemma outgoing_upgrade lib (target : URL) (r : HttpRequest) :
  let up := upgradeType (rq_Header r) in
  up <> "" ->
  header_Get (out_Header (outgoing lib target r)) "Connection" = "Upgrade" /\
  header_Get (out_Header (outgoing lib target r)) "Upgrade" = up.
Proof.
  intros up Hup. rewrite !outgoing_Get by (try done; apply (bool_decide_unpack _); vm_compute; exact I).
  unfold forwarded_header. fold up. rewrite bool_decide_true by done.
  rewrite !strip_forwarding_Get by (apply (bool_decide_unpack _); vm_compute; exact I).
  by rewrite header_Get_Set_ne, !header_Get_Set by done.
Qed.

(** ** Properties *)

(** C35: errors of the upstream.  Every error of the round trip is answered with
    a problem whose status is 503 when its text says that the breaker is
    open, 504 when the deadline of the request passed, and 502 otherwise; a
    request that the breaker rejects is answered with 503 and reaches no
    upstream. *)
Theorem proxy_errors {N W} `{!Component (Upstream N) W, !Component Clock W}
    base response lib (target : URL) (ctx : Ctx) wr env (r : HttpRequest)
    (w : ResponseWriter) (s : W) :
  w_sent w = None -> IsPrint (upgradeType (rq_Header r)) = true ->
  let rt := proxy_RoundTrip base lib target ctx env r s in
  let res := proxy_ServeHTTP base response lib target ctx wr env r w s in
  (forall resp e, rt_out rt = Return (resp, Some e) ->
     fst (fst res) = Return tt /\
     final_status (snd (fst res)) =
       if contains (Error e) "circuit breaker is open" then 503
       else if errors_Is e DeadlineExceeded ||
               match ctx_err ctx with Some e => errors_Is e DeadlineExceeded | None => false end
            then 504 else 502) /\
  (fst (cb_Allow (breaker (get (A := Upstream N) s)) (fst (read_clock 2 s) 0%nat)) = false ->
     fst (fst res) = Return tt /\ final_status (snd (fst res)) = 503 /\
     network (get (snd res)) = network (get (A := Upstream N) s)).
Proof.
  intros Hw Hup rt res.
  assert (Herr : forall resp e, rt_out rt = Return (resp, Some e) ->
    fst (fst res) = Return tt /\
    final_status (snd (fst res)) =
      if contains (Error e) "circuit breaker is open" then 503
      else if errors_Is e DeadlineExceeded ||
              match ctx_err ctx with Some e => errors_Is e DeadlineExceeded | None => false end
           then 504 else 502).
  { intros resp e E. unfold res, proxy_ServeHTTP. rewrite Hup. fold rt. cbn [negb]. rewrite E. cbn [fst snd].
    assert (Ea : proxy_answer response lib (outgoing lib target r) ctx wr w
      (Return (resp, Some e)) =
      (Return tt, ErrorHandler w (Path (out_URL (outgoing lib target r))) (ctx_err ctx) e))
      by (by destruct resp).
    rewrite Ea. split; [done|].
    destruct (ErrorHandler_status w (Path (out_URL (outgoing lib target r)))
                (ctx_err ctx) e) as (pd & _ & _ & E').
    cbn [fst snd]. rewrite E'. unfold final_status. by rewrite problem_sent, Hw. }
  split; [exact Herr|]. intros Hrej.
  destruct (round_trip_rejected (base (outgoing lib target r)) (ctx_wait ctx) _ env _
    (fst (read_clock 2 s) 1%nat) (mkRequest (rq_Method r) (rq_Body r) None)
    (network (get (A := Upstream N) s)) Hrej) as (Ho & Hn & _).
  destruct (Herr None err_circuit_open Ho) as [H1 H2]. split; [exact H1|]. split; [exact H2|].
  unfold res, proxy_ServeHTTP. rewrite Hup. cbn [negb snd]. rewrite get_put. exact Hn.
Qed.

(** C37: forwarding.  Whatever forwarding headers the client sends, the request
    that goes out to the target has its method and body, carries the address of
    the connection, the host and the scheme the client used, and the gateway's
    mark; it has the other headers of the client but those for one hop.  A
    response of the upstream is answered with its status and body.  Its headers
    are those the middleware had set before, the mark, the host the client
    asked for, and the upstream's own but those for one hop. *)
Theorem proxy_forwarding response lib (target : URL) (ctx : Ctx) wr (r : HttpRequest)
    (w : ResponseWriter) (resp : Response) :
  let out := outgoing lib target r in
  let sent k := header_Get (out_Header out) k in
  out_Method out = rq_Method r /\ out_Body out = rq_Body r /\ out_Host out = UHost target /\
  Scheme (out_URL out) = Scheme target /\ UHost (out_URL out) = UHost target /\
  sent "X-Forwarded-For" = match SplitHostPort (rq_RemoteAddr r) with inl (ip, _) => ip | inr _ => "" end /\
  sent "X-Forwarded-Host" = rq_Host r /\
  sent "X-Forwarded-Proto" = (if rq_TLS r then "https" else "http") /\
  sent "X-Gateway" = "go-limiter" /\ sent "Forwarded" = "" /\
  (forall k, canonical_key k ∉ ["User-Agent"; "X-Gateway"; "Forwarded"; "X-Forwarded-For";
       "X-Forwarded-Host"; "X-Forwarded-Proto"; "Te"; "Connection"; "Upgrade"] ->
     sent k = if decide (hop_by_hop (rq_Header r) (canonical_key k)) then ""
              else header_Get (rq_Header r) k) /\
  (w_sent w = None -> StatusCode resp <> StatusSwitchingProtocols ->
   let '(h, body, _) := response (resp_id resp) in
   let w' := snd (proxy_answer response lib out ctx wr w (Return (Some resp, None))) in
   final_status w' = StatusCode resp /\ w_body w' = w_body w ++ [Bytes body] /\
   forall k, header_Get (final_header w') k =
     match w_header w !! canonical_key k with
     | Some (v :: _) => v
     | Some [] | None =>
         if decide (canonical_key k = "X-Gateway") then "go-limiter"
         else if decide (canonical_key k = "X-Forwarded-Host" /\ rq_Host r <> "") then rq_Host r
         else if decide (hop_by_hop h (canonical_key k)) then "" else header_Get h k
     end).
Proof.
  intros out sent. destruct (outgoing_header lib target r) as (H1 & H2 & H3 & H4 & H5).
  do 5 (split; [done|]). split; [exact H1|]. split; [exact H2|]. split; [exact H5|].
  split; [exact H3|]. split; [exact H4|]. split; [intros k; apply outgoing_other|].
  intros Hw Hs. destruct (response (resp_id resp)) as [[h body] copied] eqn:Er. cbv zeta.
  unfold proxy_answer. rewrite (proj2 (Z.eqb_neq _ _) Hs), Er.
  set (h' := ModifyResponse out (removeHopByHopHeaders h)). set (w1 := Write _ _).
  replace (snd (if copied then (Return tt, w1) else (Panic "net/http: abort Handler", w1)))
    with w1 by (by destruct copied).
  assert (Es : w_sent w1 = Some (StatusCode resp, copyHeader (w_header w) h') /\
               w_body w1 = w_body w ++ [Bytes body])
    by (subst w1; by destruct w as [hd [o|] b c]).
  destruct Es as [Es Eb]. unfold final_status, final_header. rewrite Es.
  split; [done|]. split; [exact Eb|]. intros k.
  pose proof (response_Get out h k) as E. cbv zeta in E. fold out in H2. rewrite H2 in E. fold h' in E.
  rewrite <- E. apply copyHeader_lookup.
Qed.

(** C36: no switch of protocols succeeds.  A request that asks for a protocol
    with an unprintable name is answered at once, without a call of the
    upstream or the breaker.  Another request for a protocol goes out as one;
    but whatever the upstream answers with 101, the client gets an error: the
    writer of the handler chain cannot be taken over, so even where client and
    upstream agree the answer is 502.  The text of the error picks the status,
    so a name that contains the words of an open breaker is answered with 503
    although the breaker is closed. *)
Theorem upgrade_refused {N W} `{!Component (Upstream N) W, !Component Clock W}
    base response lib (target : URL) (ctx : Ctx) wr env (r : HttpRequest)
    (w : ResponseWriter) (s : W) :
  w_sent w = None -> wrapped wr ->
  let up := upgradeType (rq_Header r) in
  let out := outgoing lib target r in
  let rt := proxy_RoundTrip base lib target ctx env r s in
  let res := proxy_ServeHTTP base response lib target ctx wr env r w s in
  (IsPrint up = false ->
     fst (fst res) = Return tt /\ snd res = s /\
     final_status (snd (fst res)) = error_status (ctx_err ctx) (bad_client_protocol lib up)) /\
  (up <> "" -> header_Get (out_Header out) "Connection" = "Upgrade" /\
     header_Get (out_Header out) "Upgrade" = up) /\
  (forall resp, IsPrint up = true -> rt_out rt = Return (Some resp, None) -> StatusCode resp = 101 ->
     fst (fst res) = Return tt /\
     (exists e, upgrade_error response lib out (resp_id resp) wr = Some e /\
        final_status (snd (fst res)) = error_status (ctx_err ctx) e) /\
     let resUp := upgradeType (fst (fst (response (resp_id resp)))) in
     (IsPrint resUp = true -> EqualFold (upgradeType (out_Header out)) resUp = true ->
      lib_duplex lib (resp_id resp) = true -> ctx_err ctx = None ->
      final_status (snd (fst res)) = 502)).
Proof.
  intros Hw Hwr up out rt res. split; [|split].
  - intros Hup. unfold res, proxy_ServeHTTP. fold up. rewrite Hup. cbn [negb fst snd].
    do 2 (split; [done|]). by apply ErrorHandler_final.
  - intros Hup. by apply outgoing_upgrade.
  - intros resp Hup Hrt Hs.
    destruct (upgrade_error_some response lib out (resp_id resp) wr Hwr) as (e & He & Htext).
    assert (Eres : fst res = (Return tt, ErrorHandler w (Path (out_URL out)) (ctx_err ctx) e)).
    { unfold res, proxy_ServeHTTP. fold up. rewrite Hup. cbn [negb fst]. fold rt. rewrite Hrt.
      unfold proxy_answer. rewrite Hs. fold out. by rewrite He. }
    rewrite Eres. cbn [fst snd]. split; [done|]. rewrite (ErrorHandler_final w) by done.
    split; [by exists e|]. intros H1 H2 H3 Hc. unfold error_status. rewrite Hc.
    specialize (Htext H1 H2 H3). subst e. by destruct wr.
Qed.

(** A state with an upstream that answers from a list, for the witnesses. *)
Definition demo_state : Type := (Upstream (list Reply) * Clock)%type.
#[local] Instance demo_upstream : Component (Upstream (list Reply)) demo_state :=
  {| get := fst; put a s := (a, snd s); get_put _ _ := eq_refl |}.
#[local] Instance demo_proxy_clock : Component Clock demo_state :=
  {| get := snd; put a s := (fst s, a); get_put _ _ := eq_refl |}.
Definition demo_proxy_request : HttpRequest :=
  mkHttpRequest "GET" "/v1/items" "" "api.example.com" false
    {["X-Forwarded-For" := ["6.6.6.6"]]} "10.0.0.1:5555" None.
(** Quoting that escapes nothing, and connections that cannot be joined. *)
Definition demo_lib : ProxyLib :=
  mkProxyLib id (fun s => s) (fun _ => true) (fun _ _ w => (Return tt, w)).
Definition demo_target : URL := mkURL "http" "upstream:9000" "/base/" "".
Definition demo_response (_ : nat) : Header * string * bool := (∅, "body", true).

Lemma proxy_errors_witness :
  final_status (snd (fst (proxy_ServeHTTP (N := list Reply) (W := demo_state)
    (fun _ => demo_base) demo_response demo_lib demo_target (mkCtx (fun _ => None) None)
    (chain_writer (ServerWriter true true)) id
    demo_proxy_request new_writer
    (mkUpstream (mkCircuitBreaker StateHalfOpen 5 5 Second (clock 0 0)) [],
     mkClock (fun i => clock 0 0) 0)))) = 503.
Proof.
  apply (proxy_errors (N := list Reply) (W := demo_state)
    (fun _ => demo_base) demo_response demo_lib demo_target (mkCtx (fun _ => None) None)
    (chain_writer (ServerWriter true true)) id
    demo_proxy_request new_writer
    (mkUpstream (mkCircuitBreaker StateHalfOpen 5 5 Second (clock 0 0)) [],
     mkClock (fun i => clock 0 0) 0)); reflexivity.
Defined.

Lemma proxy_forwarding_witness :
  let w' := snd (proxy_answer demo_response demo_lib (outgoing demo_lib demo_target demo_proxy_request)
    (mkCtx (fun _ => None) None) (chain_writer (ServerWriter true true)) new_writer
    (Return (Some (mkResponse 1 404 true), None))) in
  final_status w' = 404 /\ header_Get (final_header w') "X-Gateway" = "go-limiter".
Proof.
  destruct (proxy_forwarding demo_response demo_lib demo_target (mkCtx (fun _ => None) None)
    (chain_writer (ServerWriter true true)) demo_proxy_request new_writer (mkResponse 1 404 true))
    as (_ & _ & _ & _ & _ & _ & _ & _ & _ & _ & _ & H).
  destruct (H eq_refl ltac:(discriminate)) as (H1 & _ & H2).
  split; [exact H1|exact (H2 "X-Gateway")].
Defined.

(** A client that asks for a websocket, and an upstream that agrees. *)
Definition websocket : Header := {["Connection" := ["keep-alive, upgrade"]; "Upgrade" := ["websocket"]]}.
Definition websocket_request : HttpRequest :=
  mkHttpRequest "GET" "/v1/feed" "" "api.example.com" false websocket "10.0.0.1:5555" None.
Definition switching : Reply := mkReply (Some (mkResponse 1 101 true)) None None.

Lemma upgrade_refused_witness :
  final_status (snd (fst (proxy_ServeHTTP (N := list Reply) (W := demo_state)
    (fun _ => demo_base) (fun _ => (websocket, "", true)) demo_lib demo_target
    (mkCtx (fun _ => None) None) (chain_writer (ServerWriter true true)) id
    websocket_request new_writer
    (NewUpstream [switching], mkClock (fun i => clock 0 0) 0)))) = 502.
Proof.
  destruct (upgrade_refused (N := list Reply) (W := demo_state)
    (fun _ => demo_base) (fun _ => (websocket, "", true)) demo_lib demo_target
    (mkCtx (fun _ => None) None) (chain_writer (ServerWriter true true)) id
    websocket_request new_writer
    (NewUpstream [switching], mkClock (fun i => clock 0 0) 0) eq_refl I) as (_ & _ & H).
  destruct (H (mkResponse 1 101 true)) as (_ & _ & H'); [vm_compute; reflexivity..|].
  apply H'; vm_compute; reflexivity.
Defined.
