(* ===== verification/Gateway.v ===== *)
(** * [cmd/api-gateway/main.go]: the handler chain of the gateway

    The chain of middleware around the reverse proxy, and what every request
    goes through whatever the limiter, the store and the proxy do. *)
From S2P Require Import Prelude GoTime Float64 GoError GoString Postgres CachedStore Http State.
From S2P Require Import Metrics Limiter MemoryLimiter Middleware GatewayState RateLimiting CircuitBreaker.
From S2P Require Import Writers Transport Proxy.

Section Gateway.
Context {L S W : Type} `{!Limiter L, !LimitStore S, !RateLimitState L S W}.
Implicit Types (s : W) (w : ResponseWriter) (next : Handler W).

(** [mainHandler]: the order in which [run] wraps the handlers. *)
Definition mainHandler (cfg : RateLimitConfig) (fresh_id : string) (proxyHandler : Handler W)
  : Handler W :=
  metrics_Middleware true
    (RecoveryMiddleware
       (LoggingMiddleware fresh_id
          (RateLimitMiddleware (L := L) (S := S) cfg proxyHandler))).

(** The writer has only had headers set. *)
Definition same_response w w1 : Prop :=
  w_sent w1 = w_sent w /\ w_calls w1 = w_calls w /\ w_body w1 = w_body w.

(** The ways through the rate limiter: it panics, hands the request on, or
    rejects it. *)
Lemma rate_limit_cases cfg next r w s :
  exists s1 w1, get (A := Metrics) s1 = get s /\ same_response w w1 /\
    let res := RateLimitMiddleware (L := L) (S := S) cfg next r w s in
    ((exists m, res = (Panic m, w, s1)) \/ res = next r w1 s1 \/
     res = (Return tt, writeProblemDetails w1 StatusTooManyRequests (too_many_requests r),
            if has_Metrics cfg
            then modify (count_limited (rq_Method r) (SanitizePath (rq_Path r))) s1 else s1)).
Proof.
  unfold RateLimitMiddleware.
  destruct (resolve_frame (L := L) (S := S) cfg (header_Get (rq_Header r) APIKeyHeader) s) as (_ & _ & Em & _).
  destruct (resolveClientLimit cfg _ s) as [lim s1]. cbn [snd] in Em.
  assert (Es : get (A := Metrics) (snd (syncLimitIfNeeded (L := L)
    (resolveClientID r) lim (DefaultLimit cfg) s1)) = get s).
  { unfold syncLimitIfNeeded. destruct (_ =? _); [done|]. destruct (bool_decide _); [done|].
    unfold read_clock. cbv zeta. destruct (limiter_SetLimit _ _ _ _ _) as [[[e|]|m] l];
      cbn [snd]; simpl_state; done. }
  destruct (syncLimitIfNeeded _ _ _ s1) as [[[]|m] s2]; cbn [snd] in Es;
    [|exists s2, w; split; [done|]; split; [done|]; left; by eexists].
  unfold charge_one, read_clock. cbv beta zeta.
  destruct (limiter_Allow _ _ _) as [[[allowed [e|]]|m] l].
  - eexists _, w. split; [|split; [|right; left; reflexivity]]; [|done].
    unfold log_add. simpl_state. done.
  - destruct (limiter_Tokens _ _ _) as [[[tokens e]|m] l'].
    + eexists _, (rate_headers w lim tokens). split; [|split; [done|right]].
      2: { destruct allowed; [left|right]; reflexivity. }
      simpl_state. done.
    + eexists _, w. split; [|split; [done|left; eexists; reflexivity]]. simpl_state. done.
  - eexists _, w. split; [|split; [done|left; eexists; reflexivity]]. simpl_state. done.
Qed.

(** How a handler leaves a response that had not been started: it called
    [WriteHeader] at most once, and panicked after that only if [cut]. *)
Definition handled (cut : Prop) w w' (o : outcome unit) : Prop :=
  match o with
  | Return _ => single_status w w'
  | Panic _ => (w_sent w' = None /\ w_calls w' = w_calls w) \/
      cut /\ exists st h, w_calls w' = w_calls w ++ [st] /\ w_sent w' = Some (st, h)
  end.

(** A handler that leaves the metrics alone and its response like that. *)
Definition polite (cut : Prop) next : Prop :=
  forall r w s, let res := next r w s in
    get (A := Metrics) (snd res) = get s /\
    (w_sent w = None -> handled cut w (snd (fst res)) (fst (fst res))).

Lemma handled_shift cut w w1 w' o :
  w_calls w1 = w_calls w -> handled cut w1 w' o -> handled cut w w' o.
Proof. unfold handled, single_status. intros ->. done. Qed.

(** What the rate limiter around a polite handler leaves. *)
Definition limited_outcome (cut : Prop) (r : HttpRequest) w s (res : outcome unit * ResponseWriter * W) : Prop :=
  let '(o, w', s') := res in
  (get (A := Metrics) s' = get s \/
   get s' = count_limited (rq_Method r) (SanitizePath (rq_Path r)) (get s) /\
   final_status w' = StatusTooManyRequests /\ o = Return tt) /\
  handled cut w w' o.

Lemma rate_limit_outcome cut cfg next r w s :
  polite cut next -> w_sent w = None ->
  limited_outcome cut r w s (RateLimitMiddleware (L := L) (S := S) cfg next r w s).
Proof.
  intros Hnext Hw. unfold limited_outcome.
  destruct (rate_limit_cases cfg next r w s) as (s1 & w1 & Em & (Es & Ec & _) & H). cbv zeta in H.
  destruct H as [[m ->]|[->| ->]].
  - by split; left.
  - destruct (Hnext r w1 s1) as [Hm Hst]. rewrite Es in Hst. specialize (Hst Hw).
    destruct (next r w1 s1) as [[o w'] s']. cbn [fst snd] in *.
    split; [left; congruence|]. by apply (handled_shift cut w w1).
  - pose proof (problem_single_status w1 StatusTooManyRequests (too_many_requests r)) as Hp.
    rewrite Es in Hp. specialize (Hp Hw). split; [|by apply (handled_shift cut w w1)].
    destruct (has_Metrics cfg); [right|by left].
    rewrite get_modify, Em. split; [done|]. split; [|done].
    unfold final_status. by rewrite problem_sent, Es, Hw.
Qed.

Lemma logging_outcome cut fresh_id next r w s :
  (forall w s, w_sent w = None -> limited_outcome cut r w s (next r w s)) -> w_sent w = None ->
  limited_outcome cut r w s (LoggingMiddleware fresh_id next r w s).
Proof.
  intros Hnext Hw. unfold LoggingMiddleware, read_clock. cbv beta zeta.
  set (w1 := if bool_decide _ then set_header w _ _ else w).
  assert (Hw1 : w_sent w1 = None /\ w_calls w1 = w_calls w)
    by (subst w1; by destruct (bool_decide _)).
  destruct Hw1 as [Hw1 Ec].
  set (s1 := put _ s).
  assert (Em : get (A := Metrics) s1 = get s) by (subst s1; by simpl_state).
  specialize (Hnext w1 s1 Hw1). unfold limited_outcome in *.
  destruct (next r w1 s1) as [[[[]|m] w'] s']; rewrite ?Em in Hnext.
  - unfold log_add. rewrite get_modify_other, get_put_other.
    destruct Hnext as [Hm Hst]. split; [exact Hm|]. by apply (handled_shift cut w w1).
  - destruct Hnext as [Hm Hst]. split; [exact Hm|]. by apply (handled_shift cut w w1).
Qed.

(** The recovery answers a panic; when the response had been started, its
    [WriteHeader] comes too late. *)
Definition answered (cut : Prop) w w' : Prop :=
  single_status w w' \/
  cut /\ exists st h, w_calls w' = w_calls w ++ [st; StatusInternalServerError] /\ w_sent w' = Some (st, h).

Lemma recovery_outcome cut next r w s :
  (forall w s, w_sent w = None -> limited_outcome cut r w s (next r w s)) -> w_sent w = None ->
  let '(o, w', s') := RecoveryMiddleware next r w s in
  o = Return tt /\ answered cut w w' /\
  (get (A := Metrics) s' = get s \/
   get s' = count_limited (rq_Method r) (SanitizePath (rq_Path r)) (get s) /\
   final_status w' = StatusTooManyRequests).
Proof.
  intros Hnext Hw. specialize (Hnext w s Hw). unfold RecoveryMiddleware, limited_outcome in *.
  destruct (next r w s) as [[[[]|m] w'] s'].
  - destruct Hnext as [Hm Hst]. split; [done|]. split; [by left|]. destruct Hm as [|(? & ? & _)]; auto.
  - destruct Hnext as [[Hm|(_ & _ & [=])] Hst]. split; [done|].
    split; [|left; unfold log_add; by rewrite get_modify_other].
    destruct Hst as [[Hs Hc]|(Hcut & st & h & Hc & Hs)].
    + left. apply (handled_shift cut w w' _ (Return tt)); [done|]. by apply problem_single_status.
    + right. split; [done|]. exists st, h.
      destruct (problem_calls w' StatusInternalServerError (internal_error r)) as [-> _].
      rewrite Hc, problem_sent, Hs. by rewrite <- app_assoc.
Qed.

Lemma answered_recorded cut w w' :
  answered cut w w' ->
  wrapper_status w w' = final_status w' \/ cut /\ wrapper_status w w' = StatusInternalServerError.
Proof.
  intros [H|(Hcut & st & h & Hc & _)]; [left; by apply single_status_recorded|].
  right. split; [done|]. by apply (wrapper_status_last w w' [st]).
Qed.

(** What the handler chain leaves of a request: the gauge as it was, one
    request counted under the status [c], and a rejection only with the
    status 429. *)
Definition accounted (c : Z) (r : HttpRequest) s w' (s' : W) : Prop :=
  let m : Metrics := get s in
  let m' : Metrics := get s' in
  let path := SanitizePath (rq_Path r) in
  ActiveRequests m' = ActiveRequests m /\
  RequestsTotal m' = counter_Inc (rq_Method r, path, Itoa c) (RequestsTotal m) /\
  (exists d, RequestDuration m' = RequestDuration m ++ [(rq_Method r, path, d)]) /\
  (RateLimitedTotal m' = RateLimitedTotal m \/
   RateLimitedTotal m' = counter_Inc (rq_Method r, path) (RateLimitedTotal m) /\
   final_status w' = 429).

Lemma chain_accounted cut cfg fresh_id proxyHandler r s :
  polite cut proxyHandler ->
  exists w' s' c, mainHandler cfg fresh_id proxyHandler r new_writer s = (Return tt, w', s') /\
    accounted c r s w' s' /\
    (c = final_status w' \/ cut /\ c = StatusInternalServerError).
Proof.
  intros Hp. set (s0 := modify (gauge_Add 1) (snd (read_clock 1 s))).
  set (inner := RecoveryMiddleware (LoggingMiddleware fresh_id
    (RateLimitMiddleware (L := L) (S := S) cfg proxyHandler))).
  assert (Em : get (A := Metrics) s0 = gauge_Add 1 (get s))
    by (subst s0; unfold read_clock; cbn [snd]; by simpl_state).
  pose proof (recovery_outcome cut (LoggingMiddleware fresh_id
    (RateLimitMiddleware (L := L) (S := S) cfg proxyHandler)) r new_writer s0) as H.
  fold inner in H. destruct (inner r new_writer s0) as [[o w'] s1] eqn:Ei.
  destruct H as (-> & Hans & Hm); [|done|].
  { intros w s2 Hw. apply logging_outcome; [|done]. intros. by apply rate_limit_outcome. }
  destruct (metrics_Middleware_return inner r new_writer s s1 w' Ei)
    as (s' & Hrun & Ha & Hl & Ht & Hd).
  exists w', s', (wrapper_status new_writer w'). split; [exact Hrun|].
  split; [|by apply answered_recorded]. unfold accounted. cbv zeta in *.
  destruct Hm as [E|(E & Hs)]; rewrite E, Em in Ha, Hl, Ht, Hd; cbn in Ha, Hl, Ht, Hd.
  - split; [lia|]. split; [exact Ht|]. split; [exact Hd|]. by left.
  - split; [lia|]. split; [exact Ht|]. split; [exact Hd|]. by right.
Qed.

(** The layers around the rate limiter change the metrics, the log and the
    clock only. *)
Lemma chain_rule (I J : W -> Prop) cfg fresh_id next r :
  (forall (f : Metrics -> Metrics) s, I s -> I (modify f s)) ->
  (forall n s, I s -> I (snd (read_clock n s))) ->
  (forall (f : Metrics -> Metrics) s, J s -> J (modify f s)) ->
  (forall n s, J s -> J (snd (read_clock n s))) -> (forall l s, J s -> J (log_add l s)) ->
  (forall w s, I s -> J (snd (RateLimitMiddleware (L := L) (S := S) cfg next r w s))) ->
  forall w s, I s -> J (snd (mainHandler cfg fresh_id next r w s)).
Proof.
  intros Im Ic Jm Jc Jl Hr w s H. unfold mainHandler, metrics_Middleware. cbn [negb].
  pose proof (Ic 1%nat s H) as H1. destruct (read_clock 1 s) as [rd1 s1]. cbn [snd] in H1.
  apply (Im (gauge_Add 1)) in H1. set (s2 := modify _ s1) in *. clearbody s2.
  assert (Hc : J (snd (RecoveryMiddleware (LoggingMiddleware fresh_id
    (RateLimitMiddleware (L := L) (S := S) cfg next)) r w s2))).
  { unfold RecoveryMiddleware, LoggingMiddleware.
    pose proof (Ic 1%nat s2 H1) as H2. destruct (read_clock 1 s2) as [rd2 s3]. cbn [snd] in H2.
    set (w1 := if bool_decide _ then _ else _). specialize (Hr w1 s3 H2).
    destruct (RateLimitMiddleware _ _ r w1 s3) as [[[[]|m] w'] s4]; cbn [snd] in *; [|by apply Jl].
    pose proof (Jc 1%nat s4 Hr) as H4. destruct (read_clock 1 s4) as [rd4 s5]. by apply Jl. }
  destruct (RecoveryMiddleware _ r w s2) as [[[[]|m] w'] s6]; cbn [snd] in *; [|done].
  pose proof (Jc 1%nat s6 Hc) as H6. destruct (read_clock 1 s6) as [rd6 s7]. by repeat apply Jm.
Qed.

(** What the limiter calls of one client keep, the handler chain keeps. *)
Section Frame.
Context (P : L -> Prop) (id : string).
Hypothesis P_Allow : forall l rd, P l -> P (snd (limiter_Allow l id rd)).
Hypothesis P_Tokens : forall l rd, P l -> P (snd (limiter_Tokens l id rd)).
Hypothesis P_SetLimit : forall l n q rd, P l -> P (snd (limiter_SetLimit l id n q rd)).

(** A handler keeps the property of the limiter. *)
Definition keeps next (r : HttpRequest) : Prop := forall w s, P (get s) -> P (get (snd (next r w s))).

Lemma sync_keeps (lim default_limit : Z) s :
  P (get s) -> P (get (snd (syncLimitIfNeeded (L := L) id lim default_limit s))).
Proof.
  intros H. unfold syncLimitIfNeeded. destruct (_ =? _); [done|]. destruct (bool_decide _); [done|].
  unfold read_clock. cbv zeta. rewrite get_put_other.
  pose proof (P_SetLimit (get s) lim (f64_of_Z lim)
    (fun i => timeline (get s) (ticks (get s) + i)%nat) H) as HP.
  destruct (limiter_SetLimit _ _ _ _ _) as [[[e|]|m] l]; cbn [snd] in *; by simpl_state.
Qed.

Lemma charge_keeps cfg next (lim : Z) r : keeps next r -> keeps (charge_one cfg next id lim) r.
Proof.
  intros Hn w s H. unfold charge_one, read_clock. cbv beta zeta. rewrite get_put_other.
  pose proof (P_Allow (get s) (fun i => timeline (get s) (ticks (get s) + i)%nat) H) as HP.
  destruct (limiter_Allow _ _ _) as [[[ok [e|]]|m] l]; cbn [snd] in HP.
  - apply Hn. unfold log_add. by simpl_state.
  - simpl_state. set (rd := fun i => _) in *. pose proof (P_Tokens l rd HP) as HP'.
    destruct (limiter_Tokens l id rd) as [[[k e]|m] l']; cbn [snd] in HP'; [|cbn [snd]; by simpl_state].
    destruct ok; cbn [negb]; [apply Hn; by simpl_state|]. destruct (has_Metrics cfg); cbn [snd]; by simpl_state.
  - cbn [snd]. by simpl_state.
Qed.

Lemma rate_limit_keeps cfg next r :
  resolveClientID r = id -> keeps next r -> keeps (RateLimitMiddleware (S := S) cfg next) r.
Proof.
  intros Hid Hn w s H. unfold RateLimitMiddleware. rewrite Hid.
  destruct (resolve_frame (L := L) (S := S) cfg (header_Get (rq_Header r) APIKeyHeader) s)
    as (El & _). destruct (resolveClientLimit cfg _ s) as [lim s1]. cbn [snd] in El.
  pose proof (sync_keeps lim (DefaultLimit cfg) s1 ltac:(by rewrite El)) as H2.
  destruct (syncLimitIfNeeded _ _ _ s1) as [[[]|m] s2]; cbn [snd] in *; [|done].
  by apply charge_keeps.
Qed.

Lemma chain_keeps cfg fresh_id next r :
  resolveClientID r = id -> keeps next r -> keeps (mainHandler cfg fresh_id next) r.
Proof.
  intros Hid Hn w s H. apply (chain_rule (fun s => P (get s)) (fun s => P (get s)));
    try (intros; unfold read_clock, log_add; cbn [snd]; by simpl_state).
  by apply rate_limit_keeps.
Qed.
End Frame.
End Gateway.

(** ** Properties *)

(** C38: an aborted response is hidden.  Take a response of the upstream that
    may have a body (the method is not [HEAD], the status neither 204 nor 304),
    declares no length, and whose copy fails after its status has been sent.
    The proxy panics so that the server cuts the connection; the recovery
    middleware takes the panic, and the chain returns normally: the client
    gets the upstream's status, and the part of the body that was copied with
    a problem document after it, in a response that declares no length
    either, so that nothing tells it from a complete one.  (Where the upstream
    declares a length, the server itself holds the response against it.) *)
Theorem aborted_response_hidden {L S W} `{!Limiter L, !LimitStore S, !RateLimitState L S W}
    response lib (out : OutRequest) (ctx : Ctx) wr (next : Handler W) (r : HttpRequest)
    (w w1 : ResponseWriter) (s s1 : W) (resp : Response) :
  w_sent w1 = None ->
  next r w s = (proxy_answer response lib out ctx wr w1 (Return (Some resp, None)), s1) ->
  StatusCode resp <> StatusSwitchingProtocols ->
  rq_Method r <> "HEAD" -> body_allowed (StatusCode resp) = true ->
  snd (response (resp_id resp)) = false ->
  fst (fst (response (resp_id resp))) !! "Content-Length" = None ->
  w_header w1 !! "Content-Length" = None ->
  let res := RecoveryMiddleware next r w s in
  fst (fst res) = Return tt /\
  final_status (snd (fst res)) = StatusCode resp /\
  final_header (snd (fst res)) !! "Content-Length" = None /\
  w_body (snd (fst res)) =
    w_body w1 ++ [Bytes (snd (fst (response (resp_id resp)))); JSONProblem (internal_error r)].
Proof.
  intros Hw Hn Hs _ _ Hcopy Hlen Hlen1 res. unfold res, RecoveryMiddleware. rewrite Hn. unfold proxy_answer.
  rewrite (proj2 (Z.eqb_neq _ _) Hs).
  destruct (response (resp_id resp)) as [[h body] copied]. cbn [fst snd] in *. subst copied.
  cbn [fst snd]. split; [done|]. unfold final_status, final_header.
  destruct (problem_calls (Write (WriteHeader (mkWriter
    (copyHeader (w_header w1) (ModifyResponse out (removeHopByHopHeaders h))) (w_sent w1) (w_body w1)
    (w_calls w1)) (StatusCode resp)) (Bytes body)) StatusInternalServerError (internal_error r))
    as [_ Hb].
  rewrite problem_sent, Hb. destruct w1 as [hd sent b c]. simpl in Hw. subst sent. simpl in *.
  split; [done|]. split; [|by rewrite <- app_assoc].
  unfold copyHeader. rewrite lookup_union_with, Hlen1, ModifyResponse_other by done.
  by rewrite removeHopByHop_None.
Qed.

Lemma aborted_response_hidden_witness :
  let response (_ : nat) := (∅, "half", false) in
  let next : Handler (GatewayState.Gateway MemoryLimiter demo_store unit) := fun r w s =>
    (proxy_answer response demo_lib (outgoing demo_lib demo_target demo_proxy_request)
       (mkCtx (fun _ => None) None) (chain_writer (ServerWriter true true)) w (Return (Some (mkResponse 1 200 true), None)), s) in
  final_status (snd (fst (RecoveryMiddleware next demo_proxy_request new_writer demo_gateway))) = 200.
Proof.
  intros response next.
  apply (aborted_response_hidden (S := demo_store) response demo_lib
    (outgoing demo_lib demo_target demo_proxy_request) (mkCtx (fun _ => None) None)
    (chain_writer (ServerWriter true true)) next
    demo_proxy_request new_writer new_writer demo_gateway demo_gateway (mkResponse 1 200 true));
    [reflexivity|reflexivity|discriminate|discriminate|reflexivity|reflexivity|reflexivity|reflexivity].
Defined.
