(* ===== verification/ServedBound.v ===== *)
(** * The promise of the gateway: how many requests of a client it serves

    The handler chain over the in-memory limiter, with an upstream that
    records what it receives, and with the limiter's cleanup goroutine waking
    up at any time between two requests: the bound on the requests of one
    client that reach the upstream, over any sequence of requests of any
    clients. *)
From S2P Require Import Prelude GoTime Float64 Float64Facts GoError GoString Http State Metrics.
From S2P Require Import TokenBucket Limiter MemoryLimiter Postgres CachedStore Middleware GatewayState.
From S2P Require Import RateLimiting Gateway.

Section Served.
Context {S : Type} `{!LimitStore S}.
Local Abbreviation W := (GatewayState.Gateway MemoryLimiter S (list HttpRequest)).
Implicit Types (s : W) (id : string).

(** The handler behind the middleware: it gets the request, and answers. *)
Definition upstream (answer : HttpRequest -> ResponseWriter -> outcome unit * ResponseWriter)
  : Handler W :=
  fun r w s =>
    (fst (answer r w), snd (answer r w),
     mkGateway (g_limiter s) (g_store s) (g_synced s) (g_metrics s) (g_log s) (g_clock s)
       (g_upstream s ++ [r])).

Context (answer : HttpRequest -> ResponseWriter -> outcome unit * ResponseWriter).

(** What the gateway does, one thing after the other: it serves a request, with
    the request ID it may be given, or its limiter's cleanup goroutine wakes
    up. *)
Inductive gateway_event :=
  | Serve (fresh_id : string) (r : HttpRequest)
  | Wake.

Definition gateway_cleanup s : W :=
  let '(rd, s) := read_clock 1 s in modify (fun m : MemoryLimiter => cleanup m (rd 0%nat)) s.

Definition gateway_step (cfg : RateLimitConfig) (e : gateway_event) s : W :=
  match e with
  | Serve fresh_id r => snd (mainHandler (S := S) cfg fresh_id (upstream answer) r new_writer s)
  | Wake => gateway_cleanup s
  end.

Definition gateway_run (cfg : RateLimitConfig) (events : list gateway_event) s : W :=
  fold_left (fun s e => gateway_step cfg e s) events s.

(** The requests of a client the upstream has received. *)
Definition received id s : Z :=
  Z.of_nat (length (filter (fun r => resolveClientID r = id) (g_upstream s))).

(** A clock whose monotonic readings are 64-bit integers and never go back. *)
Definition steady (tl : nat -> Time) : Prop :=
  forall i, has_mono (tl i) /\ 0 <= mono_ns (tl i) <= mono_ns (tl (Datatypes.S i)) /\ mono_ns (tl i) <= max_int64.

Lemma steady_le (tl : nat -> Time) (i j : nat) :
  steady tl -> (i <= j)%nat -> mono_ns (tl i) <= mono_ns (tl j).
Proof. intros H. induction 1 as [|j _ IH]; [lia|]. pose proof (H j). lia. Qed.

Section Invariant.
Context (c : Config) (C q : Z) (id : string) (s0 : W).
Hypothesis C_burst : BurstSize c = C.
Hypothesis q_rate : TokensPerSecond c = f64_of_Z q.
Hypothesis C_ok : 1 <= C <= 2 ^ 20.
Hypothesis q_ok : 1 <= q <= 2 ^ 20.
Hypothesis interval_pos : 0 < CleanupInterval c.
Hypothesis interval_int : 2 * CleanupInterval c <= max_int64.
Hypothesis clock_ok : steady (timeline (g_clock s0)).

(** The clock at the [i]-th reading, and at the next one of a state. *)
Definition at_reading (i : nat) : Z := mono_ns (timeline (g_clock s0) i).

Definition at_state s : Z := at_reading (ticks (g_clock s)).

(** From the last use of an entry to the cleanup that drops it. *)
Definition idle_time : Z := 2 * CleanupInterval c + 1.

(** [k] buckets of the client, all dropped by [t], let [b] requests through. *)
Definition spent (k b t : Z) : Prop :=
  0 <= k /\ at_state s0 + k * idle_time <= t /\
  (b - received id s0) * Second <= k * ((C + 1) * Second) + q * (t - at_state s0).

(** The bucket of the client, after [n] events: made at the [i]-th reading, when
    earlier buckets had let [b] requests through, it is the result of a
    history of calls that handed out a token for each request since. *)
Definition bucket_history (n : nat) s tb : Z -> nat -> Prop := fun b i =>
  exists h, (ticks (g_clock s0) <= i < ticks (g_clock s))%nat /\
    tb_run (mkTokenBucket C (f64_of_Z q) (f64_of_Z C) (timeline (g_clock s0) i)) h =
      (received id s - b, tb) /\
    Forall (fun cn => fst cn <> CallReset /\ read_between (S := S) s0 s (snd cn)) h /\
    (length h <= 2 * n)%nat.

(** What is known of the client's entry. *)
Definition entry_ok (n : nat) s (x : option (TokenBucket * Time)) : Prop :=
  match x with
  | None => exists k, spent k (received id s) (at_state s)
  | Some (tb, u) => exists k b i, spent k b (at_reading i) /\ bucket_history n s tb b i /\
      has_mono u /\ at_state s0 + k * idle_time <= mono_ns u <= at_state s
  end.

Record served_inv (n : nat) s : Prop := {
  si_timeline : timeline (g_clock s) = timeline (g_clock s0);
  si_ticks : (ticks (g_clock s0) <= ticks (g_clock s))%nat;
  si_config : config (g_limiter s) = c;
  si_entry : exists sp, represents (g_limiter s) sp /\ entry_ok n s (sp !! id);
}.

Lemma spent_later (k b t t' : Z) : spent k b t -> t <= t' -> spent k b t'.
Proof. intros (H1 & H2 & H3) Ht. split; [done|]. split; [lia|]. nia. Qed.

Lemma history_weaken (n n' : nat) s s' tb b i :
  bucket_history n s tb b i -> (n <= n')%nat -> received id s' = received id s ->
  (ticks (g_clock s) <= ticks (g_clock s'))%nat -> bucket_history n' s' tb b i.
Proof.
  intros (h & Hi & Hrun & Hh & Hlen) Hn Hu Ht. exists h. split; [lia|].
  split; [rewrite Hu; exact Hrun|]. split; [|lia].
  eapply Forall_impl; [exact Hh|]. intros cn (H1 & j & Hj & E). split; [done|].
  exists j. split; [|exact E]. change (get s') with (g_clock s').
  change (get s) with (g_clock s) in Hj. lia.
Qed.

(** What is known of an entry stays known while no request of the client
    reaches the upstream. *)
Lemma entry_weaken (n n' : nat) s s' x :
  entry_ok n s x -> (n <= n')%nat -> received id s' = received id s ->
  (ticks (g_clock s) <= ticks (g_clock s'))%nat -> entry_ok n' s' x.
Proof.
  intros Hx Hn Eu Ht. pose proof (steady_le _ _ _ clock_ok Ht) as Hle.
  destruct x as [[tb u]|].
  - destruct Hx as (k & b & i & H1 & H2 & H3 & H4). exists k, b, i. split; [done|].
    split; [by eapply history_weaken|]. split; [done|]. unfold at_state, at_reading in *. lia.
  - destruct Hx as (k & Hk). exists k. rewrite Eu. by eapply spent_later.
Qed.

(** The invariant only reads the limiter, the clock and the upstream. *)
Lemma inv_weaken (n n' : nat) s s' :
  served_inv n s -> (n <= n')%nat -> g_limiter s' = g_limiter s ->
  g_upstream s' = g_upstream s -> timeline (g_clock s') = timeline (g_clock s) ->
  (ticks (g_clock s) <= ticks (g_clock s'))%nat -> served_inv n' s'.
Proof.
  intros [H1 H2 H3 (sp & Hr & Hb)] Hn El Eu Et Ht. split; [congruence|lia|congruence|].
  exists sp. rewrite El. split; [done|].
  eapply entry_weaken; [exact Hb|done|unfold received; by rewrite Eu|done].
Qed.

(** What a bucket has let through. *)
Lemma history_bound (n : nat) s tb b i :
  bucket_history n s tb b i -> Z.of_nat n <= 2 ^ 27 ->
  (received id s - b) * Second <= (C + 1) * Second + q * (at_state s - at_reading i).
Proof.
  intros (h & Hi & Hrun & Hh & Hl) Hn.
  set (tb0 := mkTokenBucket C (f64_of_Z q) (f64_of_Z C) (timeline (g_clock s0) i)) in Hrun.
  destruct (integer_rate q) as (H1 & H2 & Ev & H3); [lia|]. pose proof f64_unit_pos.
  pose proof (rate_bound tb0 h) as Hbound. rewrite Hrun in Hbound. cbn [fst snd] in Hbound.
  pose proof (tb_run_refill tb0 h) as Hlast. rewrite Hrun in Hlast. cbn [snd] in Hlast.
  assert (Hj : mono_ns (lastRefill tb) <= at_state s).
  { assert (Hj : exists j, (j < ticks (g_clock s))%nat /\ lastRefill tb = timeline (g_clock s0) j).
    { apply elem_of_cons in Hlast as [->|Hin]; [exists i; split; [lia|done]|].
      apply list_elem_of_fmap in Hin as ([cl now] & -> & Hin). rewrite Forall_forall in Hh.
      destruct (Hh _ Hin) as (_ & j & Hj & E). exists j. split; [|done].
      change (get s) with (g_clock s) in Hj. lia. }
    destruct Hj as (j & Hj & ->). apply steady_le; [done|lia]. }
  assert (Ha : Forall admissible h).
  { eapply Forall_impl; [exact Hh|]. intros cn (Hr & k & _ & E). split; [|done]. rewrite E. apply clock_ok. }
  unfold refill_span in Hbound. change (mono_ns (lastRefill tb0)) with (at_reading i) in Hbound.
  change (capacity tb0) with C in Hbound. change (refillRate tb0) with (f64_of_Z q) in Hbound.
  rewrite Ev in Hbound.
  specialize (Hbound ltac:(apply new_bucket_wf; try done; [unfold max_int64; lia|apply clock_ok])
    ltac:(lia) ltac:(nia) Ha ltac:(lia)).
  apply (Z.mul_le_mono_pos_r _ _ f64_unit); [done|]. nia.
Qed.

(** The cleanup. *)
Lemma cleanup_step n s : Z.of_nat n <= 2 ^ 27 -> served_inv n s -> served_inv (n + 1) (gateway_cleanup s).
Proof.
  intros Hn [Ht Hk Hc (sp & Hr & Hb)]. set (now := timeline (g_clock s) (ticks (g_clock s) + 0)%nat).
  set (s' := gateway_cleanup s).
  assert (Es : g_limiter s' = cleanup (g_limiter s) now /\ g_upstream s' = g_upstream s /\
    timeline (g_clock s') = timeline (g_clock s) /\ ticks (g_clock s') = (ticks (g_clock s) + 1)%nat)
    by done.
  clearbody s'. destruct Es as (El & Eu & Et & Ek).
  split; [congruence|lia|by rewrite El|]. exists (spec_cleanup c sp now). rewrite El.
  split; [rewrite <- Hc; by apply cleanup_refines|].
  assert (Hlater : entry_ok (n + 1) s' (sp !! id)) by (eapply entry_weaken; [exact Hb|lia|unfold received; by rewrite Eu|lia]).
  unfold spec_cleanup. rewrite map_lookup_filter.
  destruct (sp !! id) as [[tb u]|] eqn:Eid; [|exact Hlater]. simpl. case_guard as Hg; [exact Hlater|].
  apply not_false_is_true in Hg. simpl.
  destruct Hb as (k & b & i & Hspent & Hhist & [v Hv] & Hu).
  destruct (clock_ok (ticks (g_clock s))) as [[m Hm] Hmr].
  assert (Em : mono now = Some m) by (unfold now; by rewrite Nat.add_0_r, Ht).
  assert (Hat : at_state s = m) by (unfold at_state, at_reading, mono_ns; by rewrite Hm).
  replace (mono_ns u) with v in Hu by (unfold mono_ns; by rewrite Hv). rewrite Hat in Hu.
  fold (at_reading (ticks (g_clock s))) in Hmr. fold (at_state s) in Hmr. rewrite Hat in Hmr.
  pose proof (idle_before (g_limiter s) u now v m Hv Em) as Hidle. unfold idle_threshold in Hidle.
  rewrite Hc in Hidle. rewrite Hidle in Hg by lia. apply Z.ltb_lt in Hg.
  exists (k + 1). destruct Hspent as (Hk0 & _ & Hs). pose proof (history_bound n s tb b i Hhist Hn) as Hbd.
  assert (Hat' : m <= at_state s').
  { rewrite <- Hat. apply steady_le; [exact clock_ok|lia]. }
  unfold spent. replace (received id s') with (received id s) by (unfold received; by rewrite Eu).
  unfold idle_time in *. rewrite Hat in Hbd.
  split; [lia|]. split; [lia|]. nia.
Qed.

(** What a request does to the history of its bucket. *)
Lemma run_request tb0 (h : list (tb_call * Time)) (k : Z) tb (t t' : Time) :
  tb_run tb0 h = (k, tb) ->
  tb_run tb0 ((h ++ [(CallAllowN 1, t)]) ++ [(CallTokens, t')]) =
  (k + (if fst (AllowN tb 1 t) then 1 else 0), snd (Tokens (snd (AllowN tb 1 t)) t')).
Proof.
  intros H. rewrite !tb_run_snoc, H. cbn [fst snd tb_step].
  destruct (AllowN tb 1 t) as [[] tb1]; cbn [fst snd]; by rewrite Z.add_0_r.
Qed.

Lemma received_snoc s s' r :
  g_upstream s' = g_upstream s ++ [r] ->
  received id s' = received id s + if bool_decide (resolveClientID r = id) then 1 else 0.
Proof.
  intros E. unfold received. rewrite E, filter_app, length_app. case_bool_decide as Er.
  - rewrite filter_cons_True by done. simpl. lia.
  - rewrite filter_cons_False by done. simpl. lia.
Qed.

(** All that the client's buckets have let through. *)
Lemma all_spent n s x :
  Z.of_nat n <= 2 ^ 27 -> entry_ok n s x ->
  exists k, 0 <= k /\ at_state s0 + k * idle_time <= at_state s /\
    (received id s - received id s0) * Second <=
      (k + 1) * ((C + 1) * Second) + q * (at_state s - at_state s0).
Proof.
  intros Hn Hx. destruct x as [[tb u]|].
  - destruct Hx as (k & b & i & (H1 & _ & H3) & Hh & _ & Hu). exists k. split; [done|].
    split; [lia|]. pose proof (history_bound n s tb b i Hh Hn). nia.
  - destruct Hx as (k & H1 & H2 & H3). exists k. split; [done|]. split; [done|]. unfold Second in *. nia.
Qed.

Lemma c_ok : config_ok c.
Proof.
  destruct (integer_rate q) as (H1 & H2 & Ev & H3); [lia|]. pose proof f64_unit_pos.
  split; [lia|]. rewrite q_rate, f64_leb_spec, (proj2 (Z.leb_gt _ _)); [done| |done|done].
  change (f64_val (f64_of_Z 0)) with 0. lia.
Qed.

(** A request charged to a bucket of the client goes on its history. *)
Lemma charged_run n s s' s2 tb b i r t t' ok :
  bucket_history n s' tb b i -> frame (S := S) s s' ->
  timeline (g_clock s) = timeline (g_clock s0) -> (ticks (g_clock s0) <= ticks (g_clock s))%nat ->
  g_clock s2 = g_clock s' -> read_between (S := S) s s' t -> read_between (S := S) s s' t' ->
  ok = fst (AllowN tb 1 t) -> resolveClientID r = id ->
  g_upstream s2 = (if ok then g_upstream s' ++ [r] else g_upstream s') ->
  bucket_history (n + 1) s2 (snd (Tokens (snd (AllowN tb 1 t)) t')) b i.
Proof.
  intros (h & Hi & Hrun & Hall & Hlen) (Ft & Fk & _) Ht Hk Ek Hrt Hrt' -> Hid Eu.
  change (get s) with (g_clock s) in Ft, Fk. change (get s') with (g_clock s') in Ft, Fk.
  assert (Hrb : forall x, read_between (S := S) s s' x -> read_between (S := S) s0 s2 x).
  { intros x (j & Hj & ->). exists j. change (get s) with (g_clock s) in *.
    change (get s') with (g_clock s') in Hj. change (get s2) with (g_clock s2).
    change (get s0) with (g_clock s0). rewrite Ek. split; [lia|congruence]. }
  exists ((h ++ [(CallAllowN 1, t)]) ++ [(CallTokens, t')]). rewrite Ek. split; [done|].
  split; [|split].
  - rewrite (run_request _ _ _ _ t t' Hrun). f_equal. destruct (fst (AllowN tb 1 t)).
    + rewrite (received_snoc s' s2 r Eu), bool_decide_true by done. lia.
    + unfold received. rewrite Eu. lia.
  - rewrite !Forall_app. split; [split|].
    + eapply Forall_impl; [exact Hall|]. intros cn (H1 & j & Hj & E). split; [done|].
      exists j. change (get s2) with (g_clock s2). rewrite Ek. by split.
    + constructor; [|constructor]. split; [done|by apply Hrb].
    + constructor; [|constructor]. split; [done|by apply Hrb].
  - rewrite !length_app. simpl. lia.
Qed.

Section Request.
Context (cfg : RateLimitConfig).
Hypothesis no_storage : has_Storage cfg = false.
Hypothesis default_ok : 1 <= DefaultLimit cfg <= max_int64.

(** The rate limiter asks for no limit of the client's own. *)
Lemma default_limit (key : string) s :
  fst (resolveClientLimit (S := S) cfg key s) = DefaultLimit cfg.
Proof. unfold resolveClientLimit. by rewrite no_storage. Qed.

(** The bucket a request of the client is charged to. *)
Lemma charged_history n s s' sp tb :
  served_inv n s -> represents (g_limiter s) sp -> entry_ok n s (sp !! id) ->
  frame (S := S) s s' -> (ticks (g_clock s) < ticks (g_clock s'))%nat -> g_upstream s' = g_upstream s ->
  charged_bucket (S := S) cfg c sp id (DefaultLimit cfg) s s' tb ->
  exists k b i, spent k b (at_reading i) /\ bucket_history n s' tb b i /\
    at_state s0 + k * idle_time <= at_state s.
Proof.
  intros [Ht Hk Hc _] Hr Hb (Ft & Fk & _) Hlt Hu Hch. unfold charged_bucket, needs_sync in Hch.
  rewrite Z.eqb_refl in Hch. cbn [negb andb] in Hch.
  change (get s) with (g_clock s) in Ft, Fk. change (get s') with (g_clock s') in Ft, Fk.
  destruct (sp !! id) as [[tb0 u]|].
  - subst tb0. destruct Hb as (k & b & i & H1 & H2 & _ & H4). exists k, b, i. split; [done|].
    split; [eapply history_weaken; [exact H2|done|unfold received; by rewrite Hu|lia]|lia].
  - destruct Hch as (now & (i & Hi & ->) & ->). destruct Hb as [k Hsp]. exists k, (received id s), i.
    change (get s) with (g_clock s) in *. change (get s') with (g_clock s') in Hi.
    pose proof (steady_le _ _ _ clock_ok (proj1 Hi)).
    split; [by eapply spent_later|]. split; [|by destruct Hsp as (_ & Hsp & _)].
    exists []. split; [lia|]. split; [|split; [constructor|simpl; lia]].
    rewrite C_burst, q_rate, Ht. simpl. unfold received in *. rewrite Hu. f_equal. lia.
Qed.

(** What [respond] leaves of the limiter, the clock and the upstream. *)
Lemma respond_upstream (lim : Z) (ok : bool) (left : Z) r w s :
  let s' := snd (respond cfg (upstream answer) lim ok left r w s) in
  g_limiter s' = g_limiter s /\ g_clock s' = g_clock s /\
  g_upstream s' = if ok then g_upstream s ++ [r] else g_upstream s.
Proof. unfold respond. destruct ok; [done|]. by destruct (has_Metrics cfg). Qed.

Lemma limited_step n r w s :
  served_inv n s ->
  served_inv (n + 1)
    (snd (RateLimitMiddleware (L := MemoryLimiter) (S := S) cfg (upstream answer) r w s)).
Proof.
  intros Hinv. destruct Hinv as [Ht Hk Hc (sp & Hr & Hb)] eqn:Einv. clear Einv.
  change (represents (limiter_of (S := S) s) sp) in Hr.
  destruct (request_memory (S := S) cfg (upstream answer) r w s sp Hr)
    as (tb & t & t' & u & s' & Hch & -> & Hr' & _ & Hc' & Hf & Hrt & Hrt' & Hru).
  { unfold limiter_of. change (get s) with (g_limiter s). rewrite Hc. exact c_ok. }
  { by rewrite default_limit. }
  rewrite default_limit in Hch |- *. unfold limiter_of in *.
  change (get (A := MemoryLimiter) s) with (g_limiter s) in *.
  change (get (A := MemoryLimiter) s') with (g_limiter s') in *. rewrite Hc in Hch, Hc'.
  assert (Hu : g_upstream s' = g_upstream s).
  { destruct Hf as (_ & _ & Hf). apply (Hf _ g_upstream_component); by intros ? ?. }
  set (ok := fst (AllowN tb 1 t)) in *. set (left := fst (Tokens _ t')).
  destruct (respond_upstream (DefaultLimit cfg) ok left r w s') as (El & Ek & Eu).
  set (s2 := snd (respond _ _ _ _ _ r w s')) in *. clearbody s2.
  pose proof Hf as (Ft & Fk & _). change (get s) with (g_clock s) in Ft, Fk.
  change (get s') with (g_clock s') in Ft, Fk.
  split; [congruence|rewrite Ek; lia|congruence|]. eexists. rewrite El. split; [exact Hr'|].
  destruct (decide (resolveClientID r = id)) as [Hid|Hid].
  - rewrite Hid in Hch |- *. rewrite lookup_insert_eq.
    destruct Hru as (ju & Hju & ->). change (get s) with (g_clock s) in Hju |- *.
    change (get s') with (g_clock s') in Hju.
    destruct (charged_history n s s' sp tb Hinv Hr Hb Hf ltac:(lia) Hu Hch) as (k & b & i & Hsp & Hhist & Hkt).
    exists k, b, i. split; [exact Hsp|]. rewrite Ht. split; [|split; [apply clock_ok|]].
    + apply (charged_run n s s' s2 tb b i r t t' ok); done || congruence.
    + pose proof (steady_le _ _ _ clock_ok (proj1 Hju)). unfold at_state, at_reading in *.
      rewrite Ek. split; [lia|]. apply steady_le; [done|lia].
  - rewrite lookup_insert_ne by done.
    assert (Erec : received id s2 = received id s).
    { assert (E : received id s' = received id s) by (unfold received; by rewrite Hu).
      destruct ok; [rewrite (received_snoc s' s2 r Eu), bool_decide_false by done; lia|].
      rewrite <- E. unfold received. by rewrite Eu. }
    apply (entry_weaken n (n + 1) s s2 _ Hb); [lia|exact Erec|rewrite Ek; lia].
Qed.

Lemma chain_step n fresh_id r w s :
  served_inv n s ->
  served_inv (n + 1) (snd (mainHandler (S := S) cfg fresh_id (upstream answer) r w s)).
Proof.
  intros H. apply (chain_rule (served_inv n) (served_inv (n + 1)));
    try (intros; eapply inv_weaken; [eassumption|lia|done|done|done|simpl; lia]).
  intros w1 s1. apply limited_step.
Qed.

Lemma run_inv events n s :
  Z.of_nat (n + length events) <= 2 ^ 27 -> served_inv n s ->
  served_inv (n + length events) (gateway_run cfg events s).
Proof.
  revert n s. induction events as [|e events IH]; intros n s Hn H; simpl.
  - by rewrite Nat.add_0_r.
  - simpl in Hn. replace (n + Datatypes.S (length events))%nat with (n + 1 + length events)%nat by lia.
    apply IH; [lia|]. destruct e as [fid r|]; [by apply chain_step|apply cleanup_step; [lia|done]].
Qed.
End Request.
End Invariant.
End Served.

(** ** Properties *)

(** C6: the promise of the gateway.  Take a gateway without storage, whose
    clients all have the default limits, that starts with a burst [C] and a
    rate [q], up to [2 ^ 20], and a cleanup interval [I].  Whatever requests
    of whatever clients it serves, one at a time, whenever its cleanup wakes up
    between them, up to [2 ^ 27] events, and whatever the upstream answers:
    over a time [T] the requests of one client that get through the handler
    chain to the upstream are at most [C + 1 + q * T], and [C + 1] more for
    each time that more than [2 * I] fits into [T], since a client that was
    idle for so long gets a new, full bucket. *)
Theorem served_bound {S} `{!LimitStore S}
    (answer : HttpRequest -> ResponseWriter -> outcome unit * ResponseWriter)
    (cfg : RateLimitConfig) (id : string) (C q interval : Z) (events : list gateway_event)
    (s : GatewayState.Gateway MemoryLimiter S (list HttpRequest)) :
  let m := NewMemoryLimiter (mkConfig (f64_of_Z q) C interval) in
  let I := CleanupInterval (config m) in
  has_Storage cfg = false -> 1 <= DefaultLimit cfg <= max_int64 ->
  1 <= C <= 2 ^ 20 -> 1 <= q <= 2 ^ 20 -> 2 * I <= max_int64 ->
  g_limiter s = m -> steady (timeline (g_clock s)) -> Z.of_nat (length events) <= 2 ^ 27 ->
  let s' := gateway_run answer cfg events s in
  let now s' := mono_ns (timeline (g_clock s) (ticks (g_clock s'))) in
  let T := now s' - now s in
  (received id s' - received id s) * Second <=
    (1 + T / (2 * I + 1)) * ((C + 1) * Second) + q * T.
Proof.
  intros m I Hst Hd HC Hq HI El Hclock Hlen s' now T. set (c := config m).
  assert (Ec : BurstSize c = C /\ TokensPerSecond c = f64_of_Z q)
    by (unfold c, m, NewMemoryLimiter; simpl; by destruct (interval <=? 0)).
  destruct Ec as [Eb Eq].
  assert (Hpos : 0 < CleanupInterval c).
  { unfold c, m, NewMemoryLimiter. simpl. destruct (Z.leb_spec interval 0); [done|lia]. }
  assert (H0 : served_inv c C q id s 0 s).
  { split; [done|lia|by rewrite El|]. exists ∅. rewrite El, lookup_empty.
    split; [apply represents_new|]. exists 0. unfold spent. lia. }
  pose proof (run_inv answer c C q id s Eb Eq HC Hq Hpos HI Hclock cfg Hst Hd events 0 s ltac:(lia) H0)
    as Hinv.
  destruct Hinv as [Ht Hk Hc (sp & _ & Hb)]. fold s' in Ht, Hk, Hc, Hb.
  destruct (all_spent c C q id s HC Hq Hclock (length events) s' _ Hlen Hb)
    as (k & Hk0 & Hkt & Hbd).
  change (at_state s s') with (now s') in *. change (at_state s s) with (now s) in *.
  change (idle_time c) with (2 * I + 1) in *. fold T in Hbd.
  assert (Hki : k <= T / (2 * I + 1)) by (apply Z.div_le_lower_bound; change (CleanupInterval c) with I in *; lia).
  set (z := T / _) in *. clearbody z. unfold Second in *. nia.
Qed.

(** Three requests of one client on a fresh gateway with a burst of two, on a
    clock that counts milliseconds up to a thousand; and one more after a
    cleanup that leaves the entry. *)
Definition short_clock : Clock :=
  mkClock (fun i => clock 0 (Z.of_nat (Nat.min i 1000) * Millisecond)) 0.

Lemma short_clock_steady : steady (timeline short_clock).
Proof.
  intros i. split; [by eexists|].
  assert (E : forall j, mono_ns (timeline short_clock j) = Z.of_nat (Nat.min j 1000) * Millisecond) by done.
  rewrite !E. unfold max_int64, Millisecond. lia.
Qed.

Definition fresh_gateway : GatewayState.Gateway MemoryLimiter demo_store (list HttpRequest) :=
  mkGateway (NewMemoryLimiter demo_limits) demo_cache (mkSynced ∅) Metrics_New [] short_clock [].
Definition storeless : RateLimitConfig := mkRateLimitConfig 1 false true.
Definition accepted (_ : HttpRequest) (w : ResponseWriter) : outcome unit * ResponseWriter :=
  (Return tt, WriteHeader w StatusOK).
Definition some_events : list gateway_event :=
  [Serve "1" gold_request; Serve "2" gold_request; Serve "3" gold_request; Wake; Serve "4" gold_request].

Example third_rejected :
  received "gold" (gateway_run accepted storeless some_events fresh_gateway) = 2.
Proof. vm_compute. reflexivity. Qed.

Lemma served_bound_witness :
  let s' := gateway_run accepted storeless some_events fresh_gateway in
  let now s := mono_ns (timeline (g_clock fresh_gateway) (ticks (g_clock s))) in
  let T := now s' - now fresh_gateway in
  (received "gold" s' - received "gold" fresh_gateway) * Second <=
    (1 + T / (2 * Second + 1)) * ((2 + 1) * Second) + 1 * T.
Proof.
  intros s' now T.
  pose proof (served_bound accepted storeless "gold" 2 1 Second some_events fresh_gateway) as H.
  cbv zeta in H.
  change (CleanupInterval (config (NewMemoryLimiter (mkConfig (f64_of_Z 1) 2 Second)))) with Second in H.
  apply H.
  - reflexivity.
  - vm_compute. split; discriminate.
  - lia.
  - lia.
  - vm_compute. discriminate.
  - reflexivity.
  - exact short_clock_steady.
  - simpl. lia.
Defined.
