(* ===== verification/ConcurrentGateway.v ===== *)
(** * Concurrent requests through the rate limiter

    The server runs every request on a goroutine of its own.  A request goes
    through [RateLimitMiddleware] in atomic pieces: the lookup in
    [syncedLimits], [SetLimit] under the limiter's mutex, the [Store], the
    two steps of [Allow], and [Tokens].  [gw_sys] is the system of any number
    of requests whose pieces interleave, over the system [ml_sys] of the
    limiter; the cleanup goroutine runs between any two pieces.  A request
    arrives with the limit [resolveClientLimit] has found for it. *)
From S2P Require Import Prelude GoTime Float64 Float64Facts GoError GoString Http State Metrics.
From S2P Require Import Postgres CachedStore TokenBucket Limiter MemoryLimiter Middleware.
From S2P Require Import GatewayState RateLimiting.

(** ** The system *)

(** Where a request is. *)
Inductive gw_pc :=
  | PLoad                       (* before [synced.Load] *)
  | PSetLimit                   (* before [lim.SetLimit] *)
  | PStore                      (* before [synced.Store] *)
  | PAllow                      (* before [getOrCreateBucket] in [Allow] *)
  | PTake                       (* before [bucket.AllowN] in [Allow] *)
  | PTokens (allowed : bool).   (* before [Tokens] *)

Record request := mkRequest { q_client : string; q_limit : Z; q_pc : gw_pc }.

(** What became of a request: handed on, or answered with 429. *)
Record answer := mkAnswer { a_thread : nat; a_client : string; a_allowed : bool }.

Record gw_sys := mkGw {
  limiter : ml_sys;
  synced_limits : gmap string Z;
  requests : gmap nat request;
  answers : list answer;         (* oldest first *)
}.

Inductive gw_action :=
  | GArrive (t : nat) (id : string) (lim : Z)
  | GStep (t : nat) (rd : readings)
  | GCleanup (now : Time).

Section Gateway.
Context (default_limit : Z).

(** The piece of the limiter a step runs. *)
Definition limiter_action (y : gw_sys) (a : gw_action) : option ml_action :=
  match a with
  | GArrive _ _ _ => None
  | GCleanup now => Some (ACleanup now)
  | GStep t rd =>
      match requests y !! t with
      | Some (mkRequest id lim PSetLimit) => Some (ASetLimit id lim (f64_of_Z lim) rd)
      | Some (mkRequest id _ PAllow) => Some (AGet t id 1 rd)
      | Some (mkRequest _ _ PTake) => Some (ATake t (rd 0%nat))
      | Some (mkRequest id _ (PTokens _)) => Some (ATokens id (rd 0%nat))
      | _ => None
      end
  end.

Definition run_limiter (y : gw_sys) (a : gw_action) : ml_sys :=
  match limiter_action y a with Some b => ml_step (limiter y) b | None => limiter y end.

(** The decision of [bucket.AllowN] through the pointer goroutine [t] holds. *)
Definition decision (y : ml_sys) (t : nat) (now : Time) : outcome bool :=
  match threads y !! t with
  | Some (_, l, n) => fst (heap_AllowN (ml y) l n now)
  | None => Panic "nil pointer dereference"
  end.

Definition gw_step (y : gw_sys) (a : gw_action) : gw_sys :=
  let l := run_limiter y a in
  match a with
  | GArrive t id lim =>
      match requests y !! t with
      | Some _ => y
      | None => mkGw l (synced_limits y) (<[t := mkRequest id lim PLoad]> (requests y)) (answers y)
      end
  | GCleanup _ => mkGw l (synced_limits y) (requests y) (answers y)
  | GStep t rd =>
      match requests y !! t with
      | None => y
      | Some (mkRequest id lim p) =>
          let goto p := <[t := mkRequest id lim p]> (requests y) in
          let gone := delete t (requests y) in
          match p with
          | PLoad =>
              let known := (lim =? default_limit) || bool_decide (synced_limits y !! id = Some lim) in
              mkGw l (synced_limits y) (goto (if known then PAllow else PSetLimit)) (answers y)
          | PSetLimit =>
              match fst (ml_SetLimit (ml (limiter y)) id lim (f64_of_Z lim) rd) with
              | Return None => mkGw l (synced_limits y) (goto PStore) (answers y)
              | Return (Some _) => mkGw l (synced_limits y) (goto PAllow) (answers y)
              | Panic _ => mkGw l (synced_limits y) gone (answers y)
              end
          | PStore => mkGw l (<[id := lim]> (synced_limits y)) (goto PAllow) (answers y)
          | PAllow =>
              match fst (getOrCreateBucket (ml (limiter y)) id rd) with
              | Return _ => mkGw l (synced_limits y) (goto PTake) (answers y)
              | Panic _ => mkGw l (synced_limits y) gone (answers y)
              end
          | PTake =>
              match decision (limiter y) t (rd 0%nat) with
              | Return ok => mkGw l (synced_limits y) (goto (PTokens ok)) (answers y)
              | Panic _ => mkGw l (synced_limits y) gone (answers y)
              end
          | PTokens ok =>
              match fst (ml_Tokens (ml (limiter y)) id rd) with
              | Return _ => mkGw l (synced_limits y) gone (answers y ++ [mkAnswer t id ok])
              | Panic _ => mkGw l (synced_limits y) gone (answers y)
              end
          end
      end
  end.

Definition gw_run (y : gw_sys) (acts : list gw_action) : gw_sys := fold_left gw_step acts y.

Definition gw_init (c : Config) : gw_sys := mkGw (ml_init c) ∅ ∅ [].

(** The requests of a client that were handed on to the upstream. *)
Definition handed_on (id : string) (y : gw_sys) : Z :=
  Z.of_nat (length (filter (fun a => a_client a = id /\ a_allowed a = true) (answers y))).

(** The requests under way that satisfy [p], and those of a client. *)
Definition tally (p : request -> bool) (rs : gmap nat request) : Z :=
  Z.of_nat (size (filter (fun kq => p kq.2 = true) rs)).

Definition of_client (id : string) (q : request) : bool := bool_decide (q_client q = id).

Definition in_flight (id : string) (y : gw_sys) : Z := tally (of_client id) (requests y).

(** The states a run goes through. *)
Fixpoint gw_states (y : gw_sys) (acts : list gw_action) : list gw_sys :=
  y :: match acts with [] => [] | a :: acts => gw_states (gw_step y a) acts end.

(** The pieces of the limiter a run makes. *)
Fixpoint limiter_actions (y : gw_sys) (acts : list gw_action) : list ml_action :=
  match acts with
  | [] => []
  | a :: acts => option_list (limiter_action y a) ++ limiter_actions (gw_step y a) acts
  end.

(** ** Lemmas *)

Lemma tally_insert (p : request -> bool) (rs : gmap nat request) (t : nat) (q : request) :
  tally p (<[t := q]> rs) = tally p (delete t rs) + if p q then 1 else 0.
Proof.
  unfold tally. rewrite <- (insert_delete_eq rs). destruct (p q) eqn:E.
  - rewrite map_filter_insert_True by done.
    rewrite map_size_insert_None; [lia|]. apply map_lookup_filter_None. left.
    by rewrite lookup_delete_eq.
  - rewrite map_filter_insert_False by (simpl; congruence).
    rewrite delete_id by (by rewrite lookup_delete_eq). lia.
Qed.

Lemma tally_lookup (p : request -> bool) (rs : gmap nat request) (t : nat) (q : request) :
  rs !! t = Some q -> tally p rs = tally p (delete t rs) + if p q then 1 else 0.
Proof. intros H. rewrite <- tally_insert. by rewrite insert_id. Qed.

Lemma tally_fresh (p : request -> bool) (rs : gmap nat request) (t : nat) :
  rs !! t = None -> tally p (delete t rs) = tally p rs.
Proof. intros H. by rewrite delete_id. Qed.

Lemma gw_step_limiter (y : gw_sys) (a : gw_action) :
  limiter (gw_step y a) = run_limiter y a.
Proof.
  destruct a as [t id lim|t rd|now]; simpl; [|unfold run_limiter; simpl|done].
  - by destruct (requests y !! t).
  - destruct (requests y !! t) as [[id lim []]|]; simpl; try done;
      repeat case_match; done.
Qed.

Lemma gw_run_limiter (y : gw_sys) (acts : list gw_action) :
  limiter (gw_run y acts) = ml_run (limiter y) (limiter_actions y acts).
Proof.
  revert y. induction acts as [|a acts IH]; intros y; [done|].
  cbn [gw_run fold_left limiter_actions]. unfold ml_run. rewrite fold_left_app.
  change (fold_left gw_step acts (gw_step y a)) with (gw_run (gw_step y a) acts).
  rewrite IH, gw_step_limiter. unfold run_limiter. by destruct (limiter_action y a).
Qed.

Lemma limiter_actions_length (y : gw_sys) (acts : list gw_action) :
  (length (limiter_actions y acts) <= length acts)%nat.
Proof.
  revert y. induction acts as [|a acts IH]; intros y; simpl; [lia|].
  rewrite length_app. specialize (IH (gw_step y a)). destruct (limiter_action y a); simpl; lia.
Qed.

(** The limiter between two calls: what a call on a bucket leaves alone. *)
Definition same_buckets (y y' : ml_sys) : Prop :=
  made y' = made y /\ next (ml y') = next (ml y) /\ buckets (ml y') = buckets (ml y).

Lemma take_step (y : ml_sys) (t : nat) (id : string) (l : nat) (n : Z) (now : Time) :
  sys_inv y -> MemoryLimiter.threads y !! t = Some (id, l, n) ->
  let y' := ml_step y (ATake t now) in
  exists ok, decision y t now = Return ok /\
    MemoryLimiter.threads y' = delete t (MemoryLimiter.threads y) /\
    log y' = log y ++ [mkCall id l (CallAllowN n) now (if ok then Z.max 0 n else 0)] /\
    same_buckets y y'.
Proof.
  intros Hinv Ht. destruct (heap_of_owned _ _ _ Hinv (si_thread _ Hinv _ _ _ _ Ht)) as [tb Htb].
  unfold decision. simpl. rewrite Ht. unfold heap_AllowN. rewrite Htb.
  destruct (AllowN tb n now) as [ok tb']. by exists ok.
Qed.

Lemma tokens_step (y : ml_sys) (id : string) (rd : readings) :
  sys_inv y -> let y' := ml_step y (ATokens id (rd 0%nat)) in
  (exists k, fst (ml_Tokens (ml y) id rd) = Return k) /\
  MemoryLimiter.threads y' = MemoryLimiter.threads y /\
  (forall id', granted_to id' (log y') = granted_to id' (log y)) /\ same_buckets y y'.
Proof.
  intros Hinv. simpl. unfold ml_Tokens.
  destruct (buckets (ml y) !! id) as [e|] eqn:He; [|by split; [eexists|]].
  destruct (heap_of_owned _ _ _ Hinv (si_entry _ Hinv _ _ He)) as [tb Htb]. rewrite Htb.
  destruct (Tokens tb (rd 0%nat)) as [k tb']. split; [by eexists|]. split; [done|]. split; [|done].
  intros id'. unfold granted_to. simpl. rewrite filter_app, total_app, filter_cons. simpl.
  destruct (decide _); simpl; lia.
Qed.

(** A new bucket for [id], used at [u]. *)
Definition makes_bucket (y y' : ml_sys) (id : string) (tb : TokenBucket) (u : Time) : Prop :=
  made y' = <[next (ml y) := (id, tb)]> (made y) /\ next (ml y') = S (next (ml y)) /\
  buckets (ml y') = <[id := mkBucketEntry (next (ml y)) u]> (buckets (ml y)).

Lemma set_limit_step (y : ml_sys) (id : string) (lim : Z) (rd : readings) :
  1 <= lim <= max_int64 -> let y' := ml_step y (ASetLimit id lim (f64_of_Z lim) rd) in
  fst (ml_SetLimit (ml y) id lim (f64_of_Z lim) rd) = Return None /\
  MemoryLimiter.threads y' = MemoryLimiter.threads y /\ log y' = log y /\
  makes_bucket y y' id (mkTokenBucket lim (f64_of_Z lim) (f64_of_Z lim) (rd 0%nat)) (rd 1%nat).
Proof.
  intros Hlim. simpl. unfold ml_SetLimit, put_new. rewrite new_limit_bucket by done. simpl.
  rewrite note_made_new. split; [done|]. split; [done|]. split; [done|].
  by do 2 (split; [done|]).
Qed.

(** What [getOrCreateBucket] does: it finds the client's bucket, or makes one
    with the limits of the configuration. *)
Lemma get_step (y : ml_sys) (t : nat) (id : string) (n : Z) (rd : readings) :
  config_ok (config (ml y)) -> MemoryLimiter.threads y !! t = None ->
  let y' := ml_step y (AGet t id n rd) in
  exists l, fst (getOrCreateBucket (ml y) id rd) = Return l /\
    MemoryLimiter.threads y' = <[t := (id, l, n)]> (MemoryLimiter.threads y) /\ log y' = log y /\
    match buckets (ml y) !! id with
    | Some e => made y' = made y /\ next (ml y') = next (ml y) /\
        buckets (ml y') = <[id := mkBucketEntry (bucket e) (rd 1%nat)]> (buckets (ml y))
    | None =>
        let c := config (ml y) in
        makes_bucket y y' id
          (mkTokenBucket (BurstSize c) (TokensPerSecond c) (f64_of_Z (BurstSize c)) (rd 0%nat)) (rd 1%nat)
    end.
Proof.
  intros [Hb Hr] Ht. simpl. rewrite Ht. unfold getOrCreateBucket, put_new, NewTokenBucket.
  destruct (buckets (ml y) !! id) as [e|].
  - rewrite note_made_same by done. eexists. do 3 (split; [done|]). by do 2 (split; [done|]).
  - rewrite (proj2 (Z.ltb_ge _ _)), Hr by lia. simpl. rewrite note_made_new.
    eexists. do 3 (split; [done|]). by do 2 (split; [done|]).
Qed.

Lemma ml_step_config (y : ml_sys) (a : ml_action) : config (ml (ml_step y a)) = config (ml y).
Proof.
  destruct a as [t id n rd|t now|id now|id|id b r rd|now]; simpl; try done.
  - destruct (MemoryLimiter.threads y !! t); [done|]. rewrite <- (get_config (ml y) id rd).
    by destruct (getOrCreateBucket (ml y) id rd) as [[l|] m'].
  - destruct (MemoryLimiter.threads y !! t) as [[[id l] n]|]; [|done].
    rewrite <- (heap_AllowN_config (ml y) l n now).
    by destruct (heap_AllowN (ml y) l n now) as [[ok|] m'].
  - rewrite <- (ml_do_config (ml y) (OpTokens id (fun _ => now))). simpl.
    destruct (ml_Tokens (ml y) id (fun _ => now)). by destruct (buckets (ml y) !! id).
  - rewrite <- (ml_do_config (ml y) (OpSetLimit id b r rd)). simpl.
    by destruct (ml_SetLimit (ml y) id b r rd).
Qed.

(** *** The invariant of the requests

    A request between the two steps of [Allow] is a goroutine of the
    limiter, and the tokens a client got are those of its requests that were
    handed on or are about to be. *)
Definition owed (id : string) (q : request) : bool :=
  of_client id q && match q_pc q with PTokens true => true | _ => false end.

Lemma owed_other (id : string) (q : request) : q_pc q <> PTokens true -> owed id q = false.
Proof.
  intros H. unfold owed. destruct (q_pc q) as [| | | | |[]]; try done; by rewrite andb_false_r.
Qed.

Lemma owed_tokens (i id : string) (lim : Z) (ok : bool) :
  owed i (mkRequest id lim (PTokens ok)) = bool_decide (id = i) && ok.
Proof. unfold owed, of_client. by destruct ok. Qed.

Definition limit_ok (lim : Z) : Prop := 1 <= lim <= 2 ^ 20.

Record gw_inv (c : Config) (y : gw_sys) : Prop := {
  gi_sys : sys_inv (limiter y);
  gi_config : config (ml (limiter y)) = c;
  gi_limit t q : requests y !! t = Some q -> limit_ok (q_limit q);
  gi_holds t id l n : MemoryLimiter.threads (limiter y) !! t = Some (id, l, n) ->
    n = 1 /\ exists lim, requests y !! t = Some (mkRequest id lim PTake);
  gi_takes t id lim : requests y !! t = Some (mkRequest id lim PTake) ->
    exists l, MemoryLimiter.threads (limiter y) !! t = Some (id, l, 1);
  gi_count id : granted_to id (log (limiter y)) = handed_on id y + tally (owed id) (requests y);
}.

Lemma gw_inv_init (c : Config) : gw_inv (config (NewMemoryLimiter c)) (gw_init c).
Proof. split; try done. Qed.

(** A step that moves a request and leaves the log alone. *)
Lemma gw_inv_move (c : Config) (y y' : gw_sys) (t : nat) (q0 q : request) :
  gw_inv c y -> requests y !! t = Some q0 -> requests y' = <[t := q]> (requests y) ->
  sys_inv (limiter y') -> config (ml (limiter y')) = config (ml (limiter y)) ->
  q_limit q = q_limit q0 ->
  q_pc q0 <> PTake -> q_pc q <> PTake -> (forall id, owed id q = owed id q0) ->
  MemoryLimiter.threads (limiter y') = MemoryLimiter.threads (limiter y) ->
  log (limiter y') = log (limiter y) -> answers y' = answers y -> gw_inv c y'.
Proof.
  intros [H1 H2 H3 H4 H5 H6] E0 E Hs Hc Hq Hp0 Hp Ho Ht Hl Ha. split; [done|congruence|..].
  - intros t' q'. rewrite E, lookup_insert. case_decide; [intros [= <-]; rewrite Hq|]; by eapply H3.
  - intros t' id l n. rewrite Ht, E, lookup_insert. intros Hth. destruct (H4 _ _ _ _ Hth) as [-> [lim Hr]].
    split; [done|]. case_decide; [subst t'; by simplify_eq|by exists lim].
  - intros t' id lim. rewrite Ht, E, lookup_insert. case_decide; [by intros [= ->]|]. apply H5.
  - intros id. unfold handed_on. rewrite Hl, Ha, E, tally_insert, Ho. rewrite H6. unfold handed_on.
    by rewrite (tally_lookup _ _ _ _ E0).
Qed.

Definition gw_action_ok (a : gw_action) : Prop :=
  match a with
  | GArrive _ _ lim => limit_ok lim
  | GStep _ rd => has_mono (rd 0%nat)
  | GCleanup _ => True
  end.

Lemma limit_int64 (lim : Z) : limit_ok lim -> 1 <= lim <= max_int64.
Proof. unfold limit_ok, max_int64. lia. Qed.

Lemma granted_to_snoc (id : string) (cs : list mcall) (k : mcall) :
  granted_to id (cs ++ [k]) =
  granted_to id cs + if bool_decide (c_client k = id) then c_granted k else 0.
Proof.
  unfold granted_to. rewrite filter_app, total_app, filter_cons. case_bool_decide.
  - rewrite decide_True by done. simpl. lia.
  - rewrite decide_False by done. simpl. lia.
Qed.

Lemma handed_snoc (id : string) (l : list answer) (a : answer) ml' sy rs y :
  answers y = l ->
  handed_on id (mkGw ml' sy rs (l ++ [a])) =
  handed_on id y + if bool_decide (a_client a = id) && a_allowed a then 1 else 0.
Proof.
  intros <-. unfold handed_on. simpl. rewrite filter_app, length_app, filter_cons.
  destruct (decide _) as [[H1 H2]|H].
  - rewrite bool_decide_true, H2 by done. simpl. lia.
  - destruct (bool_decide (a_client a = id) && a_allowed a) eqn:E; [|simpl; lia].
    apply andb_true_iff in E as [E1%bool_decide_eq_true E2]. by destruct H.
Qed.

Section steps.
Context (c : Config) (c_ok : config_ok c).

Lemma inv_arrive (y : gw_sys) (t : nat) (id : string) (lim : Z) :
  limit_ok lim -> gw_inv c y -> gw_inv c (gw_step y (GArrive t id lim)).
Proof.
  intros Hlim Hinv. simpl. destruct (requests y !! t) eqn:E; [done|].
  destruct Hinv as [H1 H2 H3 H4 H5 H6]. split; try done; simpl.
  - intros t' q. rewrite lookup_insert. case_decide; [by intros [= <-]|apply H3].
  - intros t' i l n Ht. destruct (H4 _ _ _ _ Ht) as [-> [lim' Hr]]. split; [done|]. exists lim'.
    rewrite lookup_insert_ne; [done|congruence].
  - intros t' i lim'. rewrite lookup_insert. case_decide; [done|]. apply H5.
  - intros i. rewrite tally_insert, tally_fresh, owed_other, Z.add_0_r by done. apply H6.
Qed.

Lemma inv_allow (y : gw_sys) (t : nat) (id : string) (lim : Z) (rd : readings) :
  requests y !! t = Some (mkRequest id lim PAllow) ->
  gw_inv c y -> gw_inv c (gw_step y (GStep t rd)).
Proof.
  intros E Hinv. pose proof Hinv as [H1 H2 H3 H4 H5 H6].
  assert (Et : MemoryLimiter.threads (limiter y) !! t = None).
  { destruct (MemoryLimiter.threads (limiter y) !! t) as [[[i l] n]|] eqn:Et; [|done].
    destruct (H4 _ _ _ _ Et) as [_ [lim' Hr]]. congruence. }
  destruct (get_step (limiter y) t id 1 rd ltac:(by rewrite H2) Et) as (l & Eg & Eth & El & _).
  unfold gw_step. rewrite E, Eg. unfold run_limiter, limiter_action. rewrite E.
  split; cbn [limiter requests answers].
  - by apply ml_step_inv.
  - by rewrite ml_step_config.
  - intros t' q. rewrite lookup_insert. case_decide; [|apply H3].
    intros [= <-]. apply (H3 _ _ E).
  - intros t' i l' n. rewrite Eth, !lookup_insert. case_decide; [|apply H4].
    intros [= <- <- <-]. split; [done|]. by exists lim.
  - intros t' i lim'. rewrite Eth, !lookup_insert. case_decide; [|apply H5].
    intros [= <- <-]. by exists l.
  - intros i. unfold handed_on. cbn [answers]. rewrite El, tally_insert, H6.
    rewrite (tally_lookup _ _ _ _ E), !owed_other by done. done.
Qed.

Lemma inv_take (y : gw_sys) (t : nat) (id : string) (lim : Z) (rd : readings) :
  requests y !! t = Some (mkRequest id lim PTake) ->
  gw_inv c y -> gw_inv c (gw_step y (GStep t rd)).
Proof.
  intros E Hinv. pose proof Hinv as [H1 H2 H3 H4 H5 H6]. destruct (H5 _ _ _ E) as [l Et].
  destruct (take_step (limiter y) t id l 1 (rd 0%nat) H1 Et) as (ok & Ed & Eth & El & _).
  unfold gw_step. rewrite E, Ed. unfold run_limiter, limiter_action. rewrite E.
  split; cbn [limiter requests answers].
  - by apply ml_step_inv.
  - by rewrite ml_step_config.
  - intros t' q. rewrite lookup_insert. case_decide; [|apply H3].
    intros [= <-]. apply (H3 _ _ E).
  - intros t' i l' n. rewrite Eth, lookup_delete, lookup_insert. case_decide; [done|]. apply H4.
  - intros t' i lim'. rewrite Eth, lookup_delete, lookup_insert. case_decide; [done|]. apply H5.
  - intros i. unfold handed_on. cbn [answers]. rewrite El, granted_to_snoc, tally_insert, H6.
    rewrite (tally_lookup _ _ _ _ E), owed_other, owed_tokens by done. unfold handed_on. simpl.
    destruct (bool_decide (id = i)), ok; simpl; lia.
Qed.

Lemma inv_tokens (y : gw_sys) (t : nat) (id : string) (lim : Z) (ok : bool) (rd : readings) :
  requests y !! t = Some (mkRequest id lim (PTokens ok)) ->
  gw_inv c y -> gw_inv c (gw_step y (GStep t rd)).
Proof.
  intros E Hinv. pose proof Hinv as [H1 H2 H3 H4 H5 H6].
  destruct (tokens_step (limiter y) id rd H1) as ([k Ek] & Eth & El & _).
  unfold gw_step. rewrite E, Ek. unfold run_limiter, limiter_action. rewrite E.
  split; cbn [limiter requests].
  - by apply ml_step_inv.
  - by rewrite ml_step_config.
  - intros t' q. rewrite lookup_delete. case_decide; [done|apply H3].
  - intros t' i l' n. rewrite Eth, lookup_delete. intros Ht.
    destruct (H4 _ _ _ _ Ht) as [-> [lim' Hr]]. split; [done|]. exists lim'.
    rewrite decide_False; [done|congruence].
  - intros t' i lim'. rewrite Eth, lookup_delete. case_decide; [done|]. apply H5.
  - intros i. rewrite (handed_snoc i _ _ _ _ _ y eq_refl), El, H6, (tally_lookup _ _ _ _ E).
    rewrite owed_tokens. simpl. lia.
Qed.

Lemma gw_step_inv (y : gw_sys) (a : gw_action) :
  gw_action_ok a -> gw_inv c y -> gw_inv c (gw_step y a).
Proof.
  intros Ha Hinv. destruct a as [t id lim|t rd|now].
  - by apply inv_arrive.
  - destruct (requests y !! t) as [[id lim p]|] eqn:E; [|unfold gw_step; by rewrite E].
    pose proof (gi_limit _ _ Hinv _ _ E) as Hlim. apply limit_int64 in Hlim. simpl in Hlim.
    destruct (set_limit_step (limiter y) id lim rd Hlim) as (Es & Eth & El & _).
    destruct p; [| | |by eapply inv_allow|by eapply inv_take|by eapply inv_tokens];
      unfold gw_step; rewrite E; unfold run_limiter, limiter_action; rewrite E.
    + eapply (gw_inv_move c y _ t); [exact Hinv|exact E|reflexivity|apply Hinv|try done..].
      * by destruct (_ || _).
      * intros i. rewrite !owed_other; [done..|]. by destruct (_ || _).
    + rewrite Es.
      eapply (gw_inv_move c y _ t); [exact Hinv|exact E|reflexivity|try done..].
      * apply ml_step_inv, Hinv.
      * apply ml_step_config.
    + eapply (gw_inv_move c y _ t); [exact Hinv|exact E|reflexivity|apply Hinv|done..].
  - destruct Hinv as [H1 H2 H3 H4 H5 H6]. split; try done. by apply (ml_step_inv _ (ACleanup now)).
Qed.

Lemma gw_run_inv (y : gw_sys) (acts : list gw_action) :
  Forall gw_action_ok acts -> gw_inv c y -> gw_inv c (gw_run y acts).
Proof.
  intros Hacts. revert y. induction Hacts as [|a acts Ha _ IH]; intros y Hinv; [done|].
  by apply IH, gw_step_inv.
Qed.
End steps.

End Gateway.

(** *** A race on [syncedLimits]

    Requests of one client that have all looked its limit up before the
    first of them sets it; all at one reading of the clock. *)
Section race.
Context (d : Z) (id : string) (lim : Z) (now : Time) (K : nat).
Hypothesis lim_ok : limit_ok lim.
Hypothesis lim_own : lim <> d.
Hypothesis now_mono : has_mono now.

Definition race_action (a : gw_action) : Prop :=
  match a with
  | GArrive _ i l => i = id /\ l = lim
  | GStep _ rd => forall i, rd i = now
  | GCleanup _ => False
  end.

(** [y'] is reached from [y] by such steps, with at most [K] requests under
    way, [h] of which are handed on meanwhile. *)
Definition reaches (y : gw_sys) (h : Z) (y' : gw_sys) : Prop :=
  exists acts, Forall race_action acts /\ gw_run d y acts = y' /\
    Forall (fun y => in_flight id y <= Z.of_nat K) (gw_states d y acts) /\
    handed_on id y' = handed_on id y + h.

Lemma gw_states_app (y : gw_sys) (acts acts' : list gw_action) (P : gw_sys -> Prop) :
  Forall P (gw_states d y acts) -> Forall P (gw_states d (gw_run d y acts) acts') ->
  Forall P (gw_states d y (acts ++ acts')).
Proof.
  revert y. induction acts as [|a acts IH]; intros y H H'; [done|]. simpl in *.
  apply Forall_cons in H as [H0 H]. constructor; [done|]. by apply IH.
Qed.

Lemma reaches_refl (y : gw_sys) : in_flight id y <= Z.of_nat K -> reaches y 0 y.
Proof.
  intros H. exists []. split; [done|]. split; [done|]. split; [by constructor|lia].
Qed.

Lemma reaches_trans (y1 y2 y3 : gw_sys) (h h' : Z) :
  reaches y1 h y2 -> reaches y2 h' y3 -> reaches y1 (h + h') y3.
Proof.
  intros (a1 & H1 & E1 & F1 & G1) (a2 & H2 & E2 & F2 & G2). exists (a1 ++ a2).
  split; [by apply Forall_app_2|]. unfold gw_run in *. rewrite fold_left_app, E1.
  split; [done|]. split; [|lia]. apply gw_states_app; [done|]. unfold gw_run. by rewrite E1.
Qed.

Lemma reaches_step (y y' : gw_sys) (a : gw_action) (h : Z) :
  race_action a -> gw_step d y a = y' -> in_flight id y <= Z.of_nat K ->
  in_flight id y' <= Z.of_nat K -> handed_on id y' = handed_on id y + h -> reaches y h y'.
Proof. intros Ha <- H1 H2 Hh. exists [a]. repeat split; repeat constructor; done. Qed.

(** The requests that wait to set the limit. *)
Fixpoint waiting (n : nat) : gmap nat request :=
  match n with
  | O => ∅
  | S n => <[n := mkRequest id lim PSetLimit]> (waiting n)
  end.

Lemma waiting_above (n t : nat) : (n <= t)%nat -> waiting n !! t = None.
Proof.
  induction n as [|n IH]; intros H; simpl; [apply lookup_empty|].
  rewrite lookup_insert_ne by lia. apply IH. lia.
Qed.

Lemma waiting_tally (n : nat) : tally (of_client id) (waiting n) = Z.of_nat n.
Proof.
  induction n as [|n IH]; [done|]. simpl waiting.
  rewrite tally_insert, tally_fresh, IH by (by apply waiting_above).
  unfold of_client. simpl. rewrite bool_decide_true by done. lia.
Qed.

Lemma waiting_one (n : nat) (p : gw_pc) :
  tally (of_client id) (<[n := mkRequest id lim p]> (waiting n)) = Z.of_nat n + 1.
Proof.
  rewrite tally_insert, tally_fresh, waiting_tally by (by apply waiting_above).
  unfold of_client. simpl. by rewrite bool_decide_true.
Qed.

(** The client's bucket holds [k] tokens at [now]. *)
Definition holds_tokens (m : MemoryLimiter) (k : Z) : Prop :=
  exists e tb, buckets m !! id = Some e /\ heap m !! bucket e = Some tb /\ tb_wf tb /\
    capacity tb = lim /\ lastRefill tb = now /\ f64_val (tokens tb) = k * f64_unit.

Lemma no_time : time_sub now now <= 0.
Proof. destruct now_mono as [k E]. unfold time_sub. rewrite E, Z.sub_diag. done. Qed.

(** The state of the race: [n] requests wait, and one more may be on its way. *)
Definition at_point (m : MemoryLimiter) ths mk lg sy (rs : gmap nat request) ans : gw_sys :=
  mkGw (mkMlSys m ths mk lg) sy rs ans.

Lemma point_flight (n : nat) (p : gw_pc) m ths mk lg sy ans :
  (n < K)%nat ->
  in_flight id (at_point m ths mk lg sy (<[n := mkRequest id lim p]> (waiting n)) ans)
    <= Z.of_nat K.
Proof. intros H. unfold in_flight. simpl. rewrite waiting_one. lia. Qed.

(** One request takes a token. *)
Lemma allow_once (n : nat) (k : Z) m mk lg sy ans :
  (n < K)%nat -> 0 <= k -> holds_tokens m (k + 1) ->
  exists m' lg', holds_tokens m' k /\
    reaches (at_point m ∅ mk lg sy (<[n := mkRequest id lim PAllow]> (waiting n)) ans) 1
            (at_point m' ∅ mk lg' sy (waiting n) (ans ++ [mkAnswer n id true])).
Proof.
  intros Hn Hk (e & tb & He & Htb & Hwf & Ec & Er & Et).
  destruct (AllowN tb 1 now) as [ok tb'] eqn:EA. unfold limit_ok in lim_ok.
  pose proof (AllowN_exact tb 1 now Hwf now_mono ltac:(lia) ltac:(lia)) as HA.
  pose proof (AllowN_wf tb 1 now Hwf now_mono) as Hwf'.
  pose proof (proj1 (tb_step_static tb (CallAllowN 1) now)) as Ec'.
  cbn [tb_step] in Ec'. rewrite EA in HA, Hwf', Ec'. cbn [fst snd] in *.
  pose proof no_time as Hnt.
  rewrite refill_idle, Et in HA by (by rewrite Er). destruct HA as (Eok & Er' & Et').
  pose proof f64_unit_pos as Hu. rewrite (proj2 (Z.leb_le _ _)) in Eok by nia. subst ok.
  assert (ET : snd (Tokens tb' now) = tb')
    by (unfold Tokens; cbn [snd]; apply refill_idle; by rewrite Er', Er).
  destruct (Tokens tb' now) as [left tb2] eqn:ETk. cbn [snd] in ET. subst tb2.
  set (e' := mkBucketEntry (bucket e) now).
  set (m1 := set_buckets m (<[id := e']> (buckets m))).
  set (m2 := set_heap m1 (bucket e) tb').
  set (lg1 := lg ++ [mkCall id (bucket e) (CallAllowN 1) now 1]).
  set (lg2 := lg1 ++ [mkCall id (bucket e) CallTokens now 0]).
  set (rs p := <[n := mkRequest id lim p]> (waiting n)).
  exists (set_heap m2 (bucket e) tb'), lg2. split.
  { exists e', tb'. unfold m2, m1. simpl. rewrite !lookup_insert_eq. repeat split; try done;
      try congruence; try apply Hwf'. rewrite Et'. lia. }
  apply (reaches_trans _ (at_point m1 {[n := (id, bucket e, 1)]} mk lg sy (rs PTake) ans) _ 0 1).
  { apply (reaches_step _ _ (GStep n (fun _ => now)));
      [done| |by apply point_flight|by apply point_flight|unfold handed_on; simpl; lia].
    unfold at_point, gw_step, run_limiter, limiter_action, ml_step, getOrCreateBucket, rs.
    cbn [limiter requests synced_limits answers ml MemoryLimiter.threads made log].
    rewrite lookup_insert_eq, lookup_empty, He. cbn [fst]. rewrite note_made_same by done.
    by rewrite insert_insert_eq. }
  apply (reaches_trans _ (at_point m2 ∅ mk lg1 sy (rs (PTokens true)) ans) _ 0 1).
  { apply (reaches_step _ _ (GStep n (fun _ => now)));
      [done| |by apply point_flight|by apply point_flight|unfold handed_on; simpl; lia].
    unfold at_point, gw_step, run_limiter, limiter_action, ml_step, decision, heap_AllowN, rs.
    cbn [limiter requests synced_limits answers ml MemoryLimiter.threads made log].
    rewrite lookup_insert_eq, lookup_singleton_eq. change (heap m1) with (heap m). rewrite Htb, EA.
    cbn [fst]. by rewrite insert_insert_eq, delete_singleton_eq. }
  apply (reaches_step _ _ (GStep n (fun _ => now)));
    [done| |by apply point_flight|unfold in_flight; simpl; rewrite waiting_tally; lia|].
  - assert (Hb : buckets m2 !! id = Some e') by (unfold m2, m1; simpl; apply lookup_insert_eq).
    assert (Hh : heap m2 !! bucket e = Some tb') by (unfold m2; simpl; apply lookup_insert_eq).
    unfold at_point, gw_step, run_limiter, limiter_action, ml_step, ml_Tokens, rs.
    cbn [limiter requests synced_limits answers ml MemoryLimiter.threads made log].
    rewrite lookup_insert_eq, Hb. change (bucket e') with (bucket e). rewrite Hh, ETk.
    cbn [fst snd]. by rewrite delete_insert_id by (by apply waiting_above).
  - unfold at_point. rewrite (handed_snoc id ans _ _ _ _ (at_point m2 ∅ mk lg1 sy (rs (PTokens true)) ans)) by done. simpl.
    by rewrite bool_decide_true.
Qed.

(** A waiting request makes a new bucket and records the limit. *)
Lemma set_once (n : nat) m mk lg sy ans :
  (n < K)%nat ->
  exists m' mk', holds_tokens m' lim /\
    reaches (at_point m ∅ mk lg sy (waiting (S n)) ans) 0
            (at_point m' ∅ mk' lg (<[id := lim]> sy)
               (<[n := mkRequest id lim PAllow]> (waiting n)) ans).
Proof.
  intros Hn. pose proof (limit_int64 lim lim_ok) as Hi.
  set (tb := mkTokenBucket lim (f64_of_Z lim) (f64_of_Z lim) now).
  set (m' := snd (ml_SetLimit m id lim (f64_of_Z lim) (fun _ => now))).
  assert (Em : ml_SetLimit m id lim (f64_of_Z lim) (fun _ => now) = (Return None, m'))
    by (unfold m', ml_SetLimit, put_new; by rewrite new_limit_bucket).
  exists m', (note_made (mkMlSys m ∅ mk lg) m' id). split.
  { unfold m', ml_SetLimit, put_new. rewrite new_limit_bucket by done.
    exists (mkBucketEntry (next m) now), tb. simpl. rewrite !lookup_insert_eq.
    unfold limit_ok in lim_ok. destruct (integer_rate lim) as (H1 & H2 & _ & H3); [lia|].
    do 2 (split; [done|]). split; [by apply new_bucket_wf|]. do 2 (split; [done|]).
    apply f64_of_Z_exact. lia. }
  apply (reaches_trans _ (at_point m' ∅ (note_made (mkMlSys m ∅ mk lg) m' id) lg sy
    (<[n := mkRequest id lim PStore]> (waiting n)) ans) _ 0 0);
    apply (reaches_step _ _ (GStep n (fun _ => now)));
      [done| |by apply point_flight|by apply point_flight|unfold handed_on; simpl; lia
      |done| |by apply point_flight|by apply point_flight|unfold handed_on; simpl; lia].
  - unfold at_point, gw_step, run_limiter, limiter_action, ml_step.
    cbn [limiter requests synced_limits answers ml MemoryLimiter.threads made log waiting].
    rewrite lookup_insert_eq, Em. cbn [fst snd]. by rewrite insert_insert_eq.
  - unfold at_point, gw_step, run_limiter, limiter_action.
    cbn [limiter requests synced_limits answers]. by rewrite lookup_insert_eq, insert_insert_eq.
Qed.

(** A request comes when the limit is recorded. *)
Lemma come_once (n : nat) m mk lg sy ans (b : bool) :
  (n < K)%nat -> sy !! id = (if b then Some lim else None) ->
  reaches (at_point m ∅ mk lg sy (waiting n) ans) 0
          (at_point m ∅ mk lg sy
             (<[n := mkRequest id lim (if b then PAllow else PSetLimit)]> (waiting n)) ans).
Proof.
  intros Hn Hs. apply (reaches_trans _ (at_point m ∅ mk lg sy
    (<[n := mkRequest id lim PLoad]> (waiting n)) ans) _ 0 0).
  - apply (reaches_step _ _ (GArrive n id lim)); [done| | |by apply point_flight|
      unfold handed_on; simpl; lia].
    + unfold at_point, gw_step. cbn [requests]. by rewrite waiting_above.
    + unfold in_flight. simpl. rewrite waiting_tally. lia.
  - apply (reaches_step _ _ (GStep n (fun _ => now)));
      [done| |by apply point_flight|by apply point_flight|unfold handed_on; simpl; lia].
    unfold at_point, gw_step, run_limiter, limiter_action.
    cbn [limiter requests synced_limits answers]. rewrite lookup_insert_eq, Hs.
    rewrite (proj2 (Z.eqb_neq _ _) lim_own). cbn [orb]. rewrite insert_insert_eq.
    destruct b; [by rewrite bool_decide_true|by rewrite bool_decide_false].
Qed.

Lemma serve_many (k n : nat) m mk lg sy ans :
  (n < K)%nat -> sy !! id = Some lim -> holds_tokens m (Z.of_nat k) ->
  exists m' lg' ans', reaches (at_point m ∅ mk lg sy (waiting n) ans) (Z.of_nat k)
                              (at_point m' ∅ mk lg' sy (waiting n) ans').
Proof.
  intros Hn Hs. revert m lg ans. induction k as [|k IH]; intros m lg ans Hm.
  - exists m, lg, ans. apply reaches_refl. unfold in_flight. simpl. rewrite waiting_tally. lia.
  - destruct (allow_once n (Z.of_nat k) m mk lg sy ans Hn) as (m1 & lg1 & Hm1 & R1);
      [lia|by rewrite Nat2Z.inj_succ in Hm|].
    destruct (IH m1 lg1 (ans ++ [mkAnswer n id true]) Hm1) as (m2 & lg2 & ans2 & R2). exists m2, lg2, ans2.
    replace (Z.of_nat (S k)) with (0 + (1 + Z.of_nat k)) by lia.
    eapply reaches_trans; [by apply (come_once n m mk lg sy ans true)|].
    by eapply reaches_trans.
Qed.

(** Every waiting request refills the client's bucket once more. *)
Lemma drain (n : nat) m mk lg sy ans :
  (n <= K)%nat ->
  exists y', reaches (at_point m ∅ mk lg sy (waiting n) ans) (Z.of_nat n * lim) y'.
Proof.
  revert m mk lg sy ans. induction n as [|n IH]; intros m mk lg sy ans Hn.
  - eexists. apply reaches_refl. change (0 <= Z.of_nat K). lia.
  - destruct (set_once n m mk lg sy ans) as (m1 & mk1 & Hm1 & R1); [lia|].
    unfold limit_ok in lim_ok.
    assert (El : lim = Z.of_nat (Z.to_nat (lim - 1)) + 1) by lia. rewrite El in Hm1.
    destruct (allow_once n (Z.of_nat (Z.to_nat (lim - 1))) m1 mk1 lg (<[id := lim]> sy) ans ltac:(lia) ltac:(lia) Hm1)
      as (m2 & lg2 & Hm2 & R2).
    destruct (serve_many (Z.to_nat (lim - 1)) n m2 mk1 lg2 _ (ans ++ [mkAnswer n id true]) ltac:(lia)
      (lookup_insert_eq sy id lim) Hm2) as (m3 & lg3 & ans3 & R3).
    destruct (IH m3 mk1 lg3 (<[id := lim]> sy) ans3 ltac:(lia)) as (y' & R4). exists y'.
    replace (Z.of_nat (S n) * lim)
      with (0 + (1 + (Z.of_nat (Z.to_nat (lim - 1)) + Z.of_nat n * lim))) by lia.
    eapply reaches_trans; [exact R1|]. eapply reaches_trans; [exact R2|].
    by eapply reaches_trans.
Qed.

Lemma gather (n : nat) m mk lg sy ans :
  (n <= K)%nat -> sy !! id = None ->
  reaches (at_point m ∅ mk lg sy ∅ ans) 0 (at_point m ∅ mk lg sy (waiting n) ans).
Proof.
  intros Hn Hs. induction n as [|n IH].
  - apply reaches_refl. change (0 <= Z.of_nat K). lia.
  - apply (reaches_trans _ (at_point m ∅ mk lg sy (waiting n) ans) _ 0 0); [apply IH; lia|].
    by apply (come_once n m mk lg sy ans false).
Qed.
End race.


(** *** A request that runs alone *)
Section alone.
Context (d : Z) (t : nat) (id : string) (lim : Z).

Definition its_step (a : gw_action) : Prop :=
  match a with
  | GArrive t' i l => t' = t /\ i = id /\ l = lim
  | GStep t' _ => t' = t
  | GCleanup _ => False
  end.

Lemma allowed_alone m ths mk lg sy rs ans l m1 ok m2 k m3 (rd rd' : readings) :
  ths !! t = None ->
  getOrCreateBucket m id rd = (Return l, m1) -> heap_AllowN m1 l 1 (rd 2%nat) = (Return ok, m2) ->
  ml_Tokens m2 id rd' = (Return k, m3) ->
  exists lg' mk', gw_run d
    (mkGw (mkMlSys m ths mk lg) sy (<[t := mkRequest id lim PAllow]> rs) ans)
    [GStep t rd; GStep t (fun _ => rd 2%nat); GStep t rd'] =
  mkGw (mkMlSys m3 ths mk' lg') sy (delete t rs) (ans ++ [mkAnswer t id ok]).
Proof.
  intros Ht Hg Ha Hk. cbn [gw_run fold_left].
  unfold gw_step at 3, run_limiter, limiter_action, ml_step.
  cbn [limiter requests synced_limits answers ml MemoryLimiter.threads made log].
  rewrite lookup_insert_eq, Ht, Hg. cbn [fst]. rewrite insert_insert_eq.
  unfold gw_step at 2, run_limiter, limiter_action, ml_step, decision.
  cbn [limiter requests synced_limits answers ml MemoryLimiter.threads made log].
  rewrite !lookup_insert_eq, Ha. cbn [fst]. rewrite insert_insert_eq, delete_insert_id by done.
  unfold gw_step, run_limiter, limiter_action, ml_step.
  cbn [limiter requests synced_limits answers ml MemoryLimiter.threads made log].
  rewrite lookup_insert_eq, Hk. change (ml_Tokens m2 id (fun _ => rd' 0%nat)) with (ml_Tokens m2 id rd').
  rewrite Hk. cbn [fst snd]. rewrite delete_insert_eq.
  destruct (buckets m2 !! id); by do 2 eexists.
Qed.

(** The way to [Allow]. *)
Lemma arrival_alone m ths mk lg sy rs ans (rd : readings) (m' : MemoryLimiter) :
  rs !! t = None ->
  let known := (lim =? d) || bool_decide (sy !! id = Some lim) in
  (known = false -> ml_SetLimit m id lim (f64_of_Z lim) rd = (Return None, m')) ->
  exists acts mk', Forall its_step acts /\
    gw_run d (mkGw (mkMlSys m ths mk lg) sy rs ans) acts =
    mkGw (mkMlSys (if known then m else m') ths mk' lg) (if known then sy else <[id := lim]> sy)
      (<[t := mkRequest id lim PAllow]> rs) ans.
Proof.
  intros Hrs known Hset.
  assert (E2 : gw_run d (mkGw (mkMlSys m ths mk lg) sy rs ans) [GArrive t id lim; GStep t rd] =
    mkGw (mkMlSys m ths mk lg) sy
      (<[t := mkRequest id lim (if known then PAllow else PSetLimit)]> rs) ans).
  { cbn [gw_run fold_left]. unfold gw_step at 2. cbn [requests]. rewrite Hrs.
    unfold gw_step, run_limiter, limiter_action.
    cbn [limiter requests synced_limits answers ml MemoryLimiter.threads made log].
    by rewrite lookup_insert_eq, insert_insert_eq. }
  destruct known eqn:Ek.
  - exists [GArrive t id lim; GStep t rd], mk. split; [by repeat constructor|exact E2].
  - exists ([GArrive t id lim; GStep t rd] ++ [GStep t rd; GStep t rd]), (note_made (mkMlSys m ths mk lg) m' id).
    split; [by repeat constructor|]. unfold gw_run in *. rewrite fold_left_app, E2.
    cbn [fold_left]. unfold gw_step at 2, run_limiter, limiter_action, ml_step.
    cbn [limiter requests synced_limits answers ml MemoryLimiter.threads made log].
    rewrite lookup_insert_eq, (Hset eq_refl). cbn [fst snd]. rewrite insert_insert_eq.
    unfold gw_step, run_limiter, limiter_action.
    cbn [limiter requests synced_limits answers ml MemoryLimiter.threads made log].
    by rewrite lookup_insert_eq, insert_insert_eq.
Qed.
End alone.

(** A method of the limiter that returns, taken apart. *)
Lemma allow_parts (m : MemoryLimiter) (sp : gmap string (TokenBucket * Time)) (id : string)
    (rd : readings) :
  represents m sp -> config_ok (config m) ->
  exists l m1 ok m2, getOrCreateBucket m id rd = (Return l, m1) /\
    heap_AllowN m1 l 1 (rd 2%nat) = (Return ok, m2) /\
    ml_Allow m id rd = (Return (ok, None), m2) /\ config m2 = config m /\
    exists sp2, represents m2 sp2.
Proof.
  intros Hr Hc. pose proof (AllowN_refines m sp id 1 rd Hr) as [H1 H2].
  destruct (default_bucket (config m) sp id (rd 0%nat) Hc) as (tb & Hb & _).
  rewrite (spec_AllowN_bucket _ sp id 1 rd tb Hb) in H1.
  pose proof (ml_do_config m (OpAllowN id 1 rd)) as Ec. simpl in Ec.
  unfold ml_Allow. unfold ml_AllowN in *.
  destruct (getOrCreateBucket m id rd) as [[l|] m1]; [|done].
  destruct (heap_AllowN m1 l 1 (rd 2%nat)) as [[ok|] m2] eqn:Eh; [|done]. simpl in *.
  exists l, m1, ok, m2. repeat split; try done. by eexists.
Qed.

Lemma tokens_parts (m : MemoryLimiter) (sp : gmap string (TokenBucket * Time)) (id : string)
    (rd : readings) :
  represents m sp -> exists k m', ml_Tokens m id rd = (Return (k, None), m').
Proof.
  intros Hr. pose proof (Tokens_refines m sp id rd Hr) as [H _].
  destruct (ml_Tokens m id rd) as [out m']. simpl in H. subst out. exists (match sp !! id with
    | Some (tb, _) => fst (Tokens tb (rd 0%nat)) | None => BurstSize (config m) end), m'.
  unfold spec_Tokens. destruct (sp !! id) as [[tb u]|]; [|done]. by destruct (Tokens tb _).
Qed.

Section refine.
Context {S W : Type} `{!LimitStore S, !RateLimitState MemoryLimiter S W}.
Implicit Types (s : W) (cfg : RateLimitConfig) (next : Handler W).

(** [syncLimitIfNeeded] over the in-memory limiter. *)
Lemma sync_exact cfg (id : string) (lim : Z) s :
  1 <= lim <= max_int64 ->
  let rd := fst (read_clock 3 s) in
  let m := limiter_of s in let sy := synced (get s) in
  let known := (lim =? DefaultLimit cfg) || bool_decide (sy !! id = Some lim) in
  exists m' s',
    syncLimitIfNeeded (L := MemoryLimiter) id lim (DefaultLimit cfg) s = (Return tt, s') /\
    (known = false -> ml_SetLimit m id lim (f64_of_Z lim) rd = (Return None, m')) /\
    limiter_of s' = (if known then m else m') /\
    synced (get s') = (if known then sy else <[id := lim]> sy) /\
    config (limiter_of s') = config m.
Proof.
  intros Hlim rd m sy known. unfold syncLimitIfNeeded, known, sy, m, rd, limiter_of.
  destruct (lim =? DefaultLimit cfg); [by exists (get s), s|]. cbn [orb].
  destruct (bool_decide _); [by exists (get s), s|].
  unfold read_clock. cbv zeta. cbn [fst]. simpl_state. simpl limiter_SetLimit.
  set (rd0 := fun i => timeline (get s) (ticks (get s) + i)%nat).
  pose proof (ml_do_config (get s) (OpSetLimit id lim (f64_of_Z lim) rd0)) as Hc. simpl in Hc.
  assert (E : fst (ml_SetLimit (get s) id lim (f64_of_Z lim) rd0) = Return None)
    by (unfold ml_SetLimit, put_new; by rewrite new_limit_bucket).
  destruct (ml_SetLimit (get s) id lim (f64_of_Z lim) rd0) as [out m']. simpl in E, Hc. subst out.
  exists m'. eexists. split; [done|]. simpl_state. done.
Qed.

(** [charge_one], with the calls it makes on the limiter. *)
Lemma charge_exact cfg next (id : string) (lim : Z) r w s (rd : readings) ok m2 k m3 :
  rd = fst (read_clock 3 s) ->
  ml_Allow (limiter_of s) id rd = (Return (ok, None), m2) ->
  ml_Tokens m2 id (fun i => timeline (get s) (ticks (get s) + 3 + i)%nat) = (Return (k, None), m3) ->
  exists s', charge_one (L := MemoryLimiter) cfg next id lim r w s = respond cfg next lim ok k r w s' /\
    limiter_of s' = m3 /\ get (A := Synced) s' = get s.
Proof.
  intros -> Ha Hk. unfold charge_one, limiter_of, read_clock in *. cbv beta zeta in *.
  cbn [fst] in Ha. rewrite get_put_other. simpl limiter_Allow. rewrite Ha. simpl_state.
  simpl limiter_Tokens.
  rewrite Hk. eexists (put m3 _). split; [unfold respond; destruct ok; reflexivity|].
  split; by simpl_state.
Qed.
End refine.

(** ** Properties *)

(** C9: the pieces and the whole.  A request whose pieces run one after the
    other, with no step of another request or of the cleanup between them,
    leaves the limiter and [syncedLimits] as the handler of
    [RateLimitMiddleware] leaves them, and is handed on exactly when the handler
    hands it on. *)
Theorem concurrent_alone {S W} `{!LimitStore S, !RateLimitState MemoryLimiter S W}
    (cfg : RateLimitConfig) (next : Handler W) (r : HttpRequest) (w : ResponseWriter) (s : W)
    (sp : gmap string (TokenBucket * Time)) (y : gw_sys) (t : nat) :
  let lim := fst (resolveClientLimit (S := S) cfg (header_Get (rq_Header r) APIKeyHeader) s) in
  let id := resolveClientID r in
  represents (limiter_of s) sp -> config_ok (config (limiter_of s)) -> 1 <= lim <= max_int64 ->
  ml (limiter y) = limiter_of s -> synced_limits y = synced (get s) ->
  requests y !! t = None -> MemoryLimiter.threads (limiter y) !! t = None ->
  exists acts ok left s',
    Forall (its_step t id lim) acts /\
    RateLimitMiddleware (L := MemoryLimiter) (S := S) cfg next r w s =
      respond cfg next lim ok left r w s' /\
    let y' := gw_run (DefaultLimit cfg) y acts in
    ml (limiter y') = limiter_of s' /\ synced_limits y' = synced (get s') /\
    requests y' = requests y /\ answers y' = answers y ++ [mkAnswer t id ok].
Proof.
  intros lim id Hr Hc Hlim Em Es Ht Hth. unfold RateLimitMiddleware. fold id.
  destruct (resolve_frame (L := MemoryLimiter) (S := S) cfg
    (header_Get (rq_Header r) APIKeyHeader) s) as (El & Ey & _).
  subst lim. destruct (resolveClientLimit cfg _ s) as [lim s1]. cbn [fst snd] in *.
  unfold limiter_of in *. rewrite <- El in *. rewrite <- Ey in Es.
  destruct (sync_memory cfg id lim s1 sp Hr Hlim) as (s2' & E2' & Hr2 & _ & _ & Ec2 & _).
  destruct (sync_exact (S := S) cfg id lim s1 Hlim) as (m' & s2 & E2 & Hset & El2 & Ey2 & _).
  rewrite E2 in E2' |- *. injection E2' as <-. unfold limiter_of in *.
  set (rd := fst (read_clock 3 s2)).
  destruct (allow_parts (get s2) _ id rd Hr2) as (l & m1 & ok & m2 & Hg & Ha & Hal & _ & sp2 & Hrp2);
    [by rewrite Ec2|].
  set (rd' := fun i => timeline (get s2) (ticks (get s2) + 3 + i)%nat).
  destruct (tokens_parts m2 sp2 id rd' Hrp2) as (k & m3 & Hk).
  destruct (charge_exact cfg next id lim r w s2 rd ok m2 k m3 eq_refl Hal Hk) as (s3 & -> & El3 & Ey3).
  destruct y as [[m ths mk lg] sy rs ans]. cbn in Em, Es, Ht, Hth. subst m sy.
  destruct (arrival_alone (DefaultLimit cfg) t id lim (get s1) ths mk lg (synced (get s1)) rs ans
    _ m' Ht Hset) as (acts & mk' & Hacts & E).
  rewrite <- El2, <- Ey2 in E.
  destruct (allowed_alone (DefaultLimit cfg) t id lim (get s2) ths mk' lg (synced (get s2)) rs ans
    l m1 ok m2 (k, None) m3 rd rd' Hth Hg Ha Hk) as (lg' & mk2 & E').
  exists (acts ++ [GStep t rd; GStep t (fun _ => rd 2%nat); GStep t rd']), ok, k, s3.
  split; [apply Forall_app_2; [done|by repeat constructor]|]. split; [done|].
  unfold gw_run in *. rewrite fold_left_app, E, E'. cbn. rewrite Ey3, (delete_id rs) by done.
  done.
Qed.

Lemma concurrent_alone_witness :
  exists acts ok left s',
    RateLimitMiddleware (L := MemoryLimiter) (S := demo_store) demo_cfg ok_handler gold_request
      new_writer demo_gateway = respond demo_cfg ok_handler 5 ok left gold_request new_writer s' /\
    answers (gw_run 1 (gw_init demo_limits) acts) = [mkAnswer 0 "gold" ok].
Proof.
  destruct (concurrent_alone (S := demo_store) demo_cfg ok_handler gold_request new_writer
    demo_gateway ∅ (gw_init demo_limits) 0 demo_represents demo_config_ok)
    as (acts & ok & left & s' & _ & H1 & _ & _ & _ & H2);
    [vm_compute; split; discriminate|reflexivity|reflexivity|reflexivity|reflexivity|].
  exists acts, ok, left, s'. split; [exact H1|exact H2].
Defined.

(** C10: the lookup in [syncedLimits] and [SetLimit] are not one step.  For
    every number [K] of requests under way at one time there is a run in which
    a client with a limit of its own gets [K * lim] requests handed on at one
    single reading of the clock, where its limit allows [lim]: each of the
    requests that looked the limit up before it was recorded makes a new,
    full bucket. *)
Theorem sync_race (default_limit : Z) (c : Config) (id : string) (lim : Z) (now : Time) (K : nat) :
  limit_ok lim -> lim <> default_limit -> has_mono now ->
  exists acts, Forall (race_action id lim now) acts /\
    Forall (fun y => in_flight id y <= Z.of_nat K) (gw_states default_limit (gw_init c) acts) /\
    handed_on id (gw_run default_limit (gw_init c) acts) = Z.of_nat K * lim.
Proof.
  intros Hlim Hd Hnow.
  pose proof (gather default_limit id lim now K Hd K (NewMemoryLimiter c) ∅ [] ∅ []
    ltac:(lia) (lookup_empty id)) as R1.
  destruct (drain default_limit id lim now K Hlim Hd Hnow K (NewMemoryLimiter c) ∅ [] ∅ []
    ltac:(lia)) as (y' & R2).
  destruct (reaches_trans _ _ _ _ _ _ _ _ _ _ R1 R2) as (acts & H1 & E & H2 & H3).
  exists acts. split; [done|]. split; [exact H2|]. unfold gw_init.
  change (ml_init c) with (mkMlSys (NewMemoryLimiter c) ∅ ∅ []). unfold at_point in *.
  rewrite E, H3. unfold handed_on. simpl. lia.
Qed.

Lemma sync_race_witness :
  exists acts, handed_on "gold" (gw_run 1 (gw_init demo_limits) acts) = 15.
Proof.
  destruct (sync_race 1 demo_limits "gold" 5 (clock 0 7) 3) as (acts & _ & _ & H);
    [split; lia|lia|by eexists|]. exists acts. exact H.
Defined.
