(* ===== verification/ConcurrentBuckets.v ===== *)
(** * How many buckets concurrent requests make, and what they let through

    The system of [ConcurrentGateway] with the cleanup goroutine running
    between any two pieces, for clients that keep their limits.  A client's
    bucket is made by [SetLimit], with the client's own limit, or by
    [getOrCreateBucket], with the default limits; the first happens once per
    request that looked the limit up before it was recorded, the second once
    per time the cleanup has dropped the client's entry, and between two
    drops lie more than two cleanup intervals.  The tokens of the buckets
    bound the requests that are handed on. *)
From S2P Require Import Prelude GoTime Float64 Float64Facts GoError GoString Http State Metrics.
From S2P Require Import Postgres CachedStore TokenBucket Limiter MemoryLimiter Middleware.
From S2P Require Import GatewayState RateLimiting ConcurrentGateway.

(** ** Runs in time *)

(** The readings of the clock are made in order: those of a step come after
    [last], the latest one before it. *)
Definition in_order (last : Z) (a : gw_action) : Prop :=
  match a with
  | GArrive _ _ _ => True
  | GStep _ rd =>
      has_mono (rd 0%nat) /\ has_mono (rd 1%nat) /\
      last <= mono_ns (rd 0%nat) <= mono_ns (rd 1%nat)
  | GCleanup now => has_mono now /\ last <= mono_ns now
  end.

Definition last_reading (last : Z) (a : gw_action) : Z :=
  match a with
  | GArrive _ _ _ => last
  | GStep _ rd => mono_ns (rd 1%nat)
  | GCleanup now => mono_ns now
  end.

(** A run between [last] and [stop] of the monotonic clock. *)
Fixpoint clocked (last stop : Z) (acts : list gw_action) : Prop :=
  match acts with
  | [] => last <= stop
  | a :: acts => in_order last a /\ clocked (last_reading last a) stop acts
  end.

(** Every request of a client arrives with the same limit. *)
Definition constant_action (f : string -> Z) (a : gw_action) : Prop :=
  match a with GArrive _ i lim => lim = f i | _ => True end.

Lemma in_order_last (last : Z) (a : gw_action) : in_order last a -> last <= last_reading last a.
Proof. destruct a; simpl; [lia|intros (_ & _ & H); lia|intros [_ H]; lia]. Qed.

Lemma clocked_stop (last stop : Z) (acts : list gw_action) : clocked last stop acts -> last <= stop.
Proof.
  revert last. induction acts as [|a acts IH]; intros last; [done|].
  intros [H1 H2]. pose proof (in_order_last _ _ H1). apply IH in H2. lia.
Qed.

(** *** Counting the requests under way *)

Definition at_set (id : string) (q : request) : bool :=
  of_client id q && match q_pc q with PSetLimit => true | _ => false end.

Definition at_store (id : string) (q : request) : bool :=
  of_client id q && match q_pc q with PStore => true | _ => false end.

Lemma at_set_at (id i : string) (lim : Z) (p : gw_pc) :
  at_set id (mkRequest i lim p) =
  match p with PSetLimit => bool_decide (i = id) | _ => false end.
Proof. unfold at_set, of_client. destruct p; simpl; by rewrite ?andb_true_r, ?andb_false_r. Qed.

Lemma at_store_at (id i : string) (lim : Z) (p : gw_pc) :
  at_store id (mkRequest i lim p) =
  match p with PStore => bool_decide (i = id) | _ => false end.
Proof. unfold at_store, of_client. destruct p; simpl; by rewrite ?andb_true_r, ?andb_false_r. Qed.

Lemma tally_move (p : request -> bool) (rs : gmap nat request) (t : nat) (q0 q : request) :
  rs !! t = Some q0 ->
  tally p (<[t := q]> rs) =
  tally p rs - (if p q0 then 1 else 0) + (if p q then 1 else 0).
Proof. intros H. rewrite tally_insert, (tally_lookup p rs t q0 H). lia. Qed.

Lemma tally_split (p1 p2 r : request -> bool) (rs : gmap nat request) :
  (forall q, (if p1 q then 1 else 0) + (if p2 q then 1 else 0) <= if r q then 1 else 0) ->
  tally p1 rs + tally p2 rs <= tally r rs.
Proof.
  intros H. induction rs as [|t q rs Hq IH] using map_ind; [done|].
  rewrite !tally_insert, !tally_fresh by done. pose proof (H q). lia.
Qed.

Lemma setting_in_flight (id : string) (rs : gmap nat request) :
  tally (at_store id) rs + tally (at_set id) rs <= tally (of_client id) rs.
Proof.
  apply tally_split. intros [i l p]. unfold at_store, at_set. simpl.
  by destruct (of_client _ _), p.
Qed.

(** *** The list of a client's buckets *)

Lemma filter_elem_iff {A} (P Q : A -> Prop) `{!forall x, Decision (P x), !forall x, Decision (Q x)}
    (l : list A) :
  (forall x, x ∈ l -> P x <-> Q x) -> filter P l = filter Q l.
Proof.
  intros HPQ. induction l as [|x l IH]; [done|].
  rewrite !filter_cons, IH by (intros z Hz; apply HPQ; by right).
  destruct (HPQ x ltac:(left)). by destruct (decide (P x)), (decide (Q x)); try tauto.
Qed.

Lemma buckets_same (id : string) (y y' : ml_sys) :
  made y' = made y -> next (ml y') = next (ml y) -> buckets_of y' id = buckets_of y id.
Proof.
  intros Em En. unfold buckets_of. rewrite En. apply list_filter_iff.
  intros l. unfold is_owner. by rewrite Em.
Qed.

Lemma buckets_made (id i : string) (y y' : ml_sys) (tb : TokenBucket) (u : Time) :
  makes_bucket y y' i tb u ->
  buckets_of y' id = buckets_of y id ++ if bool_decide (i = id) then [next (ml y)] else [].
Proof.
  intros (Em & En & _). unfold buckets_of. rewrite En, seq_S, filter_app. f_equal.
  - apply filter_elem_iff. intros l Hl%elem_of_seq.
    unfold is_owner. rewrite Em, lookup_insert_ne; [done|lia].
  - assert (Eo : is_owner y' id (next (ml y)) <-> i = id)
      by (unfold is_owner; rewrite Em, lookup_insert_eq; simpl; split; congruence).
    rewrite filter_cons, Nat.add_0_l. case_bool_decide; [rewrite decide_True|rewrite decide_False];
      try done; tauto.
Qed.

(** The buckets of the list that are not in [D]. *)
Definition outside (D : gset nat) (ls : list nat) : list nat := filter (fun l => l ∉ D) ls.

Definition inside (D : gset nat) (ls : list nat) : list nat := filter (fun l => l ∈ D) ls.

Lemma outside_more (D D' : gset nat) (ls : list nat) (l0 : nat) :
  (forall l, l ∈ ls -> l <> l0) -> D' = {[l0]} ∪ D -> outside D' ls = outside D ls.
Proof. intros H ->. apply filter_elem_iff. intros l Hl. specialize (H l Hl). set_solver. Qed.

Lemma inside_size (D : gset nat) (ls : list nat) :
  NoDup ls -> (length (inside D ls) <= size D)%nat.
Proof.
  intros Hnd. rewrite <- (size_list_to_set (C := gset nat) (inside D ls))
    by (by apply NoDup_filter).
  apply subseteq_size. intros l. rewrite elem_of_list_to_set. unfold inside.
  by rewrite list_elem_of_filter; intros [H _].
Qed.

Lemma buckets_below (y : ml_sys) (id : string) (l : nat) :
  l ∈ buckets_of y id -> (l < next (ml y))%nat.
Proof. unfold buckets_of. rewrite list_elem_of_filter, elem_of_seq. lia. Qed.

(** ** The invariant of the buckets

    [D] holds the buckets made with the default limits for the client [id],
    the run starts at [t0], and [last] is the latest reading of the clock. *)
Section constant.
Context (default_limit : Z) (c : Config) (c_ok : config_ok c) (f : string -> Z) (id : string) (K t0 : Z).
Hypothesis interval_pos : 0 < CleanupInterval c.
Hypothesis interval_int : 2 * CleanupInterval c <= max_int64.
Local Abbreviation step := (gw_step default_limit).

(** From the last use of an entry to the cleanup that drops it. *)
Definition idle_time : Z := 2 * CleanupInterval c + 1.

Definition own_limits : Z * float64 := (f id, f64_of_Z (f id)).

Definition default_limits : Z * float64 := (BurstSize c, TokensPerSecond c).

Definition has_synced (y : gw_sys) (i : string) : Prop := is_Some (synced_limits y !! i).

Definition req_ok (y : gw_sys) (q : request) : Prop :=
  let i := q_client q in
  q_limit q = f i /\
  match q_pc q with
  | PLoad => True
  | PSetLimit | PStore => f i <> default_limit
  | _ => f i = default_limit \/ has_synced y i
  end.

(** The buckets the client's requests made with its own limit. *)
Definition own_count (D : gset nat) (y : gw_sys) : Z :=
  Z.of_nat (length (outside D (buckets_of (limiter y) id))).

Record count_ok (D : gset nat) (y : gw_sys) : Prop := {
  co_default : f id = default_limit -> own_count D y = 0;
  co_before : f id <> default_limit -> synced_limits y !! id = None ->
    own_count D y = tally (at_store id) (requests y);
  co_after : f id <> default_limit -> has_synced y id ->
    own_count D y + tally (at_set id) (requests y) <= K;
}.

(** A default bucket is made when the client has no entry: the first time if
    it has no limit of its own, later because its entry was dropped. *)
Definition first_free : Z := if f id =? default_limit then 1 else 0.

Definition drops (D : gset nat) : Z := Z.of_nat (size D) - first_free.

Definition entry (y : gw_sys) : option bucketEntry := buckets (ml (limiter y)) !! id.

(** The client has asked for a bucket. *)
Definition seen (y : gw_sys) : Prop :=
  f id = default_limit \/ has_synced y id \/ 0 < tally (at_store id) (requests y).

Record drops_ok (D : gset nat) (last : Z) (y : gw_sys) : Prop := {
  dr_start : t0 <= last;
  dr_last : t0 + drops D * idle_time <= last;
  dr_entry e : entry y = Some e -> exists u, mono (lastUsed e) = Some u /\
    t0 + drops D * idle_time <= u <= last;
  dr_none : entry y = None -> seen y -> t0 + (drops D + 1) * idle_time <= last;
  dr_unseen : f id <> default_limit -> synced_limits y !! id = None -> D = ∅;
}.

Record bk_inv (D : gset nat) (last : Z) (y : gw_sys) : Prop := {
  bi_req t q : requests y !! t = Some q -> req_ok y q;
  bi_synced i v : synced_limits y !! i = Some v -> v = f i;
  bi_owned l : l ∈ D -> l ∈ buckets_of (limiter y) id;
  bi_made l tb : made (limiter y) !! l = Some (id, tb) ->
    (capacity tb, refillRate tb) = if decide (l ∈ D) then default_limits else own_limits;
  bi_count : count_ok D y;
  bi_drops : drops_ok D last y;
}.

Lemma req_grows (y y' : gw_sys) (q : request) :
  (forall i, has_synced y i -> has_synced y' i) -> req_ok y q -> req_ok y' q.
Proof. intros Hs [H1 H2]. split; [done|]. destruct (q_pc q); try done; destruct H2; auto. Qed.

(** Moving one request. *)
Lemma reqs_move D last (y y' : gw_sys) (t : nat) (q : request) :
  bk_inv D last y -> (forall i, has_synced y i -> has_synced y' i) -> req_ok y' q ->
  requests y' = <[t := q]> (requests y) ->
  forall t' q', requests y' !! t' = Some q' -> req_ok y' q'.
Proof.
  intros Hinv Hg Hq E t' q'. rewrite E, lookup_insert. case_decide; [by intros [= <-]|].
  intros Hr. eapply req_grows; [done|]. by eapply bi_req.
Qed.

(** What a step leaves of the time between drops when it does not touch the
    client's entry. *)
Lemma drops_keep D last last' (y y' : gw_sys) :
  drops_ok D last y -> last <= last' -> entry y' = entry y ->
  (seen y' -> seen y) -> (synced_limits y' !! id = None -> synced_limits y !! id = None) ->
  drops_ok D last' y'.
Proof.
  intros [H0 H1 H2 H3 H4] Hl Ee Hseen Hs. split; try lia.
  - rewrite Ee. intros e He. destruct (H2 e He) as (u & Hu & Hb). exists u. split; [done|lia].
  - rewrite Ee. intros He Hy. specialize (H3 He (Hseen Hy)). lia.
  - auto.
Qed.

(** The client's entry is used again. *)
Lemma drops_use D last last' (y y' : gw_sys) e :
  drops_ok D last y -> last <= last' -> entry y' = Some e -> mono (lastUsed e) = Some last' ->
  (synced_limits y' !! id = None -> synced_limits y !! id = None) ->
  drops_ok D last' y'.
Proof.
  intros [H0 H1 H2 H3 H4] Hl Ee Hu Hs. split; try lia; [|by rewrite Ee|auto].
  rewrite Ee. intros e' [= <-]. exists last'. split; [done|lia].
Qed.

(** A step that moves a request and makes no bucket. *)
Lemma bk_move D last last' (y y' : gw_sys) (t : nat) (q0 q : request) :
  same_buckets (limiter y) (limiter y') -> synced_limits y' = synced_limits y ->
  requests y !! t = Some q0 -> requests y' = <[t := q]> (requests y) ->
  q_client q = q_client q0 -> q_pc q0 <> PSetLimit -> q_pc q0 <> PStore ->
  q_pc q <> PStore -> (q_pc q = PSetLimit -> synced_limits y !! q_client q = None) ->
  req_ok y q -> last <= last' -> bk_inv D last y -> bk_inv D last' y'.
Proof.
  intros (Em & En & Eb) Es Eq0 E Ec Hq1 Hq2 Hq3 Hq4 Hok Hl Hinv.
  pose proof (buckets_same id _ _ Em En) as Ebs.
  assert (Hg : forall i, has_synced y i -> has_synced y' i) by (unfold has_synced; by rewrite Es).
  assert (E1 : at_set id q0 = false /\ at_store id q0 = false /\ at_store id q = false).
  { unfold at_set, at_store. destruct (q_pc q0), (q_pc q); try done; by rewrite !andb_false_r. }
  destruct E1 as (E1 & E2 & E3).
  assert (Et : tally (at_store id) (requests y') = tally (at_store id) (requests y))
    by (rewrite E, (tally_move _ _ _ _ _ Eq0), E2, E3; lia).
  destruct (bi_count _ _ _ Hinv) as [H1 H2 H3]. split.
  - eapply reqs_move; [done|done| |done]. by eapply req_grows.
  - rewrite Es. apply (bi_synced _ _ _ Hinv).
  - rewrite Ebs. apply (bi_owned _ _ _ Hinv).
  - rewrite Em. apply (bi_made _ _ _ Hinv).
  - split; unfold own_count, has_synced in *; rewrite ?Ebs, ?Es, ?Et; [done|done|].
    rewrite E, (tally_move _ _ _ _ _ Eq0), E1, Z.sub_0_r. intros Hd Hs. specialize (H3 Hd Hs).
    destruct (at_set id q) eqn:Ea; [|lia]. unfold at_set, of_client in Ea.
    apply andb_true_iff in Ea as [Ei%bool_decide_eq_true Ep].
    destruct (q_pc q); try done. rewrite Ei in Hq4. rewrite Hq4 in Hs by done. by destruct Hs.
  - eapply drops_keep; [apply (bi_drops _ _ _ Hinv)|done|unfold entry; by rewrite Eb| |by rewrite Es].
    unfold seen, has_synced. by rewrite Es, Et.
Qed.

Lemma bk_load D last last' (y : gw_sys) (t : nat) (i : string) (lim : Z) (rd : readings) :
  requests y !! t = Some (mkRequest i lim PLoad) -> last <= last' -> bk_inv D last y ->
  bk_inv D last' (step y (GStep t rd)).
Proof.
  intros E Hl Hinv. pose proof (bi_req _ _ _ Hinv _ _ E) as [Hlim _]. simpl in Hlim.
  unfold gw_step. rewrite E. unfold run_limiter, limiter_action. rewrite E.
  set (known := (_ || _)%bool).
  eapply (bk_move D last last' y _ t); [done|done|exact E|reflexivity|done..|simpl|simpl| |done|done];
    try (by destruct known).
  - destruct known eqn:Ek; [done|]. intros _. apply orb_false_iff in Ek as [_ Ek].
    apply bool_decide_eq_false in Ek. destruct (synced_limits y !! i) as [v|] eqn:Es; [|done].
    pose proof (bi_synced _ _ _ Hinv _ _ Es). congruence.
  - split; [done|]. simpl. unfold known. destruct (lim =? default_limit) eqn:Ed; simpl.
    + left. apply Z.eqb_eq in Ed. congruence.
    + apply Z.eqb_neq in Ed. case_bool_decide; [right; by eexists|congruence].
Qed.

Lemma bk_take D last last' (y : gw_sys) (t : nat) (i : string) (lim : Z) (rd : readings) :
  requests y !! t = Some (mkRequest i lim PTake) -> gw_inv c y -> last <= last' ->
  bk_inv D last y -> bk_inv D last' (step y (GStep t rd)).
Proof.
  intros E Hg Hl Hinv. destruct (gi_takes _ _ Hg _ _ _ E) as [l Et].
  destruct (take_step (limiter y) t i l 1 (rd 0%nat) (gi_sys _ _ Hg) Et) as (ok & Ed & _ & _ & Hs).
  unfold gw_step. rewrite E, Ed. unfold run_limiter, limiter_action. rewrite E.
  eapply (bk_move D last last' y _ t); [exact Hs|done|exact E|reflexivity|done..| |done|done].
  apply (bi_req _ _ _ Hinv _ _ E).
Qed.

(** A step that leaves the buckets, their entries for the client, what is
    synced and the requests that set a limit as they are. *)
Lemma bk_leave D last last' (y y' : gw_sys) :
  made (limiter y') = made (limiter y) -> next (ml (limiter y')) = next (ml (limiter y)) ->
  synced_limits y' = synced_limits y -> last <= last' ->
  (forall t q, requests y' !! t = Some q -> req_ok y q) ->
  tally (at_set id) (requests y') = tally (at_set id) (requests y) ->
  tally (at_store id) (requests y') = tally (at_store id) (requests y) ->
  (drops_ok D last y -> drops_ok D last' y') -> bk_inv D last y -> bk_inv D last' y'.
Proof.
  intros Em En Es Hl Hr Et1 Et2 Hd [H1 H2 H3 H4 [H5 H6 H7] H8].
  pose proof (buckets_same id _ _ Em En) as Eb. split.
  - intros t q Hq. eapply req_grows; [|by eapply Hr]. unfold has_synced. by rewrite Es.
  - by rewrite Es.
  - by rewrite Eb.
  - by rewrite Em.
  - split; unfold own_count, has_synced in *; by rewrite ?Eb, ?Es, ?Et1, ?Et2.
  - by apply Hd.
Qed.

Lemma bk_tokens D last last' (y : gw_sys) (t : nat) (i : string) (lim : Z) (ok : bool) (rd : readings) :
  requests y !! t = Some (mkRequest i lim (PTokens ok)) -> gw_inv c y -> last <= last' ->
  bk_inv D last y -> bk_inv D last' (step y (GStep t rd)).
Proof.
  intros E Hg Hl Hinv.
  destruct (tokens_step (limiter y) i rd (gi_sys _ _ Hg)) as ([k Ek] & _ & _ & Em & En & Eb).
  unfold gw_step. rewrite E, Ek. unfold run_limiter, limiter_action. rewrite E.
  set (y' := mkGw _ _ _ _).
  assert (Et : tally (at_set id) (requests y') = tally (at_set id) (requests y) /\
    tally (at_store id) (requests y') = tally (at_store id) (requests y)).
  { unfold y'. cbn [requests]. rewrite !(tally_lookup _ (requests y) _ _ E), at_set_at, at_store_at. lia. }
  destruct Et as [Et1 Et2]. apply (bk_leave D last last' y y'); try done.
  - intros t' q. unfold y'. cbn [requests]. rewrite lookup_delete. case_decide; [done|].
    apply (bi_req _ _ _ Hinv).
  - intros Hd. eapply drops_keep; [exact Hd|done|unfold entry, y'; cbn [limiter]; by rewrite Eb| |done].
    unfold seen. by rewrite Et2.
Qed.

Lemma bk_arrive D last last' (y : gw_sys) (t : nat) (i : string) :
  requests y !! t = None -> last <= last' -> bk_inv D last y ->
  bk_inv D last' (step y (GArrive t i (f i))).
Proof.
  intros E Hl Hinv. simpl. rewrite E. set (y' := mkGw _ _ _ _).
  assert (Hp : forall p, p (mkRequest i (f i) PLoad) = false ->
    tally p (requests y') = tally p (requests y))
    by (intros p Hp; unfold y'; cbn [requests]; rewrite tally_insert, tally_fresh, Hp by done; lia).
  apply (bk_leave D last last' y y'); try done.
  - intros t' q. unfold y'. cbn [requests]. rewrite lookup_insert. case_decide; [by intros [= <-]|].
    apply (bi_req _ _ _ Hinv).
  - apply Hp, at_set_at.
  - apply Hp, at_store_at.
  - intros Hd. eapply drops_keep; [exact Hd|done|done| |done].
    unfold seen. rewrite (Hp (at_store id)); [done|apply at_store_at].
Qed.

(** The cleanup drops the client's entry, or leaves it. *)
Lemma bk_cleanup D last (y : gw_sys) (now : Time) :
  config (ml (limiter y)) = c -> in_order last (GCleanup now) -> 0 <= t0 -> mono_ns now <= max_int64 ->
  bk_inv D last y -> bk_inv D (mono_ns now) (step y (GCleanup now)).
Proof.
  intros Ec [[v Hv] Hl] H0 Hmax Hinv. apply (bk_leave D last _ y); try done.
  { apply (bi_req _ _ _ Hinv). }
  intros [D0 D1 D2 D3 D4]. unfold mono_ns in *. rewrite Hv in *. simpl in Hl, Hmax.
  set (y' := step y (GCleanup now)) in *.
  assert (Ee : entry y' = e ← entry y; if time_before (lastUsed e) (idle_threshold (ml (limiter y)) now)
                                      then None else Some e).
  { unfold y', entry. simpl. unfold run_limiter. simpl. rewrite map_lookup_filter.
    destruct (buckets _ !! id) as [e|]; [|done]. simpl. by destruct (time_before _ _). }
  destruct (entry y) as [e|]; simpl in Ee.
  - destruct (D2 e eq_refl) as (u & Hu & Hb).
    rewrite (idle_before _ _ now u v) in Ee by (rewrite ?Ec; unfold max_int64 in *; done || lia).
    rewrite Ec in Ee. destruct (Z.ltb_spec u (v - 2 * CleanupInterval c)) as [Hi|Hi].
    + split; simpl; try lia; [by rewrite Ee|intros _ _; unfold idle_time in *; lia|done].
    + split; simpl; try lia; [|by rewrite Ee|done].
      rewrite Ee. intros e' [= <-]. exists u. split; [done|lia].
  - split; simpl; try lia; [by rewrite Ee| |done]. intros _ Hs. specialize (D3 eq_refl Hs). lia.
Qed.

(** What [SetLimit] and [getOrCreateBucket] do to the client's entry. *)
Lemma entry_made (y y' : gw_sys) (i : string) (tb : TokenBucket) (u : Time) :
  makes_bucket (limiter y) (limiter y') i tb u -> i <> id -> entry y' = entry y.
Proof. intros (_ & _ & Eb) Hi. unfold entry. rewrite Eb. by rewrite lookup_insert_ne. Qed.

Lemma own_made D (y y' : gw_sys) (i : string) (tb : TokenBucket) (u : Time) last :
  bk_inv D last y -> makes_bucket (limiter y) (limiter y') i tb u ->
  own_count D y' = own_count D y + if bool_decide (i = id) then 1 else 0.
Proof.
  intros Hinv Hm. unfold own_count. rewrite (buckets_made id i _ _ _ _ Hm).
  unfold outside. rewrite filter_app, length_app. case_bool_decide; [|simpl; lia].
  rewrite filter_cons_True; [simpl; lia|].
  intros Hin%(bi_owned _ _ _ Hinv)%buckets_below. lia.
Qed.

Lemma owned_made D (y y' : gw_sys) (i : string) (tb : TokenBucket) (u : Time) last :
  bk_inv D last y -> makes_bucket (limiter y) (limiter y') i tb u ->
  forall l, l ∈ D -> l ∈ buckets_of (limiter y') id.
Proof.
  intros Hinv Hm l Hl. rewrite (buckets_made id i _ _ _ _ Hm). apply elem_of_app. left.
  by apply (bi_owned _ _ _ Hinv).
Qed.

Lemma limits_made D (y y' : gw_sys) (i : string) (tb : TokenBucket) (u : Time) last :
  sys_inv (limiter y) -> bk_inv D last y -> makes_bucket (limiter y) (limiter y') i tb u ->
  (i = id -> (capacity tb, refillRate tb) = own_limits) ->
  forall l tb', made (limiter y') !! l = Some (id, tb') ->
  (capacity tb', refillRate tb') = if decide (l ∈ D) then default_limits else own_limits.
Proof.
  intros Hs Hinv (-> & _) Htb l tb'. rewrite lookup_insert.
  case_decide as E; [|apply (bi_made _ _ _ Hinv)]. intros [= -> <-]. rewrite Htb by done.
  rewrite decide_False; [done|]. subst l. intros Hin%(bi_owned _ _ _ Hinv)%buckets_below. lia.
Qed.

Lemma bk_set_limit D last (y : gw_sys) (t : nat) (i : string) (lim : Z) (rd : readings) :
  requests y !! t = Some (mkRequest i lim PSetLimit) -> gw_inv c y -> in_order last (GStep t rd) ->
  bk_inv D last y -> bk_inv D (mono_ns (rd 1%nat)) (step y (GStep t rd)).
Proof.
  intros E Hg (_ & Hm1 & Hl) Hinv. pose proof (limit_int64 _ (gi_limit _ _ Hg _ _ E)) as Hlim. simpl in Hlim.
  destruct (bi_req _ _ _ Hinv _ _ E) as [Hlf Hd]. simpl in Hlf, Hd.
  destruct (set_limit_step (limiter y) i lim rd Hlim) as (Es & _ & _ & Hm).
  unfold gw_step. rewrite E, Es. unfold run_limiter, limiter_action. rewrite E.
  set (y' := mkGw _ _ _ _). change (makes_bucket (limiter y) (limiter y') i
    (mkTokenBucket lim (f64_of_Z lim) (f64_of_Z lim) (rd 0%nat)) (rd 1%nat)) in Hm.
  pose proof (own_made D y y' i _ _ last Hinv Hm) as En.
  assert (Et : tally (at_set id) (requests y') =
      tally (at_set id) (requests y) - (if bool_decide (i = id) then 1 else 0) /\
    tally (at_store id) (requests y') =
      tally (at_store id) (requests y) + (if bool_decide (i = id) then 1 else 0)).
  { unfold y'. cbn [requests]. rewrite !(tally_move _ _ _ _ _ E), !at_set_at, !at_store_at. lia. }
  destruct Et as [Et1 Et2]. destruct (bi_count _ _ _ Hinv) as [H1 H2 H3]. split.
  - eapply reqs_move; [done|done| |reflexivity]. by split.
  - apply (bi_synced _ _ _ Hinv).
  - by eapply owned_made.
  - eapply limits_made; [apply (gi_sys _ _ Hg)|done|done|]. intros ->. simpl. unfold own_limits.
    by rewrite Hlf.
  - split; rewrite ?En, ?Et1, ?Et2; change (has_synced y' id) with (has_synced y id);
      change (synced_limits y') with (synced_limits y).
    + intros Hdef. rewrite bool_decide_false by congruence. rewrite H1 by done. lia.
    + intros Hne Hno. specialize (H2 Hne Hno). lia.
    + intros Hne Hyes. specialize (H3 Hne Hyes). lia.
  - destruct (decide (i = id)) as [->|Hi].
    + destruct Hm as (_ & _ & Eb), Hm1 as [v Hv].
      eapply drops_use; [apply (bi_drops _ _ _ Hinv)|lia|unfold entry; by rewrite Eb, lookup_insert_eq| |done].
      unfold mono_ns. simpl. by rewrite Hv.
    + eapply drops_keep; [apply (bi_drops _ _ _ Hinv)|lia|by eapply entry_made| |done].
      unfold seen. rewrite Et2, bool_decide_false by done. by rewrite Z.add_0_r.
Qed.

Lemma bk_store D last last' (y : gw_sys) (t : nat) (i : string) (lim : Z) (rd : readings) :
  requests y !! t = Some (mkRequest i lim PStore) -> in_flight id y <= K -> last <= last' ->
  bk_inv D last y -> bk_inv D last' (step y (GStep t rd)).
Proof.
  intros E HK Hl Hinv. destruct (bi_req _ _ _ Hinv _ _ E) as (Hlf & Hd). simpl in Hlf, Hd.
  unfold gw_step. rewrite E. unfold run_limiter, limiter_action. rewrite E.
  set (y' := mkGw _ _ _ _).
  assert (Hs : forall j, has_synced y j -> has_synced y' j).
  { intros j Hj. unfold has_synced. simpl. rewrite lookup_insert. case_decide; [by eexists|done]. }
  assert (Et1 : tally (at_set id) (requests y') = tally (at_set id) (requests y)).
  { unfold y'. cbn [requests]. rewrite (tally_move _ _ _ _ _ E), !at_set_at. lia. }
  assert (Et2 : tally (at_store id) (requests y') =
    tally (at_store id) (requests y) - (if bool_decide (i = id) then 1 else 0)).
  { unfold y'. cbn [requests]. rewrite (tally_move _ _ _ _ _ E), !at_store_at. lia. }
  assert (Hno : synced_limits y' !! id = None -> synced_limits y !! id = None /\ i <> id).
  { simpl. rewrite lookup_insert. by case_decide. }
  split.
  - eapply reqs_move; [done|done| |reflexivity]. split; [done|]. right.
    unfold has_synced. simpl. rewrite lookup_insert_eq. by eexists.
  - intros j v. simpl. rewrite lookup_insert.
    destruct (decide (i = j)) as [<-|]; [by intros [= <-]|apply (bi_synced _ _ _ Hinv)].
  - apply (bi_owned _ _ _ Hinv).
  - apply (bi_made _ _ _ Hinv).
  - destruct (bi_count _ _ _ Hinv) as [H1 H2 H3].
    split; rewrite ?Et1, ?Et2; change (own_count D y') with (own_count D y); [done| |].
    + intros Hne [Hn Hi]%Hno. rewrite (H2 Hne Hn), bool_decide_false by done. lia.
    + intros Hne _. destruct (synced_limits y !! id) eqn:Es; [apply H3; [done|by eexists]|].
      rewrite (H2 Hne eq_refl). etrans; [apply setting_in_flight|exact HK].
  - eapply drops_keep; [apply (bi_drops _ _ _ Hinv)|done|done| |by intros [Hn _]%Hno].
    unfold seen. rewrite Et2. intros [H|[[v Hv]|H]]; [by left| |right; right; by destruct (bool_decide _); lia].
    simpl in Hv. rewrite lookup_insert in Hv.
    destruct (decide (i = id)) as [->|]; [|right; left; by eexists].
    right; right. rewrite (tally_lookup _ _ _ _ E), at_store_at, bool_decide_true by done.
    unfold tally. lia.
Qed.

(** [getOrCreateBucket] finds the bucket of [i], or makes one. *)
Lemma allow_cases (y : gw_sys) (t : nat) (i : string) (lim : Z) (rd : readings) :
  requests y !! t = Some (mkRequest i lim PAllow) -> gw_inv c y ->
  let y' := step y (GStep t rd) in
  requests y' = <[t := mkRequest i lim PTake]> (requests y) /\ synced_limits y' = synced_limits y /\
  match buckets (ml (limiter y)) !! i with
  | Some e => made (limiter y') = made (limiter y) /\ next (ml (limiter y')) = next (ml (limiter y)) /\
      buckets (ml (limiter y')) = <[i := mkBucketEntry (bucket e) (rd 1%nat)]> (buckets (ml (limiter y)))
  | None => makes_bucket (limiter y) (limiter y') i
      (mkTokenBucket (BurstSize c) (TokensPerSecond c) (f64_of_Z (BurstSize c)) (rd 0%nat)) (rd 1%nat)
  end.
Proof.
  intros E Hg. pose proof (gi_config _ _ Hg) as Ec.
  assert (Et : MemoryLimiter.threads (limiter y) !! t = None).
  { destruct (MemoryLimiter.threads (limiter y) !! t) as [[[j l] n]|] eqn:Et; [|done].
    destruct (gi_holds _ _ Hg _ _ _ _ Et) as [_ [lim' Hr]]. congruence. }
  destruct (get_step (limiter y) t i 1 rd ltac:(by rewrite Ec) Et) as (l & Eg & _ & _ & Hm).
  rewrite Ec in Hm. unfold gw_step. rewrite E, Eg. unfold run_limiter, limiter_action. by rewrite E.
Qed.

(** A new bucket with the default limits for the client. *)
Lemma bk_default D last (y y' : gw_sys) (tb : TokenBucket) (u : Time) :
  bk_inv D last y -> sys_inv (limiter y) -> makes_bucket (limiter y) (limiter y') id tb u ->
  entry y = None -> f id = default_limit \/ has_synced y id ->
  (capacity tb, refillRate tb) = default_limits -> mono u = Some (mono_ns u) -> last <= mono_ns u ->
  synced_limits y' = synced_limits y ->
  tally (at_set id) (requests y') = tally (at_set id) (requests y) ->
  tally (at_store id) (requests y') = tally (at_store id) (requests y) ->
  (forall t q, requests y' !! t = Some q -> req_ok y q) ->
  bk_inv ({[next (ml (limiter y))]} ∪ D) (mono_ns u) y'.
Proof.
  intros Hinv Hs Hm Ee Hd Htb Hu Hl Es Et1 Et2 Hreq. set (D' := _ ∪ D).
  pose proof (buckets_made id id _ _ _ _ Hm) as Ebs. rewrite bool_decide_true in Ebs by done.
  assert (Hfresh : next (ml (limiter y)) ∉ D) by (intros Hin%(bi_owned _ _ _ Hinv)%buckets_below; lia).
  assert (Hsize : drops D' = drops D + 1).
  { unfold drops, D'. rewrite size_union by set_solver. rewrite size_singleton. lia. }
  assert (En : own_count D' y' = own_count D y).
  { unfold own_count. rewrite Ebs. unfold outside at 1. rewrite filter_app, filter_cons_False by set_solver.
    rewrite app_nil_r. do 2 f_equal. apply (outside_more D D' _ (next (ml (limiter y)))); [|done].
    intros l Hin%buckets_below. lia. }
  destruct (bi_count _ _ _ Hinv) as [H1 H2 H3]. split.
  - intros t q Hq. eapply req_grows; [|by eapply Hreq]. unfold has_synced. by rewrite Es.
  - rewrite Es. apply (bi_synced _ _ _ Hinv).
  - rewrite Ebs. intros l [->%elem_of_singleton|Hin]%elem_of_union; apply elem_of_app.
    + right. by apply list_elem_of_singleton.
    + left. by apply (bi_owned _ _ _ Hinv).
  - destruct Hm as (Em & _). rewrite Em. intros l tb'. rewrite lookup_insert. case_decide as E.
    + intros [= <-]. rewrite decide_True by set_solver. done.
    + intros Hl'. rewrite (bi_made _ _ _ Hinv l tb' Hl').
      destruct (decide (l ∈ D)), (decide (l ∈ D')); try done; set_solver.
  - split; unfold has_synced in *; rewrite ?En, ?Es, ?Et1, ?Et2; done.
  - destruct (bi_drops _ _ _ Hinv) as [D0 D1 D2 D3 D4].
    assert (Hseen : seen y) by (destruct Hd; [by left|by right; left]).
    specialize (D3 Ee Hseen). destruct Hm as (_ & _ & Eb).
    assert (Ee' : entry y' = Some (mkBucketEntry (next (ml (limiter y))) u))
      by (unfold entry; by rewrite Eb, lookup_insert_eq).
    split; rewrite ?Hsize, ?Ee', ?Es; [lia|lia| |done|].
    + intros e [= <-]. exists (mono_ns u). split; [done|]. unfold idle_time in *. lia.
    + intros Hne Hn. destruct Hd as [|[v Hv]]; congruence.
Qed.

Lemma bk_allow D last (y : gw_sys) (t : nat) (i : string) (lim : Z) (rd : readings) :
  requests y !! t = Some (mkRequest i lim PAllow) -> gw_inv c y -> in_order last (GStep t rd) ->
  bk_inv D last y -> exists D', bk_inv D' (mono_ns (rd 1%nat)) (step y (GStep t rd)).
Proof.
  intros E Hg (_ & [v Hv] & Hl) Hinv. destruct (bi_req _ _ _ Hinv _ _ E) as (Hlf & Hd).
  destruct (allow_cases y t i lim rd E Hg) as (Er & Es & Hm). set (y' := step y (GStep t rd)) in *.
  clearbody y'. simpl in Hlf, Hd.
  assert (Hlast : last <= mono_ns (rd 1%nat)) by lia.
  assert (Et : tally (at_set id) (requests y') = tally (at_set id) (requests y) /\
    tally (at_store id) (requests y') = tally (at_store id) (requests y)).
  { rewrite Er, !(tally_move _ _ _ _ _ E), !at_set_at, !at_store_at. lia. }
  destruct Et as [Et1 Et2].
  assert (Hs : forall j, has_synced y j -> has_synced y' j) by (intros j; unfold has_synced; by rewrite Es).
  assert (Hreq : forall t' q, requests y' !! t' = Some q -> req_ok y q)
    by (intros t' q; rewrite Er, lookup_insert; case_decide; [intros [= <-]; by split|apply (bi_req _ _ _ Hinv)]).
  assert (Hseen : seen y' -> seen y) by (unfold seen, has_synced; by rewrite Es, Et2).
  assert (Hno : synced_limits y' !! id = None -> synced_limits y !! id = None) by by rewrite Es.
  assert (Hmono : mono (rd 1%nat) = Some (mono_ns (rd 1%nat))) by (unfold mono_ns; by rewrite Hv).
  destruct (buckets (ml (limiter y)) !! i) as [e|] eqn:Eb.
  { destruct Hm as (Em & En & Eb'). exists D. apply (bk_leave D last _ y y'); try done. intros Hdr.
    destruct (decide (i = id)) as [->|Hi].
    - eapply drops_use; [exact Hdr|done|unfold entry; by rewrite Eb', lookup_insert_eq|done|done].
    - eapply drops_keep; [exact Hdr|done| |done|done]. unfold entry. by rewrite Eb', lookup_insert_ne. }
  pose proof (buckets_made id i _ _ _ _ Hm) as Ebs.
  destruct (decide (i = id)) as [->|Hi].
  - exists ({[next (ml (limiter y))]} ∪ D).
    by apply (bk_default D last y y' _ _ Hinv (gi_sys _ _ Hg) Hm).
  - exists D. split.
    + intros t' q Hq. eapply req_grows; [done|by eapply Hreq].
    + rewrite Es. apply (bi_synced _ _ _ Hinv).
    + by eapply owned_made.
    + eapply limits_made; [apply (gi_sys _ _ Hg)|done|done|done].
    + pose proof (own_made D y y' i _ _ last Hinv Hm) as En. rewrite bool_decide_false in En by done.
      destruct (bi_count _ _ _ Hinv) as [H1 H2 H3].
      split; unfold has_synced in *; rewrite ?En, ?Es, ?Et1, ?Et2, ?Z.add_0_r; done.
    + eapply drops_keep; [apply (bi_drops _ _ _ Hinv)|done|by eapply entry_made|done|done].
Qed.

Lemma bk_step D last (y : gw_sys) (a : gw_action) :
  constant_action f a -> in_order last a -> in_flight id y <= K -> 0 <= t0 ->
  last_reading last a <= max_int64 -> gw_inv c y -> bk_inv D last y ->
  exists D', bk_inv D' (last_reading last a) (step y a).
Proof.
  intros Ha Ho HK H0 Hmax Hg Hinv. pose proof (in_order_last _ _ Ho) as Hl.
  destruct a as [t i lim|t rd|now]; simpl in Ha, Hmax; simpl last_reading in *.
  - exists D. subst lim. destruct (requests y !! t) eqn:E; [simpl; by rewrite E|by apply (bk_arrive D last)].
  - destruct (requests y !! t) as [[i lim []]|] eqn:E.
    + exists D. by eapply (bk_load D last).
    + exists D. by eapply (bk_set_limit D last).
    + exists D. by eapply (bk_store D last).
    + by eapply (bk_allow D last).
    + exists D. by eapply (bk_take D last).
    + exists D. by eapply (bk_tokens D last).
    + exists D. unfold gw_step. rewrite E. apply (bk_leave D last _ y y); try done.
      * apply (bi_req _ _ _ Hinv).
      * intros Hd. by eapply (drops_keep D last).
  - exists D. by apply (bk_cleanup D last); [apply (gi_config _ _ Hg)|..].
Qed.

Lemma bk_run D last stop (y : gw_sys) (acts : list gw_action) :
  Forall gw_action_ok acts -> Forall (constant_action f) acts -> clocked last stop acts ->
  Forall (fun y => in_flight id y <= K) (gw_states default_limit y acts) -> 0 <= t0 ->
  stop <= max_int64 -> gw_inv c y -> bk_inv D last y ->
  exists D' last', last' <= stop /\ bk_inv D' last' (gw_run default_limit y acts).
Proof.
  revert D last y. induction acts as [|a acts IH]; intros D last y H1 H2 Hc HK H0 Hs Hg Hinv.
  { by exists D, last. }
  apply Forall_cons in H1 as [Ha1 H1]. apply Forall_cons in H2 as [Ha2 H2].
  apply Forall_cons in HK as [HK0 HK]. destruct Hc as [Ho Hc].
  pose proof (clocked_stop _ _ _ Hc).
  destruct (bk_step D last y a) as [D' Hinv']; try done; [lia|].
  apply (IH D' (last_reading last a) (step y a)); try done. by apply gw_step_inv.
Qed.

Lemma bk_inv_init (c0 : Config) : bk_inv ∅ t0 (gw_init c0).
Proof.
  assert (Hd : drops ∅ = - first_free) by (unfold drops; rewrite size_empty; lia).
  assert (Hf : 0 <= first_free) by (unfold first_free; by destruct (_ =? _)).
  split; [done|done|set_solver|done| |].
  - split; [done|done|]. intros _ [v Hv]. simpl in Hv. by rewrite lookup_empty in Hv.
  - split; rewrite ?Hd; [lia|unfold idle_time; nia|done| |done].
    intros _ [H|[[v Hv]|H]]; [|simpl in Hv; by rewrite lookup_empty in Hv|done].
    unfold first_free. rewrite H, Z.eqb_refl. lia.
Qed.

(** The client's buckets: those with its own limit, one per request that may
    set it at one time, and those with the default limits. *)
Definition has_own_limits (y : gw_sys) (l : nat) : Prop :=
  exists tb, made (limiter y) !! l = Some (id, tb) /\ (capacity tb, refillRate tb) = own_limits.

Definition has_default_limits (y : gw_sys) (l : nat) : Prop :=
  exists tb, made (limiter y) !! l = Some (id, tb) /\ (capacity tb, refillRate tb) = default_limits.

Definition split_buckets (T : Z) (y : gw_sys) : Prop :=
  exists own dflt, buckets_of (limiter y) id ≡ₚ own ++ dflt /\
    Forall (has_own_limits y) own /\ Forall (has_default_limits y) dflt /\
    Z.of_nat (length own) <= (if f id =? default_limit then 0 else K) /\
    Z.of_nat (length dflt) <= first_free + T / idle_time.

Lemma inv_split D last (y : gw_sys) (T : Z) :
  bk_inv D last y -> last <= t0 + T -> in_flight id y <= K -> split_buckets T y.
Proof.
  intros [_ _ Ho Hm [H1 H2 H3] Hd] Hl HK. unfold split_buckets.
  set (ls := buckets_of (limiter y) id) in *. exists (outside D ls), (inside D ls).
  assert (Hnd : NoDup ls) by (unfold ls, buckets_of; apply NoDup_filter, NoDup_seq).
  assert (Hmade : forall l, l ∈ ls -> exists tb, made (limiter y) !! l = Some (id, tb)).
  { intros l. unfold ls, buckets_of, is_owner. rewrite list_elem_of_filter. intros [E _].
    destruct (made _ !! l) as [[i tb]|]; [|done]. injection E as ->. by exists tb. }
  split; [|split; [|split; [|split]]].
  - rewrite Permutation_app_comm. symmetry. apply filter_app_complement.
  - apply Forall_forall. intros l [Hn Hin]%list_elem_of_filter. destruct (Hmade l Hin) as [tb E].
    exists tb. split; [done|]. by rewrite (Hm l tb E), decide_False.
  - apply Forall_forall. intros l [Hn Hin]%list_elem_of_filter. destruct (Hmade l Hin) as [tb E].
    exists tb. split; [done|]. by rewrite (Hm l tb E), decide_True.
  - change (Z.of_nat (length (outside D ls))) with (own_count D y).
    destruct (Z.eqb_spec (f id) default_limit) as [E|E]; [by rewrite H1|].
    pose proof (setting_in_flight id (requests y)) as Hs. unfold in_flight in HK.
    assert (0 <= tally (at_set id) (requests y)) by (unfold tally; lia).
    destruct (synced_limits y !! id) as [v|] eqn:Es; [specialize (H3 E ltac:(by eexists)); lia|].
    rewrite (H2 E eq_refl). lia.
  - pose proof (inside_size D ls Hnd). pose proof (dr_last _ _ _ Hd). unfold drops in *.
    assert (Z.of_nat (size D) - first_free <= T / idle_time); [|lia].
    apply Z.div_le_lower_bound; unfold idle_time in *; nia.
Qed.
End constant.

(** *** Times and bounds *)

(** What holds of the limiter's steps because it holds of the requests'. *)
Lemma limiter_actions_all (I : gw_sys -> Prop) (Q : gw_action -> Prop) (P : ml_action -> Prop)
    (d : Z) (y : gw_sys) (acts : list gw_action) :
  (forall y a, Q a -> I y -> I (gw_step d y a)) ->
  (forall y a b, Q a -> I y -> limiter_action y a = Some b -> P b) ->
  Forall Q acts -> I y -> Forall P (limiter_actions d y acts).
Proof.
  intros Hstep HP Hacts. revert y. induction Hacts as [|a acts Ha _ IH]; intros y Hy; [constructor|].
  simpl. apply Forall_app. split; [|by apply IH, Hstep].
  destruct (limiter_action y a) as [b|] eqn:E; [|constructor]. constructor; [|constructor].
  by eapply HP.
Qed.

Lemma gw_actions_ok (d : Z) (c : Config) (y : gw_sys) (acts : list gw_action) :
  config_ok c -> Forall gw_action_ok acts -> gw_inv c y ->
  Forall ml_action_ok (limiter_actions d y acts).
Proof.
  intros Hc Hacts Hinv. eapply limiter_actions_all; [by apply gw_step_inv| |exact Hacts|exact Hinv].
  clear y acts Hacts Hinv. intros y a b Ha Hinv E. destruct a as [t id lim|t rd|now]; simpl in E.
  - done.
  - destruct (requests y !! t) as [[id lim p]|] eqn:Eq; [|done].
    pose proof (gi_limit _ _ Hinv _ _ Eq) as Hlim. simpl in Hlim.
    destruct p; try done; injection E as <-; try done.
    split; [|done]. split; [done|]. by exists lim.
  - by injection E as <-.
Qed.

(** The readings of the clock that a step uses, and those the limiter holds. *)
Section times.
Context (P : Time -> Prop).

Definition action_times (a : ml_action) : Prop :=
  match a with
  | AGet _ _ _ rd | ASetLimit _ _ _ rd => P (rd 0%nat)
  | ATake _ now | ATokens _ now => P now
  | AReset _ | ACleanup _ => True
  end.

Record times_in (y : ml_sys) : Prop := {
  ti_made l o : made y !! l = Some o -> P (lastRefill (snd o));
  ti_log : Forall (fun k => P (c_now k)) (log y);
}.

Lemma put_new_times (y : ml_sys) (id : string) (b : Z) (r : float64) (rd : readings) ths :
  P (rd 0%nat) -> times_in y ->
  let m' := snd (put_new (ml y) id b r rd) in
  times_in (mkMlSys m' ths (note_made y m' id) (log y)).
Proof.
  intros Hrd [Hm Hl]. unfold put_new, NewTokenBucket.
  destruct (b <? 1); [by rewrite note_made_same by done; split|].
  destruct (f64_leb _ _); [by rewrite note_made_same by done; split|].
  simpl. rewrite note_made_new. split; simpl; [|done].
  intros l o. rewrite lookup_insert. case_decide; [by intros [= <-]|apply Hm].
Qed.

Lemma ml_step_times (y : ml_sys) (a : ml_action) :
  action_times a -> times_in y -> times_in (ml_step y a).
Proof.
  intros Ha Hy. pose proof Hy as [Hm Hl].
  destruct a as [t id n rd|t now|id now|id|id b r rd|now]; simpl in *; try by split.
  - destruct (MemoryLimiter.threads y !! t); [done|]. unfold getOrCreateBucket.
    destruct (buckets (ml y) !! id) as [e|]; [by rewrite note_made_same by done; split|].
    pose proof (put_new_times y id (BurstSize (config (ml y))) (TokensPerSecond (config (ml y))) rd)
      as H. cbv zeta in H.
    destruct (put_new (ml y) id _ _ rd) as [[l|] m'] eqn:E; simpl in H |- *.
    + apply H; [done|by split].
    + by split.
  - destruct (MemoryLimiter.threads y !! t) as [[[id l] n]|]; [|done].
    destruct (heap_AllowN (ml y) l n now) as [[ok|] m']; split; simpl; try done.
    apply Forall_app_2; [done|]. by repeat constructor.
  - destruct (buckets (ml y) !! id); split; simpl; try done.
    apply Forall_app_2; [done|]. by repeat constructor.
  - pose proof (put_new_times y id b r rd (MemoryLimiter.threads y) Ha Hy) as H.
    unfold ml_SetLimit. by destruct (put_new (ml y) id b r rd) as [[l|] m'].
Qed.

Lemma ml_run_times (y : ml_sys) (acts : list ml_action) :
  Forall action_times acts -> times_in y -> times_in (ml_run y acts).
Proof.
  intros Hacts. revert y. induction Hacts as [|a acts Ha _ IH]; intros y Hy; [done|].
  by apply IH, ml_step_times.
Qed.

(** The last refill of every bucket is one of those readings. *)
Lemma bucket_times (y : ml_sys) (l : nat) (id : string) (tb0 : TokenBucket) :
  sys_inv y -> times_in y -> made y !! l = Some (id, tb0) ->
  exists tb, heap (ml y) !! l = Some tb /\ P (lastRefill tb0) /\ P (lastRefill tb).
Proof.
  intros Hinv [Hm Hl] E. destruct (si_run _ Hinv _ _ _ E) as [Hh _]. eexists. split; [exact Hh|].
  pose proof (Hm _ _ E) as H0. split; [done|].
  pose proof (tb_run_refill tb0 (calls_on l (log y))) as Hin.
  unfold calls_on in *. apply elem_of_cons in Hin as [->|Hin]; [done|].
  apply list_elem_of_fmap in Hin as (x & -> & Hx).
  apply list_elem_of_fmap in Hx as (k & -> & [_ Hk]%list_elem_of_filter).
  rewrite Forall_forall in Hl. by apply Hl.
Qed.
End times.

(** Every reading of the run lies in the window of length [T] that starts at [t0]. *)
Definition within (t0 T : Z) (now : Time) : Prop := t0 <= mono_ns now <= t0 + T.

Lemma clocked_within (t0 last T : Z) (acts : list gw_action) :
  clocked last (t0 + T) acts -> t0 <= last ->
  Forall (fun a => match a with GStep _ rd => within t0 T (rd 0%nat) | _ => True end) acts.
Proof.
  revert last. induction acts as [|a acts IH]; intros last; [constructor|]. intros [Ho Hc] Hl.
  pose proof (in_order_last _ _ Ho). pose proof (clocked_stop _ _ _ Hc) as Hs.
  constructor; [|apply (IH (last_reading last a)); [done|lia]].
  destruct a as [|t rd|]; [done| |done]. destruct Ho as (_ & _ & Ho). simpl in Hs. unfold within. lia.
Qed.

Lemma gw_actions_times (P : Time -> Prop) (d : Z) (y : gw_sys) (acts : list gw_action) :
  Forall (fun a => match a with GStep _ rd => P (rd 0%nat) | _ => True end) acts ->
  Forall (action_times P) (limiter_actions d y acts).
Proof.
  intros Hacts. eapply (limiter_actions_all (fun _ => True)); [done| |exact Hacts|done].
  clear. intros y [t id lim|t rd|now] b Ha _ E; simpl in E; [done| |by injection E as <-].
  destruct (requests y !! t) as [[id lim []]|]; try done; by injection E as <-.
Qed.

Lemma sum_Z_bound (g : nat -> Z) (ls : list nat) (k : Z) :
  (forall l, l ∈ ls -> g l <= k) -> sum_Z (g <$> ls) <= Z.of_nat (length ls) * k.
Proof.
  induction ls as [|l ls IH]; intros H; [done|]. rewrite fmap_cons. unfold sum_Z in *.
  cbn [foldr length]. pose proof (H l ltac:(by left)).
  specialize (IH (fun l Hl => H l ltac:(by right))). lia.
Qed.

(** The allowance of one bucket over a window. *)
Lemma allowance_within (y : ml_sys) (l : nat) (id : string) (t0 T b q : Z) tb0 :
  sys_inv y -> times_in (within t0 T) y -> made y !! l = Some (id, tb0) ->
  capacity tb0 = b -> refillRate tb0 = f64_of_Z q -> 1 <= q <= 2 ^ 20 ->
  allowance y l <= ((b + 1) * Second + q * T) * f64_unit.
Proof.
  intros Hinv Ht E Eb Eq Hq. destruct (bucket_times _ y l id tb0 Hinv Ht E) as (tb & Hh & H0 & H1).
  unfold allowance, bucket_span. rewrite E, Hh, Eb, Eq.
  destruct (integer_rate q) as (_ & _ & -> & _); [lia|].
  unfold refill_span, within in *. pose proof f64_unit_pos.
  assert (q * f64_unit * (mono_ns (lastRefill tb) - mono_ns (lastRefill tb0)) <= q * f64_unit * T)
    by (apply Z.mul_le_mono_nonneg_l; nia).
  lia.
Qed.

Lemma tally_nonneg (p : request -> bool) (rs : gmap nat request) : 0 <= tally p rs.
Proof. unfold tally. lia. Qed.

(** The requests handed on, against the allowances of the client's buckets. *)
Lemma handed_by_buckets (d : Z) (c : Config) (acts : list gw_action) (id : string) :
  limits_ok (BurstSize c) (TokensPerSecond c) -> config_ok c -> Forall gw_action_ok acts ->
  Z.of_nat (length acts) <= 2 ^ 28 ->
  let y := gw_run d (gw_init c) acts in
  handed_on id y * Second * f64_unit <=
  sum_Z (allowance (limiter y) <$> buckets_of (limiter y) id).
Proof.
  intros Hlim Hc H1 Hlen y.
  pose proof (gw_run_inv d (config (NewMemoryLimiter c)) Hc _ acts H1 (gw_inv_init c)) as Hg.
  fold y in Hg. set (macts := limiter_actions d (gw_init c) acts).
  assert (Ey : limiter y = ml_run (ml_init c) macts) by apply gw_run_limiter.
  assert (Hok : Forall ml_action_ok macts)
    by (eapply (gw_actions_ok d (config (NewMemoryLimiter c))); [exact Hc|exact H1|apply gw_inv_init]).
  pose proof (limiter_actions_length d (gw_init c) acts) as Hl. fold macts in Hl.
  pose proof (client_rate_bound c macts id Hlim Hok ltac:(lia)) as Hb. cbv zeta in Hb.
  rewrite <- Ey, (gi_count _ _ Hg id) in Hb.
  pose proof (tally_nonneg (owed id) (requests y)). pose proof f64_unit_pos. unfold Second in *. nia.
Qed.

Lemma run_times_in (d : Z) (c : Config) (acts : list gw_action) (t0 T : Z) :
  clocked t0 (t0 + T) acts ->
  times_in (within t0 T) (limiter (gw_run d (gw_init c) acts)).
Proof.
  intros H. rewrite gw_run_limiter. apply ml_run_times; [|by split].
  apply gw_actions_times. eapply clocked_within; [exact H|lia].
Qed.


(** The buckets of a client at the end of a run. *)
Lemma run_buckets (d : Z) (c : Config) (f : string -> Z) (acts : list gw_action)
    (id : string) (K t0 T : Z) :
  let c' := config (NewMemoryLimiter c) in
  config_ok c -> 2 * CleanupInterval c' <= max_int64 -> 0 <= t0 -> t0 + T <= max_int64 ->
  Forall gw_action_ok acts -> Forall (constant_action f) acts -> clocked t0 (t0 + T) acts ->
  Forall (fun y => in_flight id y <= K) (gw_states d (gw_init c) acts) ->
  split_buckets d c' f id K T (gw_run d (gw_init c) acts).
Proof.
  intros c' Hc Hi H0 HT H1 H2 Hck HK. set (y := gw_run d (gw_init c) acts).
  assert (Hpos : 0 < CleanupInterval c').
  { unfold c', NewMemoryLimiter. simpl. destruct (Z.leb_spec (CleanupInterval c) 0); [done|lia]. }
  destruct (bk_run d c' Hc f id K t0 Hpos Hi ∅ t0 (t0 + T) (gw_init c) acts)
    as (D & last & Hl & Hinv); try done; [by apply bk_inv_init|].
  apply (inv_split d c' f id K t0 Hpos Hi D last); [exact Hinv|lia|].
  rewrite Forall_forall in HK. apply HK. unfold y. clear. generalize (gw_init c) as y0.
  induction acts as [|a acts IH]; intros y0; simpl; [by left|]. right. apply IH.
Qed.

Lemma sum_Z_app (ks ks' : list Z) : sum_Z (ks ++ ks') = sum_Z ks + sum_Z ks'.
Proof. induction ks as [|k ks IH]; simpl in *; [done|]. unfold sum_Z in *. simpl. lia. Qed.

#[export] Instance sum_Z_perm : Proper (Permutation ==> eq) sum_Z.
Proof. intros l l' H. induction H; unfold sum_Z in *; simpl in *; lia. Qed.

(** The same, with the limits spelt out. *)
Lemma concurrent_split (default_limit : Z) (c : Config) (f : string -> Z)
    (acts : list gw_action) (id : string) (K t0 T : Z) :
  let I := CleanupInterval (config (NewMemoryLimiter c)) in
  config_ok c -> 2 * I <= max_int64 -> 0 <= t0 -> t0 + T <= max_int64 ->
  Forall gw_action_ok acts -> Forall (constant_action f) acts -> clocked t0 (t0 + T) acts ->
  Forall (fun y => in_flight id y <= K) (gw_states default_limit (gw_init c) acts) ->
  let y := gw_run default_limit (gw_init c) acts in
  exists own dflt, buckets_of (limiter y) id ≡ₚ own ++ dflt /\
    Forall (fun l => exists tb, made (limiter y) !! l = Some (id, tb) /\
      capacity tb = f id /\ refillRate tb = f64_of_Z (f id)) own /\
    Forall (fun l => exists tb, made (limiter y) !! l = Some (id, tb) /\
      capacity tb = BurstSize c /\ refillRate tb = TokensPerSecond c) dflt /\
    Z.of_nat (length own) <= (if f id =? default_limit then 0 else K) /\
    Z.of_nat (length dflt) <= (if f id =? default_limit then 1 else 0) + T / (2 * I + 1).
Proof.
  intros I Hc Hi H0 HT H1 H2 Hck HK y.
  destruct (run_buckets default_limit c f acts id K t0 T) as (own & dflt & Hp & Ho & Hd & Hn & Hm);
    try done.
  exists own, dflt. split; [exact Hp|]. split; [|split; [|by split]].
  - eapply Forall_impl; [exact Ho|]. intros l (tb & E & [= E1 E2]). by exists tb.
  - eapply Forall_impl; [exact Hd|]. intros l (tb & E & [= E1 E2]). exists tb.
    by destruct c as [r b i]; simpl in *; destruct (i <=? 0).
Qed.

(** ** Properties *)

(** C8: the buckets of a client under concurrency.  Take clients that always
    arrive with the same limit, readings of the clock in the order of the
    steps, and a run of length [T] in which the requests of all clients and the
    cleanups interleave in any way.  The buckets ever made for a client are
    of two sorts.  Those with its own limit are at most as many as it has
    requests under way at one time, although each of its requests looks up
    [syncedLimits] and sets the limit without a lock around the two; a client
    whose limit is the default has none.  Those with the default limits are
    at most one for every time more than two cleanup intervals fit into
    the run, and one more for a client without a limit of its own: a client
    whose entry was dropped comes back with the default limits. *)
Theorem concurrent_buckets (default_limit : Z) (c : Config) (f : string -> Z)
    (acts : list gw_action) (id : string) (K t0 T : Z) :
  let I := CleanupInterval (config (NewMemoryLimiter c)) in
  config_ok c -> 2 * I <= max_int64 -> 0 <= t0 -> t0 + T <= max_int64 ->
  Forall gw_action_ok acts -> Forall (constant_action f) acts -> clocked t0 (t0 + T) acts ->
  Forall (fun y => in_flight id y <= K) (gw_states default_limit (gw_init c) acts) ->
  let y := gw_run default_limit (gw_init c) acts in
  exists own dflt, buckets_of (limiter y) id ≡ₚ own ++ dflt /\
    Forall (fun l => exists tb, made (limiter y) !! l = Some (id, tb) /\
      capacity tb = f id /\ refillRate tb = f64_of_Z (f id)) own /\
    Forall (fun l => exists tb, made (limiter y) !! l = Some (id, tb) /\
      capacity tb = BurstSize c /\ refillRate tb = TokensPerSecond c) dflt /\
    Z.of_nat (length own) <= (if f id =? default_limit then 0 else K) /\
    Z.of_nat (length dflt) <= (if f id =? default_limit then 1 else 0) + T / (2 * I + 1).
Proof. intros I Hc Hi H0 HT H1 H2 Hck HK. by apply (concurrent_split _ c f acts id K t0 T). Qed.

(** Two first requests of a client with limit 2, whose lookups come before the
    limit is recorded, and a third one between them; three seconds later a
    cleanup and one more request. *)
Definition race_steps : list gw_action :=
  let s t := GStep t (fun _ => clock 0 7) in
  let late t := GStep t (fun _ => clock 0 (7 + 3 * Second)) in
  [GArrive 0 "gold" 2; GArrive 1 "gold" 2; s 0%nat; s 1%nat;
   s 0%nat; s 0%nat; s 0%nat; s 0%nat; s 0%nat;
   GArrive 0 "gold" 2; s 0%nat; s 0%nat; s 0%nat; s 0%nat;
   s 1%nat; s 1%nat; s 1%nat; s 1%nat; s 1%nat;
   GCleanup (clock 0 (7 + 3 * Second)); GArrive 2 "gold" 2;
   late 2%nat; late 2%nat; late 2%nat; late 2%nat].
Definition race_end : gw_sys := gw_run 1 (gw_init demo_limits) race_steps.

Example race_served : handed_on "gold" race_end = 4.
Proof. vm_compute. reflexivity. Qed.

Example race_buckets : length (buckets_of (limiter race_end) "gold") = 3%nat.
Proof. vm_compute. reflexivity. Qed.

Lemma demo_limits_ok : config_ok demo_limits.
Proof. split; [simpl; lia|reflexivity]. Qed.

Lemma race_steps_ok :
  Forall gw_action_ok race_steps /\ Forall (constant_action (fun _ => 2)) race_steps /\
  clocked 7 (7 + 3 * Second) race_steps /\
  Forall (fun y => in_flight "gold" y <= 2) (gw_states 1 (gw_init demo_limits) race_steps).
Proof.
  unfold race_steps. cbv zeta.
  split; [repeat apply Forall_cons_2; try apply Forall_nil_2; simpl;
          first [by eexists|unfold limit_ok; lia]|].
  split; [repeat apply Forall_cons_2; by try apply Forall_nil_2|].
  split; [simpl; unfold mono_ns, Second; simpl; repeat split; try (by eexists); lia|].
  apply (bool_decide_unpack _). vm_compute. exact I.
Qed.

Lemma concurrent_buckets_witness :
  exists own dflt, buckets_of (limiter race_end) "gold" ≡ₚ own ++ dflt /\
    Z.of_nat (length own) <= 2 /\ Z.of_nat (length dflt) <= 0 + 1.
Proof.
  destruct race_steps_ok as (H1 & H2 & H3 & H4).
  destruct (concurrent_buckets 1 demo_limits (fun _ => 2) race_steps "gold" 2 7 (3 * Second)
    demo_limits_ok) as (own & dflt & Hp & _ & _ & Hn & Hm);
    [vm_compute; discriminate|lia|vm_compute; discriminate|done|done|done|done|].
  exists own, dflt. split; [exact Hp|]. split; [exact Hn|exact Hm].
Defined.

(** C7: the promise of the gateway under concurrency.  Take an in-memory limiter
    with burst [C], rate [q] and cleanup interval [I], clients that always
    arrive with the same limit, and a run of up to [2 ^ 28] steps over a time
    [T], in which the requests of all clients and the cleanups interleave in
    any way.  The requests of a client that are handed on to the upstream are
    at most: [n] times [C + 1 + q * T] for a client without a limit of its own,
    where [n] is one more than the times [2 * I] passes in full, and a little,
    within [T]; else [K] times [lim + 1 + lim * T] with the client's own limit,
    where [K] bounds its requests under way at one time, and [n - 1] times
    [C + 1 + q * T], for the buckets it gets after its entry was dropped. *)
Theorem concurrent_served_bound (default_limit C q interval : Z) (f : string -> Z)
    (acts : list gw_action) (id : string) (K t0 T : Z) :
  let c := mkConfig (f64_of_Z q) C interval in
  let I := CleanupInterval (config (NewMemoryLimiter c)) in
  limit_ok C -> limit_ok q -> limit_ok (f id) ->
  2 * I <= max_int64 -> 0 <= t0 -> t0 + T <= max_int64 ->
  Forall gw_action_ok acts -> Forall (constant_action f) acts -> clocked t0 (t0 + T) acts ->
  Z.of_nat (length acts) <= 2 ^ 28 ->
  Forall (fun y => in_flight id y <= K) (gw_states default_limit (gw_init c) acts) ->
  let default_bound := (C + 1) * Second + q * T in
  let own_bound := (f id + 1) * Second + f id * T in
  handed_on id (gw_run default_limit (gw_init c) acts) * Second <=
  (if f id =? default_limit then (1 + T / (2 * I + 1)) * default_bound
   else K * own_bound + T / (2 * I + 1) * default_bound).
Proof.
  intros c I HC Hq Hf Hi H0 HT H1 H2 Hck Hlen HK bd bo.
  assert (Hlim : limits_ok C (f64_of_Z q)) by (split; [done|by exists q]).
  assert (Hc : config_ok c).
  { split; [simpl; unfold limit_ok in HC; lia|]. simpl.
    destruct (integer_rate q) as (E1 & E2 & Ev & E3); [unfold limit_ok in Hq; lia|].
    rewrite f64_leb_spec, (proj2 (Z.leb_gt _ _)); [done| |done|done].
    change (f64_val (f64_of_Z 0)) with 0. lia. }
  destruct (concurrent_split default_limit c f acts id K t0 T Hc Hi H0 HT H1 H2 Hck HK)
    as (own & dflt & Hp & Ho & Hd & Hn & Hm).
  set (y := gw_run default_limit (gw_init c) acts) in *.
  pose proof (gw_run_inv default_limit (config (NewMemoryLimiter c)) Hc _ acts H1 (gw_inv_init c)) as Hg.
  pose proof (handed_by_buckets default_limit c acts id Hlim Hc H1 Hlen) as Hb.
  pose proof (run_times_in default_limit c acts t0 T Hck) as Ht.
  pose proof (clocked_stop _ _ _ Hck) as HT0.
  fold y in Hg, Hb, Ht. cbv zeta in Hb. fold y in Hb. pose proof f64_unit_pos.
  rewrite Hp, fmap_app, sum_Z_app in Hb.
  assert (Hso : sum_Z (allowance (limiter y) <$> own) <= Z.of_nat (length own) * (bo * f64_unit)).
  { apply sum_Z_bound. intros l Hl. rewrite Forall_forall in Ho.
    destruct (Ho l Hl) as (tb & E & Ec & Er).
    by apply (allowance_within _ _ id _ _ _ _ tb (gi_sys _ _ Hg) Ht E). }
  assert (Hsd : sum_Z (allowance (limiter y) <$> dflt) <= Z.of_nat (length dflt) * (bd * f64_unit)).
  { apply sum_Z_bound. intros l Hl. rewrite Forall_forall in Hd.
    destruct (Hd l Hl) as (tb & E & Ec & Er).
    by apply (allowance_within _ _ id _ _ _ _ tb (gi_sys _ _ Hg) Ht E). }
  assert (Hbd : 0 <= bd) by (unfold bd, limit_ok, Second in *; nia).
  assert (Hbo : 0 <= bo) by (unfold bo, limit_ok, Second in *; nia).
  set (a := Z.of_nat (length own)) in *. set (b := Z.of_nat (length dflt)) in *.
  set (k := T / _) in *.
  assert (Hh : handed_on id y * Second <= a * bo + b * bd).
  { apply (Z.mul_le_mono_pos_r _ _ f64_unit); [done|]. lia. }
  assert (0 <= a) by lia. clearbody a b k bd bo.
  destruct (f id =? default_limit); nia.
Qed.

Lemma concurrent_served_bound_witness :
  handed_on "gold" race_end * Second <=
  2 * ((2 + 1) * Second + 2 * (3 * Second)) + 1 * ((2 + 1) * Second + 1 * (3 * Second)).
Proof.
  destruct race_steps_ok as (H1 & H2 & H3 & H4).
  refine (concurrent_served_bound 1 2 1 Second (fun _ => 2) race_steps "gold" 2 7 (3 * Second)
    _ _ _ _ _ _ H1 H2 H3 _ H4); try (split; lia); vm_compute; discriminate.
Defined.
