(* ===== verification/Server.v ===== *)
(** * [cmd/api-gateway/main.go]: the server's handlers and its multiplexer

    The handlers [run] registers beside the handler chain (health, readiness
    and debugging), and the handler of the server: the multiplexer of
    [Routing] over all of them.  The limiter is any instance of [Limiter];
    the page of the metrics library is a parameter, and so is what [Proxy]
    takes as parameters. *)
From S2P Require Import Prelude GoTime Float64 GoError GoString Routing Postgres CachedStore Http.
From S2P Require Import State Metrics Limiter MemoryLimiter Middleware GatewayState CircuitBreaker.
From S2P Require Import Writers Transport Proxy RateLimiting Gateway.
From Stdlib Require Import Ascii.

(** ** Answers *)

Definition StatusMovedPermanently : Z := 301.

(** [writeJSONResponse]. *)
Definition writeJSONResponse (w : ResponseWriter) (status : Z) (payload : gmap string string)
  : ResponseWriter :=
  let w := set_header w "Content-Type" "application/json" in
  let w := WriteHeader w status in
  Write w (JSONMap payload).

Definition quote : ascii := "034".

(** [http.htmlEscape]. *)
Fixpoint html_escape (s : string) : string :=
  match s with
  | EmptyString => EmptyString
  | String c s =>
      (if Ascii.eqb c "&" then "&amp;"
       else if Ascii.eqb c "<" then "&lt;"
       else if Ascii.eqb c ">" then "&gt;"
       else if Ascii.eqb c quote then "&#34;"
       else if Ascii.eqb c "'" then "&#39;"
       else String c "") +:+ html_escape s
  end.

(** [hexEscapeNonASCII]. *)
Definition lower_hex (n : Z) : ascii := ascii_lower (hex_digit n).
Fixpoint hex_escape (s : string) : string :=
  match s with
  | EmptyString => EmptyString
  | String c s =>
      (if 128 <=? byte_of c
       then String "%" (String (lower_hex (byte_of c / 16)) (String (lower_hex (byte_of c mod 16)) ""))
       else String c "") +:+ hex_escape s
  end.

(** [http.RedirectHandler] for a clean path, with the query of the request. *)
Definition redirect {W} (path : string) : Handler W :=
  fun r w s =>
    let url := escape_path path +:+
      (if bool_decide (rq_RawQuery r = "") then "" else "?" +:+ rq_RawQuery r) in
    let hadCT := bool_decide (is_Some (w_header w !! "Content-Type")) in
    let get := bool_decide (rq_Method r = "GET") in
    let w := set_header w "Location" (hex_escape url) in
    let w := if negb hadCT && (get || bool_decide (rq_Method r = "HEAD"))
             then set_header w "Content-Type" "text/html; charset=utf-8" else w in
    let w := WriteHeader w StatusMovedPermanently in
    (Return tt,
     if negb hadCT && get
     then Write w (Bytes ("<a href=" +:+ String quote (html_escape url) +:+ String quote
                          (">Moved Permanently</a>." +:+ String "010" (String "010" ""))))
     else w, s).

(** ** Health, readiness and debugging *)

(** The assertion of a store to an interface with [HealthCheck]: [Postgres]
    has the method, [CachedStore] does not. *)
Class HealthChecker (S : Type) := health_checker : option (S -> option error).
#[export] Instance postgres_checker {DB} `{!SqlDriver DB} : HealthChecker DB := Some HealthCheck.
#[export] Instance cached_checker {S} : HealthChecker (CachedStore S) := None.

(** [clientStore], which may be nil. *)
#[export] Instance optional_store {S} `{!LimitStore S} : LimitStore (option S) := {
  store_limit st k rd :=
    match st with
    | Some c => let '(res, c) := store_limit c k rd in (res, Some c)
    | None => ((0, None), None)   (* not called: [has_Storage] is false *)
    end;
}.

Section Handlers.
Context {L S W : Type} `{!Limiter L, !Component L W, !Component Clock W}.
Context `{!HealthChecker S, !Component (option S) W}.

Definition healthz (version : string) : Handler W :=
  fun _ w s =>
    (Return tt, writeJSONResponse w StatusOK {["status" := "ok"; "version" := version]}, s).

Definition readyz : Handler W :=
  fun _ w s =>
    let ready := writeJSONResponse w StatusOK {["status" := "ready"]} in
    (Return tt,
     match get s, health_checker with
     | Some store, Some check =>
         match check store with
         | Some _ => writeJSONResponse w StatusServiceUnavailable {["status" := "storage unavailable"]}
         | None => ready
         end
     | _, _ => ready
     end, s).

(** The client the debug page asks for. *)
Definition debug_client (r : HttpRequest) : string :=
  let apiKey := header_Get (rq_Header r) "X-API-Key" in
  if bool_decide (apiKey = "") then rq_RemoteAddr r else apiKey.

Definition debug_rate_limit (burst : Z) : Handler W :=
  fun r w s =>
    let clientID := debug_client r in
    let '(rd, s) := read_clock 3 s in
    match limiter_Tokens (get (A := L) s) clientID rd with
    | (Panic m, l) => (Panic m, w, put l s)
    | (Return (_, Some err), l) =>
        (Return tt, writeJSONResponse w StatusInternalServerError {["error" := Error err]}, put l s)
    | (Return (tokens, None), l) =>
        (Return tt,
         writeJSONResponse w StatusOK
           {["client_id" := clientID; "tokens" := Itoa tokens; "limit" := Itoa burst]}, put l s)
    end.
End Handlers.

(** ** The multiplexer *)

(** What [run] has put together when it starts to listen. *)
Record Server := mkServer {
  sv_Addr : string; sv_ReadTimeout : Z; sv_WriteTimeout : Z; sv_IdleTimeout : Z;
  sv_limits : RateLimitConfig;
  sv_proxy : ProxyConfig;
  sv_burst : Z;            (* [cfg.RateLimitBurst] *)
  sv_metrics : bool;       (* [cfg.MetricsEnabled] *)
  sv_debug : bool;         (* [cfg.DebugRateLimit] *)
}.

(** What one request takes from outside: its escaped path, a request ID, the
    context of its connection, the times of its arrival, its retries and its
    error handler, the breaker calls of other requests during its round
    trip, and the interfaces its connection offers. *)
Record Arrival := mkArrival {
  escaped : string; fresh_id : string;
  parent : Z -> option error; arrived : Z; retry_at : nat -> Z; error_at : Z;
  env : CircuitBreaker -> CircuitBreaker;
  conn_writer : Writer;     (* the server's response writer *)
}.

Definition arrival_ctx (sv : Server) (a : Arrival) : Ctx :=
  request_ctx (sv_proxy sv) (parent a) (arrived a) (retry_at a) (error_at a).

Section Server.
Context {L S N : Type} `{!Limiter L, !LimitStore S, !HealthChecker S}.
Context (version : string).
Context (base : HttpTransport -> OutRequest -> N -> Request -> Reply * N).
Context (response : nat -> Header * string * bool) (lib : ProxyLib).

Local Abbreviation W := (GatewayState.Gateway L (option S) (Upstream N)).
#[local] Existing Instance g_upstream_component.

(** [promhttp.Handler()]. *)
Context (promhttp_Handler : Handler W).

Definition proxyHandler (sv : Server) (a : Arrival) : Handler W :=
  proxy_ServeHTTP (base (proxy_transport (sv_proxy sv))) response lib (Target (sv_proxy sv))
    (arrival_ctx sv a) (chain_writer (conn_writer a)) (env a).

Definition mux_ServeHTTP (sv : Server) (a : Arrival) : Handler W :=
  match find_route (sv_metrics sv) (sv_debug sv) (escaped a) with
  | RedirectTo path => redirect path
  | Main => mainHandler (S := option S) (sv_limits sv) (fresh_id a) (proxyHandler sv a)
  | Healthz => healthz version
  | Readyz => readyz (S := S)
  | MetricsPage => promhttp_Handler
  | DebugRateLimitPage => debug_rate_limit (L := L) (sv_burst sv)
  end.

(** The copy of some response of the upstream fails. *)
Definition copy_fails : Prop := exists id, snd (response id) = false.

Lemma proxy_polite (sv : Server) (a : Arrival) :
  polite (S := option S) copy_fails (proxyHandler sv a).
Proof.
  intros r w s. unfold proxyHandler, proxy_ServeHTTP. cbv zeta.
  assert (Herr : forall path ce e, w_sent w = None -> single_status w (ErrorHandler w path ce e)).
  { intros path ce e Hw. destruct (ErrorHandler_status w path ce e) as (pd & _ & _ & ->).
    by apply problem_single_status. }
  destruct (negb _); [split; [done|]; intros Hw; by apply Herr|]. split; [done|]. intros Hw.
  cbn [fst snd]. destruct (rt_out _) as [[resp [e|]]|m]; [by destruct resp; apply Herr| |by left].
  destruct resp as [resp|]; [|by left]. unfold proxy_answer. destruct (StatusCode resp =? _).
  - destruct (upgrade_error_some response lib (outgoing lib (Target (sv_proxy sv)) r) (resp_id resp)
      (chain_writer (conn_writer a)) I) as (e & -> & _). by apply Herr.
  - destruct (response (resp_id resp)) as [[h body] []] eqn:Er; cbn [fst snd]; right.
    + do 2 eexists. by destruct w as [hd [o|] b c].
    + split; [exists (resp_id resp); by rewrite Er|]. do 2 eexists. by destruct w as [hd [o|] b c].
Qed.

(** A sequence of requests, each with a writer of its own. *)
Fixpoint serve_all (sv : Server) (reqs : list (Arrival * HttpRequest)) (s : W) : W :=
  match reqs with
  | [] => s
  | (a, r) :: reqs => serve_all sv reqs (snd (mux_ServeHTTP sv a r new_writer s))
  end.
End Server.

(** ** Lemmas *)

Lemma json_response (w : ResponseWriter) (status : Z) (m : gmap string string) :
  w_sent w = None ->
  final_status (writeJSONResponse w status m) = status /\
  w_body (writeJSONResponse w status m) = w_body w ++ [JSONMap m].
Proof. by destruct w as [hd [o|] b c]. Qed.

Lemma redirect_response {W} (path : string) (r : HttpRequest) (s : W) :
  exists w', redirect path r new_writer s = (Return tt, w', s) /\ final_status w' = 301 /\
    header_Get (final_header w') "Location" =
      hex_escape (escape_path path +:+
        (if bool_decide (rq_RawQuery r = "") then "" else "?" +:+ rq_RawQuery r)).
Proof.
  unfold redirect. cbv zeta. set (url := hex_escape _). eexists. split; [reflexivity|].
  destruct (bool_decide (rq_Method r = "GET")); [by split|].
  destruct (bool_decide (rq_Method r = "HEAD")); by split.
Qed.

(** The host of an address with a port is shorter than the address. *)
Lemma split_host_shorter (addr host port : string) :
  SplitHostPort addr = inl (host, port) -> host <> addr.
Proof.
  unfold SplitHostPort. destruct (last_index_byte ":" addr) as [i|] eqn:Ei; [|done].
  pose proof (last_index_lt _ _ _ Ei) as Hi.
  assert (Hslice : forall a b, (0 < a)%nat -> slice a b addr = addr -> addr = "").
  { intros a b Ha E. unfold slice in E. destruct addr as [|c addr]; [done|].
    apply (f_equal String.length) in E.
    pose proof (str_take_le (b - a)%nat (str_drop a (String c addr))) as H. rewrite str_drop_length in H.
    simpl in *. lia. }
  destruct (match addr with String c _ => _ | _ => false end) eqn:Eb.
  - destruct (index_byte "]" addr) as [e|]; [|done].
    destruct (S e =? String.length addr)%nat; [done|].
    destruct (S e =? i)%nat; [|by destruct (contains_byte _ _)].
    destruct (contains_byte _ _); [done|]. destruct (contains_byte _ _); [done|].
    intros [= <- _] E. apply Hslice in E; [|lia]. by subst addr.
  - destruct (contains_byte _ _); [done|]. destruct (contains_byte _ _); [done|].
    destruct (contains_byte _ _); [done|]. intros [= <- _] E.
    apply (f_equal String.length) in E. rewrite str_take_length in E by lia. lia.
Qed.

(** *** Calls for one client leave the entries of the others alone *)

Definition no_bucket (c : Config) (addr : string) (m : MemoryLimiter) : Prop :=
  buckets m !! addr = None /\ MemoryLimiter.config m = c.

Lemma put_new_no_bucket c addr m id n q rd :
  id <> addr -> no_bucket c addr m -> no_bucket c addr (snd (put_new m id n q rd)).
Proof.
  intros Hid [H1 H2]. unfold put_new. destruct (TokenBucket.NewTokenBucket _ _ _); [|done].
  split; [|done]. simpl. by rewrite lookup_insert_ne.
Qed.

Lemma Allow_no_bucket c addr id : id <> addr ->
  forall m rd, no_bucket c addr m -> no_bucket c addr (snd (limiter_Allow m id rd)).
Proof.
  intros Hid m rd H. cbn [limiter_Allow memory_limiter]. unfold ml_Allow, ml_AllowN.
  assert (Hg : no_bucket c addr (snd (getOrCreateBucket m id rd))).
  { unfold getOrCreateBucket. destruct (buckets m !! id); [|by apply put_new_no_bucket].
    destruct H as [H1 H2]. split; [|done]. simpl. by rewrite lookup_insert_ne. }
  destruct (getOrCreateBucket m id rd) as [[l|msg] m1]; [|done]. cbn [snd] in Hg.
  unfold heap_AllowN. destruct (heap m1 !! l) as [tb|]; [|done].
  destruct (TokenBucket.AllowN tb 1 (rd 2%nat)). exact Hg.
Qed.

Lemma Tokens_no_bucket c addr id :
  forall m rd, no_bucket c addr m -> no_bucket c addr (snd (limiter_Tokens m id rd)).
Proof.
  intros m rd H. cbn [limiter_Tokens memory_limiter]. unfold ml_Tokens.
  destruct (buckets m !! id) as [e|]; [|done]. destruct (heap m !! bucket e) as [tb|]; [|done].
  destruct (TokenBucket.Tokens tb (rd 0%nat)). exact H.
Qed.

Lemma SetLimit_no_bucket c addr id : id <> addr ->
  forall m n q rd, no_bucket c addr m -> no_bucket c addr (snd (limiter_SetLimit m id n q rd)).
Proof.
  intros Hid m n q rd H. cbn [limiter_SetLimit memory_limiter]. unfold ml_SetLimit.
  pose proof (put_new_no_bucket c addr m id n q rd Hid H) as Hp.
  by destruct (put_new m id n q rd) as [[l|msg] m1].
Qed.

(** Requests of other clients leave a client without a bucket without one. *)
Section NoBucket.
Context {S N : Type} `{!LimitStore S, !HealthChecker S}.
Context (version : string) (base : HttpTransport -> OutRequest -> N -> Request -> Reply * N).
Context (response : nat -> Header * string * bool).
Context (lib : ProxyLib).
Local Abbreviation W := (GatewayState.Gateway MemoryLimiter (option S) (Upstream N)).
Context (promhttp : Handler W).
Hypothesis promhttp_limiter : forall r w s, g_limiter (snd (promhttp r w s)) = g_limiter s.
Local Abbreviation serve := (mux_ServeHTTP version base response lib promhttp).

Lemma serve_no_bucket (c : Config) (addr : string) sv a r w (s : W) :
  resolveClientID r <> addr -> no_bucket c addr (g_limiter s) ->
  no_bucket c addr (g_limiter (snd (serve sv a r w s))).
Proof.
  intros Hid H. unfold mux_ServeHTTP. destruct (find_route _ _ _); [done|..|done|done| |].
  - pose proof (chain_keeps (W := W) (S := option S) (no_bucket c addr) (resolveClientID r)
      (Allow_no_bucket c addr _ Hid) (Tokens_no_bucket c addr _) (SetLimit_no_bucket c addr _ Hid)
      (sv_limits sv) (fresh_id a) (proxyHandler base response lib sv a) r eq_refl) as Hk.
    refine (Hk _ w s H). intros w' s'. unfold proxyHandler, proxy_ServeHTTP. by destruct (negb _).
  - by rewrite promhttp_limiter.
  - unfold debug_rate_limit, read_clock. cbv beta zeta. rewrite get_put_other.
    set (rd := fun i => _). pose proof (Tokens_no_bucket c addr (debug_client r) _ rd H) as Ht.
    change (get (A := MemoryLimiter) s) with (g_limiter s).
    by destruct (limiter_Tokens (g_limiter s) _ rd) as [[[k [e|]]|m] l].
Qed.

Lemma serve_all_no_bucket (c : Config) (addr : string) sv reqs (s : W) :
  Forall (fun ar => resolveClientID ar.2 <> addr) reqs -> no_bucket c addr (g_limiter s) ->
  no_bucket c addr
    (g_limiter (serve_all version base response lib promhttp sv reqs s)).
Proof.
  intros Hr. revert s. induction Hr as [|[a r] reqs Hid _ IH]; [done|]. intros s H.
  by apply IH, serve_no_bucket.
Qed.
End NoBucket.

(** ** Properties *)

(** C11: the routes, for every request but a [CONNECT] and one for the target
    ["*"].  Every request but one of the metrics page is answered by this
    program.  A request of the main route goes through the handler chain,
    whatever the limiter, the store and the upstream do, panics included: it
    is answered, the gauge of active requests is left as it was, exactly one
    request is counted, under the sanitized path, and a rejection only with
    the status 429.  The request is counted under the status the client gets;
    only when the copy of a response of the upstream can fail may it be
    counted as a 500 that comes too late.  A redirect, a health
    check and a readiness check return and change nothing at all, so they are
    neither counted nor rate limited, and readiness is 503 only when the
    store of limits offers a health check and that fails; the debug page
    leaves everything but the limiter and the clock alone, and panics only if
    the limiter does. *)
Theorem serve_routes {L S N} `{!Limiter L, !LimitStore S, !HealthChecker S} (version : string)
    base response lib promhttp (sv : Server) (a : Arrival) (r : HttpRequest)
    (s : GatewayState.Gateway L (option S) (Upstream N)) :
  rq_Method r <> "CONNECT" -> escaped a <> "*" ->
  let res := mux_ServeHTTP version base response lib promhttp sv a r new_writer s in
  match find_route (sv_metrics sv) (sv_debug sv) (escaped a) with
  | Main => exists w' s' c, res = (Return tt, w', s') /\ accounted (S := option S) c r s w' s' /\
      (c = final_status w' \/ c = 500 /\ exists id, snd (response id) = false)
  | RedirectTo path => exists w', res = (Return tt, w', s) /\ final_status w' = 301 /\
      header_Get (final_header w') "Location" =
        hex_escape (escape_path path +:+
          (if bool_decide (rq_RawQuery r = "") then "" else "?" +:+ rq_RawQuery r))
  | Healthz => exists w', res = (Return tt, w', s) /\ final_status w' = 200 /\
      w_body w' = [JSONMap {["status" := "ok"; "version" := version]}]
  | Readyz => exists w', res = (Return tt, w', s) /\
      final_status w' = match g_store s, health_checker with
                        | Some st, Some check => match check st with Some _ => 503 | None => 200 end
                        | _, _ => 200
                        end
  | DebugRateLimitPage => exists o w' l c,
      res = (o, w', mkGateway l (g_store s) (g_synced s) (g_metrics s) (g_log s) c (g_upstream s)) /\
      forall m, o = Panic m -> exists id rd, fst (limiter_Tokens (g_limiter s) id rd) = Panic m
  | MetricsPage => res = promhttp r new_writer s
  end.
Proof.
  intros _ _ res. unfold res, mux_ServeHTTP. destruct (find_route _ _ _).
  - apply redirect_response.
  - destruct (chain_accounted (S := option S) (copy_fails response) (sv_limits sv) (fresh_id a)
      (proxyHandler base response lib sv a) r s (proxy_polite _ _ _ _ _)) as (w' & s' & c & H1 & H2 & H3).
    exists w', s', c. split; [exact H1|]. split; [exact H2|]. destruct H3 as [|[]]; auto.
  - eexists. split; [reflexivity|]. by apply json_response.
  - unfold readyz. eexists. split; [reflexivity|]. change (get s) with (g_store s).
    destruct (g_store s) as [st|]; [|done]. destruct health_checker as [check|]; [|done].
    by destruct (check st).
  - done.
  - unfold debug_rate_limit, read_clock. cbv beta zeta. rewrite get_put_other.
    destruct (limiter_Tokens _ _ _) as [[[k [e|]]|m] l] eqn:E; do 4 eexists;
      (split; [reflexivity|]); [done|done|].
    intros m' [= <-]. do 2 eexists. exact (f_equal fst E).
Qed.

(** The debug page and clients without a key.  The page asks for the
    tokens of the remote address with its port, the middleware charges the
    host: whatever requests have been served since the start, the page
    answers a client without an API key that its bucket is full, unless some
    request bore the very address as its key. *)
Theorem debug_page_blind {S N} `{!LimitStore S, !HealthChecker S} (version : string)
    base response lib promhttp (sv : Server) (reqs : list (Arrival * HttpRequest))
    (a : Arrival) (r : HttpRequest) (host port : string) (c : Config)
    (s : GatewayState.Gateway MemoryLimiter (option S) (Upstream N)) :
  (forall r w s, g_limiter (snd (promhttp r w s)) = g_limiter s) ->
  g_limiter s = NewMemoryLimiter c ->
  header_Get (rq_Header r) "X-API-Key" = "" ->
  SplitHostPort (rq_RemoteAddr r) = inl (host, port) ->
  Forall (fun ar => resolveClientID ar.2 <> rq_RemoteAddr r) reqs ->
  find_route (sv_metrics sv) (sv_debug sv) (escaped a) = DebugRateLimitPage ->
  let serve := mux_ServeHTTP version base response lib promhttp in
  let s' := serve_all version base response lib promhttp sv reqs s in
  resolveClientID r = host /\ host <> rq_RemoteAddr r /\
  fst (serve sv a r new_writer s') =
    (Return tt, writeJSONResponse new_writer 200
       {["client_id" := rq_RemoteAddr r; "tokens" := Itoa (BurstSize c);
         "limit" := Itoa (sv_burst sv)]}).
Proof.
  intros Hp Hs Hkey Hsplit Hreqs Hroute serve s'.
  split; [unfold resolveClientID; change APIKeyHeader with "X-API-Key"; by rewrite Hkey, Hsplit|].
  split; [by apply (split_host_shorter _ _ port)|].
  destruct (serve_all_no_bucket version base response lib promhttp Hp
    (MemoryLimiter.config (NewMemoryLimiter c)) (rq_RemoteAddr r) sv reqs s Hreqs) as [Hn Hc];
    [by rewrite Hs|].
  fold s' in Hn, Hc. unfold serve, mux_ServeHTTP. rewrite Hroute.
  unfold debug_rate_limit, read_clock, debug_client. cbv beta zeta. rewrite Hkey.
  rewrite get_put_other. change (get (A := MemoryLimiter) s') with (g_limiter s'). cbn [limiter_Tokens memory_limiter].
  unfold ml_Tokens. rewrite bool_decide_true by done. rewrite Hn. cbn [fst]. by rewrite Hc.
Qed.

(** A server over the demonstration gateway, for the witnesses. *)
Definition demo_routed (route : string) : Arrival :=
  mkArrival route "id" (fun _ => None) 0 (fun _ => 0) 0 id (ServerWriter true true).
Definition demo_sv : Server :=
  mkServer ":8080" (15 * Second) (15 * Second) (120 * Second) demo_cfg (mkProxyConfig demo_target 0 None) 2 true true.
Definition demo_server_state
  : GatewayState.Gateway MemoryLimiter (option demo_store) (Upstream (list Reply)) :=
  mkGateway (NewMemoryLimiter demo_limits) (Some demo_cache) (mkSynced ∅) Metrics_New []
    demo_clock (NewUpstream [all_good; all_good; all_good]).
Definition no_page {W} : Handler W := fun _ w s => (Return tt, w, s).

Lemma serve_routes_witness :
  exists w' s', mux_ServeHTTP "dev" (fun _ _ => demo_base) demo_response demo_lib no_page demo_sv
    (demo_routed "/api/items/42") gold_request new_writer demo_server_state = (Return tt, w', s').
Proof.
  pose proof (serve_routes "dev" (fun _ _ => demo_base) demo_response demo_lib no_page demo_sv
    (demo_routed "/api/items/42") gold_request demo_server_state ltac:(done) ltac:(done)) as H.
  assert (E : find_route (sv_metrics demo_sv) (sv_debug demo_sv)
    (escaped (demo_routed "/api/items/42")) = Main) by (vm_compute; reflexivity).
  cbv zeta in H. rewrite E in H. destruct H as (w' & s' & c & H & _). by exists w', s'.
Defined.

(** Two requests empty the bucket of the host; the page still shows two tokens. *)
Lemma debug_page_blind_witness :
  let keyless := demo_request ∅ in
  let s' := serve_all "dev" (fun _ _ => demo_base) demo_response demo_lib no_page demo_sv
    [(demo_routed "/a", keyless); (demo_routed "/b", keyless)] demo_server_state in
  w_body (snd (fst (mux_ServeHTTP "dev" (fun _ _ => demo_base) demo_response demo_lib no_page demo_sv
    (demo_routed "/debug/rate_limit") keyless new_writer s'))) =
  [JSONMap {["client_id" := "10.0.0.1:5555"; "tokens" := "2"; "limit" := "2"]}].
Proof.
  intros keyless s'.
  destruct (debug_page_blind "dev" (fun _ _ => demo_base) demo_response demo_lib no_page demo_sv
    [(demo_routed "/a", keyless); (demo_routed "/b", keyless)] (demo_routed "/debug/rate_limit")
    keyless "10.0.0.1" "5555" demo_limits demo_server_state) as (_ & _ & H).
  - done.
  - reflexivity.
  - reflexivity.
  - reflexivity.
  - repeat constructor; vm_compute; discriminate.
  - vm_compute. reflexivity.
  - exact (f_equal (fun p => w_body (snd p)) H).
Defined.
