(* ===== verification/Startup.v ===== *)
(** * [cmd/api-gateway/main.go]: starting and stopping

    [start] is [run] up to the point where the server listens: the
    configuration, the storage, the limiter and the handlers.  Then [run]
    waits for a signal or for the listener to fail, and releases what it
    holds.  Parsing the upstream's URL, PostgreSQL, Redis and the tables of
    Unicode are parameters. *)
From S2P Require Import Prelude GoTime Float64 Float64Facts GoError GoString Utf8 EnvParse Postgres.
From S2P Require Import CachedStore Http State Metrics TokenBucket Limiter MemoryLimiter RedisLimiter.
From S2P Require Import Middleware GatewayState RateLimiting CircuitBreaker Transport Proxy AppConfig.
From S2P Require Import Server.
From Stdlib Require Import Ascii.

(** ** The level of the log *)

Inductive slog_Level := LevelDebug | LevelInfo | LevelWarn | LevelError.

Section Startup.
(** [unicode.ToLower], and the least rune that equals a given one under
    simple folding, for runes that are not ASCII. *)
Context (unicode_lower unicode_fold : Z -> Z).

Definition parseLogLevel (lvl : string) : slog_Level :=
  let lvl := ToLower unicode_lower lvl in
  if bool_decide (lvl = "debug") then LevelDebug
  else if bool_decide (lvl = "warn") then LevelWarn
  else if bool_decide (lvl = "error") then LevelError
  else LevelInfo.

(** [strings.EqualFold]. *)
Definition fold_rune (r : Z) : Z :=
  if r <? 128 then (if (97 <=? r) && (r <=? 122) then r - 32 else r) else unicode_fold r.

Definition EqualFold (s t : string) : bool :=
  bool_decide (fold_rune <$> runes s = fold_rune <$> runes t).

(** ** Storage *)

Section Storage.
Context {DB : Type} `{!SqlDriver DB}.

Definition pg_config (cfg : AppConfig) : PostgresConfig := {|
  Postgres.Host := DBHost cfg; Postgres.Port := DBPort cfg; User := DBUser cfg;
  Password := DBPassword cfg; Database := DBName cfg; SSLMode := DBSSLMode cfg;
  MaxOpenConns := DBMaxOpenConns cfg; MaxIdleConns := DBMaxIdleConns cfg;
  ConnMaxLifetime := DBConnMaxLifetime cfg; ConnMaxIdleTime := DBConnMaxIdleTime cfg;
|}.

(** [clientStore], with the lines that are logged. *)
Definition openStorage (cfg : AppConfig) : option (CachedStore DB) * Log :=
  if bool_decide (DatabaseURL cfg <> "" \/ DBHost cfg <> "") then
    match NewPostgres (pg_config cfg) with
    | inr dbErr =>
        (None, [mkLog "WARN" "failed to connect to postgres, using default limits"
                  [AStr "error" (Error dbErr)]])
    | inl pgStore =>
        (Some (NewCachedStore pgStore (1 * Minute)),
         [mkLog "INFO" "postgres storage connected with L1 in-memory cache enabled" []])
    end
  else (None, []).

(** The deferred closing of the storage: the cache, then the database. *)
Definition close_storage (st : option (CachedStore DB)) : option (CachedStore DB) :=
  match st with
  | Some c => let c := snd (cached_Close c) in Some (set_store c (snd (db_Close (store c))))
  | None => None
  end.
End Storage.

(** ** The limiter *)

(** The implementations of the interface the gateway chooses from. *)
Inductive RateLimiter (R : Type) :=
  | OverRedis (l : RedisLimiter R)
  | InMemory (m : MemoryLimiter).
Arguments OverRedis {R} l.
Arguments InMemory {R} m.

Section Limiter.
Context {R B : Type} `{!Redis R B}.

Definition redis_config (cfg : AppConfig) : RedisConfig := {|
  rc_Host := RedisHost cfg; rc_Port := RedisPort cfg; rc_Password := RedisPassword cfg;
  rc_DB := RedisDB cfg; rc_PoolSize := RedisPoolSize cfg; rc_MinIdleConns := RedisMinIdle cfg;
  rc_DialTimeout := RedisDialTimeout cfg; rc_ReadTimeout := RedisReadTimeout cfg;
  rc_WriteTimeout := RedisWriteTimeout cfg; rc_KeyPrefix := RedisKeyPrefix cfg;
|}.

(** [createRateLimiter], with the lines that are logged; the error it returns
    is always nil. *)
Definition createRateLimiter (cfg : AppConfig) : (RateLimiter R + error) * Log :=
  let in_memory :=
    InMemory (NewMemoryLimiter (mkConfig (f64_of_Z (RateLimitRPS cfg)) (RateLimitBurst cfg)
                                  (RateLimitCleanupInterval cfg))) in
  let using_memory := mkLog "INFO" "using in-memory rate limiter" [] in
  if EqualFold (RateLimitBackend cfg) "redis" then
    let attempt := mkLog "INFO" "using Redis rate limiter"
                     [AStr "host" (RedisHost cfg); AInt "port" (RedisPort cfg)] in
    match NewRedisLimiter (redis_config cfg)
            (mkConfig (f64_of_Z (RateLimitRPS cfg)) (RateLimitBurst cfg) 0) with
    | inr err =>
        (inl in_memory,
         [attempt; mkLog "WARN" "failed to create Redis rate limiter, falling back to in-memory"
                     [AStr "error" (Error err)]; using_memory])
    | inl redisLimiter => (inl (OverRedis redisLimiter), [attempt])
    end
  else (inl in_memory, [using_memory]).
End Limiter.

(** ** From the environment to a server *)

Section Run.
Context {R B DB N : Type} `{!Redis R B, !SqlDriver DB}.
Context (version : string) (url_Parse : string -> URL + error).

(** A gateway that listens, by the limiter it has. *)
Inductive Program :=
  | RunsRedis (lvl : slog_Level) (sv : Server)
      (s : Gateway (RedisLimiter R) (option (CachedStore DB)) (Upstream N))
  | RunsMemory (lvl : slog_Level) (sv : Server)
      (s : Gateway MemoryLimiter (option (CachedStore DB)) (Upstream N)).

Definition starting (cfg : AppConfig) : log_line :=
  mkLog "INFO" "starting gateway"
    [AStr "version" version; AInt "port" (AppConfig.Port cfg); AStr "upstream" (UpstreamURL cfg);
     AInt "rate_limit_rps" (RateLimitRPS cfg); AInt "rate_limit_burst" (RateLimitBurst cfg);
     AStr "rate_limit_backend" (RateLimitBackend cfg);
     ABool "metrics_enabled" (MetricsEnabled cfg)].

Definition make_server (cfg : AppConfig) (target : URL) (has_store : bool) : Server := {|
  sv_Addr := ":" +:+ Itoa (AppConfig.Port cfg);
  sv_ReadTimeout := ReadTimeout cfg; sv_WriteTimeout := WriteTimeout cfg;
  sv_IdleTimeout := 120 * Second;
  sv_limits := mkRateLimitConfig (RateLimitRPS cfg) has_store true;
  sv_proxy := mkProxyConfig target (30 * Second) None; sv_burst := RateLimitBurst cfg;
  sv_metrics := MetricsEnabled cfg; sv_debug := DebugRateLimit cfg;
|}.

(** [run] up to the start of the listener; [n] is the upstream and [clk] the
    clock. *)
Definition start (env : Env) (n : N) (clk : Clock) : Program + error :=
  match Load unicode_lower env with
  | inr err => inr (wrap_error "load config" err)
  | inl cfg =>
      let lvl := parseLogLevel (LogLevel cfg) in
      match url_Parse (UpstreamURL cfg) with
      | inr err => inr (wrap_error "parse upstream url" err)
      | inl targetURL =>
          let '(clientStore, log1) := openStorage cfg in
          match createRateLimiter cfg with
          | (inr err, _) => inr (wrap_error "initialize rate limiter" err)
          | (inl rateLimiter, log2) =>
              let sv := make_server cfg targetURL (bool_decide (is_Some clientStore)) in
              let log := starting cfg :: log1 ++ log2 in
              match rateLimiter with
              | OverRedis l => inl (RunsRedis lvl sv
                  (mkGateway l clientStore (mkSynced ∅) Metrics_New log clk (NewUpstream n)))
              | InMemory m => inl (RunsMemory lvl sv
                  (mkGateway m clientStore (mkSynced ∅) Metrics_New log clk (NewUpstream n)))
              end
          end
      end
  end.

(** ** Until the end *)

Inductive event :=
  | SignalReceived                        (* interrupt or termination *)
  | ListenReturned (err : option error).  (* [ListenAndServe] *)

(** What the listener's goroutine sends. *)
Definition startup_error (err : option error) : option error :=
  match err with
  | Some e => if negb (errors_Is e ErrServerClosed) then Some (wrap_error "listen" e) else None
  | None => None
  end.

(** The [select]: nothing yet, a signal, or the error of the listener. *)
Fixpoint await (evs : list event) : option (option error) :=
  match evs with
  | [] => None
  | SignalReceived :: _ => Some None
  | ListenReturned err :: evs =>
      match startup_error err with Some e => Some (Some e) | None => await evs end
  end.

(** The deferred calls, the last one first: the limiter, then the storage. *)
Definition release {L} `{!Limiter L} (s : Gateway L (option (CachedStore DB)) (Upstream N))
  : Gateway L (option (CachedStore DB)) (Upstream N) :=
  mkGateway (snd (limiter_Close (g_limiter s))) (close_storage (g_store s)) (g_synced s)
    (g_metrics s) (g_log s) (g_clock s) (g_upstream s).

Definition release_program (p : Program) : Program :=
  match p with
  | RunsRedis lvl sv s => RunsRedis lvl sv (release s)
  | RunsMemory lvl sv s => RunsMemory lvl sv (release s)
  end.

(** What [run] returns, and what it leaves of a program that has become [p]
    when it returns; [shutdown] is what [server.Shutdown] returns. *)
Definition run_end (p : Program) (evs : list event) (shutdown : option error)
  : option (option error * Program) :=
  match await evs with
  | None => None
  | Some (Some startupErr) => Some (Some startupErr, release_program p)
  | Some None =>
      Some (match shutdown with
            | Some err => Some (wrap_error "graceful shutdown" err)
            | None => None
            end, release_program p)
  end.

(** The exit code of [main] when it calls [run]. *)
Definition exit_code (err : option error) : Z := match err with Some _ => 1 | None => 0 end.
End Run.
End Startup.

Arguments OverRedis {R} l.
Arguments InMemory {R} m.
Arguments RunsRedis {R DB N} lvl sv s.
Arguments RunsMemory {R DB N} lvl sv s.

(** ** The health probe *)

Section Healthcheck.
Context (env : Env).

Definition healthcheck_port : Z :=
  match env "PORT" with
  | Some portStr =>
      if bool_decide (portStr <> "") then
        match Atoi portStr with
        | Some p => if (0 <? p) && (p <=? 65535) then p else 8080
        | None => 8080
        end
      else 8080
  | None => 8080
  end.

(** [runHealthcheck]; [client_Do] gets a URL and returns the status. *)
Definition runHealthcheck (client_Do : string -> Z + error) : Z :=
  match client_Do ("http://127.0.0.1:" +:+ Itoa healthcheck_port +:+ "/healthz") with
  | inr _ => 1
  | inl status => if status =? StatusOK then 0 else 1
  end.

(** [main]: the code the process exits with; [run] is what [run] returns. *)
Definition main (healthcheckFlag : bool) (client_Do : string -> Z + error)
    (run : option error) : Z :=
  if healthcheckFlag then runHealthcheck client_Do else exit_code run.
End Healthcheck.

(** ** Lemmas *)

(** A valid port is the one the probe asks. *)
Lemma probe_port (env : Env) :
  port_ok (getEnvInt env "PORT" 8080) -> healthcheck_port env = getEnvInt env "PORT" 8080.
Proof.
  unfold healthcheck_port, getEnvInt, env_value, port_ok.
  destruct (env "PORT") as [v|]; [|done]. case_bool_decide; [|done].
  destruct (Atoi v) as [p|]; [|done]. intros Hp.
  rewrite (proj2 (Z.ltb_lt _ _)), (proj2 (Z.leb_le _ _)) by lia. done.
Qed.

Lemma loaded_limits_ok ul (env : Env) (cfg : AppConfig) (interval : Z) :
  Load ul env = inl cfg ->
  config_ok (mkConfig (f64_of_Z (RateLimitRPS cfg)) (RateLimitBurst cfg) interval) /\
  1 <= RateLimitRPS cfg <= max_int64.
Proof.
  intros H. destruct (Load_from ul env cfg H) as (Hv & _ & Er & _).
  rewrite validate_spec in Hv. pose proof (vc_limits _ _ Hv) as Hl.
  assert (RateLimitRPS cfg <= max_int64).
  { rewrite Er. apply getEnvInt_range. unfold min_int64, max_int64. lia. }
  split; [|lia]. split; [simpl; lia|]. simpl.
  destruct (cap_float (RateLimitRPS cfg)) as (Hok & Hf & Hge); [lia|].
  rewrite f64_leb_spec, (proj2 (Z.leb_gt _ _)); [done| |done|done].
  pose proof f64_unit_pos. change (f64_val (f64_of_Z 0)) with 0. lia.
Qed.

(** The rate limiter is never an error, and is Redis only when that was asked
    for and answered. *)
Lemma createRateLimiter_cases {R B} `{!Redis R B} uf (cfg : AppConfig) :
  let c interval := mkConfig (f64_of_Z (RateLimitRPS cfg)) (RateLimitBurst cfg) interval in
  match fst (createRateLimiter (R := R) uf cfg) with
  | inr _ => False
  | inl (OverRedis l) => EqualFold uf (RateLimitBackend cfg) "redis" = true /\
      NewRedisLimiter (redis_config cfg) (c 0) = inl l
  | inl (InMemory m) => m = NewMemoryLimiter (c (RateLimitCleanupInterval cfg)) /\
      (EqualFold uf (RateLimitBackend cfg) "redis" = false \/
       exists e, NewRedisLimiter (R := R) (redis_config cfg) (c 0) = inr e)
  end.
Proof.
  intros c. unfold createRateLimiter. destruct (EqualFold uf _ _); [|by split; [|left]].
  destruct (NewRedisLimiter _ _) as [l|e]; [by split|]. split; [done|right; by eexists].
Qed.

(** ** Properties *)

(** C13: startup.  The gateway fails to start only when the configuration or
    the URL of the upstream is refused: a database or a Redis server that does
    not answer is no reason.  A gateway that starts listens on the configured
    port, the one the health probe asks, and is ready for requests: over the
    in-memory limiter it has no buckets, no synced limits and limits from
    which buckets can be made; over Redis, that was asked for and answered. *)
Theorem start_gateway {R B DB N} `{!Redis R B, !SqlDriver DB} (ul uf : Z -> Z) (version : string)
    (url_Parse : string -> URL + error) (env : Env) (n : N) (clk : Clock) :
  match start (R := R) (DB := DB) ul uf version url_Parse env n clk with
  | inr _ =>
      (exists e, Load ul env = inr e) \/
      (exists cfg e, Load ul env = inl cfg /\ url_Parse (UpstreamURL cfg) = inr e)
  | inl p =>
      exists cfg target, Load ul env = inl cfg /\ url_Parse (UpstreamURL cfg) = inl target /\
        healthcheck_port env = AppConfig.Port cfg /\
        let listens sv has_store :=
          sv_Addr sv = ":" +:+ Itoa (healthcheck_port env) /\ Target (sv_proxy sv) = target /\
          sv_limits sv = mkRateLimitConfig (RateLimitRPS cfg) has_store true /\
          1 <= DefaultLimit (sv_limits sv) <= max_int64 in
        match p with
        | RunsMemory _ sv s =>
            listens sv (bool_decide (is_Some (g_store s))) /\
            represents (g_limiter s) ∅ /\ sync_ok ∅ (g_synced s) /\
            config_ok (MemoryLimiter.config (g_limiter s)) /\
            BurstSize (MemoryLimiter.config (g_limiter s)) = RateLimitBurst cfg
        | RunsRedis _ sv s =>
            listens sv (bool_decide (is_Some (g_store s))) /\
            EqualFold uf (RateLimitBackend cfg) "redis" = true /\
            NewRedisLimiter (redis_config cfg)
              (mkConfig (f64_of_Z (RateLimitRPS cfg)) (RateLimitBurst cfg) 0) = inl (g_limiter s)
        end
  end.
Proof.
  unfold start. destruct (Load ul env) as [cfg|e] eqn:El; [|left; by eexists].
  destruct (url_Parse (UpstreamURL cfg)) as [target|e] eqn:Eu; [|right; by do 2 eexists].
  destruct (openStorage cfg) as [st log1]. pose proof (createRateLimiter_cases (R := R) uf cfg) as Hc.
  cbv zeta in Hc. destruct (loaded_limits_ok ul env cfg (RateLimitCleanupInterval cfg) El) as [Hok Hr].
  destruct (Load_from ul env cfg El) as (Hv & Hp & _). rewrite validate_spec in Hv.
  assert (Hport : healthcheck_port env = AppConfig.Port cfg)
    by (rewrite Hp; apply probe_port; rewrite <- Hp; exact (vc_port _ _ Hv)).
  destruct (createRateLimiter uf cfg) as [[[l|m]|e] log2]; cbn [fst] in Hc; [..|done];
    exists cfg, target; rewrite Hport; do 3 (split; [done|]).
  - by split.
  - destruct Hc as [-> _]. split; [done|]. split; [apply represents_new|].
    split; [intros id lim; simpl; by rewrite lookup_empty|]. split; [|done].
    simpl. destruct (_ <=? 0); exact Hok.
Qed.

(** *** The choice of the backend *)

Lemma byte_of_inj (c d : ascii) : byte_of c = byte_of d -> c = d.
Proof.
  unfold byte_of. intros E. apply N2Z.inj in E. apply (f_equal ascii_of_N) in E.
  by rewrite !ascii_N_embedding in E.
Qed.

Lemma fold_rune_lower uf (c d : ascii) :
  byte_of c < 128 -> is_lower d = true ->
  fold_rune uf (byte_of c) = fold_rune uf (byte_of d) <-> ascii_lower c = d.
Proof.
  unfold is_lower. intros Hc Hd. pose proof (byte_of_range c). pose proof (byte_of_range d).
  assert (E : byte_of (ascii_lower c) =
    if (65 <=? byte_of c) && (byte_of c <=? 90) then byte_of c + 32 else byte_of c).
  { unfold ascii_lower, is_upper.
    destruct ((65 <=? byte_of c) && (byte_of c <=? 90))%bool eqn:Eu; [|done]. bool_to_prop.
    apply byte_of_chr. lia. }
  unfold fold_rune. bool_to_prop. rewrite !(proj2 (Z.ltb_lt _ _)) by lia.
  rewrite (proj2 (Z.leb_le 97 (byte_of d))), (proj2 (Z.leb_le (byte_of d) 122)) by lia. cbn [andb].
  split; intros Heq.
  - apply byte_of_inj. rewrite E. destruct ((97 <=? byte_of c) && (byte_of c <=? 122))%bool eqn:E1,
      ((65 <=? byte_of c) && (byte_of c <=? 90))%bool eqn:E2; bool_to_prop; lia.
  - subst d. rewrite E in *. destruct ((97 <=? byte_of c) && (byte_of c <=? 122))%bool eqn:E1,
      ((65 <=? byte_of c) && (byte_of c <=? 90))%bool eqn:E2; bool_to_prop; lia.
Qed.

Lemma EqualFold_ascii ul uf (s t : string) :
  str_forall (fun c => byte_of c <? 128) s = true -> str_forall is_lower t = true ->
  EqualFold uf s t = bool_decide (ToLower ul s = t).
Proof.
  intros Hs Ht. unfold ToLower. rewrite Hs. unfold EqualFold. rewrite (runes_ascii s Hs).
  assert (Ht' : str_forall (fun c => byte_of c <? 128) t = true).
  { clear -Ht. induction t as [|d t IH]; [done|]. cbn [str_forall] in *.
    apply andb_true_iff in Ht as [Hd Ht]. rewrite IH by done. unfold is_lower in Hd. bool_to_prop.
    rewrite andb_true_r. apply Z.ltb_lt. lia. }
  rewrite (runes_ascii t Ht'). clear Ht'. apply bool_decide_ext. revert t Ht.
  induction s as [|c s IH]; intros [|d t] Ht; [done..|]. cbn [str_forall] in Hs, Ht.
  apply andb_true_iff in Hs as [Hc Hs], Ht as [Hd Ht]. apply Z.ltb_lt in Hc.
  cbn [bytes ascii_to_lower]. rewrite !fmap_cons.
  destruct (fold_rune_lower uf c d Hc Hd) as [F1 F2]. destruct (IH Hs t Ht) as [T1 T2].
  split; intros E; injection E as E1 E2.
  - by rewrite (F1 E1), (T1 E2).
  - by rewrite (F2 E1), (T2 E2).
Qed.

(** The name of a backend that lower-casing turns into the name of Redis. *)
Definition dotted_redis : string := "RED" +:+ encode_rune 304 +:+ "S".
Definition dotted_env : Env := fun k =>
  if bool_decide (k = "RATE_LIMIT_BACKEND") then Some dotted_redis
  else if bool_decide (k = "REDIS_HOST") then Some "redis" else None.

(** The choice of the backend.  For names in ASCII the limiter that is created
    is the one the validation of the configuration took the name for.  For
    others it need not be: the validation lower-cases the name and the choice
    compares under folding, and a dotted capital I, whose lower case is the
    ASCII letter, is not equal to it under folding.  Such a name passes the
    validation as Redis, and the gateway limits in memory without a warning. *)
Theorem backend_choice {R B} `{!Redis R B} (ul uf : Z -> Z) :
  (forall cfg, str_forall (fun c => byte_of c <? 128) (RateLimitBackend cfg) = true ->
     EqualFold uf (RateLimitBackend cfg) "redis" =
     bool_decide (ToLower ul (RateLimitBackend cfg) = "redis")) /\
  (ul 304 = 105 -> uf 304 <> 73 ->
     exists cfg m, Load ul dotted_env = inl cfg /\
       ToLower ul (RateLimitBackend cfg) = "redis" /\ RedisHost cfg = "redis" /\
       createRateLimiter (R := R) uf cfg =
         (inl (InMemory m), [mkLog "INFO" "using in-memory rate limiter" []])).
Proof.
  split; [intros cfg H; by apply EqualFold_ascii|]. intros Hl Hf.
  set (cfg := read_config dotted_env).
  assert (Er : runes dotted_redis = [82; 69; 68; 304; 83]) by (vm_compute; reflexivity).
  assert (Et : ToLower ul (RateLimitBackend cfg) = "redis").
  { change (RateLimitBackend cfg) with dotted_redis. unfold ToLower.
    change (str_forall _ dotted_redis) with false. cbv iota. rewrite Er. cbn. rewrite Hl.
    vm_compute. reflexivity. }
  assert (Hv : validate ul cfg = None).
  { apply validate_spec. split.
    - vm_compute. by split.
    - left. vm_compute. reflexivity.
    - vm_compute. by split.
    - rewrite Et. apply list_elem_of_further, list_elem_of_here.
    - intros _. split; [discriminate|]. vm_compute. by repeat split.
    - change (LogLevel cfg) with "info". change (ToLower ul "info") with "info".
      apply list_elem_of_further, list_elem_of_here.
    - change (DatabaseURL cfg) with "". change (DBUser cfg) with "". change (DBName cfg) with "".
      by intros [?|[?|?]]. }
  exists cfg. eexists. split; [|split; [exact Et|split; [reflexivity|]]].
  - unfold Load. fold cfg. change (DatabaseURL cfg) with "". rewrite bool_decide_false by naive_solver.
    by rewrite Hv.
  - unfold createRateLimiter, EqualFold. change (RateLimitBackend cfg) with dotted_redis.
    rewrite Er, bool_decide_false; [reflexivity|]. intros E. vm_compute in E. congruence.
Qed.

(** What is left of the limiter and the storage of a program that has ended. *)
Definition released {R B DB N} `{!Redis R B} (p p' : Program (R := R) (DB := DB) (N := N)) : Prop :=
  let storage_closed (st : option (CachedStore DB)) :=
    match st with Some c => CachedStore.stopped c = true | None => True end in
  match p, p' with
  | RunsMemory _ _ s, RunsMemory _ _ s' =>
      MemoryLimiter.stopped (g_limiter s') = true /\ storage_closed (g_store s') /\
      buckets (g_limiter s') = buckets (g_limiter s)
  | RunsRedis _ _ s, RunsRedis _ _ s' =>
      client (g_limiter s') = snd (client_Close (client (g_limiter s))) /\
      storage_closed (g_store s')
  | _, _ => False
  end.

Lemma release_released {R B DB N} `{!Redis R B, !SqlDriver DB}
    (p : Program (R := R) (DB := DB) (N := N)) : released p (release_program p).
Proof.
  destruct p as [lvl sv s|lvl sv s]; simpl.
  - split; [|by destruct (g_store s)]. unfold redis_Close. by destruct (client_Close _).
  - split; [done|]. split; [by destruct (g_store s)|done].
Qed.

(** An event that does not end [run]. *)
Definition quiet (e : event) : Prop :=
  match e with SignalReceived => False | ListenReturned err => startup_error err = None end.

Lemma await_quiet (pre evs : list event) : Forall quiet pre -> await (pre ++ evs) = await evs.
Proof.
  induction 1 as [|[|err] pre He _ IH]; [done|done|]. simpl in *. by rewrite He.
Qed.

(** The first event that is not quiet. *)
Lemma await_cases (evs : list event) :
  (Forall quiet evs /\ await evs = None) \/
  (exists pre e post, evs = pre ++ e :: post /\ Forall quiet pre /\
    match e with
    | SignalReceived => await evs = Some None
    | ListenReturned err => exists e', startup_error err = Some e' /\ await evs = Some (Some e')
    end).
Proof.
  induction evs as [|[|err] evs IH]; [by left| |].
  - right. by exists [], SignalReceived, evs.
  - destruct (startup_error err) as [e'|] eqn:E.
    + right. exists [], (ListenReturned err), evs. split; [done|]. split; [done|].
      exists e'. simpl. by rewrite E.
    + assert (Ha : await (ListenReturned err :: evs) = await evs) by (simpl; by rewrite E).
      rewrite Ha. destruct IH as [[H1 H2]|(pre & e & post & -> & Hp & He)].
      * left. split; [by constructor|done].
      * right. exists (ListenReturned err :: pre), e, post. split; [done|]. split; [by constructor|done].
Qed.

(** The end of a run.  [run] waits as long as nothing happens but a listener
    closed in the regular way, and returns at the first signal or failure of
    the listener.  It is no error, and the exit code is 0, exactly when that
    was a signal and the shutdown succeeded.  Whichever way it returns, the
    limiter and the cache have been closed, so that their cleanup goroutines
    end. *)
Theorem run_ends {R B DB N} `{!Redis R B, !SqlDriver DB} (p : Program (R := R) (DB := DB) (N := N))
    (evs : list event) (shutdown : option error) :
  match run_end p evs shutdown with
  | None => Forall quiet evs
  | Some (err, p') =>
      (exit_code err = 0 <->
       shutdown = None /\ exists pre post, evs = pre ++ SignalReceived :: post /\ Forall quiet pre) /\
      released p p'
  end.
Proof.
  pose proof (release_released p) as Hrel.
  unfold run_end. destruct (await_cases evs) as [[H ->]|(pre & e & post & -> & Hp & He)]; [done|].
  destruct e as [|err].
  - rewrite He. split; [|exact Hrel]. destruct shutdown as [e|]; simpl.
    + split; [done|]. by intros [? _].
    + split; [|done]. intros _. split; [done|]. by exists pre, post.
  - destruct He as (e' & Hs & ->). split; [|exact Hrel]. simpl. split; [done|].
    intros (_ & pre' & post' & E & Hp'). exfalso.
    pose proof (await_quiet pre' (SignalReceived :: post') Hp') as H1.
    pose proof (await_quiet pre (ListenReturned err :: post) Hp) as H2.
    rewrite E, H1 in H2. simpl in H2. by rewrite Hs in H2.
Qed.
